(* ===== verification/_CoqProject ===== *)
-Q . S2P
Prelude.v
Tlv.v
Frame.v
ShardMap.v
EcField.v
Ec.v
EcProof.v
NetLease.v
Lease.v
Flow.v
Layout.v
Prog.v
Caps.v
CapsProof.v
Submit.v
SubmitProof.v
Request.v
RequestProof.v
Wire.v
WireProof.v
Create.v
CreateProof.v
CreateRpc.v
Dir.v
DirProof.v
Volume.v
Writeback.v
WritebackProof.v
WritebackStore.v
Predict.v
PredictWork.v
Inline.v
Dio.v
Commit.v
CommitProof.v
