(* ===== verification/Prelude.v ===== *)
(** * PowerFS kernel client: verification library (root file)

    PowerFS is a distributed file system; [src/powerfs_mod/] is its Linux
    client.  Metadata lives on filers (sharded by inode number), data on
    volume servers as needles of one chunk each.  The client talks to both in
    frames whose bodies are TLV messages, holds range leases and capabilities
    that allow it to cache, and bounds the requests in flight per connection.

    ** Parts and files

    - [Tlv]: the message codec, [powerfs_tlv.c].  Encoder and decoder state
      are records over byte lists; one definition per function.  Shown: what
      is encoded is decoded, in order and by field search; the decoder never
      leaves its buffer on any input; the encoder's contract on a full buffer.
    - [Frame]: CRC32C and the 28-byte frame header, second half of
      [powerfs_net_shard.c].  Shown: the table-driven checksum equals the
      bitwise definition; streaming; headers round-trip and a burst of damage
      of up to four bytes is rejected.
    - [ShardMap]: routing of an inode to its metadata shard, first half of
      [powerfs_net_shard.c].  Shown: after an update of either form, lookups
      return the shard that owns the slot.
    - [EcField], [Ec], [EcProof]: the erasure codec of [powerfs_ec.c]: field
      tables, matrices, encode and decode.  Shown: field laws; Gauss-Jordan
      elimination inverts every invertible matrix; decode after encode
      restores every lost shard; the initialiser never succeeds (a defect).
    - [NetLease]: the lease and capability RPCs of [powerfs_net_lease.c] over
      [Tlv] and an abstract transport.  Shown: requests readable by the peer,
      results by response, and defects in reply handling and buffer bounds.
    - [Lease]: the range leases of an inode, [powerfs_lease.c], over
      [NetLease]; a search tree and critical sections interleaved with RPCs.
      Shown: in every interleaving, with releases that fail and renewals that
      are refused, each token received is in the tree, carried by a thread,
      released or recorded as lost; outcome of each operation; schedule and
      defects of the renewal.
    - [Flow]: admission control and statistics, [powerfs_flow.c], as programs
      of single atomic accesses.  Shown: the admission policy; exact counters
      and bounded write slots in every interleaving; detection and recovery
      of slow connections; two defects, as theorems outside the main list.
    - [Layout]: the FileLayout parser of [powerfs_net_inode.c] over [Tlv], the
      merge into the inode and the address computation of [powerfs_inode.c].
      Shown: the address computation refines a specification by chunk number;
      striping is a bijection; an encoded layout applied gives the server's
      needles; arrays and counts stay consistent, the base needles of stripes
      under a condition; one out-of-bounds defect.
    - [Prog]: programs of critical sections and outside calls, their runs,
      traces, guarantees and interleavings, for [Caps] and [Submit].
    - [Caps], [CapsProof]: the capabilities of an inode, [powerfs_caps.c],
      using the clock of [NetLease] and the inline and placement fields of
      [Layout].  Operations are programs of critical sections and outside
      calls whose answers are arbitrary.  Shown: the invariant of the
      capability tree in every interleaving; a flush writes every dirty bit
      back or keeps it dirty, or the payload of an inline file stays in the
      inode; a recall lowers, tries to write back and only then acknowledges,
      also after a failed flush; [powerfs_get_caps] and the shrinker terminate; an
      optimistic create is upgraded only with a token of the filer.
    - [Submit], [SubmitProof]: the routing of a metadata request,
      [powerfs_request_submit] of [powerfs_net_req.c] with the shard-route
      table of [powerfs_net_conn.c]; redirect bodies are decoded with [Tlv].
      Shown: in a stable cluster the leader of the shard is reached after at
      most one request to each filer; success is the answer of the last filer
      asked and the flow accounting is balanced, under any interference;
      redirects round-trip.
    - [Request], [RequestProof]: the life of an asynchronous request on one
      connection: [powerfs_request_do_send], completion and timeout work of
      [powerfs_net_req.c], response, transmission, disconnect and fault of
      [powerfs_net_conn.c].  Threads are places in these functions and their
      interleavings lists of events.  Shown: each request is at one place and
      is completed at most once; what a completed request reports; a request
      with a deadline can always be ended without the filer; examples of use
      after free in three races.
    - [Wire], [WireProof]: frames over a non-blocking socket: the receive
      state machine and loop of [powerfs_net_conn.c], the TCP operations of
      [powerfs_net_tcp_ops.c] and the resumable sender of
      [powerfs_net_sock.c], over the headers of [Frame].  Shown: frames arrive
      whole and in order however the stream is cut; bounds of the buffers on
      any stream; the loop terminates; a resumed send writes the frame once;
      an example of the stale offset after a reconnect.
    - [Create], [CreateProof]: optimistic creates of [powerfs_dir.c]: pools of
      pre-allocated inode numbers, the fast path of a create, the list of
      creates the filer does not know yet, its flush with retries, and
      unlink, lookup, fsync, rmdir and eviction as far as they use it.
      Threads are places in these functions.  Shown: every create is at one
      place and none is lost silently; inode numbers are given out once; a
      create that waits has a flush on its way; a flush the filer refuses
      ends after its retries; examples of the races the code admits.
    - [CreateRpc]: the RPCs [AllocInodeBatch] and [BatchCreate] of
      [powerfs_net_inode.c] over [Tlv] and the class [ShardTransport].
      Shown: the filer reads back what was encoded; placements and inode
      numbers of a response reach the inode they were made for; a response
      never writes past the arrays of the caller.
    - [Dir], [DirProof]: the cached entry list of a directory of
      [powerfs_dir.c], [powerfs_readdir] with its fetch and merge, and the
      READDIR RPC of [powerfs_net_inode.c].  Shown: names stay unique in every
      interleaving; a fetch merges the filer's list with what is cached; a
      reader alone sees every entry; pages round-trip; examples of entries
      hidden or skipped.
    - [Volume]: the pool of volume connections, the needle RPCs and
      [powerfs_net_read] of [powerfs_net_data.c], [powerfs_net_write] of
      [powerfs_net_inode.c].  Shown: a read returns the bytes of the needles
      that [Layout] locates; the outcome of a read of an erasure-coded file,
      uninitialised bytes of short shards included; a rewritten chunk; requests
      are readable.  The class [VolumeServersOk] says what servers do; a WRITE
      may replace a needle or overwrite its front, because the comments of the
      sources disagree.
    - [Writeback], [WritebackProof], [WritebackStore]: the writeback of
      [powerfs_addr.c]: collection of dirty pages into batches, the work
      function with its groups and extents, the callbacks, over the needle
      RPCs of [Volume].  Shown: dirty pages are partitioned; in every
      interleaving pages are ended once and a batch is freed once and not used
      after that, if no group loses a submission before its first request;
      when a batch is over without an error its data are in the file; examples
      of a batch used after it was freed, of a page ended twice and of two
      requests for one page.
    - [Predict], [PredictWork]: the optional write prediction of
      [powerfs_write_predict.c] with its hooks in writeback and direct I/O and
      [powerfs_locate_chunk_for_read] of [powerfs_inode.c].  Shown: skipped
      writes are sound as far as the hash can tell, under conditions that
      examples show to be needed; reads look where writes went; the workers
      that report fingerprints are bounded.
    - [Inline]: small files in the inode: the staging of [powerfs_write_end],
      [powerfs_migrate_inline_out] and [powerfs_align_inline_before_commit] of
      [powerfs_addr.c], GETATTR and the allocation RPC of
      [powerfs_net_inode.c].  Shown: a migration and a write keep the bytes of
      the file while no other thread changes the inode meanwhile, and what a
      write without memory loses; examples of a migration not tried again, a refused first
      write and data lost without memory.
    - [Dio]: direct I/O, [powerfs_direct_IO] and its workers.  Shown: what is
      written is read; when the copy from user pages is right and when it
      overruns; an example of data a Stripe file never finds.
    - [Commit], [CommitProof]: flush, fsync and release of [powerfs_file.c]
      with [powerfs_sync_inode_size_chunks], the writeback of the size of
      [powerfs_inode.c], the UPDATE_INODE_SIZE_CHUNKS and SETATTR requests.
      Shown, for files of at most 1489 chunks with computed addresses and ids
      that are not 0: the filer gets a chunk map only when every needle in it is
      on disk, and whoever has the map finds the writer's needles; an fsync that
      returns 0 has committed; a size that is written back alone keeps the map
      from being published; examples of a close that publishes too early, of
      volumes that are not flushed and of maps that are cut or left out.

    This file holds what the others share: truncations to machine widths,
    little-endian bytes, lists indexed by [Z], automation and hints.

    ** Conventions

    C integers are [Z] with the truncation written where C converts; buffers
    are lists of [Z] in [0, 256); null pointers are [None]; kernel errors are
    negative [Z].  Code of the kernel and of other machines is a parameter
    with named laws ([KernelTime], [NetTransport], [RbTree], [KernelSocket],
    [ShardTransport], [VolumeTransport], [VolumeServers], [DiskServers],
    [Filer], the environment [fs_env] of a commit), an oracle argument
    (allocations) or an outside call that may answer anything.  A critical
    section under a spinlock is one step; an atomic access of lock-free code
    is one step; interleavings are lists of such steps or the
    reflexive-transitive closure of a pool step.

    Fuel: most loops recurse on their data.  The exceptions, each proved to
    have enough: the field search of [Tlv] (one more than the buffer), the
    binary search of [ShardMap] (one more than the entries), [get_caps_loop]
    (31, one more than the 30 rounds of the source), the scan of the
    shrinker (one more than the list), the response parsers of [CreateRpc],
    [Dir] and [Inline] (one more than the bytes of the response), and the read
    loop of [Volume] (two more than the whole chunks).  [run_alone] counts
    the steps of one thread; its theorems say how many are enough.
    [submit_loop] runs until its deadline in the source; its fuel counts attempts, and the theorem on a stable
    cluster needs one attempt per filer.  The waits of [Flow] have no bound in
    the source beyond their timeout, and the theorems about them are about
    every reachable state.

    ** Not modelled

    Socket set-up, receive and scheduler threads, reconnect, synchronous
    waiters of [powerfs_request_do_send], notifications, pools, discovery and
    RDMA (kernel I/O; only the frame format, status mapping, routing, requests
    and flow accounting they use); the inode and xattr RPCs other than GETATTR,
    SETATTR, the layout fields, READDIR, the allocation for a migration, the
    update of size and chunks and the two RPCs of optimistic creates (further
    encoders of the same form); the
    synchronous path of a create, dentry revalidation and the other VFS,
    netfs and page-cache callbacks in [powerfs_inode.c], [powerfs_dir.c],
    [powerfs_dentry.c], [powerfs_file.c], [powerfs_readahead.c] and
    [page_cache.c], and [powerfs_write_begin] (their work is done by the
    kernel); the effect of direct I/O on the page cache; mount and module
    code; [powerfs_locks.c] (disabled with [#if 0]); [tlk_codec.c] and
    [lock_client.c] (not linked).  Log output, metrics and debugfs listings
    are left out everywhere.

    ** What could follow

    The remaining inode RPC encoders of [powerfs_net_inode.c] (lookup, create,
    link, rename), the refresh of attributes in [powerfs_inode.c], the dentry
    leases of [powerfs_dentry.c] and the synchronous waiters of
    [powerfs_request_do_send]. *)

From Stdlib Require Export ZArith Lia.
From stdpp Require Export base list gmap.

#[global] Open Scope Z_scope.

(** ** Machine integers

    A w-bit unsigned integer of the C source is a [Z] in [0, 2^w); every
    operation that can leave that range is followed by one of these
    truncations, at the place where C converts. *)

Definition u8 (x : Z) : Z := x mod 2 ^ 8.
Definition u16 (x : Z) : Z := x mod 2 ^ 16.
Definition u32 (x : Z) : Z := x mod 2 ^ 32.
Definition u64 (x : Z) : Z := x mod 2 ^ 64.
Definition s32 (x : Z) : Z := (x + 2 ^ 31) mod 2 ^ 32 - 2 ^ 31.
Definition s64 (x : Z) : Z := (x + 2 ^ 63) mod 2 ^ 64 - 2 ^ 63.

Definition is_u8 (x : Z) : Prop := 0 <= x < 2 ^ 8.
Definition is_u32 (x : Z) : Prop := 0 <= x < 2 ^ 32.
Definition is_u64 (x : Z) : Prop := 0 <= x < 2 ^ 64.

Declare Scope pfs_scope.
Delimit Scope pfs_scope with pfs.

(** [size_t] addition of the 64-bit kernel, with its wrap-around. *)
Notation "x +s y" := (u64 (x + y)) (at level 50, left associativity) : pfs_scope.

#[global] Open Scope pfs_scope.

(** ** errno values (asm-generic/errno-base.h, errno.h) *)

Definition ENOENT : Z := 2.
Definition EIO : Z := 5.
Definition E2BIG : Z := 7.
Definition EAGAIN : Z := 11.
Definition ENOMEM : Z := 12.
Definition EBUSY : Z := 16.
Definition EINVAL : Z := 22.
Definition ENOSPC : Z := 28.
Definition ERANGE : Z := 34.
Definition ENOSYS : Z := 38.
Definition ENODATA : Z := 61.
Definition EBADMSG : Z := 74.
Definition EILSEQ : Z := 84.

(** ** Tactics *)

(** [lia] with division and remainder by constants. *)
Ltac div_lia := Z.to_euclidean_division_equations; lia.

(** Turn boolean comparisons into propositions, everywhere. *)
Ltac bool_to_prop :=
  repeat match goal with
  | H : (_ && _)%bool = true |- _ => apply andb_true_iff in H; destruct H
  | H : (_ || _)%bool = false |- _ => apply orb_false_iff in H; destruct H
  | H : (_ <? _) = true |- _ => apply Z.ltb_lt in H
  | H : (_ <? _) = false |- _ => apply Z.ltb_ge in H
  | H : (_ >? _) = true |- _ => rewrite Z.gtb_ltb in H; apply Z.ltb_lt in H
  | H : (_ >? _) = false |- _ => rewrite Z.gtb_ltb in H; apply Z.ltb_ge in H
  | H : (_ <=? _) = true |- _ => apply Z.leb_le in H
  | H : (_ <=? _) = false |- _ => apply Z.leb_gt in H
  | H : (_ =? _) = true |- _ => apply Z.eqb_eq in H
  | H : (_ =? _) = false |- _ => apply Z.eqb_neq in H
  | H : negb _ = true |- _ => apply negb_true_iff in H
  | H : negb _ = false |- _ => apply negb_false_iff in H
  end.

(** Case analysis on the condition of an [if] in the goal, with the
    comparison turned into a proposition. *)
Ltac case_if :=
  match goal with
  | |- context [if ?b then _ else _] =>
      lazymatch type of b with
      | bool => let E := fresh "E" in destruct b eqn:E; bool_to_prop
      end
  end.

Ltac case_if_in H :=
  match type of H with
  | context [if ?b then _ else _] =>
      lazymatch type of b with
      | bool => let E := fresh "E" in destruct b eqn:E; bool_to_prop
      end
  end.

(** Decide a concrete boolean comparison and substitute its value. *)
Ltac ltb_true := match goal with
  | |- context [?a <? ?b] => replace (a <? b) with true by (symmetry; apply Z.ltb_lt; lia)
  | |- context [?a >? ?b] => replace (a >? b) with true by (symmetry; rewrite Z.gtb_ltb; apply Z.ltb_lt; lia)
  end.
Ltac ltb_false := match goal with
  | |- context [?a <? ?b] => replace (a <? b) with false by (symmetry; apply Z.ltb_ge; lia)
  | |- context [?a >? ?b] => replace (a >? b) with false by (symmetry; rewrite Z.gtb_ltb; apply Z.ltb_ge; lia)
  end.

(** Split a [Forall] over a concrete list, and the conjunctions under it. *)
Ltac split_forall := repeat match goal with
  | |- Forall _ (_ :: _) => constructor
  | |- Forall _ [] => constructor
  | |- _ /\ _ => split
  end.

(** Case analysis on membership in a concrete list. *)
Ltac inv_elem := repeat match goal with
  | H : _ ∈ _ :: _ |- _ => apply elem_of_cons in H; destruct H as [->|H]
  | H : _ ∈ [] |- _ => apply elem_of_nil in H; destruct H
  end.

(** ** Integer lemmas *)

Create HintDb pfs.
Create Rewrite HintDb pfs.

Lemma u8_small x : 0 <= x < 256 -> u8 x = x.
Proof. apply Z.mod_small. Qed.
Lemma u16_small x : 0 <= x < 2 ^ 16 -> u16 x = x.
Proof. apply Z.mod_small. Qed.
Lemma u32_small x : 0 <= x < 2 ^ 32 -> u32 x = x.
Proof. apply Z.mod_small. Qed.
Lemma u64_small x : 0 <= x < 2 ^ 64 -> u64 x = x.
Proof. apply Z.mod_small. Qed.
Lemma u8_range x : 0 <= u8 x < 256.
Proof. apply Z.mod_pos_bound; lia. Qed.
Lemma u32_range x : 0 <= u32 x < 2 ^ 32.
Proof. apply Z.mod_pos_bound; lia. Qed.
Lemma u64_range x : 0 <= u64 x < 2 ^ 64.
Proof. apply Z.mod_pos_bound; lia. Qed.

#[export] Hint Resolve u8_range u32_range u64_range : pfs.

Lemma land_255 x : Z.land x 255 = x mod 256.
Proof. change 255 with (Z.ones 8). by rewrite Z.land_ones. Qed.

Lemma lor_disjoint_add a b k :
  0 <= k -> 0 <= a < 2 ^ k -> Z.lor a (Z.shiftl b k) = a + b * 2 ^ k.
Proof.
  intros Hk Ha. rewrite <- Z.shiftl_mul_pow2 by done.
  rewrite Z.add_nocarry_lxor, Z.lxor_lor; [done| |];
    apply Z.bits_inj'; intros n Hn; rewrite Z.land_spec, Z.bits_0;
    destruct (Z.lt_ge_cases n k);
    rewrite ?Z.shiftl_spec_low, ?andb_false_r by lia; try done;
    rewrite <- (Z.mod_small a (2 ^ k)) by lia;
    rewrite Z.mod_pow2_bits_high; done.
Qed.

(** ** Buffers

    A C byte array is the list of its bytes; reads are guarded by the code's
    own length checks, so the default of [byte_at] is never observed on a
    well-formed decoder (see the [_wf] lemmas of the codecs). *)

Abbreviation buffer := (list Z).

Definition byte_at (b : buffer) (i : Z) : Z := default 0 (b !! Z.to_nat i).

(** The [n] bytes starting at offset [i]. *)
Definition slice (b : buffer) (i n : Z) : buffer := take (Z.to_nat n) (drop (Z.to_nat i) b).

Definition blen (b : buffer) : Z := Z.of_nat (length b).

Definition bytes_ok (b : buffer) : Prop := Forall (fun x => 0 <= x < 256) b.

(** [memcpy(&buf[i], src, |src|)] into an array. *)
Definition blit (b : buffer) (i : Z) (src : buffer) : buffer :=
  take (Z.to_nat i) b ++ src ++ drop (Z.to_nat i + length src) b.

Lemma blen_nonneg b : 0 <= blen b.
Proof. unfold blen; lia. Qed.
Lemma blen_app a b : blen (a ++ b) = blen a + blen b.
Proof. unfold blen. rewrite length_app. lia. Qed.
Lemma blen_cons x b : blen (x :: b) = 1 + blen b.
Proof. unfold blen; simpl length; lia. Qed.
Lemma blen_nil : blen [] = 0.
Proof. done. Qed.
#[export] Hint Resolve blen_nonneg : pfs.
#[export] Hint Rewrite blen_app blen_cons blen_nil : pfs.

Lemma take_blen b : take (Z.to_nat (blen b)) b = b.
Proof. unfold blen. by rewrite Nat2Z.id, firstn_all. Qed.

Lemma bytes_ok_app a b : bytes_ok (a ++ b) <-> bytes_ok a /\ bytes_ok b.
Proof. apply Forall_app. Qed.

Lemma byte_at_range b i : bytes_ok b -> 0 <= byte_at b i < 256.
Proof.
  intros Hb. unfold byte_at. destruct (b !! Z.to_nat i) eqn:E; simpl; [|lia].
  eapply Forall_lookup_1 in Hb; eauto.
Qed.

Lemma byte_at_app_r a b i :
  0 <= i -> byte_at (a ++ b) (blen a + i) = byte_at b i.
Proof.
  intros Hi. unfold byte_at, blen. rewrite lookup_app_r by lia.
  do 2 f_equal. lia.
Qed.

Lemma byte_at_app_l a b i :
  0 <= i < blen a -> byte_at (a ++ b) i = byte_at a i.
Proof. intros Hi. unfold byte_at, blen in *. by rewrite lookup_app_l by lia. Qed.

Lemma slice_app_exact a b c : slice (a ++ b ++ c) (blen a) (blen b) = b.
Proof.
  unfold slice, blen. rewrite !Nat2Z.id, drop_app_length. apply take_app_length.
Qed.

Lemma blen_slice b i n :
  0 <= i -> 0 <= n -> i + n <= blen b -> blen (slice b i n) = n.
Proof. unfold blen, slice. intros. rewrite length_take, length_drop. lia. Qed.

Lemma blit_length b i src :
  0 <= i -> i + blen src <= blen b -> blen (blit b i src) = blen b.
Proof.
  unfold blit, blen. intros. rewrite !length_app, length_take, length_drop. lia.
Qed.

(** Writing behind a prefix of length [i] keeps that prefix and appends. *)
Lemma blit_take b i src :
  0 <= i -> i + blen src <= blen b ->
  take (Z.to_nat (i + blen src)) (blit b i src) = take (Z.to_nat i) b ++ src.
Proof.
  intros Hi Hb. unfold blit. rewrite app_assoc, take_app_le.
  2:{ rewrite length_app, length_take. unfold blen in *. lia. }
  rewrite take_ge; [done|]. rewrite length_app, length_take. unfold blen in *. lia.
Qed.

Lemma blit_drop b i src :
  0 <= i -> i + blen src <= blen b ->
  drop (Z.to_nat (i + blen src)) (blit b i src) = drop (Z.to_nat (i + blen src)) b.
Proof.
  intros Hi Hb. unfold blit. rewrite app_assoc.
  replace (Z.to_nat (i + blen src)) with (length (take (Z.to_nat i) b ++ src)) at 1.
  - rewrite drop_app_length. f_equal. unfold blen; lia.
  - rewrite length_app, length_take. unfold blen in *. lia.
Qed.

(** ** Array loops

    [for (i = 0; i < n; i++) a[i] = f(i);] fills the first [n] slots. *)

Lemma insert_at_length {A} (l : list A) x y r : <[length l := y]> (l ++ x :: r) = l ++ y :: r.
Proof. replace (length l) with (length l + 0)%nat by lia. by rewrite insert_app_r. Qed.

Lemma insert_drop_middle {A} (l t : list A) k y :
  length l = k -> (k < length t)%nat -> <[k := y]> (l ++ drop k t) = (l ++ [y]) ++ drop (S k) t.
Proof.
  intros <- Hk. destruct (lookup_lt_is_Some_2 t (length l) Hk) as [x Hx].
  rewrite (drop_S _ _ _ Hx), insert_at_length, <- app_assoc. done.
Qed.

Lemma foldl_fill {A} (f : nat -> A) n (t : list A) :
  (n <= length t)%nat ->
  foldl (fun t i => <[i := f i]> t) t (seq 0 n) = (f <$> seq 0 n) ++ drop n t.
Proof.
  induction n as [|n IH]; intros Hn; [done|].
  rewrite seq_S, foldl_app, IH by lia; simpl. rewrite fmap_app; simpl.
  apply insert_drop_middle; [|lia]. by rewrite length_fmap, length_seq.
Qed.

(** ** Little- and big-endian integers *)

(** Byte [i] of [v]: [(v >> (8*i)) & 0xFF]. *)
Definition byte_of (v : Z) (i : Z) : Z := Z.land (Z.shiftr v (8 * i)) 255.

Fixpoint le_split (n : nat) (v : Z) : buffer :=
  match n with
  | O => []
  | S n => Z.land v 255 :: le_split n (Z.shiftr v 8)
  end.

Fixpoint le_combine (l : buffer) : Z :=
  match l with
  | [] => 0
  | b :: l => Z.lor b (Z.shiftl (le_combine l) 8)
  end.

Definition be_split (n : nat) (v : Z) : buffer := reverse (le_split n v).
Definition be_combine (l : buffer) : Z := le_combine (reverse l).

Lemma length_le_split n v : length (le_split n v) = n.
Proof. revert v; induction n; intros; simpl; auto. Qed.
Lemma blen_le_split n v : blen (le_split n v) = Z.of_nat n.
Proof. unfold blen. by rewrite length_le_split. Qed.
Lemma blen_be_split n v : blen (be_split n v) = Z.of_nat n.
Proof. unfold blen, be_split. by rewrite length_reverse, length_le_split. Qed.
#[export] Hint Rewrite blen_le_split blen_be_split : pfs.

Lemma le_split_ok n v : bytes_ok (le_split n v).
Proof.
  revert v; induction n as [|n IH]; intros v; simpl; constructor.
  - rewrite land_255. apply Z.mod_pos_bound; lia.
  - apply IH.
Qed.
Lemma be_split_ok n v : bytes_ok (be_split n v).
Proof. apply Forall_reverse, le_split_ok. Qed.
#[export] Hint Resolve le_split_ok be_split_ok : pfs.

Lemma le_combine_split n v : le_combine (le_split n v) = v mod 2 ^ (8 * Z.of_nat n).
Proof.
  revert v; induction n as [|n IH]; intros v; [by rewrite Z.mod_1_r|].
  simpl le_split. simpl le_combine. rewrite IH, land_255.
  rewrite lor_disjoint_add by (pose proof (Z.mod_pos_bound v 256); lia).
  rewrite Z.shiftr_div_pow2 by lia.
  replace (8 * Z.of_nat (S n)) with (8 + 8 * Z.of_nat n) by lia.
  rewrite Z.pow_add_r by lia. change (2 ^ 8) with 256.
  rewrite Z.rem_mul_r by (try apply Z.pow_nonzero; lia). lia.
Qed.

Lemma le_combine_range l : bytes_ok l -> 0 <= le_combine l < 2 ^ (8 * blen l).
Proof.
  induction 1 as [|b l Hb Hl IH]; simpl; [done|].
  rewrite lor_disjoint_add by lia.
  rewrite blen_cons. replace (8 * (1 + blen l)) with (8 + 8 * blen l) by lia.
  rewrite Z.pow_add_r by (pose proof (blen_nonneg l); lia). lia.
Qed.

Lemma le_split_combine l : bytes_ok l -> le_split (length l) (le_combine l) = l.
Proof.
  induction 1 as [|b l Hb Hl IH]; simpl; [done|].
  rewrite lor_disjoint_add by lia. f_equal.
  - rewrite land_255. change (2 ^ 8) with 256. rewrite Z.mod_add by lia.
    apply Z.mod_small; lia.
  - rewrite Z.shiftr_div_pow2, Z.div_add, Z.div_small by lia. by rewrite Z.add_0_l.
Qed.

Lemma be_combine_split n v : be_combine (be_split n v) = v mod 2 ^ (8 * Z.of_nat n).
Proof. unfold be_combine, be_split. by rewrite reverse_involutive, le_combine_split. Qed.

Lemma le_combine_split_small n v :
  0 <= v < 2 ^ (8 * Z.of_nat n) -> le_combine (le_split n v) = v.
Proof. intros. rewrite le_combine_split. by apply Z.mod_small. Qed.

(** ** jiffies comparisons (include/linux/jiffies.h): the sign of the
    difference of two [unsigned long] counters. *)

Definition time_after (a b : Z) : bool := s64 (b - a) <? 0.
Definition time_before (a b : Z) : bool := time_after b a.
Definition time_after_eq (a b : Z) : bool := 0 <=? s64 (a - b).

Lemma s64_small x : - 2 ^ 63 <= x < 2 ^ 63 -> s64 x = x.
Proof. intros. unfold s64. rewrite Z.mod_small; lia. Qed.

Lemma time_after_near a b :
  Z.abs (b - a) < 2 ^ 63 -> time_after a b = (b <? a).
Proof.
  intros. unfold time_after. rewrite s64_small by lia.
  destruct (Z.ltb_spec (b - a) 0), (Z.ltb_spec b a); lia.
Qed.

Lemma time_after_eq_near a b :
  Z.abs (b - a) < 2 ^ 63 -> time_after_eq a b = (b <=? a).
Proof.
  intros. unfold time_after_eq. rewrite s64_small by lia.
  destruct (Z.leb_spec 0 (a - b)), (Z.leb_spec b a); lia.
Qed.
