(* ===== verification/Tlv.v ===== *)
(** * Data-path TLV codec (powerfs_tlv.c)

    The encoder appends [field (1B) | length (4B big-endian) | value] records
    to a caller-supplied buffer; the decoder reads them back, either in order
    ([powerfs_tlv_dec_u*]) or by scanning the whole buffer
    ([powerfs_tlv_dec_find_*]).  Integers inside a value are little-endian.

    The functional specification is [tlv_message]: the concatenation of the
    fields.  The encoder is shown to produce it, the decoder to look a field
    up in it, and both to stay inside their buffer on every input. *)

From S2P Require Import Prelude.

Definition POWERFS_NET_MAX_TLV : Z := 65535.

(** ** Encoder *)

Record tlv_enc := mk_enc { enc_buf : buffer; enc_len : Z; enc_cap : Z }.

Definition powerfs_tlv_enc_init (buf : buffer) (cap : Z) : tlv_enc := mk_enc buf 0 cap.

(** [enc->buf[enc->len++] = b] *)
Definition enc_put (e : tlv_enc) (b : Z) : tlv_enc :=
  mk_enc (<[Z.to_nat (enc_len e) := b]> (enc_buf e)) (enc_len e + 1) (enc_cap e).

(** [memcpy(&enc->buf[enc->len], src, n); enc->len += n] *)
Definition enc_copy (e : tlv_enc) (src : buffer) : tlv_enc :=
  mk_enc (blit (enc_buf e) (enc_len e) src) (enc_len e + blen src) (enc_cap e).

Definition powerfs_tlv_enc_write_hdr (e : tlv_enc) (field length : Z) : Z * tlv_enc :=
  if enc_len e +s 5 >? enc_cap e then (- ENOSPC, e)
  else
    (0, foldl enc_put e
          [ field;
            u8 (Z.land (Z.shiftr length 24) 255);
            u8 (Z.land (Z.shiftr length 16) 255);
            u8 (Z.land (Z.shiftr length 8) 255);
            u8 (Z.land length 255) ]).

Definition powerfs_tlv_enc_u8 (e : tlv_enc) (field val : Z) : Z * tlv_enc :=
  let '(ret, e) := powerfs_tlv_enc_write_hdr e field 1 in
  if ret <? 0 then (ret, e)
  else if enc_len e +s 1 >? enc_cap e then (- ENOSPC, e)
  else (0, enc_put e val).

Definition powerfs_tlv_enc_u16 (e : tlv_enc) (field val : Z) : Z * tlv_enc :=
  let '(ret, e) := powerfs_tlv_enc_write_hdr e field 2 in
  if ret <? 0 then (ret, e)
  else if enc_len e +s 2 >? enc_cap e then (- ENOSPC, e)
  else (0, foldl enc_put e [Z.land val 255; Z.land (Z.shiftr val 8) 255]).

Definition powerfs_tlv_enc_u32 (e : tlv_enc) (field val : Z) : Z * tlv_enc :=
  let '(ret, e) := powerfs_tlv_enc_write_hdr e field 4 in
  if ret <? 0 then (ret, e)
  else if enc_len e +s 4 >? enc_cap e then (- ENOSPC, e)
  else (0, enc_copy e [Z.land val 255; Z.land (Z.shiftr val 8) 255;
                       Z.land (Z.shiftr val 16) 255; Z.land (Z.shiftr val 24) 255]).

Definition powerfs_tlv_enc_u64 (e : tlv_enc) (field val : Z) : Z * tlv_enc :=
  let '(ret, e) := powerfs_tlv_enc_write_hdr e field 8 in
  if ret <? 0 then (ret, e)
  else if enc_len e +s 8 >? enc_cap e then (- ENOSPC, e)
  else (0, enc_copy e (map (fun i => Z.land (Z.shiftr val (i * 8)) 255)
                           [0; 1; 2; 3; 4; 5; 6; 7])).

(** [data] is [None] for a NULL pointer; [len] is the caller's length, the
    number of bytes read through the pointer when it is not NULL. *)
Definition powerfs_tlv_enc_bytes (e : tlv_enc) (field : Z) (data : option buffer) (len : Z)
  : Z * tlv_enc :=
  if len >? POWERFS_NET_MAX_TLV then (- E2BIG, e)
  else
    let '(ret, e) := powerfs_tlv_enc_write_hdr e field (u32 len) in
    if ret <? 0 then (ret, e)
    else if enc_len e +s len >? enc_cap e then (- ENOSPC, e)
    else match data with
         | Some d => if len >? 0 then (0, enc_copy e (take (Z.to_nat len) d)) else (0, e)
         | None => (0, e)
         end.

Definition powerfs_tlv_enc_string (e : tlv_enc) (field : Z) (str : option buffer) (len : Z)
  : Z * tlv_enc :=
  if len >? POWERFS_NET_MAX_TLV then (- E2BIG, e)
  else
    let '(ret, e) := powerfs_tlv_enc_write_hdr e field (u32 len) in
    if ret <? 0 then (ret, e)
    else if enc_len e +s len >? enc_cap e then (- ENOSPC, e)
    else match str with
         | Some d => if len >? 0 then (0, enc_copy e (take (Z.to_nat len) d)) else (0, e)
         | None => (0, e)
         end.

Definition powerfs_tlv_enc_nested (e : tlv_enc) (field : Z) (data : option buffer) (len : Z)
  : Z * tlv_enc :=
  if len >? POWERFS_NET_MAX_TLV then (- E2BIG, e)
  else powerfs_tlv_enc_bytes e field data len.

Definition powerfs_tlv_enc_len (e : tlv_enc) : Z := enc_len e.

(** ** Decoder *)

Record tlv_dec := mk_dec { dec_buf : buffer; dec_len : Z; dec_pos : Z }.

Definition powerfs_tlv_dec_init (buf : buffer) (len : Z) : tlv_dec := mk_dec buf len 0.

Definition set_pos (d : tlv_dec) (p : Z) : tlv_dec := mk_dec (dec_buf d) (dec_len d) p.

(** The 4-byte big-endian length at offset [p]. *)
Definition be32_at (b : buffer) (p : Z) : Z :=
  Z.lor (Z.lor (Z.lor (u32 (Z.shiftl (byte_at b p) 24))
                      (u32 (Z.shiftl (byte_at b (p + 1)) 16)))
               (u32 (Z.shiftl (byte_at b (p + 2)) 8)))
        (byte_at b (p + 3)).

(** Result, field id, length, decoder.  On [-ENOENT] the out-parameters are
    not written; on [-EINVAL] the position stays behind the header. *)
Definition powerfs_tlv_dec_next (d : tlv_dec) : Z * option (Z * Z) * tlv_dec :=
  if dec_pos d +s 5 >? dec_len d then (- ENOENT, None, d)
  else
    let field := byte_at (dec_buf d) (dec_pos d) in
    let d := set_pos d (dec_pos d + 1) in
    let length := be32_at (dec_buf d) (dec_pos d) in
    let d := set_pos d (dec_pos d + 4) in
    if dec_pos d +s length >? dec_len d then (- EINVAL, Some (field, length), d)
    else (0, Some (field, length), d).

(** Offset of the value (a pointer into the buffer) and its length; [None]
    for NULL. *)
Definition powerfs_tlv_dec_read (d : tlv_dec) (expected_field expected_len : Z)
  : option (Z * Z) * tlv_dec :=
  if dec_pos d +s 5 >? dec_len d then (None, d)
  else
    let field := byte_at (dec_buf d) (dec_pos d) in
    let length := be32_at (dec_buf d) (dec_pos d + 1) in
    if (dec_pos d +s 5) +s length >? dec_len d then (None, d)
    else
      let d := set_pos d (dec_pos d + 5) in
      if negb (field =? expected_field) then (None, set_pos d (dec_pos d + length))
      else if (expected_len >? 0) && negb (length =? expected_len)
           then (None, set_pos d (dec_pos d + length))
           else (Some (dec_pos d, length), d).

Definition le16_at (b : buffer) (p : Z) : Z :=
  Z.lor (byte_at b p) (Z.shiftl (byte_at b (p + 1)) 8).

Definition le32_at (b : buffer) (p : Z) : Z :=
  Z.lor (Z.lor (Z.lor (byte_at b p) (u32 (Z.shiftl (byte_at b (p + 1)) 8)))
               (u32 (Z.shiftl (byte_at b (p + 2)) 16)))
        (u32 (Z.shiftl (byte_at b (p + 3)) 24)).

(** [*val = 0; for (i = 0; i < 8; i++) *val |= (__u64)data[i] << (i * 8);] *)
Definition le64_at (b : buffer) (p : Z) : Z :=
  foldl (fun val i => Z.lor val (u64 (Z.shiftl (byte_at b (p + i)) (i * 8))))
        0 [0; 1; 2; 3; 4; 5; 6; 7].

Definition powerfs_tlv_dec_u8 (d : tlv_dec) (field : Z) : Z * option Z * tlv_dec :=
  match powerfs_tlv_dec_read d field 1 with
  | (None, d) => (- ENOENT, None, d)
  | (Some (p, _), d) => (0, Some (byte_at (dec_buf d) p), set_pos d (dec_pos d + 1))
  end.

Definition powerfs_tlv_dec_u16 (d : tlv_dec) (field : Z) : Z * option Z * tlv_dec :=
  match powerfs_tlv_dec_read d field 2 with
  | (None, d) => (- ENOENT, None, d)
  | (Some (p, _), d) => (0, Some (le16_at (dec_buf d) p), set_pos d (dec_pos d + 2))
  end.

Definition powerfs_tlv_dec_u32 (d : tlv_dec) (field : Z) : Z * option Z * tlv_dec :=
  match powerfs_tlv_dec_read d field 4 with
  | (None, d) => (- ENOENT, None, d)
  | (Some (p, _), d) => (0, Some (le32_at (dec_buf d) p), set_pos d (dec_pos d + 4))
  end.

Definition powerfs_tlv_dec_u64 (d : tlv_dec) (field : Z) : Z * option Z * tlv_dec :=
  match powerfs_tlv_dec_read d field 8 with
  | (None, d) => (- ENOENT, None, d)
  | (Some (p, _), d) => (0, Some (le64_at (dec_buf d) p), set_pos d (dec_pos d + 8))
  end.

(** The bytes copied into [str] (the terminating NUL, written at index
    [actual_len], is left implicit). *)
Definition powerfs_tlv_dec_string (d : tlv_dec) (field max_len : Z)
  : Z * option buffer * tlv_dec :=
  match powerfs_tlv_dec_read d field 0 with
  | (None, d) => (- ENOENT, None, d)
  | (Some (p, actual_len), d) =>
      if actual_len >=? max_len then (- E2BIG, None, set_pos d (dec_pos d + actual_len))
      else (0, Some (slice (dec_buf d) p actual_len), set_pos d (dec_pos d + actual_len))
  end.

Definition powerfs_tlv_dec_skip (d : tlv_dec) (length : Z) : Z * tlv_dec :=
  if dec_pos d +s length >? dec_len d then (- EINVAL, d)
  else (0, set_pos d (dec_pos d + length)).

Definition powerfs_tlv_dec_is_empty (d : tlv_dec) : bool := dec_pos d >=? dec_len d.

(** The scan shared by the four [find] functions: starting at offset 0, read
    headers with [powerfs_tlv_dec_next] until [hit field length] holds.  The
    result is the decoder positioned on the value and its length, [None] when
    the loop ends without a hit, and [out_of_fuel] never happens with the fuel
    the callers give (see [find_loop_fuel]). *)
Inductive find_result :=
| found (d : tlv_dec) (cur_len : Z)
| not_found
| out_of_fuel.

Fixpoint find_loop (fuel : nat) (hit : Z -> Z -> bool) (d : tlv_dec) : find_result :=
  match fuel with
  | O => out_of_fuel
  | S fuel =>
      if dec_pos d <? dec_len d then
        match powerfs_tlv_dec_next d with
        | (ret, Some (cur_field, cur_len), d) =>
            if negb (ret =? 0) then not_found
            else if hit cur_field cur_len then found d cur_len
            else find_loop fuel hit (set_pos d (dec_pos d + cur_len))
        | (_, None, _) => not_found
        end
      else not_found
  end.

Definition find_fuel (d : tlv_dec) : nat := S (Z.to_nat (dec_len d)).

Definition find_from_start (hit : Z -> Z -> bool) (d : tlv_dec) : find_result :=
  find_loop (find_fuel d) hit (set_pos d 0).

Definition powerfs_tlv_dec_find_u64 (d : tlv_dec) (field : Z) : Z * option Z * tlv_dec :=
  match find_from_start (fun f l => (f =? field) && (l =? 8)) d with
  | found d' _ => (0, Some (le64_at (dec_buf d') (dec_pos d')), set_pos d' (dec_pos d' + 8))
  | _ => (- ENOENT, None, set_pos d (dec_pos d))
  end.

Definition powerfs_tlv_dec_find_u32 (d : tlv_dec) (field : Z) : Z * option Z * tlv_dec :=
  match find_from_start (fun f l => (f =? field) && (l =? 4)) d with
  | found d' _ => (0, Some (le32_at (dec_buf d') (dec_pos d')), set_pos d' (dec_pos d' + 4))
  | _ => (- ENOENT, None, set_pos d (dec_pos d))
  end.

Definition powerfs_tlv_dec_find_u8 (d : tlv_dec) (field : Z) : Z * option Z * tlv_dec :=
  match find_from_start (fun f l => (f =? field) && (l =? 1)) d with
  | found d' _ => (0, Some (byte_at (dec_buf d') (dec_pos d')), set_pos d' (dec_pos d' + 1))
  | _ => (- ENOENT, None, set_pos d (dec_pos d))
  end.

(** The value is returned as its offset and length in the buffer. *)
Definition powerfs_tlv_dec_find_raw (d : tlv_dec) (field : Z) : Z * option (Z * Z) * tlv_dec :=
  match find_from_start (fun f _ => f =? field) d with
  | found d' cur_len => (0, Some (dec_pos d', cur_len), set_pos d' (dec_pos d' + cur_len))
  | _ => (- ENOENT, None, set_pos d (dec_pos d))
  end.

(** ** Functional specification: a message is the concatenation of fields *)

Definition tlv_field (f : Z) (v : buffer) : buffer := f :: be_split 4 (blen v) ++ v.

#[global] Arguments tlv_field : simpl never.

Definition tlv_message (fs : list (Z * buffer)) : buffer :=
  mjoin ((fun fv => tlv_field (fst fv) (snd fv)) <$> fs).

Definition field_ok (fv : Z * buffer) : Prop :=
  is_u8 (fst fv) /\ bytes_ok (snd fv) /\ blen (snd fv) < 2 ^ 32.

(** ** Encoder lemmas *)

(** The bytes emitted so far. *)
Definition enc_written (e : tlv_enc) : buffer := take (Z.to_nat (enc_len e)) (enc_buf e).

(** Well-formed encoder: the capacity is the size of the buffer (below 2^63, as
    any kernel object is) and the length stays inside it. *)
Definition enc_wf (e : tlv_enc) : Prop :=
  0 <= enc_len e <= enc_cap e /\ enc_cap e = blen (enc_buf e) /\ enc_cap e < 2 ^ 63.

Definition enc_room (e : tlv_enc) : Z := enc_cap e - enc_len e.

Lemma enc_init_wf buf : blen buf < 2 ^ 63 -> enc_wf (powerfs_tlv_enc_init buf (blen buf)).
Proof. unfold enc_wf; simpl. pose proof (blen_nonneg buf). lia. Qed.

Lemma enc_put_copy e b : enc_wf e -> 1 <= enc_room e -> enc_put e b = enc_copy e [b].
Proof.
  intros (Hl & Hc & _) Hr. unfold enc_put, enc_copy, enc_room in *. f_equal.
  unfold blit, blen in *. rewrite insert_take_drop by lia.
  do 3 f_equal. simpl; lia.
Qed.

Lemma enc_copy_wf e bs :
  enc_wf e -> blen bs <= enc_room e -> enc_wf (enc_copy e bs).
Proof.
  intros (Hl & Hc & Hs) Hr. unfold enc_wf, enc_copy, enc_room in *; simpl.
  pose proof (blen_nonneg bs). rewrite blit_length; lia.
Qed.

Lemma enc_copy_written e bs :
  enc_wf e -> blen bs <= enc_room e ->
  enc_written (enc_copy e bs) = enc_written e ++ bs.
Proof.
  intros (Hl & Hc & Hs) Hr. unfold enc_written, enc_copy, enc_room in *; simpl.
  apply blit_take; lia.
Qed.

(** [e'] extends [e] by the bytes [bs]. *)
Definition enc_ext (e : tlv_enc) (bs : buffer) (e' : tlv_enc) : Prop :=
  enc_wf e' /\ enc_written e' = enc_written e ++ bs /\ enc_cap e' = enc_cap e.

Lemma blen_written e : enc_wf e -> blen (enc_written e) = enc_len e.
Proof.
  intros (Hl & Hc & Hs). unfold enc_written, blen in *. rewrite length_take. lia.
Qed.

Lemma enc_ext_room e bs e' :
  enc_wf e -> enc_ext e bs e' -> enc_room e' = enc_room e - blen bs.
Proof.
  intros Hw (Hw' & Hb & Hc). unfold enc_room.
  apply (f_equal blen) in Hb. rewrite blen_app, !blen_written in Hb by done. lia.
Qed.

Lemma enc_ext_refl e : enc_wf e -> enc_ext e [] e.
Proof. intros. split_and!; auto. by rewrite app_nil_r. Qed.

Lemma enc_ext_trans e a e1 b e2 :
  enc_ext e a e1 -> enc_ext e1 b e2 -> enc_ext e (a ++ b) e2.
Proof.
  intros (H1 & H2 & H3) (H4 & H5 & H6). split_and!; [done| |congruence].
  by rewrite H5, H2, app_assoc.
Qed.

Lemma enc_copy_ext e bs :
  enc_wf e -> blen bs <= enc_room e -> enc_ext e bs (enc_copy e bs).
Proof. intros. split_and!; [by apply enc_copy_wf|by apply enc_copy_written|done]. Qed.

Lemma enc_puts_ext bs e :
  enc_wf e -> blen bs <= enc_room e -> enc_ext e bs (foldl enc_put e bs).
Proof.
  revert e; induction bs as [|b bs IH]; intros e Hw Hr; simpl; [by apply enc_ext_refl|].
  rewrite blen_cons in Hr. pose proof (blen_nonneg bs).
  rewrite enc_put_copy by (done || lia).
  assert (He : enc_ext e [b] (enc_copy e [b])) by (apply enc_copy_ext; [done|rewrite blen_cons, blen_nil; lia]).
  apply (enc_ext_trans e [b] (enc_copy e [b]) bs); [done|].
  apply IH; [by destruct He|]. rewrite (enc_ext_room _ _ _ Hw He), blen_cons, blen_nil. lia.
Qed.

Lemma sadd_fits x y c :
  0 <= x <= c -> 0 <= y < 2 ^ 63 -> c < 2 ^ 63 -> (x +s y >? c) = (x + y >? c).
Proof. intros. by rewrite u64_small by lia. Qed.

Lemma tlv_hdr_bytes l :
  [u8 (Z.land (Z.shiftr l 24) 255); u8 (Z.land (Z.shiftr l 16) 255);
   u8 (Z.land (Z.shiftr l 8) 255); u8 (Z.land l 255)] = be_split 4 l.
Proof.
  unfold be_split, reverse. simpl. rewrite !Z.shiftr_shiftr by lia.
  assert (H : forall x, u8 (Z.land x 255) = Z.land x 255)
    by (intros; rewrite land_255; apply u8_small, Z.mod_pos_bound; lia).
  by rewrite !H.
Qed.

(** The header either fits and is appended, or nothing changes. *)
Lemma write_hdr_spec e f l :
  enc_wf e ->
  (enc_room e < 5 -> powerfs_tlv_enc_write_hdr e f l = (- ENOSPC, e)) /\
  (5 <= enc_room e ->
   exists e', powerfs_tlv_enc_write_hdr e f l = (0, e') /\ enc_ext e (f :: be_split 4 l) e').
Proof.
  intros Hw. destruct Hw as (Hl & Hc & Hs) eqn:E; clear E.
  unfold powerfs_tlv_enc_write_hdr, enc_room in *. rewrite sadd_fits by lia.
  split; intros Hr; [by ltb_true|]. ltb_false. eexists; split; [done|].
  rewrite tlv_hdr_bytes. apply enc_puts_ext; [done|].
  rewrite blen_cons, blen_be_split. unfold enc_room. lia.
Qed.

(** The common shape of the encoders: a header, then [n] bytes of value that
    [body] appends once the second capacity check has passed. *)
Definition enc_field_with (e : tlv_enc) (f l n : Z) (body : tlv_enc -> tlv_enc) : Z * tlv_enc :=
  let '(ret, e) := powerfs_tlv_enc_write_hdr e f l in
  if ret <? 0 then (ret, e)
  else if enc_len e +s n >? enc_cap e then (- ENOSPC, e)
  else (0, body e).

(** What every encoder does with a value [v]: the three cases are "fits",
    "only the header fits" (the header stays in the buffer) and "nothing
    fits". *)
Definition enc_spec (e : tlv_enc) (f : Z) (v : buffer) (r : Z * tlv_enc) : Prop :=
  (5 + blen v <= enc_room e -> fst r = 0 /\ enc_ext e (tlv_field f v) (snd r)) /\
  (5 <= enc_room e < 5 + blen v ->
     fst r = - ENOSPC /\ enc_ext e (f :: be_split 4 (blen v)) (snd r)) /\
  (enc_room e < 5 -> r = (- ENOSPC, e)).

Lemma enc_field_with_spec e f v body :
  enc_wf e -> blen v < 2 ^ 63 ->
  (forall e', enc_wf e' -> blen v <= enc_room e' -> enc_ext e' v (body e')) ->
  enc_spec e f v (enc_field_with e f (blen v) (blen v) body).
Proof.
  intros Hw Hv Hbody. unfold enc_field_with.
  pose proof (blen_nonneg v) as Hv0.
  destruct (write_hdr_spec e f (blen v) Hw) as [Hno Hyes].
  destruct (Z.lt_ge_cases (enc_room e) 5) as [Hlt|Hge].
  - rewrite (Hno Hlt). split_and!; intros; [lia|lia|done].
  - destruct (Hyes Hge) as (e' & -> & Hext). simpl.
    pose proof (enc_ext_room _ _ _ Hw Hext) as Hroom.
    rewrite blen_cons, blen_be_split in Hroom.
    destruct (proj1 Hext) as (Hl & Hc & Hs). rewrite sadd_fits by lia.
    unfold enc_spec, enc_room in *. split_and!; intros Hr; [ltb_false|ltb_true|lia]; simpl.
    + split; [done|]. unfold tlv_field.
      apply (enc_ext_trans e (f :: be_split 4 (blen v)) e' v); [done|].
      apply Hbody; [by destruct Hext|]. unfold enc_room in *; lia.
    + done.
Qed.

Lemma u8_bytes_split v : is_u8 v -> [v] = le_split 1 v.
Proof. intros H. simpl. rewrite land_255, Z.mod_small by apply H. done. Qed.

Lemma enc_u8_spec e f v :
  enc_wf e -> is_u8 v -> enc_spec e f (le_split 1 v) (powerfs_tlv_enc_u8 e f v).
Proof.
  intros Hw Hv. rewrite <- u8_bytes_split by done.
  apply (enc_field_with_spec e f [v] (fun e => enc_put e v)); [done|by cbn|].
  intros e' Hw' Hr. rewrite enc_put_copy by done. by apply enc_copy_ext.
Qed.

Lemma enc_u16_spec e f v :
  enc_wf e -> enc_spec e f (le_split 2 v) (powerfs_tlv_enc_u16 e f v).
Proof.
  intros Hw.
  apply (enc_field_with_spec e f (le_split 2 v) (fun e => foldl enc_put e (le_split 2 v)));
    [done|by cbn|]. intros; by apply enc_puts_ext.
Qed.

Lemma le32_bytes v :
  [Z.land v 255; Z.land (Z.shiftr v 8) 255;
   Z.land (Z.shiftr v 16) 255; Z.land (Z.shiftr v 24) 255] = le_split 4 v.
Proof. simpl. by rewrite !Z.shiftr_shiftr by lia. Qed.

Lemma le64_bytes v :
  map (fun i => Z.land (Z.shiftr v (i * 8)) 255) [0; 1; 2; 3; 4; 5; 6; 7] = le_split 8 v.
Proof. simpl. by rewrite !Z.shiftr_shiftr, Z.shiftr_0_r by lia. Qed.

Lemma enc_u32_spec e f v :
  enc_wf e -> enc_spec e f (le_split 4 v) (powerfs_tlv_enc_u32 e f v).
Proof.
  intros Hw. unfold powerfs_tlv_enc_u32. rewrite le32_bytes.
  apply (enc_field_with_spec e f (le_split 4 v) (fun e => enc_copy e (le_split 4 v)));
    [done|by cbn|]. intros; by apply enc_copy_ext.
Qed.

Lemma enc_u64_spec e f v :
  enc_wf e -> enc_spec e f (le_split 8 v) (powerfs_tlv_enc_u64 e f v).
Proof.
  intros Hw. unfold powerfs_tlv_enc_u64. rewrite le64_bytes.
  apply (enc_field_with_spec e f (le_split 8 v) (fun e => enc_copy e (le_split 8 v)));
    [done|by cbn|]. intros; by apply enc_copy_ext.
Qed.

Lemma enc_bytes_spec e f v :
  enc_wf e -> blen v <= POWERFS_NET_MAX_TLV ->
  enc_spec e f v (powerfs_tlv_enc_bytes e f (Some v) (blen v)).
Proof.
  intros Hw Hv. unfold powerfs_tlv_enc_bytes. pose proof (blen_nonneg v).
  unfold POWERFS_NET_MAX_TLV in *. ltb_false. rewrite u32_small by lia.
  rewrite take_blen.
  replace (let '(ret, e) := _ in _)
    with (enc_field_with e f (blen v) (blen v) (fun e => if blen v >? 0 then enc_copy e v else e)).
  2:{ unfold enc_field_with. destruct (powerfs_tlv_enc_write_hdr e f (blen v)) as [ret e'].
      by repeat case_if. }
  apply enc_field_with_spec; [done|lia|].
  intros e' Hw' Hr. case_if; [by apply enc_copy_ext|].
  destruct v; [by apply enc_ext_refl|rewrite blen_cons in *; pose proof (blen_nonneg v); lia].
Qed.

Lemma enc_string_bytes e f d l :
  powerfs_tlv_enc_string e f d l = powerfs_tlv_enc_bytes e f d l.
Proof. done. Qed.

Lemma enc_nested_bytes e f d l :
  powerfs_tlv_enc_nested e f d l = powerfs_tlv_enc_bytes e f d l.
Proof.
  unfold powerfs_tlv_enc_nested. destruct (l >? POWERFS_NET_MAX_TLV) eqn:E; [|done].
  unfold powerfs_tlv_enc_bytes. by rewrite E.
Qed.

(** ** Integer reads of the decoder *)

Lemma shiftl_lt b k : 0 <= k -> 0 <= b < 256 -> 0 <= Z.shiftl b k < 2 ^ (8 + k).
Proof. intros. rewrite Z.shiftl_mul_pow2, Z.pow_add_r by lia. nia. Qed.

Lemma u32_shiftl b k : 0 <= k <= 24 -> 0 <= b < 256 -> u32 (Z.shiftl b k) = Z.shiftl b k.
Proof.
  intros Hk Hb. apply u32_small. pose proof (shiftl_lt b k ltac:(lia) Hb).
  pose proof (Z.pow_le_mono_r 2 (8 + k) 32). lia.
Qed.

Lemma u64_shiftl b k : 0 <= k <= 56 -> 0 <= b < 256 -> u64 (Z.shiftl b k) = Z.shiftl b k.
Proof.
  intros Hk Hb. apply u64_small. pose proof (shiftl_lt b k ltac:(lia) Hb).
  pose proof (Z.pow_le_mono_r 2 (8 + k) 64). lia.
Qed.

Section reads.
Context (b : buffer) (Hb : bytes_ok b).

Let bnd i : 0 <= byte_at b i < 256 := byte_at_range b i Hb.

Lemma be32_at_combine p :
    be32_at b p =
    be_combine [byte_at b p; byte_at b (p + 1); byte_at b (p + 2); byte_at b (p + 3)].
  Proof using Hb bnd.
    pose proof (bnd p); pose proof (bnd (p + 1)); pose proof (bnd (p + 2)); pose proof (bnd (p + 3)).
    unfold be32_at, be_combine, reverse; simpl. rewrite Z.shiftl_0_l, Z.lor_0_r.
    rewrite !u32_shiftl by lia.
    rewrite (Z.lor_comm _ (byte_at b (p + 3))), (Z.lor_comm _ (Z.shiftl (byte_at b (p + 2)) 8)).
    rewrite (Z.lor_comm _ (Z.shiftl (byte_at b (p + 1)) 16)).
    by rewrite !Z.shiftl_lor, !Z.shiftl_shiftl by lia.
  Qed.

Lemma le16_at_combine p : le16_at b p = le_combine [byte_at b p; byte_at b (p + 1)].
  Proof using Type. unfold le16_at; simpl. by rewrite Z.shiftl_0_l, Z.lor_0_r. Qed.

Lemma le32_at_combine p :
    le32_at b p =
    le_combine [byte_at b p; byte_at b (p + 1); byte_at b (p + 2); byte_at b (p + 3)].
  Proof using Hb bnd.
    pose proof (bnd (p + 1)); pose proof (bnd (p + 2)); pose proof (bnd (p + 3)).
    unfold le32_at; simpl. rewrite !u32_shiftl by lia.
    rewrite Z.shiftl_0_l, Z.lor_0_r, !Z.shiftl_lor, !Z.shiftl_shiftl by lia.
    by rewrite !Z.lor_assoc.
  Qed.

Lemma le64_at_combine p :
    le64_at b p =
    le_combine [byte_at b p; byte_at b (p + 1); byte_at b (p + 2); byte_at b (p + 3);
                byte_at b (p + 4); byte_at b (p + 5); byte_at b (p + 6); byte_at b (p + 7)].
  Proof using Hb bnd.
    unfold le64_at. cbn -[Z.lor Z.shiftl byte_at Z.add].
    rewrite !u64_shiftl by (lia || apply bnd).
    rewrite Z.lor_0_l, Z.shiftl_0_r, Z.add_0_r, Z.shiftl_0_l, Z.lor_0_r.
    rewrite !Z.shiftl_lor, !Z.shiftl_shiftl by lia.
    by rewrite !Z.lor_assoc.
  Qed.
End reads.

(** Reads at the end of a known prefix. *)
Lemma be32_at_prefix pre l post :
  bytes_ok pre -> bytes_ok post -> is_u32 l ->
  be32_at (pre ++ be_split 4 l ++ post) (blen pre) = l.
Proof.
  intros Hpre Hpost Hl.
  rewrite be32_at_combine by (rewrite !bytes_ok_app; auto using be_split_ok).
  replace (blen pre) with (blen pre + 0) at 1 by lia. rewrite !byte_at_app_r by lia.
  change (be_combine (be_split 4 l) = l).
  rewrite be_combine_split. by apply Z.mod_small.
Qed.

Lemma le64_at_prefix pre v post :
  bytes_ok pre -> bytes_ok post -> is_u64 v ->
  le64_at (pre ++ le_split 8 v ++ post) (blen pre) = v.
Proof.
  intros Hpre Hpost Hl.
  rewrite le64_at_combine by (rewrite !bytes_ok_app; auto using le_split_ok).
  replace (blen pre) with (blen pre + 0) at 1 by lia. rewrite !byte_at_app_r by lia.
  change (le_combine (le_split 8 v) = v). by apply le_combine_split_small.
Qed.

Lemma le32_at_prefix pre v post :
  bytes_ok pre -> bytes_ok post -> is_u32 v ->
  le32_at (pre ++ le_split 4 v ++ post) (blen pre) = v.
Proof.
  intros Hpre Hpost Hl.
  rewrite le32_at_combine by (rewrite !bytes_ok_app; auto using le_split_ok).
  replace (blen pre) with (blen pre + 0) at 1 by lia. rewrite !byte_at_app_r by lia.
  change (le_combine (le_split 4 v) = v). by apply le_combine_split_small.
Qed.

Lemma le16_at_prefix pre v post :
  0 <= v < 2 ^ 16 -> le16_at (pre ++ le_split 2 v ++ post) (blen pre) = v.
Proof.
  intros Hl. rewrite le16_at_combine.
  replace (blen pre) with (blen pre + 0) at 1 by lia. rewrite !byte_at_app_r by lia.
  change (le_combine (le_split 2 v) = v). by apply le_combine_split_small.
Qed.

Lemma byte_at_prefix pre v post : byte_at (pre ++ v :: post) (blen pre) = v.
Proof.
  replace (blen pre) with (blen pre + 0) at 1 by lia. by rewrite byte_at_app_r by lia.
Qed.

(** The header length read at any offset fits 32 bits. *)
Lemma be32_at_range b p : bytes_ok b -> is_u32 (be32_at b p).
Proof.
  intros Hb. rewrite be32_at_combine by done.
  apply (le_combine_range [_; _; _; _]).
  repeat (constructor; [by apply byte_at_range|]). constructor.
Qed.

(** ** Decoder lemmas *)

(** Well-formed decoder: the position is inside the buffer. *)
Definition dec_wf (d : tlv_dec) : Prop :=
  0 <= dec_pos d <= dec_len d /\ dec_len d = blen (dec_buf d) /\
  dec_len d < 2 ^ 63 /\ bytes_ok (dec_buf d).

Lemma dec_init_wf buf :
  bytes_ok buf -> blen buf < 2 ^ 63 -> dec_wf (powerfs_tlv_dec_init buf (blen buf)).
Proof. intros. pose proof (blen_nonneg buf). split_and!; simpl; auto; lia. Qed.

Lemma set_pos_wf d p : dec_wf d -> 0 <= p <= dec_len d -> dec_wf (set_pos d p).
Proof. intros (?&?&?&?) ?. split_and!; simpl; auto; lia. Qed.

(** Header fields at the current position. *)
Definition hdr_field (d : tlv_dec) : Z := byte_at (dec_buf d) (dec_pos d).
Definition hdr_length (d : tlv_dec) : Z := be32_at (dec_buf d) (dec_pos d + 1).

Lemma dec_next_spec d :
  dec_wf d ->
  powerfs_tlv_dec_next d =
    if dec_pos d + 5 >? dec_len d then (- ENOENT, None, d)
    else (if dec_pos d + 5 + hdr_length d >? dec_len d then - EINVAL else 0,
          Some (hdr_field d, hdr_length d), set_pos d (dec_pos d + 5)).
Proof.
  intros (Hp & Hl & Hs & Hb). unfold powerfs_tlv_dec_next.
  rewrite sadd_fits by lia. case_if; [done|]. simpl.
  pose proof (be32_at_range (dec_buf d) (dec_pos d + 1) Hb) as Hr. unfold is_u32 in Hr.
  rewrite u64_small by lia. fold (hdr_length d) (hdr_field d).
  replace (dec_pos d + 1 + 4) with (dec_pos d + 5) by lia.
  unfold set_pos; simpl. by destruct (_ >? _).
Qed.

(** Every scan terminates within the fuel the callers give, and a hit is a
    field of the buffer whose value lies entirely inside it. *)
Lemma find_loop_safe fuel hit d :
  dec_wf d -> (Z.to_nat (dec_len d - dec_pos d) < fuel)%nat ->
  match find_loop fuel hit d with
  | found d' l =>
      dec_wf d' /\ dec_buf d' = dec_buf d /\ dec_len d' = dec_len d /\
      0 <= l /\ dec_pos d' + l <= dec_len d' /\ dec_pos d + 5 <= dec_pos d' /\
      l = be32_at (dec_buf d') (dec_pos d' - 4) /\
      hit (byte_at (dec_buf d') (dec_pos d' - 5)) l = true
  | not_found => True
  | out_of_fuel => False
  end.
Proof.
  revert d; induction fuel as [|fuel IH]; intros d Hw Hf; [lia|]. simpl.
  destruct (dec_pos d <? dec_len d) eqn:Hlt; [|done].
  rewrite dec_next_spec by done.
  destruct (dec_pos d + 5 >? dec_len d) eqn:E1; [done|].
  destruct (dec_pos d + 5 + hdr_length d >? dec_len d) eqn:E2; [done|]. simpl.
  bool_to_prop. destruct Hw as (Hp & Hl & Hs & Hb).
  pose proof (be32_at_range (dec_buf d) (dec_pos d + 1) Hb) as Hr.
  fold (hdr_length d) in Hr. unfold is_u32 in Hr.
  destruct (hit (hdr_field d) (hdr_length d)) eqn:Eh.
  - simpl. replace (dec_pos d + 5 - 4) with (dec_pos d + 1) by lia.
    replace (dec_pos d + 5 - 5) with (dec_pos d) by lia.
    split_and!; auto; try lia. split_and!; simpl; auto; lia.
  - set (d1 := set_pos d (dec_pos d + 5 + hdr_length d)).
    assert (Hw1 : dec_wf d1) by (apply set_pos_wf; [split_and!; auto|]; lia).
    specialize (IH d1 Hw1). simpl in IH.
    change (set_pos (set_pos d (dec_pos d + 5)) (dec_pos d + 5 + hdr_length d)) with d1.
    destruct (find_loop fuel hit d1); [|done|apply IH; lia].
    destruct IH as (?&?&?&?&?&?&?&?); [lia|]. split_and!; auto; lia.
Qed.

(** A scan from the start of a well-formed decoder keeps its buffer. *)
Lemma find_from_start_wf hit d d' l :
  dec_wf d -> find_from_start hit d = found d' l ->
  dec_wf d' /\ dec_buf d' = dec_buf d /\ 0 <= l /\ dec_pos d' + l <= dec_len d' /\
  hit (byte_at (dec_buf d') (dec_pos d' - 5)) l = true.
Proof.
  intros Hw Hf. pose proof Hw as (Hp & Hl & Hs & Hb).
  assert (Hw0 : dec_wf (set_pos d 0)) by (apply set_pos_wf; [done|lia]).
  pose proof (find_loop_safe (find_fuel d) hit (set_pos d 0) Hw0) as H.
  specialize (H ltac:(unfold find_fuel, set_pos; simpl; lia)). unfold find_from_start in Hf.
  rewrite Hf in H. destruct H as (H1 & H2 & _ & H4 & H5 & _ & _ & H8). split_and!; auto.
Qed.

(** The first field of a message a scan accepts. *)
Fixpoint lookup_field (hit : Z -> Z -> bool) (fs : list (Z * buffer)) : option buffer :=
  match fs with
  | [] => None
  | (f, v) :: fs => if hit f (blen v) then Some v else lookup_field hit fs
  end.

Lemma tlv_field_ok f v : is_u8 f -> bytes_ok v -> bytes_ok (tlv_field f v).
Proof.
  intros. unfold tlv_field. constructor; [done|]. rewrite bytes_ok_app. auto using be_split_ok.
Qed.

Lemma tlv_message_ok fs : Forall field_ok fs -> bytes_ok (tlv_message fs).
Proof.
  induction 1 as [|[f v] fs (Hf & Hv & _) _ IH]; [constructor|].
  change (bytes_ok (tlv_field f v ++ tlv_message fs)). rewrite bytes_ok_app.
  auto using tlv_field_ok.
Qed.

Lemma blen_tlv_field f v : blen (tlv_field f v) = 5 + blen v.
Proof. unfold tlv_field. rewrite blen_cons, blen_app, blen_be_split. lia. Qed.

Lemma tlv_message_cons f v fs : tlv_message ((f, v) :: fs) = tlv_field f v ++ tlv_message fs.
Proof. done. Qed.

Lemma tlv_message_app a b : tlv_message (a ++ b) = tlv_message a ++ tlv_message b.
Proof. unfold tlv_message. by rewrite fmap_app, join_app. Qed.

(** At the start of a field, [powerfs_tlv_dec_next] reads that field. *)
Lemma dec_next_field pre f v post :
  bytes_ok pre -> bytes_ok post -> field_ok (f, v) ->
  blen (pre ++ tlv_field f v ++ post) < 2 ^ 63 ->
  let buf := pre ++ tlv_field f v ++ post in
  powerfs_tlv_dec_next (mk_dec buf (blen buf) (blen pre)) =
    (0, Some (f, blen v), mk_dec buf (blen buf) (blen pre + 5)).
Proof.
  intros Hpre Hpost (Hf & Hv & Hlen) Hb buf; simpl in Hf, Hv, Hlen.
  pose proof (blen_nonneg pre); pose proof (blen_nonneg post); pose proof (blen_nonneg v).
  assert (Hok : bytes_ok buf) 
    by (unfold buf; rewrite !bytes_ok_app; split_and!; [done|by apply tlv_field_ok|done]).
  assert (Hbl : blen buf = blen pre + (5 + blen v) + blen post)
    by (unfold buf; rewrite !blen_app, blen_tlv_field; lia).
  rewrite dec_next_spec by (split_and!; simpl; auto; lia).
  assert (Hhf : hdr_field (mk_dec buf (blen buf) (blen pre)) = f)
    by (unfold hdr_field, buf; simpl; apply byte_at_prefix).
  assert (Hhl : hdr_length (mk_dec buf (blen buf) (blen pre)) = blen v).
  { unfold hdr_length; simpl.
    replace buf with ((pre ++ [f]) ++ be_split 4 (blen v) ++ (v ++ post))
      by (unfold buf, tlv_field; simpl; by rewrite <- !app_assoc).
    replace (blen pre + 1) with (blen (pre ++ [f])) by (rewrite blen_app; done).
    apply be32_at_prefix; [| |split; lia]; rewrite bytes_ok_app; auto.
    split; [done|]. constructor; [done|constructor]. }
  rewrite Hhf, Hhl. simpl. ltb_false. by ltb_false.
Qed.

(** The scan of a message finds the first matching field, positioned on its
    value, and nothing else. *)
Lemma find_loop_message fuel hit pre fs :
  bytes_ok pre -> Forall field_ok fs -> blen (pre ++ tlv_message fs) < 2 ^ 63 ->
  (Z.to_nat (blen (tlv_message fs)) < fuel)%nat ->
  let buf := pre ++ tlv_message fs in
  match lookup_field hit fs with
  | Some v => exists a c, buf = a ++ v ++ c /\ bytes_ok a /\ bytes_ok c /\ bytes_ok v /\
      find_loop fuel hit (mk_dec buf (blen buf) (blen pre)) =
        found (mk_dec buf (blen buf) (blen a)) (blen v)
  | None => find_loop fuel hit (mk_dec buf (blen buf) (blen pre)) = not_found
  end.
Proof.
  revert fuel pre; induction fs as [|[f v] fs IH]; intros fuel pre Hpre Hfs Hb Hf buf; subst buf.
  - destruct fuel; [lia|]. simpl. rewrite app_nil_r. ltb_false. done.
  - apply Forall_cons in Hfs as [Hfv Hfs]. pose proof Hfv as (Hf8 & Hv & Hlen).
    simpl in Hf8, Hv, Hlen.
    rewrite tlv_message_cons in *.
    pose proof (tlv_message_ok fs Hfs) as Hmok.
    pose proof (blen_nonneg pre); pose proof (blen_nonneg v);
      pose proof (blen_nonneg (tlv_message fs)).
    destruct fuel as [|fuel]; [lia|]. cbn [find_loop lookup_field dec_pos dec_len].
    rewrite !blen_app, blen_tlv_field in *. ltb_true.
    rewrite <- (blen_tlv_field f v), <- !blen_app.
    rewrite dec_next_field by (auto; rewrite !blen_app, blen_tlv_field; lia).
    cbn [negb Z.eqb]. destruct (hit f (blen v)).
    + exists (pre ++ f :: be_split 4 (blen v)), (tlv_message fs).
      split_and!; auto.
      * unfold tlv_field. by rewrite <- !app_assoc.
      * rewrite bytes_ok_app. split; [done|]. constructor; [done|]. apply be_split_ok.
      * do 2 f_equal. rewrite blen_app, blen_cons, blen_be_split. lia.
    + unfold set_pos; cbn [dec_buf dec_len dec_pos].
      specialize (IH fuel (pre ++ tlv_field f v)).
      rewrite <- app_assoc in IH.
      replace (blen pre + 5 + blen v) with (blen (pre ++ tlv_field f v))
        by (rewrite blen_app, blen_tlv_field; lia).
      apply IH; [|done| |].
      * rewrite bytes_ok_app; auto using tlv_field_ok.
      * rewrite !blen_app, blen_tlv_field; lia.
      * lia.
Qed.

(** ** Encoding a sequence of fields

    The request builders of powerfs_net_*.c call the encoders one after the
    other; [run_ops] stops at the first error, [enc_seq] (for the builders
    that ignore the return codes) carries on. *)

Inductive enc_op :=
| OpU8 (f v : Z) | OpU16 (f v : Z) | OpU32 (f v : Z) | OpU64 (f v : Z)
| OpString (f : Z) (s : buffer) | OpNested (f : Z) (s : buffer).

Definition run_op (e : tlv_enc) (o : enc_op) : Z * tlv_enc :=
  match o with
  | OpU8 f v => powerfs_tlv_enc_u8 e f v
  | OpU16 f v => powerfs_tlv_enc_u16 e f v
  | OpU32 f v => powerfs_tlv_enc_u32 e f v
  | OpU64 f v => powerfs_tlv_enc_u64 e f v
  | OpString f s => powerfs_tlv_enc_string e f (Some s) (blen s)
  | OpNested f s => powerfs_tlv_enc_nested e f (Some s) (blen s)
  end.

Fixpoint run_ops (e : tlv_enc) (os : list enc_op) : Z * tlv_enc :=
  match os with
  | [] => (0, e)
  | o :: os => let '(ret, e) := run_op e o in if ret <? 0 then (ret, e) else run_ops e os
  end.

Definition enc_seq (e : tlv_enc) (os : list enc_op) : tlv_enc :=
  foldl (fun e o => snd (run_op e o)) e os.

(** The field an operation stands for. *)
Definition op_field (o : enc_op) : Z * buffer :=
  match o with
  | OpU8 f v => (f, le_split 1 v)
  | OpU16 f v => (f, le_split 2 v)
  | OpU32 f v => (f, le_split 4 v)
  | OpU64 f v => (f, le_split 8 v)
  | OpString f s | OpNested f s => (f, s)
  end.

Definition op_ok (o : enc_op) : Prop :=
  match o with
  | OpU8 f v => is_u8 f /\ is_u8 v
  | OpU16 f v => is_u8 f /\ 0 <= v < 2 ^ 16
  | OpU32 f v => is_u8 f /\ is_u32 v
  | OpU64 f v => is_u8 f /\ is_u64 v
  | OpString f s | OpNested f s => is_u8 f /\ bytes_ok s /\ blen s <= POWERFS_NET_MAX_TLV
  end.

Definition ops_message (os : list enc_op) : buffer := tlv_message (op_field <$> os).

Lemma op_field_ok o : op_ok o -> field_ok (op_field o).
Proof.
  unfold field_ok, POWERFS_NET_MAX_TLV.
  destruct o; cbn [op_ok op_field fst snd]; intros H; destruct_and?; rewrite ?blen_le_split;
    split_and!; auto using le_split_ok; unfold POWERFS_NET_MAX_TLV in *; lia.
Qed.

Lemma ops_fields_ok os : Forall op_ok os -> Forall field_ok (op_field <$> os).
Proof. intros H. apply Forall_fmap. eapply Forall_impl; [exact H|apply op_field_ok]. Qed.

Lemma run_op_spec e o :
  enc_wf e -> op_ok o -> enc_spec e (fst (op_field o)) (snd (op_field o)) (run_op e o).
Proof.
  intros Hw Ho. destruct o; simpl in *; destruct_and?.
  - by apply enc_u8_spec.
  - by apply enc_u16_spec.
  - by apply enc_u32_spec.
  - by apply enc_u64_spec.
  - rewrite enc_string_bytes. by apply enc_bytes_spec.
  - rewrite enc_nested_bytes. by apply enc_bytes_spec.
Qed.

(** The encoder stays well-formed whatever the outcome. *)
Lemma run_op_wf e o :
  enc_wf e -> op_ok o -> enc_wf (snd (run_op e o)) /\ enc_cap (snd (run_op e o)) = enc_cap e.
Proof.
  intros Hw Ho. destruct (run_op_spec e o Hw Ho) as (H1 & H2 & H3).
  destruct (Z.lt_ge_cases (enc_room e) 5); [by rewrite H3|].
  destruct (Z.lt_ge_cases (enc_room e) (5 + blen (snd (op_field o)))).
  - destruct H2 as [_ (? & _ & ?)]; auto.
  - destruct H1 as [_ (? & _ & ?)]; auto.
Qed.

Lemma enc_seq_wf os e :
  enc_wf e -> Forall op_ok os -> enc_wf (enc_seq e os) /\ enc_cap (enc_seq e os) = enc_cap e.
Proof.
  intros Hw Hos. revert e Hw; induction Hos as [|o os Ho Hos IH]; intros e Hw; [done|].
  destruct (run_op_wf e o Hw Ho) as [Hw' <-]. by apply IH.
Qed.

Lemma enc_seq_run_ops os e e' : run_ops e os = (0, e') -> enc_seq e os = e'.
Proof.
  revert e; induction os as [|o os IH]; intros e H; simpl in *; [congruence|].
  destruct (run_op e o) as [ret e1]; simpl. destruct (ret <? 0) eqn:E; [|by apply IH].
  injection H as -> _. done.
Qed.

(** When the message fits, the sequence succeeds and has appended exactly the
    message. *)
Lemma run_ops_fit os e :
  enc_wf e -> Forall op_ok os -> blen (ops_message os) <= enc_room e ->
  exists e', run_ops e os = (0, e') /\ enc_ext e (ops_message os) e'.
Proof.
  revert e; induction os as [|o os IH]; intros e Hw Hos Hr.
  - exists e. split; [done|by apply enc_ext_refl].
  - apply Forall_cons in Hos as [Ho Hos].
    destruct (op_field o) as [f v] eqn:Eo.
    assert (Hm : ops_message (o :: os) = tlv_field f v ++ ops_message os)
      by (unfold ops_message; simpl; by rewrite Eo).
    rewrite Hm in *. rewrite blen_app, blen_tlv_field in Hr.
    pose proof (blen_nonneg (ops_message os)).
    destruct (proj1 (run_op_spec e o Hw Ho)) as [Hret Hext]; rewrite Eo in *; simpl in *; [lia|].
    destruct (run_op e o) as [ret e1]; simpl in *; subst ret. simpl.
    destruct (IH e1) as (e2 & Hrun & Hext2); auto.
    { by destruct Hext. }
    { rewrite (enc_ext_room _ _ _ Hw Hext), blen_tlv_field. lia. }
    exists e2. split; [done|]. exact (enc_ext_trans _ _ _ _ _ Hext Hext2).
Qed.

(** ** Main theorems *)

(** Reading back a value of known width. *)
Lemma le64_at_value a v c :
  bytes_ok a -> bytes_ok v -> bytes_ok c -> blen v = 8 ->
  le64_at (a ++ v ++ c) (blen a) = le_combine v.
Proof.
  intros Ha Hv Hc Hl. pose proof (le_combine_range v Hv) as Hr. rewrite Hl in Hr.
  rewrite <- (le_split_combine v Hv) at 1.
  replace (length v) with 8%nat by (unfold blen in Hl; lia).
  by apply le64_at_prefix.
Qed.

Lemma le32_at_value a v c :
  bytes_ok a -> bytes_ok v -> bytes_ok c -> blen v = 4 ->
  le32_at (a ++ v ++ c) (blen a) = le_combine v.
Proof.
  intros Ha Hv Hc Hl. pose proof (le_combine_range v Hv) as Hr. rewrite Hl in Hr.
  rewrite <- (le_split_combine v Hv) at 1.
  replace (length v) with 4%nat by (unfold blen in Hl; lia).
  by apply le32_at_prefix.
Qed.

Lemma byte_at_value a v c :
  bytes_ok v -> blen v = 1 -> byte_at (a ++ v ++ c) (blen a) = le_combine v.
Proof.
  intros Hv Hl. destruct v as [|x [|y v]]; rewrite ?blen_cons, ?blen_nil in Hl;
    try (pose proof (blen_nonneg v)); try lia.
  simpl. rewrite Z.shiftl_0_l, Z.lor_0_r. apply byte_at_prefix.
Qed.

Lemma lookup_field_hit hit fs v : lookup_field hit fs = Some v -> exists f, hit f (blen v) = true.
Proof.
  induction fs as [|[f w] fs IH]; simpl; [done|]. case_if; [|auto]. intros [= <-]. eauto.
Qed.

Lemma find_from_start_message hit fs :
  Forall field_ok fs -> blen (tlv_message fs) < 2 ^ 63 ->
  let d := powerfs_tlv_dec_init (tlv_message fs) (blen (tlv_message fs)) in
  match lookup_field hit fs with
  | Some v => exists a c, tlv_message fs = a ++ v ++ c /\
      bytes_ok a /\ bytes_ok c /\ bytes_ok v /\
      find_from_start hit d = found (set_pos d (blen a)) (blen v)
  | None => find_from_start hit d = not_found
  end.
Proof.
  intros Hfs Hb d. unfold find_from_start, find_fuel, d; simpl.
  pose proof (find_loop_message (S (Z.to_nat (blen (tlv_message fs)))) hit [] fs) as H.
  apply H; auto with lia; by constructor.
Qed.

(** The in-order decoder, following the operations that produced a message:
    every value comes back and the decoder ends up empty.  Strings are read
    into a buffer larger than any field; nested fields with [dec_next] and
    [dec_skip], as the readdir parser does. *)
Fixpoint reads_back (d : tlv_dec) (os : list enc_op) : Prop :=
  match os with
  | [] => powerfs_tlv_dec_is_empty d = true
  | OpU8 f v :: os => exists d', powerfs_tlv_dec_u8 d f = (0, Some v, d') /\ reads_back d' os
  | OpU16 f v :: os => exists d', powerfs_tlv_dec_u16 d f = (0, Some v, d') /\ reads_back d' os
  | OpU32 f v :: os => exists d', powerfs_tlv_dec_u32 d f = (0, Some v, d') /\ reads_back d' os
  | OpU64 f v :: os => exists d', powerfs_tlv_dec_u64 d f = (0, Some v, d') /\ reads_back d' os
  | OpString f s :: os =>
      exists d', powerfs_tlv_dec_string d f 65536 = (0, Some s, d') /\ reads_back d' os
  | OpNested f s :: os =>
      exists d1 d', powerfs_tlv_dec_next d = (0, Some (f, blen s), d1) /\
        slice (dec_buf d1) (dec_pos d1) (blen s) = s /\
        powerfs_tlv_dec_skip d1 (blen s) = (0, d') /\ reads_back d' os
  end.

(** At the start of a field, [powerfs_tlv_dec_read] returns its value when the
    field id and the expected length (0 = any) match. *)
Lemma dec_read_field pre f v post el :
  bytes_ok pre -> bytes_ok post -> field_ok (f, v) -> el = 0 \/ el = blen v ->
  blen (pre ++ tlv_field f v ++ post) < 2 ^ 63 ->
  let buf := pre ++ tlv_field f v ++ post in
  powerfs_tlv_dec_read (mk_dec buf (blen buf) (blen pre)) f el =
    (Some (blen pre + 5, blen v), mk_dec buf (blen buf) (blen pre + 5)).
Proof.
  intros Hpre Hpost Hfv Hel Hb buf.
  pose proof (dec_next_field pre f v post Hpre Hpost Hfv Hb) as Hn; fold buf in Hn, Hb; simpl in Hn.
  destruct Hfv as (Hf & Hv & Hlen); simpl in Hf, Hv, Hlen.
  pose proof (blen_nonneg pre); pose proof (blen_nonneg post); pose proof (blen_nonneg v).
  assert (Hok : bytes_ok buf)
    by (unfold buf; rewrite !bytes_ok_app; split_and!; [done|by apply tlv_field_ok|done]).
  assert (Hbl : blen buf = blen pre + (5 + blen v) + blen post)
    by (unfold buf; rewrite !blen_app, blen_tlv_field; lia).
  rewrite dec_next_spec in Hn by (split_and!; simpl; auto; lia).
  unfold hdr_field, hdr_length in Hn; cbn [dec_pos dec_len dec_buf] in Hn.
  case_if_in Hn; [done|]. injection Hn as Hr Hfe Hle.
  unfold powerfs_tlv_dec_read; cbn [dec_pos dec_len dec_buf set_pos].
  rewrite Hfe, Hle. rewrite (u64_small (blen pre + 5)) by lia. ltb_false.
  rewrite u64_small by lia. ltb_false. rewrite Z.eqb_refl. simpl.
  destruct Hel as [-> | ->]; simpl; [done|]. rewrite Z.eqb_refl. by rewrite andb_false_r.
Qed.

(** Where the value of a field and the next field start. *)
Lemma blen_pre_field pre f v : blen (pre ++ tlv_field f v) = blen pre + 5 + blen v.
Proof. rewrite blen_app, blen_tlv_field. lia. Qed.

Lemma field_value_split pre f v post :
  bytes_ok pre -> is_u8 f ->
  exists a, pre ++ tlv_field f v ++ post = a ++ v ++ post /\ bytes_ok a /\ blen a = blen pre + 5.
Proof.
  intros Hpre Hf. exists (pre ++ f :: be_split 4 (blen v)). split_and!.
  - unfold tlv_field. by rewrite <- !app_assoc.
  - rewrite bytes_ok_app. split; [done|]. constructor; [done|apply be_split_ok].
  - rewrite blen_app, blen_cons, blen_be_split. lia.
Qed.

(** The decoder over [pre ++ field ++ post] at position [p]. *)
Definition at_field (pre : buffer) (f : Z) (v post : buffer) (p : Z) : tlv_dec :=
  let buf := pre ++ tlv_field f v ++ post in mk_dec buf (blen buf) p.

Lemma int_field_ok f n v : is_u8 f -> (n <= 8)%nat -> field_ok (f, le_split n v).
Proof. intros. split_and!; simpl; [done|apply le_split_ok|rewrite blen_le_split; lia]. Qed.

Section field_reads.
Context (pre post : buffer) (f : Z).
Context (Hpre : bytes_ok pre) (Hpost : bytes_ok post) (Hf : is_u8 f).

Lemma dec_read_int n k v :
    k = Z.of_nat n -> (n <= 8)%nat -> blen (pre ++ tlv_field f (le_split n v) ++ post) < 2 ^ 63 ->
    powerfs_tlv_dec_read (at_field pre f (le_split n v) post (blen pre)) f k =
      (Some (blen pre + 5, k), at_field pre f (le_split n v) post (blen pre + 5)).
  Proof using Hpre Hpost Hf.
    intros -> Hn Hb.
    rewrite <- (blen_le_split n v).
    apply dec_read_field; auto using int_field_ok.
  Qed.

Lemma dec_u8_field v :
    is_u8 v -> blen (pre ++ tlv_field f (le_split 1 v) ++ post) < 2 ^ 63 ->
    powerfs_tlv_dec_u8 (at_field pre f (le_split 1 v) post (blen pre)) f =
      (0, Some v, at_field pre f (le_split 1 v) post (blen pre + 5 + 1)).
  Proof using Hpre Hpost Hf.
    intros Hv Hb. unfold powerfs_tlv_dec_u8. rewrite (dec_read_int 1 1 v eq_refl) by (lia || done).
    unfold at_field, set_pos; cbn [dec_buf dec_pos dec_len].
    destruct (field_value_split pre f (le_split 1 v) post Hpre Hf) as (a & -> & Ha & Hal).
    rewrite <- Hal, byte_at_value by (apply le_split_ok || by rewrite blen_le_split).
    by rewrite le_combine_split_small.
  Qed.

Lemma dec_u16_field v :
    0 <= v < 2 ^ 16 -> blen (pre ++ tlv_field f (le_split 2 v) ++ post) < 2 ^ 63 ->
    powerfs_tlv_dec_u16 (at_field pre f (le_split 2 v) post (blen pre)) f =
      (0, Some v, at_field pre f (le_split 2 v) post (blen pre + 5 + 2)).
  Proof using Hpre Hpost Hf.
    intros Hv Hb. unfold powerfs_tlv_dec_u16. rewrite (dec_read_int 2 2 v eq_refl) by (lia || done).
    unfold at_field, set_pos; cbn [dec_buf dec_pos dec_len].
    destruct (field_value_split pre f (le_split 2 v) post Hpre Hf) as (a & -> & Ha & Hal).
    by rewrite <- Hal, le16_at_prefix.
  Qed.

Lemma dec_u32_field v :
    is_u32 v -> blen (pre ++ tlv_field f (le_split 4 v) ++ post) < 2 ^ 63 ->
    powerfs_tlv_dec_u32 (at_field pre f (le_split 4 v) post (blen pre)) f =
      (0, Some v, at_field pre f (le_split 4 v) post (blen pre + 5 + 4)).
  Proof using Hpre Hpost Hf.
    intros Hv Hb. unfold powerfs_tlv_dec_u32. rewrite (dec_read_int 4 4 v eq_refl) by (lia || done).
    unfold at_field, set_pos; cbn [dec_buf dec_pos dec_len].
    destruct (field_value_split pre f (le_split 4 v) post Hpre Hf) as (a & -> & Ha & Hal).
    by rewrite <- Hal, le32_at_prefix.
  Qed.

Lemma dec_u64_field v :
    is_u64 v -> blen (pre ++ tlv_field f (le_split 8 v) ++ post) < 2 ^ 63 ->
    powerfs_tlv_dec_u64 (at_field pre f (le_split 8 v) post (blen pre)) f =
      (0, Some v, at_field pre f (le_split 8 v) post (blen pre + 5 + 8)).
  Proof using Hpre Hpost Hf.
    intros Hv Hb. unfold powerfs_tlv_dec_u64. rewrite (dec_read_int 8 8 v eq_refl) by (lia || done).
    unfold at_field, set_pos; cbn [dec_buf dec_pos dec_len].
    destruct (field_value_split pre f (le_split 8 v) post Hpre Hf) as (a & -> & Ha & Hal).
    by rewrite <- Hal, le64_at_prefix.
  Qed.

Lemma dec_string_field s cap :
    bytes_ok s -> blen s <= POWERFS_NET_MAX_TLV -> blen s < cap ->
    blen (pre ++ tlv_field f s ++ post) < 2 ^ 63 ->
    powerfs_tlv_dec_string (at_field pre f s post (blen pre)) f cap =
      (0, Some s, at_field pre f s post (blen pre + 5 + blen s)).
  Proof using Hpre Hpost Hf.
    intros Hs Hl Hc Hb. unfold powerfs_tlv_dec_string, at_field. unfold POWERFS_NET_MAX_TLV in *.
    rewrite dec_read_field by first [done|by left|split_and!; simpl; auto; lia].
    rewrite Z.geb_leb. replace (cap <=? blen s) with false by (symmetry; apply Z.leb_gt; lia).
    unfold set_pos; cbn [dec_buf dec_pos dec_len].
    destruct (field_value_split pre f s post Hpre Hf) as (a & -> & Ha & Hal).
    by rewrite <- Hal, slice_app_exact.
  Qed.

Lemma dec_next_skip_field s :
    bytes_ok s -> blen s <= POWERFS_NET_MAX_TLV ->
    blen (pre ++ tlv_field f s ++ post) < 2 ^ 63 ->
    let d1 := at_field pre f s post (blen pre + 5) in
    powerfs_tlv_dec_next (at_field pre f s post (blen pre)) = (0, Some (f, blen s), d1) /\
    slice (dec_buf d1) (dec_pos d1) (blen s) = s /\
    powerfs_tlv_dec_skip d1 (blen s) = (0, at_field pre f s post (blen pre + 5 + blen s)).
  Proof using Hpre Hpost Hf.
    intros Hs Hl Hb. unfold at_field; cbn [dec_buf dec_pos]. unfold POWERFS_NET_MAX_TLV in *.
    rewrite dec_next_field by (try done; split_and!; simpl; auto; lia).
    pose proof (blen_nonneg pre); pose proof (blen_nonneg s); pose proof (blen_nonneg post).
    split_and!; [done| |].
    - destruct (field_value_split pre f s post Hpre Hf) as (a & -> & Ha & Hal).
      by rewrite <- Hal, slice_app_exact.
    - unfold powerfs_tlv_dec_skip, set_pos; cbn [dec_pos dec_len dec_buf].
      rewrite !blen_app, blen_tlv_field in *. rewrite u64_small by lia. by ltb_false.
  Qed.
End field_reads.

Lemma reads_back_message os pre :
  bytes_ok pre -> Forall op_ok os -> blen (pre ++ ops_message os) < 2 ^ 63 ->
  reads_back (mk_dec (pre ++ ops_message os) (blen (pre ++ ops_message os)) (blen pre)) os.
Proof.
  revert pre; induction os as [|o os IH]; intros pre Hpre Hos Hb.
  - unfold ops_message; simpl. unfold powerfs_tlv_dec_is_empty; simpl.
    rewrite app_nil_r, Z.geb_leb. apply Z.leb_refl.
  - apply Forall_cons in Hos as [Ho Hos].
    pose proof (op_field_ok o Ho) as Hfv. destruct (op_field o) as [f v] eqn:Eo.
    assert (Hm : ops_message (o :: os) = tlv_field f v ++ ops_message os)
      by (unfold ops_message; simpl; by rewrite Eo).
    rewrite Hm in Hb |- *; clear Hm.
    pose proof (tlv_message_ok _ (ops_fields_ok os Hos)) as Hpost; fold (ops_message os) in Hpost.
    destruct Hfv as (Hf & Hv & Hvl); cbn [fst snd] in Hf, Hv, Hvl.
    specialize (IH (pre ++ tlv_field f v)).
    rewrite <- app_assoc, blen_pre_field in IH.
    pose proof (IH ltac:(rewrite bytes_ok_app; split; [done|by apply tlv_field_ok]) Hos Hb) as Hrest.
    destruct o; cbn [op_field] in Eo; injection Eo as <- <-;
      cbn [op_ok] in Ho; destruct_and?; cbn [reads_back];
      rewrite ?blen_le_split in Hrest.
    + eexists; split; [by apply dec_u8_field|exact Hrest].
    + eexists; split; [by apply dec_u16_field|exact Hrest].
    + eexists; split; [by apply dec_u32_field|exact Hrest].
    + eexists; split; [by apply dec_u64_field|exact Hrest].
    + eexists; split; [apply dec_string_field; unfold POWERFS_NET_MAX_TLV in *; auto; lia|exact Hrest].
    + destruct (dec_next_skip_field pre (ops_message os) f0 Hpre Hpost Hf s) as (Hn & Hsl & Hsk); auto.
      do 2 eexists; split_and!; [exact Hn|exact Hsl|exact Hsk|exact Hrest].
Qed.

(** ** Finders on a decoder over a message, at any position *)

Definition over_message (fs : list (Z * buffer)) (d : tlv_dec) : Prop :=
  dec_buf d = tlv_message fs /\ dec_len d = blen (tlv_message fs).

Lemma over_message_set_pos fs d p : over_message fs d -> over_message fs (set_pos d p).
Proof. done. Qed.

Lemma dec_init_over_message fs :
  over_message fs (powerfs_tlv_dec_init (tlv_message fs) (blen (tlv_message fs))).
Proof. done. Qed.

Lemma find_over_message hit fs d :
  Forall field_ok fs -> blen (tlv_message fs) < 2 ^ 63 -> over_message fs d ->
  match lookup_field hit fs with
  | Some v => exists a c, tlv_message fs = a ++ v ++ c /\
      bytes_ok a /\ bytes_ok c /\ bytes_ok v /\
      find_from_start hit d = found (set_pos d (blen a)) (blen v)
  | None => find_from_start hit d = not_found
  end.
Proof.
  intros Hfs Hb [Hd Hl]. destruct d as [b l p]; simpl in Hd, Hl; subst b l.
  apply (find_from_start_message hit fs Hfs Hb).
Qed.

Section finders.
Context (fs : list (Z * buffer)) (Hfs : Forall field_ok fs) (Hb : blen (tlv_message fs) < 2 ^ 63).

(** Value of the first field with the given id and width. *)
Definition field_value (width field : Z) : option Z :=
  le_combine <$> lookup_field (fun f l => (f =? field) && (l =? width)) fs.

Lemma find_u64_over d field : over_message fs d ->
  exists ret d', powerfs_tlv_dec_find_u64 d field = (ret, field_value 8 field, d') /\ over_message fs d'.
Proof using Hfs Hb.
  intros Hd. unfold powerfs_tlv_dec_find_u64, field_value.
  pose proof (find_over_message (fun f l => (f =? field) && (l =? 8)) fs d Hfs Hb Hd) as H.
  destruct (lookup_field _ fs) as [v|] eqn:El; [|rewrite H; eauto].
  apply lookup_field_hit in El as [f0 Hh]. cbv beta in Hh. bool_to_prop.
  destruct H as (a & c & Heq & Ha & Hc & Hv & ->). cbn [dec_buf dec_pos set_pos].
  rewrite (proj1 Hd), Heq, le64_at_value by done.
  do 2 eexists. split; [reflexivity|done].
Qed.

Lemma find_u8_over d field : over_message fs d ->
  exists ret d', powerfs_tlv_dec_find_u8 d field = (ret, field_value 1 field, d') /\ over_message fs d'.
Proof using Hfs Hb.
  intros Hd. unfold powerfs_tlv_dec_find_u8, field_value.
  pose proof (find_over_message (fun f l => (f =? field) && (l =? 1)) fs d Hfs Hb Hd) as H.
  destruct (lookup_field _ fs) as [v|] eqn:El; [|rewrite H; eauto].
  apply lookup_field_hit in El as [f0 Hh]. cbv beta in Hh. bool_to_prop.
  destruct H as (a & c & Heq & Ha & Hc & Hv & ->). cbn [dec_buf dec_pos set_pos].
  rewrite (proj1 Hd), Heq, byte_at_value by done.
  do 2 eexists. split; [reflexivity|done].
Qed.

Lemma find_u32_over d field : over_message fs d ->
  exists ret d', powerfs_tlv_dec_find_u32 d field = (ret, field_value 4 field, d') /\ over_message fs d' /\
    (ret = 0 <-> is_Some (field_value 4 field)).
Proof using Hfs Hb.
  intros Hd. unfold powerfs_tlv_dec_find_u32, field_value.
  pose proof (find_over_message (fun f l => (f =? field) && (l =? 4)) fs d Hfs Hb Hd) as H.
  destruct (lookup_field _ fs) as [v|] eqn:El.
  2:{ rewrite H. do 2 eexists. split; [reflexivity|]. split; [done|]. by split; [|intros [? ?]]. }
  apply lookup_field_hit in El as [f0 Hh]. cbv beta in Hh. bool_to_prop.
  destruct H as (a & c & Heq & Ha & Hc & Hv & ->). cbn [dec_buf dec_pos set_pos].
  rewrite (proj1 Hd), Heq, le32_at_value by done.
  do 2 eexists. split; [reflexivity|]. split; [done|]. by split; [eauto|].
Qed.

Lemma find_raw_absent d field : over_message fs d ->
  lookup_field (fun f _ => f =? field) fs = None ->
  exists d', powerfs_tlv_dec_find_raw d field = (- ENOENT, None, d') /\ over_message fs d'.
Proof using Hfs Hb.
  intros Hd El. unfold powerfs_tlv_dec_find_raw.
  pose proof (find_over_message (fun f _ => f =? field) fs d Hfs Hb Hd) as H. rewrite El in H.
  rewrite H. by eexists.
Qed.

(** A raw hit, truncated to [n] bytes. *)
Lemma find_raw_over d field v : over_message fs d ->
  lookup_field (fun f _ => f =? field) fs = Some v ->
  exists p d', powerfs_tlv_dec_find_raw d field = (0, Some (p, blen v), d') /\ over_message fs d' /\
    forall n, slice (dec_buf d') p (Z.min (blen v) n) = take (Z.to_nat n) v.
Proof using Hfs Hb.
  intros Hd El. unfold powerfs_tlv_dec_find_raw.
  pose proof (find_over_message (fun f _ => f =? field) fs d Hfs Hb Hd) as H. rewrite El in H.
  destruct H as (a & c & Heq & Ha & Hc & Hv & ->). cbn [dec_buf dec_pos set_pos].
  exists (blen a), (set_pos (set_pos d (blen a)) (blen a + blen v)). split_and!; [done|done|].
  intros n. cbn [dec_buf set_pos]. rewrite (proj1 Hd), Heq. unfold slice, blen.
  rewrite Nat2Z.id, drop_app_length. rewrite take_app_le by lia.
  destruct (Z.le_ge_cases n 0); [by rewrite !Z2Nat.nonpos by lia|].
  rewrite Z2Nat.inj_min, Nat2Z.id. destruct (Nat.le_ge_cases (length v) (Z.to_nat n)).
  - by rewrite Nat.min_l, !take_ge by lia.
  - by rewrite Nat.min_r by lia.
Qed.
End finders.

(** ** Theorems

    [encode os buf] runs the request builder over a caller's buffer and
    returns the emitted bytes. *)
Definition encode (os : list enc_op) (buf : buffer) : Z * buffer :=
  let '(ret, e) := run_ops (powerfs_tlv_enc_init buf (blen buf)) os in (ret, enc_written e).

Lemma encode_fit os buf :
  Forall op_ok os -> blen (ops_message os) <= blen buf < 2 ^ 63 ->
  encode os buf = (0, ops_message os).
Proof.
  intros Hos Hb. unfold encode.
  destruct (run_ops_fit os (powerfs_tlv_enc_init buf (blen buf))) as (e & -> & Hw & Hwr & _); auto.
  - apply enc_init_wf; lia.
  - unfold enc_room; simpl; lia.
  - by rewrite Hwr.
Qed.

(** C1. Encode/decode round trip in order: when the fields fit the caller's
    buffer, the request builder succeeds and the in-order decoder reads every
    value back (u8, u16, u32, u64, strings, nested blobs) and ends empty. *)
Theorem tlv_roundtrip_in_order (os : list enc_op) (buf : buffer) :
  Forall op_ok os -> blen (ops_message os) <= blen buf < 2 ^ 63 ->
  exists out, encode os buf = (0, out) /\
    reads_back (powerfs_tlv_dec_init out (blen out)) os.
Proof.
  intros Hos Hb. exists (ops_message os). split; [by apply encode_fit|].
  apply (reads_back_message os []); simpl; auto; [by constructor|lia].
Qed.

(** Scanning an encoded message: whatever order the fields were written in,
    [find_u64], [find_u32], [find_u8] and [find_raw] return the first field
    with the requested id (and width), and [-ENOENT] with the position restored
    when there is none. *)
Theorem tlv_find_encoded (os : list enc_op) (buf : buffer) (field : Z) :
  Forall op_ok os -> blen (ops_message os) <= blen buf < 2 ^ 63 ->
  exists out, encode os buf = (0, out) /\
    let d := powerfs_tlv_dec_init out (blen out) in
    let fs := op_field <$> os in
    let width n := fun f l => (f =? field) && (l =? n) in
    fst (powerfs_tlv_dec_find_u64 d field) =
      match lookup_field (width 8) fs with
      | Some v => (0, Some (le_combine v)) | None => (- ENOENT, None) end /\
    fst (powerfs_tlv_dec_find_u32 d field) =
      match lookup_field (width 4) fs with
      | Some v => (0, Some (le_combine v)) | None => (- ENOENT, None) end /\
    fst (powerfs_tlv_dec_find_u8 d field) =
      match lookup_field (width 1) fs with
      | Some v => (0, Some (le_combine v)) | None => (- ENOENT, None) end /\
    match lookup_field (fun f _ => f =? field) fs, powerfs_tlv_dec_find_raw d field with
    | Some v, (ret, Some (p, l), d') =>
        ret = 0 /\ slice out p l = v /\ l = blen v /\ dec_pos d' = p + l
    | None, (ret, None, d') => ret = - ENOENT /\ d' = d
    | _, _ => False
    end.
Proof.
  intros Hos Hb. exists (ops_message os). split; [by apply encode_fit|]. intros d fs width.
  pose proof (ops_fields_ok os Hos) as Hfs. fold fs in Hfs.
  assert (Hlt : blen (tlv_message fs) < 2 ^ 63)
    by (change (tlv_message fs) with (ops_message os); lia).
  pose proof (fun hit => find_from_start_message hit fs Hfs Hlt) as H. clear Hlt.
  change (tlv_message fs) with (ops_message os) in H. cbv zeta in H. fold d in H.
  unfold powerfs_tlv_dec_find_u64, powerfs_tlv_dec_find_u32, powerfs_tlv_dec_find_u8,
    powerfs_tlv_dec_find_raw. fold (width 8) (width 4) (width 1).
  split_and!;
    (match goal with |- context [lookup_field ?h fs] =>
       specialize (H h); destruct (lookup_field h fs) as [v|] eqn:El end;
     [destruct H as (a & c & Heq & Ha & Hc & Hv & ->); cbn [fst dec_buf dec_pos set_pos];
      apply lookup_field_hit in El as [f0 Hh]; cbv beta in Hh;
      change (dec_buf d) with (ops_message os); rewrite Heq
     |try (by rewrite H)]).
  - unfold width in Hh; bool_to_prop. by rewrite le64_at_value.
  - unfold width in Hh; bool_to_prop. by rewrite le32_at_value.
  - unfold width in Hh; bool_to_prop. by rewrite byte_at_value.
  - split_and!; auto. apply slice_app_exact.
Qed.

(** C2. Decoder safety on arbitrary input: on any buffer, at any position
    inside it, the scan terminates and a returned value lies inside the buffer
    behind a header that carries its length; the position stays inside the
    buffer whatever the outcome, and is restored on a miss. *)
Theorem tlv_find_safe (d : tlv_dec) (field : Z) :
  dec_wf d ->
  find_from_start (fun f _ => f =? field) d <> out_of_fuel /\
  match powerfs_tlv_dec_find_raw d field with
  | (ret, Some (p, l), d') =>
      ret = 0 /\ dec_wf d' /\ 5 <= p /\ 0 <= l /\ p + l <= blen (dec_buf d) /\
      dec_pos d' = p + l /\ byte_at (dec_buf d) (p - 5) = field /\
      be32_at (dec_buf d) (p - 4) = l
  | (ret, None, d') => ret = - ENOENT /\ d' = d
  end.
Proof.
  intros Hw. pose proof Hw as (Hp & Hl & Hs & Hb).
  assert (Hw0 : dec_wf (set_pos d 0)) by (apply set_pos_wf; [done|lia]).
  pose proof (find_loop_safe (find_fuel d) (fun f _ => f =? field) (set_pos d 0) Hw0) as H.
  specialize (H ltac:(unfold find_fuel, set_pos; simpl; lia)).
  unfold powerfs_tlv_dec_find_raw, find_from_start.
  destruct (find_loop _ _ _) as [d' l| |]; [|split; [done|by destruct d]|done].
  destruct H as (Hw' & Hbuf & Hlen & H0 & H1 & H2 & H3 & H4). bool_to_prop.
  change (dec_buf (set_pos d 0)) with (dec_buf d) in Hbuf.
  change (dec_len (set_pos d 0)) with (dec_len d) in Hlen.
  change (dec_pos (set_pos d 0)) with 0 in H2.
  split; [done|]. rewrite <- Hbuf. split_and!; auto; simpl; try lia.
  - apply set_pos_wf; [done|]. destruct Hw'; lia.
  - destruct Hw' as (_ & <- & _). lia.
Qed.

(** Encoder contract on every branch: a field that fits is appended
    exactly; if only its 5-byte header fits, [-ENOSPC] is returned with the
    header left in the buffer; if not even the header fits, [-ENOSPC] leaves
    the encoder unchanged.  The encoder never leaves its buffer. *)
Theorem tlv_encode_contract (e : tlv_enc) (o : enc_op) :
  enc_wf e -> op_ok o ->
  enc_spec e (fst (op_field o)) (snd (op_field o)) (run_op e o) /\ enc_wf (snd (run_op e o)).
Proof. intros Hw Ho. split; [by apply run_op_spec|by apply run_op_wf]. Qed.

(** ** Witnesses *)

Definition sample_ops : list enc_op :=
  [OpU64 2 0x1122334455667788; OpU8 7 3; OpString 9 [102; 111; 111]; OpU32 4 65536; OpU64 2 5].

Definition sample_buf : buffer := replicate 64 0.

Lemma sample_ops_ok : Forall op_ok sample_ops.
Proof.
  unfold sample_ops. split_forall; cbn [op_ok];
    unfold is_u8, is_u32, is_u64, POWERFS_NET_MAX_TLV, blen, bytes_ok; split_forall; simpl; lia.
Qed.

(** C1 at a concrete request. *)
Lemma tlv_roundtrip_in_order_witness :
  exists out, encode sample_ops sample_buf = (0, out) /\
    reads_back (powerfs_tlv_dec_init out (blen out)) sample_ops.
Proof.
  apply (tlv_roundtrip_in_order sample_ops sample_buf);
    [exact sample_ops_ok|vm_compute; split; congruence].
Defined.

(** C2 at a concrete request: the first of the two u64 fields with id 2. *)
Lemma tlv_find_encoded_witness :
  exists out, encode sample_ops sample_buf = (0, out) /\
    fst (powerfs_tlv_dec_find_u64 (powerfs_tlv_dec_init out (blen out)) 2) =
      (0, Some 0x1122334455667788).
Proof.
  destruct (tlv_find_encoded sample_ops sample_buf 2) as (out & He & Hu & _);
    [exact sample_ops_ok|vm_compute; split; congruence|].
  exists out. split; [exact He|]. rewrite Hu. vm_compute. reflexivity.
Defined.

Definition sample_dec : tlv_dec := powerfs_tlv_dec_init [7; 0; 0; 0; 2; 10; 20] 7.

Lemma tlv_find_safe_witness :
  powerfs_tlv_dec_find_raw sample_dec 7 = (0, Some (5, 2), set_pos sample_dec 7) /\
  find_from_start (fun f _ => f =? 7) sample_dec <> out_of_fuel.
Proof.
  split; [vm_compute; reflexivity|].
  apply (tlv_find_safe sample_dec 7). apply (dec_init_wf [7; 0; 0; 0; 2; 10; 20]); [|done].
  unfold bytes_ok. split_forall; lia.
Defined.

(** C4 where only the header fits: the 5 header bytes stay behind. *)
Lemma tlv_encode_contract_witness :
  enc_wf (powerfs_tlv_enc_init [0; 0; 0; 0; 0; 0] 6) /\
  enc_wf (snd (run_op (powerfs_tlv_enc_init [0; 0; 0; 0; 0; 0] 6) (OpU64 2 5))).
Proof.
  assert (Hw : enc_wf (powerfs_tlv_enc_init [0; 0; 0; 0; 0; 0] 6)) by (apply (enc_init_wf [0; 0; 0; 0; 0; 0]); done).
  split; [exact Hw|].
  apply (tlv_encode_contract (powerfs_tlv_enc_init [0; 0; 0; 0; 0; 0] 6) (OpU64 2 5));
    [exact Hw|cbn; unfold is_u8, is_u64; lia].
Defined.
