(* ===== verification/Frame.v ===== *)
(** * Frame: CRC32C and the 28-byte frame header

    Models the CRC32C routines and the frame-header codec of
    [src/powerfs_mod/powerfs_net_shard.c] (lines 150-324) and the packed
    [struct powerfs_net_frame_hdr] of [powerfs_net.h].  The lookup table is
    global state filled on first use, so every routine threads [crc_globals].

    Shown: the table-driven CRC is the bit-serial CRC of the Castagnoli
    polynomial; appending is streaming; headers round-trip; and a header
    damaged inside any window of four bytes is rejected. *)

From S2P Require Import Prelude.

(** ** CRC32C *)

Record crc_globals := mk_crc_globals {
  crc32c_table : list Z;
  crc32c_table_init : bool
}.

(** The state of the globals when the module is loaded. *)
Definition crc_globals0 : crc_globals := mk_crc_globals (replicate 256 0) false.

Definition CRC32C_POLY : Z := 0x82F63B78.

(** One iteration of the inner [j] loop. *)
Definition crc_bit (c : Z) : Z :=
  if negb (Z.land c 1 =? 0) then Z.lxor (Z.shiftr c 1) CRC32C_POLY else Z.shiftr c 1.

Definition crc_entry (i : Z) : Z := Nat.iter 8 crc_bit i.

Definition powerfs_crc32c_init_table (g : crc_globals) : crc_globals :=
  mk_crc_globals
    (foldl (fun t i => <[i := crc_entry (Z.of_nat i)]> t) (crc32c_table g) (seq 0 256))
    true.

(** [if (!crc32c_table_init) powerfs_crc32c_init_table();] *)
Definition crc_ensure_table (g : crc_globals) : crc_globals :=
  if crc32c_table_init g then g else powerfs_crc32c_init_table g.

(** Body of the byte loop shared by both entry points. *)
Definition crc_byte (t : list Z) (state d : Z) : Z :=
  Z.lxor (default 0 (t !! Z.to_nat (Z.land (Z.lxor state d) 0xFF))) (Z.shiftr state 8).

Definition powerfs_crc32c (g : crc_globals) (data : buffer) (len : Z) : Z * crc_globals :=
  let g := crc_ensure_table g in
  (Z.lxor (foldl (crc_byte (crc32c_table g)) 0xFFFFFFFF (slice data 0 len)) 0xFFFFFFFF, g).

(** [~x] on a [__u32]. *)
Definition not32 (x : Z) : Z := u32 (Z.lnot x).

Definition powerfs_crc32c_append (g : crc_globals) (crc : Z) (data : buffer) (len : Z)
  : Z * crc_globals :=
  let g := crc_ensure_table g in
  (not32 (foldl (crc_byte (crc32c_table g)) (not32 crc) (slice data 0 len)), g).

(** ** The frame header

    Fields hold the value the host (little-endian) reads from memory: [magic]
    is stored byte-swapped by [cpu_to_be32]; the little-endian conversions are
    the identity. *)

Definition POWERFS_NET_MAGIC : Z := 0x5046534E.
Definition POWERFS_NET_VERSION : Z := 1.
Definition POWERFS_NET_PROTOCOL_VER : Z := 1.
Definition POWERFS_NET_FRAME_HDR_SIZE : Z := 28.

Record frame_hdr := mk_frame_hdr {
  magic : Z; version : Z; flags : Z; seq : Z; msg_type : Z; status : Z;
  data_len : Z; body_len : Z; route_hash : Z; protocol_ver : Z; header_crc : Z
}.

Definition swab32 (v : Z) : Z := le_combine (be_split 4 v).
Definition cpu_to_be32 (v : Z) : Z := swab32 v.
Definition be32_to_cpu (v : Z) : Z := swab32 v.

(** The 24 bytes in front of the CRC, and the whole packed struct. *)
Definition hdr_prefix (h : frame_hdr) : buffer :=
  le_split 4 (magic h) ++ le_split 1 (version h) ++ le_split 1 (flags h) ++
  le_split 4 (seq h) ++ le_split 2 (msg_type h) ++ le_split 2 (status h) ++
  le_split 4 (data_len h) ++ le_split 4 (body_len h) ++
  le_split 1 (route_hash h) ++ le_split 1 (protocol_ver h).

Definition hdr_bytes (h : frame_hdr) : buffer := hdr_prefix h ++ le_split 4 (header_crc h).

(** [memcpy(hdr, buf, 28)]: the struct read back from memory. *)
Definition hdr_of_bytes (b : buffer) : frame_hdr :=
  let f i n := le_combine (slice b i n) in
  {| magic := f 0 4; version := f 4 1; flags := f 5 1; seq := f 6 4;
     msg_type := f 10 2; status := f 12 2; data_len := f 14 4; body_len := f 18 4;
     route_hash := f 22 1; protocol_ver := f 23 1; header_crc := f 24 4 |}.

Definition set_header_crc (h : frame_hdr) (c : Z) : frame_hdr :=
  mk_frame_hdr (magic h) (version h) (flags h) (seq h) (msg_type h) (status h)
    (data_len h) (body_len h) (route_hash h) (protocol_ver h) c.

Definition powerfs_net_frame_hdr_encode (g : crc_globals) (hdr : frame_hdr)
    (msg_type flags seq status body_len data_len route_hash : Z) : frame_hdr * crc_globals :=
  let hdr := mk_frame_hdr (cpu_to_be32 POWERFS_NET_MAGIC) POWERFS_NET_VERSION flags seq
               msg_type status data_len body_len route_hash POWERFS_NET_PROTOCOL_VER
               (header_crc hdr) in
  let '(crc, g) := powerfs_crc32c_append g 0 (hdr_bytes hdr) 24 in
  (set_header_crc hdr crc, g).

(** Returns the boolean result and, when the length check passes, the header
    structure the caller sees ([None] where it is left untouched). *)
Definition powerfs_net_frame_hdr_decode (g : crc_globals) (buf : buffer) (len : Z)
  : bool * option frame_hdr * crc_globals :=
  if len <? POWERFS_NET_FRAME_HDR_SIZE then (false, None, g) else
  let hdr := hdr_of_bytes buf in
  if negb (be32_to_cpu (magic hdr) =? POWERFS_NET_MAGIC) then (false, Some hdr, g) else
  if negb (version hdr =? POWERFS_NET_VERSION) then (false, Some hdr, g) else
  let '(calc_crc, g) := powerfs_crc32c_append g 0 buf 24 in
  if negb (header_crc hdr =? calc_crc) then (false, Some hdr, g) else
  (true, Some hdr, g).

(** ** Bit-serial reference

    [crc_ref s data] feeds the bits of [data], least significant first, to the
    shift register [s]. *)

Definition crc_ref (s : Z) (data : buffer) : Z :=
  Nat.iter (8 * length data) crc_bit (Z.lxor s (le_combine data)).

(** Invariant of the globals: once initialised the table is the right one. *)
Definition crc_ok (g : crc_globals) : Prop :=
  length (crc32c_table g) = 256%nat /\
  (crc32c_table_init g = true ->
   forall i, (i < 256)%nat -> crc32c_table g !! i = Some (crc_entry (Z.of_nat i))).

Lemma crc_globals0_ok : crc_ok crc_globals0.
Proof. split; [done|]. simpl; done. Qed.

Lemma crc_ensure_table_ok g :
  crc_ok g -> crc_ok (crc_ensure_table g) /\ crc32c_table_init (crc_ensure_table g) = true.
Proof.
  intros [Hl Hi]. unfold crc_ensure_table. destruct (crc32c_table_init g) eqn:E.
  - split; [|done]. split; [done|by rewrite E].
  - split; [|done]. unfold crc_ok, powerfs_crc32c_init_table; cbn [crc32c_table].
    rewrite (foldl_fill (fun i => crc_entry (Z.of_nat i))), drop_ge, app_nil_r by lia.
    split; [done|]. intros _ i Hlt. by rewrite list_lookup_fmap, lookup_seq_lt.
Qed.

(** *** The shift register is linear and invertible *)

Lemma testbit_0_land c : negb (Z.land c 1 =? 0) = Z.testbit c 0.
Proof.
  change 1 with (Z.ones 1). rewrite Z.land_ones, Z.bit0_odd by lia.
  change (2 ^ 1) with 2. rewrite Zmod_odd. by destruct (Z.odd c).
Qed.

Lemma crc_bit_lxor x y : crc_bit (Z.lxor x y) = Z.lxor (crc_bit x) (crc_bit y).
Proof.
  unfold crc_bit. rewrite !testbit_0_land, Z.lxor_spec, Z.shiftr_lxor.
  set (a := Z.shiftr x 1); set (b := Z.shiftr y 1).
  destruct (Z.testbit x 0), (Z.testbit y 0); simpl;
    apply Z.bits_inj'; intros n Hn; rewrite !Z.lxor_spec;
    destruct (Z.testbit a n), (Z.testbit b n), (Z.testbit CRC32C_POLY n); done.
Qed.

Lemma crc_iter_lxor n x y :
  Nat.iter n crc_bit (Z.lxor x y) = Z.lxor (Nat.iter n crc_bit x) (Nat.iter n crc_bit y).
Proof. induction n as [|n IH]; simpl; [done|]. by rewrite IH, crc_bit_lxor. Qed.

(** Bits above the register pass through unchanged, one position per step. *)
Lemma crc_iter_shiftl n x : 0 <= x -> Nat.iter n crc_bit (Z.shiftl x (Z.of_nat n)) = x.
Proof.
  revert x; induction n as [|n IH]; intros x Hx; [apply Z.shiftl_0_r|].
  rewrite Nat.iter_succ_r. unfold crc_bit at 2.
  rewrite testbit_0_land, Z.shiftl_spec_low by lia.
  rewrite Z.shiftr_shiftl_l by lia.
  replace (Z.of_nat (S n) - 1) with (Z.of_nat n) by lia. by apply IH.
Qed.

Lemma lxor_range a b k : 0 <= k -> 0 <= a < 2 ^ k -> 0 <= b < 2 ^ k -> 0 <= Z.lxor a b < 2 ^ k.
Proof.
  intros Hk Ha Hb. split; [apply Z.lxor_nonneg; lia|].
  destruct (Z.eq_dec (Z.lxor a b) 0) as [->|]; [lia|].
  apply Z.log2_lt_pow2; [pose proof (proj2 (Z.lxor_nonneg a b)); lia|].
  eapply Z.le_lt_trans; [apply Z.log2_lxor; lia|].
  assert (Hlog : forall x, 0 <= x < 2 ^ k -> 0 < k -> Z.log2 x < k).
  { intros x Hx Hk0. destruct (Z.eq_dec x 0) as [->|]; [done|]. apply Z.log2_lt_pow2; lia. }
  destruct (Z.eq_dec k 0) as [->|]; [|apply Z.max_lub_lt; apply Hlog; lia].
  assert (a = 0 /\ b = 0) as [-> ->] by lia. done.
Qed.

Lemma shiftr_range a k n : 0 <= n -> 0 <= k -> 0 <= a < 2 ^ (n + k) -> 0 <= Z.shiftr a k < 2 ^ n.
Proof.
  intros Hn Hk Ha. rewrite Z.shiftr_div_pow2 by done. rewrite Z.pow_add_r in Ha by done.
  split; [apply Z.div_pos; lia|apply Z.div_lt_upper_bound; lia].
Qed.

Lemma crc_bit_u32 c : is_u32 c -> is_u32 (crc_bit c).
Proof.
  unfold is_u32. intros Hc. pose proof (shiftr_range c 1 31 ltac:(lia) ltac:(lia) Hc).
  unfold crc_bit. case_if; [|lia]. apply lxor_range; unfold CRC32C_POLY; lia.
Qed.

Lemma crc_iter_u32 n c : is_u32 c -> is_u32 (Nat.iter n crc_bit c).
Proof. intros Hc. induction n; simpl; auto using crc_bit_u32. Qed.

(** The feedback bit is visible in bit 31, so a step can be undone. *)
Lemma crc_bit_0 c : is_u32 c -> crc_bit c = 0 -> c = 0.
Proof.
  unfold is_u32. intros Hc H0. unfold crc_bit in H0.
  pose proof (shiftr_range c 1 31 ltac:(lia) ltac:(lia) Hc) as Hr.
  case_if_in H0.
  - apply Z.lxor_eq in H0. rewrite H0 in Hr. unfold CRC32C_POLY in Hr. lia.
  - change 1 with (Z.ones 1) in E. rewrite Z.land_ones in E by lia.
    rewrite Z.shiftr_div_pow2 in H0 by lia. change (2 ^ 1) with 2 in *.
    pose proof (Z.div_mod c 2). lia.
Qed.

Lemma crc_iter_inj n x y :
  is_u32 x -> is_u32 y -> Nat.iter n crc_bit x = Nat.iter n crc_bit y -> x = y.
Proof.
  intros Hx Hy H. apply Z.lxor_eq.
  assert (Hd : is_u32 (Z.lxor x y)) by (apply lxor_range; unfold is_u32 in *; lia).
  assert (H0 : Nat.iter n crc_bit (Z.lxor x y) = 0) by (by rewrite crc_iter_lxor, H, Z.lxor_nilpotent).
  clear H. induction n as [|n IH]; [done|]. apply IH. by apply crc_bit_0; [apply crc_iter_u32|].
Qed.

(** *** Table-driven = bit-serial *)

Lemma lor_shiftl_lxor d r : 0 <= d < 256 -> Z.lor d (Z.shiftl r 8) = Z.lxor d (Z.shiftl r 8).
Proof.
  intros Hd. rewrite Z.lxor_lor; [done|].
  apply Z.bits_inj'; intros n Hn. rewrite Z.land_spec, Z.bits_0.
  destruct (Z.lt_ge_cases n 8).
  - rewrite Z.shiftl_spec_low by lia. apply andb_false_r.
  - rewrite <- (Z.mod_small d (2 ^ 8)) by (simpl; lia). by rewrite Z.mod_pow2_bits_high by lia.
Qed.

Lemma crc_byte_ref g s d :
  crc_ok g -> crc32c_table_init g = true -> 0 <= s ->  0 <= d < 256 ->
  crc_byte (crc32c_table g) s d = Nat.iter 8 crc_bit (Z.lxor s d).
Proof.
  intros [_ Ht] Hi Hs Hd. unfold crc_byte. set (x := Z.lxor s d).
  assert (Hx : 0 <= x) by (apply Z.lxor_nonneg; lia).
  assert (Hlow : 0 <= Z.land x 255 < 256) by (rewrite land_255; apply Z.mod_pos_bound; lia).
  rewrite (Ht Hi) by lia. simpl default. rewrite Z2Nat.id by lia. unfold crc_entry.
  assert (Hsplit : x = Z.lxor (Z.land x 255) (Z.shiftl (Z.shiftr x 8) (Z.of_nat 8))).
  { rewrite <- lor_shiftl_lxor by done. rewrite lor_disjoint_add by (simpl; lia).
    rewrite land_255, Z.shiftr_div_pow2 by lia. 
    pose proof (Z.div_mod x 256 ltac:(lia)). change (2 ^ 8) with 256. lia. }
  rewrite Hsplit at 2. rewrite crc_iter_lxor, crc_iter_shiftl by (by apply Z.shiftr_nonneg).
  f_equal. unfold x. rewrite Z.shiftr_lxor, (Z.shiftr_div_pow2 d), (Z.div_small d) by (simpl; lia).
  by rewrite Z.lxor_0_r.
Qed.

Lemma crc_ref_cons s d data :
  0 <= d < 256 -> bytes_ok data ->
  crc_ref s (d :: data) = crc_ref (Nat.iter 8 crc_bit (Z.lxor s d)) data.
Proof.
  intros Hd Hdata. unfold crc_ref; simpl length; simpl le_combine.
  replace (8 * S (length data))%nat with (8 * length data + 8)%nat by lia.
  rewrite Nat.iter_add. f_equal. rewrite lor_shiftl_lxor by done.
  rewrite <- Z.lxor_assoc, crc_iter_lxor. f_equal.
  apply (crc_iter_shiftl 8). apply le_combine_range in Hdata. lia.
Qed.

Lemma crc_iter_nonneg n c : 0 <= c -> 0 <= Nat.iter n crc_bit c.
Proof.
  intros Hc; induction n; simpl; [done|]. unfold crc_bit.
  assert (0 <= Z.shiftr (Nat.iter n crc_bit c) 1) by (by apply Z.shiftr_nonneg).
  case_if; [|done]. apply Z.lxor_nonneg. by split.
Qed.

Lemma crc_fold_ref g s data :
  crc_ok g -> crc32c_table_init g = true -> 0 <= s -> bytes_ok data ->
  foldl (crc_byte (crc32c_table g)) s data = crc_ref s data.
Proof.
  intros Hg Hi Hs Hdata. revert s Hs; induction Hdata as [|d data Hd Hdata IH]; intros s Hs; simpl.
  - unfold crc_ref; simpl. by rewrite Z.lxor_0_r.
  - rewrite crc_byte_ref by done. rewrite crc_ref_cons by done.
    apply IH. apply crc_iter_nonneg, Z.lxor_nonneg; lia.
Qed.

Lemma not32_lxor x : is_u32 x -> not32 x = Z.lxor x 0xFFFFFFFF.
Proof.
  unfold is_u32, not32, u32. intros Hx. rewrite <- Z.land_ones by lia.
  apply Z.bits_inj'; intros n Hn. rewrite Z.land_spec, Z.lnot_spec, Z.lxor_spec by lia.
  change 0xFFFFFFFF with (Z.ones 32).
  destruct (Z.lt_ge_cases n 32).
  - rewrite Z.ones_spec_low by lia. by rewrite andb_true_r, xorb_true_r.
  - rewrite Z.ones_spec_high by lia. rewrite andb_false_r, xorb_false_r.
    rewrite <- (Z.mod_small x (2 ^ 32)) by lia. by rewrite Z.mod_pow2_bits_high by lia.
Qed.

Lemma not32_u32 x : is_u32 (not32 x).
Proof. apply u32_range. Qed.
#[export] Hint Resolve not32_u32 : pfs.

Lemma not32_involutive x : is_u32 x -> not32 (not32 x) = x.
Proof.
  intros Hx. rewrite (not32_lxor (not32 x)), (not32_lxor x) by auto with pfs.
  by rewrite Z.lxor_assoc, Z.lxor_nilpotent, Z.lxor_0_r.
Qed.

Lemma crc_fold_u32 g s data :
  crc_ok g -> crc32c_table_init g = true -> is_u32 s -> bytes_ok data ->
  is_u32 (foldl (crc_byte (crc32c_table g)) s data).
Proof.
  intros Hg Hi Hs Hdata. revert s Hs; induction Hdata as [|d data Hd Hdata IH]; intros s Hs; simpl; [done|].
  apply IH. rewrite crc_byte_ref by (unfold is_u32 in *; auto; lia). apply crc_iter_u32.
  unfold is_u32 in *. apply lxor_range; lia.
Qed.

Lemma slice_0 b n : blen b = n -> slice b 0 n = b.
Proof. intros <-. apply take_blen. Qed.

Lemma bytes_ok_slice b i n : bytes_ok b -> bytes_ok (slice b i n).
Proof. intros H. by apply Forall_take, Forall_drop. Qed.
#[export] Hint Resolve bytes_ok_slice : pfs.

Lemma crc32c_append_ref g crc data len :
  crc_ok g -> bytes_ok data ->
  fst (powerfs_crc32c_append g crc data len) = not32 (crc_ref (not32 crc) (slice data 0 len)).
Proof.
  intros Hg Hd. unfold powerfs_crc32c_append; simpl.
  destruct (crc_ensure_table_ok g Hg). rewrite crc_fold_ref; auto with pfs.
  pose proof (not32_u32 crc); unfold is_u32 in *; lia.
Qed.

Lemma crc32c_append_globals g crc data len :
  crc_ok g -> crc_ok (snd (powerfs_crc32c_append g crc data len)).
Proof. intros Hg. unfold powerfs_crc32c_append; simpl. by apply crc_ensure_table_ok. Qed.

(** *** Streaming and injectivity of the reference *)

Lemma crc_ref_app s a b :
  bytes_ok a -> bytes_ok b -> crc_ref s (a ++ b) = crc_ref (crc_ref s a) b.
Proof.
  intros Ha Hb. revert s; induction Ha as [|d a Hd Ha IH]; intros s; simpl.
  - unfold crc_ref at 3; simpl. by rewrite Z.lxor_0_r.
  - rewrite !crc_ref_cons by (auto; apply bytes_ok_app; done). apply IH.
Qed.

Lemma crc_ref_u32 s a : is_u32 s -> bytes_ok a -> is_u32 (crc_ref s a).
Proof.
  intros Hs Ha. revert s Hs; induction Ha as [|d a Hd Ha IH]; intros s Hs.
  - unfold crc_ref; simpl. by rewrite Z.lxor_0_r.
  - rewrite crc_ref_cons by done. apply IH, crc_iter_u32, lxor_range; unfold is_u32 in *; lia.
Qed.

Lemma lxor_cancel_r a b c : Z.lxor a c = Z.lxor b c -> a = b.
Proof.
  intros H. apply (f_equal (fun x => Z.lxor x c)) in H.
  by rewrite !Z.lxor_assoc, Z.lxor_nilpotent, !Z.lxor_0_r in H.
Qed.
Lemma lxor_cancel_l a b c : Z.lxor c a = Z.lxor c b -> a = b.
Proof. rewrite !(Z.lxor_comm c). apply lxor_cancel_r. Qed.

Lemma crc_ref_inj_state s s' d : is_u32 s -> is_u32 s' -> crc_ref s d = crc_ref s' d -> s = s'.
Proof.
  intros Hs Hs' H. unfold crc_ref in H. rewrite !crc_iter_lxor in H.
  apply lxor_cancel_r in H. by apply crc_iter_inj in H.
Qed.

Lemma crc_ref_inj_window s w w' :
  bytes_ok w -> bytes_ok w' -> length w = length w' -> (length w <= 4)%nat ->
  crc_ref s w = crc_ref s w' -> w = w'.
Proof.
  intros Hw Hw' Hl H4 H. unfold crc_ref in H. rewrite <- Hl, !crc_iter_lxor in H.
  apply lxor_cancel_l in H.
  assert (Hr : forall v, bytes_ok v -> (length v <= 4)%nat -> is_u32 (le_combine v)).
  { intros v Hv Hv4. pose proof (le_combine_range v Hv) as Hr. unfold is_u32.
    pose proof (Z.pow_le_mono_r 2 (8 * blen v) 32). unfold blen in *. lia. }
  apply crc_iter_inj in H; [|apply Hr; [done|lia]..].
  by rewrite <- (le_split_combine w Hw), <- (le_split_combine w' Hw'), H, Hl.
Qed.

(** A block followed by its own CRC leaves a constant in the register. *)
Definition crc_residue : Z := Nat.iter 32 crc_bit 0xFFFFFFFF.

Lemma crc_residue_iff p c :
  bytes_ok p -> is_u32 c ->
  (c = not32 (crc_ref 0xFFFFFFFF p) <-> crc_ref 0xFFFFFFFF (p ++ le_split 4 c) = crc_residue).
Proof.
  intros Hp Hc. rewrite crc_ref_app by auto with pfs.
  assert (Hs : is_u32 (crc_ref 0xFFFFFFFF p)) by (apply crc_ref_u32; unfold is_u32; [lia|done]).
  set (s := crc_ref _ p) in *. unfold crc_ref, crc_residue. rewrite length_le_split.
  rewrite le_combine_split_small by (unfold is_u32 in *; simpl; lia).
  rewrite not32_lxor by done. split.
  - intros ->. by rewrite <- Z.lxor_assoc, Z.lxor_nilpotent, Z.lxor_0_l.
  - intros H. apply crc_iter_inj in H; [|apply lxor_range; unfold is_u32 in *; lia|unfold is_u32; lia].
    rewrite <- H, <- Z.lxor_assoc, Z.lxor_nilpotent. by rewrite Z.lxor_0_l.
Qed.

#[global] Opaque crc_ref crc_residue.

(** ** Header layout *)

Definition hdr_ok (h : frame_hdr) : Prop :=
  is_u32 (magic h) /\ is_u8 (version h) /\ is_u8 (flags h) /\ is_u32 (seq h) /\
  0 <= msg_type h < 2 ^ 16 /\ 0 <= status h < 2 ^ 16 /\ is_u32 (data_len h) /\
  is_u32 (body_len h) /\ is_u8 (route_hash h) /\ is_u8 (protocol_ver h) /\ is_u32 (header_crc h).

Lemma blen_hdr_prefix h : blen (hdr_prefix h) = 24.
Proof. unfold hdr_prefix. by autorewrite with pfs. Qed.
Lemma blen_hdr_bytes h : blen (hdr_bytes h) = 28.
Proof. unfold hdr_bytes. by rewrite blen_app, blen_hdr_prefix, blen_le_split. Qed.

Lemma hdr_prefix_ok h : bytes_ok (hdr_prefix h).
Proof. unfold hdr_prefix. rewrite !bytes_ok_app. split_and!; auto with pfs. Qed.
Lemma hdr_bytes_ok h : bytes_ok (hdr_bytes h).
Proof. apply bytes_ok_app. split; [apply hdr_prefix_ok|auto with pfs]. Qed.
#[export] Hint Resolve hdr_prefix_ok hdr_bytes_ok : pfs.

(** Every field is read back at its offset. *)
Lemma hdr_of_bytes_bytes h : hdr_ok h -> hdr_of_bytes (hdr_bytes h) = h.
Proof.
  unfold hdr_ok, is_u32, is_u8. intros H; destruct_and!.
  destruct h as [m v fl sq mt st dl bl rh pv hc]; cbn [magic version flags seq msg_type status
    data_len body_len route_hash protocol_ver header_crc] in *.
  unfold hdr_of_bytes, hdr_bytes, hdr_prefix; cbn -[Z.land Z.shiftr le_combine].
  f_equal; match goal with |- le_combine ?l = ?x =>
    first [change (le_combine (le_split 4 x) = x) | change (le_combine (le_split 2 x) = x)
          |change (le_combine (le_split 1 x) = x)] end;
    apply le_combine_split_small; simpl; lia.
Qed.

Lemma slice_hdr_prefix h : slice (hdr_bytes h) 0 24 = hdr_prefix h.
Proof. done. Qed.

Lemma slice_split b n : 0 <= n -> n <= blen b -> b = slice b 0 n ++ slice b n (blen b - n).
Proof.
  intros Hn Hb. unfold slice, blen in *. change (Z.to_nat 0) with 0%nat. rewrite drop_0.
  rewrite (take_ge (drop _ _)) by (rewrite length_drop; lia). by rewrite take_drop.
Qed.

(** What an accepted buffer satisfies. *)
Lemma frame_hdr_decode_residue g buf :
  crc_ok g -> bytes_ok buf -> blen buf = 28 ->
  fst (fst (powerfs_net_frame_hdr_decode g buf 28)) = true ->
  crc_ref 0xFFFFFFFF buf = crc_residue.
Proof.
  intros Hg Hb Hl. unfold powerfs_net_frame_hdr_decode.
  do 3 (case_if; [done|]).
  pose proof (crc32c_append_ref g 0 buf 24 Hg Hb) as Hc.
  destruct (powerfs_crc32c_append g 0 buf 24) as [crc g']; cbn [fst] in Hc; subst crc.
  case_if; [done|]. intros _. change (not32 0) with 0xFFFFFFFF in *.
  cbn [header_crc hdr_of_bytes] in *.
  rewrite (slice_split buf 24), Hl by lia. change (28 - 24) with 4.
  assert (Hs : slice buf 24 4 = le_split 4 (le_combine (slice buf 24 4))).
  { rewrite <- (le_split_combine (slice buf 24 4)) at 1 by auto with pfs.
    f_equal. pose proof (blen_slice buf 24 4). unfold blen in *. lia. }
  rewrite Hs. refine (proj1 (crc_residue_iff _ _ _ _) E2); [auto with pfs|].
  pose proof (le_combine_range (slice buf 24 4)) as Hr.
  rewrite blen_slice in Hr by lia. apply Hr. auto with pfs.
Qed.

Definition hdr_args_ok (msg_type flags seq status body_len data_len route_hash : Z) : Prop :=
  0 <= msg_type < 2 ^ 16 /\ is_u8 flags /\ is_u32 seq /\ 0 <= status < 2 ^ 16 /\
  is_u32 body_len /\ is_u32 data_len /\ is_u8 route_hash.

Lemma frame_hdr_encode_spec g hdr mt fl sq st bl dl rh :
  crc_ok g -> hdr_args_ok mt fl sq st bl dl rh ->
  let '(h, g') := powerfs_net_frame_hdr_encode g hdr mt fl sq st bl dl rh in
  crc_ok g' /\ hdr_ok h /\
  h = mk_frame_hdr 0x4E534650 1 fl sq mt st dl bl rh 1 (not32 (crc_ref 0xFFFFFFFF (hdr_prefix h))).
Proof.
  intros Hg Ha. unfold powerfs_net_frame_hdr_encode.
  set (h0 := mk_frame_hdr _ _ _ _ _ _ _ _ _ _ _).
  pose proof (crc32c_append_ref g 0 (hdr_bytes h0) 24 Hg (hdr_bytes_ok h0)) as Hc.
  destruct (powerfs_crc32c_append g 0 (hdr_bytes h0) 24) as [crc g'] eqn:E.
  cbn [fst] in Hc; subst crc. change (not32 0) with 0xFFFFFFFF in *.
  rewrite slice_hdr_prefix in *. split; [|split; [|done]].
  - pose proof (crc32c_append_globals g 0 (hdr_bytes h0) 24 Hg) as Hs. by rewrite E in Hs.
  - destruct Ha as (? & ? & ? & ? & ? & ? & ?).
    unfold hdr_ok; cbn [h0 set_header_crc magic version flags seq msg_type status data_len
      body_len route_hash protocol_ver header_crc].
    repeat (split; [first [done|by split]|]). apply not32_u32.
Qed.

(** ** Theorems *)

(** C3. CRC32C: the table-driven loops compute the bit-serial CRC of the
    Castagnoli polynomial whether or not the table was initialised before,
    leave a correct table behind, [powerfs_crc32c_append] started at 0 is the
    one-shot [powerfs_crc32c], and appending block by block is appending the
    concatenation. *)
Theorem crc32c_correct (g : crc_globals) (crc : Z) (a b : buffer) :
  crc_ok g -> is_u32 crc -> bytes_ok a -> bytes_ok b ->
  let '(one, g1) := powerfs_crc32c g a (blen a) in
  let '(app, g2) := powerfs_crc32c_append g crc a (blen a) in
  crc_ok g1 /\ crc_ok g2 /\
  one = Z.lxor (crc_ref 0xFFFFFFFF a) 0xFFFFFFFF /\
  one = fst (powerfs_crc32c_append g1 0 a (blen a)) /\
  fst (powerfs_crc32c_append g2 app b (blen b)) =
    fst (powerfs_crc32c_append g2 crc (a ++ b) (blen (a ++ b))).
Proof.
  intros Hg Hc Ha Hb. destruct (crc_ensure_table_ok g Hg) as [Hg' Hi].
  pose proof (crc32c_append_ref g crc a (blen a) Hg Ha) as Happ.
  unfold powerfs_crc32c. destruct (powerfs_crc32c_append g crc a (blen a)) as [app g2] eqn:E.
  pose proof (crc32c_append_globals g crc a (blen a) Hg) as Hg2. rewrite E in Hg2; cbn [snd] in Hg2.
  cbn [fst] in Happ. subst app. rewrite crc_fold_ref by (auto with pfs; lia).
  rewrite !crc32c_append_ref by (auto; apply bytes_ok_app; auto).
  rewrite !slice_0 by done. split_and!; try done.
  - change (not32 0) with 0xFFFFFFFF. rewrite not32_lxor; [done|].
    apply crc_ref_u32; [unfold is_u32; lia|done].
  - rewrite not32_involutive by (apply crc_ref_u32; auto with pfs).
    by rewrite crc_ref_app.
Qed.

(** Any decoder with a correct table accepts an encoded header. *)
Lemma frame_hdr_decode_encoded g h fl sq mt st dl bl rh :
  crc_ok g -> hdr_ok h ->
  h = mk_frame_hdr 0x4E534650 1 fl sq mt st dl bl rh 1 (not32 (crc_ref 0xFFFFFFFF (hdr_prefix h))) ->
  exists g', powerfs_net_frame_hdr_decode g (hdr_bytes h) 28 = (true, Some h, g') /\ crc_ok g'.
Proof.
  intros Hg Hok Hh. unfold powerfs_net_frame_hdr_decode. rewrite hdr_of_bytes_bytes by done.
  pose proof (crc32c_append_ref g 0 (hdr_bytes h) 24 Hg (hdr_bytes_ok h)) as Hc.
  pose proof (crc32c_append_globals g 0 (hdr_bytes h) 24 Hg) as Hs.
  destruct (powerfs_crc32c_append g 0 (hdr_bytes h) 24) as [crc g']; cbn [fst snd] in *; subst crc.
  change (not32 0) with 0xFFFFFFFF. rewrite slice_hdr_prefix.
  pose proof (f_equal magic Hh) as ->. pose proof (f_equal version Hh) as ->.
  pose proof (f_equal header_crc Hh) as ->. cbn [magic version header_crc].
  rewrite (Z.eqb_refl (not32 _)). by exists g'.
Qed.

(** Frame headers round-trip: for in-range arguments the encoded header,
    laid out in memory, is accepted by the decoder with every field as given,
    the magic bytes being "PFSN". *)
Theorem frame_hdr_roundtrip (g : crc_globals) (hdr : frame_hdr) (mt fl sq st bl dl rh : Z) :
  crc_ok g -> hdr_args_ok mt fl sq st bl dl rh ->
  let '(h, g') := powerfs_net_frame_hdr_encode g hdr mt fl sq st bl dl rh in
  take 4 (hdr_bytes h) = [0x50; 0x46; 0x53; 0x4E] /\
  exists g'', powerfs_net_frame_hdr_decode g' (hdr_bytes h) (blen (hdr_bytes h)) = (true, Some h, g'') /\
  (msg_type h, flags h, seq h, status h, body_len h, data_len h, route_hash h, protocol_ver h) =
    (mt, fl, sq, st, bl, dl, rh, POWERFS_NET_PROTOCOL_VER).
Proof.
  intros Hg Ha. pose proof (frame_hdr_encode_spec g hdr mt fl sq st bl dl rh Hg Ha) as H.
  destruct (powerfs_net_frame_hdr_encode g hdr mt fl sq st bl dl rh) as [h g'].
  destruct H as (Hg' & Hok & Hh). split; [by rewrite Hh|].
  rewrite blen_hdr_bytes. destruct (frame_hdr_decode_encoded g' h fl sq mt st dl bl rh Hg' Hok Hh) as (g'' & Hd & _).
  exists g''. split; [done|]. by rewrite Hh.
Qed.

(** C4. Burst detection: a 28-byte header produced by the encoder and then
    damaged anywhere inside one window of at most four bytes (CRC bytes
    included) is rejected by the decoder. *)
Theorem frame_hdr_burst_rejected (g : crc_globals) (hdr : frame_hdr)
    (mt fl sq st bl dl rh : Z) (a w w' c : buffer) :
  crc_ok g -> hdr_args_ok mt fl sq st bl dl rh ->
  let '(h, g') := powerfs_net_frame_hdr_encode g hdr mt fl sq st bl dl rh in
  hdr_bytes h = a ++ w ++ c -> bytes_ok w' -> length w' = length w -> (length w <= 4)%nat ->
  w' <> w ->
  fst (fst (powerfs_net_frame_hdr_decode g' (a ++ w' ++ c) (blen (a ++ w' ++ c)))) = false.
Proof.
  intros Hg Ha. pose proof (frame_hdr_encode_spec g hdr mt fl sq st bl dl rh Hg Ha) as H.
  destruct (powerfs_net_frame_hdr_encode g hdr mt fl sq st bl dl rh) as [h g'].
  destruct H as (Hg' & Hok & Hh). intros Heq Hw' Hlen H4 Hne.
  assert (Hres : crc_ref 0xFFFFFFFF (hdr_bytes h) = crc_residue).
  { refine (proj1 (crc_residue_iff (hdr_prefix h) (header_crc h) _ _) _); [auto with pfs| |].
    - by destruct Hok as (_&_&_&_&_&_&_&_&_&_&?).
    - pose proof (f_equal header_crc Hh) as Hx. cbn [header_crc] in Hx. exact Hx. }
  clear Hh Hok.
  pose proof (hdr_bytes_ok h) as Hb. rewrite Heq, !bytes_ok_app in Hb. destruct Hb as (Hoa & How & Hoc).
  assert (Hl : blen (a ++ w' ++ c) = 28).
  { rewrite <- (blen_hdr_bytes h), Heq. unfold blen. rewrite !length_app. lia. }
  rewrite Hl. apply not_true_is_false. intros Ht. apply Hne.
  assert (Hok' : bytes_ok (a ++ w' ++ c)) by (rewrite !bytes_ok_app; auto).
  apply (frame_hdr_decode_residue g' _ Hg' Hok' Hl) in Ht.
  rewrite Heq in Hres. rewrite <- Hres in Ht.
  rewrite !crc_ref_app in Ht by (rewrite ?bytes_ok_app; auto).
  assert (Hs : is_u32 (crc_ref 0xFFFFFFFF a)) by (apply crc_ref_u32; [unfold is_u32; lia|done]).
  apply crc_ref_inj_state in Ht; [|apply crc_ref_u32; assumption..].
  apply crc_ref_inj_window in Ht; [exact Ht|assumption|assumption|exact Hlen|lia].
Qed.

(** ** Witnesses *)

Lemma hdr_args_sample : hdr_args_ok 0x0101 1 7 0 16 4112 0xAA.
Proof. unfold hdr_args_ok, is_u8, is_u32; lia. Qed.

(** "123456789" has the standard check value 0xE3069283. *)
Lemma crc32c_correct_witness :
  let data := [49; 50; 51; 52; 53; 54; 55; 56; 57] in
  fst (powerfs_crc32c crc_globals0 data 9) = 0xE3069283 /\
  crc_ok (snd (powerfs_crc32c crc_globals0 data 9)).
Proof.
  split; [vm_compute; reflexivity|].
  apply (crc32c_correct crc_globals0 0 [49; 50; 51; 52; 53; 54; 55; 56; 57] []);
    [exact crc_globals0_ok|unfold is_u32; lia|unfold bytes_ok; split_forall; lia|constructor].
Defined.

Lemma frame_hdr_roundtrip_witness :
  let h := fst (powerfs_net_frame_hdr_encode crc_globals0 (hdr_of_bytes []) 0x0101 1 7 0 16 4112 0xAA) in
  take 4 (hdr_bytes h) = [0x50; 0x46; 0x53; 0x4E].
Proof.
  apply (frame_hdr_roundtrip crc_globals0 (hdr_of_bytes []) 0x0101 1 7 0 16 4112 0xAA);
    [exact crc_globals0_ok|exact hdr_args_sample].
Defined.

(** One flipped bit of the sequence number. *)
Lemma frame_hdr_burst_rejected_witness :
  let '(h, g') := powerfs_net_frame_hdr_encode crc_globals0 (hdr_of_bytes []) 0x0101 1 7 0 16 4112 0xAA in
  let b := take 6 (hdr_bytes h) ++ [6] ++ drop 7 (hdr_bytes h) in
  fst (fst (powerfs_net_frame_hdr_decode g' b (blen b))) = false.
Proof.
  pose proof (fun a c => frame_hdr_burst_rejected crc_globals0 (hdr_of_bytes []) 0x0101 1 7 0 16 4112
    0xAA a [7] [6] c crc_globals0_ok hdr_args_sample) as H.
  destruct (powerfs_net_frame_hdr_encode crc_globals0 (hdr_of_bytes []) 0x0101 1 7 0 16 4112 0xAA)
    as [h g'] eqn:E.
  apply H; [|unfold bytes_ok; split_forall; lia|reflexivity|simpl; lia|discriminate].
  replace h with (fst (h, g')) by reflexivity. rewrite <- E. vm_compute. reflexivity.
Defined.
