(* ===== verification/ShardMap.v ===== *)
(** * ShardMap: routing an inode to its metadata shard

    Models the ShardMap part of [src/powerfs_mod/powerfs_net_shard.c]
    (lines 49-149) and its structures in [powerfs_net.h]: the 64-slot range
    table, its two constructors and the binary search that every metadata
    request runs.

    Shown: whatever order the master sends the ranges in, each inode is routed
    to the shard whose range contains it; the synthetic table of
    [shard_map_from_shard_count] routes by million; malformed blobs are
    rejected with the table untouched. *)

From stdpp Require Import sorting.
From S2P Require Import Prelude Tlv.

Definition POWERFS_MAX_SHARDS : Z := 64.

Record shard_map_entry := mk_entry { range_start : Z; range_end : Z; shard_id : Z }.

Definition entry0 : shard_map_entry := mk_entry 0 0 0.

Record shard_map := mk_map { entries : list shard_map_entry; entry_count : Z }.

(** [g_shard_map] as declared: 64 zeroed slots, no ranges yet. *)
Definition shard_map0 : shard_map := mk_map (replicate 64 entry0) 0.

Definition entry_at (a : list shard_map_entry) (i : Z) : shard_map_entry :=
  default entry0 (a !! Z.to_nat i).

(** The [while (lo <= hi)] loop; [None] only when the fuel runs out. *)
Fixpoint route_loop (fuel : nat) (a : list shard_map_entry) (inode lo hi idx : Z) : option Z :=
  match fuel with
  | O => None
  | S fuel =>
      if lo <=? hi then
        let mid := lo + (hi - lo) ÷ 2 in
        if range_start (entry_at a mid) <=? inode
        then route_loop fuel a inode (mid + 1) hi mid
        else route_loop fuel a inode lo (mid - 1) idx
      else Some idx
  end.

Definition shard_map_route (g : shard_map) (inode : Z) : Z :=
  if entry_count g =? 0 then 0 else
  match route_loop (S (Z.to_nat (entry_count g))) (entries g) inode 0 (entry_count g - 1) 0 with
  | Some idx => shard_id (entry_at (entries g) idx)
  | None => 0
  end.

Definition shard_map_from_shard_count (g : shard_map) (count : Z) : shard_map :=
  let inode_per_shard := 1000000 in
  let count := if (count =? 0) || (count >? POWERFS_MAX_SHARDS) then 1 else count in
  let '(a, _) :=
    foldl (fun '(a, start) i =>
             (<[i := mk_entry start (u64 (start + inode_per_shard)) (Z.of_nat i)]> a,
              u64 (start + inode_per_shard)))
          (entries g, 0) (seq 0 (Z.to_nat count)) in
  mk_map a count.

(** One 25-byte record: three little-endian u64 and a state byte that is
    ignored. *)
Definition entry_size : Z := 25.
Definition parse_entry (blob : buffer) (i : Z) : shard_map_entry :=
  let p := i * entry_size in
  mk_entry (le64_at blob p) (le64_at blob (p + 8)) (le64_at blob (p + 16)).

(** The inner [while] of the insertion sort; [j1] is the source's [j + 1]. *)
Fixpoint insert_shift (j1 : nat) (a : list shard_map_entry) (tmp : shard_map_entry)
  : list shard_map_entry :=
  match j1 with
  | O => <[0%nat := tmp]> a
  | S j =>
      if range_start (entry_at a (Z.of_nat j)) >? range_start tmp
      then insert_shift j (<[S j := entry_at a (Z.of_nat j)]> a) tmp
      else <[S j := tmp]> a
  end.

Definition sort_step (a : list shard_map_entry) (i : nat) : list shard_map_entry :=
  insert_shift i a (entry_at a (Z.of_nat i)).

Definition shard_map_from_entries (g : shard_map) (blob : option buffer) (len : Z)
  : Z * shard_map :=
  match blob with
  | None => (- EINVAL, g)
  | Some blob =>
      if len =? 0 then (- EINVAL, g) else
      let n := s32 (len / entry_size) in
      if (n =? 0) || (n >? POWERFS_MAX_SHARDS) then (- EINVAL, g) else
      let a := foldl (fun a i => <[i := parse_entry blob (Z.of_nat i)]> a)
                     (entries g) (seq 0 (Z.to_nat n)) in
      let a := foldl sort_step a (seq 1 (Z.to_nat n - 1)) in
      (0, mk_map a n)
  end.

(** ** Invariant and the binary search *)

Definition by_start (e e' : shard_map_entry) : Prop := range_start e <= range_start e'.

#[global] Instance by_start_trans : Transitive by_start.
Proof. unfold by_start. intros ???; lia. Qed.

(** The table has its 64 slots and the used ones are sorted. *)
Definition shard_map_wf (g : shard_map) : Prop :=
  length (entries g) = 64%nat /\ 0 <= entry_count g <= POWERFS_MAX_SHARDS /\
  StronglySorted by_start (take (Z.to_nat (entry_count g)) (entries g)).

Lemma shard_map0_wf : shard_map_wf shard_map0.
Proof. split; [done|]. split; [unfold POWERFS_MAX_SHARDS; simpl; lia|]. simpl. constructor. Qed.

Lemma entry_at_sorted a n i j :
  StronglySorted by_start (take n a) -> (n <= length a)%nat -> 0 <= i <= j -> j < Z.of_nat n ->
  range_start (entry_at a i) <= range_start (entry_at a j).
Proof.
  intros Hs Hn Hij Hj. destruct (Z.eq_dec i j) as [->|]; [lia|].
  destruct (lookup_lt_is_Some_2 a (Z.to_nat i)) as [x Hx]; [lia|].
  destruct (lookup_lt_is_Some_2 a (Z.to_nat j)) as [y Hy]; [lia|].
  unfold entry_at. rewrite Hx, Hy; simpl.
  rewrite <- (take_drop (S (Z.to_nat i)) (take n a)) in Hs.
  apply (StronglySorted_app_1_elem_of _ _ _ x y) in Hs; [done| |].
  - apply list_elem_of_lookup. exists (Z.to_nat i).
    rewrite lookup_take_lt by lia. rewrite lookup_take_lt by lia. done.
  - apply list_elem_of_lookup. exists (Z.to_nat j - S (Z.to_nat i))%nat.
    rewrite lookup_drop, lookup_take_lt by lia. rewrite <- Hy. f_equal. lia.
Qed.

(** Loop invariant: everything left of [lo] starts at or before the inode,
    everything right of [hi] starts after it, and [idx] is the last index known
    to qualify.  The fuel bound is the width of the interval. *)
Lemma route_loop_spec a n inode fuel lo hi idx :
  StronglySorted by_start (take n a) -> (n <= length a)%nat ->
  0 <= lo -> lo <= hi + 1 -> hi < Z.of_nat n -> (Z.to_nat (hi - lo + 1) < fuel)%nat ->
  idx = Z.max 0 (lo - 1) ->
  (forall i, 0 <= i < lo -> range_start (entry_at a i) <= inode) ->
  (forall i, hi < i < Z.of_nat n -> inode < range_start (entry_at a i)) ->
  exists k, route_loop fuel a inode lo hi idx = Some (Z.max 0 (k - 1)) /\ 0 <= k <= Z.of_nat n /\
    (forall i, 0 <= i < k -> range_start (entry_at a i) <= inode) /\
    (forall i, k <= i < Z.of_nat n -> inode < range_start (entry_at a i)).
Proof.
  intros Hs Hn. revert lo hi idx; induction fuel as [|fuel IH]; intros lo hi idx H0 Hlh Hh Hf Hidx Hl Hr;
    [lia|]. simpl.
  destruct (Z.leb_spec lo hi) as [Hle|Hgt].
  2:{ exists lo. subst idx. split_and!; auto; try lia. intros i Hi. apply Hr; lia. }
  rewrite Z.quot_div_nonneg by lia.
  pose proof (Z.div_pos (hi - lo) 2 ltac:(lia) ltac:(lia)).
  pose proof (Z.div_lt_upper_bound (hi - lo) 2 (hi - lo + 1) ltac:(lia) ltac:(lia)).
  set (mid := lo + (hi - lo) / 2) in *.
  destruct (Z.leb_spec (range_start (entry_at a mid)) inode) as [Hm|Hm].
  - apply IH; try lia; [|exact Hr]. intros i Hi.
    pose proof (entry_at_sorted a n i mid Hs Hn). lia.
  - apply IH; try lia; [exact Hl|]. intros i Hi.
    pose proof (entry_at_sorted a n mid i Hs Hn). lia.
Qed.

Lemma shard_map_route_spec g inode :
  shard_map_wf g -> 0 < entry_count g ->
  exists k, shard_map_route g inode = shard_id (entry_at (entries g) (Z.max 0 (k - 1))) /\
    0 <= k <= entry_count g /\
    (forall i, 0 <= i < k -> range_start (entry_at (entries g) i) <= inode) /\
    (forall i, k <= i < entry_count g -> inode < range_start (entry_at (entries g) i)).
Proof.
  intros (Hl & Hc & Hs) H0. unfold POWERFS_MAX_SHARDS in Hc.
  destruct (route_loop_spec (entries g) (Z.to_nat (entry_count g)) inode
    (S (Z.to_nat (entry_count g))) 0 (entry_count g - 1) 0 Hs) as (k & Hk & Hk1 & Hk2 & Hk3); try lia.
  exists k. unfold shard_map_route. rewrite Hk.
  replace (entry_count g =? 0) with false by (symmetry; apply Z.eqb_neq; lia).
  rewrite Z2Nat.id in * by lia. done.
Qed.

(** The ranges [[start, end)] of a table overlap only when they are the same. *)
Definition disjoint_ranges (es : list shard_map_entry) : Prop :=
  forall e e' x, e ∈ es -> e' ∈ es ->
    range_start e <= x < range_end e -> range_start e' <= x < range_end e' -> e = e'.

Definition nonempty_ranges (es : list shard_map_entry) : Prop :=
  Forall (fun e => range_start e < range_end e) es.

Lemma elem_of_take_entry_at (a : list shard_map_entry) n e :
  e ∈ take n a -> exists i, (i < n)%nat /\ (i < length a)%nat /\ entry_at a (Z.of_nat i) = e.
Proof.
  intros He. apply list_elem_of_lookup in He as [i Hi].
  pose proof (lookup_lt_Some _ _ _ Hi) as Hlt. rewrite length_take in Hlt.
  rewrite lookup_take_lt in Hi by lia. exists i. split_and!; try lia.
  unfold entry_at. by rewrite Nat2Z.id, Hi.
Qed.

Lemma entry_at_elem_of (a : list shard_map_entry) n i :
  0 <= i < Z.of_nat n -> (n <= length a)%nat -> entry_at a i ∈ take n a.
Proof.
  intros Hi Hn. destruct (lookup_lt_is_Some_2 a (Z.to_nat i)) as [x Hx]; [lia|].
  unfold entry_at. rewrite Hx; simpl. apply list_elem_of_lookup. exists (Z.to_nat i).
  by rewrite lookup_take_lt by lia.
Qed.

(** Refinement: on a well-formed table with disjoint ranges the search is
    "the range that contains the inode". *)
Lemma shard_map_route_range g inode e :
  shard_map_wf g ->
  let used := take (Z.to_nat (entry_count g)) (entries g) in
  disjoint_ranges used -> nonempty_ranges used ->
  e ∈ used -> range_start e <= inode < range_end e ->
  shard_map_route g inode = shard_id e.
Proof.
  intros Hwf used Hd Hn He Hr. pose proof Hwf as (Hl & Hc & Hs). unfold POWERFS_MAX_SHARDS in Hc.
  destruct (elem_of_take_entry_at _ _ _ He) as (i & Hi & Hil & Hie).
  destruct (shard_map_route_spec g inode Hwf) as (k & -> & Hk & Hlo & Hhi); [lia|].
  assert (Hik : Z.of_nat i < k).
  { destruct (Z.lt_ge_cases (Z.of_nat i) k); [done|].
    pose proof (Hhi (Z.of_nat i) ltac:(lia)). rewrite Hie in *. lia. }
  set (m := Z.max 0 (k - 1)).
  assert (Hm : entry_at (entries g) m ∈ used) by (apply entry_at_elem_of; lia).
  pose proof (entry_at_sorted _ _ (Z.of_nat i) m Hs ltac:(lia) ltac:(lia) ltac:(lia)) as Hsm.
  rewrite Hie in Hsm. pose proof (Hlo m ltac:(lia)) as Hlm.
  pose proof (proj1 (Forall_forall _ _) Hn _ Hm) as Hne; simpl in Hne.
  f_equal. apply (Hd _ e (range_start (entry_at (entries g) m))); auto; lia.
Qed.

(** ** Insertion sort *)

Lemma entry_at_middle l x r : entry_at (l ++ x :: r) (Z.of_nat (length l)) = x.
Proof. unfold entry_at. by rewrite Nat2Z.id, list_lookup_middle. Qed.

Lemma insert_shift_spec tmp l y r :
  StronglySorted by_start l ->
  exists l1 l2, l = l1 ++ l2 /\
    insert_shift (length l) (l ++ y :: r) tmp = l1 ++ tmp :: l2 ++ r /\
    StronglySorted by_start (l1 ++ tmp :: l2).
Proof.
  revert y r; induction l as [|z l IH] using rev_ind; intros y r Hs.
  - exists [], []. split_and!; try done. constructor; constructor.
  - rewrite length_app, Nat.add_comm; simpl. rewrite <- app_assoc; simpl.
    rewrite entry_at_middle.
    replace (S (length l)) with (length (l ++ [z])) by (rewrite length_app; simpl; lia).
    replace (l ++ z :: y :: r) with ((l ++ [z]) ++ y :: r) by (by rewrite <- app_assoc).
    rewrite !insert_at_length. case_if.
    + rewrite <- app_assoc; simpl. apply StronglySorted_app in Hs as (Hz & Hs & _).
      destruct (IH z (z :: r) Hs) as (l1 & l2 & -> & -> & Hsr).
      exists l1, (l2 ++ [z]). split_and!.
      * by rewrite app_assoc.
      * by rewrite <- app_assoc.
      * change (tmp :: l2 ++ [z]) with ((tmp :: l2) ++ [z]). rewrite app_assoc.
        apply StronglySorted_app. split_and!; [|done|repeat constructor].
        intros x x' Hx ->%list_elem_of_singleton. unfold by_start.
        rewrite elem_of_app, elem_of_cons in Hx. destruct Hx as [Hx|[->|Hx]]; [|lia|];
          apply Hz; set_solver.
    + exists (l ++ [z]), []. split_and!; [by rewrite app_nil_r|done|].
      apply StronglySorted_app. split_and!; [|done|repeat constructor].
      apply StronglySorted_app in Hs as (Hz & _ & _).
      intros x x' Hx ->%list_elem_of_singleton. unfold by_start.
      rewrite elem_of_app, list_elem_of_singleton in Hx. destruct Hx as [Hx| ->]; [|lia].
      specialize (Hz x z Hx ltac:(set_solver)). unfold by_start in Hz. lia.
Qed.

Lemma sort_loop_spec l r tail :
  StronglySorted by_start l ->
  exists l', foldl sort_step (l ++ r ++ tail) (seq (length l) (length r)) = l' ++ tail /\
    StronglySorted by_start l' /\ l' ≡ₚ l ++ r.
Proof.
  revert l; induction r as [|x r IH]; intros l Hs; simpl.
  - exists l. by rewrite app_nil_r.
  - unfold sort_step at 2. rewrite entry_at_middle.
    destruct (insert_shift_spec x l x (r ++ tail) Hs) as (l1 & l2 & -> & -> & Hs').
    replace (l1 ++ x :: l2 ++ r ++ tail) with ((l1 ++ x :: l2) ++ r ++ tail)
      by (by rewrite <- app_assoc).
    replace (S (length (l1 ++ l2))) with (length (l1 ++ x :: l2)) by (rewrite !length_app; simpl; lia).
    destruct (IH _ Hs') as (l' & -> & Hsl & Hp). exists l'. split_and!; auto.
    rewrite Hp, <- !app_assoc; simpl. by rewrite Permutation_middle.
Qed.

(** The records of a blob, in the order they were sent. *)
Definition blob_entries (blob : buffer) (n : nat) : list shard_map_entry :=
  (fun i => parse_entry blob (Z.of_nat i)) <$> seq 0 n.

Lemma shard_map_from_entries_spec g blob len :
  length (entries g) = 64%nat -> 0 < len < 2 ^ 32 ->
  let n := len / 25 in
  (1 <= n <= 64 ->
   exists g', shard_map_from_entries g (Some blob) len = (0, g') /\ shard_map_wf g' /\
     entry_count g' = n /\
     take (Z.to_nat n) (entries g') ≡ₚ blob_entries blob (Z.to_nat n)) /\
  (~ 1 <= n <= 64 -> shard_map_from_entries g (Some blob) len = (- EINVAL, g)).
Proof.
  intros Hl Hlen n. unfold shard_map_from_entries, entry_size, POWERFS_MAX_SHARDS.
  replace (len =? 0) with false by (symmetry; apply Z.eqb_neq; lia).
  assert (Hn : 0 <= n < 2 ^ 31).
  { split; [apply Z.div_pos; lia|apply Z.div_lt_upper_bound; lia]. }
  fold n. replace (s32 n) with n by (unfold s32; rewrite Z.mod_small; lia).
  destruct (Z.eqb_spec n 0) as [E0|E0]; simpl; [split; [lia|done]|].
  rewrite Z.gtb_ltb. destruct (Z.ltb_spec 64 n) as [E1|E1]; [split; [lia|done]|].
  split; [intros _|lia].
  rewrite (foldl_fill (fun i => parse_entry blob (Z.of_nat i))) by lia.
  fold (blob_entries blob (Z.to_nat n)).
  assert (Hbl : length (blob_entries blob (Z.to_nat n)) = Z.to_nat n)
    by (unfold blob_entries; by rewrite length_fmap, length_seq).
  destruct (blob_entries blob (Z.to_nat n)) as [|x es] eqn:Eb; [simpl in Hbl; lia|].
  simpl in Hbl.
  destruct (sort_loop_spec [x] es (drop (Z.to_nat n) (entries g))) as (l' & Hf & Hs & Hp);
    [repeat constructor|]. simpl in Hf.
  replace (Z.to_nat n - 1)%nat with (length es) by lia.
  change ((x :: es) ++ drop (Z.to_nat n) (entries g)) with (x :: es ++ drop (Z.to_nat n) (entries g)).
  rewrite Hf. eexists; split; [done|].
  pose proof (Permutation_length Hp) as Hpl; simpl in Hpl.
  assert (Ht : take (Z.to_nat n) (l' ++ drop (Z.to_nat n) (entries g)) = l').
  { rewrite take_app_le, take_ge by lia. done. }
  unfold shard_map_wf; cbn [entries entry_count]. rewrite Ht. split_and!; auto.
  - rewrite length_app, length_drop. lia.
  - unfold POWERFS_MAX_SHARDS; lia.
Qed.

(** ** The synthetic map *)

Definition count_entry (i : nat) : shard_map_entry :=
  mk_entry (1000000 * Z.of_nat i) (1000000 * Z.of_nat (S i)) (Z.of_nat i).

Lemma shard_count_loop k (t : list shard_map_entry) :
  (k <= length t)%nat -> (k <= 64)%nat ->
  foldl (fun '(a, start) i =>
           (<[i := mk_entry start (u64 (start + 1000000)) (Z.of_nat i)]> a, u64 (start + 1000000)))
        (t, 0) (seq 0 k) =
  ((count_entry <$> seq 0 k) ++ drop k t, 1000000 * Z.of_nat k).
Proof.
  induction k as [|k IH]; intros Hk H64; [done|].
  rewrite seq_S, foldl_app, IH by lia. simpl foldl. rewrite u64_small by lia.
  f_equal; [|lia]. rewrite fmap_app; simpl.
  replace (1000000 * Z.of_nat k + 1000000) with (1000000 * Z.of_nat (S k)) by lia.
  apply insert_drop_middle; [|lia]. by rewrite length_fmap, length_seq.
Qed.

Lemma count_entries_sorted a k : StronglySorted by_start (count_entry <$> seq a k).
Proof.
  revert a; induction k as [|k IH]; intros a; simpl; constructor; [apply IH|].
  apply Forall_fmap, Forall_forall. intros i Hi. apply elem_of_seq in Hi.
  unfold by_start; simpl; lia.
Qed.

Definition clamp_count (count : Z) : Z :=
  if (count =? 0) || (count >? POWERFS_MAX_SHARDS) then 1 else count.

Lemma clamp_count_range count : 0 <= count -> 1 <= clamp_count count <= 64.
Proof. intros. unfold clamp_count, POWERFS_MAX_SHARDS. destruct (Z.eqb_spec count 0); simpl; [lia|]. case_if; lia. Qed.

Lemma shard_map_from_shard_count_spec g count :
  length (entries g) = 64%nat -> 0 <= count ->
  let g' := shard_map_from_shard_count g count in
  let n := Z.to_nat (clamp_count count) in
  shard_map_wf g' /\ entry_count g' = clamp_count count /\
  take n (entries g') = count_entry <$> seq 0 n.
Proof.
  intros Hl Hc. cbv zeta. unfold shard_map_from_shard_count. fold (clamp_count count).
  pose proof (clamp_count_range count Hc). set (c := clamp_count count) in *.
  rewrite shard_count_loop by lia. unfold shard_map_wf; cbn [entries entry_count].
  assert (Hlen : length (count_entry <$> seq 0 (Z.to_nat c)) = Z.to_nat c)
    by (by rewrite length_fmap, length_seq).
  rewrite take_app_le, take_ge by lia. split_and!; auto.
  - rewrite length_app, length_drop. lia.
  - lia.
  - unfold POWERFS_MAX_SHARDS; lia.
  - apply count_entries_sorted.
Qed.

(** ** Theorems *)

(** C5. Routing from the master's table: a blob of 1 to 64 records, in any
    order, is installed as a sorted table of exactly those records, and if the
    ranges are non-empty and disjoint every inode that some range contains is
    routed to that range's shard; a blob of any other size is rejected with
    [-EINVAL] and the old table kept. *)
Theorem shard_map_entries_route (g : shard_map) (blob : buffer) (len : Z) :
  shard_map_wf g -> 0 < len < 2 ^ 32 ->
  let n := len / 25 in
  let es := blob_entries blob (Z.to_nat n) in
  (1 <= n <= 64 ->
   exists g', shard_map_from_entries g (Some blob) len = (0, g') /\ shard_map_wf g' /\
     take (Z.to_nat n) (entries g') ≡ₚ es /\
     (nonempty_ranges es -> disjoint_ranges es ->
      forall e inode, e ∈ es -> range_start e <= inode < range_end e ->
        shard_map_route g' inode = shard_id e)) /\
  (~ 1 <= n <= 64 -> shard_map_from_entries g (Some blob) len = (- EINVAL, g)).
Proof.
  intros (Hl & _) Hlen n es.
  destruct (shard_map_from_entries_spec g blob len Hl Hlen) as [Hok Herr]. split; [|exact Herr].
  intros Hn. destruct (Hok Hn) as (g' & He & Hwf & Hc & Hp). exists g'. split_and!; auto.
  intros Hne Hd e inode Hin Hr. fold n in Hc, Hp. fold es in Hp.
  apply shard_map_route_range; auto; rewrite Hc.
  - intros e1 e2 x H1 H2. rewrite Hp in H1, H2. eauto.
  - unfold nonempty_ranges. by rewrite Hp.
  - by rewrite Hp.
Qed.

(** Routing from a shard count: the synthetic table sends inode [i] to
    shard [i / 1000000], the last shard taking everything beyond; a count of 0
    or above 64 is treated as 1. *)
Theorem shard_map_count_route (g : shard_map) (count inode : Z) :
  shard_map_wf g -> 0 <= count -> 0 <= inode ->
  let g' := shard_map_from_shard_count g count in
  shard_map_wf g' /\
  shard_map_route g' inode = Z.min (inode / 1000000) (clamp_count count - 1).
Proof.
  intros (Hl & _) Hc Hi g'. destruct (shard_map_from_shard_count_spec g count Hl Hc) as (Hwf & Hcnt & Hes).
  fold g' in Hwf, Hcnt, Hes. split; [done|].
  pose proof (clamp_count_range count Hc) as Hr. set (c := clamp_count count) in *.
  assert (Hat : forall i, 0 <= i < c -> entry_at (entries g') i = count_entry (Z.to_nat i)).
  { intros i Hi'. unfold entry_at.
    rewrite <- (lookup_take_lt _ (Z.to_nat c)), Hes, list_lookup_fmap, lookup_seq_lt by lia. done. }
  destruct (shard_map_route_spec g' inode Hwf) as (k & -> & Hk & Hlo & Hhi); [lia|].
  rewrite Hcnt in *. rewrite Hat by lia. unfold count_entry; simpl. rewrite Z2Nat.id by lia.
  assert (H0k : 0 < k).
  { destruct (Z.lt_ge_cases 0 k); [done|]. pose proof (Hhi 0 ltac:(lia)) as H0.
    rewrite Hat in H0 by lia. simpl in H0. lia. }
  pose proof (Hlo (k - 1) ltac:(lia)) as Hle. rewrite Hat in Hle by lia. simpl in Hle.
  pose proof (Z.div_mod inode 1000000 ltac:(lia)). pose proof (Z.mod_pos_bound inode 1000000 ltac:(lia)).
  destruct (Z.eq_dec k c) as [->|]; [lia|].
  pose proof (Hhi k ltac:(lia)) as Hgt. rewrite Hat in Hgt by lia. simpl in Hgt. lia.
Qed.

(** ** Witnesses *)

(** Two records sent in the wrong order: [100, 200) -> 7 and [0, 100) -> 3. *)
Definition sample_blob : buffer :=
  le_split 8 100 ++ le_split 8 200 ++ le_split 8 7 ++ [0] ++
  le_split 8 0 ++ le_split 8 100 ++ le_split 8 3 ++ [1].

Lemma shard_map_entries_route_witness :
  exists g', shard_map_from_entries shard_map0 (Some sample_blob) 50 = (0, g') /\
    shard_map_route g' 42 = 3 /\ shard_map_route g' 150 = 7.
Proof.
  destruct (shard_map_entries_route shard_map0 sample_blob 50 shard_map0_wf ltac:(lia)) as [H _].
  destruct (H ltac:(vm_compute; split; congruence)) as (g' & He & _ & _ & Hroute).
  change (blob_entries sample_blob (Z.to_nat (50 / 25)))
    with [mk_entry 100 200 7; mk_entry 0 100 3] in Hroute.
  assert (Hn : nonempty_ranges [mk_entry 100 200 7; mk_entry 0 100 3])
    by (unfold nonempty_ranges; split_forall; simpl; lia).
  assert (Hd : disjoint_ranges [mk_entry 100 200 7; mk_entry 0 100 3]).
  { intros e e' x He1 He2. inv_elem; simpl; (done || lia). }
  specialize (Hroute Hn Hd). exists g'. split_and!; [exact He| |].
  - apply (Hroute (mk_entry 0 100 3)); [set_solver|simpl; lia].
  - apply (Hroute (mk_entry 100 200 7)); [set_solver|simpl; lia].
Defined.

Lemma shard_map_count_route_witness :
  shard_map_route (shard_map_from_shard_count shard_map0 4) 2500000 = 2.
Proof.
  rewrite (proj2 (shard_map_count_route shard_map0 4 2500000 shard_map0_wf ltac:(lia) ltac:(lia))).
  vm_compute. reflexivity.
Defined.
