(* ===== verification/EcField.v ===== *)
(** * EcField: the GF(2^8) tables and operations of the erasure codec

    Models lines 22-75 of [src/powerfs_mod/powerfs_ec.c]: the exponent and
    logarithm tables filled by [gf_init] for the polynomial 0x11d and the
    table-driven product, quotient, inverse and power.

    Shown: with the tables of [gf_init] the operations are those of a field on
    bytes (exclusive-or as addition).  Distributivity is proved from the way
    the table is generated, by repeated multiplication by x; the finite facts
    about the tables are evaluated. *)

From S2P Require Import Prelude.

Definition POWERFS_GF_POLY : Z := 0x11d.

Record gf_tables := mk_gf { gf_exp : list Z; gf_log : list Z }.

(** [kzalloc]ed tables. *)
Definition gf_tables0 : gf_tables := mk_gf (replicate 512 0) (replicate 256 0).

(** [x <<= 1; if (x & 0x100) x ^= POWERFS_GF_POLY;] *)
Definition xtime (x : Z) : Z :=
  let x := Z.shiftl x 1 in
  if negb (Z.land x 0x100 =? 0) then Z.lxor x POWERFS_GF_POLY else x.

Definition gf_init (gf : gf_tables) : gf_tables :=
  let '(gf, _) :=
    foldl (fun '(gf, x) i =>
             (mk_gf (<[i := u8 x]> (gf_exp gf)) (<[Z.to_nat x := u8 (Z.of_nat i)]> (gf_log gf)),
              xtime x))
          (gf, 1) (seq 0 255) in
  let exp := foldl (fun e i => <[i := default 0 (e !! (i - 255)%nat)]> e)
                   (gf_exp gf) (seq 255 257) in
  mk_gf exp (<[0%nat := 0]> (gf_log gf)).

Definition exp_at (gf : gf_tables) (i : Z) : Z := default 0 (gf_exp gf !! Z.to_nat i).
Definition log_at (gf : gf_tables) (a : Z) : Z := default 0 (gf_log gf !! Z.to_nat a).

Definition gf_mul (gf : gf_tables) (a b : Z) : Z :=
  if (a =? 0) || (b =? 0) then 0 else exp_at gf (log_at gf a + log_at gf b).

Definition gf_div (gf : gf_tables) (a b : Z) : Z :=
  if a =? 0 then 0 else exp_at gf ((log_at gf a + 255 - log_at gf b) mod 255).

Definition gf_inv (gf : gf_tables) (a : Z) : Z := exp_at gf (255 - log_at gf a).

(** [gf->log[a] * exp] is computed in [u32]. *)
Definition gf_pow (gf : gf_tables) (a exp : Z) : Z :=
  if a =? 0 then 0 else
  if exp =? 0 then 1 else
  exp_at gf (u32 (log_at gf a * exp) mod 255).

(** The tables of every codec: [gf_init] on zeroed memory. *)
Definition GF : gf_tables := gf_init gf_tables0.

Lemma gf_init_GF : gf_init gf_tables0 = GF.
Proof. unfold GF. reflexivity. Qed.

(** ** Finite facts about the tables *)

Definition all_below (n : nat) (p : Z -> bool) : bool := forallb (fun i => p (Z.of_nat i)) (seq 0 n).

Lemma all_below_spec n p i : all_below n p = true -> 0 <= i < Z.of_nat n -> p i = true.
Proof.
  intros H Hi. unfold all_below in H. rewrite forallb_forall in H.
  specialize (H (Z.to_nat i)). rewrite Z2Nat.id in H by lia. apply H, in_seq. lia.
Qed.

(** One evaluation of the table facts the proofs need. *)
Definition gf_check : bool :=
  all_below 255 (fun i => (exp_at GF (i + 1) =? xtime (exp_at GF i))
                          && (log_at GF (exp_at GF i) =? i)
                          && (0 <? exp_at GF i) && (exp_at GF i <? 256)
                          && (exp_at GF (i + 255) =? exp_at GF i)) &&
  all_below 256 (fun a => (a =? 0) || ((exp_at GF (log_at GF a) =? a)
                                       && (0 <=? log_at GF a) && (log_at GF a <? 255))).

Lemma gf_check_true : gf_check = true.
Proof. vm_compute. reflexivity. Qed.

#[global] Opaque GF exp_at log_at.

Lemma exp_facts i :
  0 <= i < 255 ->
  exp_at GF (i + 1) = xtime (exp_at GF i) /\ log_at GF (exp_at GF i) = i /\
  0 < exp_at GF i < 256 /\ exp_at GF (i + 255) = exp_at GF i.
Proof.
  intros Hi. pose proof gf_check_true as H. unfold gf_check in H.
  apply andb_true_iff in H as [H _].
  apply (all_below_spec _ _ i) in H; [|lia]. cbv beta in H. bool_to_prop. split_and!; lia.
Qed.

Lemma log_facts a :
  0 < a < 256 -> exp_at GF (log_at GF a) = a /\ 0 <= log_at GF a < 255.
Proof.
  intros Ha. pose proof gf_check_true as H. unfold gf_check in H.
  apply andb_true_iff in H as [_ H].
  apply (all_below_spec _ _ a) in H; [|lia].
  apply orb_true_iff in H as [H|H]; bool_to_prop; [lia|split_and!; assumption].
Qed.

(** ** Multiplication by x is linear, and the table is its orbit *)

Definition is_byte (x : Z) : Prop := 0 <= x < 256.

Lemma is_byte_lxor a b : is_byte a -> is_byte b -> is_byte (Z.lxor a b).
Proof.
  unfold is_byte; intros Ha Hb. split; [apply Z.lxor_nonneg; lia|].
  destruct (Z.eq_dec (Z.lxor a b) 0) as [->|]; [lia|].
  apply (Z.log2_lt_pow2 _ 8); [pose proof (proj2 (Z.lxor_nonneg a b)); lia|].
  eapply Z.le_lt_trans; [apply Z.log2_lxor; lia|].
  assert (Hlog : forall x, 0 <= x < 256 -> Z.log2 x < 8).
  { intros x Hx. destruct (Z.eq_dec x 0) as [->|]; [done|]. apply Z.log2_lt_pow2; lia. }
  apply Z.max_lub_lt; auto.
Qed.
#[export] Hint Resolve is_byte_lxor : pfs.

Lemma xtime_bit x : negb (Z.land (Z.shiftl x 1) 0x100 =? 0) = Z.testbit x 7.
Proof.
  assert (Hb : forall n, 0 <= n ->
    Z.testbit (Z.land (Z.shiftl x 1) 0x100) n = (n =? 8) && Z.testbit x 7).
  { intros n Hn. change 0x100 with (2 ^ 8). rewrite Z.land_spec, Z.pow2_bits_eqb by lia.
    rewrite Z.shiftl_spec by lia. rewrite (Z.eqb_sym 8).
    destruct (Z.eqb_spec n 8) as [->|]; [apply andb_true_r|apply andb_false_r]. }
  destruct (Z.testbit x 7).
  - destruct (Z.eqb_spec (Z.land (Z.shiftl x 1) 0x100) 0) as [E|]; [|done].
    specialize (Hb 8 ltac:(lia)). by rewrite E in Hb.
  - replace (Z.land (Z.shiftl x 1) 0x100) with 0; [done|]. apply Z.bits_inj'.
    intros n Hn. by rewrite Hb, Z.bits_0, andb_false_r.
Qed.

Lemma xtime_lxor a b : xtime (Z.lxor a b) = Z.lxor (xtime a) (xtime b).
Proof.
  unfold xtime. rewrite !xtime_bit, Z.lxor_spec, Z.shiftl_lxor.
  destruct (Z.testbit a 7), (Z.testbit b 7); simpl xorb; cbv iota;
    set (p := POWERFS_GF_POLY); set (u := Z.shiftl a 1); set (v := Z.shiftl b 1);
    apply Z.bits_inj'; intros n Hn; rewrite !Z.lxor_spec;
    destruct (Z.testbit u n), (Z.testbit v n), (Z.testbit p n); done.
Qed.

Lemma xtime_iter_lxor n a b :
  Nat.iter n xtime (Z.lxor a b) = Z.lxor (Nat.iter n xtime a) (Nat.iter n xtime b).
Proof. induction n as [|n IH]; simpl; [done|]. by rewrite IH, xtime_lxor. Qed.

Lemma xtime_iter_0 n : Nat.iter n xtime 0 = 0.
Proof. induction n as [|n IH]; simpl; [done|]. by rewrite IH. Qed.

(** The exponent table, wrapped at 255. *)
Definition expm (i : Z) : Z := exp_at GF (i mod 255).

Lemma exp_at_expm i : 0 <= i < 510 -> exp_at GF i = expm i.
Proof.
  intros Hi. unfold expm. destruct (Z.lt_ge_cases i 255); [by rewrite Z.mod_small by lia|].
  replace i with ((i - 255) + 255) at 1 by lia.
  replace (i mod 255) with (i - 255) by (apply Z.mod_unique with 1; lia).
  apply exp_facts; lia.
Qed.

Lemma expm_byte i : 0 < expm i < 256.
Proof. apply exp_facts, Z.mod_pos_bound; lia. Qed.

Lemma expm_succ i : expm (i + 1) = xtime (expm i).
Proof.
  pose proof (Z.mod_pos_bound i 255 ltac:(lia)) as Hi.
  unfold expm. rewrite <- (proj1 (exp_facts _ Hi)).
  destruct (Z.eq_dec (i mod 255) 254) as [E|].
  - rewrite <- Z.add_mod_idemp_l, E by lia. change ((254 + 1) mod 255) with 0.
    change (254 + 1) with (0 + 255). symmetry. by apply exp_facts.
  - rewrite <- Z.add_mod_idemp_l by lia. by rewrite Z.mod_small by lia.
Qed.

Lemma expm_add_iter n i : expm (i + Z.of_nat n) = Nat.iter n xtime (expm i).
Proof.
  induction n as [|n IH]; [by rewrite Z.add_0_r|].
  replace (i + Z.of_nat (S n)) with (i + Z.of_nat n + 1) by lia. by rewrite expm_succ, IH.
Qed.

Lemma expm_inj i j : expm i = expm j -> i mod 255 = j mod 255.
Proof.
  intros H. unfold expm in H. apply (f_equal (log_at GF)) in H.
  rewrite !(proj1 (proj2 (exp_facts _ (Z.mod_pos_bound _ 255 ltac:(lia))))) in H. done.
Qed.

Lemma byte_expm a : 0 < a < 256 -> a = expm (log_at GF a) /\ 0 <= log_at GF a < 255.
Proof. intros Ha. destruct (log_facts a Ha) as [E Hl]. split; [|done]. by rewrite <- exp_at_expm by lia. Qed.

Lemma expm_mod i j : i mod 255 = j mod 255 -> expm i = expm j.
Proof. unfold expm. by intros ->. Qed.

Lemma log_expm i : log_at GF (expm i) = i mod 255.
Proof. unfold expm. apply exp_facts, Z.mod_pos_bound; lia. Qed.

(** ** Field laws *)

Lemma gf_mul_0_l b : gf_mul GF 0 b = 0.
Proof. done. Qed.
Lemma gf_mul_0_r a : gf_mul GF a 0 = 0.
Proof. unfold gf_mul. by rewrite orb_true_r. Qed.

Lemma gf_mul_expm i j : gf_mul GF (expm i) (expm j) = expm (i + j).
Proof.
  pose proof (expm_byte i); pose proof (expm_byte j). unfold gf_mul.
  destruct (Z.eqb_spec (expm i) 0); [lia|]. destruct (Z.eqb_spec (expm j) 0); [lia|]. simpl.
  pose proof (Z.mod_pos_bound i 255 ltac:(lia)); pose proof (Z.mod_pos_bound j 255 ltac:(lia)).
  rewrite !log_expm, exp_at_expm by lia. apply expm_mod. symmetry. apply Z.add_mod; lia.
Qed.

(** Every byte is 0 or a power of x. *)
Lemma byte_cases a : is_byte a -> a = 0 \/ exists i, a = expm i /\ 0 <= i < 255.
Proof.
  unfold is_byte; intros Ha. destruct (Z.eq_dec a 0); [by left|right].
  exists (log_at GF a). apply byte_expm; lia.
Qed.

Lemma gf_mul_byte a b : is_byte a -> is_byte b -> is_byte (gf_mul GF a b).
Proof.
  intros Ha Hb. destruct (byte_cases a Ha) as [->|(i & -> & _)]; [by rewrite gf_mul_0_l|].
  destruct (byte_cases b Hb) as [->|(j & -> & _)]; [by rewrite gf_mul_0_r|].
  rewrite gf_mul_expm. pose proof (expm_byte (i + j)). unfold is_byte; lia.
Qed.
#[export] Hint Resolve gf_mul_byte : pfs.

Lemma gf_mul_comm a b : gf_mul GF a b = gf_mul GF b a.
Proof. unfold gf_mul. by rewrite orb_comm, Z.add_comm. Qed.

Lemma gf_mul_assoc a b c :
  is_byte a -> is_byte b -> is_byte c ->
  gf_mul GF a (gf_mul GF b c) = gf_mul GF (gf_mul GF a b) c.
Proof.
  intros Ha Hb Hc.
  destruct (byte_cases a Ha) as [->|(i & -> & _)]; [by rewrite !gf_mul_0_l|].
  destruct (byte_cases b Hb) as [->|(j & -> & _)]; [by rewrite gf_mul_0_l, gf_mul_0_r, gf_mul_0_l|].
  destruct (byte_cases c Hc) as [->|(k & -> & _)]; [by rewrite !gf_mul_0_r|].
  by rewrite !gf_mul_expm, Z.add_assoc.
Qed.

(** Multiplying by [x^i] is [i] doublings. *)
Lemma gf_mul_iter i b : 0 <= i -> is_byte b -> gf_mul GF (expm i) b = Nat.iter (Z.to_nat i) xtime b.
Proof.
  intros Hi Hb. destruct (byte_cases b Hb) as [->|(j & -> & _)]; [by rewrite gf_mul_0_r, xtime_iter_0|].
  rewrite gf_mul_expm, Z.add_comm, <- expm_add_iter. by rewrite Z2Nat.id.
Qed.

Lemma gf_mul_lxor_r a b c :
  is_byte a -> is_byte b -> is_byte c ->
  gf_mul GF a (Z.lxor b c) = Z.lxor (gf_mul GF a b) (gf_mul GF a c).
Proof.
  intros Ha Hb Hc. destruct (byte_cases a Ha) as [->|(i & -> & Hi)]; [by rewrite !gf_mul_0_l|].
  rewrite !gf_mul_iter by (auto with pfs; lia). apply xtime_iter_lxor.
Qed.

Lemma gf_mul_lxor_l a b c :
  is_byte a -> is_byte b -> is_byte c ->
  gf_mul GF (Z.lxor a b) c = Z.lxor (gf_mul GF a c) (gf_mul GF b c).
Proof. intros. rewrite !(gf_mul_comm _ c). by apply gf_mul_lxor_r. Qed.

Lemma expm_0 : expm 0 = 1.
Proof. vm_compute. reflexivity. Qed.

Lemma gf_mul_1_l a : is_byte a -> gf_mul GF 1 a = a.
Proof.
  intros Ha. rewrite <- expm_0. by rewrite gf_mul_iter by (try done; lia).
Qed.
Lemma gf_mul_1_r a : is_byte a -> gf_mul GF a 1 = a.
Proof. intros. by rewrite gf_mul_comm, gf_mul_1_l. Qed.

Lemma gf_inv_spec a : 0 < a < 256 -> is_byte (gf_inv GF a) /\ gf_inv GF a <> 0 /\ gf_mul GF a (gf_inv GF a) = 1.
Proof.
  intros Ha. destruct (byte_expm a Ha) as [E Hl]. unfold gf_inv. rewrite exp_at_expm by lia.
  pose proof (expm_byte (255 - log_at GF a)) as Hb. unfold is_byte. split_and!; try lia.
  rewrite E at 1. rewrite gf_mul_expm. rewrite <- expm_0. apply expm_mod.
  replace (log_at GF a + (255 - log_at GF a)) with 255 by lia. done.
Qed.

Lemma gf_mul_eq_0 a b : is_byte a -> is_byte b -> gf_mul GF a b = 0 -> a = 0 \/ b = 0.
Proof.
  intros Ha Hb. destruct (byte_cases a Ha) as [->|(i & -> & _)]; [by left|].
  destruct (byte_cases b Hb) as [->|(j & -> & _)]; [by right|].
  rewrite gf_mul_expm. pose proof (expm_byte (i + j)). lia.
Qed.

Lemma gf_div_spec a b : is_byte a -> 0 < b < 256 -> gf_div GF a b = gf_mul GF a (gf_inv GF b).
Proof.
  intros Ha Hb. destruct (byte_expm b Hb) as [_ Hl]. unfold gf_div.
  destruct (byte_cases a Ha) as [->|(i & -> & Hi)]; [by rewrite gf_mul_0_l|].
  pose proof (expm_byte i). destruct (Z.eqb_spec (expm i) 0); [lia|].
  unfold gf_inv. rewrite (exp_at_expm (255 - _)) by lia. rewrite gf_mul_expm, log_expm.
  rewrite (Z.mod_small i) by lia. fold (expm (i + 255 - log_at GF b)). apply expm_mod. f_equal. lia.
Qed.

Lemma gf_pow_spec a n :
  0 < a < 256 -> Z.of_nat n < 2 ^ 23 -> gf_pow GF a (Z.of_nat n) = Nat.iter n (gf_mul GF a) 1.
Proof.
  intros Ha Hn. destruct (byte_expm a Ha) as [E Hl]. unfold gf_pow.
  destruct (Z.eqb_spec a 0); [lia|].
  assert (Hit : forall m, Nat.iter m (gf_mul GF a) 1 = expm (log_at GF a * Z.of_nat m)).
  { induction m as [|m IH]; [by rewrite Z.mul_0_r, expm_0|].
    cbn [Nat.iter nat_rect]. fold (Nat.iter m (gf_mul GF a) 1). rewrite IH, E at 1.
    rewrite gf_mul_expm, Nat2Z.inj_succ, Z.mul_succ_r, Z.add_comm. reflexivity. }
  rewrite Hit. destruct (Z.eqb_spec (Z.of_nat n) 0) as [E0|].
  - by rewrite E0, Z.mul_0_r, expm_0.
  - rewrite u32_small; [done|]. nia.
Qed.

(** ** Theorem *)

(** The table operations of the codec form the field GF(2^8): products of
    bytes are bytes, multiplication is commutative, associative, has unit 1 and
    distributes over exclusive-or, [gf_inv] inverts every non-zero byte,
    [gf_div] is multiplication by the inverse, and [gf_pow] of a non-zero base
    is iterated multiplication. *)
Theorem gf_field (a b c : Z) (n : nat) :
  is_byte a -> is_byte b -> is_byte c -> Z.of_nat n < 2 ^ 23 ->
  is_byte (gf_mul GF a b) /\
  gf_mul GF a b = gf_mul GF b a /\
  gf_mul GF a (gf_mul GF b c) = gf_mul GF (gf_mul GF a b) c /\
  gf_mul GF 1 a = a /\
  gf_mul GF a (Z.lxor b c) = Z.lxor (gf_mul GF a b) (gf_mul GF a c) /\
  (a <> 0 -> gf_mul GF a (gf_inv GF a) = 1 /\ gf_div GF b a = gf_mul GF b (gf_inv GF a) /\
             gf_pow GF a (Z.of_nat n) = Nat.iter n (gf_mul GF a) 1).
Proof.
  intros Ha Hb Hc Hn. split_and!; auto using gf_mul_byte, gf_mul_comm, gf_mul_assoc, gf_mul_1_l, gf_mul_lxor_r.
  intros H0. assert (0 < a < 256) by (unfold is_byte in Ha; lia).
  split_and!; [by apply gf_inv_spec|by apply gf_div_spec|by apply gf_pow_spec].
Qed.

Lemma gf_field_witness :
  gf_mul GF 0x53 (gf_inv GF 0x53) = 1 /\ gf_pow GF 2 8 = 0x1d.
Proof.
  destruct (gf_field 0x53 2 7 3) as (_ & _ & _ & _ & _ & H); [unfold is_byte; lia..|lia|].
  split; [apply H; lia|vm_compute; reflexivity].
Defined.
