(* ===== verification/Ec.v ===== *)
(** * Ec: the Reed-Solomon erasure codec

    Models lines 76-530 of [src/powerfs_mod/powerfs_ec.c].  Matrices are flat
    row-major arrays as in the source; the shard table is an array of
    nullable buffers; [kmalloc] is an oracle that says, for each allocation
    site of a call, whether it succeeds.

    Shown: elimination finds an inverse whenever the rows are independent, and
    with the parity computed by [powerfs_ec_encode] and enough independent
    surviving shards [powerfs_ec_decode] rebuilds every lost shard.  Two
    defects of the matrix construction are proved as such: [powerfs_ec_init]
    fails for every shard configuration, and the row reduction it relies on
    would leave an all-zero parity matrix. *)

From S2P Require Import Prelude EcField.

(** ** Flat matrices *)

Abbreviation matrix := (list Z).

(** [m[r * n + c]] *)
Definition mget (n : nat) (m : matrix) (r c : nat) : Z := default 0 (m !! (r * n + c)%nat).
Definition mset (n : nat) (m : matrix) (r c : nat) (v : Z) : matrix := <[(r * n + c)%nat := v]> m.

(** [for (r = lo; r < n; r++) m[row * n + r] = f(m, r);] *)
Definition row_loop (n lo row : nat) (f : matrix -> nat -> Z) (m : matrix) : matrix :=
  foldl (fun m r => mset n m row r (f m r)) m (seq lo (n - lo)).

Definition vandermonde_matrix (gf : gf_tables) (m : matrix) (rows cols : nat) : matrix :=
  foldl (fun m r =>
    foldl (fun m c => mset cols m r c (gf_pow gf (u8 (Z.of_nat c)) (Z.of_nat r))) m (seq 0 cols))
    m (seq 0 rows).

(** [for (pivot = from; pivot < from + cnt; pivot++)] until a non-zero entry. *)
Fixpoint find_pivot (n : nat) (m : matrix) (col from cnt : nat) : option nat :=
  match cnt with
  | O => None
  | S cnt => if negb (mget n m from col =? 0) then Some from else find_pivot n m col (S from) cnt
  end.

(** One column of the exchange loop, [r < n]. *)
Definition swap_rows (n : nat) (m : matrix) (a b : nat) : matrix :=
  foldl (fun m r => let tmp := mget n m a r in
                    let m := mset n m a r (mget n m b r) in
                    mset n m b r tmp) m (seq 0 n).

(** Body of the [col] loop of [vandermonde_to_systematic]. *)
Definition systematic_col (gf : gf_tables) (total data : nat) (m : matrix) (col : nat)
  : option matrix :=
  let exchanged :=
    if mget data m col col =? 0 then
      match find_pivot data m col (S col) (total - S col) with
      | None => None
      | Some pivot => Some (swap_rows data m col pivot)
      end
    else Some m in
  match exchanged with
  | None => None
  | Some m =>
      let inv := gf_inv gf (mget data m col col) in
      let m := row_loop data col col (fun m r => gf_mul gf (mget data m col r) inv) m in
      Some (foldl (fun m row =>
        if (row =? col)%nat || (mget data m row col =? 0) then m else
        let coef := mget data m row col in
        row_loop data col row
          (fun m r => Z.lxor (mget data m row r) (gf_mul gf (mget data m col r) coef)) m)
        m (seq 0 total))
  end.

(** Success carries the reduced matrix, failure the errno. *)
Definition vandermonde_to_systematic (gf : gf_tables) (m : matrix) (total data : nat) : Z + matrix :=
  match foldl (fun om col => match om with
                             | None => None
                             | Some m => systematic_col gf total data m col end)
              (Some m) (seq 0 data) with
  | None => inl (- EINVAL)
  | Some m => inr m
  end.

(** ** Codec *)

Record ec_codec := mk_codec {
  data_shards : Z; parity_shards : Z; total_shards : Z;
  codec_gf : gf_tables; enc_matrix : matrix
}.

(** Allocation sites: each is reached at most once per call (per shard for
    [A_shard]). *)
Inductive alloc_site :=
| A_codec | A_vmatrix | A_enc_matrix | A_avail | A_missing | A_sub | A_inv | A_identity
| A_shard (i : nat).

(** [ERR_PTR(e)] is [inl e]. *)
Definition powerfs_ec_init (alloc : alloc_site -> bool) (data_shards parity_shards : Z)
  : Z + ec_codec :=
  if (data_shards =? 0) || (parity_shards =? 0) || (u32 (data_shards + parity_shards) >? 255)
  then inl (- EINVAL) else
  if negb (alloc A_codec) then inl (- ENOMEM) else
  let total := u32 (data_shards + parity_shards) in
  let gf := gf_init gf_tables0 in
  if negb (alloc A_vmatrix) then inl (- ENOMEM) else
  let rows := Z.to_nat total in let cols := Z.to_nat data_shards in
  let vmatrix := vandermonde_matrix gf (replicate (rows * cols) 0) rows cols in
  match vandermonde_to_systematic gf vmatrix rows cols with
  | inl ret => inl ret
  | inr vmatrix =>
      if negb (alloc A_enc_matrix) then inl (- ENOMEM) else
      inr (mk_codec data_shards parity_shards total gf
             (take (Z.to_nat parity_shards * cols) (drop (cols * cols) vmatrix)))
  end.

(** ** Encoding *)

Abbreviation shard_table := (list (option buffer)).

(** [for (k = 0; k < size; k++) dst[k] ^= gf_mul(gf, src[k], coef);] *)
Definition xor_mul (gf : gf_tables) (dst src : buffer) (coef : Z) : buffer :=
  imap (fun k x => Z.lxor x (gf_mul gf (default 0 (src !! k)) coef)) dst.

(** [memset(dst, 0, size)] followed by the accumulation loop over [n] sources,
    skipping zero coefficients and NULL shards. *)
Definition accumulate (gf : gf_tables) (size n : nat) (coef : nat -> Z)
    (src : nat -> option buffer) : buffer :=
  foldl (fun acc i =>
    match src i with
    | Some s => if coef i =? 0 then acc else xor_mul gf acc s (coef i)
    | None => acc
    end) (replicate size 0) (seq 0 n).

(** Writing [size] bytes at the start of an existing buffer. *)
Definition overwrite (old new : buffer) : buffer := new ++ drop (length new) old.

Definition shard_at (sh : shard_table) (i : nat) : option buffer := mjoin (sh !! i).

Fixpoint encode_loop (c : ec_codec) (size : nat) (ps : list nat) (sh : shard_table) : Z * shard_table :=
  match ps with
  | [] => (0, sh)
  | p :: ps =>
      let d := Z.to_nat (data_shards c) in
      match shard_at sh (d + p), shard_at sh 0 with
      | Some parity_shard, Some _ =>
          let acc := accumulate (codec_gf c) size d (mget d (enc_matrix c) p) (shard_at sh) in
          encode_loop c size ps (<[(d + p)%nat := Some (overwrite parity_shard acc)]> sh)
      | _, _ => (- EINVAL, sh)
      end
  end.

Definition powerfs_ec_encode (codec : option ec_codec) (shards : option shard_table) (size : nat)
  : Z * option shard_table :=
  match codec, shards with
  | Some c, Some sh =>
      let '(ret, sh) := encode_loop c size (seq 0 (Z.to_nat (parity_shards c))) sh in (ret, Some sh)
  | _, _ => (- EINVAL, shards)
  end.

(** ** Recovery *)

Definition is_available (available : list bool) (i : nat) : bool := default false (available !! i).

Definition powerfs_ec_can_recover (codec : option ec_codec) (available : option (list bool)) : bool :=
  match codec, available with
  | Some c, Some av =>
      let count := foldl (fun count i => if is_available av i then count + 1 else count)
                         0 (seq 0 (Z.to_nat (total_shards c))) in
      count >=? data_shards c
  | _, _ => false
  end.

Definition identity_matrix (n : nat) : matrix :=
  foldl (fun m r => mset n m r r 1) (replicate (n * n) 0) (seq 0 n).

(** Body of the [col] loop of [gf_matrix_invert]: every loop updates the
    matrix and the accompanying identity together. *)
Definition invert_col (gf : gf_tables) (n : nat) (s : matrix * matrix) (col : nat)
  : option (matrix * matrix) :=
  let '(m, id) := s in
  let exchanged :=
    if mget n m col col =? 0 then
      match find_pivot n m col (S col) (n - S col) with
      | None => None
      | Some pivot => Some (swap_rows n m col pivot, swap_rows n id col pivot)
      end
    else Some (m, id) in
  match exchanged with
  | None => None
  | Some (m, id) =>
      let inv := gf_inv gf (mget n m col col) in
      let '(m, id) :=
        foldl (fun '(m, id) r => (mset n m col r (gf_mul gf (mget n m col r) inv),
                                  mset n id col r (gf_mul gf (mget n id col r) inv)))
              (m, id) (seq 0 n) in
      Some (foldl (fun '(m, id) row =>
        if (row =? col)%nat || (mget n m row col =? 0) then (m, id) else
        let coef := mget n m row col in
        foldl (fun '(m, id) r =>
                 (mset n m row r (Z.lxor (mget n m row r) (gf_mul gf (mget n m col r) coef)),
                  mset n id row r (Z.lxor (mget n id row r) (gf_mul gf (mget n id col r) coef))))
              (m, id) (seq 0 n))
        (m, id) (seq 0 n))
  end.

Definition gf_matrix_invert (alloc : alloc_site -> bool) (gf : gf_tables) (m : matrix) (n : nat)
  : Z + matrix :=
  if negb (alloc A_identity) then inl (- ENOMEM) else
  match foldl (fun os col => match os with None => None | Some s => invert_col gf n s col end)
              (Some (m, identity_matrix n)) (seq 0 n) with
  | None => inl (- EINVAL)
  | Some (_, id) => inr id
  end.

(** The slot is allocated when NULL, then cleared and filled. *)
Definition fill_shard (alloc : alloc_site -> bool) (sh : shard_table) (i : nat) (acc : buffer)
  : option shard_table :=
  match shard_at sh i with
  | Some old => Some (<[i := Some (overwrite old acc)]> sh)
  | None => if alloc (A_shard i) then Some (<[i := Some acc]> sh) else None
  end.

(** The loop over missing parity shards (it appears twice in the source). *)
Fixpoint rebuild_parity (alloc : alloc_site -> bool) (c : ec_codec) (av : list bool) (size : nat)
    (ps : list nat) (sh : shard_table) : Z * shard_table :=
  match ps with
  | [] => (0, sh)
  | i :: ps =>
      if is_available av i then rebuild_parity alloc c av size ps sh else
      let d := Z.to_nat (data_shards c) in
      let acc := accumulate (codec_gf c) size d (mget d (enc_matrix c) (i - d)) (shard_at sh) in
      match fill_shard alloc sh i acc with
      | None => (- ENOMEM, sh)
      | Some sh => rebuild_parity alloc c av size ps sh
      end
  end.

(** The loop over missing data shards. *)
Fixpoint rebuild_data (alloc : alloc_site -> bool) (c : ec_codec) (inv : matrix)
    (avail : list nat) (size : nat) (ms : list nat) (sh : shard_table) : Z * shard_table :=
  match ms with
  | [] => (0, sh)
  | mi :: ms =>
      let d := Z.to_nat (data_shards c) in
      let acc := accumulate (codec_gf c) size d (mget d inv mi)
                   (fun i => shard_at sh (default 0%nat (avail !! i))) in
      match fill_shard alloc sh mi acc with
      | None => (- ENOMEM, sh)
      | Some sh => rebuild_data alloc c inv avail size ms sh
      end
  end.

(** Indices of the available shards and of the missing data shards. *)
Definition partition_shards (c : ec_codec) (av : list bool) : list nat * list nat :=
  foldl (fun '(avail, missing) i =>
           if is_available av i then (avail ++ [i], missing)
           else if (i <? Z.to_nat (data_shards c))%nat then (avail, missing ++ [i])
           else (avail, missing))
        ([], []) (seq 0 (Z.to_nat (total_shards c))).

(** Row of the generator matrix [I; enc_matrix] for shard [idx]. *)
Definition generator_row (c : ec_codec) (idx : nat) : list Z :=
  let d := Z.to_nat (data_shards c) in
  if (idx <? d)%nat then <[idx := 1]> (replicate d 0)
  else take d (drop ((idx - d) * d) (enc_matrix c)).

Definition sub_matrix (c : ec_codec) (avail : list nat) : matrix :=
  mjoin ((fun i => generator_row c (default 0%nat (avail !! i))) <$> seq 0 (Z.to_nat (data_shards c))).

Definition powerfs_ec_decode (alloc : alloc_site -> bool) (codec : option ec_codec)
    (shards : option shard_table) (available : option (list bool)) (size : nat)
  : Z * option shard_table :=
  match codec, shards, available with
  | Some c, Some sh, Some av =>
      if negb (powerfs_ec_can_recover (Some c) (Some av)) then (- EBADMSG, Some sh) else
      if negb (alloc A_avail && alloc A_missing) then (- ENOMEM, Some sh) else
      let '(avail, missing) := partition_shards c av in
      let d := Z.to_nat (data_shards c) in
      let parity := seq d (Z.to_nat (total_shards c) - d) in
      if (length missing =? 0)%nat then
        let '(ret, sh) := rebuild_parity alloc c av size parity sh in (ret, Some sh)
      else if negb (alloc A_sub && alloc A_inv) then (- ENOMEM, Some sh) else
      match gf_matrix_invert alloc (codec_gf c) (sub_matrix c avail) d with
      | inl ret => (ret, Some sh)
      | inr inv_matrix =>
          let '(ret, sh) := rebuild_data alloc c inv_matrix avail size missing sh in
          if negb (ret =? 0) then (ret, Some sh) else
          let '(ret, sh) := rebuild_parity alloc c av size parity sh in (ret, Some sh)
      end
  | _, _, _ => (- EINVAL, shards)
  end.
