(* ===== verification/EcProof.v ===== *)
(** * EcProof: correctness of the erasure codec

    Linear algebra over the field of [EcField] (sums of bytes under
    exclusive-or), the pointwise effect of the in-place matrix loops of [Ec],
    the elimination invariant, and the codec theorems. *)

From S2P Require Import Prelude EcField Ec.

#[local] Notation "a ⊕ b" := (Z.lxor a b) (at level 50, left associativity).
#[local] Notation "a ⊗ b" := (gf_mul GF a b) (at level 40, left associativity).

#[global] Opaque gf_mul gf_inv.

(** ** Sums *)

Fixpoint gsum (n : nat) (f : nat -> Z) : Z :=
  match n with O => 0 | S n => gsum n f ⊕ f n end.

Definition bytes_fun (f : nat -> Z) : Prop := forall i, is_byte (f i).

Lemma is_byte_0 : is_byte 0.
Proof. unfold is_byte; lia. Qed.
Lemma is_byte_1 : is_byte 1.
Proof. unfold is_byte; lia. Qed.
#[export] Hint Resolve is_byte_0 is_byte_1 : pfs.

Lemma gsum_ext n f g : (forall i, (i < n)%nat -> f i = g i) -> gsum n f = gsum n g.
Proof. induction n as [|n IH]; intros H; simpl; [done|]. rewrite IH by (intros; apply H; lia). by rewrite H by lia. Qed.

Lemma gsum_byte n f : (forall i, (i < n)%nat -> is_byte (f i)) -> is_byte (gsum n f).
Proof. induction n as [|n IH]; intros H; simpl; [auto with pfs|]. apply is_byte_lxor; [apply IH; auto|apply H; lia]. Qed.

Lemma gsum_0 n : gsum n (fun _ => 0) = 0.
Proof. induction n as [|n IH]; simpl; [done|]. by rewrite IH. Qed.

Lemma lxor_shuffle a b c d : (a ⊕ b) ⊕ (c ⊕ d) = (a ⊕ c) ⊕ (b ⊕ d).
Proof. rewrite !Z.lxor_assoc. f_equal. rewrite <- !Z.lxor_assoc. f_equal. apply Z.lxor_comm. Qed.

Lemma gsum_lxor n f g : gsum n (fun i => f i ⊕ g i) = gsum n f ⊕ gsum n g.
Proof. induction n as [|n IH]; simpl; [done|]. by rewrite IH, lxor_shuffle. Qed.

Lemma gsum_mul_l n a f :
  is_byte a -> (forall i, (i < n)%nat -> is_byte (f i)) -> a ⊗ gsum n f = gsum n (fun i => a ⊗ f i).
Proof.
  intros Ha. induction n as [|n IH]; intros H; simpl; [apply gf_mul_0_r|].
  rewrite gf_mul_lxor_r by (auto using gsum_byte). by rewrite IH by auto.
Qed.

Lemma gsum_mul_r n a f :
  is_byte a -> (forall i, (i < n)%nat -> is_byte (f i)) -> gsum n f ⊗ a = gsum n (fun i => f i ⊗ a).
Proof.
  intros. rewrite gf_mul_comm, gsum_mul_l by done. apply gsum_ext. intros. apply gf_mul_comm.
Qed.

Lemma gsum_swap n k f : gsum n (fun i => gsum k (f i)) = gsum k (fun j => gsum n (fun i => f i j)).
Proof.
  induction n as [|n IH]; simpl; [by rewrite gsum_0|]. by rewrite IH, <- gsum_lxor.
Qed.

Definition delta (i j : nat) : Z := if decide (i = j) then 1 else 0.

Lemma delta_eq i : delta i i = 1.
Proof. unfold delta. by rewrite decide_True. Qed.
Lemma delta_ne i j : i <> j -> delta i j = 0.
Proof. intros. unfold delta. by rewrite decide_False. Qed.
Lemma delta_byte i j : is_byte (delta i j).
Proof. unfold delta. case_decide; auto with pfs. Qed.
#[export] Hint Resolve delta_byte : pfs.

Lemma gsum_delta n k f :
  (k < n)%nat -> (forall i, (i < n)%nat -> is_byte (f i)) -> gsum n (fun i => delta k i ⊗ f i) = f k.
Proof.
  intros Hk Hf. induction n as [|n IH]; [lia|]. simpl.
  destruct (decide (k = n)) as [->|].
  - rewrite delta_eq, gf_mul_1_l by auto. rewrite (gsum_ext n _ (fun _ => 0)), gsum_0; [done|].
    intros i Hi. rewrite delta_ne by lia. apply gf_mul_0_l.
  - rewrite delta_ne, gf_mul_0_l, Z.lxor_0_r by done. apply IH; auto with lia.
Qed.

(** ** Pointwise effect of the matrix loops *)

Definition mat_ok (rows n : nat) (m : matrix) : Prop :=
  length m = (rows * n)%nat /\ Forall is_byte m.

Lemma mget_byte rows n m r c : mat_ok rows n m -> is_byte (mget n m r c).
Proof.
  intros [_ Hb]. unfold mget. destruct (m !! (r * n + c)%nat) eqn:E; simpl; auto with pfs.
  by eapply Forall_lookup_1 in Hb.
Qed.
#[export] Hint Resolve mget_byte : pfs.

Lemma index_lt rows n r c : (r < rows)%nat -> (c < n)%nat -> (r * n + c < rows * n)%nat.
Proof. nia. Qed.

Lemma index_inj n r c r' c' :
  (c < n)%nat -> (c' < n)%nat -> (r * n + c = r' * n + c')%nat -> r = r' /\ c = c'.
Proof. intros. assert (r = r') by nia. subst. split; [done|lia]. Qed.

Lemma mget_mset rows n m r c v i j :
  length m = (rows * n)%nat -> (r < rows)%nat -> (c < n)%nat -> (j < n)%nat ->
  mget n (mset n m r c v) i j = if decide (i = r /\ j = c) then v else mget n m i j.
Proof.
  intros Hl Hr Hc Hj. unfold mget, mset. case_decide as H.
  - destruct H as [-> ->]. rewrite list_lookup_insert_eq; [done|]. rewrite Hl. by apply index_lt.
  - rewrite list_lookup_insert_ne; [done|]. intros E. apply H.
    destruct (index_inj n r c i j); auto.
Qed.

Lemma mset_ok rows n m r c v : mat_ok rows n m -> is_byte v -> mat_ok rows n (mset n m r c v).
Proof. intros [Hl Hb] Hv. unfold mset. split; [by rewrite length_insert|by apply Forall_insert]. Qed.
#[export] Hint Resolve mset_ok : pfs.

(** A row loop whose new value at [c] depends only on entries that the loop
    has not yet changed computes [g] on columns [lo..n) of [row]. *)
Lemma row_loop_spec rows n lo row f g m :
  mat_ok rows n m -> (row < rows)%nat -> (lo <= n)%nat ->
  (forall m' c, (c < n)%nat ->
     (forall i j, (j < n)%nat -> i <> row \/ (c <= j)%nat -> mget n m' i j = mget n m i j) ->
     f m' c = g c) ->
  (forall c, (c < n)%nat -> is_byte (g c)) ->
  mat_ok rows n (row_loop n lo row f m) /\
  forall i j, (j < n)%nat -> mget n (row_loop n lo row f m) i j =
    if decide (i = row /\ (lo <= j)%nat) then g j else mget n m i j.
Proof.
  intros Hm Hrow Hlo Hf Hg. unfold row_loop.
  assert (H : forall k, (lo + k <= n)%nat ->
    let m' := foldl (fun m r => mset n m row r (f m r)) m (seq lo k) in
    mat_ok rows n m' /\ forall i j, (j < n)%nat -> mget n m' i j =
      if decide (i = row /\ (lo <= j < lo + k)%nat) then g j else mget n m i j).
  { induction k as [|k IH]; intros Hk; cbv zeta.
    - split; [done|]. intros i j Hj. rewrite decide_False by lia. done.
    - rewrite seq_S, foldl_app. simpl foldl. destruct IH as [Hok Hget]; [lia|].
      set (m' := foldl _ m (seq lo k)) in *.
      assert (Hfv : f m' (lo + k)%nat = g (lo + k)%nat).
      { apply Hf; [lia|]. intros i j Hj Hij. rewrite Hget, decide_False by lia. done. }
      rewrite Hfv. split; [apply mset_ok; auto with lia|]. intros i j Hj.
      rewrite (mget_mset rows) by (try apply Hok; lia). rewrite Hget by done.
      destruct (decide (i = row /\ j = (lo + k)%nat)) as [[-> ->]|Hne].
      + rewrite decide_True by lia. done.
      + destruct (decide (i = row /\ (lo <= j < lo + k)%nat)); [rewrite decide_True by lia; done|].
        rewrite decide_False by lia. done. }
  destruct (H (n - lo)%nat ltac:(lia)) as [Hok Hget]. split; [done|].
  intros i j Hj. rewrite Hget by done.
  destruct (decide (i = row /\ (lo <= j)%nat)); [rewrite decide_True by lia|rewrite decide_False by lia]; done.
Qed.

Lemma swap_rows_spec rows n m a b :
  mat_ok rows n m -> (a < rows)%nat -> (b < rows)%nat -> a <> b ->
  mat_ok rows n (swap_rows n m a b) /\
  forall i j, (j < n)%nat -> mget n (swap_rows n m a b) i j =
    mget n m (if decide (i = a) then b else if decide (i = b) then a else i) j.
Proof.
  intros Hm Ha Hb Hab. unfold swap_rows.
  assert (H : forall k, (k <= n)%nat ->
    let m' := foldl (fun m r => let tmp := mget n m a r in
      let m := mset n m a r (mget n m b r) in mset n m b r tmp) m (seq 0 k) in
    mat_ok rows n m' /\ forall i j, (j < n)%nat -> mget n m' i j =
      mget n m (if decide (j < k)%nat then
        (if decide (i = a) then b else if decide (i = b) then a else i) else i) j);
    [|destruct (H n ltac:(lia)) as [Hok Hget]; split; [done|]; intros i j Hj;
      rewrite Hget, (decide_True (P := (j < n)%nat)) by done; done].
  induction k as [|k IH]; intros Hk; cbv zeta.
  - split; [done|]. intros i j Hj. by rewrite (decide_False (P := (j < 0)%nat)) by lia.
  - rewrite seq_S, foldl_app. simpl foldl. destruct IH as [Hok Hget]; [lia|].
    set (m' := foldl _ m (seq 0 k)) in *.
    assert (Hok1 : mat_ok rows n (mset n m' a k (mget n m' b k))) by eauto with pfs.
    split; [eauto with pfs|]. intros i j Hj.
    rewrite (mget_mset rows) by (try apply Hok1; lia).
    rewrite (mget_mset rows) by (try apply Hok; lia). rewrite !Hget by lia.
    destruct (decide (j = k)) as [->|Hjk].
    + rewrite (decide_True (P := (k < S k)%nat)), (decide_False (P := (k < k)%nat)) by lia.
      repeat case_decide; destruct_and?; subst; first [done|lia|exfalso; tauto].
    + repeat case_decide; destruct_and?; subst; first [done|lia|exfalso; tauto].
Qed.

Lemma find_pivot_Some n m col from cnt p :
  find_pivot n m col from cnt = Some p -> (from <= p < from + cnt)%nat /\ mget n m p col <> 0.
Proof.
  revert from; induction cnt as [|cnt IH]; intros from H; simpl in H; [done|].
  case_if_in H.
  - injection H as <-. split; [lia|done].
  - apply IH in H. split; [lia|apply H].
Qed.

Lemma find_pivot_None n m col from cnt :
  find_pivot n m col from cnt = None -> forall r, (from <= r < from + cnt)%nat -> mget n m r col = 0.
Proof.
  revert from; induction cnt as [|cnt IH]; intros from H r Hr; simpl in H; [lia|].
  case_if_in H; [done|]. destruct (decide (r = from)) as [->|]; [done|]. apply (IH (S from)); [done|lia].
Qed.

(** ** Row operations *)

(** [m'] is [m] with columns [lo..n) of [row] replaced by [g]. *)
Definition row_changed (n lo row : nat) (g : nat -> Z) (m m' : matrix) : Prop :=
  forall i j, (j < n)%nat ->
    mget n m' i j = if decide (i = row /\ (lo <= j)%nat) then g j else mget n m i j.

Lemma scale_row_spec rows n lo row s m :
  mat_ok rows n m -> (row < rows)%nat -> (lo <= n)%nat -> is_byte s ->
  let m' := row_loop n lo row (fun m r => mget n m row r ⊗ s) m in
  mat_ok rows n m' /\ row_changed n lo row (fun j => mget n m row j ⊗ s) m m'.
Proof.
  intros Hm Hr Hlo Hs. apply row_loop_spec; eauto with pfs.
  intros m' c Hc H. by rewrite H by auto.
Qed.

Lemma add_row_spec rows n lo row col coef m :
  mat_ok rows n m -> (row < rows)%nat -> (lo <= n)%nat -> row <> col -> is_byte coef ->
  let m' := row_loop n lo row (fun m r => mget n m row r ⊕ (mget n m col r ⊗ coef)) m in
  mat_ok rows n m' /\ row_changed n lo row (fun j => mget n m row j ⊕ (mget n m col j ⊗ coef)) m m'.
Proof.
  intros Hm Hr Hlo Hne Hc. apply row_loop_spec; eauto with pfs.
  intros m' c Hcn H. by rewrite !H by auto.
Qed.

(** Columns below [k] are those of the identity. *)
Definition shape (rows n k : nat) (m : matrix) : Prop :=
  forall r c, (r < rows)%nat -> (c < k)%nat -> (c < n)%nat -> mget n m r c = delta r c.

Lemma swap_shape rows n col pivot m :
  mat_ok rows n m -> shape rows n col m -> (col < pivot < rows)%nat ->
  shape rows n col (swap_rows n m col pivot).
Proof.
  intros Hm Hs Hp r c Hr Hc Hcn.
  destruct (swap_rows_spec rows n m col pivot) as [_ ->]; try (done || lia).
  repeat case_decide; subst; rewrite Hs by lia; (done || rewrite !delta_ne by lia; done).
Qed.

Lemma scale_shape rows n lo col s m m' :
  (lo <= col < n)%nat -> (col < rows)%nat -> shape rows n col m ->
  row_changed n lo col (fun j => mget n m col j ⊗ s) m m' -> mget n m col col ⊗ s = 1 ->
  shape rows n col m' /\ mget n m' col col = 1.
Proof.
  intros Hlo Hcr Hs Hch H1. split.
  - intros r c Hr Hc Hcn. rewrite Hch by done. case_decide as H; [|by apply Hs].
    destruct H as [-> _]. rewrite Hs, delta_ne by lia. apply gf_mul_0_l.
  - rewrite Hch by lia. by rewrite decide_True by lia.
Qed.

Lemma add_shape rows n lo col row m m' :
  (lo <= col < n)%nat -> (row < rows)%nat -> (col < rows)%nat -> row <> col -> shape rows n col m -> mat_ok rows n m ->
  mget n m col col = 1 ->
  row_changed n lo row (fun j => mget n m row j ⊕ (mget n m col j ⊗ mget n m row col)) m m' ->
  shape rows n col m' /\ mget n m' col col = 1 /\ mget n m' row col = 0 /\
  forall i, i <> row -> mget n m' i col = mget n m i col.
Proof.
  intros Hlo Hrow Hcr Hne Hs Hok H1 Hch. split_and!.
  - intros r c Hr Hc Hcn. rewrite Hch by done. case_decide as H; [|by apply Hs].
    destruct H as [-> _]. rewrite (Hs col c), (delta_ne col) by lia.
    rewrite gf_mul_0_l, Z.lxor_0_r. by apply Hs.
  - rewrite Hch by lia. by rewrite decide_False by lia.
  - rewrite Hch, decide_True by lia. rewrite H1, gf_mul_1_l by eauto with pfs. apply Z.lxor_nilpotent.
  - intros i Hi. rewrite Hch by lia. by rewrite decide_False by lia.
Qed.

Lemma shape_next rows n col m :
  shape rows n col m -> mget n m col col = 1 ->
  (forall i, (i < rows)%nat -> i <> col -> mget n m i col = 0) -> shape rows n (S col) m.
Proof.
  intros Hs H1 H0 r c Hr Hc Hcn. destruct (decide (c = col)) as [->|].
  - destruct (decide (r = col)) as [->|]; [by rewrite delta_eq|].
    rewrite delta_ne by done. by apply H0.
  - apply Hs; lia.
Qed.

Lemma gf_inv_nonzero a : is_byte a -> a <> 0 -> is_byte (gf_inv GF a) /\ gf_inv GF a <> 0 /\ a ⊗ gf_inv GF a = 1.
Proof. intros Ha Hn. apply gf_inv_spec. unfold is_byte in Ha. lia. Qed.

(** *** [vandermonde_to_systematic] *)

Lemma systematic_elim rows n col m :
  (col < n)%nat -> (col < rows)%nat -> mat_ok rows n m -> shape rows n col m -> mget n m col col = 1 ->
  let m' := foldl (fun m row =>
        if (row =? col)%nat || (mget n m row col =? 0) then m else
        let coef := mget n m row col in
        row_loop n col row (fun m r => mget n m row r ⊕ (mget n m col r ⊗ coef)) m)
        m (seq 0 rows) in
  mat_ok rows n m' /\ shape rows n (S col) m'.
Proof.
  intros Hcn Hcr Hm Hs H1.
  assert (H : forall k, (k <= rows)%nat ->
    let m' := foldl (fun m row =>
        if (row =? col)%nat || (mget n m row col =? 0) then m else
        let coef := mget n m row col in
        row_loop n col row (fun m r => mget n m row r ⊕ (mget n m col r ⊗ coef)) m)
        m (seq 0 k) in
    mat_ok rows n m' /\ shape rows n col m' /\ mget n m' col col = 1 /\
    forall i, (i < k)%nat -> i <> col -> mget n m' i col = 0).
  { induction k as [|k IH]; intros Hk; cbv zeta; [split_and!; auto; lia|].
    rewrite seq_S, foldl_app. simpl foldl. destruct IH as (Hok & Hsh & Hd & Hz); [lia|].
    set (m' := foldl _ m (seq 0 k)) in *.
    destruct (Nat.eqb_spec k col) as [->|Hkc]; simpl.
    - split_and!; auto. intros i Hi Hic. apply Hz; [lia|done].
    - destruct (Z.eqb_spec (mget n m' k col) 0) as [E0|E0].
      + split_and!; auto. intros i Hi Hic. destruct (decide (i = k)) as [->|]; [done|]. apply Hz; [lia|done].
      + destruct (add_row_spec rows n col k col (mget n m' k col) m') as [Hok' Hch]; eauto with pfs lia.
        destruct (add_shape rows n col col k m' _ ltac:(lia) ltac:(lia) Hcr Hkc Hsh Hok Hd Hch) as (Hs' & Hd' & Hz' & Ho).
        split_and!; auto. intros i Hi Hic. destruct (decide (i = k)) as [->|]; [done|].
        rewrite Ho by done. apply Hz; [lia|done]. }
  destruct (H rows ltac:(lia)) as (Hok & Hsh & Hd & Hz). split; [done|]. by apply shape_next.
Qed.

Lemma systematic_col_shape total data m col m' :
  (col < data <= total)%nat -> mat_ok total data m -> shape total data col m ->
  systematic_col GF total data m col = Some m' ->
  mat_ok total data m' /\ shape total data (S col) m'.
Proof.
  intros Hc Hm Hs H. unfold systematic_col in H.
  assert (Hx : exists m1, mat_ok total data m1 /\ shape total data col m1 /\ mget data m1 col col <> 0 /\
    (let inv := gf_inv GF (mget data m1 col col) in
     let m := row_loop data col col (fun m r => mget data m col r ⊗ inv) m1 in
     Some (foldl (fun m row =>
        if (row =? col)%nat || (mget data m row col =? 0) then m else
        let coef := mget data m row col in
        row_loop data col row (fun m r => mget data m row r ⊕ (mget data m col r ⊗ coef)) m)
        m (seq 0 total))) = Some m').
  { destruct (Z.eqb_spec (mget data m col col) 0) as [E|E]; [|by exists m].
    destruct (find_pivot data m col (S col) (total - S col)) as [p|] eqn:Ep; [|done].
    apply find_pivot_Some in Ep as [Hp Hnz].
    exists (swap_rows data m col p).
    destruct (swap_rows_spec total data m col p) as [Hok Hg]; try (done || lia).
    split_and!; auto; [apply swap_shape; (done || lia)|].
    rewrite Hg by lia. by rewrite decide_True. }
  clear H. destruct Hx as (m1 & Hok & Hsh & Hnz & H). injection H as <-.
  destruct (gf_inv_nonzero (mget data m1 col col)) as (Hib & _ & Hi1); eauto with pfs.
  destruct (scale_row_spec total data col col _ m1 Hok ltac:(lia) ltac:(lia) Hib) as [Hok2 Hch].
  destruct (scale_shape total data col col _ m1 _ ltac:(lia) ltac:(lia) Hsh Hch Hi1) as [Hsh2 Hd].
  apply systematic_elim; auto with lia.
Qed.

(** A [foldl] of a step that may fail. *)
Lemma foldl_option_inv {S} (step : S -> nat -> option S) (P : nat -> S -> Prop) n s s' :
  P 0%nat s ->
  (forall k a b, (k < n)%nat -> P k a -> step a k = Some b -> P (Datatypes.S k) b) ->
  foldl (fun os k => match os with None => None | Some s => step s k end) (Some s) (seq 0 n) = Some s' ->
  P n s'.
Proof.
  intros H0 Hstep. revert s'; induction n as [|n IH]; intros s' H; [by injection H as <-|].
  rewrite seq_S, foldl_app in H. simpl in H.
  destruct (foldl _ (Some s) (seq 0 n)) as [a|] eqn:E; [|done].
  apply (Hstep n a); [lia| |exact H]. apply IH; [|reflexivity].
  intros k x y Hk. apply Hstep. lia.
Qed.

Lemma systematic_shape total data m m' :
  (data <= total)%nat -> mat_ok total data m ->
  vandermonde_to_systematic GF m total data = inr m' ->
  mat_ok total data m' /\ shape total data data m'.
Proof.
  intros Hd Hm. unfold vandermonde_to_systematic.
  destruct (foldl _ (Some m) (seq 0 data)) as [a|] eqn:E; [|done]. intros [= <-].
  apply (foldl_option_inv (systematic_col GF total data)
    (fun k m => mat_ok total data m /\ shape total data k m) data m); [split; [done|]| |exact E].
  - intros r c Hr Hc. lia.
  - intros k x y Hk [Hx Hsx] Hy. eapply systematic_col_shape; eauto with lia.
Qed.

(** *** [powerfs_ec_init] *)

Lemma gf_pow_byte a n : is_byte (gf_pow GF a n).
Proof.
  unfold gf_pow. case_if; auto with pfs. case_if; auto with pfs.
  fold (expm (u32 (log_at GF a * n))). pose proof (expm_byte (u32 (log_at GF a * n))).
  unfold is_byte; lia.
Qed.
#[export] Hint Resolve gf_pow_byte : pfs.

Lemma vandermonde_spec rows cols m :
  mat_ok rows cols m ->
  mat_ok rows cols (vandermonde_matrix GF m rows cols) /\
  forall r c, (r < rows)%nat -> (c < cols)%nat ->
    mget cols (vandermonde_matrix GF m rows cols) r c = gf_pow GF (u8 (Z.of_nat c)) (Z.of_nat r).
Proof.
  intros Hm. unfold vandermonde_matrix.
  assert (H : forall k, (k <= rows)%nat ->
    let m' := foldl (fun m r => foldl (fun m c =>
        mset cols m r c (gf_pow GF (u8 (Z.of_nat c)) (Z.of_nat r))) m (seq 0 cols)) m (seq 0 k) in
    mat_ok rows cols m' /\ forall r c, (r < k)%nat -> (c < cols)%nat ->
      mget cols m' r c = gf_pow GF (u8 (Z.of_nat c)) (Z.of_nat r));
    [|apply (H rows); lia].
  induction k as [|k IH]; intros Hk; cbv zeta; [split; [done|lia]|].
  rewrite seq_S, foldl_app. simpl foldl. destruct IH as [Hok Hg]; [lia|].
  set (m' := foldl _ m (seq 0 k)) in *.
  destruct (row_loop_spec rows cols 0 k (fun _ c => gf_pow GF (u8 (Z.of_nat c)) (Z.of_nat k))
    (fun c => gf_pow GF (u8 (Z.of_nat c)) (Z.of_nat k)) m') as [Hok' Hg']; auto with pfs lia.
  unfold row_loop in Hok', Hg'. rewrite Nat.sub_0_r in Hok', Hg'. split; [done|].
  intros r c Hr Hc. rewrite Hg' by done. case_decide as H; [by destruct H as [-> _]|].
  apply Hg; lia.
Qed.

Lemma foldl_option_None {S} (step : S -> nat -> option S) l :
  foldl (fun os k => match os with None => None | Some s => step s k end) None l = None.
Proof. by induction l. Qed.

(** No pivot in column 0. *)
Lemma systematic_zero_column gf total data m :
  (0 < data)%nat -> (0 < total)%nat -> (forall r, (r < total)%nat -> mget data m r 0 = 0) ->
  vandermonde_to_systematic gf m total data = inl (- EINVAL).
Proof.
  intros Hd Ht Hz. unfold vandermonde_to_systematic.
  destruct data as [|data]; [lia|]. simpl seq. simpl foldl.
  assert (E : systematic_col gf total (S data) m 0 = None).
  { unfold systematic_col. rewrite (Hz 0%nat) by lia. simpl Z.eqb. cbv iota.
    destruct (find_pivot _ _ _ _ _) as [p|] eqn:Ep; [|done].
    apply find_pivot_Some in Ep as [Hp Hn]. rewrite Hz in Hn by lia. done. }
  rewrite E, foldl_option_None. done.
Qed.

Lemma zeros_ok rows n : mat_ok rows n (replicate (rows * n) 0).
Proof. split; [by rewrite length_replicate|]. apply Forall_replicate. auto with pfs. Qed.
#[export] Hint Resolve zeros_ok : pfs.

(** ** Elimination invariant of [gf_matrix_invert] *)

(** [id] times the original matrix is the current one. *)
Definition tracks (n : nat) (m0 m id : matrix) : Prop :=
  forall r c, (r < n)%nat -> (c < n)%nat ->
    gsum n (fun j => mget n id r j ⊗ mget n m0 j c) = mget n m r c.

Definition in_kernel (n : nat) (m : matrix) (v : nat -> Z) : Prop :=
  forall r, (r < n)%nat -> gsum n (fun c => mget n m r c ⊗ v c) = 0.

(** Row operations lose no equation. *)
Definition same_kernel (n : nat) (m0 m : matrix) : Prop :=
  forall v, bytes_fun v -> in_kernel n m v -> in_kernel n m0 v.

Definition elim_inv (n : nat) (m0 : matrix) (s : matrix * matrix) : Prop :=
  mat_ok n n s.1 /\ mat_ok n n s.2 /\ tracks n m0 s.1 s.2 /\ same_kernel n m0 s.1.

Section row_ops.
Context (n : nat) (m0 : matrix) (Hm0 : mat_ok n n m0).

Lemma swap_inv m id a b :
  elim_inv n m0 (m, id) -> (a < n)%nat -> (b < n)%nat -> a <> b ->
  elim_inv n m0 (swap_rows n m a b, swap_rows n id a b).
Proof.
  intros (Hm & Hid & Ht & Hk) Ha Hb Hab; cbn [fst snd] in *.
  destruct (swap_rows_spec n n m a b) as [Hm' Hg]; auto.
  destruct (swap_rows_spec n n id a b) as [Hid' Hgi]; auto.
  split_and!; cbn [fst snd]; auto.
  - intros r c Hr Hc. rewrite Hg by done.
    rewrite (gsum_ext n _ (fun j => mget n id (if decide (r = a) then b else if decide (r = b) then a else r) j ⊗ mget n m0 j c)).
    + apply Ht; repeat case_decide; lia.
    + intros i Hi. by rewrite Hgi.
  - intros v Hv Hker. apply Hk; [done|]. intros r Hr.
    rewrite (gsum_ext n _ (fun c => mget n (swap_rows n m a b)
      (if decide (r = a) then b else if decide (r = b) then a else r) c ⊗ v c)).
    + apply Hker. repeat case_decide; lia.
    + intros i Hi. rewrite Hg by done.
      replace (if decide _ then b else _) with r; [reflexivity|]. repeat case_decide; congruence.
Qed.

Lemma gsum_scale f s k :
  (forall i, (i < k)%nat -> is_byte (f i)) -> is_byte s -> gsum k (fun i => f i ⊗ s) = gsum k f ⊗ s.
Proof. intros. by rewrite gsum_mul_r. Qed.

Lemma mul_swap a b c : is_byte a -> is_byte b -> is_byte c -> (a ⊗ b) ⊗ c = (a ⊗ c) ⊗ b.
Proof. intros. rewrite <- !gf_mul_assoc by done. by rewrite (gf_mul_comm b c). Qed.

Lemma scale_inv m id m' id' row s :
  elim_inv n m0 (m, id) -> (row < n)%nat -> is_byte s -> s <> 0 ->
  mat_ok n n m' -> mat_ok n n id' ->
  row_changed n 0 row (fun j => mget n m row j ⊗ s) m m' ->
  row_changed n 0 row (fun j => mget n id row j ⊗ s) id id' ->
  elim_inv n m0 (m', id').
Proof.
  intros (Hm & Hid & Ht & Hk) Hr Hs Hs0 Hm' Hid' Hg Hgi; cbn [fst snd] in *.
  split_and!; cbn [fst snd]; auto.
  - intros r c Hrn Hc. rewrite Hg by done. destruct (decide (r = row)) as [->|Hne].
    + rewrite decide_True by lia. rewrite <- Ht by done.
      rewrite <- gsum_scale by (eauto with pfs). apply gsum_ext. intros j Hj.
      rewrite Hgi, decide_True by lia. apply mul_swap; eauto with pfs.
    + rewrite decide_False by lia. rewrite <- Ht by done. apply gsum_ext. intros j Hj.
      by rewrite Hgi, decide_False by lia.
  - intros v Hv Hker. apply Hk; [done|]. intros r Hrn. specialize (Hker r Hrn).
    destruct (decide (r = row)) as [->|Hne].
    + rewrite (gsum_ext n _ (fun c => (mget n m row c ⊗ v c) ⊗ s)) in Hker.
      * rewrite gsum_scale in Hker by eauto with pfs.
        apply gf_mul_eq_0 in Hker as [Hz|]; [done|done| |done]. apply gsum_byte. eauto with pfs.
      * intros c Hc. rewrite Hg, decide_True by lia. apply mul_swap; eauto with pfs.
    + rewrite (gsum_ext n _ (fun c => mget n m r c ⊗ v c)) in Hker; [done|].
      intros c Hc. by rewrite Hg, decide_False by lia.
Qed.

Lemma add_inv m id m' id' row col coef :
  elim_inv n m0 (m, id) -> (row < n)%nat -> (col < n)%nat -> row <> col -> is_byte coef ->
  mat_ok n n m' -> mat_ok n n id' ->
  row_changed n 0 row (fun j => mget n m row j ⊕ (mget n m col j ⊗ coef)) m m' ->
  row_changed n 0 row (fun j => mget n id row j ⊕ (mget n id col j ⊗ coef)) id id' ->
  elim_inv n m0 (m', id').
Proof.
  intros (Hm & Hid & Ht & Hk) Hr Hcol Hne Hs Hm' Hid' Hg Hgi; cbn [fst snd] in *.
  split_and!; cbn [fst snd]; auto.
  - intros r c Hrn Hc. rewrite Hg by done. destruct (decide (r = row)) as [->|Hner].
    + rewrite decide_True by lia. rewrite <- !Ht by done.
      rewrite <- gsum_scale by (eauto with pfs). rewrite <- gsum_lxor. apply gsum_ext. intros j Hj.
      rewrite Hgi, decide_True by lia. rewrite gf_mul_lxor_l by eauto with pfs.
      rewrite (mul_swap (mget n _ col _)) by eauto with pfs. reflexivity.
    + rewrite decide_False by lia. rewrite <- Ht by done. apply gsum_ext. intros j Hj.
      by rewrite Hgi, decide_False by lia.
  - intros v Hv Hker. apply Hk; [done|].
    assert (Hother : forall r, (r < n)%nat -> r <> row -> gsum n (fun c => mget n m r c ⊗ v c) = 0).
    { intros r Hrn Hrr. rewrite <- (Hker r Hrn). apply gsum_ext. intros c Hc.
      by rewrite Hg, decide_False by lia. }
    intros r Hrn. destruct (decide (r = row)) as [->|]; [|by apply Hother].
    specialize (Hker row Hr).
    rewrite (gsum_ext n _ (fun c => (mget n m row c ⊗ v c) ⊕ ((mget n m col c ⊗ v c) ⊗ coef))) in Hker.
    + rewrite gsum_lxor, gsum_scale in Hker by eauto with pfs.
      rewrite (Hother col), gf_mul_0_l, Z.lxor_0_r in Hker by (done || congruence). done.
    + intros c Hc. rewrite Hg, decide_True by lia. rewrite gf_mul_lxor_l by eauto with pfs.
      rewrite (mul_swap (mget n _ col _)) by eauto with pfs. reflexivity.
Qed.
End row_ops.

(** *** One column of the inversion *)

Lemma foldl_pair {A B C} (f : A -> C -> A) (g : B -> C -> B) a b l :
  foldl (fun '(a, b) x => (f a x, g b x)) (a, b) l = (foldl f a l, foldl g b l).
Proof. revert a b; induction l as [|x l IH]; intros a b; simpl; auto. Qed.

Definition invert_elim (n col : nat) (s : matrix * matrix) (row : nat) : matrix * matrix :=
  let '(m, id) := s in
  if (row =? col)%nat || (mget n m row col =? 0) then (m, id) else
  let coef := mget n m row col in
  (row_loop n 0 row (fun m r => mget n m row r ⊕ (mget n m col r ⊗ coef)) m,
   row_loop n 0 row (fun m r => mget n m row r ⊕ (mget n m col r ⊗ coef)) id).

Lemma foldl_ext_fun {A B} (f g : A -> B -> A) a l :
  (forall a x, f a x = g a x) -> foldl f a l = foldl g a l.
Proof. intros H. revert a; induction l as [|x l IH]; intros a; simpl; [done|]. by rewrite H, IH. Qed.

(** The paired loops are two independent row loops. *)
Lemma invert_col_unfold n m id col :
  invert_col GF n (m, id) col =
  match (if mget n m col col =? 0 then
           match find_pivot n m col (S col) (n - S col) with
           | None => None
           | Some pivot => Some (swap_rows n m col pivot, swap_rows n id col pivot)
           end
         else Some (m, id)) with
  | None => None
  | Some (m, id) =>
      let inv := gf_inv GF (mget n m col col) in
      Some (foldl (invert_elim n col)
             (row_loop n 0 col (fun m r => mget n m col r ⊗ inv) m,
              row_loop n 0 col (fun m r => mget n m col r ⊗ inv) id) (seq 0 n))
  end.
Proof.
  unfold invert_col.
  destruct (if mget n m col col =? 0 then _ else Some (m, id)) as [[m1 id1]|]; [|done]. cbv zeta.
  rewrite (foldl_pair (fun m r => mset n m col r (mget n m col r ⊗ gf_inv GF (mget n m1 col col)))
    (fun id r => mset n id col r (mget n id col r ⊗ gf_inv GF (mget n m1 col col)))).
  f_equal. unfold row_loop. rewrite Nat.sub_0_r. apply foldl_ext_fun.
  intros [a b] row. unfold invert_elim. case_if; [done|]. cbv zeta.
  rewrite (foldl_pair (fun x r => mset n x row r (mget n x row r ⊕ (mget n x col r ⊗ mget n a row col)))
    (fun x r => mset n x row r (mget n x row r ⊕ (mget n x col r ⊗ mget n a row col)))).
  unfold row_loop. by rewrite Nat.sub_0_r.
Qed.

Lemma invert_elim_loop n m0 col s :
  mat_ok n n m0 -> (col < n)%nat -> elim_inv n m0 s -> shape n n col s.1 -> mget n s.1 col col = 1 ->
  let s' := foldl (invert_elim n col) s (seq 0 n) in
  elim_inv n m0 s' /\ shape n n (S col) s'.1.
Proof.
  intros Hm0 Hc Hinv Hs H1.
  assert (H : forall k, (k <= n)%nat ->
    let s' := foldl (invert_elim n col) s (seq 0 k) in
    elim_inv n m0 s' /\ shape n n col s'.1 /\ mget n s'.1 col col = 1 /\
    forall i, (i < k)%nat -> i <> col -> mget n s'.1 i col = 0).
  { induction k as [|k IH]; intros Hk; cbv zeta; [split_and!; auto; lia|].
    rewrite seq_S, foldl_app. simpl foldl. destruct IH as (Hok & Hsh & Hd & Hz); [lia|].
    destruct (foldl (invert_elim n col) s (seq 0 k)) as [m id]. cbn [fst] in *.
    unfold invert_elim. destruct (Nat.eqb_spec k col) as [->|Hkc]; simpl.
    - split_and!; auto. intros i Hi Hic. apply Hz; [lia|done].
    - pose proof Hok as (Hm & Hid & _); cbn [fst snd] in Hm, Hid.
      destruct (Z.eqb_spec (mget n m k col) 0) as [E0|E0].
      + split_and!; auto. intros i Hi Hic. destruct (decide (i = k)) as [->|]; [done|]. apply Hz; [lia|done].
      + assert (Hcb : is_byte (mget n m k col)) by eauto with pfs.
        destruct (add_row_spec n n 0 k col _ m Hm ltac:(lia) ltac:(lia) Hkc Hcb) as [Hok' Hch].
        destruct (add_row_spec n n 0 k col _ id Hid ltac:(lia) ltac:(lia) Hkc Hcb) as [Hoki Hchi].
        destruct (add_shape n n 0 col k m _ ltac:(lia) ltac:(lia) Hc Hkc Hsh Hm Hd Hch) as (Hs' & Hd' & Hz' & Ho).
        split_and!; auto.
        * eapply (add_inv n m0 Hm0 m id _ _ k col); eauto with lia.
        * intros i Hi Hic. cbn [fst]. destruct (decide (i = k)) as [->|]; [done|].
          rewrite Ho by done. apply Hz; [lia|done]. }
  destruct (H n ltac:(lia)) as (Hok & Hsh & Hd & Hz). split; [done|]. by apply shape_next.
Qed.

(** Normalising the pivot row and clearing the column. *)
Lemma invert_reduce n m0 col m id :
  mat_ok n n m0 -> (col < n)%nat -> elim_inv n m0 (m, id) -> shape n n col m -> mget n m col col <> 0 ->
  let inv := gf_inv GF (mget n m col col) in
  let s' := foldl (invert_elim n col)
             (row_loop n 0 col (fun m r => mget n m col r ⊗ inv) m,
              row_loop n 0 col (fun m r => mget n m col r ⊗ inv) id) (seq 0 n) in
  elim_inv n m0 s' /\ shape n n (S col) s'.1.
Proof.
  intros Hm0 Hc Hinv Hs Hnz inv. pose proof Hinv as (Hm & Hid & _); cbn [fst snd] in Hm, Hid.
  destruct (gf_inv_nonzero (mget n m col col)) as (Hib & Hi0 & Hi1); eauto with pfs. fold inv in Hib, Hi0, Hi1.
  destruct (scale_row_spec n n 0 col inv m Hm Hc ltac:(lia) Hib) as [Hokm Hchm].
  destruct (scale_row_spec n n 0 col inv id Hid Hc ltac:(lia) Hib) as [Hoki Hchi].
  destruct (scale_shape n n 0 col inv m _ ltac:(lia) Hc Hs Hchm Hi1) as [Hsh Hd].
  apply invert_elim_loop; auto. eapply (scale_inv n m0 Hm0 m id _ _ col inv); eauto.
Qed.

Lemma invert_col_step n m0 col s s' :
  mat_ok n n m0 -> (col < n)%nat -> elim_inv n m0 s -> shape n n col s.1 ->
  invert_col GF n s col = Some s' -> elim_inv n m0 s' /\ shape n n (S col) s'.1.
Proof.
  intros Hm0 Hc Hinv Hs. destruct s as [m id]. pose proof Hinv as (Hm & Hid & _); cbn [fst snd] in *.
  rewrite invert_col_unfold. destruct (Z.eqb_spec (mget n m col col) 0) as [E|E].
  - destruct (find_pivot n m col (S col) (n - S col)) as [p|] eqn:Ep; [|done].
    apply find_pivot_Some in Ep as [Hp Hnz]. intros [= <-].
    apply invert_reduce; auto.
    + apply swap_inv; auto with lia.
    + apply swap_shape; auto with lia.
    + destruct (swap_rows_spec n n m col p) as [_ Hg]; auto with lia.
      rewrite Hg by lia. by rewrite decide_True.
  - intros [= <-]. apply invert_reduce; auto.
Qed.

(** A failed column exhibits a non-trivial kernel vector. *)
Lemma invert_col_fail n m0 col s :
  (col < n)%nat -> elim_inv n m0 s -> shape n n col s.1 -> invert_col GF n s col = None ->
  exists v, bytes_fun v /\ in_kernel n m0 v /\ v col = 1.
Proof.
  intros Hc (Hm & _ & _ & Hk) Hs. destruct s as [m id]; cbn [fst snd] in *.
  rewrite invert_col_unfold. destruct (Z.eqb_spec (mget n m col col) 0) as [E|E]; [|done].
  destruct (find_pivot n m col (S col) (n - S col)) as [p|] eqn:Ep; [done|]. intros _.
  pose proof (find_pivot_None _ _ _ _ _ Ep) as Hz.
  set (w := fun c => if decide (c < col)%nat then mget n m c col else 0).
  set (v := fun c => if decide (c = col) then 1 else w c).
  assert (Hw : bytes_fun w) by (intros c; unfold w; case_decide; eauto with pfs).
  assert (Hv : bytes_fun v) by (intros c; unfold v; case_decide; eauto with pfs).
  exists v. split_and!; [done| |unfold v; by rewrite decide_True].
  apply Hk; [done|]. intros r Hr.
  rewrite (gsum_ext n _ (fun c => (delta col c ⊗ mget n m r col) ⊕ (delta r c ⊗ w c))).
  - rewrite gsum_lxor, (gsum_delta n col (fun _ => mget n m r col)), gsum_delta by eauto with pfs.
    unfold w. case_decide; [apply Z.lxor_nilpotent|]. rewrite Z.lxor_0_r.
    destruct (decide (r = col)) as [->|]; [done|]. apply Hz. lia.
  - intros c Hcn. unfold v. destruct (decide (c = col)) as [->|Hne].
    + rewrite delta_eq, gf_mul_1_l, gf_mul_1_r by eauto with pfs. unfold w.
      by rewrite decide_False, gf_mul_0_r, Z.lxor_0_r by lia.
    + rewrite delta_ne, gf_mul_0_l, Z.lxor_0_l by congruence. unfold w. case_decide.
      * by rewrite Hs by lia.
      * by rewrite !gf_mul_0_r.
Qed.

Lemma identity_matrix_spec n :
  mat_ok n n (identity_matrix n) /\
  forall r c, (r < n)%nat -> (c < n)%nat -> mget n (identity_matrix n) r c = delta r c.
Proof.
  unfold identity_matrix.
  assert (Hz : forall r c, mget n (replicate (n * n) 0) r c = 0).
  { intros r c. unfold mget. destruct (_ !! _) eqn:E; [|done]. by apply lookup_replicate in E as [-> _]. }
  assert (H : forall k, (k <= n)%nat ->
    let m := foldl (fun m r => mset n m r r 1) (replicate (n * n) 0) (seq 0 k) in
    mat_ok n n m /\ forall r c, (r < n)%nat -> (c < n)%nat ->
      mget n m r c = if decide (r = c /\ (r < k)%nat) then 1 else 0).
  { induction k as [|k IH]; intros Hk; cbv zeta.
    - split; [auto with pfs|]. intros r c Hr Hc. by rewrite decide_False by lia.
    - rewrite seq_S, foldl_app. simpl foldl. destruct IH as [Hok Hg]; [lia|].
      set (m := foldl _ _ (seq 0 k)) in *. split; [auto with pfs|]. intros r c Hr Hc.
      rewrite (mget_mset n) by (try apply Hok; lia). rewrite Hg by done.
      repeat case_decide; lia. }
  destruct (H n ltac:(lia)) as [Hok Hg]. split; [done|]. intros r c Hr Hc. rewrite Hg by done.
  unfold delta. repeat case_decide; lia.
Qed.

(** *** Inversion succeeds exactly on independent rows *)

Definition independent (n : nat) (m : matrix) : Prop :=
  forall v, bytes_fun v -> in_kernel n m v -> forall c, (c < n)%nat -> v c = 0.

Definition left_inverse (n : nat) (inv m : matrix) : Prop :=
  mat_ok n n inv /\
  forall r c, (r < n)%nat -> (c < n)%nat ->
    gsum n (fun j => mget n inv r j ⊗ mget n m j c) = delta r c.

Lemma elim_inv_init n m : mat_ok n n m -> elim_inv n m (m, identity_matrix n).
Proof.
  intros Hm. destruct (identity_matrix_spec n) as [Hid Hg].
  split_and!; cbn [fst snd]; auto; [|by intros v].
  intros r c Hr Hc. rewrite (gsum_ext n _ (fun j => delta r j ⊗ mget n m j c)).
  - apply (gsum_delta n r (fun j => mget n m j c)); eauto with pfs.
  - intros j Hj. by rewrite Hg.
Qed.

(** A failing [foldl] fails at some step reached with the invariant. *)
Lemma foldl_option_fail {S} (step : S -> nat -> option S) (P : nat -> S -> Prop) n s :
  P 0%nat s ->
  (forall k a b, (k < n)%nat -> P k a -> step a k = Some b -> P (Datatypes.S k) b) ->
  foldl (fun os k => match os with None => None | Some s => step s k end) (Some s) (seq 0 n) = None ->
  exists k a, (k < n)%nat /\ P k a /\ step a k = None.
Proof.
  intros H0 Hstep. induction n as [|n IH]; intros H; [done|].
  rewrite seq_S, foldl_app in H. simpl in H.
  destruct (foldl _ (Some s) (seq 0 n)) as [a|] eqn:E.
  - exists n, a. split_and!; [lia| |done].
    apply (foldl_option_inv step P n s); [done| |done]. intros k x y Hk. apply Hstep. lia.
  - destruct IH as (k & a & Hk & Ha & Hn); [|done|].
    { intros k x y Hk. apply Hstep. lia. }
    exists k, a. split_and!; auto.
Qed.

Lemma gf_matrix_invert_spec alloc m n :
  mat_ok n n m ->
  match gf_matrix_invert alloc GF m n with
  | inr inv => left_inverse n inv m
  | inl ret => ret = - ENOMEM /\ alloc A_identity = false \/
      ret = - EINVAL /\ ~ independent n m
  end.
Proof.
  intros Hm. unfold gf_matrix_invert. destruct (alloc A_identity) eqn:Ea; simpl; [|by left].
  pose (P := fun k s => elim_inv n m s /\ shape n n k s.1).
  assert (HP0 : P 0%nat (m, identity_matrix n)).
  { split; [by apply elim_inv_init|]. intros r c Hr Hc. lia. }
  assert (Hstep : forall k a b, (k < n)%nat -> P k a -> invert_col GF n a k = Some b -> P (S k) b).
  { intros k a b Hk [Hinv Hs] H. by apply (invert_col_step n m k a b). }
  destruct (foldl _ (Some (m, identity_matrix n)) (seq 0 n)) as [[m' id]|] eqn:E.
  - destruct (foldl_option_inv (invert_col GF n) P n _ _ HP0 Hstep E) as [(_ & Hid & Ht & _) Hs].
    cbn [fst snd] in *. split; [done|]. intros r c Hr Hc. rewrite Ht by done. by apply Hs.
  - right. split; [done|]. intros Hind.
    destruct (foldl_option_fail (invert_col GF n) P n _ HP0 Hstep E) as (k & a & Hk & [Hinv Hs] & Hn).
    destruct (invert_col_fail n m k a Hk Hinv Hs Hn) as (v & Hv & Hker & H1).
    pose proof (Hind v Hv Hker k Hk). lia.
Qed.

(** ** Accumulation *)

Lemma xor_mul_lookup dst src coef k :
  xor_mul GF dst src coef !! k =
    (fun x => x ⊕ (default 0 (src !! k) ⊗ coef)) <$> dst !! k.
Proof. unfold xor_mul. by rewrite list_lookup_imap. Qed.

Lemma length_xor_mul dst src coef : length (xor_mul GF dst src coef) = length dst.
Proof. unfold xor_mul. by rewrite length_imap. Qed.

(** Byte [k] of a shard, 0 when the pointer is NULL. *)
Definition byte_of_shard (s : option buffer) (k : nat) : Z := default 0 (default [] s !! k).

Lemma accumulate_spec size n coef src :
  length (accumulate GF size n coef src) = size /\
  forall k, (k < size)%nat ->
    accumulate GF size n coef src !! k =
      Some (gsum n (fun i => byte_of_shard (src i) k ⊗ coef i)).
Proof.
  unfold accumulate. induction n as [|n IH].
  - cbn [seq foldl gsum]. split; [by rewrite length_replicate|]. intros k Hk. by apply lookup_replicate_2.
  - rewrite seq_S, foldl_app. cbn [foldl]. destruct IH as [Hl Hg]. set (acc := foldl _ _ (seq 0 n)) in *.
    assert (Hskip : forall k, (k < size)%nat -> byte_of_shard (src n) k ⊗ coef n = 0 ->
      acc !! k = Some (gsum n (fun i => byte_of_shard (src i) k ⊗ coef i) ⊕ (byte_of_shard (src n) k ⊗ coef n))).
    { intros k Hk H0. rewrite H0, Z.lxor_0_r. by apply Hg. }
    cbn [gsum]. change (0 + n)%nat with n. destruct (src n) as [s|] eqn:Es.
    + destruct (Z.eqb_spec (coef n) 0) as [E0|E0].
      * split; [done|]. intros k Hk. apply Hskip; [done|]. rewrite E0. apply gf_mul_0_r.
      * split; [by rewrite length_xor_mul|]. intros k Hk. rewrite xor_mul_lookup, Hg by done. done.
    + split; [done|]. intros k Hk. apply Hskip; [done|]. apply gf_mul_0_l.
Qed.

Lemma accumulate_ext size n coef coef' src src' :
  (forall i, (i < n)%nat -> coef i = coef' i /\ src i = src' i) ->
  accumulate GF size n coef src = accumulate GF size n coef' src'.
Proof.
  intros H. destruct (accumulate_spec size n coef src) as [Hl Hg].
  destruct (accumulate_spec size n coef' src') as [Hl' Hg'].
  apply list_eq_same_length with size; auto. intros k x y Hk Hx Hy.
  rewrite Hg in Hx by done. rewrite Hg' in Hy by done.
  injection Hx as <-. injection Hy as <-. apply gsum_ext. intros i Hi.
  destruct (H i Hi) as [-> ->]. done.
Qed.

#[global] Opaque accumulate GF.

(** ** Codewords *)

Section codec.
Context (c : ec_codec) (size : nat).

Let d : nat := Z.to_nat (data_shards c).
Let t : nat := Z.to_nat (total_shards c).

Definition codec_ok : Prop :=
  codec_gf c = GF /\ 0 < data_shards c /\ 0 < parity_shards c /\
  total_shards c = data_shards c + parity_shards c /\
  mat_ok (Z.to_nat (parity_shards c)) d (enc_matrix c).

(** A full-size buffer of bytes. *)
Definition full_buffer (b : buffer) : Prop := length b = size /\ Forall is_byte b.

Definition parity_of (sh : shard_table) (i : nat) : buffer :=
  accumulate GF size d (mget d (enc_matrix c) (i - d)) (shard_at sh).

(** Every slot is filled, and the parity slots hold the parity of the data. *)
Definition codeword (w : shard_table) : Prop :=
  length w = t /\
  forall i, (i < t)%nat -> exists b, w !! i = Some (Some b) /\ full_buffer b /\
    ((d <= i)%nat -> b = parity_of w i).

(** [sh] agrees with [w] on the [good] slots; the others are NULL or hold a
    buffer of the right size with any content. *)
Definition agrees (w : shard_table) (good : nat -> Prop) (sh : shard_table) : Prop :=
  length sh = t /\
  forall i, (i < t)%nat ->
    (good i -> sh !! i = w !! i) /\
    (sh !! i = Some None \/ exists b, sh !! i = Some (Some b) /\ length b = size).

Lemma shard_at_lookup sh sh' i : sh !! i = sh' !! i -> shard_at sh i = shard_at sh' i.
Proof. unfold shard_at. by intros ->. Qed.

Lemma overwrite_full old acc : length old = length acc -> overwrite old acc = acc.
Proof. intros H. unfold overwrite. by rewrite drop_ge, app_nil_r by lia. Qed.

Context (Hc : codec_ok).

Lemma dt : (0 < d < t)%nat /\ (t - d = Z.to_nat (parity_shards c))%nat.
Proof. destruct Hc as (_ & H1 & H2 & H3 & _). unfold d, t. lia. Qed.

Lemma codec_gf_eq : codec_gf c = GF.
Proof. exact (proj1 Hc). Qed.

Lemma enc_byte i j : is_byte (mget d (enc_matrix c) i j).
Proof. destruct Hc as (_ & _ & _ & _ & H). by eapply mget_byte. Qed.

Lemma byte_of_shard_byte w i k : codeword w -> is_byte (byte_of_shard (shard_at w i) k).
Proof.
  intros [Hl Hw]. unfold byte_of_shard, shard_at.
  destruct (decide (i < t)%nat) as [Hi|Hi].
  - destruct (Hw i Hi) as (b & -> & [_ Hb] & _). simpl.
    destruct (b !! k) eqn:E; simpl; [|unfold is_byte; lia]. by eapply Forall_lookup_1 in Hb.
  - rewrite (lookup_ge_None_2 w i) by lia. simpl. unfold is_byte; lia.
Qed.

(** *** Encoding produces a codeword *)

Lemma parity_of_full w i :
  (forall j, (j < d)%nat -> exists b, w !! j = Some (Some b) /\ full_buffer b) -> full_buffer (parity_of w i).
Proof.
  intros Hw. destruct (accumulate_spec size d (mget d (enc_matrix c) (i - d)) (shard_at w)) as [Hl Hg].
  split; [done|]. apply Forall_lookup. intros k x Hx.
  assert (Hk : (k < size)%nat) by (rewrite <- Hl; by eapply lookup_lt_Some).
  unfold parity_of in Hx. rewrite Hg in Hx by done. injection Hx as <-. apply gsum_byte. intros j Hj.
  apply gf_mul_byte; [|apply enc_byte]. destruct (Hw j Hj) as (b & Hb & [_ Hfb]).
  unfold byte_of_shard, shard_at. rewrite Hb; simpl.
  destruct (b !! k) eqn:E; simpl; [|unfold is_byte; lia]. by eapply Forall_lookup_1 in Hfb.
Qed.

Lemma parity_of_data w w' i :
  (forall j, (j < d)%nat -> w !! j = w' !! j) -> parity_of w i = parity_of w' i.
Proof. intros H. apply accumulate_ext. intros j Hj. split; [done|]. by apply shard_at_lookup, H. Qed.

Lemma encode_loop_spec ps sh :
  length sh = t -> (forall p, p ∈ ps -> (d + p < t)%nat) ->
  (forall i, (i < t)%nat -> exists b, sh !! i = Some (Some b) /\ full_buffer b) ->
  exists sh', encode_loop c size ps sh = (0, sh') /\ length sh' = t /\
    (forall i, (i < t)%nat -> exists b, sh' !! i = Some (Some b) /\ full_buffer b) /\
    (forall i, (d <= i)%nat -> (i - d)%nat ∈ ps -> sh' !! i = Some (Some (parity_of sh i))) /\
    (forall i, ((i < d)%nat \/ (i - d)%nat ∉ ps) -> sh' !! i = sh !! i).
Proof.
  pose proof dt as [Hdt _].
  revert sh; induction ps as [|p ps IH]; intros sh Hl Hps Hfull; simpl.
  - exists sh. split_and!; auto. intros i _ Hi. by apply elem_of_nil in Hi.
  - fold d. assert (Hp : (d + p < t)%nat) by (apply Hps, elem_of_cons; by left).
    destruct (Hfull (d + p)%nat Hp) as (old & Hold & Hfo).
    destruct (Hfull 0%nat ltac:(lia)) as (b0 & Hb0 & _).
    unfold shard_at at 1 2. rewrite Hold, Hb0; simpl. rewrite codec_gf_eq.
    assert (Hacc : accumulate GF size d (mget d (enc_matrix c) p) (shard_at sh) = parity_of sh (d + p))
      by (unfold parity_of; by replace (d + p - d)%nat with p by lia).
    rewrite Hacc; clear Hacc.
    assert (Hfp : full_buffer (parity_of sh (d + p))) by (apply parity_of_full; intros j Hj; apply Hfull; lia).
    rewrite overwrite_full by (by rewrite (proj1 Hfo), (proj1 Hfp)).
    set (sh1 := <[(d + p)%nat := Some (parity_of sh (d + p))]> sh).
    assert (Hsame : forall i, i <> (d + p)%nat -> sh1 !! i = sh !! i)
      by (intros i Hi; apply list_lookup_insert_ne; congruence).
    assert (Hnew : sh1 !! (d + p)%nat = Some (Some (parity_of sh (d + p)))) by (apply list_lookup_insert_eq; lia).
    destruct (IH sh1) as (sh' & Hrun & Hl' & Hfull' & Hpar & Hsame').
    + unfold sh1. by rewrite length_insert.
    + intros q Hq. apply Hps, elem_of_cons. by right.
    + intros i Hi. destruct (decide (i = (d + p)%nat)) as [->|]; [eauto|]. rewrite Hsame by done. auto.
    + exists sh'. split_and!; [exact Hrun|exact Hl'|exact Hfull'| |].
      * intros i Hi Hin. destruct (decide ((i - d)%nat ∈ ps)) as [Hin'|Hnin].
        -- rewrite Hpar by done. do 2 f_equal. apply parity_of_data. intros j Hj. apply Hsame. lia.
        -- rewrite Hsame' by auto. assert (i = (d + p)%nat) as -> by (apply elem_of_cons in Hin; intuition lia). done.
      * intros i Hi. rewrite Hsame', Hsame; [done| |]; rewrite ?not_elem_of_cons in Hi; intuition lia.
Qed.

Lemma encode_codeword sh :
  length sh = t ->
  (forall i, (i < t)%nat -> exists b, sh !! i = Some (Some b) /\ full_buffer b) ->
  exists w, powerfs_ec_encode (Some c) (Some sh) size = (0, Some w) /\ codeword w /\
    forall i, (i < d)%nat -> w !! i = sh !! i.
Proof.
  intros Hl Hfull. pose proof dt as [Hdt Hpar].
  destruct (encode_loop_spec (seq 0 (Z.to_nat (parity_shards c))) sh Hl) as (w & Hrun & Hlw & Hfw & Hpw & Hsw); auto.
  { intros p Hp. apply elem_of_seq in Hp. lia. }
  exists w. unfold powerfs_ec_encode. rewrite Hrun. split_and!; [done| |by intros i Hi; apply Hsw; left].
  split; [exact Hlw|]. intros i Hi. destruct (Hfw i Hi) as (b & Hb & Hfb). exists b. split_and!; auto.
  intros Hdi. rewrite Hpw in Hb; [|done|apply elem_of_seq; lia]. injection Hb as <-.
  apply parity_of_data. intros j Hj. symmetry. apply Hsw. by left.
Qed.

(** *** The generator matrix *)

Definition gen (i j : nat) : Z := if decide (i < d)%nat then delta i j else mget d (enc_matrix c) (i - d) j.

Lemma gen_byte i j : is_byte (gen i j).
Proof. unfold gen. case_decide; [auto with pfs|apply enc_byte]. Qed.

(** Every shard of a codeword is the generator row applied to the data. *)
Lemma codeword_gen w i k :
  codeword w -> (i < t)%nat -> (k < size)%nat ->
  byte_of_shard (shard_at w i) k = gsum d (fun j => byte_of_shard (shard_at w j) k ⊗ gen i j).
Proof.
  intros Hw Hi Hk. unfold gen. case_decide as Hd.
  - rewrite (gsum_ext d _ (fun j => delta i j ⊗ byte_of_shard (shard_at w j) k)).
    + symmetry. apply (gsum_delta d i (fun j => byte_of_shard (shard_at w j) k)); [done|].
      intros j Hj. by apply byte_of_shard_byte.
    + intros j Hj. apply gf_mul_comm.
  - destruct Hw as [_ Hw]. destruct (Hw i Hi) as (b & Hb & _ & Hpar).
    unfold byte_of_shard at 1, shard_at at 1. rewrite Hb; cbn [mjoin option_join default].
    rewrite (Hpar ltac:(lia)). unfold parity_of.
    unfold id.     rewrite (proj2 (accumulate_spec size d _ _) k Hk). done.
Qed.

Lemma generator_row_spec i :
  (i < t)%nat -> length (generator_row c i) = d /\
  forall j, (j < d)%nat -> generator_row c i !! j = Some (gen i j).
Proof.
  intros Hi. destruct dt as [Hdt Hpar]. unfold generator_row, gen. fold d.
  destruct (Nat.ltb_spec i d) as [Hlt|Hge].
  - split; [by rewrite length_insert, length_replicate|].
    intros j Hj. rewrite decide_True by done. destruct (decide (i = j)) as [->|Hne].
    + rewrite delta_eq. apply list_lookup_insert_eq. by rewrite length_replicate.
    + rewrite delta_ne, list_lookup_insert_ne by done. by apply lookup_replicate_2.
  - destruct Hc as (_ & _ & _ & _ & Hl & _).
    assert (Hidx : ((i - d) * d + d <= length (enc_matrix c))%nat) by (rewrite Hl; nia).
    split; [rewrite length_take, length_drop; lia|].
    intros j Hj. rewrite decide_False by lia. rewrite lookup_take_lt, lookup_drop by done. unfold mget.
    destruct (lookup_lt_is_Some_2 (enc_matrix c) ((i - d) * d + j)) as [x ->]; [lia|done].
Qed.

Lemma sub_matrix_spec avail :
  (d <= length avail)%nat -> (forall i, i ∈ avail -> (i < t)%nat) ->
  mat_ok d d (sub_matrix c avail) /\
  forall i j, (i < d)%nat -> (j < d)%nat ->
    mget d (sub_matrix c avail) i j = gen (default 0%nat (avail !! i)) j.
Proof.
  intros Hl Hav. unfold sub_matrix. fold d.
  set (row := fun i => generator_row c (default 0%nat (avail !! i))).
  assert (Hrow : forall i, (i < d)%nat -> (default 0%nat (avail !! i) < t)%nat).
  { intros i Hi. destruct (lookup_lt_is_Some_2 avail i) as [x Hx]; [lia|]. rewrite Hx; simpl.
    apply Hav. by eapply list_elem_of_lookup_2. }
  assert (Hlen : Forall (fun l => length l = d) (row <$> seq 0 d)).
  { apply Forall_fmap, Forall_forall. intros i Hi. apply elem_of_seq in Hi.
    apply generator_row_spec, Hrow. lia. }
  assert (Hget : forall i j, (i < d)%nat -> (j < d)%nat ->
    mjoin (row <$> seq 0 d) !! (i * d + j)%nat = Some (gen (default 0%nat (avail !! i)) j)).
  { intros i j Hi Hj. apply (join_lookup_Some_same_length' d); [done|done|].
    exists (row i). rewrite list_lookup_fmap, lookup_seq_lt by done. split; [done|].
    apply generator_row_spec; auto. }
  split; [split|].
  - rewrite (length_join), (sum_list_fmap_same d) by done. by rewrite length_fmap, length_seq.
  - apply Forall_forall. intros x Hx. apply list_elem_of_lookup in Hx as [k Hk].
    apply (join_lookup_Some_same_length d) in Hk as (i & l & j & Hi & Hj & ->); [|done].
    apply list_lookup_fmap_Some in Hi as (i' & -> & Hi'). apply lookup_seq in Hi' as [-> Hi'].
    destruct (generator_row_spec (default 0%nat (avail !! i))) as [Hgl Hg]; [apply Hrow; lia|].
    unfold row in Hj. simpl in Hj. pose proof (lookup_lt_Some _ _ _ Hj). rewrite Hg in Hj by lia.
    injection Hj as <-. apply gen_byte.
  - intros i j Hi Hj. unfold mget. by rewrite Hget.
Qed.

(** *** Rebuilding *)

(** Applying a left inverse of the surviving rows to the surviving shards
    gives back a data shard. *)
Lemma reconstruct_data w avail inv mi :
  codeword w -> (d <= length avail)%nat -> (forall i, i ∈ avail -> (i < t)%nat) ->
  left_inverse d inv (sub_matrix c avail) -> (mi < d)%nat ->
  w !! mi = Some (Some (accumulate GF size d (mget d inv mi)
                          (fun i => shard_at w (default 0%nat (avail !! i))))).
Proof.
  intros Hw Hl Hav [Hinv Hli] Hm. destruct dt as [Hdt _].
  destruct (sub_matrix_spec avail Hl Hav) as [_ Hsub].
  destruct (proj2 Hw mi ltac:(lia)) as (b & Hb & [Hbl _] & _). rewrite Hb. do 2 f_equal.
  destruct (accumulate_spec size d (mget d inv mi) (fun i => shard_at w (default 0%nat (avail !! i)))) as [Hal Hag].
  apply list_eq_same_length with size; [done..|]. intros k x y Hk Hx Hy.
  rewrite Hag in Hy by done. injection Hy as <-.
  assert (Hav' : forall i, (i < d)%nat -> (default 0%nat (avail !! i) < t)%nat).
  { intros i Hi. destruct (lookup_lt_is_Some_2 avail i) as [z Hz]; [lia|]. rewrite Hz; simpl.
    apply Hav. by eapply list_elem_of_lookup_2. }
  set (D := fun j => byte_of_shard (shard_at w j) k).
  assert (HD : forall j, is_byte (D j)) by (intros j; by apply byte_of_shard_byte).
  assert (Hib : forall i, is_byte (mget d inv mi i)) by (intros i; by eapply mget_byte).
  transitivity (gsum d (fun i => gsum d (fun j => D j ⊗ (mget d inv mi i ⊗ gen (default 0%nat (avail !! i)) j)))).
  - rewrite gsum_swap.
    rewrite (gsum_ext d _ (fun j => delta mi j ⊗ D j)).
    + rewrite gsum_delta by auto. unfold D, byte_of_shard, shard_at. rewrite Hb; simpl. by rewrite Hx.
    + intros j Hj. rewrite <- gsum_mul_l by auto using gf_mul_byte, gen_byte.
      rewrite (gsum_ext d _ (fun i => mget d inv mi i ⊗ mget d (sub_matrix c avail) i j)).
      * rewrite (Hli mi j Hm Hj). apply gf_mul_comm.
      * intros i Hi. by rewrite Hsub.
  - apply gsum_ext. intros i Hi. rewrite (codeword_gen w _ k Hw (Hav' i Hi) Hk). unfold D.
    rewrite gsum_mul_r by auto using gf_mul_byte, gen_byte, byte_of_shard_byte. apply gsum_ext. intros j Hj.
    rewrite <- gf_mul_assoc by auto using gen_byte, byte_of_shard_byte. by rewrite (gf_mul_comm (gen _ _)).
Qed.

Lemma fill_shard_spec alloc w good sh i acc :
  agrees w good sh -> (i < t)%nat -> w !! i = Some (Some acc) -> length acc = size ->
  match fill_shard alloc sh i acc with
  | Some sh' => agrees w (fun j => good j \/ j = i) sh'
  | None => alloc (A_shard i) = false
  end.
Proof.
  intros [Hl Ha] Hi Hw Hacc. destruct (Ha i Hi) as [_ Hslot].
  assert (Hins : agrees w (fun j => good j \/ j = i) (<[i := Some acc]> sh)).
  { split; [by rewrite length_insert|]. intros j Hj. destruct (decide (j = i)) as [->|Hne].
    - rewrite list_lookup_insert_eq by lia. split; [done|right; eauto].
    - rewrite list_lookup_insert_ne by done. destruct (Ha j Hj) as [Hg Hs].
      split; [|done]. intros [Hgj|]; [by apply Hg|done]. }
  unfold fill_shard, shard_at. destruct Hslot as [->|(b & -> & Hb)]; simpl.
  - destruct (alloc (A_shard i)); done.
  - rewrite overwrite_full by lia. done.
Qed.

Lemma agrees_weaken w (good good' : nat -> Prop) sh :
  agrees w good sh -> (forall i, good' i -> good i) -> agrees w good' sh.
Proof. intros [Hl Ha] H. split; [done|]. intros i Hi. destruct (Ha i Hi) as [Hg Hs]. auto. Qed.

Lemma agrees_shard_at w good sh i : agrees w good sh -> (i < t)%nat -> good i -> shard_at sh i = shard_at w i.
Proof. intros [_ Ha] Hi Hg. apply shard_at_lookup. by apply Ha. Qed.

Lemma rebuild_data_spec alloc w avail inv ms sh (good : nat -> Prop) :
  codeword w -> (d <= length avail)%nat -> (forall i, i ∈ avail -> (i < t)%nat /\ good i) ->
  left_inverse d inv (sub_matrix c avail) -> (forall m, m ∈ ms -> (m < d)%nat) ->
  agrees w good sh ->
  let '(ret, sh') := rebuild_data alloc c inv avail size ms sh in
  ret = 0 /\ agrees w (fun i => good i \/ i ∈ ms) sh' \/
  ret = - ENOMEM /\ exists m, m ∈ ms /\ alloc (A_shard m) = false.
Proof.
  intros Hw Hl Hav Hinv. pose proof dt as [Hdt _].
  revert sh good Hav; induction ms as [|m ms IH]; intros sh good Hav Hms Hag; cbn [rebuild_data].
  - left. split; [reflexivity|]. eapply agrees_weaken; [exact Hag|].
    intros i [Hi|Hi]; [exact Hi|by apply elem_of_nil in Hi].
  - fold d. rewrite codec_gf_eq.
    assert (Hm : (m < d)%nat) by (apply Hms, elem_of_cons; by left).
    rewrite (accumulate_ext size d (mget d inv m) (mget d inv m) _
      (fun i => shard_at w (default 0%nat (avail !! i)))).
    2:{ intros i Hi. split; [reflexivity|].
        destruct (lookup_lt_is_Some_2 avail i) as [z Hz]; [lia|]. rewrite Hz; simpl.
        destruct (Hav z); [by eapply list_elem_of_lookup_2|]. by eapply agrees_shard_at. }
    pose proof (reconstruct_data w avail inv m Hw Hl (fun i Hi => proj1 (Hav i Hi)) Hinv Hm) as Hrec.
    set (acc := accumulate _ _ _ _ _) in *.
    assert (Hacc : length acc = size) by apply accumulate_spec.
    pose proof (fill_shard_spec alloc w good sh m acc Hag ltac:(lia) Hrec Hacc) as Hfill.
    destruct (fill_shard alloc sh m acc) as [sh1|].
    + specialize (IH sh1 (fun j => good j \/ j = m)).
      destruct (rebuild_data alloc c inv avail size ms sh1) as [ret sh'].
      destruct IH as [[-> Hag']|(-> & m' & Hm' & Hal)].
      * intros i Hi. destruct (Hav i Hi). auto.
      * intros m' Hm'. apply Hms, elem_of_cons. by right.
      * exact Hfill.
      * left. split; [reflexivity|]. eapply agrees_weaken; [exact Hag'|].
        intros i [Hi|Hi]; [auto|]. apply elem_of_cons in Hi as [->|Hi]; auto.
      * right. split; [reflexivity|]. exists m'. split; [apply elem_of_cons; by right|exact Hal].
    + right. split; [reflexivity|]. exists m. split; [apply elem_of_cons; by left|exact Hfill].
Qed.

Lemma rebuild_parity_spec alloc w av ps sh (good : nat -> Prop) :
  codeword w -> (forall i, (i < d)%nat -> good i) ->
  (forall i, i ∈ ps -> (d <= i < t)%nat /\ (is_available av i = true -> good i)) ->
  agrees w good sh ->
  let '(ret, sh') := rebuild_parity alloc c av size ps sh in
  ret = 0 /\ agrees w (fun i => good i \/ i ∈ ps) sh' \/
  ret = - ENOMEM /\ exists m, m ∈ ps /\ alloc (A_shard m) = false.
Proof.
  intros Hw. pose proof dt as [Hdt _].
  revert sh good; induction ps as [|p ps IH]; intros sh good Hd Hps Hag; cbn [rebuild_parity].
  - left. split; [reflexivity|]. eapply agrees_weaken; [exact Hag|].
    intros i [Hi|Hi]; [exact Hi|by apply elem_of_nil in Hi].
  - destruct (Hps p) as [Hp Hpg]; [apply elem_of_cons; by left|].
    assert (Hps' : forall i, i ∈ ps -> (d <= i < t)%nat /\ (is_available av i = true -> good i))
      by (intros i Hi; apply Hps, elem_of_cons; by right).
    destruct (is_available av p).
    + specialize (IH sh good Hd Hps' Hag).
      destruct (rebuild_parity alloc c av size ps sh) as [ret sh'].
      destruct IH as [[-> Hag']|(-> & m & Hm & Hal)].
      * left. split; [reflexivity|]. eapply agrees_weaken; [exact Hag'|].
        intros i [Hi|Hi]; [auto|]. apply elem_of_cons in Hi as [->|Hi]; auto.
      * right. split; [reflexivity|]. exists m. split; [apply elem_of_cons; by right|exact Hal].
    + fold d. rewrite codec_gf_eq.
      assert (Hpo : w !! p = Some (Some (parity_of sh p))).
      { destruct (proj2 Hw p ltac:(lia)) as (b & Hb & _ & Hpar). rewrite Hb, Hpar by lia.
        do 2 f_equal. apply parity_of_data. intros j Hj. symmetry. apply Hag; [lia|auto]. }
      change (accumulate GF size d (mget d (enc_matrix c) (p - d)) (shard_at sh)) with (parity_of sh p).
      assert (Hacc : length (parity_of sh p) = size) by apply accumulate_spec.
      pose proof (fill_shard_spec alloc w good sh p _ Hag ltac:(lia) Hpo Hacc) as Hfill.
      destruct (fill_shard alloc sh p (parity_of sh p)) as [sh1|].
      * specialize (IH sh1 (fun j => good j \/ j = p)).
        destruct (rebuild_parity alloc c av size ps sh1) as [ret sh'].
        destruct IH as [[-> Hag']|(-> & m & Hm & Hal)].
        -- intros i Hi. auto.
        -- intros i Hi. destruct (Hps' i Hi). auto.
        -- exact Hfill.
        -- left. split; [reflexivity|]. eapply agrees_weaken; [exact Hag'|].
           intros i [Hi|Hi]; [auto|]. apply elem_of_cons in Hi as [->|Hi]; auto.
        -- right. split; [reflexivity|]. exists m. split; [apply elem_of_cons; by right|exact Hal].
      * right. split; [reflexivity|]. exists p. split; [apply elem_of_cons; by left|exact Hfill].
Qed.

(** *** Bookkeeping of available and missing shards *)

Definition avail_list (av : list bool) : list nat := filter (fun i => is_available av i = true) (seq 0 t).
Definition missing_list (av : list bool) : list nat :=
  filter (fun i => is_available av i = false /\ (i < d)%nat) (seq 0 t).

Lemma partition_shards_spec av : partition_shards c av = (avail_list av, missing_list av).
Proof.
  unfold partition_shards, avail_list, missing_list. fold t d.
  induction t as [|n IH]; [done|]. rewrite !seq_S, foldl_app, IH, !filter_app. cbn [foldl].
  change (0 + n)%nat with n. rewrite !filter_cons, !filter_nil.
  destruct (is_available av n) eqn:E.
  - rewrite decide_True by done. rewrite decide_False by (intros [? ?]; congruence). by rewrite app_nil_r.
  - rewrite decide_False by congruence. rewrite app_nil_r.
    destruct (Nat.ltb_spec n d).
    + by rewrite decide_True.
    + rewrite decide_False by lia. by rewrite app_nil_r.
Qed.

Lemma can_recover_spec av :
  powerfs_ec_can_recover (Some c) (Some av) = (d <=? length (avail_list av))%nat.
Proof.
  unfold powerfs_ec_can_recover, avail_list. fold t.
  assert (Hcnt : foldl (fun count i => if is_available av i then count + 1 else count) 0 (seq 0 t) =
    Z.of_nat (length (filter (fun i => is_available av i = true) (seq 0 t)))).
  { induction t as [|n IH]; [done|]. rewrite !seq_S, foldl_app, IH, filter_app, length_app. cbn [foldl].
    change (0 + n)%nat with n. rewrite filter_cons, filter_nil. destruct (is_available av n) eqn:E.
    - rewrite decide_True by done. simpl length. lia.
    - rewrite decide_False by congruence. simpl length. lia. }
  rewrite Hcnt. destruct Hc as (_ & Hd & _). unfold d. rewrite Z.geb_leb.
  apply eq_true_iff_eq. rewrite Z.leb_le, Nat.leb_le. lia.
Qed.

Lemma avail_list_elem av i : i ∈ avail_list av <-> is_available av i = true /\ (i < t)%nat.
Proof. unfold avail_list. rewrite list_elem_of_filter, elem_of_seq. intuition lia. Qed.

Lemma missing_list_elem av i : i ∈ missing_list av <-> is_available av i = false /\ (i < d)%nat.
Proof. pose proof dt. unfold missing_list. rewrite list_elem_of_filter, elem_of_seq. intuition lia. Qed.

Lemma agrees_all w sh : codeword w -> agrees w (fun i => (i < t)%nat) sh -> sh = w.
Proof.
  intros [Hlw _] [Hl Ha]. apply list_eq. intros i. destruct (decide (i < t)%nat) as [Hi|Hi].
  - by apply Ha.
  - by rewrite !lookup_ge_None_2 by lia.
Qed.

Definition parity_indices : list nat := seq d (t - d).

(** From a table whose data slots are all right, the parity loop finishes. *)
Lemma finish_parity alloc w av sh (good : nat -> Prop) :
  codeword w -> (forall i, (i < d)%nat -> good i) -> (forall i, is_available av i = true -> good i) ->
  agrees w good sh ->
  let '(ret, sh') := rebuild_parity alloc c av size parity_indices sh in
  ret = 0 /\ sh' = w \/ ret = - ENOMEM /\ exists m, alloc (A_shard m) = false.
Proof.
  intros Hw Hd Hav Hag. pose proof dt as [Hdt _].
  pose proof (rebuild_parity_spec alloc w av parity_indices sh good Hw Hd) as H.
  destruct (rebuild_parity alloc c av size parity_indices sh) as [ret sh'].
  destruct H as [[-> Hag']|(-> & m & _ & Hm)]; [| exact Hag | | ].
  - intros i Hi. unfold parity_indices in Hi. apply elem_of_seq in Hi. split; [lia|apply Hav].
  - left. split; [reflexivity|]. apply (agrees_all w); [exact Hw|].
    eapply agrees_weaken; [exact Hag'|]. intros i Hi.
    destruct (decide (i < d)%nat); [left; by apply Hd|right]. apply elem_of_seq. lia.
  - right. split; [reflexivity|]. by exists m.
Qed.

Lemma decode_spec alloc w av sh :
  codeword w -> agrees w (fun i => is_available av i = true) sh ->
  let '(ret, sh') := powerfs_ec_decode alloc (Some c) (Some sh) (Some av) size in
  if (d <=? length (avail_list av))%nat then
    ret = 0 /\ sh' = Some w \/
    ret = - ENOMEM /\ (exists s, alloc s = false) \/
    ret = - EINVAL /\ ~ independent d (sub_matrix c (avail_list av))
  else ret = - EBADMSG /\ sh' = Some sh.
Proof.
  intros Hw Hag. pose proof dt as [Hdt _]. cbn [powerfs_ec_decode]. rewrite can_recover_spec.
  destruct (Nat.leb_spec d (length (avail_list av))) as [Hl|Hl]; cbn [negb]; [|done].
  destruct (alloc A_avail) eqn:E1; [|cbn [andb negb]; right; left; split; [reflexivity|eexists; exact E1]].
  destruct (alloc A_missing) eqn:E2; [|cbn [andb negb]; right; left; split; [reflexivity|eexists; exact E2]]. cbn [andb negb].
  rewrite partition_shards_spec. fold d t. fold parity_indices.
  destruct (Nat.eqb_spec (length (missing_list av)) 0) as [Hm|Hm].
  - pose proof (finish_parity alloc w av sh (fun i => is_available av i = true \/ (i < d)%nat) Hw) as H.
    destruct (rebuild_parity alloc c av size parity_indices sh) as [ret sh'].
    destruct H as [[-> ->]|[-> [m Hal]]]; [by right|by left| | |].
    + split; [apply Hag|]. intros i Hi. destruct (proj2 Hag i Hi) as [Hg Hs]. split; [|done].
      intros [Hi'|Hi']; [by apply Hg|]. apply Hg. apply nil_length_inv in Hm.
      destruct (is_available av i) eqn:Ei; [done|].
      exfalso. apply (not_elem_of_nil i). rewrite <- Hm. by apply missing_list_elem.
    + by left.
    + right; left. split; [reflexivity|eexists; exact Hal].
  - destruct (alloc A_sub) eqn:E3; [|cbn [andb negb]; right; left; split; [reflexivity|eexists; exact E3]].
    destruct (alloc A_inv) eqn:E4; [|cbn [andb negb]; right; left; split; [reflexivity|eexists; exact E4]]. cbn [andb negb].
    assert (Hav : forall i, i ∈ avail_list av -> (i < t)%nat /\ is_available av i = true)
      by (intros i Hi; apply avail_list_elem in Hi; tauto).
    destruct (sub_matrix_spec (avail_list av) Hl (fun i Hi => proj1 (Hav i Hi))) as [Hsub _].
    pose proof (gf_matrix_invert_spec alloc (sub_matrix c (avail_list av)) d Hsub) as Hinv.
    rewrite codec_gf_eq. destruct (gf_matrix_invert alloc GF (sub_matrix c (avail_list av)) d) as [ret|inv].
    + destruct Hinv as [[-> Hal]|[-> Hni]]; right; [left|by right]. split; [reflexivity|eexists; exact Hal].
    + pose proof (rebuild_data_spec alloc w (avail_list av) inv (missing_list av) sh
        (fun i => is_available av i = true) Hw Hl Hav Hinv) as Hrd.
      destruct (rebuild_data alloc c inv (avail_list av) size (missing_list av) sh) as [ret sh1].
      destruct Hrd as [[-> Hag1]|(-> & m & _ & Hal)]; [|exact Hag| |].
      * intros m Hmm. apply missing_list_elem in Hmm. exact (proj2 Hmm).
      * cbn [Z.eqb negb].
        pose proof (finish_parity alloc w av sh1 (fun i => is_available av i = true \/ i ∈ missing_list av) Hw) as H.
        destruct (rebuild_parity alloc c av size parity_indices sh1) as [ret sh'].
        destruct H as [[-> ->]|[-> [m Hal]]]; [|by left|exact Hag1|by left|right; left; split; [reflexivity|eexists; exact Hal]].
        intros i Hi. destruct (is_available av i) eqn:Ei; [by left|right]. by apply missing_list_elem.
      * right; left. split; [reflexivity|eexists; exact Hal].
Qed.
End codec.

Lemma left_inverse_independent n inv m : mat_ok n n m -> left_inverse n inv m -> independent n m.
Proof.
  intros Hm [Hinv Hli] v Hv Hker c Hc.
  transitivity (gsum n (fun r => mget n inv c r ⊗ gsum n (fun j => mget n m r j ⊗ v j))).
  - rewrite (gsum_ext n _ (fun r => gsum n (fun j => mget n inv c r ⊗ mget n m r j ⊗ v j))).
    + rewrite gsum_swap, (gsum_ext n _ (fun j => delta c j ⊗ v j)); [by rewrite gsum_delta by auto|].
      intros j Hj. rewrite <- (Hli c j Hc Hj). rewrite gsum_mul_r by eauto with pfs. done.
    + intros r Hr. rewrite gsum_mul_l by eauto with pfs. apply gsum_ext. intros j Hj.
      apply gf_mul_assoc; eauto with pfs.
  - rewrite (gsum_ext n _ (fun _ => 0)); [apply gsum_0|]. intros r Hr.
    rewrite (Hker r Hr). apply gf_mul_0_r.
Qed.

(** ** Theorems *)

(** Matrix inversion is complete: with memory available
    [gf_matrix_invert] succeeds exactly when the rows are linearly
    independent, and then returns a left inverse; otherwise it returns
    [-EINVAL]. *)
Theorem ec_matrix_invert_iff (alloc : alloc_site -> bool) (m : matrix) (n : nat) :
  mat_ok n n m -> alloc A_identity = true ->
  (independent n m ->
     exists inv, gf_matrix_invert alloc GF m n = inr inv /\ left_inverse n inv m) /\
  (~ independent n m -> gf_matrix_invert alloc GF m n = inl (- EINVAL)).
Proof.
  intros Hm Ha. pose proof (gf_matrix_invert_spec alloc m n Hm) as H.
  destruct (gf_matrix_invert alloc GF m n) as [ret|inv].
  - destruct H as [[_ H]|[-> H]]; [congruence|]. split; [done|reflexivity].
  - split; [by exists inv|]. intros Hn. destruct Hn. by apply (left_inverse_independent n inv).
Qed.

(** C6. Erasure recovery: [powerfs_ec_encode] keeps the data shards and
    produces a codeword; after any loss or corruption of the shards marked
    unavailable, [powerfs_ec_decode] restores the complete codeword when at
    least [data_shards] shards are available, their generator rows are
    independent and memory is available; it answers [-EBADMSG] and changes
    nothing when fewer are available; and whenever it returns 0 the table is
    the original codeword. *)
Theorem ec_encode_decode (c : ec_codec) (size : nat) (sh : shard_table) :
  codec_ok c -> length sh = Z.to_nat (total_shards c) ->
  (forall i, (i < length sh)%nat -> exists b, sh !! i = Some (Some b) /\ full_buffer size b) ->
  exists w, powerfs_ec_encode (Some c) (Some sh) size = (0, Some w) /\
    (forall i, (i < Z.to_nat (data_shards c))%nat -> w !! i = sh !! i) /\
    forall alloc av sh',
      agrees c size w (fun i => is_available av i = true) sh' ->
      let avail := avail_list c av in
      let '(ret, sh'') := powerfs_ec_decode alloc (Some c) (Some sh') (Some av) size in
      (Z.of_nat (length avail) < data_shards c -> ret = - EBADMSG /\ sh'' = Some sh') /\
      (data_shards c <= Z.of_nat (length avail) -> (forall s, alloc s = true) ->
       independent (Z.to_nat (data_shards c)) (sub_matrix c avail) -> ret = 0) /\
      (ret = 0 -> sh'' = Some w).
Proof.
  intros Hc Hl Hfull.
  destruct (encode_codeword c size Hc sh Hl) as (w & Hrun & Hw & Hdata).
  { intros i Hi. apply Hfull. by rewrite Hl. }
  exists w. split; [exact Hrun|]. split; [exact Hdata|]. intros alloc av sh' Hag avail.
  pose proof (decode_spec c size Hc alloc w av sh' Hw Hag) as H. fold avail in H.
  destruct (powerfs_ec_decode alloc (Some c) (Some sh') (Some av) size) as [ret sh''].
  destruct (Nat.leb_spec (Z.to_nat (data_shards c)) (length avail)) as [Hle|Hlt].
  - split; [lia|]. destruct H as [[-> ->]|[[-> [s Hs]]|[-> Hn]]].
    + split; [reflexivity|reflexivity].
    + split; [intros _ Hall; rewrite Hall in Hs; discriminate|discriminate].
    + split; [intros _ _ Hi; by destruct Hn|discriminate].
  - destruct H as [-> ->]. split; [done|]. split; [lia|discriminate].
Qed.

(** Defect: [powerfs_ec_init] rejects every admissible configuration.
    Column 0 of the matrix it builds is [gf_pow(0, r)], which is 0 for every
    row, row 0 included, so the elimination finds no pivot. *)
Theorem ec_init_always_fails (alloc : alloc_site -> bool) (data parity : Z) :
  0 < data -> 0 < parity -> data + parity <= 255 -> (forall s, alloc s = true) ->
  powerfs_ec_init alloc data parity = inl (- EINVAL).
Proof.
  intros Hd Hp Ht Ha. unfold powerfs_ec_init. rewrite u32_small, !Ha by lia.
  destruct (Z.eqb_spec data 0); [lia|]. destruct (Z.eqb_spec parity 0); [lia|].
  cbn [orb negb]. destruct (Z.gtb_spec (data + parity) 255); [lia|].
  rewrite gf_init_GF.
  set (rows := Z.to_nat (data + parity)). set (cols := Z.to_nat data).
  rewrite systematic_zero_column; [reflexivity|lia|lia|].
  intros r Hr. rewrite (proj2 (vandermonde_spec rows cols _ (zeros_ok rows cols))) by lia. reflexivity.
Qed.

(** Defect: whenever [vandermonde_to_systematic] succeeds, every row below
    the identity block is zero, so the parity matrix copied from those rows
    would be all zero: the elimination clears each column in the parity rows
    too. *)
Theorem ec_systematic_parity_zero (m m' : matrix) (total data : nat) :
  (data <= total)%nat -> mat_ok total data m ->
  vandermonde_to_systematic GF m total data = inr m' ->
  forall r c, (r < total)%nat -> (c < data)%nat ->
    mget data m' r c = delta r c /\ ((data <= r)%nat -> mget data m' r c = 0).
Proof.
  intros Hd Hm H r c Hr Hc. destruct (systematic_shape total data m m' Hd Hm H) as [_ Hs].
  rewrite (Hs r c) by done. split; [done|]. intros Hge. apply delta_ne. lia.
Qed.

(** ** Witnesses *)

Definition sample_codec : ec_codec := mk_codec 2 1 3 GF [1; 1].
Definition sample_shards : shard_table := [Some [1; 2]; Some [16; 32]; Some [0; 0]].

Lemma sample_codec_ok : codec_ok sample_codec.
Proof.
  unfold codec_ok, mat_ok, is_byte; cbn [codec_gf data_shards parity_shards total_shards enc_matrix sample_codec].
  split; [reflexivity|]. split; [lia|]. split; [lia|]. split; [lia|]. split; [reflexivity|].
  split_forall; lia.
Qed.

Lemma identity_independent n : independent n (identity_matrix n).
Proof.
  destruct (identity_matrix_spec n) as [Hok Hg].
  apply (left_inverse_independent n (identity_matrix n)); [done|]. split; [done|].
  intros r c Hr Hc. rewrite (gsum_ext n _ (fun j => delta r j ⊗ mget n (identity_matrix n) j c)).
  - rewrite (gsum_delta n r (fun j => mget n (identity_matrix n) j c)) by eauto with pfs. by apply Hg.
  - intros j Hj. by rewrite Hg.
Qed.

Lemma ec_matrix_invert_iff_witness :
  exists inv, gf_matrix_invert (fun _ => true) GF (identity_matrix 3) 3 = inr inv.
Proof.
  destruct (proj1 (ec_matrix_invert_iff (fun _ => true) (identity_matrix 3) 3
    (proj1 (identity_matrix_spec 3)) eq_refl) (identity_independent 3)) as (inv & H & _).
  exists inv. exact H.
Defined.

(** Shard 1 is lost; shards 0 and 2 remain. *)
Lemma ec_encode_decode_witness :
  exists w, powerfs_ec_encode (Some sample_codec) (Some sample_shards) 2 = (0, Some w) /\
    powerfs_ec_decode (fun _ => true) (Some sample_codec) (Some (<[1%nat := None]> w))
      (Some [true; false; true]) 2 = (0, Some w).
Proof.
  destruct (ec_encode_decode sample_codec 2 sample_shards sample_codec_ok eq_refl) as (w & He & _ & Hd).
  { intros i Hi. unfold full_buffer, is_byte. simpl in Hi.
    destruct i as [|[|[|i]]]; [..|lia]; eexists; (split; [reflexivity|]); split; try reflexivity; split_forall; lia. }
  exists w. split; [exact He|].
  assert (Ew : w = [Some [1; 2]; Some [16; 32]; Some [17; 34]]) by (vm_compute in He; congruence).
  subst w. specialize (Hd (fun _ => true) [true; false; true] [Some [1; 2]; None; Some [17; 34]]).
  destruct (powerfs_ec_decode (fun _ => true) (Some sample_codec) (Some [Some [1; 2]; None; Some [17; 34]])
    (Some [true; false; true]) 2) as [ret sh] eqn:E.
  destruct Hd as (_ & _ & Hs).
  { split; [reflexivity|]. intros i Hi. destruct i as [|[|[|i]]]; cbn; [| | |simpl in Hi; lia];
      (split; [try reflexivity; discriminate|]); try (left; reflexivity); right; eexists; split; reflexivity. }
  cbn [list_insert]. change (<[1%nat := None]> [Some [1; 2]; Some [16; 32]; Some [17; 34]])
    with [Some [1; 2]; (None : option buffer); Some [17; 34]]. rewrite E.
  assert (ret = 0) as -> by (vm_compute in E; congruence). by rewrite Hs.
Defined.

Lemma ec_init_always_fails_witness : powerfs_ec_init (fun _ => true) 4 2 = inl (- EINVAL).
Proof. apply (ec_init_always_fails (fun _ => true) 4 2); (lia || reflexivity). Defined.

Lemma ec_systematic_parity_zero_witness :
  exists m', vandermonde_to_systematic GF [1; 1; 1; 2; 1; 3] 3 2 = inr m' /\ mget 2 m' 2 1 = 0.
Proof.
  exists [1; 0; 0; 1; 0; 0].
  assert (E : vandermonde_to_systematic GF [1; 1; 1; 2; 1; 3] 3 2 = inr [1; 0; 0; 1; 0; 0])
    by (vm_compute; reflexivity).
  split; [exact E|].
  apply (ec_systematic_parity_zero [1; 1; 1; 2; 1; 3] [1; 0; 0; 1; 0; 0] 3 2); try lia; [|exact E].
  unfold mat_ok, is_byte. split; [reflexivity|split_forall; lia].
Defined.
