(* ===== verification/NetLease.v ===== *)
(** * NetLease: the lease and capability RPCs

    Models [src/powerfs_mod/powerfs_net_lease.c]: the range-lease RPCs sent to
    a volume server, the capability RPCs sent to the filer, and the decoders
    of the two capability notifications, all on top of the TLV codec.  The
    transport is an interface ([NetTransport]): it takes a request body and
    gives a status and a response body.

    Shown: the requests are well-formed messages the peer reads back in order;
    what each decoder extracts; and four defects, proved as such: the lease
    duration, epoch and size of an acquire response are never read; a batch of
    eleven or more releases overflows its body buffer and is truncated; the
    token of a grant is copied without the caller's bound. *)

From S2P Require Import Prelude Tlv.

(** ** Interfaces *)

(** Kernel time conversions ([include/linux/jiffies.h]); [HZ] is a build
    option. *)
Class KernelTime := {
  HZ : Z;
  jiffies_to_msecs : Z -> Z;
  msecs_to_jiffies : Z -> Z
}.

(** [powerfs_net_send_to_volume] and [powerfs_net_send_request]: status
    (negative errno, 0, or a positive protocol status) and response body. *)
Class NetTransport (W : Type) := {
  net_jiffies : W -> Z;
  net_kvmalloc : W -> Z -> bool;
  net_send_to_volume : W -> Z -> Z -> buffer -> Z -> Z * buffer * W;
  net_send_request : W -> Z -> Z -> buffer -> Z -> Z * buffer * W
}.

(** What the transport promises: a protocol status is 16 bits wide and a
    response never exceeds the buffer it was given. *)
Class NetTransportOk (W : Type) `{!NetTransport W} : Prop := {
  volume_response_ok : forall w vol msg body cap ret resp w',
    0 <= cap -> net_send_to_volume w vol msg body cap = (ret, resp, w') ->
    ret < 2 ^ 16 /\ bytes_ok resp /\ blen resp <= cap;
  filer_response_ok : forall w msg ino body cap ret resp w',
    0 <= cap -> net_send_request w msg ino body cap = (ret, resp, w') ->
    ret < 2 ^ 16 /\ bytes_ok resp /\ blen resp <= cap
}.

(** ** Protocol constants *)

Definition POWERFS_NET_FLD_MODE : Z := 0x03.
Definition POWERFS_NET_FLD_INO : Z := 0x07.
Definition POWERFS_NET_FLD_OFFSET : Z := 0x0E.
Definition POWERFS_NET_FLD_CONTENT_SIZE : Z := 0x13.
Definition POWERFS_NET_FLD_LIMIT : Z := 0x20.
Definition POWERFS_NET_FLD_CLIENT_ID : Z := 0x30.
Definition POWERFS_NET_FLD_LEASE_ID : Z := 0x40.
Definition POWERFS_NET_FLD_LEASE_DURATION : Z := 0x41.
Definition POWERFS_NET_FLD_LEASE_EPOCH : Z := 0x42.
Definition POWERFS_NET_FLD_LEASE_TOKEN : Z := 0x80.
Definition POWERFS_NET_FLD_CAP_SET : Z := 0xC4.
Definition POWERFS_NET_FLD_CAP_EPOCH : Z := 0xC5.
Definition POWERFS_NET_FLD_IS_WRITE_OPEN : Z := 0xC6.
Definition POWERFS_NET_FLD_CAP_SN : Z := 0xC7.
Definition POWERFS_NET_FLD_HAS_UPGRADE : Z := 0xC8.

Definition POWERFS_NET_MSG_ACQUIRE_LEASE : Z := 0x0080.
Definition POWERFS_NET_MSG_RELEASE_LEASE : Z := 0x0081.
Definition POWERFS_NET_MSG_RENEW_LEASE : Z := 0x0082.
Definition POWERFS_NET_MSG_CAP_OPEN_GRANT : Z := 0x0091.
Definition POWERFS_NET_MSG_CAP_RECALL_ACK : Z := 0x0092.
Definition POWERFS_NET_MSG_CAP_RELEASE : Z := 0x0093.
Definition POWERFS_NET_MSG_CAP_ACQUIRE : Z := 0x0096.
Definition POWERFS_NET_MSG_BATCH_CAP_RELEASE : Z := 0x0097.
Definition POWERFS_NET_MSG_FILE_LOCK_REQUEST : Z := 0x0098.

Definition POWERFS_NET_MAX_BODY : Z := 256 * 1024.

(** errno values only this table uses. *)
Definition EPERM : Z := 1.
Definition EBADF : Z := 9.
Definition EEXIST : Z := 17.
Definition ENOTDIR : Z := 20.
Definition EISDIR : Z := 21.
Definition ESTALE : Z := 116.
Definition EREMOTEIO : Z := 121.

Definition net_status_to_errno (status : Z) : Z :=
  match status with
  | 0 => 0 | 1 => - ENOENT | 2 => - EEXIST | 3 => - EPERM | 4 => - EIO | 5 => - EINVAL
  | 6 => - ENOTDIR | 7 => - EISDIR | 8 => - ENOSPC | 9 => - EBADF | 10 => - EREMOTEIO
  | 11 => - EAGAIN | 13 => - ESTALE | _ => - EIO
  end.

(** The common tail [if (ret < 0) return ret; if (ret > 0) return
    net_status_to_errno((__u16)ret);]: [Some e] when the call is over. *)
Definition rpc_status (ret : Z) : option Z :=
  if ret <? 0 then Some ret else
  if ret >? 0 then Some (net_status_to_errno (u16 ret)) else None.

(** A request body: the fields written into a buffer of [cap] bytes, return
    codes of the encoder ignored. *)
Definition request (cap : Z) (os : list enc_op) : buffer :=
  enc_written (enc_seq (powerfs_tlv_enc_init (replicate (Z.to_nat cap) 0) cap) os).

(** The string constant "kernel-client". *)
Definition kernel_client : buffer := [107; 101; 114; 110; 101; 108; 45; 99; 108; 105; 101; 110; 116].

(** [client_id && client_id[0]]: C strings are held without terminator. *)
Definition client_or_default (client_id : option buffer) : buffer :=
  match client_id with Some (x :: s) => x :: s | _ => kernel_client end.

(** [if (p) *p = v;] *)
Definition store_if {A} (p : option A) (v : A) : option A := match p with Some _ => Some v | None => None end.

(** [strlen]: bytes before the first NUL. *)
Fixpoint c_strlen (s : buffer) : Z :=
  match s with [] => 0 | x :: s => if x =? 0 then 0 else 1 + c_strlen s end.

Section rpcs.
Context `{KT : KernelTime} {W : Type} `{NT : !NetTransport W}.

Definition POWERFS_LEASE_DURATION : Z := 30 * HZ.
Definition POWERFS_LEASE_RENEW_THRESHOLD : Z := POWERFS_LEASE_DURATION / 3.

(** ** Range leases *)

Definition renew_body (token : buffer) (token_len : Z) : buffer :=
  request 512 [OpString POWERFS_NET_FLD_LEASE_TOKEN (take (Z.to_nat token_len) token);
               OpString POWERFS_NET_FLD_CLIENT_ID kernel_client;
               OpU64 POWERFS_NET_FLD_LEASE_DURATION (jiffies_to_msecs POWERFS_LEASE_DURATION)].

(** The duration block shared by renew and acquire: the decoder is
    re-initialised on the response and asked for the duration as its first
    field; seconds are kept in a [__u32]. *)
Definition lease_expire (now : Z) (resp : buffer) : Z :=
  let '(_, v, _) := powerfs_tlv_dec_u64 (powerfs_tlv_dec_init resp (blen resp))
                      POWERFS_NET_FLD_LEASE_DURATION in
  let duration_ms := default 0 v in
  let lease_duration_sec :=
    if duration_ms >? 0 then u32 (duration_ms / 1000)
    else u32 (jiffies_to_msecs POWERFS_LEASE_DURATION / 1000) in
  u64 (now + msecs_to_jiffies (u32 (lease_duration_sec * 1000))).

Definition powerfs_net_renew_lease (w : W) (volume_id ino : Z) (token : option buffer)
    (token_len : Z) : Z * option Z * W :=
  match token with
  | None => (- EINVAL, None, w)
  | Some token =>
      if (token_len =? 0) || (token_len >=? 64) then (- EINVAL, None, w) else
      let '(ret, resp, w) :=
        net_send_to_volume w volume_id POWERFS_NET_MSG_RENEW_LEASE (renew_body token token_len) 128 in
      match rpc_status ret with
      | Some e => (e, None, w)
      | None => (0, Some (lease_expire (net_jiffies w) resp), w)
      end
  end.

(** The out-parameters of [powerfs_net_acquire_lease]. *)
Record acquire_out := mk_acquire_out {
  ao_token : buffer; ao_token_len : Z; ao_epoch : Z; ao_content_size : Z; ao_expire : Z
}.

Definition acquire_body (ino stripe_start stripe_count : Z) (client_id : option buffer) : buffer :=
  request 512 [OpU64 POWERFS_NET_FLD_INO ino; OpU64 POWERFS_NET_FLD_OFFSET stripe_start;
               OpU64 POWERFS_NET_FLD_LIMIT stripe_count;
               OpString POWERFS_NET_FLD_CLIENT_ID (client_or_default client_id);
               OpU64 POWERFS_NET_FLD_MODE 1;
               OpU64 POWERFS_NET_FLD_LEASE_DURATION (jiffies_to_msecs POWERFS_LEASE_DURATION)].

(** The optional u64 read with a freshly initialised decoder. *)
Definition first_u64 (resp : buffer) (field old : Z) : Z :=
  let '(_, v, _) := powerfs_tlv_dec_u64 (powerfs_tlv_dec_init resp (blen resp)) field in default old v.

Definition powerfs_net_acquire_lease (w : W) (volume_id ino stripe_start stripe_count : Z)
    (client_id : option buffer) (out : acquire_out) : Z * acquire_out * W :=
  if ao_token_len out <? 64 then (- EINVAL, out, w) else
  let '(ret, resp, w) :=
    net_send_to_volume w volume_id POWERFS_NET_MSG_ACQUIRE_LEASE
      (acquire_body ino stripe_start stripe_count client_id) 256 in
  match rpc_status ret with
  | Some e => (e, out, w)
  | None =>
      match powerfs_tlv_dec_string (powerfs_tlv_dec_init resp (blen resp))
              POWERFS_NET_FLD_LEASE_ID (ao_token_len out) with
      | (0, Some token, _) =>
          (0, mk_acquire_out token (c_strlen token)
                (first_u64 resp POWERFS_NET_FLD_LEASE_EPOCH (ao_epoch out))
                (first_u64 resp POWERFS_NET_FLD_CONTENT_SIZE (ao_content_size out))
                (lease_expire (net_jiffies w) resp), w)
      | _ => (- EIO, out, w)
      end
  end.

Definition release_body (token : buffer) (token_len : Z) (client_id : option buffer) : buffer :=
  request 512 [OpString POWERFS_NET_FLD_LEASE_TOKEN (take (Z.to_nat token_len) token);
               OpString POWERFS_NET_FLD_CLIENT_ID (client_or_default client_id)].

Definition powerfs_net_release_lease (w : W) (volume_id ino : Z) (token : option buffer)
    (token_len : Z) (client_id : option buffer) : Z * W :=
  match token with
  | None => (- EINVAL, w)
  | Some token =>
      if (token_len =? 0) || (token_len >=? 64) then (- EINVAL, w) else
      let '(ret, _, w) :=
        net_send_to_volume w volume_id POWERFS_NET_MSG_RELEASE_LEASE
          (release_body token token_len client_id) 0 in
      match rpc_status ret with Some e => (e, w) | None => (0, w) end
  end.

(** ** Capability RPCs *)

(** Out-parameters of a grant; [None] is a NULL pointer.  [o_token] holds the
    bytes stored through the token pointer (a NUL follows them). *)
Record grant_out := mk_grant_out {
  o_token : option buffer; o_token_len : option Z; o_cap_set : option Z;
  o_epoch : option Z; o_sn : option Z; o_duration : option Z
}.

(** [if (p) powerfs_tlv_dec_find_*(dec, field, p);] *)
Definition find_into (find : tlv_dec -> Z -> Z * option Z * tlv_dec) (d : tlv_dec) (field : Z)
    (p : option Z) : option Z * tlv_dec :=
  match p with
  | None => (None, d)
  | Some old => let '(_, v, d) := find d field in (Some (default old v), d)
  end.

Definition decode_cap_grant_fields (d : tlv_dec) (o : grant_out) : grant_out * tlv_dec :=
  let '(token, token_len, d) :=
    match o_token o with
    | None => (None, o_token_len o, d)
    | Some old =>
        match powerfs_tlv_dec_find_raw d POWERFS_NET_FLD_LEASE_TOKEN with
        | (0, Some (raw, tlen), d) =>
            let cp := match o_token_len o with
                      | Some n => if n >? 0 then Z.min tlen (n - 1) else tlen
                      | None => tlen
                      end in
            (Some (slice (dec_buf d) raw cp), store_if (o_token_len o) tlen, d)
        | (_, _, d) =>
            match o_token_len o with
            | Some _ => (Some [], Some 0, d)
            | None => (Some old, None, d)
            end
        end
    end in
  let '(cap_set, d) := find_into powerfs_tlv_dec_find_u8 d POWERFS_NET_FLD_CAP_SET (o_cap_set o) in
  let '(epoch, d) := find_into powerfs_tlv_dec_find_u64 d POWERFS_NET_FLD_CAP_EPOCH (o_epoch o) in
  let '(sn, d) := find_into powerfs_tlv_dec_find_u64 d POWERFS_NET_FLD_CAP_SN (o_sn o) in
  let '(duration, d) :=
    find_into powerfs_tlv_dec_find_u64 d POWERFS_NET_FLD_LEASE_DURATION (o_duration o) in
  (mk_grant_out token token_len cap_set epoch sn duration, d).

(** "初始化输出": every output that is not NULL is cleared, the token length
    (which carries the caller's capacity) included. *)
Definition clear_grant (o : grant_out) : grant_out :=
  mk_grant_out (store_if (o_token o) []) (store_if (o_token_len o) 0) (store_if (o_cap_set o) 0)
    (store_if (o_epoch o) 0) (store_if (o_sn o) 0) (store_if (o_duration o) 0).

Definition client_id_bad (client_id : buffer) : bool :=
  (blen client_id =? 0) || (blen client_id >? 255).
Definition token_len_bad (token_len : Z) : bool := (token_len =? 0) || (token_len >? 255).

Definition open_grant_body (ino : Z) (client_id : buffer) (is_write_open : bool) : buffer :=
  request 512 [OpU64 POWERFS_NET_FLD_INO ino; OpString POWERFS_NET_FLD_CLIENT_ID client_id;
               OpU8 POWERFS_NET_FLD_IS_WRITE_OPEN (if is_write_open then 1 else 0)].

(** Decode the response when it is not empty. *)
Definition decode_grant_response (resp : buffer) (o : grant_out) : grant_out :=
  if blen resp >? 0 then fst (decode_cap_grant_fields (powerfs_tlv_dec_init resp (blen resp)) o) else o.

Definition powerfs_net_cap_open_grant (w : W) (ino : Z) (client_id : option buffer)
    (is_write_open : bool) (o : grant_out) : Z * grant_out * W :=
  match client_id with
  | None => (- EINVAL, o, w)
  | Some cid =>
      if client_id_bad cid then (- EINVAL, o, w) else
      if ino =? 0 then (- EINVAL, o, w) else
      let o := clear_grant o in
      if negb (net_kvmalloc w POWERFS_NET_MAX_BODY) then (- ENOMEM, o, w) else
      let '(ret, resp, w) :=
        net_send_request w POWERFS_NET_MSG_CAP_OPEN_GRANT ino
          (open_grant_body ino cid is_write_open) POWERFS_NET_MAX_BODY in
      match rpc_status ret with
      | Some e => (e, o, w)
      | None => (0, decode_grant_response resp o, w)
      end
  end.

Definition ino_client_token (ino : Z) (cid token : buffer) (token_len : Z) : list enc_op :=
  [OpU64 POWERFS_NET_FLD_INO ino; OpString POWERFS_NET_FLD_CLIENT_ID cid;
   OpString POWERFS_NET_FLD_LEASE_TOKEN (take (Z.to_nat token_len) token)].

(** Returns the status and the piggybacked capability set (0 when absent). *)
Definition powerfs_net_cap_recall_ack (w : W) (ino : Z) (client_id token : option buffer)
    (token_len : Z) : Z * Z * W :=
  match client_id, token with
  | Some cid, Some token =>
      if client_id_bad cid || token_len_bad token_len || (ino =? 0) then (- EINVAL, 0, w) else
      let '(ret, resp, w) :=
        net_send_request w POWERFS_NET_MSG_CAP_RECALL_ACK ino
          (request 512 (ino_client_token ino cid token token_len)) 256 in
      match rpc_status ret with
      | Some e => (e, 0, w)
      | None =>
          if blen resp >? 0 then
            match powerfs_tlv_dec_u8 (powerfs_tlv_dec_init resp (blen resp)) POWERFS_NET_FLD_CAP_SET with
            | (0, Some capset, _) => (0, capset, w)
            | _ => (0, 0, w)
            end
          else (0, 0, w)
      end
  | _, _ => (- EINVAL, 0, w)
  end.

(** Returns the status, [has_upgrade] and the upgrade grant. *)
Definition powerfs_net_cap_release (w : W) (ino : Z) (client_id token : option buffer)
    (token_len : Z) (o : grant_out) : Z * Z * grant_out * W :=
  match client_id, token with
  | Some cid, Some token =>
      if client_id_bad cid || token_len_bad token_len || (ino =? 0) then (- EINVAL, 0, o, w) else
      let o := clear_grant o in
      if negb (net_kvmalloc w POWERFS_NET_MAX_BODY) then (- ENOMEM, 0, o, w) else
      let '(ret, resp, w) :=
        net_send_request w POWERFS_NET_MSG_CAP_RELEASE ino
          (request 512 (ino_client_token ino cid token token_len)) POWERFS_NET_MAX_BODY in
      match rpc_status ret with
      | Some e => (e, 0, o, w)
      | None =>
          if blen resp >? 0 then
            let '(_, v, d) := powerfs_tlv_dec_find_u8 (powerfs_tlv_dec_init resp (blen resp))
                                POWERFS_NET_FLD_HAS_UPGRADE in
            let has_upg := default 0 v in
            let o := if negb (has_upg =? 0) then fst (decode_cap_grant_fields d o) else o in
            (0, has_upg, o, w)
          else (0, 0, o, w)
      end
  | _, _ => (- EINVAL, 0, o, w)
  end.

Definition powerfs_net_cap_acquire (w : W) (ino : Z) (client_id token : option buffer)
    (token_len wanted_capset : Z) (o : grant_out) : Z * grant_out * W :=
  match client_id, token with
  | Some cid, Some token =>
      if client_id_bad cid || token_len_bad token_len || (ino =? 0) then (- EINVAL, o, w) else
      let o := clear_grant o in
      if negb (net_kvmalloc w POWERFS_NET_MAX_BODY) then (- ENOMEM, o, w) else
      let '(ret, resp, w) :=
        net_send_request w POWERFS_NET_MSG_CAP_ACQUIRE ino
          (request 512 (ino_client_token ino cid token token_len ++
                        [OpU8 POWERFS_NET_FLD_CAP_SET wanted_capset])) POWERFS_NET_MAX_BODY in
      match rpc_status ret with
      | Some e => (e, o, w)
      | None => (0, decode_grant_response resp o, w)
      end
  | _, _ => (- EINVAL, o, w)
  end.

(** *** Batched release *)

Record batch_entry := mk_batch_entry {
  be_ino : Z; be_token : option buffer; be_token_len : Z; be_capset : Z
}.

(** Validation and size estimate in one loop; [None] is the early
    [-EINVAL].  Each field is counted with a 4-byte header. *)
Fixpoint batch_body_cap (acc : Z) (entries : list batch_entry) : option Z :=
  match entries with
  | [] => Some (u64 (acc + 32))
  | e :: entries =>
      if be_ino e =? 0 then None else
      match be_token e with
      | None => None
      | Some _ =>
          let tl := be_token_len e in
          if token_len_bad tl then None else
          batch_body_cap (u64 (acc + (4 + 8 + 4 + tl + 4 + 1))) entries
      end
  end.

Definition batch_entry_ops (e : batch_entry) : list enc_op :=
  [OpU64 POWERFS_NET_FLD_INO (be_ino e);
   OpString POWERFS_NET_FLD_LEASE_TOKEN (take (Z.to_nat (be_token_len e)) (default [] (be_token e)));
   OpU8 POWERFS_NET_FLD_CAP_SET (be_capset e)].

Definition batch_ops (client_id : buffer) (count : Z) (entries : list batch_entry) : list enc_op :=
  OpString POWERFS_NET_FLD_CLIENT_ID client_id :: OpU64 POWERFS_NET_FLD_LIMIT count ::
  flat_map batch_entry_ops entries.

(** The response loop: stops at the first entry whose inode is missing. *)
Fixpoint batch_decode (j : nat) (n : nat) (d : tlv_dec) (status : list Z) : list Z :=
  match n with
  | O => status
  | S n =>
      match powerfs_tlv_dec_u64 d POWERFS_NET_FLD_INO with
      | (0, _, d) =>
          let '(_, v, d) := powerfs_tlv_dec_u8 d POWERFS_NET_FLD_CAP_SET in
          batch_decode (S j) n d (<[j := default 0 v]> status)
      | _ => status
      end
  end.

Definition powerfs_net_batch_cap_release (w : W) (client_id : option buffer)
    (entries : option (list batch_entry)) (status : list Z) : Z * list Z * W :=
  match client_id, entries with
  | Some cid, Some es =>
      if (length es =? 0)%nat then (- EINVAL, status, w) else
      if client_id_bad cid then (- EINVAL, status, w) else
      match batch_body_cap (blen cid + 4 + 8 + 4) es with
      | None => (- EINVAL, status, w)
      | Some body_cap =>
          if negb (net_kvmalloc w body_cap) then (- ENOMEM, status, w) else
          let body := request body_cap (batch_ops cid (Z.of_nat (length es)) es) in
          if negb (net_kvmalloc w POWERFS_NET_MAX_BODY) then (- ENOMEM, status, w) else
          let '(ret, resp, w) :=
            net_send_request w POWERFS_NET_MSG_BATCH_CAP_RELEASE
              (default 0 (be_ino <$> head es)) body POWERFS_NET_MAX_BODY in
          match rpc_status ret with
          | Some e => (e, status, w)
          | None =>
              let status :=
                if blen resp >? 0 then
                  let '(_, _, d) := powerfs_tlv_dec_u64 (powerfs_tlv_dec_init resp (blen resp))
                                      POWERFS_NET_FLD_LIMIT in
                  batch_decode 0 (length es) d status
                else status in
              (0, status, w)
          end
      end
  | _, _ => (- EINVAL, status, w)
  end.

(** *** POSIX locks *)

Definition file_lock_body (ino : Z) (client_id : buffer) (lock_mode wait : Z) : buffer :=
  request (64 + blen client_id + 32)
    [OpU64 POWERFS_NET_FLD_INO ino; OpString POWERFS_NET_FLD_CLIENT_ID client_id;
     OpU8 POWERFS_NET_FLD_IS_WRITE_OPEN lock_mode; OpU8 POWERFS_NET_FLD_HAS_UPGRADE wait].

(** The two reads share the variable [resp_granted]. *)
Definition powerfs_net_file_lock_request (w : W) (ino : Z) (client_id : buffer) (lock_mode wait : Z)
  : Z * Z * W :=
  if negb (net_kvmalloc w (64 + blen client_id + 32)) then (- ENOMEM, 0, w) else
  if negb (net_kvmalloc w POWERFS_NET_MAX_BODY) then (- ENOMEM, 0, w) else
  let '(ret, resp, w) :=
    net_send_request w POWERFS_NET_MSG_FILE_LOCK_REQUEST ino
      (file_lock_body ino client_id lock_mode wait) POWERFS_NET_MAX_BODY in
  match rpc_status ret with
  | Some e => (e, 0, w)
  | None =>
      let '(_, v, d) := powerfs_tlv_dec_u8 (powerfs_tlv_dec_init resp (blen resp))
                          POWERFS_NET_FLD_IS_WRITE_OPEN in
      let resp_granted := default 0 v in
      let '(_, v, _) := powerfs_tlv_dec_u8 d POWERFS_NET_FLD_HAS_UPGRADE in
      (0, default resp_granted v, w)
  end.
End rpcs.

(** ** Notification bodies *)

(** [*p] is kept when the field is absent. *)
Definition find_keep (find : tlv_dec -> Z -> Z * option Z * tlv_dec) (d : tlv_dec) (field old : Z)
  : Z * tlv_dec :=
  let '(_, v, d) := find d field in (default old v, d).

(** The token block shared by both notification decoders: stored bytes and
    reported length. *)
Definition find_token (d : tlv_dec) (token_cap : Z) : buffer * Z * tlv_dec :=
  match powerfs_tlv_dec_find_raw d POWERFS_NET_FLD_LEASE_TOKEN with
  | (0, Some (raw, tlen), d) =>
      if token_cap >? 0 then (slice (dec_buf d) raw (Z.min tlen (token_cap - 1)), tlen, d)
      else ([], 0, d)
  | (_, _, d) => ([], 0, d)
  end.

Record recall_out := mk_recall_out {
  r_ino : Z; r_token : buffer; r_token_len : Z; r_recall_mask : Z; r_retain_mask : Z; r_epoch : Z
}.

Definition decode_cap_recall_body (body : option buffer) (token_cap : Z) (o : recall_out)
  : Z * recall_out :=
  match body with
  | None | Some [] => (- EINVAL, o)
  | Some body =>
      let d := powerfs_tlv_dec_init body (blen body) in
      let '(ino, d) := find_keep powerfs_tlv_dec_find_u64 d POWERFS_NET_FLD_INO (r_ino o) in
      let '(token, tlen, d) := find_token d token_cap in
      let '(recall, d) := find_keep powerfs_tlv_dec_find_u8 d POWERFS_NET_FLD_CAP_SET (r_recall_mask o) in
      let '(packed, d) := find_keep powerfs_tlv_dec_find_u8 d POWERFS_NET_FLD_IS_WRITE_OPEN 0 in
      let retain := Z.land (Z.shiftr packed 4) 0x0F in
      let '(epoch, _) := find_keep powerfs_tlv_dec_find_u64 d POWERFS_NET_FLD_CAP_EPOCH (r_epoch o) in
      (0, mk_recall_out ino token tlen recall retain epoch)
  end.

Record upgrade_out := mk_upgrade_out {
  u_ino : Z; u_token : buffer; u_token_len : Z; u_granted : Z; u_epoch : Z; u_sn : Z
}.

Definition decode_cap_upgrade_body (body : option buffer) (token_cap : Z) (o : upgrade_out)
  : Z * upgrade_out :=
  match body with
  | None | Some [] => (- EINVAL, o)
  | Some body =>
      let d := powerfs_tlv_dec_init body (blen body) in
      let '(ino, d) := find_keep powerfs_tlv_dec_find_u64 d POWERFS_NET_FLD_INO (u_ino o) in
      let '(token, tlen, d) := find_token d token_cap in
      let '(granted, d) := find_keep powerfs_tlv_dec_find_u8 d POWERFS_NET_FLD_CAP_SET (u_granted o) in
      let '(epoch, d) := find_keep powerfs_tlv_dec_find_u64 d POWERFS_NET_FLD_CAP_EPOCH (u_epoch o) in
      let '(sn, _) := find_keep powerfs_tlv_dec_find_u64 d POWERFS_NET_FLD_CAP_SN (u_sn o) in
      (0, mk_upgrade_out ino token tlen granted epoch sn)
  end.

(** ** Requests *)

Lemma request_fit cap os :
  Forall op_ok os -> blen (ops_message os) <= cap < 2 ^ 63 -> request cap os = ops_message os.
Proof.
  intros Hos Hc. unfold request. pose proof (blen_nonneg (ops_message os)).
  set (buf := replicate (Z.to_nat cap) 0).
  assert (Hb : blen buf = cap) by (unfold buf, blen; rewrite length_replicate; lia).
  rewrite <- Hb.
  destruct (run_ops_fit os (powerfs_tlv_enc_init buf (blen buf))) as (e & Hrun & _ & Hw & _).
  - apply enc_init_wf. lia.
  - done.
  - unfold enc_room; simpl. lia.
  - by rewrite (enc_seq_run_ops _ _ _ Hrun), Hw.
Qed.

Lemma request_bounded cap os : Forall op_ok os -> 0 <= cap < 2 ^ 63 -> blen (request cap os) <= cap.
Proof.
  intros Hos Hc. unfold request. set (buf := replicate (Z.to_nat cap) 0).
  assert (Hb : blen buf = cap) by (unfold buf, blen; rewrite length_replicate; lia).
  destruct (enc_seq_wf os (powerfs_tlv_enc_init buf (blen buf))) as [Hw Hcap]; [apply enc_init_wf; lia|done|].
  rewrite <- Hb at 1. rewrite blen_written by done. destruct Hw as (Hl & _).
  rewrite Hcap in Hl. simpl in Hl. lia.
Qed.

Lemma message_reads_back os :
  Forall op_ok os -> blen (ops_message os) < 2 ^ 63 ->
  reads_back (powerfs_tlv_dec_init (ops_message os) (blen (ops_message os))) os.
Proof. intros Hos Hb. apply (reads_back_message os []); simpl; auto. by constructor. Qed.

Lemma blen_ops_message_cons o os :
  blen (ops_message (o :: os)) = 5 + blen (snd (op_field o)) + blen (ops_message os).
Proof.
  unfold ops_message. rewrite fmap_cons. destruct (op_field o) as [f v].
  rewrite tlv_message_cons, blen_app, blen_tlv_field. simpl. lia.
Qed.
Lemma blen_ops_message_nil : blen (ops_message []) = 0.
Proof. done. Qed.

#[export] Hint Rewrite blen_ops_message_cons blen_ops_message_nil : pfs.

Lemma blen_take n (b : buffer) : blen (take (Z.to_nat n) b) <= Z.max 0 n.
Proof. unfold blen. rewrite length_take. lia. Qed.

Lemma bytes_ok_take n b : bytes_ok b -> bytes_ok (take n b).
Proof. apply Forall_take. Qed.
#[export] Hint Resolve bytes_ok_take : pfs.

Lemma kernel_client_ok : bytes_ok kernel_client.
Proof. unfold bytes_ok, kernel_client. split_forall; lia. Qed.

Lemma client_or_default_ok cid :
  (forall s, cid = Some s -> bytes_ok s /\ blen s <= 255) ->
  bytes_ok (client_or_default cid) /\ blen (client_or_default cid) <= 255.
Proof.
  intros H. destruct cid as [[|x s]|]; [|by apply H|]; (split; [apply kernel_client_ok|by vm_compute]).
Qed.

(** A request that fits is read back by the peer in order. *)
Lemma request_readable cap os :
  Forall op_ok os -> blen (ops_message os) <= cap < 2 ^ 63 ->
  reads_back (powerfs_tlv_dec_init (request cap os) (blen (request cap os))) os.
Proof. intros Hos Hc. rewrite request_fit by done. apply message_reads_back; [done|lia]. Qed.

(** Discharge [op_ok] for a concrete list of operations. *)
Ltac ops_ok :=
  split_forall; cbn [op_ok]; split_and?;
  match goal with
  | |- is_u8 _ => first [assumption | unfold is_u8; vm_compute; split; congruence | unfold is_u8 in *; lia]
  | |- bytes_ok _ => auto with pfs
  | |- blen _ <= _ => unfold POWERFS_NET_MAX_TLV; lia
  | |- _ => first [assumption | unfold is_u64; vm_compute; split; congruence]
  end.

(** *** Batched release *)

Lemma ops_message_app os os' : ops_message (os ++ os') = ops_message os ++ ops_message os'.
Proof. unfold ops_message. by rewrite fmap_app, tlv_message_app. Qed.

Definition entry_ok (e : batch_entry) : Prop :=
  is_u64 (be_ino e) /\ be_ino e <> 0 /\ is_u8 (be_capset e) /\
  exists t, be_token e = Some t /\ bytes_ok t /\ 0 < be_token_len e <= 255 /\ be_token_len e <= blen t.

Definition total_token_len (es : list batch_entry) : Z := foldr (fun e n => be_token_len e + n) 0 es.

Lemma batch_entry_message e : entry_ok e -> blen (ops_message (batch_entry_ops e)) = 24 + be_token_len e.
Proof.
  intros (_ & _ & _ & t & Ht & _ & Hl & Htl). unfold batch_entry_ops. rewrite Ht.
  autorewrite with pfs. cbn [op_field snd]. autorewrite with pfs. simpl default.
  unfold blen in *. rewrite length_take. simpl Z.of_nat. lia.
Qed.

Lemma batch_entry_ops_ok e : entry_ok e -> Forall op_ok (batch_entry_ops e).
Proof.
  intros (Hi & _ & Hcs & t & Ht & Hb & Hl & Htl). unfold batch_entry_ops. rewrite Ht; simpl.
  pose proof (blen_take (be_token_len e) t). ops_ok.
Qed.

Lemma batch_message es :
  Forall entry_ok es ->
  Forall op_ok (flat_map batch_entry_ops es) /\
  blen (ops_message (flat_map batch_entry_ops es)) = 24 * Z.of_nat (length es) + total_token_len es.
Proof.
  induction 1 as [|e es He Hes [IH1 IH2]]; cbn [flat_map]; [split; [constructor|done]|].
  split; [apply Forall_app; auto using batch_entry_ops_ok|].
  rewrite ops_message_app, blen_app, IH2, batch_entry_message by done. simpl. lia.
Qed.

Lemma total_token_len_bound es : Forall entry_ok es -> 0 <= total_token_len es <= 255 * Z.of_nat (length es).
Proof.
  induction 1 as [|e es (_ & _ & _ & t & _ & _ & Hl & _) Hes IH]; [simpl; lia|].
  cbn [total_token_len foldr length]. fold (total_token_len es). lia.
Qed.

Lemma batch_body_cap_spec es acc :
  Forall entry_ok es -> 0 <= acc < 2 ^ 40 -> Z.of_nat (length es) < 2 ^ 32 ->
  batch_body_cap acc es = Some (acc + 21 * Z.of_nat (length es) + total_token_len es + 32).
Proof.
  intros Hes Ha Hlen.
  assert (H : forall acc, 0 <= acc -> acc + 276 * Z.of_nat (length es) < 2 ^ 63 ->
    batch_body_cap acc es = Some (acc + 21 * Z.of_nat (length es) + total_token_len es + 32)); [|apply H; lia].
  clear acc Ha. induction Hes as [|e es He Hes IH]; intros acc Ha Hb; cbn [batch_body_cap].
  - rewrite u64_small by (cbn [length] in Hb; lia). f_equal. simpl. lia.
  - pose proof He as (_ & Hi & _ & t & Ht & _ & Hl & _). rewrite Ht.
    cbn [length] in Hb, Hlen. destruct (Z.eqb_spec (be_ino e) 0); [done|]. unfold token_len_bad.
    destruct (Z.eqb_spec (be_token_len e) 0); [lia|]. destruct (Z.gtb_spec (be_token_len e) 255); [lia|]. simpl orb.
    cbv iota. rewrite u64_small by lia. rewrite IH by lia. f_equal.
    cbn [total_token_len foldr length]. fold (total_token_len es). lia.
Qed.

(** ** Theorems *)

Lemma net_status_to_errno_neg s : 0 < s -> net_status_to_errno s < 0.
Proof. destruct s as [|p|p]; try lia. intros _. do 4 (destruct p; try (vm_compute; reflexivity)). Qed.

Lemma rpc_status_neg ret e : ret < 2 ^ 16 -> rpc_status ret = Some e -> e < 0.
Proof.
  intros Hr. unfold rpc_status. case_if; [intros [= ->]; lia|]. case_if; [|done]. intros [= <-].
  apply net_status_to_errno_neg. rewrite u16_small by lia. lia.
Qed.

Definition readable (body : buffer) (os : list enc_op) : Prop :=
  reads_back (powerfs_tlv_dec_init body (blen body)) os.

Section theorems.
Context `{KT : KernelTime} {W : Type} `{NT : !NetTransport W}.

Lemma token_field_bound n (t : buffer) : 0 < n <= 255 -> 0 <= blen (take (Z.to_nat n) t) <= n.
Proof. intros. pose proof (blen_take n t). pose proof (blen_nonneg (take (Z.to_nat n) t)). lia. Qed.

(** Requests on the wire: with a client id and token of admissible size
    whose sum is at most 480, every lease and capability request fits its
    512-byte buffer and a peer that decodes in order reads back exactly the
    fields the protocol lists (inode, range, client id, mode and duration for
    an acquire; token, client id and duration for a renewal; and so on). *)
Theorem rpc_requests_readable (ino start count wanted token_len : Z) (cid token : buffer) (wr : bool) :
  is_u64 ino -> is_u64 start -> is_u64 count -> is_u8 wanted ->
  bytes_ok cid -> 0 < blen cid <= 255 -> bytes_ok token -> 0 < token_len <= 255 ->
  blen cid + token_len <= 480 -> is_u64 (jiffies_to_msecs POWERFS_LEASE_DURATION) ->
  let t := take (Z.to_nat token_len) token in
  let dur := OpU64 POWERFS_NET_FLD_LEASE_DURATION (jiffies_to_msecs POWERFS_LEASE_DURATION) in
  readable (acquire_body ino start count (Some cid))
    [OpU64 POWERFS_NET_FLD_INO ino; OpU64 POWERFS_NET_FLD_OFFSET start; OpU64 POWERFS_NET_FLD_LIMIT count;
     OpString POWERFS_NET_FLD_CLIENT_ID cid; OpU64 POWERFS_NET_FLD_MODE 1; dur] /\
  readable (renew_body token token_len)
    [OpString POWERFS_NET_FLD_LEASE_TOKEN t; OpString POWERFS_NET_FLD_CLIENT_ID kernel_client; dur] /\
  readable (release_body token token_len (Some cid))
    [OpString POWERFS_NET_FLD_LEASE_TOKEN t; OpString POWERFS_NET_FLD_CLIENT_ID cid] /\
  readable (open_grant_body ino cid wr)
    [OpU64 POWERFS_NET_FLD_INO ino; OpString POWERFS_NET_FLD_CLIENT_ID cid;
     OpU8 POWERFS_NET_FLD_IS_WRITE_OPEN (if wr then 1 else 0)] /\
  readable (request 512 (ino_client_token ino cid token token_len ++ [OpU8 POWERFS_NET_FLD_CAP_SET wanted]))
    [OpU64 POWERFS_NET_FLD_INO ino; OpString POWERFS_NET_FLD_CLIENT_ID cid;
     OpString POWERFS_NET_FLD_LEASE_TOKEN t; OpU8 POWERFS_NET_FLD_CAP_SET wanted].
Proof.
  intros Hi Hs Hct Hw Hcid Hcl Htok Htl Hsum Hj t dur.
  pose proof (token_field_bound token_len token Htl) as Ht. fold t in Ht.
  pose proof kernel_client_ok as Hkc. assert (Hkl : blen kernel_client = 13) by reflexivity.
  assert (Hcd : client_or_default (Some cid) = cid) by (destruct cid; [rewrite blen_nil in Hcl; lia|done]).
  assert (Htb : bytes_ok t) by (apply bytes_ok_take; done).
  assert (Hwr : is_u8 (if wr then 1 else 0)) by (destruct wr; unfold is_u8; lia).
  unfold acquire_body, renew_body, release_body, open_grant_body, readable. rewrite Hcd. fold t dur.
  unfold ino_client_token; cbn [app]; fold t.
  split_and!; (apply request_readable;
    [unfold dur; ops_ok
    |unfold dur; autorewrite with pfs; cbn [op_field snd]; autorewrite with pfs; simpl Z.of_nat; lia]).
Qed.

(** The first field of a response decides what an in-order read returns. *)
Lemma dec_string_first d f n s d' :
  powerfs_tlv_dec_string d f n = (0, Some s, d') -> byte_at (dec_buf d) (dec_pos d) = f.
Proof.
  unfold powerfs_tlv_dec_string, powerfs_tlv_dec_read.
  repeat case_if; try done.
Qed.

Lemma dec_u64_other d f : byte_at (dec_buf d) (dec_pos d) <> f -> snd (fst (powerfs_tlv_dec_u64 d f)) = None.
Proof.
  intros Hne. unfold powerfs_tlv_dec_u64, powerfs_tlv_dec_read. repeat case_if; try done; congruence.
Qed.

(** The expiry used when no duration was read. *)
Definition default_expire (now : Z) : Z :=
  u64 (now + msecs_to_jiffies (u32 (u32 (jiffies_to_msecs POWERFS_LEASE_DURATION / 1000) * 1000))).

(** Defect: the answer to an acquire is only used for its token.  The
    decoder is restarted before each further field and reads only the first
    one, which is the lease id; so after every successful call the epoch and
    the content size still hold the caller's initial values and the expiry is
    the default duration, whatever the server sent. *)
Theorem acquire_lease_reply_ignored `{!NetTransportOk W} (w w' : W) (vol ino start count : Z)
    (cid : option buffer) (out out' : acquire_out) :
  powerfs_net_acquire_lease w vol ino start count cid out = (0, out', w') ->
  ao_epoch out' = ao_epoch out /\ ao_content_size out' = ao_content_size out /\
  ao_expire out' = default_expire (net_jiffies w').
Proof.
  unfold powerfs_net_acquire_lease. case_if; [intros [= ]|].
  destruct (net_send_to_volume _ _ _ _ _) as [[ret resp] w1] eqn:Es.
  apply volume_response_ok in Es as (Hret & _); [|lia].
  destruct (rpc_status ret) as [e|] eqn:Er.
  { apply rpc_status_neg in Er; [|done]. intros [= -> -> ->]. lia. }
  set (d := powerfs_tlv_dec_init resp (blen resp)).
  destruct (powerfs_tlv_dec_string d POWERFS_NET_FLD_LEASE_ID (ao_token_len out))
    as [[r [token|]] d'] eqn:Ed; [|by destruct r].
  destruct r; try by intros [= ]. apply dec_string_first in Ed. intros [= <- <-]; cbn.
  unfold first_u64, lease_expire, default_expire. fold d.
  pose proof (dec_u64_other d POWERFS_NET_FLD_LEASE_EPOCH) as H1.
  pose proof (dec_u64_other d POWERFS_NET_FLD_CONTENT_SIZE) as H2.
  pose proof (dec_u64_other d POWERFS_NET_FLD_LEASE_DURATION) as H3.
  rewrite Ed in H1, H2, H3.
  destruct (powerfs_tlv_dec_u64 d POWERFS_NET_FLD_LEASE_EPOCH) as [[? v1] ?].
  destruct (powerfs_tlv_dec_u64 d POWERFS_NET_FLD_CONTENT_SIZE) as [[? v2] ?].
  destruct (powerfs_tlv_dec_u64 d POWERFS_NET_FLD_LEASE_DURATION) as [[? v3] ?].
  cbn [fst snd] in *. rewrite H1, H2, H3 by discriminate. done.
Qed.

(** Reading the leading u64 of a message. *)
Lemma first_u64_message f v os :
  is_u8 f -> is_u64 v -> Forall op_ok os -> blen (ops_message (OpU64 f v :: os)) < 2 ^ 63 ->
  let m := ops_message (OpU64 f v :: os) in
  exists d, powerfs_tlv_dec_u64 (powerfs_tlv_dec_init m (blen m)) f = (0, Some v, d).
Proof.
  intros Hf Hv Hos Hb m. eexists.
  pose proof (tlv_message_ok _ (ops_fields_ok os Hos)) as Hpost. fold (ops_message os) in Hpost.
  apply (dec_u64_field [] (ops_message os) f ltac:(by constructor) Hpost Hf v Hv).
  exact Hb.
Qed.

(** Renewal: when the volume server answers with a duration of [D]
    milliseconds as its first field (any fields may follow), the lease is
    extended to now plus [D] rounded down to whole seconds; invalid tokens are
    rejected without a request; any transport error or protocol status is
    returned as a negative errno and yields no new expiry. *)
Theorem renew_lease_outcome `{!NetTransportOk W} (w : W) (vol ino token_len : Z) (token : buffer)
    (ret : Z) (resp : buffer) (w1 : W) :
  net_send_to_volume w vol POWERFS_NET_MSG_RENEW_LEASE (renew_body token token_len) 128 = (ret, resp, w1) ->
  let r := powerfs_net_renew_lease w vol ino (Some token) token_len in
  (~ 0 < token_len < 64 -> 0 <= token_len -> r = (- EINVAL, None, w)) /\
  (0 < token_len < 64 -> ret <> 0 -> exists e, e < 0 /\ r = (e, None, w1)) /\
  (0 < token_len < 64 -> ret = 0 -> forall D os,
     0 < D < 2 ^ 32 -> Forall op_ok os ->
     resp = ops_message (OpU64 POWERFS_NET_FLD_LEASE_DURATION D :: os) ->
     r = (0, Some (u64 (net_jiffies w1 + msecs_to_jiffies (D / 1000 * 1000))), w1)).
Proof.
  intros Hs r. pose proof (volume_response_ok _ _ _ _ 128 _ _ _ ltac:(lia) Hs) as (Hret & Hrb & Hrl).
  unfold r, powerfs_net_renew_lease. rewrite Hs.
  split_and!; intros Hv.
  - intros H0. rewrite Z.geb_leb. destruct (Z.eqb_spec token_len 0); [done|].
    destruct (Z.leb_spec 64 token_len); [done|lia].
  - intros Hne. rewrite Z.geb_leb. destruct (Z.eqb_spec token_len 0); [lia|].
    destruct (Z.leb_spec 64 token_len); [lia|]. cbn [orb].
    destruct (rpc_status ret) as [e|] eqn:Er; [exists e; split; [by apply (rpc_status_neg ret)|done]|].
    unfold rpc_status in Er. case_if_in Er; [done|]. case_if_in Er; [done|]. lia.
  - intros -> D os HD Hos ->. rewrite Z.geb_leb. destruct (Z.eqb_spec token_len 0); [lia|].
    destruct (Z.leb_spec 64 token_len); [lia|]. cbn [orb rpc_status Z.ltb Z.gtb Z.compare].
    unfold lease_expire.
    destruct (first_u64_message POWERFS_NET_FLD_LEASE_DURATION D os) as [d ->];
      [unfold is_u8; vm_compute; split; congruence|unfold is_u64; lia|done|lia|].
    cbn [default]; unfold id. destruct (Z.gtb_spec D 0); [|lia].
    pose proof (Z.mul_div_le D 1000 ltac:(lia)). pose proof (Z.div_pos D 1000 ltac:(lia) ltac:(lia)).
    rewrite (u32_small (D / 1000)), (u32_small (D / 1000 * 1000)) by lia. reflexivity.
Qed.

(** Defect: the batched release sizes its body with 4-byte field headers
    where the codec writes 5.  Up to ten entries the 32 spare bytes cover the
    difference and the peer reads the batch back in order; from eleven entries
    on the body is shorter than the batch, and the missing fields are dropped
    without an error. *)
Theorem batch_release_body (cid : buffer) (es : list batch_entry) :
  bytes_ok cid -> 0 < blen cid <= 255 -> Forall entry_ok es -> Z.of_nat (length es) < 2 ^ 32 ->
  exists body_cap, batch_body_cap (blen cid + 4 + 8 + 4) es = Some body_cap /\
    let os := batch_ops cid (Z.of_nat (length es)) es in
    let body := request body_cap os in
    ((length es <= 10)%nat -> readable body os) /\
    ((11 <= length es)%nat -> blen body < blen (ops_message os)).
Proof.
  intros Hcid Hcl Hes Hlen. eexists. split; [apply batch_body_cap_spec; (done || lia)|]. cbv zeta.
  destruct (batch_message es Hes) as [Hok Hbl]. pose proof (total_token_len_bound es Hes).
  assert (Hops : Forall op_ok (batch_ops cid (Z.of_nat (length es)) es)).
  { unfold batch_ops. constructor; [|constructor; [|done]]; cbn [op_ok];
      unfold is_u8, is_u64, POWERFS_NET_MAX_TLV; split_and!; auto; try lia; vm_compute; congruence. }
  assert (Hml : blen (ops_message (batch_ops cid (Z.of_nat (length es)) es)) =
    18 + blen cid + 24 * Z.of_nat (length es) + total_token_len es).
  { unfold batch_ops. rewrite !blen_ops_message_cons, Hbl. cbn [op_field snd].
    rewrite blen_le_split. simpl Z.of_nat. lia. }
  split; intros Hn.
  - apply request_readable; [done|]. rewrite Hml. lia.
  - eapply Z.le_lt_trans; [apply request_bounded; [done|lia]|]. rewrite Hml. lia.
Qed.

(** Defect: the bound on the token is lost.  [powerfs_net_cap_open_grant]
    clears [*token_len_out] before decoding, and the decoder takes the clipped
    length from that same variable only when it is positive; so a token of any
    length is stored in full, whatever capacity the caller announced. *)
Theorem open_grant_token_unbounded (w : W) (ino : Z) (cid : buffer) (wr : bool)
    (o : grant_out) (old token : buffer) (token_cap : Z) (os : list enc_op) (w1 : W) :
  0 < blen cid <= 255 -> ino <> 0 -> net_kvmalloc w POWERFS_NET_MAX_BODY = true ->
  o_token o = Some old -> o_token_len o = Some token_cap ->
  Forall op_ok os -> 0 < blen (ops_message os) < 2 ^ 63 ->
  lookup_field (fun f _ => f =? POWERFS_NET_FLD_LEASE_TOKEN) (op_field <$> os) = Some token ->
  net_send_request w POWERFS_NET_MSG_CAP_OPEN_GRANT ino (open_grant_body ino cid wr)
    POWERFS_NET_MAX_BODY = (0, ops_message os, w1) ->
  exists o', powerfs_net_cap_open_grant w ino (Some cid) wr o = (0, o', w1) /\
    o_token o' = Some token /\ o_token_len o' = Some (blen token).
Proof.
  intros Hcl Hi Hkv Ho Hol Hos Hb Hlk Hs. unfold powerfs_net_cap_open_grant, client_id_bad.
  destruct (Z.eqb_spec (blen cid) 0); [lia|]. destruct (Z.gtb_spec (blen cid) 255); [lia|].
  destruct (Z.eqb_spec ino 0); [done|]. rewrite Hkv, Hs. cbn [orb negb rpc_status Z.ltb Z.gtb Z.compare].
  eexists. split; [reflexivity|]. unfold decode_grant_response.
  destruct (Z.gtb_spec (blen (ops_message os)) 0); [|lia].
  unfold decode_cap_grant_fields, clear_grant; cbn [o_token o_token_len]. rewrite Ho, Hol. cbn [store_if].
  pose proof (ops_fields_ok os Hos) as Hfs.
  destruct (find_raw_over (op_field <$> os) Hfs (proj2 Hb)
    (powerfs_tlv_dec_init (ops_message os) (blen (ops_message os))) POWERFS_NET_FLD_LEASE_TOKEN token
    (dec_init_over_message _) Hlk) as (p & d & -> & _ & Hsl).
  cbn [Z.gtb Z.compare]. specialize (Hsl (blen token)). rewrite Z.min_id, take_blen in Hsl. rewrite Hsl.
  repeat match goal with |- context [find_into ?f ?d ?k ?p] => destruct (find_into f d k p) end.
  done.
Qed.
End theorems.

(** Recall notifications: the body the filer sends (inode, token, recall
    mask, the byte that packs the low nibble of the recall mask with the
    retained set in its high nibble, epoch) is decoded to those values: the
    retained set is the high nibble, and the stored token is clipped to the
    caller's capacity while its full length is reported. *)
Theorem recall_body_decoded (ino recall retain epoch token_cap : Z) (token : buffer) (o : recall_out) :
  is_u64 ino -> is_u64 epoch -> is_u8 recall -> 0 <= retain < 16 -> 0 < token_cap ->
  bytes_ok token -> blen token <= POWERFS_NET_MAX_TLV ->
  decode_cap_recall_body
    (Some (ops_message [OpU64 POWERFS_NET_FLD_INO ino; OpString POWERFS_NET_FLD_LEASE_TOKEN token;
                        OpU8 POWERFS_NET_FLD_CAP_SET recall;
                        OpU8 POWERFS_NET_FLD_IS_WRITE_OPEN (Z.lor (Z.land recall 15) (Z.shiftl retain 4));
                        OpU64 POWERFS_NET_FLD_CAP_EPOCH epoch])) token_cap o =
  (0, mk_recall_out ino (take (Z.to_nat (token_cap - 1)) token) (blen token) recall retain epoch).
Proof.
  intros Hi He Hr Ht Hcap Htok Htl.
  set (packed := Z.lor _ _). set (os := [_; _; _; _; _]).
  assert (Hnib : 0 <= Z.land recall 15 < 2 ^ 4).
  { change 15 with (Z.ones 4). rewrite Z.land_ones by lia. apply Z.mod_pos_bound. lia. }
  assert (Hpk : packed = Z.land recall 15 + retain * 16) by (apply lor_disjoint_add; lia).
  assert (Hp8 : is_u8 packed) by (unfold is_u8; lia).
  assert (Hret : Z.land (Z.shiftr packed 4) 15 = retain).
  { rewrite Z.shiftr_div_pow2, Hpk by lia. change 15 with (Z.ones 4) at 2. rewrite Z.land_ones by lia.
    change (2 ^ 4) with 16 in *. rewrite Z.div_add by lia. rewrite Z.div_small by lia.
    apply Z.mod_small. lia. }
  assert (Hos : Forall op_ok os) by (unfold os; ops_ok).
  pose proof (ops_fields_ok os Hos) as Hfs.
  assert (Hb : blen (tlv_message (op_field <$> os)) < 2 ^ 63).
  { change (tlv_message (op_field <$> os)) with (ops_message os). unfold os.
    rewrite !blen_ops_message_cons, blen_ops_message_nil. cbn [op_field snd]. rewrite !blen_le_split.
    unfold POWERFS_NET_MAX_TLV in Htl. simpl Z.of_nat. lia. }
  unfold decode_cap_recall_body. change (ops_message os) with (tlv_message (op_field <$> os)).
  destruct (tlv_message (op_field <$> os)) as [|b0 bs] eqn:Em; [done|]. rewrite <- Em in *. clear Em b0 bs.
  unfold find_keep, find_token.
  destruct (find_u64_over _ Hfs Hb _ POWERFS_NET_FLD_INO (dec_init_over_message _)) as (? & d1 & -> & H1).
  destruct (find_raw_over _ Hfs Hb _ POWERFS_NET_FLD_LEASE_TOKEN token H1) as (p & d2 & -> & H2 & Hsl);
    [reflexivity|].
  destruct (Z.gtb_spec token_cap 0); [|lia].
  destruct (find_u8_over _ Hfs Hb _ POWERFS_NET_FLD_CAP_SET H2) as (? & d3 & -> & H3).
  destruct (find_u8_over _ Hfs Hb _ POWERFS_NET_FLD_IS_WRITE_OPEN H3) as (? & d4 & -> & H4).
  destruct (find_u64_over _ Hfs Hb _ POWERFS_NET_FLD_CAP_EPOCH H4) as (? & d5 & -> & H5).
  rewrite Hsl.
  change (field_value (op_field <$> os) 8 POWERFS_NET_FLD_INO) with (Some (le_combine (le_split 8 ino))).
  change (field_value (op_field <$> os) 1 POWERFS_NET_FLD_CAP_SET) with (Some (le_combine (le_split 1 recall))).
  change (field_value (op_field <$> os) 1 POWERFS_NET_FLD_IS_WRITE_OPEN) with (Some (le_combine (le_split 1 packed))).
  change (field_value (op_field <$> os) 8 POWERFS_NET_FLD_CAP_EPOCH) with (Some (le_combine (le_split 8 epoch))).
  rewrite !le_combine_split_small by (unfold is_u64, is_u8 in *; simpl; lia). cbn [default].
  unfold id. by rewrite Hret.
Qed.

(** ** Witnesses

    A transport that gives the same canned answer to every request, at
    1000 ticks per second. *)

Module Canned.
#[local] Instance time : KernelTime :=
  {| HZ := 1000; jiffies_to_msecs := fun j => j; msecs_to_jiffies := fun m => m |}.

Definition world : Type := Z * buffer.

Definition answer (w : world) (cap : Z) : Z * buffer * world :=
  (Z.min (fst w) 65535, u8 <$> take (Z.to_nat cap) (snd w), w).

#[local] Instance transport : NetTransport world :=
  {| net_jiffies := fun _ => 5000; net_kvmalloc := fun _ _ => true;
     net_send_to_volume := fun w _ _ _ cap => answer w cap;
     net_send_request := fun w _ _ _ cap => answer w cap |}.

Lemma answer_ok w cap ret resp w' :
  0 <= cap -> answer w cap = (ret, resp, w') -> ret < 2 ^ 16 /\ bytes_ok resp /\ blen resp <= cap.
Proof.
  intros Hc [= <- <- <-]. split_and!; [lia| |].
  - apply Forall_fmap, Forall_forall. intros x _. apply u8_range.
  - unfold blen. rewrite length_fmap, length_take. lia.
Qed.

#[local] Instance transport_ok : NetTransportOk world.
Proof.
  split.
  - intros w vol msg body cap ret resp w' Hc H. exact (answer_ok w cap ret resp w' Hc H).
  - intros w msg ino body cap ret resp w' Hc H. exact (answer_ok w cap ret resp w' Hc H).
Qed.

Definition abc : buffer := [97; 98; 99].
Lemma abc_ok : bytes_ok abc.
Proof. unfold bytes_ok, abc. split_forall; lia. Qed.

Lemma rpc_requests_readable_witness :
  readable (renew_body abc 3)
    [OpString POWERFS_NET_FLD_LEASE_TOKEN abc; OpString POWERFS_NET_FLD_CLIENT_ID kernel_client;
     OpU64 POWERFS_NET_FLD_LEASE_DURATION 30000].
Proof.
  destruct (rpc_requests_readable 1 0 1 3 3 abc abc true) as (_ & H & _);
    [vm_compute; split; congruence..|exact abc_ok|vm_compute; split; congruence|exact abc_ok
    |vm_compute; split; congruence|vm_compute; congruence|vm_compute; split; congruence|].
  exact H.
Defined.

(** The server sent epoch 7 and size 9; the caller sees neither. *)
Definition acquire_world : world :=
  (0, ops_message [OpString POWERFS_NET_FLD_LEASE_ID abc;
                   OpU64 POWERFS_NET_FLD_LEASE_EPOCH 7; OpU64 POWERFS_NET_FLD_CONTENT_SIZE 9]).
Definition acquire_in : acquire_out := mk_acquire_out [] 64 0 0 0.
Definition acquire_result : acquire_out := mk_acquire_out abc 3 0 0 35000.

Lemma acquire_run :
  powerfs_net_acquire_lease acquire_world 1 2 0 1 None acquire_in = (0, acquire_result, acquire_world).
Proof. vm_compute. reflexivity. Qed.

Lemma acquire_lease_reply_ignored_witness :
  powerfs_net_acquire_lease acquire_world 1 2 0 1 None acquire_in = (0, acquire_result, acquire_world) /\
  ao_epoch acquire_result = 0 /\ ao_content_size acquire_result = 0.
Proof.
  split; [exact acquire_run|].
  destruct (acquire_lease_reply_ignored acquire_world acquire_world 1 2 0 1 None acquire_in
    acquire_result acquire_run) as (H1 & H2 & _).
  split; [exact H1|exact H2].
Defined.

Definition renew_world : world := (0, ops_message [OpU64 POWERFS_NET_FLD_LEASE_DURATION 12345]).

Lemma renew_send :
  net_send_to_volume renew_world 1 POWERFS_NET_MSG_RENEW_LEASE (renew_body abc 3) 128 =
    (0, snd renew_world, renew_world).
Proof. vm_compute. reflexivity. Qed.

Lemma renew_lease_outcome_witness :
  powerfs_net_renew_lease renew_world 1 2 (Some abc) 3 = (0, Some 17000, renew_world).
Proof.
  destruct (renew_lease_outcome renew_world 1 2 3 abc 0 (snd renew_world) renew_world renew_send)
    as (_ & _ & H).
  rewrite (H ltac:(lia) eq_refl 12345 [] ltac:(lia) ltac:(constructor) eq_refl). reflexivity.
Defined.

Definition entry : batch_entry := mk_batch_entry 1 (Some abc) 3 1.

(** Eleven entries with a three-byte token: the body is 3 bytes short. *)
Lemma batch_release_body_witness :
  exists body_cap, batch_body_cap (blen abc + 4 + 8 + 4) (replicate 11 entry) = Some body_cap /\
    blen (request body_cap (batch_ops abc 11 (replicate 11 entry))) <
    blen (ops_message (batch_ops abc 11 (replicate 11 entry))).
Proof.
  destruct (batch_release_body abc (replicate 11 entry)) as (cap & Hc & _ & H).
  - exact abc_ok.
  - unfold abc, blen; simpl; lia.
  - apply Forall_replicate. unfold entry_ok, entry, is_u64, is_u8; cbn.
    split; [lia|]. split; [lia|]. split; [lia|]. exists abc. split; [reflexivity|].
    split; [exact abc_ok|]. unfold abc, blen; simpl; lia.
  - simpl; lia.
  - exists cap. split; [exact Hc|]. apply H. simpl; lia.
Defined.

(** A 100-byte token is stored through a pointer to a 64-byte array. *)
Definition long_token : buffer := replicate 100 65.
Definition grant_ops : list enc_op := [OpString POWERFS_NET_FLD_LEASE_TOKEN long_token].
Definition grant_world : world := (0, ops_message grant_ops).
Definition grant_in : grant_out := mk_grant_out (Some []) (Some 64) (Some 0) (Some 0) (Some 0) (Some 0).

Lemma grant_send :
  net_send_request grant_world POWERFS_NET_MSG_CAP_OPEN_GRANT 2 (open_grant_body 2 abc true)
    POWERFS_NET_MAX_BODY = (0, ops_message grant_ops, grant_world).
Proof. vm_compute. reflexivity. Qed.

Lemma open_grant_token_unbounded_witness :
  exists o', powerfs_net_cap_open_grant grant_world 2 (Some abc) true grant_in = (0, o', grant_world) /\
    o_token o' = Some long_token /\ o_token_len o' = Some 100.
Proof.
  apply (open_grant_token_unbounded grant_world 2 abc true grant_in [] long_token 64 grant_ops grant_world);
    [vm_compute; split; congruence|lia|reflexivity|reflexivity|reflexivity| |vm_compute; split; reflexivity
    |reflexivity|exact grant_send].
  constructor; [|constructor]. cbn [op_ok]. unfold is_u8, POWERFS_NET_MAX_TLV.
  split; [vm_compute; split; congruence|].
  split; [apply Forall_replicate; lia|vm_compute; congruence].
Defined.

(** Recall W and X, retain R. *)
Lemma recall_body_decoded_witness :
  exists body, decode_cap_recall_body (Some body) 64 (mk_recall_out 0 [] 0 0 0 0) =
    (0, mk_recall_out 42 abc 3 6 1 9).
Proof.
  eexists. exact (recall_body_decoded 42 6 1 9 64 abc (mk_recall_out 0 [] 0 0 0 0)
    ltac:(unfold is_u64; lia) ltac:(unfold is_u64; lia) ltac:(unfold is_u8; lia) ltac:(lia) ltac:(lia)
    abc_ok ltac:(vm_compute; congruence)).
Defined.
End Canned.
