(* ===== verification/Lease.v ===== *)
(** * Lease: per-stripe write leases of an inode

    Models [src/powerfs_mod/powerfs_lease.c]: the lease tree, [ensure_lease],
    [powerfs_get_lease_token], [release_all_leases] and the renewal work item.
    Each critical section under [lease_lock] is one function; the network
    calls between them are those of [NetLease].  Rebalancing of the kernel's
    red-black tree is an interface ([RbTree]) that keeps the in-order sequence.

    Shown: the tree stays a search tree with one lease per stripe; under every
    interleaving of the critical sections, with releases that fail and
    renewals that are refused, each token received is in the tree, carried by
    a thread, released, or lost for one of three recorded reasons; the outcome
    of each operation on every branch; the renewal schedule.  Defects proved as
    such: the result of a release is discarded, at most 16 leases are released
    when an inode goes away, and a lease re-acquired by the renewal work is
    dropped when its entry has gone meanwhile. *)

From stdpp Require Import sorting.
From S2P Require Import Prelude Tlv NetLease.

Definition POWERFS_STRIPE_SIZE : Z := 64 * 1024 * 1024.
Definition POWERFS_LEASE_RENEW_BATCH : nat := 16.

(** [struct powerfs_lease] is another name of [struct powerfs_cap]; these are
    the fields the lease code reads or writes. *)
Record powerfs_lease := mk_lease {
  stripe_start : Z; stripe_count : Z; exclusive : bool; token : buffer;
  epoch : Z; content_size : Z; expire_jiffies : Z
}.

(** ** The lease tree *)

Inductive tree :=
| Leaf
| Node (l : tree) (x : powerfs_lease) (r : tree).

(** In-order sequence: what [rb_first]/[rb_next] enumerate. *)
Fixpoint elements (t : tree) : list powerfs_lease :=
  match t with Leaf => [] | Node l x r => elements l ++ x :: elements r end.

(** [rb_insert_color] recolours and rotates after the node was linked;
    [rb_erase] unlinks a node. *)
Class RbTree := {
  rb_insert_color : tree -> tree;
  rb_erase : Z -> tree -> tree
}.

Definition other_stripe (k : Z) (l : powerfs_lease) : Prop := stripe_start l <> k.
#[global] Instance other_stripe_dec k l : Decision (other_stripe k l).
Proof. unfold other_stripe. apply _. Defined.

Class RbTreeOk `{RB : RbTree} : Prop := {
  elements_insert_color : forall t, elements (rb_insert_color t) = elements t;
  elements_erase : forall k t, elements (rb_erase k t) = filter (other_stripe k) (elements t)
}.

Fixpoint powerfs_lease_find (t : tree) (stripe_start' : Z) : option powerfs_lease :=
  match t with
  | Leaf => None
  | Node l x r =>
      if stripe_start' <? stripe_start x then powerfs_lease_find l stripe_start'
      else if stripe_start' >? stripe_start x then powerfs_lease_find r stripe_start'
      else Some x
  end.

(** The descent of [powerfs_lease_insert] down to [rb_link_node]; [None] when
    the stripe is already present. *)
Fixpoint rb_link (t : tree) (lease : powerfs_lease) : option tree :=
  match t with
  | Leaf => Some (Node Leaf lease Leaf)
  | Node l x r =>
      if stripe_start lease <? stripe_start x then (fun l => Node l x r) <$> rb_link l lease
      else if stripe_start lease >? stripe_start x then (fun r => Node l x r) <$> rb_link r lease
      else None
  end.

(** Update the lease of a stripe in place (the loops of the renewal work). *)
Fixpoint update_lease (k : Z) (f : powerfs_lease -> powerfs_lease) (t : tree) : tree :=
  match t with
  | Leaf => Leaf
  | Node l x r => Node (update_lease k f l) (if stripe_start x =? k then f x else x) (update_lease k f r)
  end.

(** The mount: [lease_wq] tells whether the work queue exists. *)
Record sb_info := mk_sb { lease_wq : bool; shutting_down : bool }.

(** The lease part of [struct powerfs_inode_info] with its inode number;
    [renew_delay] is the delay of the pending renewal work, if any. *)
Record lease_inode := mk_li {
  lease_tree : tree; volume_id : Z; i_ino : Z; shutdown : bool; renew_delay : option Z
}.

Definition set_tree (pi : lease_inode) (t : tree) : lease_inode :=
  mk_li t (volume_id pi) (i_ino pi) (shutdown pi) (renew_delay pi).

(** [queue_delayed_work] does nothing when the work is already pending. *)
Definition queue_renew (pi : lease_inode) (delay : Z) : lease_inode :=
  match renew_delay pi with
  | Some _ => pi
  | None => mk_li (lease_tree pi) (volume_id pi) (i_ino pi) (shutdown pi) (Some delay)
  end.

Definition stripe_of (offset : Z) : Z := u64 (offset ÷ POWERFS_STRIPE_SIZE * POWERFS_STRIPE_SIZE).

Section lease.
Context `{KT : KernelTime} `{RB : RbTree} {W : Type} `{NT : !NetTransport W}.

Definition powerfs_lease_insert (t : tree) (lease : powerfs_lease) : tree :=
  match rb_link t lease with None => t | Some t => rb_insert_color t end.

(** ** [ensure_lease] *)

(** First critical section: a valid lease ends the call; an expired one is
    unlinked. *)
Inductive lookup_result := L_valid | L_expired (old : powerfs_lease) (t : tree) | L_none.

Definition ensure_lookup (t : tree) (k now : Z) : lookup_result :=
  match powerfs_lease_find t k with
  | Some l => if time_after (expire_jiffies l) now then L_valid else L_expired l (rb_erase k t)
  | None => L_none
  end.

(** Second critical section: keep the lease somebody else inserted. *)
Definition ensure_insert (t : tree) (k : Z) (lease : powerfs_lease) : tree * option powerfs_lease :=
  match powerfs_lease_find t k with
  | None => (powerfs_lease_insert t lease, None)
  | Some _ => (t, Some lease)
  end.

Definition release_token (w : W) (pi : lease_inode) (l : powerfs_lease) : W :=
  snd (powerfs_net_release_lease w (volume_id pi) (i_ino pi) (Some (token l)) (c_strlen (token l)) None).

(** [kzalloc]ed lease with the fields set before the request. *)
Definition new_lease (k : Z) (out : acquire_out) : powerfs_lease :=
  mk_lease k 1 true (ao_token out) (ao_epoch out) (ao_content_size out) (ao_expire out).

(** [sizeof(struct powerfs_cap)] on a 64-bit kernel. *)
Definition sizeof_lease : Z := 264.

Definition acquire_stripe (w : W) (pi : lease_inode) (k : Z) : Z * acquire_out * W :=
  powerfs_net_acquire_lease w (volume_id pi) (i_ino pi) k 1 None (mk_acquire_out [] 64 0 0 0).

(** [ensure_lease] after its first critical section found no valid lease;
    [interf] is what the other users of the tree do between the two critical
    sections (the identity when there are none). *)
Definition ensure_slow (interf : tree -> tree) (sbi : option sb_info) (k : Z)
    (pi : lease_inode) (w : W) : Z * lease_inode * W :=
  if negb (net_kvmalloc w sizeof_lease) then (- ENOMEM, pi, w) else
  let '(ret, out, w) := acquire_stripe w pi k in
  if negb (ret =? 0) then (ret, pi, w) else
  let '(t, surplus) := ensure_insert (interf (lease_tree pi)) k (new_lease k out) in
  let pi := set_tree pi t in
  let w := match surplus with Some l => release_token w pi l | None => w end in
  let pi := match sbi with
            | Some s => if lease_wq s && negb (shutting_down s)
                        then queue_renew pi (POWERFS_LEASE_DURATION - POWERFS_LEASE_RENEW_THRESHOLD)
                        else pi
            | None => pi
            end in
  (0, pi, w).

Definition ensure_lease (interf : tree -> tree) (sbi : option sb_info) (w : W) (pi : lease_inode)
    (offset : Z) : Z * lease_inode * W :=
  let k := stripe_of offset in
  match ensure_lookup (lease_tree pi) k (net_jiffies w) with
  | L_valid => (0, pi, w)
  | L_expired old t =>
      let pi := set_tree pi t in
      ensure_slow interf sbi k pi (release_token w pi old)
  | L_none => ensure_slow interf sbi k pi w
  end.

(** ** [powerfs_get_lease_token] *)

(** [strncpy(token, l->token, 63)] with its terminator. *)
Definition token_copy (s : buffer) : buffer := take (Z.to_nat (Z.min (c_strlen s) 63)) s.

Definition powerfs_get_lease_token (pi : lease_inode) (now offset : Z) : Z * buffer * Z :=
  match powerfs_lease_find (lease_tree pi) (stripe_of offset) with
  | Some l => if time_after (expire_jiffies l) now
              then (0, token_copy (token l), blen (token_copy (token l)))
              else (- ENOENT, [], 0)
  | None => (- ENOENT, [], 0)
  end.

(** ** [release_all_leases] *)

(** The collecting loop: [rb_first], [rb_erase], at most [n] times. *)
Fixpoint collect (n : nat) (t : tree) : list powerfs_lease * tree :=
  match n with
  | O => ([], t)
  | S n =>
      match elements t with
      | [] => ([], t)
      | x :: _ => let '(ls, t) := collect n (rb_erase (stripe_start x) t) in (x :: ls, t)
      end
  end.

Definition release_all_leases (w : W) (pi : lease_inode) : lease_inode * W :=
  let '(ls, t) := collect POWERFS_LEASE_RENEW_BATCH (lease_tree pi) in
  let pi := set_tree pi t in
  (pi, foldl (fun w l => release_token w pi l) w ls).

(** ** The renewal work *)

Record renew_item := mk_item { ri_stripe : Z; ri_token : buffer; ri_token_len : Z }.

Record renew_scan := mk_scan { sc_items : list renew_item; sc_earliest : Z; sc_has : bool }.

(** Phase 1, one lease: track the earliest expiry, collect what expires
    within the threshold. *)
Definition scan_lease (now : Z) (s : renew_scan) (l : powerfs_lease) : renew_scan :=
  let earliest :=
    if (sc_earliest s =? 0) || time_before (expire_jiffies l) (sc_earliest s)
    then expire_jiffies l else sc_earliest s in
  let items :=
    if time_after (u64 (now + POWERFS_LEASE_RENEW_THRESHOLD)) (expire_jiffies l)
       && (length (sc_items s) <? POWERFS_LEASE_RENEW_BATCH)%nat
    then sc_items s ++ [mk_item (stripe_start l) (token l) (Z.min (c_strlen (token l)) 64)]
    else sc_items s in
  mk_scan items earliest true.

Definition scan_leases (now : Z) (t : tree) : renew_scan :=
  foldl (scan_lease now) (mk_scan [] 0 false) (elements t).

(** The entry of a stripe after a renewal and after a re-acquire. *)
Definition renewed (new_expire : Z) (l : powerfs_lease) : powerfs_lease :=
  mk_lease (stripe_start l) (stripe_count l) (exclusive l) (token l) (epoch l) (content_size l) new_expire.

Definition reacquired (out : acquire_out) (l : powerfs_lease) : powerfs_lease :=
  mk_lease (stripe_start l) (stripe_count l) (exclusive l)
    (take (Z.to_nat (Z.min (ao_token_len out) 63)) (ao_token out))
    (ao_epoch out) (ao_content_size out) (ao_expire out).

(** Phases 2 and 3 for one item. *)
Definition renew_one (interf : tree -> tree) (w : W) (pi : lease_inode) (it : renew_item)
  : lease_inode * W :=
  let '(ret, new_expire, w) :=
    powerfs_net_renew_lease w (volume_id pi) (i_ino pi) (Some (ri_token it)) (ri_token_len it) in
  if ret =? 0 then
    (set_tree pi (update_lease (ri_stripe it) (renewed (default 0 new_expire)) (interf (lease_tree pi))), w)
  else
    let '(acq_ret, out, w) := acquire_stripe w pi (ri_stripe it) in
    if acq_ret =? 0 then
      (set_tree pi (update_lease (ri_stripe it) (reacquired out) (interf (lease_tree pi))), w)
    else (set_tree pi (interf (lease_tree pi)), w).

(** The work item; [interf] as in [ensure_lease].  The pending delay is
    consumed when the work runs. *)
Definition powerfs_lease_renew_work_func (interf : tree -> tree) (sbi : option sb_info) (w : W)
    (pi : lease_inode) : lease_inode * W :=
  let pi := mk_li (lease_tree pi) (volume_id pi) (i_ino pi) (shutdown pi) None in
  match sbi with
  | None => (pi, w)
  | Some s =>
      if negb (lease_wq s) || shutting_down s || shutdown pi then (pi, w) else
      let now := net_jiffies w in
      let sc := scan_leases now (lease_tree pi) in
      let '(pi, w) := foldl (fun '(pi, w) it => renew_one interf w pi it) (pi, w) (sc_items sc) in
      if sc_has sc && negb (shutting_down s) && lease_wq s then
        let delay :=
          if time_before (u64 (now + POWERFS_LEASE_RENEW_THRESHOLD)) (sc_earliest sc)
          then u64 (sc_earliest sc - POWERFS_LEASE_RENEW_THRESHOLD - now) else HZ in
        (queue_renew pi delay, w)
      else (pi, w)
  end.
End lease.

(** ** The tree as a sorted sequence *)

Definition before (a b : powerfs_lease) : Prop := stripe_start a < stripe_start b.
#[global] Instance before_trans : Transitive before.
Proof. unfold before. intros ???; lia. Qed.

(** Search-tree order; one lease per stripe. *)
Definition tree_ok (t : tree) : Prop := StronglySorted before (elements t).

Lemma tree_ok_leaf : tree_ok Leaf.
Proof. constructor. Qed.

Lemma tree_ok_node l x r :
  tree_ok (Node l x r) <->
  tree_ok l /\ tree_ok r /\ (forall a, a ∈ elements l -> before a x) /\ (forall b, b ∈ elements r -> before x b).
Proof.
  unfold tree_ok. cbn [elements]. rewrite StronglySorted_app, StronglySorted_cons, Forall_forall.
  split.
  - intros (H1 & H2 & H3 & H4). split_and!; auto. intros a Ha. apply H1; [done|]. by apply elem_of_cons; left.
  - intros (H1 & H2 & H3 & H4). split_and!; auto. intros a b Ha Hb.
    apply elem_of_cons in Hb as [->|Hb]; [auto|]. transitivity x; auto.
Qed.

Lemma find_Some t k l :
  powerfs_lease_find t k = Some l -> l ∈ elements t /\ stripe_start l = k.
Proof.
  induction t as [|tl IHl x tr IHr]; cbn [powerfs_lease_find elements]; [done|].
  rewrite elem_of_app, elem_of_cons. case_if; [intros H; apply IHl in H; tauto|].
  case_if; [intros H; apply IHr in H; tauto|]. intros [= <-]. split; [tauto|lia].
Qed.

Lemma find_None t k :
  tree_ok t -> powerfs_lease_find t k = None -> forall l, l ∈ elements t -> stripe_start l <> k.
Proof.
  induction t as [|tl IHl x tr IHr]; cbn [powerfs_lease_find elements]; intros Ht Hf l Hl;
    [by apply elem_of_nil in Hl|].
  apply tree_ok_node in Ht as (Htl & Htr & Hlx & Hxr).
  rewrite elem_of_app, elem_of_cons in Hl. unfold before in *.
  case_if_in Hf; [destruct Hl as [Hl|[->|Hl]]; [by apply IHl|lia|specialize (Hxr _ Hl); lia]|].
  case_if_in Hf; [|done].
  destruct Hl as [Hl|[->|Hl]]; [specialize (Hlx _ Hl); lia|lia|by apply IHr].
Qed.

(** A stripe that is present is found, and only its own lease. *)
Lemma find_elem t l :
  tree_ok t -> l ∈ elements t -> powerfs_lease_find t (stripe_start l) = Some l.
Proof.
  intros Ht Hl. destruct (powerfs_lease_find t (stripe_start l)) as [l'|] eqn:E.
  2:{ destruct (find_None t _ Ht E l Hl). done. }
  apply find_Some in E as [Hl' Hs]. f_equal. unfold tree_ok in Ht.
  induction (elements t) as [|x es IH]; [by apply elem_of_nil in Hl|].
  apply StronglySorted_cons in Ht as [Hx Hes]. rewrite Forall_forall in Hx. unfold before in Hx.
  apply elem_of_cons in Hl as [->|Hl]; apply elem_of_cons in Hl' as [->|Hl']; auto.
  - specialize (Hx _ Hl'). lia.
  - specialize (Hx _ Hl). lia.
Qed.

Lemma rb_link_spec t x :
  tree_ok t -> (forall l, l ∈ elements t -> stripe_start l <> stripe_start x) ->
  exists t' l1 l2, rb_link t x = Some t' /\ elements t = l1 ++ l2 /\ elements t' = l1 ++ x :: l2 /\ tree_ok t'.
Proof.
  induction t as [|tl IHl y tr IHr]; cbn [rb_link elements]; intros Ht Hx.
  - exists (Node Leaf x Leaf), [], []. split_and!; try done. unfold tree_ok; cbn. repeat constructor.
  - pose proof Ht as Ht'. apply tree_ok_node in Ht as (Htl & Htr & Hlx & Hxr).
    assert (Hin : forall l, l ∈ elements tl \/ l = y \/ l ∈ elements tr -> stripe_start l <> stripe_start x)
      by (intros l Hl; apply Hx; rewrite elem_of_app, elem_of_cons; done).
    case_if; [|case_if].
    + destruct (IHl Htl) as (t' & l1 & l2 & -> & E1 & E2 & Hok); [intros; apply Hin; auto|].
      exists (Node t' y tr), l1, (l2 ++ y :: elements tr). cbn [elements fmap option_fmap option_map].
      rewrite E1, E2, <- !app_assoc. split_and!; try done. apply tree_ok_node. split_and!; auto.
      intros a Ha. rewrite E2, elem_of_app, elem_of_cons in Ha. unfold before.
      destruct Ha as [Ha|[->|Ha]]; [|lia|]; apply Hlx; rewrite E1, elem_of_app; auto.
    + destruct (IHr Htr) as (t' & l1 & l2 & -> & E1 & E2 & Hok); [intros; apply Hin; auto|].
      exists (Node tl y t'), (elements tl ++ y :: l1), l2. cbn [elements fmap option_fmap option_map].
      rewrite E1, E2, <- !app_assoc. split_and!; try done. apply tree_ok_node. split_and!; auto.
      intros a Ha. rewrite E2, elem_of_app, elem_of_cons in Ha. unfold before.
      destruct Ha as [Ha|[->|Ha]]; [|lia|]; apply Hxr; rewrite E1, elem_of_app; auto.
    + destruct (Hin y); [auto|lia].
Qed.

Lemma filter_all k (es : list powerfs_lease) : (forall l, l ∈ es -> other_stripe k l) -> filter (other_stripe k) es = es.
Proof.
  induction es as [|x es IH]; intros H; [done|]. rewrite filter_cons, decide_True.
  - f_equal. apply IH. intros l Hl. apply H, elem_of_cons. by right.
  - apply H, elem_of_cons. by left.
Qed.

Lemma sorted_filter k es : StronglySorted before es -> StronglySorted before (filter (other_stripe k) es).
Proof.
  induction es as [|x es IH]; intros H; [constructor|]. apply StronglySorted_cons in H as [Hx Hes].
  rewrite filter_cons. case_decide; [|by apply IH]. apply StronglySorted_cons. split; [|by apply IH].
  rewrite Forall_forall in *. intros y Hy. apply list_elem_of_filter in Hy as [_ Hy]. by apply Hx.
Qed.

(** Erasing a stripe removes exactly its lease. *)
Lemma filter_stripe es x :
  StronglySorted before es -> x ∈ es -> es ≡ₚ x :: filter (other_stripe (stripe_start x)) es.
Proof.
  induction es as [|y es IH]; intros H Hx; [by apply elem_of_nil in Hx|].
  apply StronglySorted_cons in H as [Hy Hes]. rewrite Forall_forall in Hy. unfold before in Hy.
  rewrite filter_cons. apply elem_of_cons in Hx as [->|Hx].
  - rewrite decide_False by (unfold other_stripe; tauto). constructor.
    rewrite filter_all; [done|]. intros z Hz. specialize (Hy z Hz). unfold other_stripe. lia.
  - rewrite decide_True by (unfold other_stripe; specialize (Hy x Hx); lia).
    rewrite (IH Hes Hx) at 1. constructor.
Qed.

Section tree_ops.
Context `{KT : KernelTime} `{RB : RbTree} `{RBO : !RbTreeOk}.

Lemma insert_spec t x :
  tree_ok t -> powerfs_lease_find t (stripe_start x) = None ->
  tree_ok (powerfs_lease_insert t x) /\ elements (powerfs_lease_insert t x) ≡ₚ x :: elements t.
Proof.
  intros Ht Hf. destruct (rb_link_spec t x Ht (find_None t _ Ht Hf)) as (t' & l1 & l2 & E & E1 & E2 & Hok).
  unfold powerfs_lease_insert. rewrite E. unfold tree_ok. rewrite elements_insert_color. split; [done|].
  by rewrite E1, E2, Permutation_middle.
Qed.

Lemma erase_spec t k l :
  tree_ok t -> powerfs_lease_find t k = Some l ->
  tree_ok (rb_erase k t) /\ elements t ≡ₚ l :: elements (rb_erase k t).
Proof.
  intros Ht Hf. apply find_Some in Hf as [Hl <-]. unfold tree_ok. rewrite elements_erase.
  split; [by apply sorted_filter|by apply filter_stripe].
Qed.

Lemma collect_spec n t :
  tree_ok t ->
  fst (collect n t) = take n (elements t) /\ elements (snd (collect n t)) = drop n (elements t) /\
  tree_ok (snd (collect n t)).
Proof.
  revert t; induction n as [|n IH]; intros t Ht; cbn [collect]; [done|].
  destruct (elements t) as [|x es] eqn:E; [cbn; rewrite E; done|].
  assert (Hes : elements (rb_erase (stripe_start x) t) = es).
  { rewrite elements_erase, E, filter_cons, decide_False by (unfold other_stripe; tauto).
    unfold tree_ok in Ht. rewrite E in Ht. apply StronglySorted_cons in Ht as [Hx _].
    rewrite Forall_forall in Hx. apply filter_all. intros l Hl. specialize (Hx l Hl).
    unfold before, other_stripe in *. lia. }
  assert (Hok : tree_ok (rb_erase (stripe_start x) t)).
  { unfold tree_ok in *. rewrite Hes. rewrite E in Ht. by apply StronglySorted_cons in Ht as [_ ?]. }
  destruct (IH _ Hok) as (H1 & H2 & H3). rewrite Hes in H1, H2.
  destruct (collect n (rb_erase (stripe_start x) t)) as [ls t']; cbn in *. by subst.
Qed.

(** ** Interleavings

    Any number of threads run [ensure_lease] (on any stripes),
    [release_all_leases] and the renewal work on one inode; a step is one
    critical section or one network call.  The ledger [s_granted] has the
    tokens the client received from the volume server and of which no release
    was confirmed.  The code discards the result of
    [powerfs_net_release_lease], so a release may fail or not be sent at all:
    the token then stays on the ledger and is entered in [s_lost], with the
    reason why the client no longer knows it. *)

Inductive loss :=
| ReleaseFailed     (* the release was refused, not answered or not sent *)
| Overwritten       (* the renewal work stored another token over it *)
| Orphaned.         (* re-acquired for a stripe that had left the tree *)

Inductive thread :=
| T_lookup (k : Z)                        (* before the first critical section *)
| T_release_old (k : Z) (old : powerfs_lease)
| T_acquire (k : Z)
| T_insert (k : Z) (l : powerfs_lease)    (* before the second critical section *)
| T_surplus (l : powerfs_lease)
| T_collect                               (* release_all_leases, before its lock *)
| T_drain (ls : list powerfs_lease)
| T_scan                                  (* the renewal work, before its lock *)
| T_renew (its : list renew_item)
| T_renewed (it : renew_item) (new_expire : Z) (its : list renew_item)
| T_reacquire (it : renew_item) (its : list renew_item)
| T_store (it : renew_item) (out : acquire_out) (its : list renew_item)
| T_done.

(** A token as the code passes it on: the C string in the buffer. *)
Definition c_token (b : buffer) : buffer := take (Z.to_nat (c_strlen b)) b.
Definition l_token (l : powerfs_lease) : buffer := c_token (token l).

(** The lengths [powerfs_net_release_lease] sends. *)
Definition sendable (tok : buffer) : Prop := 0 < blen tok < 64.

(** What a successful [powerfs_net_acquire_lease] fills in. *)
Definition grant_ok (out : acquire_out) : Prop :=
  ao_token_len out = c_strlen (ao_token out) /\ blen (ao_token out) < 64.

(** A confirmed release takes one occurrence of the token off the ledger. *)
Fixpoint released (tok : buffer) (held : list buffer) : list buffer :=
  match held with
  | [] => []
  | x :: held => if decide (x = tok) then held else x :: released tok held
  end.

(** The ledger: granted and not confirmed as released; lost. *)
Record ledger := mk_ledger { granted : list buffer; lost : list (loss * buffer) }.

Definition grant (tok : buffer) (g : ledger) : ledger := mk_ledger (tok :: granted g) (lost g).
Definition lose (why : loss) (tok : buffer) (g : ledger) : ledger :=
  mk_ledger (granted g) ((why, tok) :: lost g).

(** The two outcomes of a release.  Without faults ([faulty] is [false])
    every release that is sent is confirmed. *)
Inductive release (faulty : bool) (tok : buffer) : ledger -> ledger -> Prop :=
| rel_confirmed g : sendable tok -> release faulty tok g (mk_ledger (released tok (granted g)) (lost g))
| rel_failed g : faulty = true \/ ~ sendable tok -> release faulty tok g (lose ReleaseFailed tok g).

(** Without faults a grant carries a token, and no renewal is refused. *)
Inductive thread_step (faulty : bool) : tree * ledger * thread -> tree * ledger * thread -> Prop :=
| ts_valid t g k now : ensure_lookup t k now = L_valid ->
    thread_step faulty (t, g, T_lookup k) (t, g, T_done)
| ts_expired t g k now old t' : ensure_lookup t k now = L_expired old t' ->
    thread_step faulty (t, g, T_lookup k) (t', g, T_release_old k old)
| ts_none t g k now : ensure_lookup t k now = L_none ->
    thread_step faulty (t, g, T_lookup k) (t, g, T_acquire k)
| ts_release_old t g g' k old : release faulty (l_token old) g g' ->
    thread_step faulty (t, g, T_release_old k old) (t, g', T_acquire k)
| ts_acquired t g k out : grant_ok out -> (faulty = false -> sendable (c_token (ao_token out))) ->
    thread_step faulty (t, g, T_acquire k) (t, grant (c_token (ao_token out)) g, T_insert k (new_lease k out))
| ts_acquire_failed t g k : thread_step faulty (t, g, T_acquire k) (t, g, T_done)
| ts_inserted t g k l t' : ensure_insert t k l = (t', None) ->
    thread_step faulty (t, g, T_insert k l) (t', g, T_done)
| ts_lost_race t g k l t' s : ensure_insert t k l = (t', Some s) ->
    thread_step faulty (t, g, T_insert k l) (t', g, T_surplus s)
| ts_surplus t g g' l : release faulty (l_token l) g g' ->
    thread_step faulty (t, g, T_surplus l) (t, g', T_done)
| ts_collect t g ls t' : collect POWERFS_LEASE_RENEW_BATCH t = (ls, t') ->
    thread_step faulty (t, g, T_collect) (t', g, T_drain ls)
| ts_drain t g g' l ls : release faulty (l_token l) g g' ->
    thread_step faulty (t, g, T_drain (l :: ls)) (t, g', T_drain ls)
| ts_drained t g : thread_step faulty (t, g, T_drain []) (t, g, T_done)
| ts_scan t g now : thread_step faulty (t, g, T_scan) (t, g, T_renew (sc_items (scan_leases now t)))
| ts_renew_ok t g it e its : thread_step faulty (t, g, T_renew (it :: its)) (t, g, T_renewed it e its)
| ts_renewed t g it e its :
    thread_step faulty (t, g, T_renewed it e its) (update_lease (ri_stripe it) (renewed e) t, g, T_renew its)
| ts_renew_failed t g it its : faulty = true ->
    thread_step faulty (t, g, T_renew (it :: its)) (t, g, T_reacquire it its)
| ts_reacquired t g it out its : grant_ok out ->
    thread_step faulty (t, g, T_reacquire it its) (t, grant (c_token (ao_token out)) g, T_store it out its)
| ts_reacquire_failed t g it its : thread_step faulty (t, g, T_reacquire it its) (t, g, T_renew its)
| ts_stored t g it out its l : powerfs_lease_find t (ri_stripe it) = Some l ->
    thread_step faulty (t, g, T_store it out its)
      (update_lease (ri_stripe it) (reacquired out) t, lose Overwritten (l_token l) g, T_renew its)
| ts_orphaned t g it out its : powerfs_lease_find t (ri_stripe it) = None ->
    thread_step faulty (t, g, T_store it out its)
      (update_lease (ri_stripe it) (reacquired out) t, lose Orphaned (c_token (ao_token out)) g, T_renew its)
| ts_renewals_done t g : thread_step faulty (t, g, T_renew []) (t, g, T_done).

Record system := mk_sys { s_tree : tree; s_ledger : ledger; s_threads : list thread }.

Definition s_granted (s : system) : list buffer := granted (s_ledger s).
Definition s_lost (s : system) : list (loss * buffer) := lost (s_ledger s).

(** How a thread of each kind starts. *)
Definition starts (th : thread) : Prop :=
  match th with T_lookup _ | T_collect | T_scan => True | _ => False end.

Inductive sys_step (faulty : bool) : system -> system -> Prop :=
| ss_thread t g ths i th t' g' th' :
    ths !! i = Some th -> thread_step faulty (t, g, th) (t', g', th') ->
    sys_step faulty (mk_sys t g ths) (mk_sys t' g' (<[i := th']> ths))
| ss_start t g ths th : starts th -> sys_step faulty (mk_sys t g ths) (mk_sys t g (ths ++ [th])).

Inductive reachable (faulty : bool) : system -> Prop :=
| reach_init : reachable faulty (mk_sys Leaf (mk_ledger [] []) [])
| reach_step s s' : reachable faulty s -> sys_step faulty s s' -> reachable faulty s'.

(** Tokens a thread is carrying between two steps. *)
Definition in_flight (th : thread) : list buffer :=
  match th with
  | T_release_old _ l | T_insert _ l | T_surplus l => [l_token l]
  | T_drain ls => l_token <$> ls
  | T_store _ out _ => [c_token (ao_token out)]
  | _ => []
  end.

Definition thread_ok (faulty : bool) (th : thread) : Prop :=
  match th with
  | T_insert k l => stripe_start l = k
  | T_store _ out _ => faulty = true /\ grant_ok out
  | T_reacquire _ _ => faulty = true
  | _ => True
  end.

(** Every granted token is in the tree, carried by a thread, or lost; without
    faults all are sendable and none is lost. *)
Definition balanced (faulty : bool) (t : tree) (g : ledger) (carried : list buffer) : Prop :=
  tree_ok t /\ granted g ≡ₚ (l_token <$> elements t) ++ carried ++ (lost g).*2 /\
  (faulty = false -> Forall sendable (granted g) /\ lost g = []).

Definition ledger_ok (faulty : bool) (s : system) : Prop :=
  Forall (thread_ok faulty) (s_threads s) /\
  balanced faulty (s_tree s) (s_ledger s) (s_threads s ≫= in_flight).

Lemma released_elem tok held : tok ∈ held -> held ≡ₚ tok :: released tok held.
Proof.
  induction held as [|x held IH]; intros H; [by apply elem_of_nil in H|]. cbn [released].
  case_decide as E; [by subst|]. apply elem_of_cons in H as [->|H]; [done|].
  rewrite (IH H) at 1. constructor.
Qed.

Lemma released_perm tok held rest : held ≡ₚ tok :: rest -> released tok held ≡ₚ rest.
Proof.
  intros H. assert (Hin : tok ∈ held) by (rewrite H; apply elem_of_cons; by left).
  apply (Permutation_cons_inv (a := tok)). by rewrite <- (released_elem _ _ Hin).
Qed.

Lemma ensure_lookup_expired t k now old t' :
  tree_ok t -> ensure_lookup t k now = L_expired old t' ->
  tree_ok t' /\ elements t ≡ₚ old :: elements t'.
Proof.
  intros Ht. unfold ensure_lookup. destruct (powerfs_lease_find t k) as [l|] eqn:Ef; [|done].
  case_if; [done|]. intros [= <- <-]. by apply erase_spec.
Qed.

Lemma ensure_insert_None t l t' :
  tree_ok t -> ensure_insert t (stripe_start l) l = (t', None) ->
  tree_ok t' /\ elements t' ≡ₚ l :: elements t.
Proof.
  intros Ht. unfold ensure_insert. destruct (powerfs_lease_find t (stripe_start l)) eqn:Ef; [done|].
  intros [= <-]. by apply insert_spec.
Qed.

Lemma ensure_insert_Some t k l t' s : ensure_insert t k l = (t', Some s) -> t = t' /\ l = s.
Proof. unfold ensure_insert. destruct (powerfs_lease_find t k); [|done]. by intros [= <- <-]. Qed.

Lemma elements_update k f t :
  elements (update_lease k f t) = (fun x => if stripe_start x =? k then f x else x) <$> elements t.
Proof.
  induction t as [|tl IHl x tr IHr]; [done|]. cbn [update_lease elements].
  by rewrite IHl, IHr, fmap_app.
Qed.

(** Updating a stripe in place keeps the order of the tree. *)
Lemma tree_ok_update k f t :
  (forall l, stripe_start (f l) = stripe_start l) -> tree_ok t -> tree_ok (update_lease k f t).
Proof.
  intros Hf. unfold tree_ok. rewrite elements_update. generalize (elements t) as es.
  induction es as [|x es IH]; intros H; [constructor|]. apply StronglySorted_cons in H as [Hx Hes].
  cbn [fmap list_fmap]. apply StronglySorted_cons. split; [|by apply IH].
  apply Forall_fmap. eapply Forall_impl; [exact Hx|]. unfold before. intros y Hy.
  cbn. repeat case_match; rewrite ?Hf; done.
Qed.

Lemma fmap_update_other {A} (g : powerfs_lease -> A) k f (es : list powerfs_lease) :
  (forall l, l ∈ es -> stripe_start l <> k) ->
  g <$> ((fun x => if stripe_start x =? k then f x else x) <$> es) = g <$> es.
Proof.
  intros H. rewrite <- list_fmap_compose. apply list_fmap_ext. intros i x Hx. cbn.
  apply list_elem_of_lookup_2 in Hx. by rewrite (proj2 (Z.eqb_neq _ _) (H x Hx)).
Qed.

(** Storing over the entry [l] of a stripe exchanges its token. *)
Lemma tokens_update t k f l :
  tree_ok t -> powerfs_lease_find t k = Some l -> (forall x, stripe_start (f x) = stripe_start x) ->
  exists rest, l_token <$> elements t ≡ₚ l_token l :: rest /\
    l_token <$> elements (update_lease k f t) ≡ₚ l_token (f l) :: rest.
Proof.
  intros Ht Hl Hf. apply find_Some in Hl as [Hl <-]. rewrite elements_update.
  exists (l_token <$> filter (other_stripe (stripe_start l)) (elements t)).
  pose proof (filter_stripe _ _ Ht Hl) as Hp. split; [by rewrite Hp at 1|].
  rewrite Hp at 1. cbn [fmap list_fmap]. rewrite Z.eqb_refl. constructor.
  rewrite fmap_update_other; [done|]. intros x Hx. apply list_elem_of_filter in Hx as [Hx _]. exact Hx.
Qed.

Lemma c_strlen_range b : 0 <= c_strlen b <= blen b.
Proof.
  induction b as [|x b IH]; cbn [c_strlen]; [unfold blen; cbn; lia|]. rewrite blen_cons. case_match; lia.
Qed.

(** The copy the renewal work stores is the token that was granted. *)
Lemma reacquired_token out l : grant_ok out -> l_token (reacquired out l) = c_token (ao_token out).
Proof.
  intros [Hl Hb]. unfold l_token, c_token, reacquired. cbn [token]. rewrite Hl.
  pose proof (c_strlen_range (ao_token out)). rewrite Z.min_l by lia. clear.
  induction (ao_token out) as [|x b IH]; [done|]. cbn [c_strlen]. case_match; [done|].
  pose proof (c_strlen_range b). replace (Z.to_nat (1 + c_strlen b)) with (S (Z.to_nat (c_strlen b))) by lia.
  cbn [take c_strlen]. rewrite H. pose proof (c_strlen_range (take (Z.to_nat (c_strlen b)) b)).
  replace (Z.to_nat (1 + c_strlen (take (Z.to_nat (c_strlen b)) b)))
    with (S (Z.to_nat (c_strlen (take (Z.to_nat (c_strlen b)) b)))) by lia.
  cbn [take]. f_equal. exact IH.
Qed.

(** A release moves the token from the carried ones off the ledger or to the
    lost ones. *)
Lemma release_balanced faulty t g g' tok rest :
  release faulty tok g g' -> balanced faulty t g (tok :: rest) -> balanced faulty t g' rest.
Proof.
  intros Hrel (Ht & Hg & Hc). assert (Hp : granted g ≡ₚ tok :: (l_token <$> elements t) ++ rest ++ (lost g).*2)
    by (rewrite Hg; symmetry; apply Permutation_middle).
  destruct Hrel as [g Hs|g Hs]; (split; [done|]); cbn [granted lost lose fmap list_fmap snd].
  - split; [by apply released_perm|]. intros Hf. destruct (Hc Hf) as [Hall Hn]. split; [|done].
    rewrite (released_perm _ _ _ Hp). rewrite Hp in Hall. by apply Forall_cons in Hall as [_ Hall].
  - split; [by rewrite Hp, <- !Permutation_middle|]. intros Hf. destruct (Hc Hf) as [Hall _].
    rewrite Hp in Hall. apply Forall_cons in Hall as [Htok _]. destruct Hs as [|[]]; [congruence|done].
Qed.

Lemma grant_balanced faulty t g tok rest :
  (faulty = false -> sendable tok) -> balanced faulty t g rest -> balanced faulty t (grant tok g) (tok :: rest).
Proof.
  intros Hs (Ht & Hg & Hc). split; [done|]. cbn [granted lost grant]. split.
  - rewrite Hg. apply Permutation_middle.
  - intros Hf. destruct (Hc Hf). split; [constructor; auto|done].
Qed.

Lemma renewed_balanced faulty t g k e rest :
  balanced faulty t g rest -> balanced faulty (update_lease k (renewed e) t) g rest.
Proof.
  intros (Ht & Hg & Hc). split_and!; auto; [by apply tree_ok_update|]. rewrite Hg, elements_update.
  rewrite <- list_fmap_compose. f_equiv. erewrite list_fmap_ext; [done|]. intros i x _. cbn. by case_match.
Qed.

(** Storing a re-acquired token loses the one it replaces, or itself. *)
Lemma store_balanced t g it out rest :
  grant_ok out -> balanced true t g (c_token (ao_token out) :: rest) ->
  let lost' := match powerfs_lease_find t (ri_stripe it) with
               | Some l => lose Overwritten (l_token l) g
               | None => lose Orphaned (c_token (ao_token out)) g end in
  balanced true (update_lease (ri_stripe it) (reacquired out) t) lost' rest.
Proof.
  intros Hout (Ht & Hg & _) lost'. split; [by apply tree_ok_update|]. split; [|done]. unfold lost'.
  destruct (powerfs_lease_find t (ri_stripe it)) as [l|] eqn:Ef; cbn [granted lost lose fmap list_fmap snd].
  - destruct (tokens_update t (ri_stripe it) (reacquired out) l Ht Ef ltac:(done)) as (r & E1 & E2).
    rewrite Hg, E1, E2, (reacquired_token out l Hout). cbn [app].
    rewrite <- !Permutation_middle. apply Permutation_swap.
  - rewrite elements_update, fmap_update_other by (by apply find_None).
    rewrite Hg. cbn [app]. by rewrite <- !Permutation_middle.
Qed.

(** One thread step keeps the balance between the ledger, the tree and what
    this thread carries, for any tokens [rest] carried by the others. *)
Lemma thread_step_ledger faulty t g th t' g' th' rest :
  thread_step faulty (t, g, th) (t', g', th') -> thread_ok faulty th ->
  balanced faulty t g (in_flight th ++ rest) ->
  thread_ok faulty th' /\ balanced faulty t' g' (in_flight th' ++ rest).
Proof.
  intros Hstep Hth Hb. pose proof Hb as (Ht & Hg & Hc).
  inversion Hstep; subst; clear Hstep; cbn [in_flight thread_ok app] in *;
    try (split; [done|]; done || by eapply release_balanced).
  - match goal with H : ensure_lookup _ _ _ = _ |- _ =>
      destruct (ensure_lookup_expired _ _ _ _ _ Ht H) as [Hok Hp] end.
    split; [done|]. split_and!; auto. rewrite Hg, Hp. cbn [fmap list_fmap app]. apply Permutation_middle.
  - split; [done|]. by apply grant_balanced.
  - subst. match goal with H : ensure_insert _ _ _ = _ |- _ =>
      destruct (ensure_insert_None _ _ _ Ht H) as [Hok Hp] end.
    split; [done|]. split_and!; auto. rewrite Hg, Hp. symmetry. apply Permutation_middle.
  - match goal with H : ensure_insert _ _ _ = _ |- _ => apply ensure_insert_Some in H as [<- <-] end. done.
  - match goal with H : collect _ _ = _ |- _ =>
      pose proof (collect_spec POWERFS_LEASE_RENEW_BATCH t Ht) as (E1 & E2 & Hok);
      rewrite H in E1, E2, Hok; cbn [fst snd] in E1, E2, Hok end.
    split; [done|]. split_and!; auto. rewrite Hg, E1, E2.
    rewrite <- (take_drop POWERFS_LEASE_RENEW_BATCH (elements t)) at 1. rewrite fmap_app, !app_assoc.
    do 2 f_equiv. apply Permutation_app_comm.
  - split; [done|]. by apply renewed_balanced.
  - split; [done|]. apply grant_balanced; [congruence|done].
  - destruct Hth as [-> Hout]. split; [done|].
    match goal with H : powerfs_lease_find _ _ = _ |- _ =>
      pose proof (store_balanced t g it out rest Hout Hb) as Hs; rewrite H in Hs end. exact Hs.
  - destruct Hth as [-> Hout]. split; [done|].
    match goal with H : powerfs_lease_find _ _ = _ |- _ =>
      pose proof (store_balanced t g it out rest Hout Hb) as Hs; rewrite H in Hs end. exact Hs.
Qed.

Lemma bind_insert (ths : list thread) i th th' :
  ths !! i = Some th ->
  exists rest, ths ≫= in_flight ≡ₚ in_flight th ++ rest /\ <[i := th']> ths ≫= in_flight ≡ₚ in_flight th' ++ rest.
Proof.
  intros Hi. exists ((take i ths ++ drop (S i) ths) ≫= in_flight).
  assert (Hlt : (i < length ths)%nat) by (by eapply lookup_lt_Some).
  rewrite insert_take_drop by done.
  rewrite <- (take_drop_middle ths i th Hi) at 1. rewrite !bind_app. cbn [mbind list_bind]. 
  fold (drop (S i) ths ≫= in_flight). split; rewrite !app_assoc; f_equiv; apply Permutation_app_comm.
Qed.

Lemma sys_step_ledger faulty s s' : sys_step faulty s s' -> ledger_ok faulty s -> ledger_ok faulty s'.
Proof.
  intros Hstep (Hths & Hb). destruct Hstep as [t g ths i th t' g' th' Hi Hst|t g ths th Hth];
    cbn [s_tree s_ledger s_threads] in *.
  - destruct (bind_insert ths i th th' Hi) as (rest & E1 & E2).
    pose proof (Forall_lookup_1 _ _ _ _ Hths Hi) as Hth.
    destruct (thread_step_ledger faulty t g th t' g' th' rest Hst Hth) as (Hth' & Ht' & Hg' & Hc').
    { destruct Hb as (Ht & Hg & Hc). split_and!; auto. by rewrite <- E1. }
    split; cbn; [by apply Forall_insert|]. split_and!; auto. by rewrite E2.
  - split; cbn; [apply Forall_app; split; [done|]; constructor; [by destruct th|done]|].
    rewrite bind_app. replace ([th] ≫= in_flight) with (@nil buffer) by (by destruct th). by rewrite app_nil_r.
Qed.

Lemma reachable_ledger faulty s : reachable faulty s -> ledger_ok faulty s.
Proof.
  induction 1 as [|s s' _ IH Hs]; [|by apply (sys_step_ledger faulty s)].
  split; [constructor|]. split_and!; [apply tree_ok_leaf|done|]. split; [constructor|done].
Qed.
End tree_ops.

Lemma find_iff t k l :
  tree_ok t -> powerfs_lease_find t k = Some l <-> l ∈ elements t /\ stripe_start l = k.
Proof. intros Ht. split; [apply find_Some|]. intros [Hl <-]. by apply find_elem. Qed.

(** Lookups only depend on the set of leases. *)
Lemma find_same t t' k :
  tree_ok t -> tree_ok t' ->
  (forall l, stripe_start l = k -> (l ∈ elements t <-> l ∈ elements t')) ->
  powerfs_lease_find t k = powerfs_lease_find t' k.
Proof.
  intros Ht Ht' H. apply option_eq. intros l. rewrite !find_iff by done.
  split; intros [Hl Hk]; (split; [by apply H|done]).
Qed.

Section ensure.
Context `{KT : KernelTime} `{RB : RbTree} `{RBO : !RbTreeOk} {W : Type} `{NT : !NetTransport W}.

Lemma find_after_erase t k k' l :
  tree_ok t -> powerfs_lease_find t k = Some l ->
  powerfs_lease_find (rb_erase k t) k' = if decide (k' = k) then None else powerfs_lease_find t k'.
Proof.
  intros Ht Hf. destruct (erase_spec t k l Ht Hf) as [Ht' Hp]. case_decide as E.
  - subst k'. destruct (powerfs_lease_find (rb_erase k t) k) as [x|] eqn:Ex; [|done].
    apply find_Some in Ex as [Hx Hk]. rewrite elements_erase, list_elem_of_filter in Hx.
    unfold other_stripe in Hx. tauto.
  - apply find_same; auto. intros x Hx. rewrite elements_erase, list_elem_of_filter.
    unfold other_stripe. split; [tauto|]. intros Hl. split; [congruence|done].
Qed.

Lemma find_after_insert t k' x :
  tree_ok t -> powerfs_lease_find t (stripe_start x) = None ->
  powerfs_lease_find (powerfs_lease_insert t x) k' =
    if decide (k' = stripe_start x) then Some x else powerfs_lease_find t k'.
Proof.
  intros Ht Hf. destruct (insert_spec t x Ht Hf) as [Ht' Hp]. case_decide as E.
  - subst. apply find_iff; [done|]. split; [|done]. rewrite Hp. apply elem_of_cons; by left.
  - apply find_same; auto. intros l Hl. rewrite Hp, elem_of_cons.
    split; [intros [->|Hl']; [congruence|done]|tauto].
Qed.

(** Result of the slow path on a tree without a lease for the stripe. *)
Definition ensured (k now : Z) (pi pi' : lease_inode) (ret : Z) : Prop :=
  tree_ok (lease_tree pi') /\
  (forall k', k' <> k -> powerfs_lease_find (lease_tree pi') k' = powerfs_lease_find (lease_tree pi) k') /\
  (ret <> 0 -> powerfs_lease_find (lease_tree pi') k = None) /\
  (ret = 0 -> exists l, powerfs_lease_find (lease_tree pi') k = Some l /\
     (time_after (expire_jiffies l) now = true \/
      exists w0 w1 pi0 out, acquire_stripe (W := W) w0 pi0 k = (0, out, w1) /\ l = new_lease k out)).

Lemma lease_tree_queue_renew pi d : lease_tree (queue_renew pi d) = lease_tree pi.
Proof. unfold queue_renew. by destruct (renew_delay pi). Qed.

Lemma ensure_slow_outcome sbi k now pi pi0 (w0 : W) :
  tree_ok (lease_tree pi0) -> powerfs_lease_find (lease_tree pi0) k = None ->
  (forall k', k' <> k -> powerfs_lease_find (lease_tree pi0) k' = powerfs_lease_find (lease_tree pi) k') ->
  let '(ret, pi', _) := ensure_slow (fun t => t) sbi k pi0 w0 in ensured k now pi pi' ret.
Proof.
  intros Ht0 Hf0 Ho0. unfold ensure_slow.
  destruct (net_kvmalloc w0 sizeof_lease); cbn [negb]; [|split_and!; auto; done].
  destruct (acquire_stripe w0 pi0 k) as [[ret out] w1] eqn:Ea.
  destruct (Z.eqb_spec ret 0) as [->|Hret]; cbn [negb]; [|split_and!; auto; done].
  unfold ensure_insert. rewrite Hf0.
  set (l := new_lease k out). set (pi1 := match sbi with Some _ => _ | None => _ end).
  assert (Hpi1 : lease_tree pi1 = powerfs_lease_insert (lease_tree pi0) l).
  { unfold pi1. destruct sbi as [s|]; [|done]. case_if; [|done]. by rewrite lease_tree_queue_renew. }
  assert (Hfi : forall k', powerfs_lease_find (lease_tree pi1) k' =
    if decide (k' = k) then Some l else powerfs_lease_find (lease_tree pi0) k')
    by (intros k'; rewrite Hpi1; exact (find_after_insert (lease_tree pi0) k' l Ht0 Hf0)).
  split_and!.
  - rewrite Hpi1. by apply insert_spec.
  - intros k' Hk'. rewrite Hfi, decide_False by done. auto.
  - done.
  - intros _. exists l. split; [by rewrite Hfi, decide_True|]. right. by exists w0, w1, pi0, out.
Qed.

(** ** Theorems *)

(** What [powerfs_net_acquire_lease] hands out is what the ledger expects. *)
Lemma acquire_stripe_grant_ok `{!NetTransportOk W} (w w' : W) pi k out : acquire_stripe w pi k = (0, out, w') -> grant_ok out.
Proof.
  unfold acquire_stripe, powerfs_net_acquire_lease, powerfs_tlv_dec_string. cbn [ao_token_len].
  change (64 <? 64) with false. cbv iota.
  destruct (net_send_to_volume _ _ _ _ _) as [[ret resp] w1] eqn:Es. pose proof Es as Hret.
  apply volume_response_ok in Hret as (Hret & _); [|lia].
  destruct (rpc_status ret) as [e|] eqn:Er.
  { apply rpc_status_neg in Er; [|done]. intros [= -> ? ?]. lia. }
  destruct (powerfs_tlv_dec_read _ _ _) as [[[p n]|] d]; [|by intros [= ]].
  destruct (Z.geb_spec n 64); [by intros [= ]|]. intros [= <- _]. split; [done|]. cbn [ao_token].
  unfold slice, blen. rewrite length_take. lia.
Qed.

(** A token of a length that is not sent stays with the server: no message
    goes out and the error is dropped. *)
Lemma release_token_unsendable (w : W) pi l : ~ sendable (l_token l) -> release_token w pi l = w.
Proof.
  intros H. unfold release_token, powerfs_net_release_lease. pose proof (c_strlen_range (token l)) as Hr.
  assert (Hb : blen (l_token l) = c_strlen (token l))
    by (unfold l_token, c_token; unfold blen in *; rewrite length_take; lia).
  unfold sendable in H. rewrite Hb in H.
  destruct (Z.eqb_spec (c_strlen (token l)) 0); [done|].
  destruct (Z.geb_spec (c_strlen (token l)) 64); [done|lia].
Qed.

(** C7. Tokens are accounted for: in every interleaving of any number of
    [ensure_lease], [release_all_leases] and renewal threads on an inode, with
    releases that fail (the code ignores their result) and renewals that are
    refused, the tree stays a search tree with one lease per stripe, and every
    token the client received and no server confirmed as released is, exactly
    once, in the tree, carried by a running thread, or lost for one of three
    reasons: its release failed or could not be sent, the renewal work
    overwrote it, or it was re-acquired for a stripe that had left the tree.
    When no thread is running it is in the tree or lost; and when releases are
    confirmed, grants carry a token and renewals are not refused, none is
    lost. *)
Theorem lease_tokens_accounted (faulty : bool) (s : system) :
  reachable faulty s ->
  tree_ok (s_tree s) /\
  s_granted s ≡ₚ (l_token <$> elements (s_tree s)) ++ (s_threads s ≫= in_flight) ++ (s_lost s).*2 /\
  (Forall (eq T_done) (s_threads s) -> s_granted s ≡ₚ (l_token <$> elements (s_tree s)) ++ (s_lost s).*2) /\
  (faulty = false -> s_lost s = []).
Proof.
  intros Hr. destruct (reachable_ledger faulty s Hr) as (_ & Ht & Hg & Hc). unfold s_granted, s_lost.
  split_and!; auto; [|intros Hf; by apply Hc]. intros Hd. rewrite Hg.
  replace (s_threads s ≫= in_flight) with (@nil buffer); [done|].
  clear Hg Hc. induction Hd as [|th ths <- _ IH]; [done|]. exact IH.
Qed.

(** Outcome of [ensure_lease] without interference: the tree stays well
    formed and the leases of other stripes are untouched; on success the
    stripe has a lease that was still valid or was just granted by the volume
    server; on failure it has none (an expired one has been removed). *)
Theorem ensure_lease_outcome (sbi : option sb_info) (w : W) (pi : lease_inode) (offset : Z) :
  tree_ok (lease_tree pi) ->
  let '(ret, pi', _) := ensure_lease (fun t => t) sbi w pi offset in
  ensured (stripe_of offset) (net_jiffies w) pi pi' ret.
Proof.
  intros Ht. unfold ensure_lease, ensure_lookup. set (k := stripe_of offset).
  destruct (powerfs_lease_find (lease_tree pi) k) as [l|] eqn:Ef.
  - destruct (time_after (expire_jiffies l) (net_jiffies w)) eqn:Et.
    + split_and!; auto; [done|]. intros _. exists l. auto.
    + apply ensure_slow_outcome; cbn [set_tree lease_tree].
      * by apply (erase_spec _ _ l).
      * by rewrite (find_after_erase _ _ _ l), decide_True.
      * intros k' Hk'. by rewrite (find_after_erase _ _ _ l), decide_False.
  - apply ensure_slow_outcome; auto.
Qed.

(** [release_all_leases] releases the 16 lowest stripes and no more: it
    sends one release per collected lease, in stripe order, and an inode with
    more than 16 leases keeps the others (the documentation says all leases
    are released). *)
Theorem release_all_leases_outcome (w : W) (pi : lease_inode) :
  tree_ok (lease_tree pi) ->
  let '(pi', w') := release_all_leases w pi in
  tree_ok (lease_tree pi') /\
  elements (lease_tree pi') = drop 16 (elements (lease_tree pi)) /\
  w' = foldl (fun w l => release_token w pi' l) w (take 16 (elements (lease_tree pi))) /\
  ((16 < length (elements (lease_tree pi)))%nat -> elements (lease_tree pi') <> []).
Proof.
  intros Ht. unfold release_all_leases.
  pose proof (collect_spec POWERFS_LEASE_RENEW_BATCH (lease_tree pi) Ht) as (E1 & E2 & E3).
  destruct (collect POWERFS_LEASE_RENEW_BATCH (lease_tree pi)) as [ls t]. cbn [fst snd] in *.
  cbn [lease_tree set_tree]. split_and!; auto; [by rewrite E1|].
  intros Hlen. rewrite E2. intros Hn. apply (f_equal length) in Hn.
  rewrite length_drop in Hn. cbn in Hn. unfold POWERFS_LEASE_RENEW_BATCH in Hn. lia.
Qed.

(** ** Renewal schedule *)

Lemma renew_one_delay interf (w : W) pi it : renew_delay (fst (renew_one interf w pi it)) = renew_delay pi.
Proof.
  unfold renew_one. destruct (powerfs_net_renew_lease _ _ _ _ _) as [[ret e] w1].
  case_if; [done|]. destruct (acquire_stripe _ _ _) as [[r out] w2]. by case_if.
Qed.

Lemma renew_loop_delay interf its (w : W) pi :
  renew_delay (fst (foldl (fun '(pi, w) it => renew_one interf w pi it) (pi, w) its)) = renew_delay pi.
Proof.
  revert w pi; induction its as [|it its IH]; intros w pi; [done|]. cbn [foldl].
  pose proof (renew_one_delay interf w pi it) as H.
  destruct (renew_one interf w pi it) as [pi1 w1]. cbn [fst] in H. by rewrite IH.
Qed.

Definition expiry_ok (l : powerfs_lease) : Prop := 0 < expire_jiffies l < 2 ^ 62.

Definition min_expiry (ls : list powerfs_lease) : Z :=
  match ls with [] => 0 | l :: ls => foldl (fun m l => Z.min m (expire_jiffies l)) (expire_jiffies l) ls end.

(** The leases phase 1 collects. *)
Definition due (now : Z) (l : powerfs_lease) : Prop := expire_jiffies l < now + POWERFS_LEASE_RENEW_THRESHOLD.
#[global] Instance due_dec now l : Decision (due now l).
Proof. unfold due. apply _. Defined.

Definition item_of (l : powerfs_lease) : renew_item :=
  mk_item (stripe_start l) (token l) (Z.min (c_strlen (token l)) 64).

Lemma scan_leases_spec now ls :
  0 <= now < 2 ^ 62 -> 0 <= POWERFS_LEASE_RENEW_THRESHOLD < 2 ^ 62 -> Forall expiry_ok ls ->
  let s := foldl (scan_lease now) (mk_scan [] 0 false) ls in
  sc_items s = item_of <$> take 16 (filter (due now) ls) /\
  sc_earliest s = min_expiry ls /\ sc_has s = (0 <? length ls)%nat /\
  (ls <> [] -> 0 < min_expiry ls < 2 ^ 62).
Proof.
  intros Hn HT. induction ls as [|l ls IH] using rev_ind; intros Hls; [done|].
  apply Forall_app in Hls as [Hls Hl]. rewrite Forall_singleton in Hl. unfold expiry_ok in Hl.
  destruct (IH Hls) as (I1 & I2 & I3 & I4). rewrite foldl_app. cbn [foldl]. cbv zeta.
  set (s := foldl _ _ ls) in *. unfold scan_lease. cbn [sc_items sc_earliest sc_has].
  assert (Hmin : min_expiry (ls ++ [l]) =
    if (sc_earliest s =? 0) || time_before (expire_jiffies l) (sc_earliest s)
    then expire_jiffies l else sc_earliest s).
  { rewrite I2. destruct ls as [|l0 ls0]; [done|].
    assert (Hm : 0 < min_expiry (l0 :: ls0) < 2 ^ 62) by (apply I4; done).
    destruct (Z.eqb_spec (min_expiry (l0 :: ls0)) 0); [lia|]. cbn [orb].
    unfold time_before. set (m := min_expiry (l0 :: ls0)) in *. rewrite (time_after_near m) by lia.
    cbn [min_expiry app]. rewrite foldl_app. cbn [foldl]. change (foldl _ _ ls0) with m.
    destruct (Z.ltb_spec (expire_jiffies l) m); lia. }
  split_and!.
  - rewrite u64_small by lia. rewrite time_after_near by lia. rewrite I1, length_fmap, length_take.
    rewrite filter_app, filter_cons, filter_nil.
    destruct (Z.ltb_spec (expire_jiffies l) (now + POWERFS_LEASE_RENEW_THRESHOLD)); cbn [andb].
    + rewrite decide_True by (unfold due; lia). unfold POWERFS_LEASE_RENEW_BATCH.
      destruct (Nat.ltb_spec (Nat.min 16 (length (filter (due now) ls))) 16).
      * rewrite !take_ge by (rewrite ?length_app; cbn; lia). by rewrite fmap_app.
      * by rewrite take_app_le by lia.
    + rewrite decide_False by (unfold due; lia). by rewrite app_nil_r.
  - by rewrite Hmin.
  - symmetry. apply Nat.ltb_lt. rewrite length_app. cbn. lia.
  - intros _. rewrite Hmin. destruct (Z.eqb_spec (sc_earliest s) 0) as [|Hne]; cbn [orb]; [lia|].
    destruct (time_before _ _); [lia|]. rewrite I2. apply I4. intros ->. by rewrite I2 in Hne.
Qed.

(** Schedule of the renewal work: when it ran on an inode with leases
    (mount and inode not shutting down), it is queued again so that it runs
    [POWERFS_LEASE_RENEW_THRESHOLD] before the earliest expiry, or in one
    second when that moment has passed; the leases it tries are the first 16,
    in stripe order, that expire within the threshold. *)
Theorem renew_work_schedule (interf : tree -> tree) (s : sb_info) (w : W) (pi : lease_inode) :
  let now := net_jiffies w in
  let ls := elements (lease_tree pi) in
  let m := min_expiry ls in
  0 <= now < 2 ^ 62 -> 0 <= POWERFS_LEASE_RENEW_THRESHOLD < 2 ^ 62 -> Forall expiry_ok ls -> ls <> [] ->
  lease_wq s = true -> shutting_down s = false -> shutdown pi = false ->
  renew_delay (fst (powerfs_lease_renew_work_func interf (Some s) w pi)) =
    Some (if decide (now + POWERFS_LEASE_RENEW_THRESHOLD < m)
          then m - POWERFS_LEASE_RENEW_THRESHOLD - now else HZ) /\
  sc_items (scan_leases now (lease_tree pi)) = item_of <$> take 16 (filter (due now) ls).
Proof.
  intros now ls m Hn HT Hls Hne Hwq Hsd Hsh.
  destruct (scan_leases_spec now ls Hn HT Hls) as (S1 & S2 & S3 & S4). specialize (S4 Hne).
  change (foldl (scan_lease now) _ ls) with (scan_leases now (lease_tree pi)) in S1, S2, S3. split; [|exact S1].
  unfold powerfs_lease_renew_work_func. rewrite Hwq, Hsd. cbn [negb orb shutdown]. rewrite Hsh.
  cbn [lease_tree]. fold now. set (sc := scan_leases now (lease_tree pi)) in *.
  set (pi0 := mk_li _ _ _ _ None).
  pose proof (renew_loop_delay interf (sc_items sc) w pi0) as Hd.
  destruct (foldl _ _ (sc_items sc)) as [pi1 w1]. cbn [fst] in Hd.
  assert (Hhas : sc_has sc = true) by (rewrite S3; destruct ls; done).
  rewrite Hhas. cbn [andb fst]. unfold queue_renew. rewrite Hd. unfold pi0. cbn [renew_delay].
  f_equal. rewrite S2. fold m in S4 |- *. rewrite u64_small by lia.
  unfold time_before. rewrite time_after_near by lia.
  destruct (Z.ltb_spec (now + POWERFS_LEASE_RENEW_THRESHOLD) m).
  - rewrite decide_True by lia. apply u64_small. lia.
  - by rewrite decide_False by lia.
Qed.

Lemma update_lease_absent k f t :
  (forall l, l ∈ elements t -> stripe_start l <> k) -> update_lease k f t = t.
Proof.
  induction t as [|tl IHl x tr IHr]; cbn [update_lease elements]; intros H; [done|].
  rewrite IHl, IHr by (intros l Hl; apply H; rewrite elem_of_app, elem_of_cons; auto).
  destruct (Z.eqb_spec (stripe_start x) k) as [E|]; [|done].
  destruct (H x); [rewrite elem_of_app, elem_of_cons; auto|done].
Qed.

(** A re-acquired lease can be lost: when a renewal fails, the following
    acquire succeeds and the stripe's entry has meanwhile left the tree, the
    new token is stored nowhere and nothing is sent to release it: the state
    of the network is the one right after the acquire. *)
Theorem renew_reacquire_dropped (interf : tree -> tree) (w w1 w2 : W) (pi : lease_inode) (it : renew_item)
    (ret : Z) (e : option Z) (out : acquire_out) :
  powerfs_net_renew_lease w (volume_id pi) (i_ino pi) (Some (ri_token it)) (ri_token_len it) = (ret, e, w1) ->
  ret <> 0 -> acquire_stripe w1 pi (ri_stripe it) = (0, out, w2) ->
  tree_ok (interf (lease_tree pi)) ->
  powerfs_lease_find (interf (lease_tree pi)) (ri_stripe it) = None ->
  renew_one interf w pi it = (set_tree pi (interf (lease_tree pi)), w2).
Proof.
  intros Hr Hret Ha Ht Hf. unfold renew_one. rewrite Hr.
  destruct (Z.eqb_spec ret 0); [done|]. rewrite Ha. cbn [Z.eqb].
  by rewrite update_lease_absent by (by apply find_None).
Qed.
End ensure.

(** ** Concrete runs *)

Module Runs.
#[local] Instance time : KernelTime :=
  {| HZ := 1000; jiffies_to_msecs := fun j => j; msecs_to_jiffies := fun m => m |}.

(** A tree without rebalancing. *)
Definition spine (es : list powerfs_lease) : tree := foldr (fun x t => Node Leaf x t) Leaf es.

#[local] Instance plain_tree : RbTree :=
  {| rb_insert_color := fun t => t; rb_erase := fun k t => spine (filter (other_stripe k) (elements t)) |}.

Lemma elements_spine es : elements (spine es) = es.
Proof. induction es as [|x es IH]; [done|]. cbn. by f_equal. Qed.

#[local] Instance plain_tree_ok : RbTreeOk.
Proof. split; [done|]. intros k t. cbn. apply elements_spine. Qed.

(** A volume server that grants every acquire, refuses renewals when told to,
    and records the messages it was sent. *)
Definition world : Type := bool * list Z.

Definition abc : buffer := [97; 98; 99].

#[local] Instance server : NetTransport world :=
  {| net_jiffies := fun _ => 5000; net_kvmalloc := fun _ _ => true;
     net_send_to_volume := fun w _ msg _ _ =>
       let w' := (fst w, snd w ++ [msg]) in
       if msg =? POWERFS_NET_MSG_ACQUIRE_LEASE
       then (0, ops_message [OpString POWERFS_NET_FLD_LEASE_ID abc], w')
       else if (msg =? POWERFS_NET_MSG_RENEW_LEASE) && negb (fst w) then (- EIO, [], w')
       else (0, [], w');
     net_send_request := fun w _ _ _ _ => (- EIO, [], w) |}.

Definition lease_at (i : Z) (expire : Z) : powerfs_lease :=
  mk_lease (i * POWERFS_STRIPE_SIZE) 1 true abc 0 0 expire.

Definition inode_with (es : list powerfs_lease) : lease_inode := mk_li (spine es) 1 2 false None.
Definition mounted : sb_info := mk_sb true false.

Lemma spine_ok es : StronglySorted before es -> tree_ok (spine es).
Proof. unfold tree_ok. by rewrite elements_spine. Qed.

(** Two calls race for stripe 0; both acquire, the second insert finds the
    first one's lease and the release of its token fails.  Then the renewal
    work runs: the renewal is refused and the re-acquired token overwrites the
    first one. *)
Definition out_of (x : Z) : acquire_out := mk_acquire_out [x] 1 0 0 9000.

Definition raced : system :=
  mk_sys (Node Leaf (reacquired (out_of 3) (new_lease 0 (out_of 1))) Leaf)
    (mk_ledger [[3]; [2]; [1]] [(Overwritten, [1]); (ReleaseFailed, [2])]) [T_done; T_done; T_done].

Tactic Notation "start" hyp(R) constr(th) :=
  eapply reach_step in R; [|apply (ss_start _ _ _ _ th); exact I].
Tactic Notation "move" hyp(R) constr(i) uconstr(rule) :=
  eapply reach_step in R; [|eapply (ss_thread _ _ _ _ i); [reflexivity|eapply rule; reflexivity]].

Lemma out_of_ok x : x <> 0 -> grant_ok (out_of x).
Proof. intros H. split; cbn; [by rewrite (proj2 (Z.eqb_neq _ _) H)|reflexivity]. Qed.

Lemma raced_reachable : reachable true raced.
Proof.
  pose proof (reach_init true) as R. start R (T_lookup 0). start R (T_lookup 0).
  move R 0%nat (ts_none true _ _ 0 5000). move R 1%nat (ts_none true _ _ 0 5000).
  move R 0%nat (ts_acquired true _ _ _ (out_of 1) (out_of_ok 1 ltac:(done)) ltac:(done)).
  move R 1%nat (ts_acquired true _ _ _ (out_of 2) (out_of_ok 2 ltac:(done)) ltac:(done)).
  move R 0%nat (ts_inserted true). move R 1%nat (ts_lost_race true).
  move R 1%nat (ts_surplus true _ _ _ _ (rel_failed true _ _ (or_introl eq_refl))). start R T_scan.
  move R 2%nat (ts_scan true _ _ 5000). move R 2%nat (ts_renew_failed true).
  move R 2%nat (ts_reacquired true _ _ _ (out_of 3) _ (out_of_ok 3 ltac:(done))).
  move R 2%nat (ts_stored true). move R 2%nat (ts_renewals_done true).
  exact R.
Qed.

(** Three tokens were received and no release confirmed; one is in the tree. *)
Lemma lease_tokens_accounted_witness :
  s_granted raced ≡ₚ [[3]] ++ [[1]; [2]] /\ tree_ok (s_tree raced).
Proof.
  destruct (lease_tokens_accounted true raced raced_reachable) as (Ht & _ & H & _).
  split; [|exact Ht]. apply H. repeat constructor.
Defined.

(** The lease of stripe 1 has expired at time 5000; it is replaced. *)
Lemma ensure_lease_outcome_witness :
  let '(ret, pi', _) := ensure_lease (fun t => t) (Some mounted) (true, [])
    (inode_with [lease_at 0 9000; lease_at 1 4000]) POWERFS_STRIPE_SIZE in
  ret = 0 /\ powerfs_lease_find (lease_tree pi') 0 = Some (lease_at 0 9000) /\
  exists l, powerfs_lease_find (lease_tree pi') POWERFS_STRIPE_SIZE = Some l.
Proof.
  assert (Hok : tree_ok (lease_tree (inode_with [lease_at 0 9000; lease_at 1 4000])))
    by (apply spine_ok; repeat constructor).
  pose proof (ensure_lease_outcome (Some mounted) ((true, []) : world) _ POWERFS_STRIPE_SIZE Hok) as H.
  destruct (ensure_lease _ _ _ _ _) as [[ret pi'] w'] eqn:E.
  assert (Hret : ret = 0) by (vm_compute in E; congruence).
  destruct H as (_ & H2 & _ & H4). destruct (H4 Hret) as (l & Hl & _).
  split; [exact Hret|]. split; [|exists l; exact Hl].
  exact (H2 0 ltac:(vm_compute; congruence)).
Defined.

Definition seventeen : list powerfs_lease := (fun i => lease_at (Z.of_nat i) 9000) <$> seq 0 17.

Lemma release_all_leases_outcome_witness :
  elements (lease_tree (fst (release_all_leases ((true, []) : world) (inode_with seventeen)))) =
    [lease_at 16 9000].
Proof.
  assert (Hok : tree_ok (lease_tree (inode_with seventeen)))
    by (apply spine_ok; repeat constructor).
  pose proof (release_all_leases_outcome ((true, []) : world) (inode_with seventeen) Hok) as H.
  destruct (release_all_leases _ _) as [pi' w']. destruct H as (_ & H & _). exact H.
Defined.

Lemma renew_work_schedule_witness :
  renew_delay (fst (powerfs_lease_renew_work_func (fun t => t) (Some mounted) ((true, []) : world)
    (inode_with [lease_at 0 40000; lease_at 1 30000]))) = Some 15000.
Proof.
  assert (Hls : Forall expiry_ok [lease_at 0 40000; lease_at 1 30000])
    by (repeat constructor; vm_compute; reflexivity).
  destruct (renew_work_schedule (fun t => t) mounted ((true, []) : world)
    (inode_with [lease_at 0 40000; lease_at 1 30000])) as [H _];
    [vm_compute; split; congruence|vm_compute; split; congruence|exact Hls|discriminate
    |reflexivity|reflexivity|reflexivity|].
  exact H.
Defined.

(** The renewal of stripe 0 is refused while its lease is released elsewhere;
    the acquire that follows is the last message sent. *)
Lemma renew_reacquire_dropped_witness :
  renew_one (fun _ => Leaf) ((false, []) : world) (inode_with [lease_at 0 9000]) (mk_item 0 abc 3) =
    (inode_with [], (false, [POWERFS_NET_MSG_RENEW_LEASE; POWERFS_NET_MSG_ACQUIRE_LEASE])).
Proof.
  refine (renew_reacquire_dropped (fun _ => Leaf) (false, [])
    (false, [POWERFS_NET_MSG_RENEW_LEASE])
    (false, [POWERFS_NET_MSG_RENEW_LEASE; POWERFS_NET_MSG_ACQUIRE_LEASE])
    (inode_with [lease_at 0 9000]) (mk_item 0 abc 3) (- EIO) None (mk_acquire_out abc 3 0 0 35000) _ _ _ _ _).
  - vm_compute. reflexivity.
  - vm_compute. congruence.
  - vm_compute. reflexivity.
  - exact tree_ok_leaf.
  - reflexivity.
Defined.
End Runs.
