(* ===== verification/Flow.v ===== *)
(** * Flow: admission control and flow statistics

    Models [src/powerfs_mod/powerfs_flow.c], the types of [powerfs_flow.h] and
    the write submission of [powerfs_net_data.c] that uses it.  The module is
    lock-free: its state is a set of atomic variables, so a function is a
    program ([prog]) whose steps are the single atomic accesses of the C code
    ([Act]) and the waits on [admit_wq] ([Wait]).  [eval] runs one program
    alone; [pool_step] interleaves any number of them access by access.

    Shown: the admission policy with its load-factor percentages; that the
    request, byte and error counters are exact in every interleaving; that
    concurrent writers keep a connection within its cap up to one request per
    writer; that a connection is marked slow, and recovers, after finitely
    many completions. *)

From S2P Require Import Prelude.

Definition EFAULT : Z := 14.

Definition POWERFS_NET_MAX_FILERS : nat := 16.
Definition POWERFS_NET_MAX_VOLUMES : nat := 32.
Definition POWERFS_FLOW_MAX_CONNS : nat := POWERFS_NET_MAX_FILERS + POWERFS_NET_MAX_VOLUMES.
Definition POWERFS_FLOW_MAX_ACTIVE_GLOBAL : Z := 256.
Definition POWERFS_FLOW_MAX_ACTIVE_PER_CONN : Z := 64.
Definition POWERFS_FLOW_EWMA_ALPHA_SHIFT : Z := 3.
Definition POWERFS_FLOW_SLOW_LAT_THRESH_NS : Z := 200 * 1000000.
Definition POWERFS_FLOW_LF_IDLE : Z := 0.
Definition POWERFS_FLOW_LF_NORMAL : Z := 1.
Definition POWERFS_FLOW_LF_BUSY : Z := 2.
Definition POWERFS_FLOW_LF_OVERLOAD : Z := 3.

Inductive powerfs_flow_op :=
| POWERFS_FLOW_OP_READ | POWERFS_FLOW_OP_WRITE | POWERFS_FLOW_OP_LOOKUP
| POWERFS_FLOW_OP_READDIR | POWERFS_FLOW_OP_WRITEBACK | POWERFS_FLOW_OP_LEASE.

Inductive powerfs_flow_decision := POWERFS_FLOW_ADMIT | POWERFS_FLOW_QUEUE | POWERFS_FLOW_REJECT.
#[global] Instance decision_eq_dec : EqDecision powerfs_flow_decision.
Proof. solve_decision. Defined.

(** ** The controller as a memory of atomics *)

(** Fields of [struct powerfs_flow_conn_stats]. *)
Inductive conn_field :=
| active_reqs | server_load_factor | slow | total_reqs | total_errs | total_bytes | total_lat_ns
| ewma_lat_ns | lf_update_jiffies.

(** Fields of [struct powerfs_flow_global]. *)
Inductive global_field :=
| g_active_reqs | g_active_conns | g_slow_conns | g_total_reqs | g_total_errs | g_total_bytes_sent
| g_total_bytes_recv | g_queue_count | g_reject_count | g_queue_wakeups.

(** Configuration fields of [struct powerfs_flow_controller]. *)
Inductive config_field := max_active_global | max_active_per_conn | slow_lat_thresh_ns.

Inductive loc := Conn (i : nat) (f : conn_field) | Global (f : global_field) | Config (f : config_field).
#[global] Instance conn_field_eq_dec : EqDecision conn_field.
Proof. solve_decision. Defined.
#[global] Instance global_field_eq_dec : EqDecision global_field.
Proof. solve_decision. Defined.
#[global] Instance config_field_eq_dec : EqDecision config_field.
Proof. solve_decision. Defined.
#[global] Instance loc_eq_dec : EqDecision loc.
Proof. solve_decision. Defined.

(** Width of each variable: [atomic_t], [atomic64_t], [unsigned int],
    [unsigned long]. *)
Definition width (l : loc) (x : Z) : Z :=
  match l with
  | Conn _ (active_reqs | server_load_factor | slow) => s32 x
  | Global (g_active_reqs | g_active_conns | g_slow_conns) => s32 x
  | Config (max_active_global | max_active_per_conn) => u32 x
  | Config slow_lat_thresh_ns => u64 x
  | _ => s64 x
  end.

Definition powerfs_flow_controller : Type := loc -> Z.

Definition upd (m : powerfs_flow_controller) (l : loc) (v : Z) : powerfs_flow_controller :=
  fun l' => if decide (l' = l) then width l v else m l'.

(** ** Programs over the controller *)

Inductive action := Read (l : loc) | Add (l : loc) (n : Z) | Store (l : loc) (v : Z).

Definition perform (m : powerfs_flow_controller) (a : action) : Z * powerfs_flow_controller :=
  match a with
  | Read l => (m l, m)
  | Add l n => (0, upd m l (m l + n))
  | Store l v => (0, upd m l v)
  end.

(** [Wait c k] is [wait_event_timeout(admit_wq, c, t)]; it continues with
    whether the condition held. *)
Inductive prog (A : Type) : Type :=
| Ret (a : A)
| Act (a : action) (k : Z -> prog A)
| Wait (c : powerfs_flow_controller -> bool) (k : bool -> prog A).
Arguments Ret {A} a.
Arguments Act {A} a k.
Arguments Wait {A} c k.

#[global] Instance prog_ret : MRet prog := fun A a => Ret a.
#[global] Instance prog_bind : MBind prog :=
  fix go A B (f : A -> prog B) (p : prog A) : prog B :=
    match p with
    | Ret a => f a
    | Act a k => Act a (fun v => go A B f (k v))
    | Wait c k => Wait c (fun b => go A B f (k b))
    end.

Definition atomic_read (l : loc) : prog Z := Act (Read l) Ret.
Definition atomic_add (n : Z) (l : loc) : prog unit := Act (Add l n) (fun _ => Ret tt).
Definition atomic_inc (l : loc) : prog unit := atomic_add 1 l.
Definition atomic_dec (l : loc) : prog unit := atomic_add (-1) l.
Definition atomic_set (l : loc) (v : Z) : prog unit := Act (Store l v) (fun _ => Ret tt).
Definition wait_event (c : powerfs_flow_controller -> bool) : prog bool := Wait c Ret.
Definition when_ (b : bool) (p : prog unit) : prog unit := if b then p else Ret tt.

(** One program alone; [interf] is what the rest of the system does to the
    variables while the program sleeps. *)
Fixpoint eval {A} (interf : powerfs_flow_controller -> powerfs_flow_controller) (p : prog A)
    (m : powerfs_flow_controller) : A * powerfs_flow_controller :=
  match p with
  | Ret a => (a, m)
  | Act a k => let '(v, m) := perform m a in eval interf (k v) m
  | Wait c k => if c m then eval interf (k true) m
                else let m := interf m in eval interf (k (c m)) m
  end.

(** ** Operations *)

(** [flow_get_stats]: the index of the statistics, [None] for NULL. *)
Definition flow_get_stats (flow_idx : Z) : option nat :=
  if (0 <=? flow_idx) && (flow_idx <? Z.of_nat POWERFS_FLOW_MAX_CONNS)
  then Some (Z.to_nat flow_idx) else None.

Definition powerfs_flow_filer_idx (filer_idx : Z) : Z := filer_idx.
Definition powerfs_flow_volume_idx (vol_idx : Z) : Z := Z.of_nat POWERFS_NET_MAX_FILERS + vol_idx.

Definition ewma_next (old new_val : Z) : Z :=
  u64 (old - Z.shiftr old POWERFS_FLOW_EWMA_ALPHA_SHIFT + Z.shiftr new_val POWERFS_FLOW_EWMA_ALPHA_SHIFT).

Definition ewma_update (ewma : loc) (new_val : Z) : prog unit :=
  old ← atomic_read ewma;
  atomic_set ewma (ewma_next (u64 old) new_val).

Fixpoint max_lf_loop (idxs : list nat) (max_lf : Z) : prog Z :=
  match idxs with
  | [] => Ret max_lf
  | i :: idxs =>
      v ← atomic_read (Conn i server_load_factor);
      let lf := u8 v in
      max_lf_loop idxs (if lf >? max_lf then lf else max_lf)
  end.

Definition powerfs_flow_max_load_factor : prog Z := max_lf_loop (seq 0 POWERFS_NET_MAX_FILERS) 0.

(** The load-factor switch shared by both admission checks: C [int]
    arithmetic, then at least 1. *)
Definition scaled_max (max lf : Z) : Z :=
  let max :=
    if lf =? POWERFS_FLOW_LF_OVERLOAD then max ÷ 4
    else if lf =? POWERFS_FLOW_LF_BUSY then max ÷ 2
    else if lf =? POWERFS_FLOW_LF_NORMAL then s32 (max * 3) ÷ 4
    else max in
  if max <? 1 then 1 else max.

Definition refusal (lf : Z) : powerfs_flow_decision :=
  if lf >=? POWERFS_FLOW_LF_OVERLOAD then POWERFS_FLOW_REJECT else POWERFS_FLOW_QUEUE.

Definition powerfs_flow_admit_vfs (op : powerfs_flow_op) : prog powerfs_flow_decision :=
  global_active ← atomic_read (Global g_active_reqs);
  lf ← powerfs_flow_max_load_factor;
  max ← atomic_read (Config max_active_global);
  let max := scaled_max (s32 max) lf in
  Ret (if global_active >=? max then refusal lf else POWERFS_FLOW_ADMIT).

Definition admitted (op : powerfs_flow_op) (m : powerfs_flow_controller) : bool :=
  bool_decide (fst (eval (fun m => m) (powerfs_flow_admit_vfs op) m) = POWERFS_FLOW_ADMIT).

Definition powerfs_flow_admit_wait (op : powerfs_flow_op) : prog Z :=
  d ← powerfs_flow_admit_vfs op;
  if decide (d = POWERFS_FLOW_ADMIT) then Ret 0 else
  _ ← atomic_read (Global g_active_reqs);
  _ ← atomic_inc (Global g_queue_count);
  ok ← wait_event (admitted op);
  if (ok : bool) then _ ← atomic_inc (Global g_queue_wakeups); Ret 0 else
  d ← powerfs_flow_admit_vfs op;
  if decide (d = POWERFS_FLOW_ADMIT) then _ ← atomic_inc (Global g_queue_wakeups); Ret 0 else
  _ ← atomic_inc (Global g_reject_count);
  Ret (- EBUSY).

Definition wr_cap (max : Z) : Z := let cap := s32 (max / 4) in if cap <? 1 then 1 else cap.

Definition powerfs_flow_wait_wr_slot (flow_idx : Z) : prog Z :=
  match flow_get_stats flow_idx with
  | None => Ret 0
  | Some i =>
      max ← atomic_read (Config max_active_per_conn);
      let cap := wr_cap max in
      a ← atomic_read (Conn i active_reqs);
      if a <? cap then Ret 0 else
      _ ← atomic_inc (Global g_queue_count);
      ok ← wait_event (fun m => m (Conn i active_reqs) <? cap);
      if (ok : bool) then _ ← atomic_inc (Global g_queue_wakeups); Ret 0 else
      a ← atomic_read (Conn i active_reqs);
      if a <? cap then _ ← atomic_inc (Global g_queue_wakeups); Ret 0 else
      _ ← atomic_inc (Global g_reject_count);
      Ret (- EBUSY)
  end.

(** [powerfs_flow_init]: everything zero except the configuration. *)
Definition powerfs_flow_init : powerfs_flow_controller := fun l =>
  match l with
  | Config max_active_global => POWERFS_FLOW_MAX_ACTIVE_GLOBAL
  | Config max_active_per_conn => POWERFS_FLOW_MAX_ACTIVE_PER_CONN
  | Config slow_lat_thresh_ns => POWERFS_FLOW_SLOW_LAT_THRESH_NS
  | _ => 0
  end.

Definition powerfs_flow_admit (op : powerfs_flow_op) (flow_idx : Z) : prog powerfs_flow_decision :=
  match flow_get_stats flow_idx with
  | None => Ret POWERFS_FLOW_ADMIT
  | Some i =>
      active ← atomic_read (Conn i active_reqs);
      lf ← atomic_read (Conn i server_load_factor);
      max ← atomic_read (Config max_active_per_conn);
      let max := scaled_max (s32 max) lf in
      global_active ← atomic_read (Global g_active_reqs);
      max_global ← atomic_read (Config max_active_global);
      Ret (if global_active >=? s32 max_global then refusal lf
           else if active >=? max then refusal lf else POWERFS_FLOW_ADMIT)
  end.

Definition powerfs_flow_record_start (flow_idx est_bytes : Z) : prog unit :=
  match flow_get_stats flow_idx with
  | None => Ret tt
  | Some i =>
      _ ← atomic_inc (Conn i active_reqs);
      _ ← atomic_inc (Global g_active_reqs);
      when_ (est_bytes >? 0) (atomic_add est_bytes (Global g_total_bytes_sent))
  end.

Definition powerfs_flow_record_complete (flow_idx lat_ns bytes : Z) (error : bool) : prog unit :=
  match flow_get_stats flow_idx with
  | None => Ret tt
  | Some i =>
      _ ← atomic_dec (Conn i active_reqs);
      _ ← atomic_dec (Global g_active_reqs);
      _ ← atomic_inc (Conn i total_reqs);
      _ ← atomic_inc (Global g_total_reqs);
      _ ← atomic_add lat_ns (Conn i total_lat_ns);
      _ ← atomic_add bytes (Conn i total_bytes);
      _ ← atomic_add bytes (Global g_total_bytes_recv);
      _ ← when_ error (_ ← atomic_inc (Conn i total_errs); atomic_inc (Global g_total_errs));
      _ ← ewma_update (Conn i ewma_lat_ns) lat_ns;
      ewma ← atomic_read (Conn i ewma_lat_ns);
      s ← atomic_read (Conn i slow);
      thresh ← atomic_read (Config slow_lat_thresh_ns);
      let was_slow := negb (s =? 0) in
      let is_slow := u64 ewma >? thresh in
      when_ (xorb was_slow is_slow)
        (_ ← atomic_set (Conn i slow) (if is_slow then 1 else 0);
         if is_slow then atomic_inc (Global g_slow_conns) else atomic_dec (Global g_slow_conns))
  end.

Definition powerfs_flow_on_load_factor (flow_idx lf jiffies : Z) : prog unit :=
  match flow_get_stats flow_idx with
  | None => Ret tt
  | Some i =>
      let lf := Z.min lf 3 in
      old ← atomic_read (Conn i server_load_factor);
      when_ (negb (u8 old =? lf))
        (_ ← atomic_set (Conn i server_load_factor) lf;
         atomic_set (Conn i lf_update_jiffies) jiffies)
  end.

Definition powerfs_flow_conn_active (flow_idx : Z) : prog Z :=
  match flow_get_stats flow_idx with None => Ret 0 | Some i => atomic_read (Conn i active_reqs) end.

Definition powerfs_flow_conn_load_factor (flow_idx : Z) : prog Z :=
  match flow_get_stats flow_idx with
  | None => Ret 0
  | Some i => v ← atomic_read (Conn i server_load_factor); Ret (u8 v)
  end.

(** The debugfs control: [parsed] is what [kstrtouint] made of the text,
    [None] when it fails; [copied] tells whether [copy_from_user] succeeded. *)
Definition flow_max_global_write (copied : bool) (parsed : option Z) (count : Z) : prog Z :=
  if negb copied then Ret (- EFAULT) else
  match parsed with
  | None => Ret (- EINVAL)
  | Some val => if val =? 0 then Ret (- EINVAL) else _ ← atomic_set (Config max_active_global) val; Ret count
  end.

(** The flow-control part of an asynchronous write submission
    ([powerfs_net_data.c]): wait for a slot, count the request, send; [sent]
    is what [powerfs_request_do_send] returns. *)
Definition submit_write (flow_idx len sent : Z) : prog Z :=
  r ← powerfs_flow_wait_wr_slot flow_idx;
  if negb (r =? 0) then Ret (- EBUSY) else
  _ ← powerfs_flow_record_start flow_idx len;
  if negb (sent =? 0) then _ ← powerfs_flow_record_complete flow_idx 0 0 true; Ret sent else Ret 0.

(** [struct powerfs_net_server_conn] by its place in [g_pool]. *)
Inductive pool_slot := FilerSlot (i : nat) | VolumeSlot (i : nat) | NoSlot.

Definition pfs_conn_flow_idx (conn : pool_slot) : Z :=
  match conn with
  | FilerSlot i => Z.of_nat i
  | VolumeSlot i => Z.of_nat POWERFS_NET_MAX_FILERS + Z.of_nat i
  | NoSlot => -1
  end.

Definition POWERFS_NET_FLAG_LOAD_FACTOR_GET (flags : Z) : Z := Z.shiftr (Z.land flags 0xC0) 6.

(** The load-factor step of [pfs_rx_dispatch] for a response frame. *)
Definition rx_load_factor (conn : pool_slot) (flags jiffies : Z) : prog unit :=
  let lf := POWERFS_NET_FLAG_LOAD_FACTOR_GET flags in
  let flow_idx := pfs_conn_flow_idx conn in
  when_ ((flow_idx >=? 0) && (lf >? 0)) (powerfs_flow_on_load_factor flow_idx lf jiffies).

(** ** Running programs *)

Lemma eval_bind {A B} interf (p : prog A) (f : A -> prog B) m :
  eval interf (p ≫= f) m = let '(a, m') := eval interf p m in eval interf (f a) m'.
Proof.
  revert m; induction p as [a|a k IH|c k IH]; intros m; cbn; [done| |].
  - destruct (perform m a) as [v m']. apply IH.
  - destruct (c m); apply IH.
Qed.

(** The largest load factor of the Filer connections. *)
Definition worst_lf (m : powerfs_flow_controller) : Z :=
  foldl (fun acc i => Z.max acc (u8 (m (Conn i server_load_factor)))) 0 (seq 0 POWERFS_NET_MAX_FILERS).

Lemma eval_max_lf_loop interf idxs acc m :
  eval interf (max_lf_loop idxs acc) m =
    (foldl (fun acc i => Z.max acc (u8 (m (Conn i server_load_factor)))) acc idxs, m).
Proof.
  revert acc; induction idxs as [|i idxs IH]; intros acc; [done|]. cbn [max_lf_loop foldl].
  rewrite eval_bind. cbn [eval atomic_read perform]. rewrite IH. do 2 f_equal. case_if; lia.
Qed.

Lemma eval_max_load_factor interf m : eval interf powerfs_flow_max_load_factor m = (worst_lf m, m).
Proof. exact (eval_max_lf_loop interf (seq 0 POWERFS_NET_MAX_FILERS) 0 m). Qed.

Lemma flow_get_stats_valid (i : nat) :
  (i < POWERFS_FLOW_MAX_CONNS)%nat -> flow_get_stats (Z.of_nat i) = Some i.
Proof.
  intros H. unfold flow_get_stats.
  rewrite (proj2 (Z.leb_le 0 (Z.of_nat i))), (proj2 (Z.ltb_lt (Z.of_nat i) _)) by lia.
  by rewrite Nat2Z.id.
Qed.

(** The documented shares: 100%, 75%, 50% and 25%, and at least one. *)
Definition lf_limit (max lf : Z) : Z := Z.max 1 (max * (4 - lf) / 4).

Lemma scaled_max_limit max lf :
  0 <= max <= 715827882 -> 0 <= lf <= 3 -> scaled_max max lf = lf_limit max lf.
Proof.
  intros Hm Hlf. unfold scaled_max, lf_limit, POWERFS_FLOW_LF_OVERLOAD, POWERFS_FLOW_LF_BUSY, POWERFS_FLOW_LF_NORMAL.
  assert (Hs : s32 (max * 3) = max * 3) by (unfold s32; rewrite Z.mod_small; lia).
  rewrite Hs, !Z.quot_div_nonneg by lia.
  destruct (Z.eqb_spec lf 3); [|destruct (Z.eqb_spec lf 2); [|destruct (Z.eqb_spec lf 1);
    [|assert (lf = 0) by lia]]]; subst lf; cbv zeta iota; case_if; div_lia.
Qed.

Lemma lf_limit_antitone max lf lf' : 0 <= max -> 0 <= lf <= lf' -> lf_limit max lf' <= lf_limit max lf.
Proof.
  intros Hm Hl. unfold lf_limit. apply Z.max_le_compat_l. apply Z.div_le_mono; [lia|]. nia.
Qed.

Lemma s32_small x : - 2 ^ 31 <= x < 2 ^ 31 -> s32 x = x.
Proof. intros. unfold s32. rewrite Z.mod_small; lia. Qed.

Lemma s32_u32 x : s32 (u32 x) = s32 x.
Proof. unfold s32, u32. by rewrite Zplus_mod_idemp_l. Qed.

(** Load factors as [powerfs_flow_on_load_factor] leaves them. *)
Definition lf_ok (m : powerfs_flow_controller) : Prop := forall i, 0 <= m (Conn i server_load_factor) <= 3.

Lemma worst_lf_range m : lf_ok m -> 0 <= worst_lf m <= 3.
Proof.
  intros H. unfold worst_lf. generalize (seq 0 POWERFS_NET_MAX_FILERS) as l. intros l.
  assert (Hg : forall acc, 0 <= acc <= 3 ->
    0 <= foldl (fun acc i => Z.max acc (u8 (m (Conn i server_load_factor)))) acc l <= 3); [|apply Hg; lia].
  induction l as [|i l IH]; intros acc Ha; cbn [foldl]; [done|]. apply IH.
  specialize (H i). rewrite u8_small by lia. lia.
Qed.

(** ** Interleaving *)

(** A pool of programs over one controller.  A sleeper continues when its
    condition holds, or with a timeout while it does not. *)
Inductive pool_step : powerfs_flow_controller * list (prog unit) ->
                      powerfs_flow_controller * list (prog unit) -> Prop :=
| ps_act m ths t a k :
    ths !! t = Some (Act a k) ->
    pool_step (m, ths) (snd (perform m a), <[t := k (fst (perform m a))]> ths)
| ps_woken m ths t c k :
    ths !! t = Some (Wait c k) -> c m = true -> pool_step (m, ths) (m, <[t := k true]> ths)
| ps_timeout m ths t c k :
    ths !! t = Some (Wait c k) -> c m = false -> pool_step (m, ths) (m, <[t := k false]> ths).

Inductive call :=
| CStart (flow_idx est_bytes : Z)
| CComplete (flow_idx lat_ns bytes : Z) (error : bool)
| CLoadFactor (flow_idx lf jiffies : Z)
| CAdmit (op : powerfs_flow_op) (flow_idx : Z)
| CAdmitWait (op : powerfs_flow_op).

Definition forget {A} (p : prog A) : prog unit := _ ← p; Ret tt.

Definition call_prog (c : call) : prog unit :=
  match c with
  | CStart i b => powerfs_flow_record_start i b
  | CComplete i lat b e => powerfs_flow_record_complete i lat b e
  | CLoadFactor i lf j => powerfs_flow_on_load_factor i lf j
  | CAdmit op i => forget (powerfs_flow_admit op i)
  | CAdmitWait op => forget (powerfs_flow_admit_wait op)
  end.

(** States reached from [m0] with the threads [ths0] running, while calls
    arrive at any moment; the last index lists the calls made. *)
Inductive reach (m0 : powerfs_flow_controller) (ths0 : list (prog unit)) :
    powerfs_flow_controller -> list (prog unit) -> list call -> Prop :=
| reach_start : reach m0 ths0 m0 ths0 []
| reach_pool m ths cs m' ths' :
    reach m0 ths0 m ths cs -> pool_step (m, ths) (m', ths') -> reach m0 ths0 m' ths' cs
| reach_call m ths cs c :
    reach m0 ths0 m ths cs -> reach m0 ths0 m (ths ++ [call_prog c]) (cs ++ [c]).

(** ** Exact counters *)

(** What an action adds to a variable. *)
Definition delta (l : loc) (a : action) : Z :=
  match a with Add l' n => if decide (l' = l) then n else 0 | _ => 0 end.

Definition stores (a : action) (l : loc) : Prop := match a with Store l' _ => l' = l | _ => False end.

(** [adds l p r]: on every path [p] adds [r] to [l] in total and never
    overwrites it. *)
Inductive adds {A} (l : loc) : prog A -> Z -> Prop :=
| adds_ret a r : r = 0 -> adds l (Ret a) r
| adds_act a k r : ~ stores a l -> (forall v, adds l (k v) (r - delta l a)) -> adds l (Act a k) r
| adds_wait c k r : (forall b, adds l (k b) r) -> adds l (Wait c k) r.

Lemma adds_bind {A B} l (p : prog A) (f : A -> prog B) r :
  adds l p 0 -> (forall a, adds l (f a) r) -> adds l (p ≫= f) r.
Proof.
  intros Hp Hf.
  assert (Hg : forall r0, adds l p r0 -> adds l (p ≫= f) (r + r0)).
  2:{ replace r with (r + 0) by lia. by apply Hg. }
  clear Hp. intros r0 Hp. induction Hp as [a r0 ->|a k r0 Hs _ IH|c k r0 _ IH]; cbn.
  - rewrite Z.add_0_r. apply Hf.
  - constructor; [done|]. intros v. replace (r + r0 - delta l a) with (r + (r0 - delta l a)) by lia. apply IH.
  - constructor. apply IH.
Qed.

(** The variables the statistics calls only add to. *)
Definition exact_counter (l : loc) : bool :=
  match l with
  | Conn _ (active_reqs | total_reqs | total_errs | total_bytes | total_lat_ns) => true
  | Global (g_active_reqs | g_total_reqs | g_total_errs | g_total_bytes_sent | g_total_bytes_recv) => true
  | _ => false
  end.

(** What a call is meant to contribute to each of them. *)
Definition effects (c : call) : list (loc * Z) :=
  match c with
  | CStart idx b =>
      match flow_get_stats idx with
      | None => []
      | Some i => [(Conn i active_reqs, 1); (Global g_active_reqs, 1); (Global g_total_bytes_sent, Z.max b 0)]
      end
  | CComplete idx lat b e =>
      match flow_get_stats idx with
      | None => []
      | Some i =>
          let err := if (e : bool) then 1 else 0 in
          [(Conn i active_reqs, -1); (Global g_active_reqs, -1); (Conn i total_reqs, 1);
           (Global g_total_reqs, 1); (Conn i total_lat_ns, lat); (Conn i total_bytes, b);
           (Global g_total_bytes_recv, b); (Conn i total_errs, err); (Global g_total_errs, err)]
      end
  | _ => []
  end.

Definition effect_on (l : loc) (c : call) : Z :=
  foldr (fun e acc => (if decide (fst e = l) then snd e else 0) + acc) 0 (effects c).

Definition total_effect (l : loc) (cs : list call) : Z := foldr (fun c acc => effect_on l c + acc) 0 cs.

Lemma total_effect_app l cs c : total_effect l (cs ++ [c]) = total_effect l cs + effect_on l c.
Proof. induction cs as [|c' cs IH]; cbn; [lia|]. unfold total_effect in IH. lia. Qed.

Ltac prog_cbn :=
  cbv beta delta [atomic_read atomic_add atomic_inc atomic_dec atomic_set wait_event forget];
  cbn [mbind prog_bind].

(** Follow a program to its ends; what remains are equations between sums of
    [delta]s. *)
Ltac walk_adds :=
  prog_cbn;
  match goal with
  | |- adds _ (Ret _) _ => apply adds_ret
  | |- adds _ (Act _ _) _ => apply adds_act; [cbn [stores]; intros ?; subst; done|intros ?]; walk_adds
  | |- adds _ (Wait _ _) _ => apply adds_wait; intros ?; walk_adds
  | |- adds _ (if ?b then _ else _) _ => destruct b eqn:?; walk_adds
  | _ => idtac
  end.

Lemma delta_other l l' n : exact_counter l = true -> exact_counter l' = false -> delta l (Add l' n) = 0.
Proof. intros H1 H2. cbn. case_decide; [congruence|done]. Qed.

Ltac solve_delta :=
  rewrite ?(delta_other _ (Global g_slow_conns)), ?(delta_other _ (Global g_queue_count)),
    ?(delta_other _ (Global g_queue_wakeups)), ?(delta_other _ (Global g_reject_count)) by done;
  cbn [delta]; first [lia | repeat case_decide; subst; try discriminate; lia].

Lemma max_lf_loop_adds l idxs acc : adds l (max_lf_loop idxs acc) 0.
Proof.
  revert acc; induction idxs as [|i idxs IH]; intros acc; [by apply adds_ret|].
  cbn. apply adds_act; [cbn; tauto|intros v; apply IH].
Qed.

#[local] Arguments powerfs_flow_max_load_factor : simpl never.
#[local] Arguments powerfs_flow_admit_vfs : simpl never.

Lemma admit_vfs_adds l op : adds l (powerfs_flow_admit_vfs op) 0.
Proof.
  unfold powerfs_flow_admit_vfs. cbn. apply adds_act; [cbn; tauto|]. intros v.
  apply adds_bind; [apply max_lf_loop_adds|]. intros lf. walk_adds. done.
Qed.

Lemma call_adds l c : exact_counter l = true -> adds l (call_prog c) (effect_on l c).
Proof.
  intros Hl. destruct c as [idx b|idx lat b e|idx lf j|op idx|op];
    unfold effect_on; cbn [effects call_prog foldr fst snd].
  - unfold powerfs_flow_record_start, when_. destruct (flow_get_stats idx) as [i|]; [|by apply adds_ret].
    cbn [foldr fst snd]. walk_adds; bool_to_prop; solve_delta.
  - unfold powerfs_flow_record_complete, when_, ewma_update.
    destruct (flow_get_stats idx) as [i|]; [|by apply adds_ret].
    cbn [foldr fst snd]. destruct e; walk_adds; solve_delta.
  - unfold powerfs_flow_on_load_factor, when_. destruct (flow_get_stats idx) as [i|]; [|by apply adds_ret].
    walk_adds; solve_delta.
  - unfold forget, powerfs_flow_admit. destruct (flow_get_stats idx) as [i|]; walk_adds; solve_delta.
  - unfold forget, powerfs_flow_admit_wait. apply adds_bind; [|intros; by apply adds_ret].
    apply adds_bind; [apply admit_vfs_adds|]. intros d. case_decide; [by apply adds_ret|].
    walk_adds; [solve_delta|]. rewrite !delta_other by done.
    apply adds_bind; [apply admit_vfs_adds|]. intros d'. case_decide; walk_adds; solve_delta.
Qed.

Lemma width_add l x y : width l (width l x + y) = width l (x + y).
Proof.
  assert (Hs : forall n x y, ((x + 2 ^ n) mod 2 ^ (n + 1) - 2 ^ n + y + 2 ^ n) mod 2 ^ (n + 1) =
                             (x + y + 2 ^ n) mod 2 ^ (n + 1)).
  { intros n a b. replace ((a + 2 ^ n) mod 2 ^ (n + 1) - 2 ^ n + b + 2 ^ n)
      with ((a + 2 ^ n) mod 2 ^ (n + 1) + b) by lia.
    rewrite Zplus_mod_idemp_l. f_equal. lia. }
  pose proof (Hs 31) as H31. pose proof (Hs 63) as H63.
  destruct l as [i []|[]|[]]; cbn [width]; unfold s32, s64, u32, u64;
    first [by rewrite H31 | by rewrite H63 | apply Zplus_mod_idemp_l].
Qed.

Lemma width_idem l x : width l (width l x) = width l x.
Proof. pose proof (width_add l x 0) as H. by rewrite !Z.add_0_r in H. Qed.

Definition zsum (rs : list Z) : Z := foldr Z.add 0 rs.

Lemma zsum_cons r rs : zsum (r :: rs) = r + zsum rs.
Proof. done. Qed.

Lemma zsum_app rs rs' : zsum (rs ++ rs') = zsum rs + zsum rs'.
Proof. induction rs as [|r rs IH]; [done|]. cbn [app]. rewrite !zsum_cons, IH. lia. Qed.

Lemma zsum_insert rs t r r' : rs !! t = Some r -> zsum (<[t := r']> rs) = zsum rs - r + r'.
Proof.
  revert t; induction rs as [|x rs IH]; intros [|t] H; [done..| |].
  - injection H as ->. change (zsum (r' :: rs) = zsum (r :: rs) - r + r'). rewrite !zsum_cons. lia.
  - change (zsum (x :: <[t := r']> rs) = zsum (x :: rs) - r + r'). rewrite !zsum_cons, (IH t H). lia.
Qed.

(** What the running threads still owe to [l]. *)
Definition owed (l : loc) (m : powerfs_flow_controller) (ths : list (prog unit)) (total : Z) : Prop :=
  exists rs, Forall2 (adds l) ths rs /\ width l (m l + zsum rs) = width l total /\ width l (m l) = m l.

Lemma perform_width l m a r :
  ~ stores a l -> width l (m l) = m l ->
  width l (snd (perform m a) l + (r - delta l a)) = width l (m l + r) /\
  width l (snd (perform m a) l) = snd (perform m a) l.
Proof.
  intros Hs Hw. destruct a as [l'|l' n|l' v]; cbn in *; unfold upd.
  - split; [f_equal; lia|done].
  - destruct (decide (l' = l)) as [->|]; [rewrite decide_True by done|rewrite decide_False by done].
    + rewrite width_add, width_idem. split; [f_equal; lia|done].
    + split; [f_equal; lia|done].
  - rewrite decide_False by congruence. split; [f_equal; lia|done].
Qed.

Lemma pool_step_owed l m ths m' ths' total :
  pool_step (m, ths) (m', ths') -> owed l m ths total -> owed l m' ths' total.
Proof.
  intros Hstep (rs & Hrs & Hsum & Hw).
  inversion Hstep as [? ? t a k Ht|? ? t c k Ht Hc|? ? t c k Ht Hc]; subst; clear Hstep;
    destruct (Forall2_lookup_l _ _ _ _ _ Hrs Ht) as (r & Hr & Had);
    inversion Had as [|? ? ? Hst Hk|? ? ? Hk]; subst.
  - destruct (perform_width l m a (zsum rs) Hst Hw) as [E Hw'].
    exists (<[t := r - delta l a]> rs). split_and!; [by apply Forall2_insert| |done].
    rewrite <- Hsum, <- E. f_equal. rewrite (zsum_insert _ _ _ _ Hr). lia.
  - exists (<[t := r]> rs). split_and!; [by apply Forall2_insert| |done].
    rewrite <- Hsum, (zsum_insert _ _ _ _ Hr). f_equal. lia.
  - exists (<[t := r]> rs). split_and!; [by apply Forall2_insert| |done].
    rewrite <- Hsum, (zsum_insert _ _ _ _ Hr). f_equal. lia.
Qed.

Lemma reach_owed l m ths cs :
  exact_counter l = true -> reach powerfs_flow_init [] m ths cs -> owed l m ths (total_effect l cs).
Proof.
  intros Hl Hr. induction Hr as [|m ths cs m' ths' _ IH Hst|m ths cs c _ IH].
  - exists []. split; [constructor|]. destruct l as [i []|[]|[]]; done.
  - by apply (pool_step_owed l m ths).
  - destruct IH as (rs & Hrs & Hsum & Hw). exists (rs ++ [effect_on l c]). split_and!.
    + apply Forall2_app; [done|]. repeat constructor. by apply call_adds.
    + rewrite zsum_app, total_effect_app. cbn [zsum foldr]. rewrite Z.add_0_r, Z.add_assoc.
      rewrite <- (width_add l (m l + zsum rs)), Hsum. apply width_add.
    + done.
Qed.

Definition finished (p : prog unit) : Prop := p = Ret tt.

Lemma finished_owes_nothing l ths rs : Forall finished ths -> Forall2 (adds l) ths rs -> zsum rs = 0.
Proof.
  intros Hf Hrs. induction Hrs as [|p r ths rs Had _ IH]; [done|].
  apply Forall_cons in Hf as [-> Hf]. inversion Had; subst. rewrite zsum_cons, IH by done. lia.
Qed.

(** ** Permits of writers *)

Section writers.
Context (i : nat) (max : Z).
Hypothesis i_valid : (i < POWERFS_FLOW_MAX_CONNS)%nat.

(** Actions that concern neither the connection's counter nor the cap. *)
Definition elsewhere (a : action) : Prop :=
  match a with
  | Read l | Add l _ | Store l _ => l <> Conn i active_reqs /\ l <> Config max_active_per_conn
  end.

(** [guarded w h d p]: [p] counts a request on the connection only after it
    saw the counter below the cap; [h]: it has seen that and not yet counted;
    [d]: at most that many completions are left in it; [w]: it may look at
    the counter at all. *)
Inductive guarded {A} (w : bool) : bool -> nat -> prog A -> Prop :=
| g_ret d a : guarded w false d (Ret a)
| g_skip h d a k : elsewhere a -> (forall v, guarded w h d (k v)) -> guarded w h d (Act a k)
| g_cap h d k : guarded w h d (k max) -> guarded w h d (Act (Read (Config max_active_per_conn)) k)
| g_count d k : (forall v, guarded w false d (k v)) -> guarded w true d (Act (Add (Conn i active_reqs) 1) k)
| g_complete h d k :
    (forall v, guarded w h d (k v)) -> guarded w h (S d) (Act (Add (Conn i active_reqs) (-1)) k)
| g_check d k :
    w = true -> (forall v, guarded w (v <? wr_cap max) d (k v)) ->
    guarded w false d (Act (Read (Conn i active_reqs)) k)
| g_wait d c k :
    w = true -> (forall m, c m = (m (Conn i active_reqs) <? wr_cap max)) ->
    guarded w true d (k true) -> guarded w false d (k false) -> guarded w false d (Wait c k).

Lemma guarded_mono {A} w h d d' (p : prog A) : (d <= d')%nat -> guarded w h d p -> guarded w h d' p.
Proof.
  intros Hd Hp. revert d' Hd.
  induction Hp as [d a|h d a k He _ IH|h d k _ IH|d k _ IH|h d k _ IH|d k Hw _ IH|d c k Hw Hc _ IH1 _ IH2];
    intros d' Hd; [apply g_ret|apply g_skip; auto|apply g_cap; auto|apply g_count; auto| |apply g_check; auto|apply g_wait; auto].
  destruct d' as [|d']; [lia|]. apply g_complete. intros v. apply IH. lia.
Qed.

Lemma guarded_bind {A B} w h d d2 (p : prog A) (f : A -> prog B) :
  guarded w h d p -> (forall a, guarded w false d2 (f a)) -> guarded w h (d + d2) (p ≫= f).
Proof.
  intros Hp Hf.
  induction Hp as [d a|h d a k He _ IH|h d k _ IH|d k _ IH|h d k _ IH|d k Hw _ IH|d c k Hw Hc _ IH1 _ IH2];
    cbn [mbind prog_bind]; [|apply g_skip; auto|apply g_cap; auto|apply g_count; auto
      |apply g_complete; auto|apply g_check; auto|apply g_wait; auto].
  apply (guarded_mono w false d2); [lia|apply Hf].
Qed.

Ltac walk_guarded :=
  prog_cbn; change (negb (0 =? 0)) with false; change (negb (- EBUSY =? 0)) with true; cbv iota;
  first [ apply g_ret
        | apply g_count; intros ?; walk_guarded
        | apply g_complete; intros ?; walk_guarded
        | apply g_cap; walk_guarded
        | apply g_check; [reflexivity|let v := fresh "v" in intros v; destruct (v <? wr_cap max) eqn:?; walk_guarded]
        | apply g_wait; [reflexivity|intros ?; reflexivity|walk_guarded|walk_guarded]
        | apply g_skip; [split; discriminate|intros ?; walk_guarded]
        | match goal with |- guarded _ _ _ (if ?b then _ else _) => destruct b eqn:?; walk_guarded end
        | match goal with |- guarded _ _ _ ((if ?b then _ else _) ≫= _) => destruct b eqn:?; walk_guarded end
        | idtac ].

Lemma record_complete_guarded w lat b e : guarded w false 1 (powerfs_flow_record_complete (Z.of_nat i) lat b e).
Proof.
  unfold powerfs_flow_record_complete, ewma_update, when_. rewrite flow_get_stats_valid by done.
  destruct e; walk_guarded.
Qed.

Lemma submit_write_guarded len sent : guarded true false 1 (submit_write (Z.of_nat i) len sent).
Proof.
  unfold submit_write, powerfs_flow_wait_wr_slot, powerfs_flow_record_start, when_.
  rewrite flow_get_stats_valid by done. walk_guarded;
    apply (guarded_bind true false 1 0); auto using record_complete_guarded, g_ret.
Qed.

(** ** The pool of writers and completions *)

Definition permits (gs : list (bool * bool * nat)) : Z := zsum ((fun g => Z.b2z (g.1.2)) <$> gs).
Definition writers (gs : list (bool * bool * nat)) : Z := zsum ((fun g => Z.b2z (g.1.1)) <$> gs).
Definition debts (gs : list (bool * bool * nat)) : Z := zsum ((fun g => Z.of_nat g.2) <$> gs).

(** [n] writers, at most [D] completions in all. *)
Definition within (n D : Z) (m : powerfs_flow_controller) (ths : list (prog unit)) : Prop :=
  exists gs,
    Forall2 (fun p g => guarded g.1.1 g.1.2 g.2 p) ths gs /\
    Forall (fun g => g.1.2 = true -> g.1.1 = true) gs /\
    m (Config max_active_per_conn) = max /\ writers gs = n /\
    m (Conn i active_reqs) + permits gs <= wr_cap max - 1 + n /\
    debts gs - D <= m (Conn i active_reqs).

Lemma fmap_insert_zsum {B} (f : B -> Z) gs t g g' :
  gs !! t = Some g -> zsum (f <$> <[t := g']> gs) = zsum (f <$> gs) - f g + f g'.
Proof.
  intros H. rewrite list_fmap_insert. apply zsum_insert. by rewrite list_lookup_fmap, H.
Qed.

Lemma permits_le_writers gs : Forall (fun g => g.1.2 = true -> g.1.1 = true) gs -> 0 <= permits gs <= writers gs.
Proof using.
  clear i_valid.
  induction 1 as [|[[w h] d] gs Hg _ IH]; [done|]. unfold permits, writers in *. cbn [fmap list_fmap].
  rewrite !zsum_cons. cbn in *. destruct w, h; cbn; lia.
Qed.

Lemma debts_nonneg gs : 0 <= debts gs.
Proof. unfold debts. induction gs as [|g gs IH]; [done|]. cbn [fmap list_fmap]. rewrite zsum_cons. lia. Qed.

(** Replace one thread: the books change by its old and new entry only. *)
Lemma within_update n D m' ths gs t p' w h d h' d' :
  Forall2 (fun p g => guarded g.1.1 g.1.2 g.2 p) ths gs ->
  Forall (fun g => g.1.2 = true -> g.1.1 = true) gs ->
  gs !! t = Some (w, h, d) -> guarded w h' d' p' -> (h' = true -> w = true) ->
  m' (Config max_active_per_conn) = max -> writers gs = n ->
  m' (Conn i active_reqs) + (permits gs - Z.b2z h + Z.b2z h') <= wr_cap max - 1 + n ->
  debts gs - Z.of_nat d + Z.of_nat d' - D <= m' (Conn i active_reqs) ->
  within n D m' (<[t := p']> ths).
Proof.
  intros Hg Hw Ht Hp Hh Hc Hn Hb Hd. exists (<[t := (w, h', d')]> gs). split_and!.
  - by apply Forall2_insert.
  - by apply Forall_insert.
  - done.
  - rewrite <- Hn. unfold writers. rewrite (fmap_insert_zsum _ _ _ _ _ Ht). cbn. lia.
  - unfold permits in *. rewrite (fmap_insert_zsum _ _ _ _ _ Ht). exact Hb.
  - unfold debts in *. rewrite (fmap_insert_zsum _ _ _ _ _ Ht). cbn [fst snd]. lia.
Qed.

(** The same thread, now with a permit: there are at most [n]. *)
Lemma permits_insert_bound gs t w d :
  Forall (fun g => g.1.2 = true -> g.1.1 = true) gs -> gs !! t = Some (w, false, d) -> w = true ->
  permits gs + 1 <= writers gs.
Proof.
  intros Hw Ht ->.
  assert (H : 0 <= permits (<[t := (true, true, d)]> gs) <= writers (<[t := (true, true, d)]> gs))
    by (apply permits_le_writers; by apply Forall_insert).
  unfold permits, writers in H. rewrite !(fmap_insert_zsum _ _ _ _ _ Ht) in H. cbn in H.
  fold (permits gs) (writers gs) in H. unfold permits, writers in *. lia.
Qed.

Lemma perform_elsewhere m a l :
  elsewhere a -> l = Conn i active_reqs \/ l = Config max_active_per_conn -> snd (perform m a) l = m l.
Proof.
  intros He Hl. destruct a as [l'|l' n|l' v]; cbn in *; [done| |]; unfold upd; (rewrite decide_False; [done|]);
    destruct He, Hl; congruence.
Qed.

Lemma perform_count m n :
  - 2 ^ 31 <= m (Conn i active_reqs) + n < 2 ^ 31 ->
  snd (perform m (Add (Conn i active_reqs) n)) (Conn i active_reqs) = m (Conn i active_reqs) + n /\
  snd (perform m (Add (Conn i active_reqs) n)) (Config max_active_per_conn) = m (Config max_active_per_conn).
Proof.
  intros Hr. cbn. unfold upd. rewrite decide_True, decide_False by done. cbn [width]. by rewrite s32_small.
Qed.

Lemma permits_positive gs t w d :
  Forall (fun g => g.1.2 = true -> g.1.1 = true) gs -> gs !! t = Some (w, true, d) -> 1 <= permits gs.
Proof.
  intros Hw Ht.
  assert (H : 0 <= permits (<[t := (w, false, d)]> gs) <= writers (<[t := (w, false, d)]> gs))
    by (apply permits_le_writers; by apply Forall_insert).
  unfold permits in *. rewrite (fmap_insert_zsum _ _ _ _ _ Ht) in H. cbn in H. lia.
Qed.

Lemma pool_step_within n D m ths m' ths' :
  0 <= n < 2 ^ 29 -> 0 <= D < 2 ^ 30 -> 0 <= max < 2 ^ 32 ->
  pool_step (m, ths) (m', ths') -> within n D m ths -> within n D m' ths'.
Proof.
  intros Hn HD Hmax Hstep (gs & Hg & Hw & Hc & Hwn & Hb & Hd).
  assert (Hcap : wr_cap max <= 2 ^ 30)
    by (unfold wr_cap; rewrite s32_small by div_lia; case_if; [lia|div_lia]).
  pose proof (permits_le_writers gs Hw) as Hpw. pose proof (debts_nonneg gs) as Hdn.
  inversion Hstep as [? ? t a k Ht|? ? t c k Ht Hcm|? ? t c k Ht Hcm]; subst m' ths' m0 ths0; clear Hstep;
    destruct (Forall2_lookup_l _ _ _ _ _ Hg Ht) as ([[w h] d] & Hgt & Hgu); cbn [fst snd] in Hgu;
    pose proof (Forall_lookup_1 _ _ _ _ Hw Hgt) as Hhw; cbn in Hhw.
  - inversion Hgu as [|? ? ? ? He Hk|? ? ? Hk|? ? Hk|? ? ? Hk|? ? Hwt Hk|]; subst.
    + eapply (within_update _ D); eauto; rewrite !perform_elsewhere by auto; [done|lia|lia].
    + cbn [perform fst snd]. rewrite Hc. eapply (within_update _ D); eauto; lia.
    + destruct (perform_count m 1) as [E1 E2]; [pose proof (permits_positive gs t w d Hw Hgt); lia|].
      eapply (within_update _ D); eauto; rewrite ?E1, ?E2; cbn; try done; lia.
    + destruct (perform_count m (-1)) as [E1 E2]; [lia|].
      eapply (within_update _ D); eauto; rewrite ?E1, ?E2; cbn; try done; lia.
    + pose proof (permits_insert_bound gs t true d Hw Hgt eq_refl).
      apply (within_update _ D _ _ gs _ _ true false d (m (Conn i active_reqs) <? wr_cap max) d); auto; cbn; [|lia].
      destruct (Z.ltb_spec (m (Conn i active_reqs)) (wr_cap max)); cbn; lia.
  - inversion Hgu as [| | | | | |? ? ? Hwt Hc' Hk1 Hk2]; subst. rewrite Hc' in Hcm. bool_to_prop.
    pose proof (permits_insert_bound gs t true d Hw Hgt eq_refl).
    eapply (within_update _ D); eauto; cbn; lia.
  - inversion Hgu as [| | | | | |? ? ? Hwt Hc' Hk1 Hk2]; subst.
    eapply (within_update _ D); eauto; cbn; lia.
Qed.

Lemma within_complete n D m ths lat b e :
  within n D m ths -> within n (D + 1) m (ths ++ [powerfs_flow_record_complete (Z.of_nat i) lat b e]).
Proof.
  intros (gs & Hg & Hw & Hc & Hn & Hb & Hd). exists (gs ++ [(false, false, 1%nat)]).
  unfold writers, permits, debts in *. rewrite !fmap_app, !zsum_app. cbn [fmap list_fmap zsum foldr].
  split_and!; auto; [| |cbn; lia|cbn; lia|cbn; lia].
  - apply Forall2_app; [done|]. repeat constructor. apply record_complete_guarded.
  - apply Forall_app. split; [done|]. repeat constructor. done.
Qed.

(** A writer submits its requests one after the other. *)
Definition writer (reqs : list (Z * Z)) : prog unit :=
  foldr (fun r p => _ ← submit_write (Z.of_nat i) r.1 r.2; p) (Ret tt) reqs.

Lemma writer_guarded reqs : guarded true false (length reqs) (writer reqs).
Proof.
  induction reqs as [|r reqs IH]; [apply g_ret|].
  apply (guarded_bind true false 1 (length reqs)); [apply submit_write_guarded|]. intros _. exact IH.
Qed.

Lemma within_start m ws :
  m (Config max_active_per_conn) = max -> m (Conn i active_reqs) = 0 ->
  within (Z.of_nat (length ws)) (zsum ((fun reqs => Z.of_nat (length reqs)) <$> ws)) m (writer <$> ws).
Proof.
  intros Hc Ha. exists ((fun reqs => (true, false, length reqs)) <$> ws). rewrite Ha.
  assert (Hcap : 1 <= wr_cap max) by (unfold wr_cap; case_if; lia).
  unfold writers, permits, debts. rewrite <- !list_fmap_compose. split_and!.
  - apply Forall2_fmap_2, Forall_Forall2_diag, Forall_true. intros reqs. apply writer_guarded.
  - apply Forall_fmap, Forall_true. done.
  - done.
  - clear. induction ws as [|w ws IH]; [done|]. cbn [fmap list_fmap length]. rewrite zsum_cons, IH. cbn. lia.
  - replace (zsum _) with 0; [lia|]. clear. induction ws as [|w ws IH]; [done|].
    cbn [fmap list_fmap]. rewrite zsum_cons, <- IH. done.
  - unfold compose; cbn. lia.
Qed.
End writers.

(** ** Slow connections *)

Lemma upd_same m l v : upd m l v l = width l v.
Proof. unfold upd. by rewrite decide_True. Qed.
Lemma upd_other m l l' v : l' <> l -> upd m l v l' = m l'.
Proof. intros. unfold upd. by rewrite decide_False. Qed.

Ltac upd_simpl := repeat (rewrite upd_same || rewrite upd_other by discriminate).

Lemma u64_s64 x : u64 (s64 x) = u64 x.
Proof.
  unfold u64, s64. rewrite Zminus_mod_idemp_l. f_equal. lia.
Qed.

(** The moving average never overflows. *)
Lemma ewma_next_eq old new :
  is_u64 old -> is_u64 new -> ewma_next old new = old - old / 8 + new / 8 /\ is_u64 (ewma_next old new).
Proof.
  unfold is_u64, ewma_next, POWERFS_FLOW_EWMA_ALPHA_SHIFT. intros Ho Hn.
  rewrite !Z.shiftr_div_pow2 by lia. change (2 ^ 3) with 8.
  assert (0 <= old - old / 8 + new / 8 < 2 ^ 64) by div_lia. rewrite u64_small by done. done.
Qed.

Definition complete (i : nat) (m : powerfs_flow_controller) (c : Z * Z * bool) : powerfs_flow_controller :=
  snd (eval (fun m => m) (powerfs_flow_record_complete (Z.of_nat i) c.1.1 c.1.2 c.2) m).

Lemma complete_slow (i : nat) m c :
  (i < POWERFS_FLOW_MAX_CONNS)%nat ->
  let m' := complete i m c in
  let e' := ewma_next (u64 (m (Conn i ewma_lat_ns))) c.1.1 in
  u64 (m' (Conn i ewma_lat_ns)) = u64 e' /\
  m' (Config slow_lat_thresh_ns) = m (Config slow_lat_thresh_ns) /\
  (m (Conn i slow) = 0 \/ m (Conn i slow) = 1 ->
   m' (Conn i slow) = if u64 e' >? m (Config slow_lat_thresh_ns) then 1 else 0).
Proof.
  intros Hi. destruct c as [[lat b] e]. unfold complete, powerfs_flow_record_complete, ewma_update, when_.
  rewrite flow_get_stats_valid by done. cbn [fst snd].
  set (e' := ewma_next _ lat).
  destruct e; prog_cbn; cbn [eval perform fst snd]; upd_simpl; cbn [width]; rewrite u64_s64; fold e';
    destruct (Z.eqb_spec (m (Conn i slow)) 0) as [E|E]; cbn [negb xorb];
    destruct (u64 e' >? m (Config slow_lat_thresh_ns)); cbn [xorb negb eval perform snd]; upd_simpl; cbn [width];
    rewrite ?u64_s64; split_and!; try done; intros [?|?]; congruence || done.
Qed.

(** The distance to the target band shrinks by an eighth per completion, so
    six completions halve it. *)
Lemma halves (gap : nat -> Z) (n k : nat) :
  (forall j, gap (S j) <= Z.max 0 (7 * gap j / 8)) ->
  gap 0%nat < 2 ^ Z.of_nat k -> (6 * k <= n)%nat -> gap n <= 0.
Proof.
  intros Hs. revert gap n Hs. induction k as [|k IH]; intros gap n Hs H0 Hn.
  - cbn in H0. induction n as [|n IHn]; [lia|]. specialize (Hs n). div_lia.
  - replace n with (6 + (n - 6))%nat by lia.
    apply (IH (fun j => gap (6 + j)%nat) (n - 6)%nat); [intros j; apply Hs| |lia].
    rewrite Nat2Z.inj_succ, Z.pow_succ_r in H0 by lia. cbn [Nat.add].
    assert (Hs' : forall j, gap (S j) <= 0 \/ 8 * gap (S j) <= 7 * gap j).
    { intros j. specialize (Hs j). div_lia. }
    assert (Hz : forall j, gap j <= 0 -> gap (S j) <= 0) by (intros j; specialize (Hs j); div_lia).
    pose proof (Z.pow_pos_nonneg 2 (Z.of_nat k)).
    pose proof (Hs' 0%nat). pose proof (Hs' 1%nat). pose proof (Hs' 2%nat). pose proof (Hs' 3%nat).
    pose proof (Hs' 4%nat). pose proof (Hs' 5%nat).
    pose proof (Hz 0%nat). pose proof (Hz 1%nat). pose proof (Hz 2%nat). pose proof (Hz 3%nat).
    pose proof (Hz 4%nat). pose proof (Hz 5%nat). lia.
Qed.

(** Moving average after the first [n] completions. *)
Definition ewma_after (e0 : Z) (lats : list Z) (n : nat) : Z := foldl ewma_next e0 (take n lats).

Lemma ewma_after_u64 e0 lats n : is_u64 e0 -> Forall is_u64 lats -> is_u64 (ewma_after e0 lats n).
Proof.
  intros He Hl. unfold ewma_after. assert (Ht : Forall is_u64 (take n lats)) by (by apply Forall_take).
  revert e0 He. induction Ht as [|x l Hx _ IH]; intros e0 He; [done|]. cbn [foldl]. apply IH.
  by apply ewma_next_eq.
Qed.

Lemma ewma_after_S e0 lats n lat :
  is_u64 e0 -> Forall is_u64 lats -> lats !! n = Some lat ->
  let e := ewma_after e0 lats n in ewma_after e0 lats (S n) = e - e / 8 + lat / 8.
Proof.
  intros He Hl H. unfold ewma_after. rewrite (take_S_r _ _ _ H), foldl_app. cbn [foldl].
  apply ewma_next_eq; [by apply ewma_after_u64|]. exact (Forall_lookup_1 _ _ _ _ Hl H).
Qed.

(** A distance from the average that each completion shrinks vanishes. *)
Lemma ewma_reaches (dist : Z -> Z) e0 lats k :
  is_u64 e0 -> Forall is_u64 lats ->
  (forall e lat, lat ∈ lats -> is_u64 e -> dist (e - e / 8 + lat / 8) <= Z.max 0 (7 * dist e / 8)) ->
  dist e0 < 2 ^ Z.of_nat k -> (6 * k <= length lats)%nat -> dist (ewma_after e0 lats (length lats)) <= 0.
Proof.
  intros He Hu Hd Hk Hn.
  set (gap := fun n : nat => if decide (n <= length lats)%nat then dist (ewma_after e0 lats n) else 0).
  assert (Hg : gap (length lats) <= 0); [|unfold gap in Hg; by rewrite decide_True in Hg].
  apply (halves gap (length lats) k); [|done|done].
  intros j. unfold gap. case_decide; [|lia]. rewrite decide_True by lia.
  destruct (lookup_lt_is_Some_2 lats j) as [lat Hlat]; [lia|]. rewrite (ewma_after_S _ _ _ lat) by done.
  apply Hd; [by eapply list_elem_of_lookup_2|by apply ewma_after_u64].
Qed.

(** Latencies of at least [L] pull the average up to the multiple of eight
    below [L]; latencies of at most [L] pull it down to the end of that
    eight. *)
Lemma ewma_rises e0 lats L k :
  is_u64 e0 -> Forall is_u64 lats -> (forall x, x ∈ lats -> L <= x) -> 0 <= L < 2 ^ Z.of_nat k ->
  (6 * k <= length lats)%nat -> 8 * (L / 8) <= ewma_after e0 lats (length lats).
Proof.
  intros He Hu Hl HL Hn. unfold is_u64 in He.
  pose proof (ewma_reaches (fun e => 8 * (L / 8) - e) e0 lats k) as H. cbn beta in H.
  enough (8 * (L / 8) - ewma_after e0 lats (length lats) <= 0) by lia.
  apply H; [done|done| |div_lia|done]. intros e x Hx Hex.
  pose proof (Z.div_le_mono L x 8 ltac:(lia) (Hl x Hx)) as Hq. unfold is_u64 in Hex.
  revert Hq. generalize (L / 8) (x / 8). intros q y Hq. div_lia.
Qed.

Lemma ewma_falls e0 lats L k :
  is_u64 e0 -> Forall is_u64 lats -> (forall x, x ∈ lats -> x <= L) -> e0 < 2 ^ Z.of_nat k -> 0 <= L ->
  (6 * k <= length lats)%nat -> ewma_after e0 lats (length lats) <= 8 * (L / 8) + 7.
Proof.
  intros He Hu Hl Hk HL Hn. unfold is_u64 in He.
  pose proof (ewma_reaches (fun e => e - (8 * (L / 8) + 7)) e0 lats k) as H. cbn beta in H.
  enough (ewma_after e0 lats (length lats) - (8 * (L / 8) + 7) <= 0) by lia.
  apply H; [done|done| |div_lia|done]. intros e x Hx Hex.
  pose proof (Z.div_le_mono x L 8 ltac:(lia) (Hl x Hx)) as Hq. unfold is_u64 in Hex.
  revert Hq. generalize (L / 8) (x / 8). intros q y Hq. div_lia.
Qed.

Lemma completes_ewma (i : nat) m cs :
  (i < POWERFS_FLOW_MAX_CONNS)%nat -> Forall is_u64 (cs.*1.*1) ->
  let m' := foldl (complete i) m cs in
  u64 (m' (Conn i ewma_lat_ns)) = foldl ewma_next (u64 (m (Conn i ewma_lat_ns))) (cs.*1.*1) /\
  m' (Config slow_lat_thresh_ns) = m (Config slow_lat_thresh_ns) /\
  (m (Conn i slow) = 0 \/ m (Conn i slow) = 1 -> cs <> [] ->
   m' (Conn i slow) = if u64 (m' (Conn i ewma_lat_ns)) >? m (Config slow_lat_thresh_ns) then 1 else 0).
Proof.
  intros Hi. revert m; induction cs as [|c cs IH]; intros m Hu; [done|].
  cbn [fmap list_fmap] in Hu. apply Forall_cons in Hu as [Hc Hu].
  destruct (complete_slow i m c Hi) as (E1 & E2 & E3). cbn [foldl fmap list_fmap].
  destruct (IH (complete i m c) Hu) as (F1 & F2 & F3).
  assert (Hn : is_u64 (ewma_next (u64 (m (Conn i ewma_lat_ns))) c.1.1))
    by (apply ewma_next_eq; [unfold is_u64; apply u64_range|done]).
  rewrite (u64_small (ewma_next _ _)) in E1, E3 by exact Hn.
  rewrite E1 in F1. rewrite E2 in F2. split_and!; [exact F1|exact F2|].
  intros Hs _. specialize (E3 Hs). destruct cs as [|c' cs].
  - cbn [foldl]. rewrite E1. exact E3.
  - rewrite <- E2. apply F3; [|done]. rewrite E3. case_if; auto.
Qed.

(** An explicit schedule of single accesses. *)
Fixpoint sched (order : list nat) (s : powerfs_flow_controller * list (prog unit)) :
    powerfs_flow_controller * list (prog unit) :=
  match order with
  | [] => s
  | t :: order =>
      match s.2 !! t with
      | Some (Act a k) => sched order (snd (perform s.1 a), <[t := k (fst (perform s.1 a))]> s.2)
      | _ => sched order s
      end
  end.

Lemma sched_reach m0 ths0 order m ths cs :
  reach m0 ths0 m ths cs -> reach m0 ths0 (sched order (m, ths)).1 (sched order (m, ths)).2 cs.
Proof.
  revert m ths; induction order as [|t order IH]; intros m ths Hr; [done|]. cbn [sched fst snd].
  destruct (ths !! t) as [[a|a k|c k]|] eqn:Ht; [by apply IH| |by apply IH|by apply IH].
  apply IH. eapply reach_pool; [exact Hr|]. by apply ps_act.
Qed.

Lemma reach_calls m0 cs : reach m0 [] m0 (call_prog <$> cs) cs.
Proof.
  induction cs as [|c cs IH] using rev_ind; [constructor|]. rewrite fmap_app. by apply reach_call.
Qed.

(** ** Theorems *)

(** Admission policy.  With limits below 2^31/3 and load factors 0 to 3, a
    request on connection [i] is admitted exactly when the global count is
    below its limit and the connection's count is below 100, 75, 50 or 25
    percent of the per-connection limit (at least 1) for load factor 0 to 3; a
    refused request is rejected under load factor 3 and queued otherwise; the
    entry check without a connection does the same with the global limit and
    the worst load factor of the Filers.  Neither changes the statistics, and
    a higher load factor never raises the limit. *)
Theorem flow_admission_policy (op : powerfs_flow_op) (i : nat) (m : powerfs_flow_controller) :
  (i < POWERFS_FLOW_MAX_CONNS)%nat -> lf_ok m ->
  0 < m (Config max_active_global) <= 715827882 -> 0 < m (Config max_active_per_conn) <= 715827882 ->
  let refused lf := if lf =? 3 then POWERFS_FLOW_REJECT else POWERFS_FLOW_QUEUE in
  let lf := m (Conn i server_load_factor) in
  eval (fun m => m) (powerfs_flow_admit op (Z.of_nat i)) m =
    (if (m (Global g_active_reqs) <? m (Config max_active_global)) &&
        (m (Conn i active_reqs) <? lf_limit (m (Config max_active_per_conn)) lf)
     then POWERFS_FLOW_ADMIT else refused lf, m) /\
  eval (fun m => m) (powerfs_flow_admit_vfs op) m =
    (if m (Global g_active_reqs) <? lf_limit (m (Config max_active_global)) (worst_lf m)
     then POWERFS_FLOW_ADMIT else refused (worst_lf m), m) /\
  (forall lf', lf <= lf' -> lf_limit (m (Config max_active_per_conn)) lf' <=
                           lf_limit (m (Config max_active_per_conn)) lf).
Proof.
  intros Hi Hlf Hg Hc refused lf. pose proof (Hlf i) as Hlfi. fold lf in Hlfi.
  pose proof (worst_lf_range m Hlf) as Hw.
  assert (Href : forall x, 0 <= x <= 3 -> refusal x = refused x).
  { intros x Hx. unfold refusal, refused, POWERFS_FLOW_LF_OVERLOAD.
    destruct (Z.geb_spec x 3), (Z.eqb_spec x 3); auto; lia. }
  split_and!.
  - unfold powerfs_flow_admit. rewrite flow_get_stats_valid by done. prog_cbn. cbn [eval perform]. fold lf.
    rewrite !s32_small, scaled_max_limit, Href by lia. rewrite !Z.geb_leb.
    destruct (Z.leb_spec (m (Config max_active_global)) (m (Global g_active_reqs))); [by ltb_false|].
    destruct (Z.leb_spec (lf_limit (m (Config max_active_per_conn)) lf) (m (Conn i active_reqs)));
      [ltb_true; by ltb_false|by do 2 ltb_true].
  - unfold powerfs_flow_admit_vfs. rewrite eval_bind. cbn [eval atomic_read perform].
    rewrite eval_bind, eval_max_load_factor. prog_cbn. cbn [eval perform]. rewrite s32_small, scaled_max_limit, Href by lia. rewrite Z.geb_leb.
    destruct (Z.leb_spec (lf_limit (m (Config max_active_global)) (worst_lf m)) (m (Global g_active_reqs)));
      [by ltb_false|by ltb_true].
  - intros lf' Hle. apply lf_limit_antitone; lia.
Qed.

(** C8. Exact statistics: whatever the interleaving of the atomic accesses of
    any number of calls (starts, completions, load-factor updates and both
    admission checks), once no call is running every request, byte, latency
    and error counter holds the sum of what the calls contributed, at the
    counter's width; in particular the requests in flight are the starts
    minus the completions. *)
Theorem flow_counters_exact (m : powerfs_flow_controller) (ths : list (prog unit)) (cs : list call) (l : loc) :
  reach powerfs_flow_init [] m ths cs -> Forall finished ths -> exact_counter l = true ->
  m l = width l (total_effect l cs).
Proof.
  intros Hr Hf Hl. destruct (reach_owed l m ths cs Hl Hr) as (rs & Hrs & Hsum & Hw).
  rewrite (finished_owes_nothing l ths rs Hf Hrs), Z.add_0_r, Hw in Hsum. exact Hsum.
Qed.

(** Slow connections are found and recover: if [6 k] consecutive
    completions take at least [L] nanoseconds, with [L] below 2^[k] and its
    multiple of eight above the threshold, the connection ends up marked slow;
    if they take at most [L], the average started below 2^[k] and [L]'s
    eight ends at or below the threshold, it ends up not marked. *)
Theorem flow_slow_detection (i k : nat) (m : powerfs_flow_controller) (cs : list (Z * Z * bool)) (L : Z) :
  (i < POWERFS_FLOW_MAX_CONNS)%nat -> m (Conn i slow) = 0 \/ m (Conn i slow) = 1 ->
  Forall is_u64 (cs.*1.*1) -> (0 < k)%nat -> (6 * k <= length cs)%nat -> 0 <= L < 2 ^ Z.of_nat k ->
  let slow' := foldl (complete i) m cs (Conn i slow) in
  let thresh := m (Config slow_lat_thresh_ns) in
  ((forall lat, lat ∈ cs.*1.*1 -> L <= lat) -> thresh < 8 * (L / 8) -> slow' = 1) /\
  ((forall lat, lat ∈ cs.*1.*1 -> lat <= L) -> u64 (m (Conn i ewma_lat_ns)) < 2 ^ Z.of_nat k ->
   8 * (L / 8) + 7 <= thresh -> slow' = 0).
Proof.
  intros Hi Hs Hu Hk Hn HL slow' thresh.
  destruct (completes_ewma i m cs Hi Hu) as (E1 & _ & E3).
  assert (Hne : cs <> []) by (intros ->; cbn in Hn; lia). specialize (E3 Hs Hne). fold slow' in E3.
  set (e0 := u64 (m (Conn i ewma_lat_ns))) in *. set (lats := cs.*1.*1) in *.
  assert (He0 : is_u64 e0) by (unfold is_u64; apply u64_range).
  assert (Hlen : length lats = length cs) by (unfold lats; by rewrite !length_fmap).
  assert (Hall : foldl ewma_next e0 lats = ewma_after e0 lats (length lats))
    by (unfold ewma_after; by rewrite firstn_all).
  rewrite E1, Hall, Z.gtb_ltb in E3. fold thresh in E3. split.
  - intros Hl Ht. pose proof (ewma_rises e0 lats L k He0 Hu Hl HL ltac:(lia)).
    rewrite E3. by ltb_true.
  - intros Hl He Ht. pose proof (ewma_falls e0 lats L k He0 Hu Hl He ltac:(lia) ltac:(lia)).
    rewrite E3. by ltb_false.
Qed.

(** Write throttling: on a connection used only by [n] writers, each
    submitting any requests one after the other, and by completions arriving
    at any moment, the requests in flight never exceed the cap (a quarter of
    the per-connection limit, at least 1) by more than [n - 1], in every
    interleaving: the check and the increment are separate accesses, so each
    writer can overshoot by one; a single writer never exceeds the cap. *)
Theorem write_slots_bounded (i : nat) (m0 m : powerfs_flow_controller) (ws : list (list (Z * Z)))
    (ths : list (prog unit)) (cs : list call) :
  let max := m0 (Config max_active_per_conn) in
  (i < POWERFS_FLOW_MAX_CONNS)%nat -> 0 <= max < 2 ^ 32 -> m0 (Conn i active_reqs) = 0 ->
  Forall (fun c => exists lat b e, c = CComplete (Z.of_nat i) lat b e) cs ->
  Z.of_nat (length ws) < 2 ^ 29 ->
  zsum ((fun reqs => Z.of_nat (length reqs)) <$> ws) + Z.of_nat (length cs) < 2 ^ 30 ->
  reach m0 (writer i <$> ws) m ths cs ->
  m (Conn i active_reqs) <= wr_cap max + (Z.of_nat (length ws) - 1).
Proof.
  intros max Hi Hmax Ha Hcs Hn HD Hr.
  assert (Hin : within i max (Z.of_nat (length ws))
    (zsum ((fun reqs => Z.of_nat (length reqs)) <$> ws) + Z.of_nat (length cs)) m ths).
  { assert (Hz : 0 <= zsum ((fun reqs => Z.of_nat (length reqs)) <$> ws)).
    { clear. induction ws as [|w ws IH]; [done|]. cbn [fmap list_fmap]. rewrite zsum_cons. lia. }
    induction Hr as [|m ths cs m' ths' Hr IH Hst|m ths cs c Hr IH].
    - rewrite Z.add_0_r. by apply within_start.
    - eapply pool_step_within; [..|exact Hst|by apply IH]; auto; lia.
    - rewrite length_app in *. cbn [length] in *. apply Forall_app in Hcs as [Hcs Hc].
      rewrite Forall_singleton in Hc. destruct Hc as (lat & b & e & ->). cbn [call_prog].
      replace (zsum _ + Z.of_nat (length cs + 1))
        with (zsum ((fun reqs => Z.of_nat (length reqs)) <$> ws) + Z.of_nat (length cs) + 1) by lia.
      apply within_complete; [done|]. apply IH; [done|lia]. }
  destruct Hin as (gs & _ & Hw & _ & _ & Hb & _). pose proof (permits_le_writers gs Hw). lia.
Qed.

(** Defect: the number of slow connections is not kept exact.  Two
    completions on one connection whose accesses interleave both see it not
    slow and both count it: one slow connection, and a count of two. *)
Theorem slow_count_drifts :
  exists m ths cs, reach powerfs_flow_init [] m ths cs /\ Forall finished ths /\
    m (Global g_slow_conns) = 2 /\
    filter (fun i => m (Conn i slow) <> 0) (seq 0 POWERFS_FLOW_MAX_CONNS) = [0%nat].
Proof.
  set (c := CComplete 0 2000000000 0 false).
  set (s := (powerfs_flow_init, [call_prog c; call_prog c])).
  set (order := replicate 12 0%nat ++ replicate 12 1%nat ++ [0; 0; 1; 1]%nat).
  exists (sched order s).1, (sched order s).2, [c; c]. split; [|split; [|split]].
  - apply sched_reach. exact (reach_calls powerfs_flow_init [c; c]).
  - assert (E : (sched order s).2 = [Ret tt; Ret tt]) by (vm_compute; reflexivity).
    rewrite E. repeat constructor.
  - vm_compute. reflexivity.
  - vm_compute. reflexivity.
Qed.

(** What a sequence of response frames leaves in the controller. *)
Definition receive (conn : pool_slot) (m : powerfs_flow_controller) (frame : Z * Z) : powerfs_flow_controller :=
  snd (eval (fun m => m) (rx_load_factor conn frame.1 frame.2) m).

Lemma load_factor_get_range flags : 0 <= POWERFS_NET_FLAG_LOAD_FACTOR_GET flags <= 3.
Proof.
  unfold POWERFS_NET_FLAG_LOAD_FACTOR_GET. rewrite Z.shiftr_land. change (Z.shiftr 0xC0 6) with (Z.ones 2).
  rewrite Z.land_ones by lia. change (2 ^ 2) with 4. div_lia.
Qed.

Lemma receive_lf conn m frame i :
  let lf := POWERFS_NET_FLAG_LOAD_FACTOR_GET frame.1 in
  receive conn m frame (Conn i server_load_factor) =
    if decide (flow_get_stats (pfs_conn_flow_idx conn) = Some i /\ 0 < lf /\
               u8 (m (Conn i server_load_factor)) <> lf)
    then lf else m (Conn i server_load_factor).
Proof.
  intros lf.
  pose proof (load_factor_get_range frame.1) as Hlf. fold lf in Hlf.
  unfold receive, rx_load_factor, when_, powerfs_flow_on_load_factor. fold lf.
  set (idx := pfs_conn_flow_idx conn).
  assert (Hidx : forall j, flow_get_stats idx = Some j -> (idx >=? 0) = true).
  { intros j. unfold flow_get_stats. rewrite Z.geb_leb. by destruct (0 <=? idx). }
  destruct (lf >? 0) eqn:El; rewrite ?andb_false_r, ?andb_true_r; bool_to_prop;
    [|cbn; rewrite decide_False by lia; done].
  destruct (flow_get_stats idx) as [j|] eqn:Ej.
  2:{ rewrite decide_False by (intros [? _]; discriminate). by destruct (idx >=? 0). }
  rewrite (Hidx j eq_refl). unfold when_. rewrite Z.min_l by lia.
  prog_cbn. cbn [eval perform fst snd].
  destruct (Z.eqb_spec (u8 (m (Conn j server_load_factor))) lf) as [E|E]; cbn [negb eval perform snd].
  - rewrite decide_False; [done|]. intros ([= ->] & _ & H). done.
  - rewrite upd_other by discriminate. destruct (decide (i = j)) as [->|Hne].
    + rewrite upd_same, decide_True by done. cbn [width]. apply s32_small. lia.
    + rewrite upd_other by congruence. rewrite decide_False; [done|]. intros ([= ->] & _). done.
Qed.

(** Defect: throttling never ends.  A response that reports load factor 0
    is not recorded, so once a connection has been throttled no later sequence
    of responses brings its load factor back to 0, whatever the server
    reports; the header says load factor 0 restores 100%. *)
Theorem load_factor_never_idle (conn : pool_slot) (i : nat) (m : powerfs_flow_controller)
    (frames : list (Z * Z)) :
  1 <= m (Conn i server_load_factor) <= 3 ->
  1 <= foldl (receive conn) m frames (Conn i server_load_factor) <= 3.
Proof.
  revert m; induction frames as [|f frames IH]; intros m Hm; [done|]. cbn [foldl]. apply IH.
  rewrite receive_lf. case_decide as E; [|done]. destruct E as (_ & Hpos & _).
  pose proof (load_factor_get_range f.1). lia.
Qed.

(** ** Concrete runs *)

(** Overload once, then a hundred idle responses. *)
Lemma load_factor_never_idle_witness :
  1 <= foldl (receive (FilerSlot 0)) (upd powerfs_flow_init (Conn 0 server_load_factor) 3)
         (replicate 100 (0, 0)) (Conn 0 server_load_factor) <= 3.
Proof.
  apply (load_factor_never_idle (FilerSlot 0) 0 (upd powerfs_flow_init (Conn 0 server_load_factor) 3)
    (replicate 100 (0, 0))).
  vm_compute. split; congruence.
Defined.

Lemma flow_admission_policy_witness :
  fst (eval (fun m => m) (powerfs_flow_admit POWERFS_FLOW_OP_READ (Z.of_nat 3))
    (upd (upd powerfs_flow_init (Conn 3 server_load_factor) 3) (Conn 3 active_reqs) 16)) = POWERFS_FLOW_REJECT.
Proof.
  set (m := upd (upd powerfs_flow_init (Conn 3 server_load_factor) 3) (Conn 3 active_reqs) 16).
  destruct (flow_admission_policy POWERFS_FLOW_OP_READ 3 m) as [H _].
  - vm_compute; lia.
  - intros i. destruct (decide (i = 3%nat)) as [->|Hi]; [vm_compute; split; congruence|].
    unfold m, upd. rewrite decide_False, decide_False by congruence. cbn. lia.
  - vm_compute; split; congruence.
  - vm_compute; split; congruence.
  - rewrite H. reflexivity.
Defined.

(** Two requests started and one completed, their accesses interleaved. *)
Lemma flow_counters_exact_witness :
  exists m ths, reach powerfs_flow_init [] m ths [CStart 2 10; CStart 2 20; CComplete 2 5 7 true] /\
    m (Conn 2 active_reqs) = 1 /\ m (Global g_total_bytes_sent) = 30 /\ m (Global g_total_errs) = 1.
Proof.
  set (cs := [CStart 2 10; CStart 2 20; CComplete 2 5 7 true]).
  set (s := (powerfs_flow_init, call_prog <$> cs)).
  set (order := [0; 2; 1; 2; 0; 1; 2; 2; 1; 0]%nat ++ replicate 15 2%nat).
  assert (Hr : reach powerfs_flow_init [] (sched order s).1 (sched order s).2 cs)
    by (apply sched_reach, reach_calls).
  assert (E : (sched order s).2 = [Ret tt; Ret tt; Ret tt]) by (vm_compute; reflexivity).
  assert (Hf : Forall finished (sched order s).2) by (rewrite E; repeat constructor).
  exists (sched order s).1, (sched order s).2. split; [exact Hr|]. split; [|split].
  - exact (flow_counters_exact _ _ cs (Conn 2 active_reqs) Hr Hf eq_refl).
  - exact (flow_counters_exact _ _ cs (Global g_total_bytes_sent) Hr Hf eq_refl).
  - exact (flow_counters_exact _ _ cs (Global g_total_errs) Hr Hf eq_refl).
Defined.

(** 186 completions of half a second mark connection 0 slow. *)
Lemma flow_slow_detection_witness :
  foldl (complete 0) powerfs_flow_init (replicate 186 (500000000, 4096, false)) (Conn 0 slow) = 1.
Proof.
  set (cs := replicate 186 (500000000, 4096, false)).
  assert (Hl : cs.*1.*1 = replicate 186 500000000) by reflexivity.
  destruct (flow_slow_detection 0 31 powerfs_flow_init cs 500000000) as [H _].
  - vm_compute; lia.
  - left. reflexivity.
  - rewrite Hl. apply Forall_replicate. vm_compute. split; congruence.
  - lia.
  - unfold cs. rewrite length_replicate. lia.
  - split; [lia|]. reflexivity.
  - apply H; [|reflexivity]. intros lat Hin. rewrite Hl in Hin. apply elem_of_replicate in Hin as [-> _]. lia.
Defined.

(** Two writers, one request each, on a fresh controller: both pass the check. *)
Lemma write_slots_bounded_witness :
  exists m ths, reach powerfs_flow_init (writer 16 <$> [[(4096, 0)]; [(4096, 0)]]) m ths [] /\
    m (Conn 16 active_reqs) = 2 /\ m (Conn 16 active_reqs) <= 17.
Proof.
  set (s := (powerfs_flow_init, writer 16 <$> [[(4096, 0)]; [(4096, 0)]])).
  set (order := [0; 0; 1; 1; 0; 1]%nat).
  assert (Hr : reach powerfs_flow_init (writer 16 <$> [[(4096, 0)]; [(4096, 0)]]) (sched order s).1 (sched order s).2 [])
    by (apply sched_reach; constructor).
  exists (sched order s).1, (sched order s).2. split; [exact Hr|]. split; [vm_compute; reflexivity|].
  assert (H : (sched order s).1 (Conn 16 active_reqs) <= wr_cap 64 + (Z.of_nat 2 - 1)).
  { refine (write_slots_bounded 16 powerfs_flow_init (sched order s).1 [[(4096, 0)]; [(4096, 0)]] _ [] _ _ _ _ _ _ Hr).
    - vm_compute; lia.
    - vm_compute; split; congruence.
    - reflexivity.
    - constructor.
    - vm_compute; reflexivity.
    - vm_compute; reflexivity. }
  exact H.
Defined.
