(* ===== verification/Layout.v ===== *)
(** * Layout: where the bytes of a file live

    Models the FileLayout path of the client: the parser of the layout fields
    of a GETATTR or CREATE response ([parse_file_layout] and its helpers in
    [src/powerfs_mod/powerfs_net_inode.c]), the merge of a parsed layout into
    the inode ([powerfs_apply_layout_to_inode]) and the address computation
    used by every read and write ([powerfs_locate_chunk], both in
    [powerfs_inode.c]).  Pointers to arrays are [option list]s next to the
    counts the code keeps; an access outside an array is the value [OutOfBounds].

    Shown: the address computation refines a per-placement specification; under
    Stripe no two chunks share a needle and no needle is skipped; a layout sent
    by the server, parsed and applied, yields the server's own needle for every
    chunk of an anchored volume; applying a layout keeps the inode consistent,
    the base needles of stripes under the condition [keys_follow], and drops
    stale layouts.  Three defects are proved as such. *)

From S2P Require Import Prelude Tlv.

Definition POWERFS_CHUNK_SIZE : Z := 1 * 1024 * 1024.
Definition POWERFS_INLINE_MAX_SIZE : Z := 8 * 1024.

Definition POWERFS_PLACEMENT_INLINE : Z := 0.
Definition POWERFS_PLACEMENT_FLAT : Z := 1.
Definition POWERFS_PLACEMENT_STRIPE : Z := 2.
Definition POWERFS_PLACEMENT_WIDESTRIPE : Z := 3.

Definition POWERFS_RELIABILITY_EC : Z := 2.

Definition POWERFS_NET_FLD_PLACEMENT : Z := 0xA0.
Definition POWERFS_NET_FLD_RELIABILITY : Z := 0xA1.
Definition POWERFS_NET_FLD_RELIABILITY_STATE : Z := 0xA2.
Definition POWERFS_NET_FLD_CHUNK_LAYOUT : Z := 0xA4.
Definition POWERFS_NET_FLD_STRIPE_SIZE : Z := 0xA8.
Definition POWERFS_NET_FLD_STRIPE_COUNT : Z := 0xA9.
Definition POWERFS_NET_FLD_START_VOLUME_IDX : Z := 0xAA.
Definition POWERFS_NET_FLD_VOLUME_IDS : Z := 0xAB.
Definition POWERFS_NET_FLD_START_NEEDLE_ID : Z := 0xAC.
Definition POWERFS_NET_FLD_CHUNK_SIZE : Z := 0xAD.
Definition POWERFS_NET_FLD_INLINE_DATA : Z := 0xAE.
Definition POWERFS_NET_FLD_INLINE_MAX_SIZE : Z := 0xAF.
Definition POWERFS_NET_FLD_REPLICA_CHUNKS : Z := 0xB5.
Definition POWERFS_NET_FLD_VOLUME_IDS_RANGE : Z := 0xB6.

Record powerfs_chunk_map := mk_cm {
  cm_chunk_idx : Z; cm_needle_id : Z; cm_volume_id : Z; cm_crc32 : Z; cm_size : Z
}.

(** The allocations of the layout path, any of which may fail. *)
Inductive layout_alloc := A_inline | A_chunk_inline | A_per_chunk | A_vids | A_vids_range | A_replica | A_keys.

(** ** [struct powerfs_file_layout] *)

(** What [parse_placement_field] writes. *)
Record placement_info := mk_pinfo {
  p_placement : Z; p_has : bool; p_inline_max : Z;
  p_stripe_size : Z; p_stripe_count : Z; p_start_volume_idx : Z
}.

Record reliability_info := mk_rinfo { r_reliability : Z; r_has : bool; r_ec_data : Z; r_ec_parity : Z }.

(** An array with its length field and its [has_] flag. *)
Record array_field (A : Type) := mk_arr { arr : option (list A); arr_count : Z; arr_has : bool }.
Arguments mk_arr {A}.
Arguments arr {A}.
Arguments arr_count {A}.
Arguments arr_has {A}.

Definition no_array {A} : array_field A := mk_arr None 0 false.

Record powerfs_file_layout := mk_layout {
  l_placement : placement_info;   (* placement, inline_max_size and the stripe fields *)
  l_reliability : reliability_info;
  l_reliability_state : Z;
  l_chunk_size : Z;
  l_inline : array_field Z;       (* inline_data, inline_len, has_inline_data *)
  l_start_needle_id : Z;
  l_volume_ids : array_field Z;
  l_replica : array_field powerfs_chunk_map;
  l_ec_chunks : array_field powerfs_chunk_map
}.

(** ** Parsing *)

Definition le_at (b : buffer) (i n : Z) : Z := le_combine (slice b i n).

(** [parse_placement_field]; [None] is [-EINVAL] with the layout unchanged. *)
Definition parse_placement_field (val : buffer) : option placement_info :=
  match val with
  | [] => None
  | tag :: _ =>
      Some (
        if tag =? POWERFS_PLACEMENT_FLAT then mk_pinfo tag true 0 0 0 0
        else if tag =? POWERFS_PLACEMENT_INLINE then
          mk_pinfo tag true (if blen val >=? 5 then le_at val 1 4 else 0) 0 0 0
        else if (tag =? POWERFS_PLACEMENT_STRIPE) || (tag =? POWERFS_PLACEMENT_WIDESTRIPE) then
          if blen val >=? 17
          then mk_pinfo tag true 0 (le_at val 1 8) (le_at val 9 4) (le_at val 13 4)
          else mk_pinfo tag true 0 0 0 0
        else mk_pinfo POWERFS_PLACEMENT_FLAT true 0 0 0 0)
  end.

Definition parse_reliability_field (val : buffer) : option reliability_info :=
  match val with
  | [] => None
  | tag :: _ =>
      Some (if (tag =? POWERFS_RELIABILITY_EC) && (blen val >=? 9)
            then mk_rinfo tag true (le_at val 1 4) (le_at val 5 4)
            else mk_rinfo tag true 0 0)
  end.

(** One 44-byte [ChunkRef]; its mtime is read and dropped. *)
Definition parse_chunk_ref (p : buffer) : powerfs_chunk_map :=
  mk_cm (u32 (le_at p 0 8 / POWERFS_CHUNK_SIZE)) (le_at p 16 8) (le_at p 24 8) (le_at p 32 4) (le_at p 8 8).

Fixpoint parse_chunk_refs (count : nat) (p : buffer) : list powerfs_chunk_map :=
  match count with
  | O => []
  | S count => parse_chunk_ref p :: parse_chunk_refs count (drop 44 p)
  end.

Section parse.
Context (alloc : layout_alloc -> bool).

Definition parse_replica_chunks_field (val : buffer) (old : array_field powerfs_chunk_map)
  : Z * array_field powerfs_chunk_map :=
  if blen val <? 4 then (- EINVAL, old) else
  let count := le_at val 0 4 in
  if count =? 0 then (0, mk_arr None 0 true) else
  if blen val <? 4 + count * 44 then (- EINVAL, old) else
  if negb (alloc A_replica) then (- ENOMEM, old) else
  (0, mk_arr (Some (parse_chunk_refs (Z.to_nat count) (drop 4 val))) count true).

(** [powerfs_tlv_dec_find_raw] with the bytes it points at. *)
Definition find_bytes (d : tlv_dec) (field : Z) : option buffer * tlv_dec :=
  match powerfs_tlv_dec_find_raw d field with
  | (0, Some (raw, raw_len), d) => (Some (slice (dec_buf d) raw raw_len), d)
  | (_, _, d) => (None, d)
  end.

Definition parse_inline_data (raw : option buffer) : array_field Z :=
  match raw with
  | Some raw =>
      if (blen raw >? 0) && (blen raw <=? POWERFS_INLINE_MAX_SIZE)
      then if alloc A_inline then mk_arr (Some raw) (blen raw) true else no_array
      else no_array
  | None => no_array
  end.

(** The ChunkLayout field: inline data under tag 0, chunk references under
    tag 1. *)
Definition parse_chunk_layout (raw : buffer) (inld : array_field Z)
  : array_field Z * array_field powerfs_chunk_map :=
  if (blen raw >=? 5) && (le_at raw 0 1 =? 0) then
    let data_len := le_at raw 1 4 in
    if (data_len >? 0) && (data_len <=? POWERFS_INLINE_MAX_SIZE) && (blen raw >=? 5 + data_len)
    then (if alloc A_chunk_inline then mk_arr (Some (slice raw 5 data_len)) data_len true
          else mk_arr None (arr_count inld) (arr_has inld), no_array)
    else (inld, no_array)
  else if (blen raw >=? 5) && (le_at raw 0 1 =? 1) then
    let count := le_at raw 1 4 in
    if (count >? 0) && (blen raw >=? 5 + count * 44) && alloc A_per_chunk
    then (inld, mk_arr (Some (parse_chunk_refs (Z.to_nat count) (drop 5 raw))) count true)
    else (inld, no_array)
  else (inld, no_array).

Fixpoint parse_u64s (count : nat) (raw : buffer) : list Z :=
  match count with O => [] | S count => le_at raw 0 8 :: parse_u64s count (drop 8 raw) end.

Definition parse_volume_ids (raw : option buffer) : array_field Z :=
  match raw with
  | Some raw =>
      if (blen raw >? 0) && (blen raw mod 8 =? 0) then
        let cnt := u32 (blen raw / 8) in
        if (cnt <=? 256) && alloc A_vids
        then mk_arr (Some (parse_u64s (Z.to_nat cnt) raw)) cnt false else no_array
      else no_array
  | None => no_array
  end.

Definition parse_volume_ids_range (raw : option buffer) (vids : array_field Z) : array_field Z :=
  match raw with
  | Some raw =>
      if blen raw =? 12 then
        let start := le_at raw 0 8 in
        let cnt := le_at raw 8 4 in
        if (cnt >? 0) && (cnt <=? 256) && alloc A_vids_range
        then mk_arr (Some ((fun i => u64 (start + Z.of_nat i)) <$> seq 0 (Z.to_nat cnt))) cnt false
        else vids
      else vids
  | None => vids
  end.

(** Values of an optional scalar field that only fills a zero. *)
Definition fill_zero (find : tlv_dec -> Z -> Z * option Z * tlv_dec) (d : tlv_dec) (field old : Z)
  : Z * tlv_dec :=
  if old =? 0 then
    match find d field with (0, Some v, d) => (v, d) | (_, _, d) => (old, d) end
  else (old, d).

(** The whole parser, from a zeroed layout. *)
Definition parse_file_layout (d : tlv_dec) : powerfs_file_layout * tlv_dec :=
  let '(raw, d) := find_bytes d POWERFS_NET_FLD_PLACEMENT in
  let pl := default (mk_pinfo 0 false 0 0 0 0) (raw ≫= parse_placement_field) in
  let '(raw, d) := find_bytes d POWERFS_NET_FLD_RELIABILITY in
  let rel := default (mk_rinfo 0 false 0 0) (raw ≫= parse_reliability_field) in
  let '(rstate, d) := fill_zero powerfs_tlv_dec_find_u8 d POWERFS_NET_FLD_RELIABILITY_STATE 0 in
  let '(csz, d) := fill_zero powerfs_tlv_dec_find_u32 d POWERFS_NET_FLD_CHUNK_SIZE 0 in
  let chunk_size := if csz >? 0 then csz else POWERFS_CHUNK_SIZE in
  let '(inline_max, d) := fill_zero powerfs_tlv_dec_find_u32 d POWERFS_NET_FLD_INLINE_MAX_SIZE (p_inline_max pl) in
  let '(raw, d) := find_bytes d POWERFS_NET_FLD_INLINE_DATA in
  let inld := parse_inline_data raw in
  let '(cl, d) :=
    if arr_has inld then ((inld, no_array), d)
    else let '(raw, d) := find_bytes d POWERFS_NET_FLD_CHUNK_LAYOUT in
         (match raw with Some raw => parse_chunk_layout raw inld | None => (inld, no_array) end, d) in
  let '(inld, ec) := cl in
  let '(ssize, d) := fill_zero powerfs_tlv_dec_find_u64 d POWERFS_NET_FLD_STRIPE_SIZE (p_stripe_size pl) in
  let '(scount, d) := fill_zero powerfs_tlv_dec_find_u32 d POWERFS_NET_FLD_STRIPE_COUNT (p_stripe_count pl) in
  let '(sidx, d) := fill_zero powerfs_tlv_dec_find_u32 d POWERFS_NET_FLD_START_VOLUME_IDX (p_start_volume_idx pl) in
  let '(sneedle, d) := fill_zero powerfs_tlv_dec_find_u64 d POWERFS_NET_FLD_START_NEEDLE_ID 0 in
  let '(raw, d) := find_bytes d POWERFS_NET_FLD_VOLUME_IDS in
  let vids := parse_volume_ids raw in
  let '(vids, d) :=
    match arr vids with
    | Some _ => (vids, d)
    | None => let '(raw, d) := find_bytes d POWERFS_NET_FLD_VOLUME_IDS_RANGE in
              (parse_volume_ids_range raw vids, d)
    end in
  let '(raw, d) := find_bytes d POWERFS_NET_FLD_REPLICA_CHUNKS in
  let rep := match raw with Some raw => snd (parse_replica_chunks_field raw no_array) | None => no_array end in
  (mk_layout (mk_pinfo (p_placement pl) (p_has pl) inline_max ssize scount sidx) rel rstate chunk_size
     inld sneedle vids rep ec, d).
End parse.

(** ** The layout fields of [struct powerfs_inode_info] *)

Record inline_part := mk_inline { inline_data : option buffer; inline_len : Z; inline_dirty : bool; inline_max_size : Z }.

Record stripe_part := mk_stripe {
  stripe_size : Z; stripe_count : Z; start_volume_idx : Z;
  volume_ids : option (list Z); volume_ids_count : Z; stripe_needle_keys : option (list Z)
}.

Record chunk_part := mk_chunks {
  chunks : option (list powerfs_chunk_map); chunk_count : Z;
  ec_chunks : option (list powerfs_chunk_map); ec_chunk_count : Z;
  replica_chunks : option (list powerfs_chunk_map); replica_count : Z;
  ec_data_shards : Z; ec_parity_shards : Z
}.

Record layout_inode := mk_linode {
  placement : Z; reliability : Z; reliability_state : Z; layout_chunk_size : Z;
  volume_id : Z; file_key : Z;
  pi_inline : inline_part; pi_stripe : stripe_part; pi_chunks : chunk_part
}.

Definition is_stripe (placement : Z) : bool :=
  (placement =? POWERFS_PLACEMENT_STRIPE) || (placement =? POWERFS_PLACEMENT_WIDESTRIPE).

(** ** [powerfs_apply_layout_to_inode] *)

(** The three guards that drop a stale layout as a whole. *)
Definition stale_layout (pi : layout_inode) (l : powerfs_file_layout) : bool :=
  let pl := p_placement (l_placement l) in
  p_has (l_placement l) &&
  (((placement pi =? POWERFS_PLACEMENT_INLINE) && inline_dirty (pi_inline pi) && negb (pl =? POWERFS_PLACEMENT_INLINE))
   || (negb (placement pi =? POWERFS_PLACEMENT_INLINE) && (negb (volume_id pi =? 0) || negb (file_key pi =? 0))
       && (pl =? POWERFS_PLACEMENT_INLINE))
   || (is_stripe (placement pi) && bool_decide (is_Some (volume_ids (pi_stripe pi)))
       && (volume_ids_count (pi_stripe pi) >? 0)
       && ((pl =? POWERFS_PLACEMENT_FLAT) || (pl =? POWERFS_PLACEMENT_INLINE)))).

Definition apply_inline (placement : Z) (i : inline_part) (l : powerfs_file_layout) : inline_part :=
  let max :=
    if p_inline_max (l_placement l) >? 0 then p_inline_max (l_placement l)
    else if inline_max_size i =? 0 then POWERFS_INLINE_MAX_SIZE else inline_max_size i in
  if (placement =? POWERFS_PLACEMENT_INLINE) && arr_has (l_inline l) then
    if inline_dirty i then mk_inline (inline_data i) (inline_len i) (inline_dirty i) max
    else mk_inline (arr (l_inline l)) (arr_count (l_inline l)) (inline_dirty i) max
  else if negb (placement =? POWERFS_PLACEMENT_INLINE) && bool_decide (is_Some (inline_data i))
  then mk_inline None 0 false max
  else mk_inline (inline_data i) (inline_len i) (inline_dirty i) max.

(** The server's volumes are a proper subset of the local ones. *)
Definition preserve_arrays (s : stripe_part) (l : powerfs_file_layout) : bool :=
  (stripe_size s >? 0) && (stripe_size s =? p_stripe_size (l_placement l)) &&
  (volume_ids_count s >? arr_count (l_volume_ids l)) && (arr_count (l_volume_ids l) >? 0) &&
  match volume_ids s with
  | Some local => forallb (fun v => existsb (Z.eqb v) local) (default [] (arr (l_volume_ids l)))
  | None => false
  end.

Definition apply_stripe (placement : Z) (s : stripe_part) (l : powerfs_file_layout) : stripe_part :=
  if is_stripe placement then
    if preserve_arrays s l then s
    else mk_stripe (p_stripe_size (l_placement l)) (p_stripe_count (l_placement l))
           (p_start_volume_idx (l_placement l)) (arr (l_volume_ids l)) (arr_count (l_volume_ids l))
           (stripe_needle_keys s)
  else mk_stripe 0 0 (start_volume_idx s) None
         (match volume_ids s with Some _ => 0 | None => volume_ids_count s end) None.

(** One step of the loop that recovers the base needles from the anchors. *)
Definition recover_key (nkeys start chunks_per_unit : Z) (keys : list Z) (cm : powerfs_chunk_map) : list Z :=
  let s_idx := cm_chunk_idx cm / chunks_per_unit in
  let vol_rank := s_idx mod nkeys in
  let vol_idx := u64 (start + vol_rank) mod nkeys in
  let rnd := s_idx / nkeys in
  let idx_in_unit := cm_chunk_idx cm mod chunks_per_unit in
  let vol_chunk_idx := u64 (rnd * chunks_per_unit + idx_in_unit) in
  if default 0 (keys !! Z.to_nat vol_idx) =? 0
  then <[Z.to_nat vol_idx := u64 (cm_needle_id cm - vol_chunk_idx)]> keys else keys.

Definition apply_keys (alloc : layout_alloc -> bool) (csz : Z) (s : stripe_part) (preserve : bool)
    (anchors : list powerfs_chunk_map) : stripe_part :=
  let nkeys := volume_ids_count s in
  let stripe_sz := if stripe_size s =? 0 then csz else stripe_size s in
  let c := if csz =? 0 then POWERFS_CHUNK_SIZE else csz in
  let chunks_per_unit := if (stripe_sz =? 0) || (c =? 0) then 1 else stripe_sz / c in
  if (nkeys >? 0) && (chunks_per_unit >? 0) && negb preserve && alloc A_keys then
    mk_stripe (stripe_size s) (stripe_count s) (start_volume_idx s) (volume_ids s) (volume_ids_count s)
      (Some (foldl (recover_key nkeys (start_volume_idx s) chunks_per_unit)
               (replicate (Z.to_nat nkeys) 0) anchors))
  else s.

(** The PER_CHUNK list goes to the EC shards, to the chunk map of a Flat file,
    or is used up to rebuild the base needles of a Stripe file. *)
Definition apply_chunk_list (alloc : layout_alloc -> bool) (rel pl csz : Z) (preserve : bool)
    (ec : array_field powerfs_chunk_map) (c : chunk_part) (st : stripe_part) : chunk_part * stripe_part :=
  if arr_has ec then
    if rel =? POWERFS_RELIABILITY_EC then
      (mk_chunks (chunks c) (chunk_count c) (arr ec) (arr_count ec) (replica_chunks c) (replica_count c)
         (ec_data_shards c) (ec_parity_shards c), st)
    else if pl =? POWERFS_PLACEMENT_FLAT then
      (mk_chunks (arr ec) (arr_count ec) (ec_chunks c) (ec_chunk_count c) (replica_chunks c) (replica_count c)
         (ec_data_shards c) (ec_parity_shards c), st)
    else if is_stripe pl then
      (mk_chunks None 0 (ec_chunks c) (ec_chunk_count c) (replica_chunks c) (replica_count c)
         (ec_data_shards c) (ec_parity_shards c), apply_keys alloc csz st preserve (default [] (arr ec)))
    else (c, st)
  else (c, st).

Definition apply_ec_params (rel : Z) (l : powerfs_file_layout) (c : chunk_part) : chunk_part :=
  let '(d, p) :=
    if rel =? POWERFS_RELIABILITY_EC then (r_ec_data (l_reliability l), r_ec_parity (l_reliability l)) else (0, 0) in
  mk_chunks (chunks c) (chunk_count c) (ec_chunks c) (ec_chunk_count c) (replica_chunks c) (replica_count c) d p.

Definition apply_replica (l : powerfs_file_layout) (c : chunk_part) : chunk_part :=
  if arr_has (l_replica l) then
    mk_chunks (chunks c) (chunk_count c) (ec_chunks c) (ec_chunk_count c) (arr (l_replica l)) (arr_count (l_replica l))
      (ec_data_shards c) (ec_parity_shards c)
  else c.

Definition powerfs_apply_layout_to_inode (alloc : layout_alloc -> bool) (pi : layout_inode)
    (l : powerfs_file_layout) : layout_inode :=
  if stale_layout pi l then pi else
  let pl := if p_has (l_placement l) then p_placement (l_placement l) else placement pi in
  let rel := if r_has (l_reliability l) then r_reliability (l_reliability l) else reliability pi in
  let csz := if l_chunk_size l >? 0 then l_chunk_size l else layout_chunk_size pi in
  let inline := apply_inline pl (pi_inline pi) l in
  let preserve := is_stripe pl && preserve_arrays (pi_stripe pi) l in
  let st := apply_stripe pl (pi_stripe pi) l in
  let c := apply_replica l (apply_ec_params rel l (pi_chunks pi)) in
  let '(c, st) := apply_chunk_list alloc rel pl csz preserve (l_ec_chunks l) c st in
  mk_linode pl rel (l_reliability_state l) csz (volume_id pi) (file_key pi) inline st c.

(** ** [powerfs_locate_chunk] *)

Inductive located := At (volume needle : Z) | LocErr (errno : Z) | OutOfBounds.

(** [a[i]] for an array that is present. *)
Definition index {A} (a : list A) (i : Z) : option A := if i <? 0 then None else a !! Z.to_nat i.

Definition locate_stripe (pi : layout_inode) (chunk_size : Z) (vids : list Z) (offset : Z) : located :=
  let s := pi_stripe pi in
  let ssz := if stripe_size s =? 0 then chunk_size else stripe_size s in
  let chunks_per_unit := let n := ssz / chunk_size in if n =? 0 then 1 else n in
  let stripe_idx := u64 offset / ssz in
  let vol_rank := stripe_idx mod volume_ids_count s in
  let round := stripe_idx / volume_ids_count s in
  let vol_array_idx := u64 (start_volume_idx s + vol_rank) mod volume_ids_count s in
  let chunk_idx_in_unit := (u64 offset mod ssz) / chunk_size in
  let vol_chunk_idx := u64 (round * chunks_per_unit + chunk_idx_in_unit) in
  match match stripe_needle_keys s with
        | Some keys => index keys vol_array_idx
        | None => Some (file_key pi)
        end, index vids vol_array_idx with
  | Some base_needle, Some vid => At vid (u64 (base_needle + vol_chunk_idx))
  | _, _ => OutOfBounds
  end.

Definition locate_flat (pi : layout_inode) (chunk_idx : Z) : located :=
  if (volume_id pi =? 0) || (file_key pi =? 0) then LocErr (- EINVAL)
  else At (volume_id pi) (u64 (file_key pi + chunk_idx)).

Definition locate_computed (pi : layout_inode) (chunk_size chunk_idx offset : Z) : located :=
  match volume_ids (pi_stripe pi) with
  | Some vids =>
      if is_stripe (placement pi) && (volume_ids_count (pi_stripe pi) >? 0)
      then locate_stripe pi chunk_size vids offset else locate_flat pi chunk_idx
  | None => locate_flat pi chunk_idx
  end.

Definition powerfs_locate_chunk (pi : layout_inode) (offset : Z) : located :=
  if placement pi =? POWERFS_PLACEMENT_INLINE then LocErr (- EINVAL) else
  let chunk_size := if layout_chunk_size pi =? 0 then POWERFS_CHUNK_SIZE else layout_chunk_size pi in
  let chunk_idx := u64 (offset ÷ chunk_size) in
  match chunks (pi_chunks pi) with
  | Some cs =>
      if (chunk_idx <? chunk_count (pi_chunks pi)) && negb (is_stripe (placement pi)) then
        match index cs chunk_idx with
        | Some cm =>
            if negb (cm_volume_id cm =? 0) && negb (cm_needle_id cm =? 0)
            then At (cm_volume_id cm) (cm_needle_id cm)
            else locate_computed pi chunk_size chunk_idx offset
        | None => OutOfBounds
        end
      else locate_computed pi chunk_size chunk_idx offset
  | None => locate_computed pi chunk_size chunk_idx offset
  end.

(** ** Round-robin striping *)

Section raid0.
Context (n start cpu : Z).
Hypothesis (Hn : 0 < n) (Hcpu : 0 < cpu).

(** Volume slot of global chunk [g] and its position on that volume. *)
Definition slot_of (g : Z) : Z := (start + (g / cpu) mod n) mod n.
Definition vol_chunk (g : Z) : Z := g / cpu / n * cpu + g mod cpu.

(** The global chunk stored at position [j] of slot [s]. *)
Definition chunk_at (s j : Z) : Z := (j / cpu * n + (s - start) mod n) * cpu + j mod cpu.

Lemma slot_range g : 0 <= slot_of g < n.
Proof. apply Z.mod_pos_bound. lia. Qed.

Lemma vol_chunk_range g : 0 <= g -> 0 <= vol_chunk g <= g.
Proof.
  intros Hg. unfold vol_chunk. pose proof (Z.mod_pos_bound g cpu Hcpu).
  assert (0 <= g / cpu) by (by apply Z.div_pos). assert (0 <= g / cpu / n) by (by apply Z.div_pos).
  assert (g / cpu / n <= g / cpu) by (apply Z.div_le_upper_bound; nia).
  pose proof (Z.div_mod g cpu). nia.
Qed.

(** Division of [a * b + c] with [0 <= c < b]. *)
Lemma div_pack a b c : 0 <= c < b -> (a * b + c) / b = a.
Proof. intros. rewrite Z.div_add_l, Z.div_small by lia. lia. Qed.
Lemma mod_pack a b c : 0 <= c < b -> (a * b + c) mod b = c.
Proof. intros. rewrite Z.add_comm, Z.mod_add, Z.mod_small by lia. done. Qed.

Lemma slot_rank r : 0 <= r < n -> ((start + r) mod n - start) mod n = r.
Proof.
  intros Hr. rewrite Zminus_mod_idemp_l. replace (start + r - start) with r by lia. by apply Z.mod_small.
Qed.

Lemma chunk_at_of g : chunk_at (slot_of g) (vol_chunk g) = g.
Proof.
  pose proof (Z.mod_pos_bound g cpu Hcpu). pose proof (Z.mod_pos_bound (g / cpu) n Hn).
  unfold chunk_at, slot_of. rewrite slot_rank by done. unfold vol_chunk. rewrite div_pack, mod_pack by done.
  rewrite (Z.mul_comm _ n), <- (Z.div_mod (g / cpu) n), (Z.mul_comm _ cpu), <- (Z.div_mod g cpu) by lia. done.
Qed.

Lemma slot_of_chunk_at s j : 0 <= s < n -> slot_of (chunk_at s j) = s.
Proof.
  intros Hs. pose proof (Z.mod_pos_bound j cpu Hcpu). pose proof (Z.mod_pos_bound (s - start) n Hn).
  unfold slot_of, chunk_at. rewrite div_pack, mod_pack by done.
  rewrite Zplus_mod_idemp_r. replace (start + (s - start)) with s by lia. by apply Z.mod_small.
Qed.

Lemma vol_chunk_chunk_at s j : vol_chunk (chunk_at s j) = j.
Proof.
  pose proof (Z.mod_pos_bound j cpu Hcpu). pose proof (Z.mod_pos_bound (s - start) n Hn).
  unfold vol_chunk, chunk_at. rewrite !div_pack, mod_pack by done.
  rewrite (Z.mul_comm _ cpu), <- (Z.div_mod j cpu) by lia. done.
Qed.
End raid0.

(** ** Consistency of an inode and of a parsed layout *)

Definition sized {A} (a : option (list A)) (count : Z) : Prop :=
  match a with Some l => Z.of_nat (length l) = count | None => True end.

Definition layout_inv (pi : layout_inode) : Prop :=
  let s := pi_stripe pi in
  let c := pi_chunks pi in
  (placement pi <> POWERFS_PLACEMENT_INLINE -> inline_data (pi_inline pi) = None) /\
  sized (inline_data (pi_inline pi)) (inline_len (pi_inline pi)) /\
  (is_stripe (placement pi) = false -> volume_ids s = None /\ stripe_needle_keys s = None /\ stripe_size s = 0) /\
  sized (volume_ids s) (volume_ids_count s) /\ sized (stripe_needle_keys s) (volume_ids_count s) /\
  sized (chunks c) (chunk_count c) /\ sized (ec_chunks c) (ec_chunk_count c) /\
  sized (replica_chunks c) (replica_count c) /\
  (reliability pi <> POWERFS_RELIABILITY_EC -> ec_data_shards c = 0 /\ ec_parity_shards c = 0).

(** The same without the base needles of the stripes. *)
Definition arrays_inv (pi : layout_inode) : Prop :=
  let s := pi_stripe pi in
  let c := pi_chunks pi in
  (placement pi <> POWERFS_PLACEMENT_INLINE -> inline_data (pi_inline pi) = None) /\
  sized (inline_data (pi_inline pi)) (inline_len (pi_inline pi)) /\
  (is_stripe (placement pi) = false -> volume_ids s = None /\ stripe_needle_keys s = None /\ stripe_size s = 0) /\
  sized (volume_ids s) (volume_ids_count s) /\
  sized (chunks c) (chunk_count c) /\ sized (ec_chunks c) (ec_chunk_count c) /\
  sized (replica_chunks c) (replica_count c) /\
  (reliability pi <> POWERFS_RELIABILITY_EC -> ec_data_shards c = 0 /\ ec_parity_shards c = 0).

Definition keys_fit (pi : layout_inode) : Prop :=
  sized (stripe_needle_keys (pi_stripe pi)) (volume_ids_count (pi_stripe pi)).

Lemma layout_inv_split pi : layout_inv pi <-> arrays_inv pi /\ keys_fit pi.
Proof. unfold layout_inv, arrays_inv, keys_fit. cbv zeta. tauto. Qed.

Definition array_ok {A} (a : array_field A) : Prop := sized (arr a) (arr_count a).

Definition layout_ok (l : powerfs_file_layout) : Prop :=
  array_ok (l_inline l) /\ array_ok (l_volume_ids l) /\ array_ok (l_replica l) /\ array_ok (l_ec_chunks l).

Lemma le_at_nonneg b i n : bytes_ok b -> 0 <= le_at b i n.
Proof.
  intros Hb. unfold le_at.
  assert (H : bytes_ok (slice b i n)) by (unfold slice; by apply Forall_take, Forall_drop).
  induction H as [|x l Hx _ IH]; cbn [le_combine]; [lia|].
  apply Z.lor_nonneg. split; [lia|]. apply Z.shiftl_nonneg. exact IH.
Qed.

(** ** The parser keeps lengths right on any input *)

Lemma find_bytes_wf d field :
  dec_wf d -> dec_wf (snd (find_bytes d field)) /\
  (forall raw, fst (find_bytes d field) = Some raw -> bytes_ok raw).
Proof.
  intros Hw. unfold find_bytes, powerfs_tlv_dec_find_raw.
  destruct (find_from_start _ d) as [d' l| |] eqn:E; [|by destruct d..].
  destruct (find_from_start_wf _ _ _ _ Hw E) as (Hw' & Hb & H0 & H1 & _). cbn. split.
  - apply set_pos_wf; [done|]. destruct Hw'. lia.
  - intros raw [= <-]. destruct Hw' as (_ & _ & _ & Hok). unfold slice. by apply Forall_take, Forall_drop.
Qed.

Lemma finders_wf d field :
  dec_wf d ->
  dec_wf (snd (powerfs_tlv_dec_find_u8 d field)) /\ dec_wf (snd (powerfs_tlv_dec_find_u32 d field)) /\
  dec_wf (snd (powerfs_tlv_dec_find_u64 d field)).
Proof.
  intros Hw. unfold powerfs_tlv_dec_find_u8, powerfs_tlv_dec_find_u32, powerfs_tlv_dec_find_u64.
  assert (H : forall w hit, (forall f l, hit f l = true -> l = w) ->
    dec_wf (snd match find_from_start hit d with
                | found d' _ => (0, Some 0, set_pos d' (dec_pos d' + w))
                | _ => (- ENOENT, None, set_pos d (dec_pos d))
                end)).
  { intros w hit Hh. destruct (find_from_start hit d) as [d' l| |] eqn:E; [|by destruct d..].
    destruct (find_from_start_wf _ _ _ _ Hw E) as (Hw' & Hb & H0 & H1 & H2). apply Hh in H2. subst l.
    apply set_pos_wf; [done|]. destruct Hw'. lia. }
  assert (Hh : forall w f l, (f =? field) && (l =? w) = true -> l = w) by (intros w f l He; bool_to_prop; lia).
  split_and!.
  - specialize (H 1 _ (Hh 1)). by destruct (find_from_start _ d).
  - specialize (H 4 _ (Hh 4)). by destruct (find_from_start _ d).
  - specialize (H 8 _ (Hh 8)). by destruct (find_from_start _ d).
Qed.

Lemma fill_zero_wf find d field old :
  (forall d, dec_wf d -> dec_wf (snd (find d field))) -> dec_wf d -> dec_wf (snd (fill_zero find d field old)).
Proof.
  intros Hf Hw. unfold fill_zero. case_if; [|done]. specialize (Hf d Hw).
  destruct (find d field) as [[[] [v|]] d']; done.
Qed.

Lemma length_parse_chunk_refs n p : length (parse_chunk_refs n p) = n.
Proof. revert p; induction n as [|n IH]; intros p; cbn; auto. Qed.
Lemma length_parse_u64s n p : length (parse_u64s n p) = n.
Proof. revert p; induction n as [|n IH]; intros p; cbn; auto. Qed.

Section parse_ok.
Context (alloc : layout_alloc -> bool).

Lemma no_array_ok {A} : array_ok (A := A) no_array.
Proof. done. Qed.

Lemma parse_inline_data_ok raw : array_ok (parse_inline_data alloc raw).
Proof. destruct raw as [raw|]; [|done]. cbn. do 2 (case_if; [|done]). done. Qed.

Lemma parse_chunk_layout_ok raw a :
  bytes_ok raw -> array_ok a ->
  array_ok (fst (parse_chunk_layout alloc raw a)) /\ array_ok (snd (parse_chunk_layout alloc raw a)).
Proof.
  intros Hraw Ha. unfold parse_chunk_layout.
  pose proof (le_at_nonneg raw 1 4 Hraw) as Hn.
  case_if; [case_if; [case_if|]|case_if; [case_if|]]; split; try done; bool_to_prop; unfold array_ok, sized; cbn.
  - unfold slice. rewrite length_take, length_drop. unfold blen in *. lia.
  - rewrite length_parse_chunk_refs. lia.
Qed.

Lemma parse_volume_ids_ok raw : array_ok (parse_volume_ids alloc raw).
Proof.
  destruct raw as [raw|]; [|done]. cbn. do 2 (case_if; [|done]). unfold array_ok, sized; cbn.
  rewrite length_parse_u64s. pose proof (u32_range (blen raw / 8)). lia.
Qed.

Lemma parse_volume_ids_range_ok raw a :
  (forall b, raw = Some b -> bytes_ok b) -> array_ok a -> array_ok (parse_volume_ids_range alloc raw a).
Proof.
  intros Hr Ha. destruct raw as [raw|]; [|done]. cbn. do 2 (case_if; [|done]). unfold array_ok, sized; cbn.
  rewrite length_fmap, length_seq. pose proof (le_at_nonneg raw 8 4 (Hr raw eq_refl)). lia.
Qed.

Lemma parse_replica_ok raw a :
  bytes_ok raw -> array_ok a -> array_ok (snd (parse_replica_chunks_field alloc raw a)).
Proof.
  intros Hr Ha. unfold parse_replica_chunks_field. do 2 (case_if; [done|]). do 2 (case_if; [done|]).
  unfold array_ok, sized; cbn. rewrite length_parse_chunk_refs. pose proof (le_at_nonneg raw 0 4 Hr). lia.
Qed.

(** One finder of the parser: name its result and keep the decoder well
    formed. *)
Ltac parse_step :=
  match goal with
  | Hw : dec_wf ?d |- context [find_bytes ?d ?f] =>
      let H := fresh "Hfb" in let d' := fresh "d" in let Hw' := fresh "Hw" in let raw := fresh "raw" in
      let Hraw := fresh "Hraw" in
      destruct (find_bytes_wf d f Hw) as [Hw' Hraw]; destruct (find_bytes d f) as [raw d'];
      cbn [fst snd] in Hw', Hraw; clear Hw
  | Hw : dec_wf ?d |- context [fill_zero ?find ?d ?f ?old] =>
      let d' := fresh "d" in let Hw' := fresh "Hw" in let v := fresh "v" in
      assert (Hw' : dec_wf (snd (fill_zero find d f old))) by (apply fill_zero_wf; [intros ? ?; by apply finders_wf|exact Hw]);
      destruct (fill_zero find d f old) as [v d']; cbn [snd] in Hw'; clear Hw
  end.

Lemma parse_file_layout_ok d : dec_wf d -> layout_ok (fst (parse_file_layout alloc d)).
Proof.
  intros Hw. unfold parse_file_layout. do 6 parse_step.
  set (a := parse_inline_data alloc _).
  assert (Ha : array_ok a) by apply parse_inline_data_ok.
  match goal with |- context [let '(cl, _) := ?x in _] => destruct x as [cl d'] eqn:Ecl end.
  assert (Hcl : dec_wf d' /\ array_ok (fst cl) /\ array_ok (snd cl)).
  { destruct (arr_has a); [by injection Ecl as <- <-|].
    revert Ecl. parse_step. intros [= <- <-]. split; [done|]. destruct raw2 as [r|]; [|done].
    apply parse_chunk_layout_ok; auto. }
  clear Ecl. destruct Hcl as (Hw' & Hc1 & Hc2). destruct cl as [a' ec]. cbn [fst snd] in Hc1, Hc2.
  do 5 parse_step.
  set (vi := parse_volume_ids alloc _). assert (Hvi : array_ok vi) by apply parse_volume_ids_ok.
  match goal with |- context [let '(vids, _) := ?x in _] => destruct x as [vids d''] eqn:Ev end.
  assert (Hv : dec_wf d'' /\ array_ok vids).
  { destruct (arr vi); [by injection Ev as <- <-|].
    revert Ev. parse_step. intros [= <- <-]. split; [done|]. by apply parse_volume_ids_range_ok. }
  clear Ev. destruct Hv as [Hw'' Hv]. parse_step. cbn [fst]. split_and!; cbn; auto.
  match goal with |- array_ok match ?r with _ => _ end => destruct r; [|done] end.
  apply parse_replica_ok; auto. apply no_array_ok.
Qed.
End parse_ok.

(** ** Applying a layout keeps the inode consistent *)

Lemma index_sized {A} (a : list A) count i :
  sized (Some a) count -> 0 <= i < count -> is_Some (index a i).
Proof.
  intros Hs Hi. unfold index. case_if; [lia|]. apply lookup_lt_is_Some_2. cbn in Hs. lia.
Qed.

(** A consistent inode is never indexed outside its arrays. *)
Lemma locate_in_bounds pi offset : layout_inv pi -> powerfs_locate_chunk pi offset <> OutOfBounds.
Proof.
  intros (_ & _ & _ & Hv & Hk & Hc & _). unfold powerfs_locate_chunk. case_if; [done|].
  set (C := if layout_chunk_size pi =? 0 then _ else _).
  assert (Hflat : forall i, locate_flat pi i <> OutOfBounds) by (intros i; unfold locate_flat; by case_if).
  assert (Hcomp : locate_computed pi C (u64 (offset ÷ C)) offset <> OutOfBounds).
  { unfold locate_computed. destruct (volume_ids (pi_stripe pi)) as [vids|] eqn:Ev; [|done].
    case_if; [|done]. bool_to_prop. unfold locate_stripe.
    set (i := u64 (start_volume_idx (pi_stripe pi) + _) mod _).
    assert (Hi : 0 <= i < volume_ids_count (pi_stripe pi)) by (apply Z.mod_pos_bound; lia).
    destruct (index_sized vids _ i Hv Hi) as [vid ->].
    destruct (stripe_needle_keys (pi_stripe pi)) as [keys|] eqn:Ek; [|done].
    by destruct (index_sized keys _ i Hk Hi) as [key ->]. }
  destruct (chunks (pi_chunks pi)) as [cs|] eqn:Ec; [|done]. case_if; [|done]. bool_to_prop.
  pose proof (u64_range (offset ÷ C)).
  destruct (index_sized cs _ (u64 (offset ÷ C)) Hc) as [cm ->]; [lia|]. by case_if.
Qed.

Lemma length_recover_keys n start cpu cs keys :
  length (foldl (recover_key n start cpu) keys cs) = length keys.
Proof.
  revert keys; induction cs as [|cm cs IH]; intros keys; [done|]. cbn [foldl]. rewrite IH.
  unfold recover_key. case_if; [by rewrite length_insert|done].
Qed.

(** The layout brings everything needed to rebuild the base needles. *)
Definition keys_rebuilt (alloc : layout_alloc -> bool) (pi : layout_inode) (l : powerfs_file_layout) : Prop :=
  arr_has (l_ec_chunks l) = true /\ alloc A_keys = true /\
  (if r_has (l_reliability l) then r_reliability (l_reliability l) else reliability pi) <> POWERFS_RELIABILITY_EC /\
  0 < l_chunk_size l <= p_stripe_size (l_placement l) /\ 0 < arr_count (l_volume_ids l).

(** The base needles match the volumes after the layout was applied. *)
Definition keys_follow (alloc : layout_alloc -> bool) (pi : layout_inode) (l : powerfs_file_layout) : Prop :=
  stripe_needle_keys (pi_stripe pi) = None \/
  arr_count (l_volume_ids l) = volume_ids_count (pi_stripe pi) \/ keys_rebuilt alloc pi l.

Lemma apply_inline_inv pl i l :
  sized (inline_data i) (inline_len i) -> array_ok (l_inline l) ->
  sized (inline_data (apply_inline pl i l)) (inline_len (apply_inline pl i l)) /\
  (pl <> POWERFS_PLACEMENT_INLINE -> inline_data (apply_inline pl i l) = None).
Proof.
  intros Hi Hl. unfold apply_inline. destruct (Z.eqb_spec pl POWERFS_PLACEMENT_INLINE) as [->|Hne]; cbn [andb negb].
  - destruct (arr_has (l_inline l)); [destruct (inline_dirty i)|]; done.
  - destruct (inline_data i); cbn; [done|]. done.
Qed.

(** Stripe fields after the merge, before the keys are rebuilt. *)
Lemma apply_stripe_inv pl s l :
  sized (volume_ids s) (volume_ids_count s) -> array_ok (l_volume_ids l) ->
  sized (volume_ids (apply_stripe pl s l)) (volume_ids_count (apply_stripe pl s l)) /\
  (is_stripe pl = false -> volume_ids (apply_stripe pl s l) = None /\
     stripe_needle_keys (apply_stripe pl s l) = None /\ stripe_size (apply_stripe pl s l) = 0).
Proof.
  intros Hs Hl. unfold apply_stripe. destruct (is_stripe pl); [|done]. by destruct (preserve_arrays s l).
Qed.

Lemma apply_keys_volumes alloc csz s p cs :
  volume_ids (apply_keys alloc csz s p cs) = volume_ids s /\
  volume_ids_count (apply_keys alloc csz s p cs) = volume_ids_count s /\
  (sized (stripe_needle_keys s) (volume_ids_count s) ->
   sized (stripe_needle_keys (apply_keys alloc csz s p cs)) (volume_ids_count s)).
Proof.
  unfold apply_keys. case_if; [|done]. bool_to_prop. cbn. split_and!; try done. intros _.
  rewrite length_recover_keys, length_replicate. lia.
Qed.

Lemma is_stripe_not_flat pl : is_stripe pl = true -> (pl =? POWERFS_PLACEMENT_FLAT) = false.
Proof.
  unfold is_stripe, POWERFS_PLACEMENT_STRIPE, POWERFS_PLACEMENT_WIDESTRIPE, POWERFS_PLACEMENT_FLAT. intros H.
  apply orb_true_iff in H. apply Z.eqb_neq. destruct H as [H|H]; apply Z.eqb_eq in H; lia.
Qed.

(** The stripe fields of the final inode. *)
Lemma apply_chunk_list_stripe alloc rel pl csz p ec c st :
  snd (apply_chunk_list alloc rel pl csz p ec c st) =
    if arr_has ec && negb (rel =? POWERFS_RELIABILITY_EC) && is_stripe pl
    then apply_keys alloc csz st p (default [] (arr ec)) else st.
Proof.
  unfold apply_chunk_list. destruct (arr_has ec); [|done]. destruct (rel =? POWERFS_RELIABILITY_EC); [done|].
  destruct (is_stripe pl) eqn:Es; [by rewrite is_stripe_not_flat|]. by destruct (pl =? POWERFS_PLACEMENT_FLAT).
Qed.

Lemma apply_chunk_list_chunks alloc rel pl csz p ec c st :
  array_ok ec -> sized (chunks c) (chunk_count c) -> sized (ec_chunks c) (ec_chunk_count c) ->
  let c' := fst (apply_chunk_list alloc rel pl csz p ec c st) in
  sized (chunks c') (chunk_count c') /\ sized (ec_chunks c') (ec_chunk_count c') /\
  replica_chunks c' = replica_chunks c /\ replica_count c' = replica_count c /\
  ec_data_shards c' = ec_data_shards c /\ ec_parity_shards c' = ec_parity_shards c.
Proof.
  intros He Hc Hec. unfold apply_chunk_list. destruct (arr_has ec); [|done].
  do 3 (match goal with |- context [if ?b then _ else _] => destruct b end; [done|]). done.
Qed.

(** The keys of the final inode have one entry per volume. *)
Lemma apply_keys_fit alloc pi l :
  stale_layout pi l = false -> sized (stripe_needle_keys (pi_stripe pi)) (volume_ids_count (pi_stripe pi)) ->
  keys_follow alloc pi l ->
  let s := pi_stripe (powerfs_apply_layout_to_inode alloc pi l) in
  sized (stripe_needle_keys s) (volume_ids_count s).
Proof.
  intros Hst Hk Hf. unfold powerfs_apply_layout_to_inode. rewrite Hst.
  set (pl := if p_has _ then _ else _). set (rel := if r_has _ then _ else _) in *.
  set (st := apply_stripe pl (pi_stripe pi) l). set (c := apply_replica _ _).
  pose proof (apply_chunk_list_stripe alloc rel pl (if l_chunk_size l >? 0 then l_chunk_size l else layout_chunk_size pi)
    (is_stripe pl && preserve_arrays (pi_stripe pi) l) (l_ec_chunks l) c st) as E.
  destruct (apply_chunk_list _ _ _ _ _ _ _ _) as [c' st']. cbn [pi_stripe snd] in *. subst st'.
  destruct (arr_has (l_ec_chunks l) && negb (rel =? POWERFS_RELIABILITY_EC) && is_stripe pl) eqn:Eb.
  - bool_to_prop. destruct (apply_keys_volumes alloc (if l_chunk_size l >? 0 then l_chunk_size l else layout_chunk_size pi) st
      (is_stripe pl && preserve_arrays (pi_stripe pi) l) (default [] (arr (l_ec_chunks l)))) as (_ & -> & Hs).
    unfold st, apply_stripe in *. rewrite H0 in *. cbn [andb] in *.
    destruct (preserve_arrays (pi_stripe pi) l) eqn:Ep; [by apply Hs|]. cbn [stripe_needle_keys volume_ids_count] in *.
    destruct Hf as [Hf|[Hf|(R1 & R2 & R3 & R4 & R5)]]; [apply Hs; by rewrite Hf|apply Hs; by rewrite Hf|].
    rewrite (proj2 (Z.gtb_lt (l_chunk_size l) 0)) by lia. unfold apply_keys.
    cbn [stripe_size volume_ids_count start_volume_idx volume_ids stripe_count]. rewrite (proj2 (Z.eqb_neq (p_stripe_size (l_placement l)) 0)) by lia.
    rewrite (proj2 (Z.eqb_neq (l_chunk_size l) 0)) by lia.
    rewrite (proj2 (Z.eqb_neq (p_stripe_size (l_placement l)) 0)) by lia.
    rewrite (proj2 (Z.eqb_neq (l_chunk_size l) 0)) by lia. cbn [orb].
    rewrite (proj2 (Z.gtb_lt (arr_count (l_volume_ids l)) 0)) by lia.
    rewrite (proj2 (Z.gtb_lt (p_stripe_size (l_placement l) / l_chunk_size l) 0)) by (apply Z.div_str_pos; lia).
    rewrite R2. cbn [andb negb sized stripe_needle_keys]. rewrite length_recover_keys, length_replicate. lia.
  - unfold st, apply_stripe in *. destruct (is_stripe pl) eqn:Es; [|done].
    destruct (preserve_arrays (pi_stripe pi) l); [done|]. cbn [stripe_needle_keys volume_ids_count].
    destruct Hf as [->|[->|(R1 & R2 & R3 & _)]]; [done|done|]. fold rel in R3.
    rewrite R1, (proj2 (Z.eqb_neq rel _) R3) in Eb. done.
Qed.

Lemma apply_layout_keeps_arrays alloc pi l :
  arrays_inv pi -> layout_ok l -> arrays_inv (powerfs_apply_layout_to_inode alloc pi l).
Proof.
  intros (I1 & I2 & I3 & I4 & I6 & I7 & I8 & I9) (L1 & L2 & L3 & L4).
  destruct (stale_layout pi l) eqn:Hst.
  { unfold powerfs_apply_layout_to_inode. rewrite Hst. done. }
  unfold powerfs_apply_layout_to_inode. rewrite Hst.
  set (pl := if p_has _ then _ else _). set (rel := if r_has _ then _ else _).
  set (csz := if l_chunk_size l >? 0 then _ else _). set (pr := is_stripe pl && _).
  set (st := apply_stripe pl (pi_stripe pi) l). set (c := apply_replica _ _).
  assert (Hc : sized (chunks c) (chunk_count c) /\ sized (ec_chunks c) (ec_chunk_count c) /\
               sized (replica_chunks c) (replica_count c) /\
               (rel <> POWERFS_RELIABILITY_EC -> ec_data_shards c = 0 /\ ec_parity_shards c = 0)).
  { unfold c, apply_replica, apply_ec_params. destruct (Z.eqb_spec rel POWERFS_RELIABILITY_EC);
      destruct (arr_has (l_replica l)); cbn; split_and!; auto; done. }
  destruct Hc as (C1 & C2 & C3 & C4).
  destruct (apply_chunk_list_chunks alloc rel pl csz pr (l_ec_chunks l) c st L4 C1 C2) as (D1 & D2 & D3 & D4 & D5 & D6).
  pose proof (apply_chunk_list_stripe alloc rel pl csz pr (l_ec_chunks l) c st) as E.
  destruct (apply_stripe_inv pl (pi_stripe pi) l I4 L2) as [S1 S2]. fold st in S1, S2.
  destruct (apply_keys_volumes alloc csz st pr (default [] (arr (l_ec_chunks l)))) as (V1 & V2 & _).
  destruct (apply_inline_inv pl (pi_inline pi) l I2 L1) as [A1 A2].
  destruct (apply_chunk_list _ _ _ _ _ _ _ _) as [c' st']. cbn [fst snd] in *.
  split_and!; cbn [placement reliability pi_inline pi_stripe pi_chunks] in *; auto.
  - intros Hs. subst st'. rewrite Hs, andb_false_r. auto.
  - subst st'. match goal with |- context [if ?b then _ else _] => destruct b end; [|done]. by rewrite V1, V2.
  - by rewrite D3, D4.
  - rewrite D5, D6. auto.
Qed.

Lemma apply_layout_keeps_inv alloc pi l :
  layout_inv pi -> layout_ok l -> keys_follow alloc pi l -> layout_inv (powerfs_apply_layout_to_inode alloc pi l).
Proof.
  rewrite !layout_inv_split. intros [Hi Hk] Hl Hf. split; [by apply apply_layout_keeps_arrays|].
  destruct (stale_layout pi l) eqn:Hst; [|by apply apply_keys_fit].
  unfold powerfs_apply_layout_to_inode. by rewrite Hst.
Qed.

(** ** The server's encoding of a Stripe layout *)

Record chunk_ref := mk_ref {
  cr_offset : Z; cr_size : Z; cr_needle : Z; cr_volume : Z; cr_crc : Z; cr_mtime : Z
}.

Definition encode_ref (r : chunk_ref) : buffer :=
  le_split 8 (cr_offset r) ++ le_split 8 (cr_size r) ++ le_split 8 (cr_needle r) ++
  le_split 8 (cr_volume r) ++ le_split 4 (cr_crc r) ++ le_split 8 (cr_mtime r).

Definition ref_ok (r : chunk_ref) : Prop :=
  is_u64 (cr_offset r) /\ is_u64 (cr_size r) /\ is_u64 (cr_needle r) /\ is_u64 (cr_volume r) /\ is_u32 (cr_crc r).

Definition ref_map (r : chunk_ref) : powerfs_chunk_map :=
  mk_cm (u32 (cr_offset r / POWERFS_CHUNK_SIZE)) (cr_needle r) (cr_volume r) (cr_crc r) (cr_size r).

Definition stripe_fields (ssz count start : Z) (vids : list Z) (refs : list chunk_ref) : list (Z * buffer) :=
  [(POWERFS_NET_FLD_PLACEMENT,
     POWERFS_PLACEMENT_STRIPE :: le_split 8 ssz ++ le_split 4 count ++ le_split 4 start);
   (POWERFS_NET_FLD_VOLUME_IDS, mjoin (le_split 8 <$> vids));
   (POWERFS_NET_FLD_CHUNK_LAYOUT, 1 :: le_split 4 (Z.of_nat (length refs)) ++ mjoin (encode_ref <$> refs))].

Lemma le_at_head k v b : 0 <= v < 2 ^ (8 * Z.of_nat k) -> le_at (le_split k v ++ b) 0 (Z.of_nat k) = v.
Proof.
  intros Hv. unfold le_at, slice. rewrite Nat2Z.id. change (Z.to_nat 0) with 0%nat. rewrite drop_0.
  rewrite take_app_length' by (by rewrite length_le_split). by apply le_combine_split_small.
Qed.

Lemma le_at_last k v : 0 <= v < 2 ^ (8 * Z.of_nat k) -> le_at (le_split k v) 0 (Z.of_nat k) = v.
Proof. intros Hv. rewrite <- (app_nil_r (le_split k v)). by apply le_at_head. Qed.

Lemma le_at_skip k v b i n : Z.of_nat k <= i -> le_at (le_split k v ++ b) i n = le_at b (i - Z.of_nat k) n.
Proof.
  intros Hi. unfold le_at, slice. rewrite drop_app_ge by (rewrite length_le_split; lia).
  rewrite length_le_split. do 3 f_equal. lia.
Qed.

Lemma le_at_tail x b i n : 1 <= i -> le_at (x :: b) i n = le_at b (i - 1) n.
Proof.
  intros Hi. unfold le_at, slice. replace (Z.to_nat i) with (S (Z.to_nat (i - 1))) by lia. done.
Qed.

Ltac norm_index :=
  match goal with
  | |- context [le_at _ (?i - ?j) _] =>
      let r := eval vm_compute in (i - j) in change (i - j) with r
  end.
Ltac le_walk :=
  repeat first [rewrite le_at_tail by lia; norm_index | rewrite le_at_skip by (cbn; lia); norm_index];
  match goal with
  | |- context [le_at (le_split ?k _ ++ _) 0 ?n] => change n with (Z.of_nat k); rewrite le_at_head
  | |- context [le_at (le_split ?k _) 0 ?n] => change n with (Z.of_nat k); rewrite le_at_last
  end.

Lemma parse_encode_ref r rest : ref_ok r -> parse_chunk_ref (encode_ref r ++ rest) = ref_map r.
Proof.
  unfold is_u64, is_u32. intros (H1 & H2 & H3 & H4 & H5). unfold is_u64, is_u32 in *.
  unfold parse_chunk_ref, encode_ref, ref_map. rewrite <- !app_assoc.
  f_equal; [f_equal; f_equal|..]; le_walk; cbn; first [done|lia].
Qed.

Lemma length_encode_ref r : length (encode_ref r) = 44%nat.
Proof. unfold encode_ref. rewrite !length_app, !length_le_split. done. Qed.

Lemma parse_encode_refs refs rest :
  Forall ref_ok refs -> parse_chunk_refs (length refs) (mjoin (encode_ref <$> refs) ++ rest) = ref_map <$> refs.
Proof.
  induction 1 as [|r refs Hr _ IH]; [done|]. cbn [length parse_chunk_refs fmap list_fmap mjoin list_join].
  fold (mjoin (encode_ref <$> refs)). rewrite <- app_assoc. f_equal; [by apply parse_encode_ref|].
  rewrite drop_app_length' by (by rewrite length_encode_ref). exact IH.
Qed.

Lemma parse_u64s_encode vids rest :
  Forall is_u64 vids -> parse_u64s (length vids) (mjoin (le_split 8 <$> vids) ++ rest) = vids.
Proof.
  induction 1 as [|v vids Hv _ IH]; [done|]. cbn [length parse_u64s fmap list_fmap mjoin list_join].
  fold (mjoin (le_split 8 <$> vids)). rewrite <- app_assoc. f_equal; [change 8 with (Z.of_nat 8); by apply le_at_head|].
  rewrite drop_app_length' by (by rewrite length_le_split). exact IH.
Qed.

Lemma blen_mjoin {A} (f : A -> buffer) k (l : list A) :
  (forall x, length (f x) = k) -> blen (mjoin (f <$> l)) = Z.of_nat k * Z.of_nat (length l).
Proof.
  intros Hf. unfold blen. induction l as [|x l IH]; [cbn; lia|].
  change (mjoin (f <$> x :: l)) with (f x ++ mjoin (f <$> l)).
  rewrite length_app, Hf, Nat2Z.inj_add, IH. cbn [length]. rewrite Nat2Z.inj_succ. lia.
Qed.

Lemma bytes_ok_mjoin {A} (f : A -> buffer) (l : list A) : (forall x, bytes_ok (f x)) -> bytes_ok (mjoin (f <$> l)).
Proof.
  intros Hf. induction l as [|x l IH]; [constructor|].
  change (mjoin (f <$> x :: l)) with (f x ++ mjoin (f <$> l)). apply Forall_app. split; [apply Hf|exact IH].
Qed.

Lemma encode_ref_ok r : bytes_ok (encode_ref r).
Proof. unfold encode_ref, bytes_ok. rewrite !Forall_app. split_and!; apply le_split_ok. Qed.

Section over.
Context (fs : list (Z * buffer)) (Hfs : Forall field_ok fs) (Hb : blen (tlv_message fs) < 2 ^ 63).

Lemma find_bytes_over d field : over_message fs d ->
  exists d', find_bytes d field = (lookup_field (fun f _ => f =? field) fs, d') /\ over_message fs d'.
Proof using Hfs Hb.
  intros Hd. unfold find_bytes. destruct (lookup_field (fun f _ => f =? field) fs) as [v|] eqn:El.
  - destruct (find_raw_over fs Hfs Hb d field v Hd El) as (p & d' & -> & Hd' & Hsl).
    exists d'. split; [|done]. specialize (Hsl (blen v)). rewrite Z.min_id in Hsl. rewrite Hsl.
    unfold blen. by rewrite Nat2Z.id, firstn_all.
  - destruct (find_raw_absent fs Hfs Hb d field Hd El) as (d' & -> & Hd'). by exists d'.
Qed.

(** A scalar field that the message does not have keeps its value. *)
Lemma fill_zero_absent find width d field old :
  (exists ret d', find d field = (ret, field_value fs width field, d') /\ over_message fs d') ->
  over_message fs d -> field_value fs width field = None ->
  exists d', fill_zero find d field old = (old, d') /\ over_message fs d'.
Proof.
  intros (ret & d' & Hf & Hd') Hd Hv. unfold fill_zero. case_if; [|by exists d].
  rewrite Hf, Hv. exists d'. by destruct ret.
Qed.
End over.

Definition stripe_layout (ssz count start : Z) (vids : list Z) (refs : list chunk_ref) : powerfs_file_layout :=
  mk_layout (mk_pinfo POWERFS_PLACEMENT_STRIPE true 0 ssz count start) (mk_rinfo 0 false 0 0) 0 POWERFS_CHUNK_SIZE
    no_array 0 (mk_arr (Some vids) (Z.of_nat (length vids)) false) no_array
    (mk_arr (Some (ref_map <$> refs)) (Z.of_nat (length refs)) true).

Lemma parse_stripe_placement ssz count start :
  is_u64 ssz -> is_u32 count -> is_u32 start ->
  parse_placement_field (POWERFS_PLACEMENT_STRIPE :: le_split 8 ssz ++ le_split 4 count ++ le_split 4 start) =
    Some (mk_pinfo POWERFS_PLACEMENT_STRIPE true 0 ssz count start).
Proof.
  unfold is_u64, is_u32. intros H1 H2 H3. unfold parse_placement_field.
  set (val := _ :: _). assert (Hl : blen val = 17).
  { unfold val, blen. cbn [length]. rewrite !length_app, !length_le_split. done. }
  rewrite Hl. cbn [Z.eqb POWERFS_PLACEMENT_STRIPE POWERFS_PLACEMENT_FLAT POWERFS_PLACEMENT_INLINE Pos.eqb orb].
  change (17 >=? 17) with true. cbv iota. do 2 f_equal; unfold val; le_walk; cbn; first [done|lia].
Qed.

Section stripe_message.
Context (ssz count start : Z) (vids : list Z) (refs : list chunk_ref).
Hypotheses (Hssz : is_u64 ssz) (Hcount : is_u32 count) (Hstart : is_u32 start)
  (Hvids : Forall is_u64 vids) (Hnv : 0 < Z.of_nat (length vids) <= 256)
  (Hrefs : Forall ref_ok refs) (Hnr : 0 < Z.of_nat (length refs) < 2 ^ 24).

Let fs := stripe_fields ssz count start vids refs.

Lemma blen_volume_ids : blen (mjoin (le_split 8 <$> vids)) = 8 * Z.of_nat (length vids).
Proof using. apply (blen_mjoin (le_split 8) 8). intros; apply length_le_split. Qed.
Lemma blen_chunk_refs : blen (mjoin (encode_ref <$> refs)) = 44 * Z.of_nat (length refs).
Proof using. apply (blen_mjoin encode_ref 44). apply length_encode_ref. Qed.

Lemma stripe_fields_ok : Forall field_ok fs /\ blen (tlv_message fs) < 2 ^ 63.
Proof using Hnv Hnr.
  pose proof blen_volume_ids as H1. pose proof blen_chunk_refs as H2. unfold blen in H1, H2. split.
  - unfold fs, stripe_fields. apply Forall_cons; split; [|apply Forall_cons; split; [|apply Forall_singleton]].
    + split; [vm_compute; split; congruence|]. cbn [snd]. split.
      * apply Forall_cons. split; [vm_compute; split; congruence|]. rewrite !Forall_app.
        split_and!; apply le_split_ok.
      * unfold blen. rewrite length_cons, !length_app, !length_le_split. lia.
    + split; [vm_compute; split; congruence|]. cbn [snd]. split; [apply bytes_ok_mjoin, le_split_ok|].
      unfold blen. lia.
    + split; [vm_compute; split; congruence|]. cbn [snd]. split.
      * apply Forall_cons. split; [lia|]. rewrite Forall_app. split; [apply le_split_ok|].
        apply bytes_ok_mjoin, encode_ref_ok.
      * unfold blen. rewrite length_cons, length_app, length_le_split. lia.
  - unfold fs, stripe_fields, tlv_message. cbn [fmap list_fmap mjoin list_join fst snd].
    unfold blen. rewrite !length_app. cbn [length].
    assert (Hf : forall f v, Z.of_nat (length (tlv_field f v)) = 5 + Z.of_nat (length v)) by (intros f v; exact (blen_tlv_field f v)).
    rewrite !Nat2Z.inj_add, !Hf. rewrite !length_cons, !length_app, !length_le_split. lia.
Qed.

Lemma parse_refs_field alloc a :
  (forall x, alloc x = true) ->
  parse_chunk_layout alloc (1 :: le_split 4 (Z.of_nat (length refs)) ++ mjoin (encode_ref <$> refs)) a =
    (a, mk_arr (Some (ref_map <$> refs)) (Z.of_nat (length refs)) true).
Proof using All.
  intros Hal. pose proof blen_chunk_refs as Hl. unfold parse_chunk_layout. set (raw := 1 :: _).
  assert (Hb : blen raw = 5 + 44 * Z.of_nat (length refs)).
  { unfold raw, blen in *. rewrite length_cons, length_app, length_le_split. lia. }
  rewrite Hb. rewrite (proj2 (Z.geb_le _ 5)) by lia.
  change (le_at raw 0 1) with (le_combine [1]). change (le_combine [1] =? 0) with false.
  change (le_combine [1] =? 1) with true. cbn [andb].
  assert (Hc : le_at raw 1 4 = Z.of_nat (length refs)) by (unfold raw; le_walk; [done|cbn; lia]).
  rewrite Hc, (proj2 (Z.gtb_lt _ 0)), (proj2 (Z.geb_le _ _)), Hal by lia. cbn [andb].
  rewrite Nat2Z.id. do 3 f_equal. unfold raw. cbn [drop].
  rewrite drop_app_length' by (by rewrite length_le_split).
  rewrite <- (app_nil_r (mjoin (encode_ref <$> refs))). by rewrite parse_encode_refs.
Qed.

Lemma parse_vids_field alloc :
  (forall x, alloc x = true) ->
  parse_volume_ids alloc (Some (mjoin (le_split 8 <$> vids))) = mk_arr (Some vids) (Z.of_nat (length vids)) false.
Proof using All.
  intros Hal. pose proof blen_volume_ids as Hl. unfold parse_volume_ids. rewrite Hl.
  rewrite (proj2 (Z.gtb_lt _ 0)) by lia. rewrite (Z.mul_comm 8), Z.mod_mul, Z.div_mul by lia. cbn [Z.eqb andb].
  rewrite u32_small, (proj2 (Z.leb_le _ 256)), Hal by lia. cbn [andb]. rewrite Nat2Z.id. do 2 f_equal.
  rewrite <- (app_nil_r (mjoin (le_split 8 <$> vids))). by apply parse_u64s_encode.
Qed.

(** Name the result of one finder on the message. *)
Ltac over_bytes Hfs Hb :=
  match goal with
  | Hd : over_message _ ?d |- context [find_bytes ?d ?f] =>
      let d' := fresh "d" in let Hd' := fresh "Hd" in
      destruct (find_bytes_over _ Hfs Hb d f Hd) as (d' & -> & Hd'); clear Hd
  end.
Ltac over_scalar Hfs Hb :=
  match goal with
  | Hd : over_message _ ?d |- context [fill_zero powerfs_tlv_dec_find_u8 ?d ?f ?old] =>
      let d' := fresh "d" in let Hd' := fresh "Hd" in
      destruct (fill_zero_absent _ powerfs_tlv_dec_find_u8 1 d f old (find_u8_over _ Hfs Hb d f Hd) Hd eq_refl)
        as (d' & -> & Hd'); clear Hd
  | Hd : over_message _ ?d |- context [fill_zero powerfs_tlv_dec_find_u64 ?d ?f ?old] =>
      let d' := fresh "d" in let Hd' := fresh "Hd" in
      destruct (fill_zero_absent _ powerfs_tlv_dec_find_u64 8 d f old (find_u64_over _ Hfs Hb d f Hd) Hd eq_refl)
        as (d' & -> & Hd'); clear Hd
  | Hd : over_message _ ?d |- context [fill_zero powerfs_tlv_dec_find_u32 ?d ?f ?old] =>
      let d' := fresh "d" in let Hd' := fresh "Hd" in let ret := fresh "ret" in
      let Hx := fresh "Hx" in
      assert (Hx : exists ret d', powerfs_tlv_dec_find_u32 d f = (ret, field_value fs 4 f, d') /\ over_message fs d')
        by (destruct (find_u32_over _ Hfs Hb d f Hd) as (? & ? & ? & ? & _); eauto);
      destruct (fill_zero_absent _ powerfs_tlv_dec_find_u32 4 d f old Hx Hd eq_refl) as (d' & -> & Hd'); clear Hx Hd
  end.

Lemma parse_stripe_message alloc d :
  (forall a, alloc a = true) -> over_message fs d ->
  fst (parse_file_layout alloc d) = stripe_layout ssz count start vids refs.
Proof using All.
  intros Hal Hd. destruct stripe_fields_ok as [Hfs Hb]. unfold parse_file_layout.
  over_bytes Hfs Hb. change (lookup_field _ fs) with (Some (POWERFS_PLACEMENT_STRIPE :: le_split 8 ssz ++ le_split 4 count ++ le_split 4 start)).
  cbn [mbind option_bind]. rewrite parse_stripe_placement by done.
  cbn [default p_inline_max p_stripe_size p_stripe_count p_start_volume_idx p_placement p_has].
  over_bytes Hfs Hb. change (lookup_field _ fs) with (@None buffer).
  cbn [mbind option_bind default]. do 3 over_scalar Hfs Hb. change (0 >? 0) with false. cbv iota.
  over_bytes Hfs Hb. change (lookup_field _ fs) with (@None buffer).
  cbn [parse_inline_data]. change (arr_has no_array) with false. cbv iota.
  over_bytes Hfs Hb.
  change (lookup_field _ fs) with (Some (1 :: le_split 4 (Z.of_nat (length refs)) ++ mjoin (encode_ref <$> refs))).
  cbv beta iota. rewrite parse_refs_field by done. do 4 over_scalar Hfs Hb. over_bytes Hfs Hb.
  change (lookup_field _ fs) with (Some (mjoin (le_split 8 <$> vids))).
  cbv beta iota. rewrite parse_vids_field by done. cbn [arr]. over_bytes Hfs Hb.
  change (lookup_field _ fs) with (@None buffer). reflexivity.
Qed.
End stripe_message.

(** ** Addresses by chunk number *)

Definition chunk_size_of (pi : layout_inode) : Z :=
  if layout_chunk_size pi =? 0 then POWERFS_CHUNK_SIZE else layout_chunk_size pi.

Definition units_of (pi : layout_inode) : Z :=
  if stripe_size (pi_stripe pi) =? 0 then 1 else stripe_size (pi_stripe pi) / chunk_size_of pi.

(** Field widths, and a stripe unit that is a whole number of chunks. *)
Definition geometry (pi : layout_inode) : Prop :=
  let s := pi_stripe pi in
  0 <= layout_chunk_size pi < 2 ^ 32 /\ 0 <= stripe_size s < 2 ^ 64 /\ 0 <= start_volume_idx s < 2 ^ 32 /\
  0 <= volume_ids_count s < 2 ^ 32 /\ (chunk_size_of pi | stripe_size s).

(** Entry of the chunk map of a Flat file. *)
Definition explicit_entry (pi : layout_inode) (g : Z) : option (Z * Z) :=
  if is_stripe (placement pi) then None else
  cs ← chunks (pi_chunks pi);
  cm ← cs !! Z.to_nat g;
  if negb (cm_volume_id cm =? 0) && negb (cm_needle_id cm =? 0) then Some (cm_volume_id cm, cm_needle_id cm) else None.

Definition stripe_address (pi : layout_inode) (vids : list Z) (g : Z) : located :=
  let s := pi_stripe pi in
  let i := slot_of (volume_ids_count s) (start_volume_idx s) (units_of pi) g in
  match match stripe_needle_keys s with Some keys => keys !! Z.to_nat i | None => Some (file_key pi) end,
        vids !! Z.to_nat i with
  | Some base, Some vid => At vid (u64 (base + vol_chunk (volume_ids_count s) (units_of pi) g))
  | _, _ => OutOfBounds
  end.

(** Specification of the address of chunk [g]. *)
Definition chunk_address (pi : layout_inode) (g : Z) : located :=
  if placement pi =? POWERFS_PLACEMENT_INLINE then LocErr (- EINVAL) else
  match explicit_entry pi g with
  | Some (vid, nid) => At vid nid
  | None =>
      match volume_ids (pi_stripe pi) with
      | Some vids =>
          if is_stripe (placement pi) && (volume_ids_count (pi_stripe pi) >? 0)
          then stripe_address pi vids g else locate_flat pi g
      | None => locate_flat pi g
      end
  end.

Lemma chunk_size_pos pi : geometry pi -> 0 < chunk_size_of pi.
Proof.
  intros (H & _). unfold chunk_size_of, POWERFS_CHUNK_SIZE. destruct (Z.eqb_spec (layout_chunk_size pi) 0); lia.
Qed.

Lemma units_pos pi : geometry pi -> 0 < units_of pi.
Proof.
  intros Hg. pose proof (chunk_size_pos pi Hg) as Hc. destruct Hg as (_ & Hs & _ & _ & [k Hk]). unfold units_of.
  destruct (Z.eqb_spec (stripe_size (pi_stripe pi)) 0); [lia|]. rewrite Hk, Z.div_mul by lia. nia.
Qed.

Lemma index_nonneg {A} (l : list A) i : 0 <= i -> index l i = l !! Z.to_nat i.
Proof. intros H. unfold index. by ltb_false. Qed.

(** The code's arithmetic on offsets is the specification's on chunks. *)
Lemma locate_stripe_address pi vids offset :
  geometry pi -> 0 < volume_ids_count (pi_stripe pi) -> 0 <= offset < 2 ^ 63 ->
  locate_stripe pi (chunk_size_of pi) vids offset = stripe_address pi vids (offset / chunk_size_of pi).
Proof.
  intros Hg Hn Ho. pose proof (chunk_size_pos pi Hg) as Hc. pose proof (units_pos pi Hg) as Hu.
  destruct Hg as (_ & Hs & Hst & Hnr & Hdiv). unfold locate_stripe, stripe_address. cbv zeta.
  set (s := pi_stripe pi) in *. set (C := chunk_size_of pi) in *. set (cpu := units_of pi) in *.
  set (ssz := if stripe_size s =? 0 then C else stripe_size s).
  assert (Hssz : ssz = C * cpu).
  { unfold ssz, cpu, units_of. fold s C. destruct (Z.eqb_spec (stripe_size s) 0); [lia|].
    destruct Hdiv as [k ->]. rewrite Z.div_mul by lia. lia. }
  assert (Hcpu : (if ssz / C =? 0 then 1 else ssz / C) = cpu).
  { rewrite Hssz, Z.mul_comm, Z.div_mul by lia. destruct (Z.eqb_spec cpu 0); lia. }
  rewrite Hcpu, Hssz, (u64_small offset) by lia. rewrite <- !Z.div_div by lia.
  rewrite Z.rem_mul_r by lia. rewrite (Z.add_comm (offset mod C)), (Z.mul_comm C), div_pack by (by apply Z.mod_pos_bound).
  set (g := offset / C).
  assert (Hgr : 0 <= g < 2 ^ 63) by (unfold g; split; [apply Z.div_pos; lia|apply Z.div_lt_upper_bound; nia]).
  pose proof (Z.mod_pos_bound (g / cpu) (volume_ids_count s) ltac:(lia)) as Hr.
  rewrite (u64_small (start_volume_idx s + _)) by lia.
  fold (slot_of (volume_ids_count s) (start_volume_idx s) cpu g).
  fold (vol_chunk (volume_ids_count s) cpu g).
  pose proof (vol_chunk_range (volume_ids_count s) cpu Hn Hu g ltac:(lia)) as Hv.
  pose proof (slot_range (volume_ids_count s) (start_volume_idx s) cpu Hn g) as Hsl.
  rewrite (u64_small (vol_chunk _ _ _)) by lia. rewrite index_nonneg by lia.
  destruct (stripe_needle_keys s) as [keys|]; [|done]. by rewrite index_nonneg by lia.
Qed.

(** A Stripe file is always addressed by striping. *)
Lemma locate_stripe_file pi vids o :
  geometry pi -> is_stripe (placement pi) = true -> volume_ids (pi_stripe pi) = Some vids ->
  0 < volume_ids_count (pi_stripe pi) -> 0 <= o < 2 ^ 63 ->
  powerfs_locate_chunk pi o = stripe_address pi vids (o / chunk_size_of pi).
Proof.
  intros Hg Hst Hv Hn Ho. unfold powerfs_locate_chunk.
  rewrite (proj2 (Z.eqb_neq (placement pi) POWERFS_PLACEMENT_INLINE)) by (intros E; rewrite E in Hst; done).
  fold (chunk_size_of pi). set (C := chunk_size_of pi).
  assert (E : locate_computed pi C (u64 (o ÷ C)) o = stripe_address pi vids (o / C)).
  { unfold locate_computed. rewrite Hv, Hst, (proj2 (Z.gtb_lt (volume_ids_count (pi_stripe pi)) 0)) by lia. cbn [andb].
    by apply locate_stripe_address. }
  rewrite E, Hst. destruct (chunks (pi_chunks pi)); [|done]. by rewrite andb_false_r.
Qed.

(** ** Recovering the base needles *)

Section recover.
Context (n start cpu : Z) (base : list Z).
Hypothesis (Hn : 0 < n < 2 ^ 32) (Hcpu : 0 < cpu) (Hstart : 0 <= start < 2 ^ 32)
  (Hbase : Forall is_u64 base).

Definition base_at (i : Z) : Z := default 0 (base !! Z.to_nat i).

(** [cm] is the map entry of its chunk under these bases. *)
Definition anchored (cm : powerfs_chunk_map) : Prop :=
  0 <= cm_chunk_idx cm < 2 ^ 32 /\
  cm_needle_id cm = u64 (base_at (slot_of n start cpu (cm_chunk_idx cm)) + vol_chunk n cpu (cm_chunk_idx cm)).

(** Every key is still unset or right, and right where an anchor was seen. *)
Definition keys_ok (keys : list Z) (seen : list powerfs_chunk_map) : Prop :=
  Z.of_nat (length keys) = n /\
  (forall i, 0 <= i < n -> keys !! Z.to_nat i = Some 0 \/ keys !! Z.to_nat i = Some (base_at i)) /\
  (forall cm, cm ∈ seen -> let i := slot_of n start cpu (cm_chunk_idx cm) in
     keys !! Z.to_nat i = Some (base_at i)).

Lemma base_at_u64 i : is_u64 (base_at i).
Proof.
  unfold base_at. destruct (base !! Z.to_nat i) as [b|] eqn:E; [|done].
  exact (Forall_lookup_1 _ _ _ _ Hbase E).
Qed.

Lemma recover_key_step keys seen cm :
  keys_ok keys seen -> anchored cm -> keys_ok (recover_key n start cpu keys cm) (seen ++ [cm]).
Proof.
  intros (K1 & K2 & K3) [Hidx Hneedle]. unfold recover_key. set (g := cm_chunk_idx cm) in *.
  pose proof (Z.mod_pos_bound (g / cpu) n ltac:(lia)) as Hr. rewrite (u64_small (start + _)) by lia.
  fold (slot_of n start cpu g). fold (vol_chunk n cpu g). set (i := slot_of n start cpu g) in *.
  pose proof (slot_range n start cpu ltac:(lia) g) as Hi. fold i in Hi.
  pose proof (vol_chunk_range n cpu ltac:(lia) Hcpu g ltac:(lia)) as Hv. rewrite (u64_small (vol_chunk n cpu g)) by lia.
  assert (Hkey : u64 (cm_needle_id cm - vol_chunk n cpu g) = base_at i).
  { rewrite Hneedle. pose proof (base_at_u64 i) as Hb. unfold u64 at 1 2. rewrite Zminus_mod_idemp_l.
    replace (base_at i + vol_chunk n cpu g - vol_chunk n cpu g) with (base_at i) by lia. by apply Z.mod_small. }
  rewrite Hkey. assert (Hlt : (Z.to_nat i < length keys)%nat) by lia.
  destruct (Z.eqb_spec (default 0 (keys !! Z.to_nat i)) 0) as [E|E].
  - split_and!; [by rewrite length_insert| |].
    + intros j Hj. destruct (decide (j = i)) as [->|Hne]; [right; by apply list_lookup_insert_eq|].
      rewrite list_lookup_insert_ne by lia. auto.
    + intros cm' Hin. destruct (decide (slot_of n start cpu (cm_chunk_idx cm') = i)) as [->|Hne];
        [by apply list_lookup_insert_eq|]. apply elem_of_app in Hin as [Hin|Hin].
      * pose proof (slot_range n start cpu ltac:(lia) (cm_chunk_idx cm')).
        cbv zeta. rewrite list_lookup_insert_ne by lia. by apply K3.
      * apply list_elem_of_singleton in Hin. subst cm'. done.
  - split_and!; [done|done|]. intros cm' Hin. apply elem_of_app in Hin as [Hin|Hin]; [by apply K3|].
    apply list_elem_of_singleton in Hin. subst cm'. fold g. fold i. destruct (K2 i Hi) as [H|H]; [|done].
    rewrite H in E. done.
Qed.

Lemma recover_keys cs :
  Forall anchored cs -> keys_ok (foldl (recover_key n start cpu) (replicate (Z.to_nat n) 0) cs) cs.
Proof.
  induction cs as [|cm cs IH] using rev_ind; intros Hcs.
  - split_and!; [cbn; rewrite length_replicate; lia| |intros cm Hin; by apply elem_of_nil in Hin].
    intros i Hi. left. apply lookup_replicate_2. lia.
  - apply Forall_app in Hcs as [Hcs Hcm]. rewrite Forall_singleton in Hcm.
    rewrite foldl_app. cbn [foldl]. apply recover_key_step; auto.
Qed.
End recover.

(** A Stripe file as the server stores it: its geometry, one base needle per
    volume and the anchors it reports. *)
Record striped_file := mk_sf {
  sf_units : Z;               (* chunks per stripe unit *)
  sf_count : Z; sf_start : Z;
  sf_vids : list Z; sf_base : list Z;
  sf_refs : list chunk_ref
}.

Definition sf_n (f : striped_file) : Z := Z.of_nat (length (sf_vids f)).
Definition sf_slot (f : striped_file) (g : Z) : Z := slot_of (sf_n f) (sf_start f) (sf_units f) g.

(** The needle the server assigned to chunk [g]. *)
Definition sf_needle (f : striped_file) (g : Z) : Z :=
  u64 (base_at (sf_base f) (sf_slot f g) + vol_chunk (sf_n f) (sf_units f) g).

Definition striped_ok (f : striped_file) : Prop :=
  0 < sf_units f < 2 ^ 32 /\ is_u32 (sf_count f) /\ is_u32 (sf_start f) /\
  Forall is_u64 (sf_vids f) /\ 0 < sf_n f <= 256 /\ length (sf_base f) = length (sf_vids f) /\
  Forall is_u64 (sf_base f) /\ 0 < Z.of_nat (length (sf_refs f)) < 2 ^ 24 /\
  Forall (fun r => ref_ok r /\ cr_offset r / POWERFS_CHUNK_SIZE < 2 ^ 32 /\
                   cr_needle r = sf_needle f (cr_offset r / POWERFS_CHUNK_SIZE)) (sf_refs f).

Definition sf_message (f : striped_file) : buffer :=
  tlv_message (stripe_fields (sf_units f * POWERFS_CHUNK_SIZE) (sf_count f) (sf_start f) (sf_vids f) (sf_refs f)).

Definition sf_layout (f : striped_file) : powerfs_file_layout :=
  stripe_layout (sf_units f * POWERFS_CHUNK_SIZE) (sf_count f) (sf_start f) (sf_vids f) (sf_refs f).

Lemma parse_sf_message alloc f :
  (forall a, alloc a = true) -> striped_ok f ->
  fst (parse_file_layout alloc (powerfs_tlv_dec_init (sf_message f) (blen (sf_message f)))) = sf_layout f.
Proof.
  intros Hal (H1 & H2 & H3 & H4 & H5 & _ & _ & H8 & H9).
  apply parse_stripe_message; try done; [unfold is_u64, POWERFS_CHUNK_SIZE; lia|].
  eapply Forall_impl; [exact H9|]. by intros r [Hr _].
Qed.

Lemma sf_anchored f :
  striped_ok f -> Forall (anchored (sf_n f) (sf_start f) (sf_units f) (sf_base f)) (ref_map <$> sf_refs f).
Proof.
  intros (_ & _ & _ & _ & _ & _ & _ & _ & H9). apply Forall_fmap. eapply Forall_impl; [exact H9|].
  intros r (((H0 & _) & _) & Hlt & Hn). unfold anchored. cbn.
  assert (0 <= cr_offset r / POWERFS_CHUNK_SIZE) by (by apply Z.div_pos).
  rewrite u32_small by lia. done.
Qed.

(** The stripe fields of the inode once the server's layout is in. *)
Lemma apply_sf_layout alloc pi f :
  (forall a, alloc a = true) -> striped_ok f -> stale_layout pi (sf_layout f) = false ->
  preserve_arrays (pi_stripe pi) (sf_layout f) = false -> reliability pi <> POWERFS_RELIABILITY_EC ->
  let pi' := powerfs_apply_layout_to_inode alloc pi (sf_layout f) in
  placement pi' = POWERFS_PLACEMENT_STRIPE /\ layout_chunk_size pi' = POWERFS_CHUNK_SIZE /\
  pi_stripe pi' = mk_stripe (sf_units f * POWERFS_CHUNK_SIZE) (sf_count f) (sf_start f) (Some (sf_vids f)) (sf_n f)
    (Some (foldl (recover_key (sf_n f) (sf_start f) (sf_units f)) (replicate (Z.to_nat (sf_n f)) 0)
             (ref_map <$> sf_refs f))).
Proof.
  intros Hal (H1 & _ & _ & _ & H5 & _) Hst Hp Hr. unfold powerfs_apply_layout_to_inode. rewrite Hst.
  cbn [p_has l_placement sf_layout stripe_layout p_placement l_reliability r_has l_chunk_size].
  change (POWERFS_CHUNK_SIZE >? 0) with true. cbv iota.
  set (st := apply_stripe _ _ _). set (c := apply_replica _ _). set (pr := is_stripe _ && _).
  pose proof (apply_chunk_list_stripe alloc (reliability pi) POWERFS_PLACEMENT_STRIPE POWERFS_CHUNK_SIZE pr
    (l_ec_chunks (sf_layout f)) c st) as E.
  destruct (apply_chunk_list _ _ _ _ _ _ _ _) as [c' st']. cbn [snd] in E. subst st'.
  split_and!; [done|done|]. cbn [pi_stripe].
  rewrite (proj2 (Z.eqb_neq _ _) Hr). unfold pr, st, apply_stripe.
  change (stripe_layout _ _ _ _ _) with (sf_layout f).
  rewrite Hp. change (is_stripe POWERFS_PLACEMENT_STRIPE) with true. cbn [arr_has l_ec_chunks sf_layout stripe_layout andb negb arr].
  unfold apply_keys. cbn [stripe_size volume_ids_count start_volume_idx volume_ids stripe_count p_stripe_size
    p_stripe_count p_start_volume_idx l_placement l_volume_ids arr arr_count default sf_layout stripe_layout].
  fold (sf_n f).
  assert (Hnz : (sf_units f * POWERFS_CHUNK_SIZE =? 0) = false) by (apply Z.eqb_neq; unfold POWERFS_CHUNK_SIZE; lia).
  rewrite Hnz. change (POWERFS_CHUNK_SIZE =? 0) with false. cbv iota.
  rewrite Hnz, (Z.div_mul (sf_units f)) by done. change (POWERFS_CHUNK_SIZE =? 0) with false.
  cbn [orb]. rewrite !(proj2 (Z.gtb_lt _ 0)), Hal by lia. done.
Qed.

(** ** Theorems *)

(** The address of an offset depends on its chunk only. *)
Lemma locate_by_chunk (pi : layout_inode) (offset : Z) :
  layout_inv pi -> geometry pi -> 0 <= offset < 2 ^ 63 ->
  powerfs_locate_chunk pi offset = chunk_address pi (offset / chunk_size_of pi).
Proof.
  intros Hinv Hg Ho. pose proof (chunk_size_pos pi Hg) as Hc.
  destruct Hinv as (_ & _ & _ & _ & _ & Hcs & _).
  unfold powerfs_locate_chunk, chunk_address. case_if; [done|]. fold (chunk_size_of pi).
  rewrite Z.quot_div_nonneg by lia. set (g := offset / chunk_size_of pi).
  assert (Hgr : 0 <= g < 2 ^ 63) by (unfold g; split; [apply Z.div_pos; lia|apply Z.div_lt_upper_bound; nia]).
  rewrite u64_small by lia.
  assert (Hcomp : locate_computed pi (chunk_size_of pi) g offset =
    match volume_ids (pi_stripe pi) with
    | Some vids => if is_stripe (placement pi) && (volume_ids_count (pi_stripe pi) >? 0)
                   then stripe_address pi vids g else locate_flat pi g
    | None => locate_flat pi g
    end).
  { unfold locate_computed. destruct (volume_ids (pi_stripe pi)); [|done]. case_if; [|done].
    bool_to_prop. by apply locate_stripe_address. }
  rewrite Hcomp. unfold explicit_entry. destruct (is_stripe (placement pi)); cbn [negb].
  { destruct (chunks (pi_chunks pi)); [|done]. by rewrite andb_false_r. }
  destruct (chunks (pi_chunks pi)) as [cs|]; [|done]. cbn [mbind option_bind sized] in *. rewrite andb_true_r.
  case_if.
  - rewrite index_nonneg by lia. destruct (cs !! Z.to_nat g) as [cm|] eqn:E'; [cbn [mbind option_bind]; by case_if|].
    apply lookup_ge_None in E'. lia.
  - rewrite lookup_ge_None_2 by lia. done.
Qed.

Lemma locate_errno (pi : layout_inode) (offset e : Z) : powerfs_locate_chunk pi offset = LocErr e -> e < 0.
Proof.
  unfold powerfs_locate_chunk, locate_computed, locate_stripe, locate_flat. cbv zeta.
  intros H. repeat (case_match; simplify_eq; try done).
Qed.

(** C11. Refinement of the address computation: for a consistent inode whose
    stripe unit is a whole number of chunks, [powerfs_locate_chunk] maps an
    offset to the specified address of its chunk: the explicit map entry of a
    Flat file, the round-robin volume and needle of a Stripe file, base plus
    chunk number otherwise, and [-EINVAL] for Inline files and files without
    volume or key. *)
Theorem locate_refines_address (pi : layout_inode) (offset : Z) :
  layout_inv pi -> geometry pi -> 0 <= offset < 2 ^ 63 ->
  powerfs_locate_chunk pi offset = chunk_address pi (offset / chunk_size_of pi).
Proof. apply locate_by_chunk. Qed.

(** Striping is a bijection between chunks and needles: on a Stripe file
    with distinct volumes two offsets get the same address exactly when they
    lie in the same chunk, and the [j]-th needle of every volume is the address
    of a chunk. *)
Theorem stripe_chunks_disjoint (pi : layout_inode) (vids keys : list Z) :
  layout_inv pi -> geometry pi -> is_stripe (placement pi) = true ->
  volume_ids (pi_stripe pi) = Some vids -> stripe_needle_keys (pi_stripe pi) = Some keys ->
  vids <> [] -> NoDup vids -> Forall (fun k => 0 <= k < 2 ^ 63) keys ->
  let C := chunk_size_of pi in
  (forall o1 o2, 0 <= o1 < 2 ^ 63 -> 0 <= o2 < 2 ^ 63 ->
     powerfs_locate_chunk pi o1 = powerfs_locate_chunk pi o2 <-> o1 / C = o2 / C) /\
  (forall (i : nat) j vid key, vids !! i = Some vid -> keys !! i = Some key -> 0 <= j ->
     let g := chunk_at (volume_ids_count (pi_stripe pi)) (start_volume_idx (pi_stripe pi)) (units_of pi) (Z.of_nat i) j in
     0 <= g * C < 2 ^ 63 -> powerfs_locate_chunk pi (g * C) = At vid (u64 (key + j))).
Proof.
  intros Hinv Hg Hst Hv Hk Hne Hnd Hkeys C. pose proof (chunk_size_pos pi Hg) as Hc. fold C in Hc.
  pose proof (units_pos pi Hg) as Hu.
  pose proof Hinv as (_ & _ & _ & Iv & Ik & _). rewrite Hv, Hk in *. cbn [sized] in Iv, Ik.
  set (n := volume_ids_count (pi_stripe pi)) in *. set (start := start_volume_idx (pi_stripe pi)).
  assert (Hn : 0 < n) by (destruct vids; [done|]; cbn in Iv; lia).
  assert (Hloc : forall o, 0 <= o < 2 ^ 63 -> powerfs_locate_chunk pi o = stripe_address pi vids (o / C))
    by (intros o Ho; by apply locate_stripe_file).
  assert (Haddr : forall g, 0 <= g -> exists vid key,
    let i := slot_of n start (units_of pi) g in
    vids !! Z.to_nat i = Some vid /\ keys !! Z.to_nat i = Some key /\ 0 <= key < 2 ^ 63 /\
    stripe_address pi vids g = At vid (u64 (key + vol_chunk n (units_of pi) g))).
  { intros g Hg0. pose proof (slot_range n start (units_of pi) Hn g) as Hi.
    destruct (lookup_lt_is_Some_2 vids (Z.to_nat (slot_of n start (units_of pi) g))) as [vid Evid]; [lia|].
    destruct (lookup_lt_is_Some_2 keys (Z.to_nat (slot_of n start (units_of pi) g))) as [key Ekey]; [lia|].
    exists vid, key. split_and!; auto; [exact (proj1 (Forall_lookup_1 _ _ _ _ Hkeys Ekey))
      |exact (proj2 (Forall_lookup_1 _ _ _ _ Hkeys Ekey))|].
    unfold stripe_address. fold n start. by rewrite Hk, Ekey, Evid. }
  assert (Hdiv : forall o, 0 <= o < 2 ^ 63 -> 0 <= o / C < 2 ^ 63).
  { intros o Ho. split; [apply Z.div_pos; lia|apply Z.div_lt_upper_bound; nia]. }
  split.
  - intros o1 o2 H1 H2. rewrite !Hloc by done. split; [|by intros ->].
    pose proof (Hdiv o1 H1) as G1. pose proof (Hdiv o2 H2) as G2.
    destruct (Haddr (o1 / C)) as (v1 & k1 & E1 & F1 & R1 & ->); [lia|].
    destruct (Haddr (o2 / C)) as (v2 & k2 & E2 & F2 & R2 & ->); [lia|].
    intros [= <- Hneedle].
    pose proof (NoDup_lookup _ _ _ _ Hnd E1 E2) as Hs. rewrite Hs in F1. rewrite F1 in F2. injection F2 as <-.
    pose proof (slot_range n start (units_of pi) Hn (o1 / C)). pose proof (slot_range n start (units_of pi) Hn (o2 / C)).
    pose proof (vol_chunk_range n (units_of pi) Hn Hu (o1 / C) ltac:(lia)).
    pose proof (vol_chunk_range n (units_of pi) Hn Hu (o2 / C) ltac:(lia)).
    rewrite !u64_small in Hneedle by lia.
    rewrite <- (chunk_at_of n start (units_of pi) Hn Hu (o1 / C)), <- (chunk_at_of n start (units_of pi) Hn Hu (o2 / C)).
    f_equal; lia.
  - intros i j vid key Evid Ekey Hj g Hg63. rewrite Hloc, Z.div_mul by lia. unfold g. fold n start.
    assert (Hi : 0 <= Z.of_nat i < n) by (apply lookup_lt_Some in Evid; lia).
    unfold stripe_address. fold n start. rewrite slot_of_chunk_at, vol_chunk_chunk_at by done.
    by rewrite Nat2Z.id, Hk, Ekey, Evid.
Qed.

(** C12. The layout round trip of a Stripe file: after the server's message is
    parsed and applied, every offset whose volume carries an anchor is mapped
    to the volume and the needle the server assigned to its chunk, for any
    anchors and not only the first chunk of a unit. *)
Theorem stripe_anchors_recovered (alloc : layout_alloc -> bool) (pi : layout_inode) (f : striped_file) :
  (forall a, alloc a = true) -> striped_ok f ->
  let l := fst (parse_file_layout alloc (powerfs_tlv_dec_init (sf_message f) (blen (sf_message f)))) in
  stale_layout pi l = false -> preserve_arrays (pi_stripe pi) l = false ->
  reliability pi <> POWERFS_RELIABILITY_EC ->
  forall r o, r ∈ sf_refs f -> 0 <= o < 2 ^ 63 ->
    let g := o / POWERFS_CHUNK_SIZE in
    sf_slot f g = sf_slot f (cr_offset r / POWERFS_CHUNK_SIZE) ->
    exists vid, sf_vids f !! Z.to_nat (sf_slot f g) = Some vid /\
      powerfs_locate_chunk (powerfs_apply_layout_to_inode alloc pi l) o = At vid (sf_needle f g).
Proof.
  intros Hal Hf l Hst Hp Hr r o Hin Ho g Hslot. unfold l in *. rewrite parse_sf_message in * by done.
  destruct (apply_sf_layout alloc pi f Hal Hf Hst Hp Hr) as (P1 & P2 & P3).
  set (pi' := powerfs_apply_layout_to_inode alloc pi (sf_layout f)) in *. pose proof (sf_anchored f Hf) as Ha.
  destruct Hf as (H1 & H2 & H3 & H4 & H5 & H6 & H7 & H8 & H9).
  assert (Hc : chunk_size_of pi' = POWERFS_CHUNK_SIZE) by (unfold chunk_size_of; rewrite P2; done).
  assert (Hg : geometry pi').
  { unfold geometry. rewrite P2, P3, Hc. cbn. unfold is_u32, POWERFS_CHUNK_SIZE in *.
    split_and!; try lia. by exists (sf_units f). }
  assert (Hu : units_of pi' = sf_units f).
  { unfold units_of. rewrite P3, Hc. cbn [stripe_size].
    rewrite (proj2 (Z.eqb_neq (sf_units f * _) 0)) by (unfold POWERFS_CHUNK_SIZE; lia). by apply Z.div_mul. }
  rewrite (locate_stripe_file pi' (sf_vids f) o Hg); [|by rewrite P1|by rewrite P3|rewrite P3; cbn; lia|done].
  rewrite Hc. fold g. unfold stripe_address. rewrite P3, Hu. cbn [volume_ids_count start_volume_idx stripe_needle_keys].
  fold (sf_slot f g).
  destruct (recover_keys (sf_n f) (sf_start f) (sf_units f) (sf_base f) ltac:(lia) ltac:(lia) ltac:(done)
    H7 (ref_map <$> sf_refs f) Ha) as (_ & _ & K).
  specialize (K (ref_map r) ltac:(by apply list_elem_of_fmap_2)). cbn [ref_map cm_chunk_idx] in K. cbv zeta in K.
  assert (Hgr : 0 <= cr_offset r / POWERFS_CHUNK_SIZE < 2 ^ 32).
  { rewrite Forall_forall in H9. destruct (H9 r Hin) as (((R0 & _) & _) & R1 & _). split; [by apply Z.div_pos|done]. }
  rewrite u32_small in K by lia. fold (sf_slot f (cr_offset r / POWERFS_CHUNK_SIZE)) in K. rewrite <- Hslot in K.
  rewrite K. pose proof (slot_range (sf_n f) (sf_start f) (sf_units f) ltac:(lia) g) as Hsr. fold (sf_slot f g) in Hsr.
  destruct (lookup_lt_is_Some_2 (sf_vids f) (Z.to_nat (sf_slot f g))) as [vid ->]; [unfold sf_n in *; lia|].
  exists vid. split; [done|]. unfold sf_needle. done.
Qed.

(** C13. Whatever bytes the server sends, applying the parsed layout keeps the
    inode's inline data, volume list and chunk lists consistent with their
    counts and with the placement; only the base needles of the stripes can get
    out of step, so an address computation that leaves its arrays means that
    their number is not that of the volumes.  They stay in step, and every
    later address computation inside its arrays, when [keys_follow]: the inode
    had no base needles, or the number of volumes is unchanged, or the layout
    brings all it takes to rebuild them.  (Otherwise an address can lie behind
    their end: [stale_keys_out_of_bounds].)  A stale layout changes nothing. *)
Theorem apply_layout_invariant (alloc : layout_alloc -> bool) (pi : layout_inode) (d : tlv_dec) :
  arrays_inv pi -> dec_wf d ->
  let l := fst (parse_file_layout alloc d) in
  let pi' := powerfs_apply_layout_to_inode alloc pi l in
  (stale_layout pi l = true -> pi' = pi) /\ arrays_inv pi' /\
  (forall offset, powerfs_locate_chunk pi' offset = OutOfBounds -> ~ keys_fit pi') /\
  (keys_fit pi -> keys_follow alloc pi l ->
     layout_inv pi' /\ forall offset, powerfs_locate_chunk pi' offset <> OutOfBounds).
Proof.
  intros Hi Hd l pi'. pose proof (parse_file_layout_ok alloc d Hd) as Hl.
  pose proof (apply_layout_keeps_arrays alloc pi l Hi Hl) as Hi'. fold pi' in Hi'.
  assert (Hin : keys_fit pi' -> forall offset, powerfs_locate_chunk pi' offset <> OutOfBounds)
    by (intros Hk offset; by apply locate_in_bounds, layout_inv_split).
  split_and!; [|done|intros offset Ho Hk; by apply (Hin Hk offset)|].
  - intros Hs. unfold pi', powerfs_apply_layout_to_inode. by rewrite Hs.
  - intros Hk Hf. assert (H : layout_inv pi') by (apply apply_layout_keeps_inv; [by apply layout_inv_split|done|done]).
    split; [done|]. apply Hin. by apply layout_inv_split in H as [_ H].
Qed.

(** A defect: a Stripe layout with more volumes than the inode had, that
    brings no chunk list or meets a failed [kcalloc], leaves the old base
    needles next to the new volumes; some offset then reads past their end.
    (The code expects to fall back to [file_key] there.) *)
Theorem stale_keys_out_of_bounds (alloc : layout_alloc -> bool) (pi : layout_inode) (l : powerfs_file_layout)
    (vids keys : list Z) :
  stale_layout pi l = false -> p_has (l_placement l) = true -> is_stripe (p_placement (l_placement l)) = true ->
  arr (l_volume_ids l) = Some vids -> arr_count (l_volume_ids l) = Z.of_nat (length vids) ->
  stripe_needle_keys (pi_stripe pi) = Some keys -> volume_ids_count (pi_stripe pi) = Z.of_nat (length keys) ->
  (length keys < length vids)%nat -> arr_has (l_ec_chunks l) = false \/ alloc A_keys = false ->
  let pi' := powerfs_apply_layout_to_inode alloc pi l in
  geometry pi' -> Z.of_nat (length vids) * units_of pi' * chunk_size_of pi' < 2 ^ 63 ->
  exists offset, 0 <= offset < 2 ^ 63 /\ powerfs_locate_chunk pi' offset = OutOfBounds.
Proof.
  intros Hst Hp His Hv Hvc Hk Hkc Hlt Hno pi' Hg Hsz.
  assert (Hpr : preserve_arrays (pi_stripe pi) l = false).
  { unfold preserve_arrays. rewrite Hvc, Hkc. destruct (Z.gtb_spec (Z.of_nat (length keys)) (Z.of_nat (length vids))); [lia|].
    by rewrite andb_false_r. }
  assert (P : placement pi' = p_placement (l_placement l) /\
              volume_ids (pi_stripe pi') = Some vids /\ volume_ids_count (pi_stripe pi') = Z.of_nat (length vids) /\
              stripe_needle_keys (pi_stripe pi') = Some keys).
  { unfold pi', powerfs_apply_layout_to_inode. rewrite Hst, Hp.
    match goal with |- context [apply_chunk_list ?a ?b ?c ?d ?e ?f ?g ?h] =>
      pose proof (apply_chunk_list_stripe a b c d e f g h) as E; destruct (apply_chunk_list a b c d e f g h) end.
    cbn [placement pi_stripe snd] in *. subst.
    match goal with |- context [if ?b then apply_keys _ _ ?st _ _ else _] => set (s := st);
      assert (Es : (if b then apply_keys alloc (if l_chunk_size l >? 0 then l_chunk_size l else layout_chunk_size pi) s
        (is_stripe (p_placement (l_placement l)) && preserve_arrays (pi_stripe pi) l) (default [] (arr (l_ec_chunks l))) else s) = s) end.
    { destruct Hno as [-> | Hal]; [done|]. unfold apply_keys. rewrite Hal, andb_false_r. by case_if. }
    rewrite Es. unfold s, apply_stripe. rewrite His, Hpr. cbn. by rewrite Hv, Hvc, Hk. }
  destruct P as (P1 & P2 & P3 & P4).
  pose proof (units_pos pi' Hg) as Hu. pose proof (chunk_size_pos pi' Hg) as Hc.
  set (n := Z.of_nat (length vids)) in *. set (start := start_volume_idx (pi_stripe pi')).
  set (g := chunk_at n start (units_of pi') (Z.of_nat (length keys)) 0).
  assert (Hgr : 0 <= g < n * units_of pi').
  { unfold g, chunk_at. rewrite Z.div_0_l, Z.mod_0_l by lia.
    pose proof (Z.mod_pos_bound (Z.of_nat (length keys) - start) n ltac:(lia)). nia. }
  exists (g * chunk_size_of pi'). assert (0 <= g * chunk_size_of pi' < 2 ^ 63) by nia. split; [done|].
  rewrite (locate_stripe_file pi' vids _ Hg); [|by rewrite P1|done|rewrite P3; lia|done].
  rewrite Z.div_mul by lia. unfold stripe_address. rewrite P3, P4. fold start. unfold g.
  rewrite slot_of_chunk_at by lia. by rewrite Nat2Z.id, (lookup_ge_None_2 keys (length keys)).
Qed.

(** ** A concrete file: two volumes, two chunks per unit, volume slot 1 first *)

Module Sample.

Definition refs : list chunk_ref :=
  [mk_ref 0 POWERFS_CHUNK_SIZE 200 9 0 0; mk_ref (3 * POWERFS_CHUNK_SIZE) POWERFS_CHUNK_SIZE 101 7 0 0].

Definition file : striped_file := mk_sf 2 2 1 [7; 9] [100; 200] refs.

Definition fresh : layout_inode :=
  mk_linode POWERFS_PLACEMENT_FLAT 0 0 0 0 0 (mk_inline None 0 false 0) (mk_stripe 0 0 0 None 0 None)
    (mk_chunks None 0 None 0 None 0 0 0).

Definition dec : tlv_dec := powerfs_tlv_dec_init (sf_message file) (blen (sf_message file)).

Definition striped : layout_inode :=
  powerfs_apply_layout_to_inode (fun _ => true) fresh (fst (parse_file_layout (fun _ => true) dec)).

(** The same file with a third volume and no chunk list. *)
Definition grown : powerfs_file_layout :=
  mk_layout (mk_pinfo POWERFS_PLACEMENT_STRIPE true 0 (2 * POWERFS_CHUNK_SIZE) 3 1) (mk_rinfo 0 false 0 0) 0 0
    no_array 0 (mk_arr (Some [7; 9; 11]) 3 false) no_array no_array.

Lemma file_ok : striped_ok file.
Proof.
  unfold striped_ok. cbn [file sf_units sf_count sf_start sf_vids sf_base sf_refs]. unfold is_u32, is_u64, sf_n.
  split_and!; try (cbn; lia); try (repeat constructor; cbn; lia).
  unfold refs. constructor; [|constructor; [|constructor]];
    (split; [vm_compute; intuition discriminate|split; vm_compute; reflexivity]).
Qed.

Lemma fresh_inv : layout_inv fresh.
Proof. unfold layout_inv. cbn. split_and!; try done. Qed.

Lemma striped_inv : layout_inv striped.
Proof.
  apply apply_layout_keeps_inv; [apply fresh_inv|apply parse_file_layout_ok|by left].
  apply dec_init_wf; [|vm_compute; reflexivity]. unfold bytes_ok. vm_compute. repeat constructor; discriminate.
Qed.

Lemma striped_geometry : geometry striped.
Proof. unfold geometry. vm_compute. split_and!; try done; try (split; [discriminate|done]). exists 2. reflexivity. Qed.
End Sample.

Import Sample.

Lemma locate_refines_address_witness :
  powerfs_locate_chunk striped (5 * POWERFS_CHUNK_SIZE + 17) = chunk_address striped 5 /\
  chunk_address striped 5 = At 9 203.
Proof.
  split; [|vm_compute; reflexivity].
  refine (locate_refines_address striped (5 * POWERFS_CHUNK_SIZE + 17) striped_inv striped_geometry _).
  vm_compute. split; [discriminate|reflexivity].
Defined.

Lemma stripe_chunks_disjoint_witness :
  powerfs_locate_chunk striped 0 = powerfs_locate_chunk striped 5 <->
  0 / chunk_size_of striped = 5 / chunk_size_of striped.
Proof.
  refine (proj1 (stripe_chunks_disjoint striped [7; 9] [100; 200] striped_inv striped_geometry _ _ _ _ _ _) 0 5 _ _).
  - vm_compute; reflexivity.
  - vm_compute; reflexivity.
  - vm_compute; reflexivity.
  - discriminate.
  - apply (bool_decide_unpack _); exact I.
  - repeat constructor; lia.
  - lia.
  - lia.
Defined.

Lemma stripe_anchors_recovered_witness :
  exists vid, sf_vids file !! Z.to_nat (sf_slot file 6) = Some vid /\
    powerfs_locate_chunk striped (6 * POWERFS_CHUNK_SIZE) = At vid (sf_needle file 6).
Proof.
  refine (stripe_anchors_recovered (fun _ => true) fresh file _ file_ok _ _ _
    (mk_ref (3 * POWERFS_CHUNK_SIZE) POWERFS_CHUNK_SIZE 101 7 0 0) (6 * POWERFS_CHUNK_SIZE) _ _ _).
  - done.
  - vm_compute; reflexivity.
  - vm_compute; reflexivity.
  - discriminate.
  - unfold file, refs. cbn [sf_refs]. set_solver.
  - vm_compute. split; [discriminate|reflexivity].
  - vm_compute; reflexivity.
Defined.

Lemma apply_layout_invariant_witness :
  layout_inv striped /\ (forall offset, powerfs_locate_chunk striped offset <> OutOfBounds).
Proof.
  refine (proj2 (proj2 (proj2 (apply_layout_invariant (fun _ => true) fresh dec _ _))) _ _).
  - exact (proj1 (proj1 (layout_inv_split fresh) fresh_inv)).
  - apply dec_init_wf; [unfold bytes_ok|]; vm_compute; [repeat constructor; discriminate|reflexivity].
  - exact (proj2 (proj1 (layout_inv_split fresh) fresh_inv)).
  - left. reflexivity.
Defined.

Lemma stale_keys_out_of_bounds_witness :
  exists offset, 0 <= offset < 2 ^ 63 /\
    powerfs_locate_chunk (powerfs_apply_layout_to_inode (fun _ => true) striped grown) offset = OutOfBounds.
Proof.
  refine (stale_keys_out_of_bounds (fun _ => true) striped grown [7; 9; 11] [100; 200] _ _ _ _ _ _ _ _ _ _ _).
  - vm_compute; reflexivity.
  - reflexivity.
  - reflexivity.
  - reflexivity.
  - reflexivity.
  - vm_compute; reflexivity.
  - vm_compute; reflexivity.
  - cbn. lia.
  - left. reflexivity.
  - unfold geometry. vm_compute. split_and!; try done; try (split; [discriminate|done]). exists 2. reflexivity.
  - vm_compute; reflexivity.
Defined.

(** With a stripe unit that is not a whole number of chunks two chunks of a
    file share a needle: nothing on the client checks the divisibility that
    [stripe_chunks_disjoint] needs. *)
Example unaligned_stripe_collides :
  let pi := mk_linode POWERFS_PLACEMENT_STRIPE 0 0 2 0 0 (mk_inline None 0 false 0)
              (mk_stripe 3 1 0 (Some [7]) 1 (Some [100])) (mk_chunks None 0 None 0 None 0 0 0) in
  powerfs_locate_chunk pi 2 = powerfs_locate_chunk pi 4.
Proof. reflexivity. Qed.

(** The parser numbers a chunk reference by [POWERFS_CHUNK_SIZE] whatever
    chunk size the same message announces; the base needle recovered for a
    file of 2 MiB chunks is then wrong. *)
Example chunk_idx_ignores_chunk_size :
  let C := 2 * POWERFS_CHUNK_SIZE in
  let s := mk_stripe (2 * C) 1 0 (Some [7]) 1 None in
  let anchor := ref_map (mk_ref (3 * C) C 103 7 0 0) in
  stripe_needle_keys (apply_keys (fun _ => true) C s false [anchor]) = Some [97] /\
  stripe_needle_keys (apply_keys (fun _ => true) C s false [mk_cm 3 103 7 0 C]) = Some [100].
Proof. vm_compute. split; reflexivity. Qed.
