(* ===== verification/Prog.v ===== *)
(** * Prog: programs of critical sections and outside calls

    Code that runs under a spinlock and drops it around every call that may
    sleep is a program over a shared state [S]: critical sections ([Crit]) and
    outside calls ([Ext]) with answers of type [ans x].  A program runs alone
    with interference ([runs], giving the trace of its calls), by evaluation
    ([exec]), or in a pool of programs in every interleaving ([pool_step]).
    Used by [Caps] and [Submit]. *)

From S2P Require Import Prelude.

(** [Crit f k] is one critical section: the state it leaves and what comes
    next, both from the state it found; the first argument tells whether an
    atomic allocation made inside succeeds. *)
Inductive prog (S : Type) {X : Type} (ans : X -> Type) (A : Type) : Type :=
| Ret (a : A)
| Crit (f : bool -> S -> S) (k : bool -> S -> prog S ans A)
| Ext (x : X) (k : ans x -> prog S ans A).
Arguments Ret {S X ans A} a.
Arguments Crit {S X ans A} f k.
Arguments Ext {S X ans A} x k.

(** A call with its answer. *)
Record event {X : Type} (ans : X -> Type) := Ev { ev_call : X; ev_ans : ans ev_call }.
Arguments Ev {X ans} ev_call ev_ans.
Arguments ev_call {X ans} e.
Arguments ev_ans {X ans} e.

#[global] Instance prog_bind S {X} (ans : X -> Type) : MBind (prog S ans) :=
  fix go A B (f : A -> prog S ans B) (p : prog S ans A) : prog S ans B :=
    match p with
    | Ret a => f a
    | Crit c k => Crit c (fun b s => go A B f (k b s))
    | Ext x k => Ext x (fun a => go A B f (k a))
    end.

Section programs.
Context {S X : Type} {ans : X -> Type}.
#[local] Abbreviation cprog := (prog S ans).
#[local] Abbreviation event := (event ans).

(** A section written as one function, with and without allocation. *)
Definition section_alloc {A} (g : bool -> S -> S * cprog A) : cprog A :=
  Crit (fun b s => fst (g b s)) (fun b s => snd (g b s)).
Definition section {A} (g : S -> S * cprog A) : cprog A := section_alloc (fun _ => g).

Definition call (x : X) : cprog (ans x) := Ext x Ret.
Definition when_ (b : bool) (p : cprog unit) : cprog unit := if b then p else Ret tt.

(** Sections that only update, or only read. *)
Definition locked (f : S -> S) : cprog unit := section (fun s => (f s, Ret tt)).
Definition peek {A} (f : S -> A) : cprog A := section (fun s => (s, Ret (f s))).

(** ** Running one program *)

(** [runs R p s tr a s']: from [s] the program may return [a] in [s'] after
    the outside calls [tr]; [R] is what other threads may do to the state
    before a critical section is entered. *)
Fixpoint runs (R : S -> S -> Prop) {A} (p : cprog A) (s : S) (tr : list event) (a : A) (s' : S)
  : Prop :=
  match p with
  | Ret x => tr = [] /\ a = x /\ s' = s
  | Crit f k => exists b s0, R s s0 /\ runs R (k b s0) (f b s0) tr a s'
  | Ext x k => exists v tr', tr = Ev x v :: tr' /\ runs R (k v) s tr' a s'
  end.

(** Every program has a run: nothing below is vacuous. *)
Lemma runs_total {Hinh : forall x, Inhabited (ans x)} (R : S -> S -> Prop) {A} (p : cprog A) s :
  (forall s, R s s) -> exists tr a s', runs R p s tr a s'.
Proof.
  intros HR. revert s. induction p as [a|f k IH|x k IH]; intros s; cbn.
  - by exists [], a, s.
  - destruct (IH true s (f true s)) as (tr & a & s' & H). exists tr, a, s', true, s. done.
  - destruct (IH (@inhabitant _ (Hinh x)) s) as (tr & a & s' & H). eexists _, a, s', (@inhabitant _ (Hinh x)), tr. done.
Qed.

Lemma runs_bind R {A B} (p : cprog A) (f : A -> cprog B) s tr b s' :
  runs R (p ≫= f) s tr b s' <->
  exists tr1 tr2 a s1, tr = tr1 ++ tr2 /\ runs R p s tr1 a s1 /\ runs R (f a) s1 tr2 b s'.
Proof.
  revert s tr. induction p as [a|c k IH|x k IH]; intros s tr; cbn.
  - split; [by intros H; exists [], tr, a, s|]. by intros (? & ? & ? & ? & -> & (-> & -> & ->) & H).
  - setoid_rewrite IH. split.
    + intros (b0 & s0 & HR & tr1 & tr2 & a & s1 & -> & H1 & H2). exists tr1, tr2, a, s1. eauto 6.
    + intros (tr1 & tr2 & a & s1 & -> & (b0 & s0 & HR & H1) & H2). exists b0, s0. eauto 10.
  - setoid_rewrite IH. split.
    + intros (v & tr' & -> & tr1 & tr2 & a & s1 & -> & H1 & H2).
      exists (Ev x v :: tr1), tr2, a, s1. split_and!; [done| |done]. by exists v, tr1.
    + intros (tr1 & tr2 & a & s1 & -> & (v & tr' & -> & H1) & H2).
      exists v, (tr' ++ tr2). split; [done|]. by exists tr', tr2, a, s1.
Qed.

Lemma runs_ret R {A} (x a : A) s tr s' : runs R (Ret x) s tr a s' -> tr = [] /\ a = x /\ s' = s.
Proof. done. Qed.
Lemma runs_call R x s tr a s' : runs R (call x) s tr a s' -> tr = [Ev x a] /\ s' = s.
Proof. intros (v & tr' & -> & -> & -> & ->). done. Qed.
Lemma runs_locked R f s tr a s' : runs R (locked f) s tr a s' -> exists s0, R s s0 /\ tr = [] /\ s' = f s0.
Proof. intros (b & s0 & HR & -> & -> & ->). by exists s0. Qed.
Lemma runs_peek R {A} (f : S -> A) s tr a s' :
  runs R (peek f) s tr a s' -> exists s0, R s s0 /\ tr = [] /\ s' = s0 /\ a = f s0.
Proof. intros (b & s0 & HR & -> & -> & ->). by exists s0. Qed.
Lemma runs_section R {A} (g : S -> S * cprog A) s tr a s' :
  runs R (section g) s tr a s' -> exists s0, R s s0 /\ runs R (snd (g s0)) (fst (g s0)) tr a s'.
Proof. intros (b & s0 & HR & H). by exists s0. Qed.
Lemma runs_section_alloc R {A} (g : bool -> S -> S * cprog A) s tr a s' :
  runs R (section_alloc g) s tr a s' -> exists b s0, R s s0 /\ runs R (snd (g b s0)) (fst (g b s0)) tr a s'.
Proof. intros (b & s0 & HR & H). by exists b, s0. Qed.

Lemma runs_call_bind R {B} x (f : ans x -> cprog B) s tr b s' :
  runs R (call x ≫= f) s tr b s' -> exists v tr', tr = Ev x v :: tr' /\ runs R (f v) s tr' b s'.
Proof. done. Qed.
Lemma runs_peek_bind R {A B} (g : S -> A) (f : A -> cprog B) s tr b s' :
  runs R (peek g ≫= f) s tr b s' -> exists s0, R s s0 /\ runs R (f (g s0)) s0 tr b s'.
Proof. intros (c & s0 & HR & H). by exists s0. Qed.
Lemma runs_locked_bind R {B} (g : S -> S) (f : unit -> cprog B) s tr b s' :
  runs R (locked g ≫= f) s tr b s' -> exists s0, R s s0 /\ runs R (f tt) (g s0) tr b s'.
Proof. intros (c & s0 & HR & H). by exists s0. Qed.

(** ** Guarantees of every section *)

(** Every critical section of the program, whatever was answered before it,
    relates its states by [G]. *)
Fixpoint obeys (G : S -> S -> Prop) {A} (p : cprog A) : Prop :=
  match p with
  | Ret _ => True
  | Crit f k => forall b s, G s (f b s) /\ obeys G (k b s)
  | Ext x k => forall v, obeys G (k v)
  end.

Lemma obeys_bind G {A B} (p : cprog A) (f : A -> cprog B) :
  obeys G p -> (forall a, obeys G (f a)) -> obeys G (p ≫= f).
Proof.
  intros Hp Hf. induction p as [a|c k IH|x k IH]; cbn in *; [auto| |auto].
  intros b s. destruct (Hp b s) as [H1 H2]. auto.
Qed.

Lemma obeys_mono (G G' : S -> S -> Prop) {A} (p : cprog A) :
  (forall s s', G s s' -> G' s s') -> obeys G p -> obeys G' p.
Proof.
  intros HG. induction p as [a|c k IH|x k IH]; cbn; [done| |auto].
  intros H b s. destruct (H b s) as [H1 H2]. auto.
Qed.

Lemma obeys_section_alloc G {A} (g : bool -> S -> S * cprog A) :
  (forall b s, G s (fst (g b s)) /\ obeys G (snd (g b s))) -> obeys G (section_alloc g).
Proof. auto. Qed.
Lemma obeys_section G {A} (g : S -> S * cprog A) :
  (forall s, G s (fst (g s)) /\ obeys G (snd (g s))) -> obeys G (section g).
Proof. intros H b s. apply H. Qed.
Lemma obeys_locked G f : (forall s, G s (f s)) -> obeys G (locked f).
Proof. intros H b s. by split. Qed.
Lemma obeys_peek (G : S -> S -> Prop) {A} (f : S -> A) : (forall s, G s s) -> obeys G (peek f).
Proof. intros H b s. by split. Qed.
Lemma obeys_call G x : obeys G (call x).
Proof. by intros v. Qed.
Lemma obeys_when G b p : obeys G p -> obeys G (when_ b p).
Proof. by destruct b. Qed.

Lemma runs_mono (R R' : S -> S -> Prop) {A} (p : cprog A) s tr a s' :
  (forall s s', R s s' -> R' s s') -> runs R p s tr a s' -> runs R' p s tr a s'.
Proof.
  intros HR. revert s tr. induction p as [x|f k IH|x k IH]; intros s tr; cbn; [done| |].
  - intros (b & s0 & H1 & H2). exists b, s0. auto.
  - intros (v & tr' & -> & H). exists v, tr'. auto.
Qed.

Lemma runs_obeys (R G : S -> S -> Prop) {A} (p : cprog A) s tr a s' :
  (forall s s', R s s' -> G s s') -> (forall s, G s s) -> (forall s1 s2 s3, G s1 s2 -> G s2 s3 -> G s1 s3) ->
  obeys G p -> runs R p s tr a s' -> G s s'.
Proof.
  intros HR Hr Ht. revert s tr. induction p as [x|f k IH|x k IH]; intros s tr Hp; cbn.
  - intros (_ & _ & ->). apply Hr.
  - intros (b & s0 & H1 & H2). destruct (Hp b s0) as [H3 H4]. eapply Ht; [by apply HR|]. eapply Ht; [exact H3|]. eauto.
  - intros (v & tr' & -> & H). eapply IH; [apply Hp|exact H].
Qed.

(** ** Which calls a program makes *)

Fixpoint only (P : X -> Prop) {A} (p : cprog A) : Prop :=
  match p with
  | Ret _ => True
  | Crit f k => forall b s, only P (k b s)
  | Ext x k => P x /\ forall v, only P (k v)
  end.

Lemma only_bind P {A B} (p : cprog A) (f : A -> cprog B) : only P p -> (forall a, only P (f a)) -> only P (p ≫= f).
Proof.
  intros Hp Hf. induction p as [a|c k IH|x k IH]; cbn in *; [auto|auto|]. destruct Hp as [H1 H2]. split; auto.
Qed.

Lemma runs_only P R {A} (p : cprog A) s tr a s' : only P p -> runs R p s tr a s' -> Forall (fun e => P (ev_call e)) tr.
Proof.
  revert s tr. induction p as [x|f k IH|x k IH]; intros s tr Hp; cbn.
  - intros (-> & _ & _). constructor.
  - intros (b & s0 & _ & H). eapply IH; [apply Hp|exact H].
  - destruct Hp as [H1 H2]. intros (v & tr' & -> & H). constructor; [done|]. eapply IH; [apply H2|exact H].
Qed.

(** Every value the program may return satisfies [Q]. *)
Fixpoint ensures {A} (Q : A -> Prop) (p : cprog A) : Prop :=
  match p with
  | Ret a => Q a
  | Crit f k => forall b s, ensures Q (k b s)
  | Ext x k => forall v, ensures Q (k v)
  end.

Lemma ensures_bind {A B} (Q : B -> Prop) (p : cprog A) (f : A -> cprog B) :
  (forall a, ensures Q (f a)) -> ensures Q (p ≫= f).
Proof. intros Hf. induction p as [a|c k IH|x k IH]; cbn; auto. Qed.

Lemma runs_ensures {A} (Q : A -> Prop) R (p : cprog A) s tr a s' : ensures Q p -> runs R p s tr a s' -> Q a.
Proof.
  revert s tr. induction p as [x|f k IH|x k IH]; intros s tr Hp; cbn.
  - by intros (_ & -> & _).
  - intros (b & s0 & _ & H). eapply IH; [apply Hp|exact H].
  - intros (v & tr' & -> & H). eapply IH; [apply Hp|exact H].
Qed.

(** ** Evaluation *)

(** The run in which the outside calls answer [o] and nothing interferes. *)
Fixpoint exec (o : forall x, ans x) {A} (p : cprog A) (s : S) : list event * A * S :=
  match p with
  | Ret a => ([], a, s)
  | Crit f k => exec o (k true s) (f true s)
  | Ext x k => let '(tr, a, s') := exec o (k (o x)) s in (Ev x (o x) :: tr, a, s')
  end.

Lemma exec_runs_on (P : S -> Prop) (R : S -> S -> Prop) o {A} (p : cprog A) s :
  (forall s, P s -> R s s) -> obeys (fun s s' => P s -> P s') p -> P s ->
  runs R p s (exec o p s).1.1 (exec o p s).1.2 (exec o p s).2.
Proof.
  intros HR. revert s. induction p as [a|f k IH|x k IH]; intros s Hp Hs; cbn [exec runs].
  - done.
  - exists true, s. destruct (Hp true s) as [H1 H2]. split; [auto|]. apply IH; auto.
  - specialize (IH (o x) s (Hp (o x)) Hs). destruct (exec o (k (o x)) s) as [[tr a] s']. cbn in *. eauto.
Qed.

Lemma exec_runs (R : S -> S -> Prop) o {A} (p : cprog A) s :
  (forall s, R s s) -> runs R p s (exec o p s).1.1 (exec o p s).1.2 (exec o p s).2.
Proof.
  intros HR. apply (exec_runs_on (fun _ => True)); [auto| |done].
  clear s. induction p as [a|f k IH|x k IH]; cbn; auto.
Qed.

(** ** Interleavings *)

(** A pool of programs: any program that satisfies [start] is started at any
    time, the rest of the system changes the state by [outside], and outside
    calls may answer anything. *)
Inductive pool_step (outside : S -> S -> Prop) (start : cprog unit -> Prop) :
    S * list (cprog unit) -> S * list (cprog unit) -> Prop :=
| ps_crit s ths t f k b :
    ths !! t = Some (Crit f k) -> pool_step outside start (s, ths) (f b s, <[t := k b s]> ths)
| ps_ext s ths t x k v :
    ths !! t = Some (Ext x k) -> pool_step outside start (s, ths) (s, <[t := k v]> ths)
| ps_outside s s' ths : outside s s' -> pool_step outside start (s, ths) (s', ths)
| ps_call s ths p : start p -> pool_step outside start (s, ths) (s, ths ++ [p]).

(** The guarantee of every operation holds along every interleaving. *)
Lemma pool_obeys (G : S -> S -> Prop) outside start s0 st :
  (forall p, start p -> obeys G p) -> (forall s, G s s) ->
  (forall s1 s2 s3, G s1 s2 -> G s2 s3 -> G s1 s3) -> (forall s s', outside s s' -> G s s') ->
  rtc (pool_step outside start) (s0, []) st -> G s0 (fst st) /\ Forall (obeys G) (snd st).
Proof.
  intros Ho Hr Ht Hout. revert st. apply rtc_ind_r; [by split; [apply Hr|constructor]|].
  - intros st st' _ Hst IH. destruct IH as [IH1 IH2]. inversion Hst as [s ths t f k b Hth|s ths t x k v Hth|s s' ths Hs|s ths p Ha]; subst; cbn in *.
    + destruct (Forall_lookup_1 _ _ _ _ IH2 Hth b s) as [H1 H2]. split; [eauto|by apply Forall_insert].
    + split; [done|]. apply Forall_insert; [done|]. exact (Forall_lookup_1 _ _ _ _ IH2 Hth v).
    + split; [eauto|done].
    + split; [done|]. apply Forall_app. split; [done|]. constructor; auto.
Qed.
End programs.

Ltac case_run H := match type of H with
  | runs _ (if ?b then _ else _) _ _ _ _ => let E := fresh "E" in destruct b eqn:E; bool_to_prop
  | runs _ (match ?x with _ => _ end) _ _ _ _ => let E := fresh "E" in destruct x eqn:E
  end.
