(* ===== verification/Caps.v ===== *)
(** * Caps: capabilities of an inode

    Models [src/powerfs_mod/powerfs_caps.c]: the capability objects of an
    inode (bits issued by the filer and bits still implemented locally), the
    bits wanted and used, reference counts, grant, recall, flush of dirty
    bits, the blocking [powerfs_get_caps], renewal, upgrade of optimistic
    creates, and the two walks over the LRU of capabilities.

    The code runs under the spinlock [i_lock] and drops it around every call
    that may sleep, so an operation is a program ([cprog]) of critical
    sections ([Crit]) and outside calls ([Ext]): RPCs, page-cache operations,
    allocations, sleeps.  Between two of them other threads may run.  A
    capability is identified by its [issuer_id], the key of its tree; the
    tree is the list of its nodes in order.  Theorems are in [CapsProof]. *)

From S2P Require Import Prelude Tlv NetLease Layout Prog.

(** ** Capability bits *)

Definition POWERFS_CAP_PIN : Z := Z.shiftl 1 0.
Definition POWERFS_CAP_AUTH_SHARED : Z := Z.shiftl 1 1.
Definition POWERFS_CAP_AUTH_EXCL : Z := Z.shiftl 1 2.
Definition POWERFS_CAP_LINK_SHARED : Z := Z.shiftl 1 3.
Definition POWERFS_CAP_XATTR_SHARED : Z := Z.shiftl 1 4.
Definition POWERFS_CAP_XATTR_EXCL : Z := Z.shiftl 1 5.
Definition POWERFS_CAP_FILE_SHARED : Z := Z.shiftl 1 6.
Definition POWERFS_CAP_FILE_CACHE : Z := Z.shiftl 1 7.
Definition POWERFS_CAP_FILE_WR : Z := Z.shiftl 1 8.
Definition POWERFS_CAP_FILE_EXCL : Z := Z.shiftl 1 9.
Definition POWERFS_CAP_WR_DATA : Z := Z.lor POWERFS_CAP_FILE_WR POWERFS_CAP_FILE_EXCL.
Definition POWERFS_CAP_ANY_RD : Z := Z.lor POWERFS_CAP_AUTH_SHARED POWERFS_CAP_FILE_SHARED.
Definition POWERFS_CAP_ANY_DIRTY : Z :=
  Z.lor (Z.lor POWERFS_CAP_AUTH_EXCL POWERFS_CAP_WR_DATA) POWERFS_CAP_XATTR_EXCL.

Definition POWERFS_NET_CAP_R : Z := 0x01.
Definition POWERFS_NET_CAP_W : Z := 0x02.
Definition POWERFS_NET_CAP_X : Z := 0x04.

Definition POWERFS_CHECK_CAPS_FLUSH : Z := Z.shiftl 1 0.

Definition ERESTARTSYS : Z := 512.

(** [x & y] as a truth value. *)
Definition has (x y : Z) : bool := negb (Z.land x y =? 0).

(** [k |= bits] under a condition. *)
Definition or_if (b : bool) (k bits : Z) : Z := if b then Z.lor k bits else k.

Definition wire_capset_to_kernel_bits (wire_caps : Z) : Z :=
  let k := POWERFS_CAP_PIN in
  let k := if has wire_caps POWERFS_NET_CAP_R
           then Z.lor (Z.lor (Z.lor (Z.lor (Z.lor k POWERFS_CAP_AUTH_SHARED) POWERFS_CAP_FILE_SHARED)
                  POWERFS_CAP_FILE_CACHE) POWERFS_CAP_XATTR_SHARED) POWERFS_CAP_LINK_SHARED else k in
  let k := or_if (has wire_caps POWERFS_NET_CAP_W) k POWERFS_CAP_FILE_WR in
  if has wire_caps POWERFS_NET_CAP_X
  then Z.lor (Z.lor (Z.lor k POWERFS_CAP_FILE_EXCL) POWERFS_CAP_AUTH_EXCL) POWERFS_CAP_XATTR_EXCL else k.

Definition kernel_bits_to_wire_capset (k_bits : Z) : Z :=
  let w := or_if (has k_bits (Z.lor (Z.lor POWERFS_CAP_FILE_SHARED POWERFS_CAP_FILE_CACHE) POWERFS_CAP_AUTH_SHARED))
             0 POWERFS_NET_CAP_R in
  let w := or_if (has k_bits POWERFS_CAP_FILE_WR) w POWERFS_NET_CAP_W in
  or_if (has k_bits (Z.lor (Z.lor POWERFS_CAP_FILE_EXCL POWERFS_CAP_AUTH_EXCL) POWERFS_CAP_XATTR_EXCL))
    w POWERFS_NET_CAP_X.

(** ** State *)

(** [struct powerfs_cap]; [cap_token] is the C string in [token[64]]. *)
Record powerfs_cap := mk_cap {
  issuer_id : Z; issued : Z; implemented : Z; cap_seq : Z; issue_seq : Z; cap_gen : Z;
  cap_token : buffer; cap_epoch : Z; cap_expire : Z; last_used : Z; content_size : Z
}.

Record cap_refs := mk_refs {
  i_pin_ref : Z; i_rd_ref : Z; i_rdcache_ref : Z; i_wr_ref : Z; i_wb_ref : Z; i_wrbuffer_ref : Z; i_fx_ref : Z
}.

(** Flush records: the preallocated one, the tids on [i_cap_flush_list] and
    the counter they come from. *)
Record flush_part := mk_fl { i_prealloc_cap_flush : bool; i_cap_flush_list : list Z; i_release_count : Z }.

(** Cache generations and the two "directory complete" marks. *)
Record gen_part := mk_gen { i_shared_gen : Z; i_rdcache_gen : Z; I_COMPLETE : bool; dir_complete : bool }.

Record open_part := mk_open { nr_rd : Z; nr_wr : Z; i_last_rd : Z; i_last_wr : Z }.

(** What the capability code sees of an inode.  [ci_hold] counts the
    references this code took with [ihold] and has not dropped. *)
Record cinode := mk_ci {
  i_caps : list powerfs_cap; i_auth_cap : option Z; i_snap_caps : Z;
  i_dirty_caps : Z; i_flushing_caps : Z;
  ci_refs : cap_refs; ci_flush : flush_part; ci_gen : gen_part; ci_open : open_part;
  ci_layout : layout_inode; local_cap_granted : bool;
  nrpages : Z; i_size : Z; jiffies : Z; ci_hold : Z
}.

Definition set_caps (s : cinode) (l : list powerfs_cap) (a : option Z) : cinode :=
  mk_ci l a (i_snap_caps s) (i_dirty_caps s) (i_flushing_caps s) (ci_refs s) (ci_flush s) (ci_gen s) (ci_open s)
    (ci_layout s) (local_cap_granted s) (nrpages s) (i_size s) (jiffies s) (ci_hold s).
Definition set_dirty (s : cinode) (d f : Z) : cinode :=
  mk_ci (i_caps s) (i_auth_cap s) (i_snap_caps s) d f (ci_refs s) (ci_flush s) (ci_gen s) (ci_open s)
    (ci_layout s) (local_cap_granted s) (nrpages s) (i_size s) (jiffies s) (ci_hold s).
Definition set_refs (s : cinode) (r : cap_refs) (h : Z) : cinode :=
  mk_ci (i_caps s) (i_auth_cap s) (i_snap_caps s) (i_dirty_caps s) (i_flushing_caps s) r (ci_flush s) (ci_gen s)
    (ci_open s) (ci_layout s) (local_cap_granted s) (nrpages s) (i_size s) (jiffies s) h.
Definition set_flush (s : cinode) (f : flush_part) : cinode :=
  mk_ci (i_caps s) (i_auth_cap s) (i_snap_caps s) (i_dirty_caps s) (i_flushing_caps s) (ci_refs s) f (ci_gen s)
    (ci_open s) (ci_layout s) (local_cap_granted s) (nrpages s) (i_size s) (jiffies s) (ci_hold s).
Definition set_gen (s : cinode) (g : gen_part) : cinode :=
  mk_ci (i_caps s) (i_auth_cap s) (i_snap_caps s) (i_dirty_caps s) (i_flushing_caps s) (ci_refs s) (ci_flush s) g
    (ci_open s) (ci_layout s) (local_cap_granted s) (nrpages s) (i_size s) (jiffies s) (ci_hold s).
Definition set_layout (s : cinode) (l : layout_inode) : cinode :=
  mk_ci (i_caps s) (i_auth_cap s) (i_snap_caps s) (i_dirty_caps s) (i_flushing_caps s) (ci_refs s) (ci_flush s)
    (ci_gen s) (ci_open s) l (local_cap_granted s) (nrpages s) (i_size s) (jiffies s) (ci_hold s).
Definition set_local (s : cinode) (b : bool) : cinode :=
  mk_ci (i_caps s) (i_auth_cap s) (i_snap_caps s) (i_dirty_caps s) (i_flushing_caps s) (ci_refs s) (ci_flush s)
    (ci_gen s) (ci_open s) (ci_layout s) b (nrpages s) (i_size s) (jiffies s) (ci_hold s).

(** The node with key [k]; a [struct powerfs_cap *] is its key. *)
Definition cap_at (l : list powerfs_cap) (k : Z) : option powerfs_cap := List.find (fun c => issuer_id c =? k) l.
Definition upd_cap (l : list powerfs_cap) (k : Z) (f : powerfs_cap -> powerfs_cap) : list powerfs_cap :=
  (fun c => if issuer_id c =? k then f c else c) <$> l.
Definition on_cap (s : cinode) (k : Z) (f : powerfs_cap -> powerfs_cap) : cinode :=
  set_caps s (upd_cap (i_caps s) k f) (i_auth_cap s).

Definition set_inline (s : cinode) (i : inline_part) : cinode :=
  let l := ci_layout s in
  set_layout s (mk_linode (placement l) (reliability l) (reliability_state l) (layout_chunk_size l)
                  (volume_id l) (file_key l) i (pi_stripe l) (pi_chunks l)).
Definition set_inline_dirty (s : cinode) (b : bool) : cinode :=
  let i := pi_inline (ci_layout s) in set_inline s (mk_inline (inline_data i) (inline_len i) b (inline_max_size i)).

(** ** Programs *)

(** Answer of a grant RPC: token bytes, wire capability set, epoch, sequence
    number and duration in milliseconds. *)
Record grant := mk_grant { g_token : buffer; g_caps : Z; g_epoch : Z; g_sn : Z; g_dur_ms : Z }.

(** Calls made without the lock. *)
Inductive ext :=
| X_open_grant (is_write_open : bool)
| X_acquire (token : buffer) (wire_wanted : Z)
| X_recall_ack (token : buffer)
| X_release (token : buffer)
| X_write_and_wait (lend : Z)
| X_sync_size_chunks
| X_setattr
| X_xattr_list (size : Z)
| X_xattr_get (key : buffer) (size : Z)
| X_setxattr (key value : buffer)
| X_update_inline (data : buffer)
| X_align_inline
| X_alloc (size : Z)
| X_cancel_flush_work
| X_flush_dirty_creates
| X_flush_pending_create
| X_invalidate_pages
| X_invalidate_one
| X_pages_tagged
| X_wake_up
| X_signal_pending
| X_wait
| X_msleep (ms : Z).

(** Type of the answer. *)
Definition ans (x : ext) : Type :=
  match x with
  | X_open_grant _ | X_acquire _ _ => Z * grant
  | X_recall_ack _ => Z * Z
  | X_release _ => Z * Z * grant
  | X_write_and_wait _ | X_sync_size_chunks | X_setattr | X_setxattr _ _ | X_update_inline _ | X_align_inline => Z
  | X_xattr_list _ | X_xattr_get _ _ => Z * buffer
  | X_alloc _ | X_signal_pending | X_pages_tagged => bool
  | _ => unit
  end.

Abbreviation cprog := (prog cinode ans).

(** [ret ?: err] *)
Definition or_else (ret err : Z) : Z := if ret =? 0 then err else ret.

Inductive file_type := DIR | REG | OTHER.
#[global] Instance file_type_eq_dec : EqDecision file_type.
Proof. solve_decision. Defined.

Section caps.
Context `{KT : KernelTime} (kind : file_type).

Definition S_ISDIR : bool := bool_decide (kind = DIR).
Definition S_ISREG : bool := bool_decide (kind = REG).

Definition POWERFS_DIR_LEASE_TTL : Z := 5 * HZ.
Definition POWERFS_INODE_CACHE_TTL : Z := 10 * HZ.

(** ** Queries (the caller holds [i_lock]) *)

(** [strlen(cap->token) == token_len && memcmp(...) == 0] *)
Definition find_cap_by_token_locked (s : cinode) (token : buffer) (token_len : Z) : option Z :=
  if token_len =? 0 then i_auth_cap s else
  match List.find (fun c => (blen (cap_token c) =? token_len) &&
                            bool_decide (cap_token c = take (Z.to_nat token_len) token)) (i_caps s) with
  | Some c => Some (issuer_id c)
  | None => i_auth_cap s
  end.

Definition powerfs_cap_is_valid (now : Z) (c : powerfs_cap) : bool :=
  if cap_gen c =? 0 then false
  else if negb (cap_expire c =? 0) && time_after_eq now (cap_expire c) then false
  else true.

(** Union of the issued bits and of the implemented bits. *)
Definition powerfs_caps_issued (s : cinode) : Z * Z :=
  let '(have, impl) :=
    foldl (fun '(have, impl) c =>
             if powerfs_cap_is_valid (jiffies s) c then (Z.lor have (issued c), Z.lor impl (implemented c))
             else (have, impl)) (i_snap_caps s, 0) (i_caps s) in
  match i_auth_cap s ≫= cap_at (i_caps s) with
  | Some c => (Z.land have (Z.lor (Z.lnot (implemented c)) (issued c)), impl)
  | None => (have, impl)
  end.

Definition touch_cap (now : Z) (c : powerfs_cap) : powerfs_cap :=
  mk_cap (issuer_id c) (issued c) (implemented c) (cap_seq c) (issue_seq c) (cap_gen c) (cap_token c)
    (cap_epoch c) (cap_expire c) now (content_size c).

(** The walk of [powerfs_caps_issued_mask] from [rest] on, with the nodes
    before it; [Some l] is a hit that leaves the tree [l]. *)
Fixpoint issued_mask_loop (now mask : Z) (touch : bool) (have : Z) (before rest : list powerfs_cap)
  : option (list powerfs_cap) :=
  match rest with
  | [] => None
  | c :: rest =>
      if negb (powerfs_cap_is_valid now c) then issued_mask_loop now mask touch have (before ++ [c]) rest else
      let c' := if touch then touch_cap now c else c in
      if Z.land (issued c) mask =? mask then Some (before ++ c' :: rest) else
      let have := Z.lor have (issued c) in
      if Z.land have mask =? mask
      then Some ((if touch
                  then (fun d => if powerfs_cap_is_valid now d && has (issued d) mask then touch_cap now d else d) <$> before
                  else before) ++ c' :: rest)
      else issued_mask_loop now mask touch have (before ++ [c]) rest
  end.

Definition powerfs_caps_issued_mask (s : cinode) (mask : Z) (touch : bool) : bool * cinode :=
  if Z.land (i_snap_caps s) mask =? mask then (true, s) else
  match issued_mask_loop (jiffies s) mask touch (i_snap_caps s) [] (i_caps s) with
  | Some l => (true, set_caps s l (i_auth_cap s))
  | None => (false, s)
  end.

Definition nz (x : Z) : bool := negb (x =? 0).

Definition powerfs_caps_used (s : cinode) : Z :=
  let r := ci_refs s in
  let used := or_if (nz (i_pin_ref r)) 0 POWERFS_CAP_PIN in
  let used := or_if (nz (i_rd_ref r)) used POWERFS_CAP_FILE_SHARED in
  let used := or_if (nz (i_rdcache_ref r) || (S_ISREG && nz (nrpages s))) used POWERFS_CAP_FILE_CACHE in
  let used := or_if (nz (i_wr_ref r)) used POWERFS_CAP_FILE_WR in
  let used := or_if (nz (i_wb_ref r) || nz (i_wrbuffer_ref r)) used POWERFS_CAP_FILE_WR in
  or_if (nz (i_fx_ref r)) used POWERFS_CAP_FILE_EXCL.

Definition powerfs_caps_file_wanted (s : cinode) : Z :=
  let o := ci_open s in
  let used_cutoff := u64 (jiffies s - POWERFS_DIR_LEASE_TTL) in
  let idle_cutoff := u64 (jiffies s - POWERFS_INODE_CACHE_TTL) in
  if S_ISDIR then
    let want := or_if ((nr_rd o >? 0) || time_after (i_last_rd o) used_cutoff) 0 POWERFS_CAP_ANY_RD in
    let want := or_if ((nr_wr o >? 0) || time_after (i_last_wr o) used_cutoff) want
                  (Z.lor POWERFS_CAP_ANY_RD POWERFS_CAP_FILE_EXCL) in
    or_if (nz want || (nr_rd o >? 0)) want POWERFS_CAP_PIN
  else
    let want := or_if ((nr_rd o >? 0) || time_after (i_last_rd o) idle_cutoff) 0
                  (Z.lor POWERFS_CAP_FILE_SHARED POWERFS_CAP_FILE_CACHE) in
    let want := or_if ((nr_wr o >? 0) || time_after (i_last_wr o) used_cutoff) want
                  (Z.lor POWERFS_CAP_FILE_WR POWERFS_CAP_FILE_EXCL) in
    or_if (nz want) want POWERFS_CAP_PIN.

Definition powerfs_caps_wanted (s : cinode) : Z :=
  let w := Z.lor (powerfs_caps_file_wanted s) (powerfs_caps_used s) in
  if S_ISDIR then or_if (has w POWERFS_CAP_FILE_EXCL) w POWERFS_CAP_FILE_EXCL
  else or_if (has (i_dirty_caps s) POWERFS_CAP_ANY_DIRTY) w POWERFS_CAP_FILE_EXCL.

(** ** Grant *)

(** [add_cap_for_inode_locked]: [None] when the allocation fails. *)
Fixpoint insert_cap (l : list powerfs_cap) (c : powerfs_cap) : list powerfs_cap :=
  match l with
  | [] => [c]
  | d :: l' => if issuer_id c <? issuer_id d then c :: l
               else if issuer_id c >? issuer_id d then d :: insert_cap l' c else l
  end.

Definition add_cap_for_inode_locked (alloc : bool) (s : cinode) (issuer : Z) : option Z * cinode :=
  if negb alloc then (None, s) else
  let l := insert_cap (i_caps s) (mk_cap issuer 0 0 0 0 1 [] 0 0 0 0) in
  (Some issuer,
   match cap_at (i_caps s) issuer with
   | Some _ => s
   | None => set_caps s l (match i_auth_cap s with None => Some issuer | a => a end)
   end).

(** [k] always names a node: capabilities are freed only with their inode. *)
Definition powerfs_cap_issue (s : cinode) (k bits : Z) : cinode :=
  let had := fst (powerfs_caps_issued s) in
  let s1 := on_cap s k (fun c =>
    mk_cap (issuer_id c) (Z.lor (issued c) bits) (Z.lor (implemented c) bits) (cap_seq c) (issue_seq c) 1
      (cap_token c) (cap_epoch c) (u64 (jiffies s + POWERFS_LEASE_DURATION)) (last_used c) (content_size c)) in
  let s2 := if S_ISDIR && has bits POWERFS_CAP_FILE_SHARED && negb (has had POWERFS_CAP_FILE_SHARED)
            then let g := ci_gen s1 in
                 set_gen s1 (mk_gen (s32 (i_shared_gen g + 1)) (i_rdcache_gen g) false false) else s1 in
  let s3 := if S_ISREG && has bits POWERFS_CAP_FILE_CACHE && negb (has had POWERFS_CAP_FILE_CACHE)
            then let g := ci_gen s2 in
                 set_gen s2 (mk_gen (i_shared_gen g) (u32 (i_rdcache_gen g + 1)) (I_COMPLETE g) (dir_complete g))
            else s2 in
  match i_auth_cap s3, cap_at (i_caps s3) k with
  | None, Some _ => set_caps s3 (i_caps s3) (Some k)
  | _, _ => s3
  end.

(** [memcpy] of [n] bytes into [token[64]] and a NUL behind them: the C
    string they hold. *)
Definition token_string (t : buffer) (n : Z) : buffer :=
  let t := take (Z.to_nat n) t in take (Z.to_nat (c_strlen t)) t.

Definition set_grant (tok : option buffer) (epoch sn : Z) (c : powerfs_cap) : powerfs_cap :=
  mk_cap (issuer_id c) (issued c) (implemented c) sn sn (cap_gen c) (default (cap_token c) tok) epoch
    (cap_expire c) (last_used c) (content_size c).

(** The token is replaced when it is not empty and fits. *)
Definition fitting_token (g : grant) : option buffer :=
  if (blen (g_token g) >? 0) && (blen (g_token g) <? 64)
  then Some (token_string (g_token g) (blen (g_token g))) else None.

Definition set_expire (e : Z) (c : powerfs_cap) : powerfs_cap :=
  mk_cap (issuer_id c) (issued c) (implemented c) (cap_seq c) (issue_seq c) (cap_gen c) (cap_token c)
    (cap_epoch c) e (last_used c) (content_size c).
Definition set_content_size (n : Z) (c : powerfs_cap) : powerfs_cap :=
  mk_cap (issuer_id c) (issued c) (implemented c) (cap_seq c) (issue_seq c) (cap_gen c) (cap_token c)
    (cap_epoch c) (cap_expire c) (last_used c) n.

Definition grant_expiry (s : cinode) (dur_ms : Z) : Z :=
  u64 (jiffies s + (if dur_ms >? 0 then msecs_to_jiffies dur_ms else POWERFS_LEASE_DURATION)).

(** What the capability is given by a grant, before [powerfs_cap_issue]. *)
Definition open_grant_fields (s : cinode) (g : grant) (c : powerfs_cap) : powerfs_cap :=
  let tok := if blen (g_token g) >? 0
             then Some (token_string (g_token g) (Z.min (blen (g_token g)) 63)) else None in
  set_content_size (u64 (i_size s)) (set_expire (grant_expiry s (g_dur_ms g)) (set_grant tok (g_epoch g) (g_sn g) c)).

(** The auth cap, or a new one with issuer 0. *)
Definition auth_or_new (alloc : bool) (s : cinode) : option Z * cinode :=
  match i_auth_cap s with Some k => (Some k, s) | None => add_cap_for_inode_locked alloc s 0 end.

Definition cap_open_grant_and_issue (is_write_open : bool) : cprog Z :=
  '(ret, g) ← call (X_open_grant is_write_open);
  let g := if ret <? 0 then mk_grant [] 0 0 0 0 else g in
  let ret := if ret <? 0 then 0 else ret in
  section_alloc (fun alloc s =>
    match auth_or_new alloc s with
    | (None, s) => (s, Ret (- ENOMEM))
    | (Some k, s) =>
        let s := on_cap s k (open_grant_fields s g) in
        (powerfs_cap_issue s k (wire_capset_to_kernel_bits (g_caps g)), Ret ret)
    end).

Definition local_grant_bits (is_write : bool) : Z :=
  if is_write then Z.lor (Z.lor POWERFS_CAP_AUTH_EXCL POWERFS_CAP_FILE_WR) POWERFS_CAP_FILE_EXCL
  else Z.lor (Z.lor POWERFS_CAP_AUTH_SHARED POWERFS_CAP_FILE_SHARED) POWERFS_CAP_FILE_CACHE.

Definition cap_open_grant_local (is_write : bool) : cprog Z :=
  section_alloc (fun alloc s =>
    match auth_or_new alloc s with
    | (None, s) => (s, Ret (- ENOMEM))
    | (Some k, s) =>
        let s := powerfs_cap_issue s k (local_grant_bits is_write) in
        (on_cap s k (fun c => set_content_size (u64 (i_size s))
                                (set_expire (u64 (jiffies s + POWERFS_LEASE_DURATION)) c)), Ret 0)
    end).

(** [pi->i_auth_cap && pi->i_auth_cap->token[0] != '\0'] *)
Definition auth_has_token (s : cinode) : bool :=
  match i_auth_cap s ≫= cap_at (i_caps s) with Some c => nz (blen (cap_token c)) | None => false end.

(** The retry loop of [powerfs_upgrade_local_create]; [None] when the marker
    was cleared meanwhile, else the last grant result. *)
Definition upgrade_state (s : cinode) : bool * bool := (negb (local_cap_granted s), auth_has_token s).

Fixpoint upgrade_loop (attempts : nat) (is_write : bool) (ret : Z) : cprog (option Z) :=
  match attempts with
  | O => Ret (Some ret)
  | S attempts =>
      '(ready, have_token) ← peek upgrade_state;
      if (ready : bool) then Ret None else
      '(ready, have_token, ret) ←
        (if (have_token : bool) then Ret (false, true, ret) else
         ret ← cap_open_grant_and_issue is_write;
         if ret =? 0 then '(d, t) ← peek upgrade_state; Ret (d, t, ret) else Ret (false, false, ret));
      if (ready : bool) then Ret None else
      if (have_token : bool) then Ret (Some ret) else
      _ ← (match attempts with O => Ret tt | _ => call (X_msleep 200) end);
      upgrade_loop attempts is_write ret
  end.

Definition powerfs_upgrade_local_create (is_write : bool) : cprog Z :=
  need_upgrade ← peek local_cap_granted;
  if negb need_upgrade then Ret 0 else
  _ ← call X_flush_pending_create;
  r ← upgrade_loop 3 is_write 0;
  match r with
  | None => Ret 0
  | Some _ =>
      section (fun s => if auth_has_token s then (set_local s false, Ret 0) else (s, Ret (- EAGAIN)))
  end.

(** ** Acknowledge and release *)

Definition token_of (s : cinode) (k : Z) : buffer :=
  match cap_at (i_caps s) k with Some c => cap_token c | None => [] end.

Definition cap_send_recall_ack (k : Z) : cprog Z :=
  token ← peek (fun s => token_of s k);
  if blen token =? 0 then Ret 0 else
  '(ret, piggyback_caps) ← call (X_recall_ack token);
  if ret <? 0 then Ret ret else
  if nz piggyback_caps
  then section (fun s => (powerfs_cap_issue s k (wire_capset_to_kernel_bits piggyback_caps), Ret 0))
  else Ret 0.

Definition cap_send_release (k : Z) : cprog Z :=
  token ← peek (fun s => token_of s k);
  if blen token =? 0 then Ret 0 else
  '(ret, has_upg, g) ← call (X_release token);
  if ret <? 0 then Ret ret else
  if nz has_upg then
    _ ← locked (fun s =>
      let s := on_cap s k (set_grant (fitting_token g) (g_epoch g) (g_sn g)) in
      powerfs_cap_issue s k (wire_capset_to_kernel_bits (g_caps g)));
    _ ← call X_wake_up;
    Ret 0
  else Ret 0.

(** ** Flush of dirty bits *)

(** Put the bits of a failed step back. *)
Definition rollback (bits : Z) : cprog unit :=
  locked (fun s => set_dirty s (Z.lor (i_dirty_caps s) bits) (Z.ldiff (i_flushing_caps s) bits)).

Definition flush_data (need_data_flush : Z) : cprog Z :=
  if need_data_flush =? 0 then Ret 0 else
  size ← peek i_size;
  err ← call (X_write_and_wait (if size >? 0 then size - 1 else 0));
  if err <? 0 then _ ← rollback need_data_flush; Ret err else
  pl ← peek (fun s => placement (ci_layout s));
  if (pl =? POWERFS_PLACEMENT_FLAT) || is_stripe pl then
    cerr ← call X_sync_size_chunks;
    if cerr <? 0 then _ ← rollback need_data_flush; Ret cerr else Ret 0
  else Ret 0.

Definition flush_attr (need_attr_flush ret : Z) : cprog Z :=
  if need_attr_flush =? 0 then Ret ret else
  err ← call X_setattr;
  if err <? 0 then _ ← rollback need_attr_flush; Ret (or_else ret err) else Ret ret.

(** The keys of a NUL-separated list. *)
Fixpoint split_keys (cur buf : buffer) : list buffer :=
  match buf with
  | [] => match cur with [] => [] | _ => [cur] end
  | x :: buf => if x =? 0 then cur :: split_keys [] buf else split_keys (cur ++ [x]) buf
  end.

Fixpoint push_xattrs (keys : list buffer) : cprog Z :=
  match keys with
  | [] => Ret 0
  | key :: keys =>
      '(vsize, _) ← call (X_xattr_get key 0);
      if vsize <? 0 then push_xattrs keys else
      ok ← call (X_alloc (if vsize >? 0 then vsize else 1));
      if negb ok then Ret (- ENOMEM) else
      '(gotv, val) ← (if vsize >? 0 then call (X_xattr_get key vsize) else Ret (vsize, []));
      if negb (gotv =? vsize) then Ret (if gotv <? 0 then gotv else - EIO) else
      r ← call (X_setxattr key val);
      if r <? 0 then Ret r else push_xattrs keys
  end.

(** The body of the XATTR step: its [step_err]. *)
Definition xattr_step : cprog Z :=
  '(list_sz, _) ← call (X_xattr_list 0);
  if list_sz <? 0 then Ret list_sz else
  if list_sz =? 0 then Ret 0 else
  ok ← call (X_alloc list_sz);
  if negb ok then Ret (- ENOMEM) else
  '(got, buf) ← call (X_xattr_list list_sz);
  if negb (got =? list_sz) then Ret (if got <? 0 then got else - EIO) else
  push_xattrs (split_keys [] buf).

Definition flush_xattr (need_xattr_flush ret : Z) : cprog Z :=
  if need_xattr_flush =? 0 then Ret ret else
  step_err ← xattr_step;
  if step_err =? 0 then Ret ret else _ ← rollback need_xattr_flush; Ret (or_else ret step_err).

(** Up to five attempts; whether one succeeded. *)
Fixpoint update_inline_loop (attempts : nat) (attempt : Z) (data : buffer) : cprog bool :=
  match attempts with
  | O => Ret false
  | S attempts =>
      r ← call (X_update_inline data);
      if r =? 0 then Ret true else
      _ ← (if attempt <? 5 then call (X_msleep (500 * attempt)) else Ret tt);
      update_inline_loop attempts (attempt + 1) data
  end.

Definition keep_inline_dirty (ret err : Z) : cprog Z :=
  _ ← locked (fun s => set_inline_dirty s true); Ret (or_else ret err).

Definition flush_inline (need_inline_flush : bool) (ret : Z) : cprog Z :=
  if negb need_inline_flush then Ret ret else
  aret ← call X_align_inline;
  if aret <? 0 then keep_inline_dirty ret aret else
  if aret >? 0 then Ret ret else
  section (fun s =>
    let i := pi_inline (ci_layout s) in
    if bool_decide (inline_data i = None) || (inline_len i =? 0) then (set_inline_dirty s false, Ret ret) else
    let snap_len := inline_len i in
    (s, ok ← call (X_alloc snap_len);
        if negb ok then keep_inline_dirty ret (- ENOMEM) else
        snap ← peek (fun s =>
          let i := pi_inline (ci_layout s) in
          if inline_len i =? snap_len then take (Z.to_nat snap_len) <$> inline_data i else None);
        match snap with
        | None => keep_inline_dirty ret (- EAGAIN)
        | Some data =>
            inline_synced ← update_inline_loop 5 1 data;
            if (inline_synced : bool) then _ ← locked (fun s => set_inline_dirty s false); Ret ret
            else keep_inline_dirty ret (- EIO)
        end)).

(** The end of the flush window. *)
Definition flush_finish (tid ret : Z) : cprog Z :=
  _ ← locked (fun s =>
    let f := ci_flush s in
    set_flush (set_dirty s (i_dirty_caps s) 0)
      (mk_fl true (filter (fun t => t <> tid) (i_cap_flush_list f)) (i_release_count f)));
  _ ← call X_wake_up;
  Ret ret.

(** The steps outside the lock for the bits [flushing]. *)
Definition flush_steps (tid flushing : Z) (need_inline_flush : bool) : cprog Z :=
  ret ← flush_data (Z.land flushing POWERFS_CAP_WR_DATA);
  ret ← flush_attr (Z.land flushing POWERFS_CAP_AUTH_EXCL) ret;
  ret ← flush_xattr (Z.land flushing POWERFS_CAP_XATTR_EXCL) ret;
  ret ← flush_inline need_inline_flush ret;
  flush_finish tid ret.

(** Take the bits: the record of the flush comes from the inode's slot, the
    allocation made before ([pre]) or an atomic one. *)
Definition flush_take (pre atomic : bool) (flushing : Z) (s : cinode) : option Z * cinode :=
  let f := ci_flush s in
  if negb (i_prealloc_cap_flush f || pre || atomic) then (None, s) else
  let tid := s64 (i_release_count f + 1) in
  let slot := i_prealloc_cap_flush f && pre in
  (Some tid,
   set_flush (set_dirty s (Z.ldiff (i_dirty_caps s) flushing) (Z.lor (i_flushing_caps s) flushing))
     (mk_fl slot (i_cap_flush_list f ++ [tid]) tid)).

Definition powerfs_cap_flush (mask : Z) : cprog Z :=
  pre ← call (X_alloc 0);
  section_alloc (fun atomic s =>
    let flushing := Z.land (i_dirty_caps s) mask in
    if flushing =? 0 then
      (s, if (pre : bool)
          then section (fun s => let f := ci_flush s in
                 (set_flush s (mk_fl true (i_cap_flush_list f) (i_release_count f)), Ret 0))
          else Ret 0)
    else
      let need_inline_flush :=
        has flushing POWERFS_CAP_WR_DATA && (placement (ci_layout s) =? POWERFS_PLACEMENT_INLINE) &&
        inline_dirty (pi_inline (ci_layout s)) in
      match flush_take pre atomic flushing s with
      | (None, s) => (set_dirty s (Z.lor (i_dirty_caps s) flushing) (Z.ldiff (i_flushing_caps s) flushing),
                      Ret (- ENOMEM))
      | (Some tid, s) => (s, flush_steps tid flushing need_inline_flush)
      end).

Definition powerfs_cap_mark_dirty (caps : Z) : cprog unit :=
  locked (fun s => set_dirty s (Z.lor (i_dirty_caps s) caps) (i_flushing_caps s)).

(** ** Recall *)

(** Steps 2b to 6 of [powerfs_cap_revoke], after the flush. *)
Definition drop_dir_complete (s : cinode) : cinode :=
  let g := ci_gen s in set_gen s (mk_gen (s32 (i_shared_gen g + 1)) (i_rdcache_gen g) false false).

Definition settle_cap (c : powerfs_cap) : powerfs_cap :=
  mk_cap (issuer_id c) (issued c) (issued c) (cap_seq c) (issue_seq c) (cap_gen c) (cap_token c)
    (cap_epoch c) (cap_expire c) (last_used c) (content_size c).

Definition inline_file (s : cinode) : bool := placement (ci_layout s) =? POWERFS_PLACEMENT_INLINE.

(** Steps 3, 4 and the locked part of 4b; whether 4b has to go on. *)
Definition revoke_settle (k revoking : Z) (s : cinode) : cinode * bool :=
  let s := on_cap s k settle_cap in
  let s := if has revoking POWERFS_CAP_FILE_SHARED then drop_dir_complete s else s in
  if has revoking POWERFS_CAP_WR_DATA && inline_file s then
    let i := pi_inline (ci_layout s) in
    (if inline_dirty i then s else set_inline s (mk_inline None 0 false (inline_max_size i)), true)
  else (s, false).

Definition revoke_tail (k revoking : Z) : cprog unit :=
  _ ← section (fun s =>
    let '(s, drop_inline) := revoke_settle k revoking s in
    (s, when_ drop_inline (_ ← call X_invalidate_pages; call X_invalidate_one)));
  inline ← peek inline_file;
  _ ← when_ (S_ISREG && negb inline &&
             has revoking (Z.lor (Z.lor POWERFS_CAP_FILE_SHARED POWERFS_CAP_FILE_CACHE) POWERFS_CAP_WR_DATA))
        (call X_invalidate_pages);
  _ ← cap_send_recall_ack k;
  call X_wake_up.

Definition clear_issued (revoking : Z) (c : powerfs_cap) : powerfs_cap :=
  mk_cap (issuer_id c) (Z.ldiff (issued c) revoking) (implemented c) (cap_seq c) (issue_seq c) (cap_gen c)
    (cap_token c) (cap_epoch c) (cap_expire c) (last_used c) (content_size c).

(** Entered with the lock held: the state at the first unlock and the rest. *)
Definition powerfs_cap_revoke (k revoking : Z) (s : cinode) : cinode * cprog unit :=
  let s := on_cap s k (clear_issued revoking) in
  let dirty_to_flush := Z.land (i_dirty_caps s) revoking in
  (s, _ ← (if nz dirty_to_flush then powerfs_cap_flush dirty_to_flush else Ret 0);
      _ ← when_ (has revoking POWERFS_CAP_AUTH_EXCL && S_ISDIR)
            (_ ← call X_cancel_flush_work; call X_flush_dirty_creates);
      revoke_tail k revoking).

(** ** Notifications *)

Inductive notify_body :=
| CAP_NOTIFY_RECALL (recall_mask retain_mask epoch : Z)
| CAP_NOTIFY_UPGRADE (new_granted epoch sn : Z).

Record powerfs_cap_notify_work := mk_notify { w_token : buffer; w_token_len : Z; w_body : notify_body }.

(** The work queued by both handlers; [None] when nothing is queued. *)
Definition notify_work (alloc wq_ready : bool) (lease_token : buffer) (token_len : Z) (body : notify_body)
  : option powerfs_cap_notify_work :=
  if negb alloc then None else
  let w := if (token_len >? 0) && (token_len <? 64)
           then mk_notify (take (Z.to_nat token_len) lease_token) token_len body else mk_notify [] 0 body in
  if wq_ready then Some w else None.

Definition powerfs_cap_recall_notify_handler (alloc wq_ready : bool) (lease_token : buffer) (token_len : Z)
    (recall_mask retain_mask epoch : Z) : option powerfs_cap_notify_work :=
  notify_work alloc wq_ready lease_token token_len (CAP_NOTIFY_RECALL recall_mask retain_mask epoch).

Definition powerfs_cap_upgrade_notify_handler (alloc wq_ready : bool) (lease_token : buffer) (token_len : Z)
    (new_granted epoch sn : Z) : option powerfs_cap_notify_work :=
  notify_work alloc wq_ready lease_token token_len (CAP_NOTIFY_UPGRADE new_granted epoch sn).

Definition set_epoch (e : Z) (c : powerfs_cap) : powerfs_cap :=
  mk_cap (issuer_id c) (issued c) (implemented c) (cap_seq c) (issue_seq c) (cap_gen c) (cap_token c) e
    (cap_expire c) (last_used c) (content_size c).

Definition issued_of (s : cinode) (k : Z) : Z :=
  match cap_at (i_caps s) k with Some c => issued c | None => 0 end.

(** The work function once the inode was found; [live] is false when it is
    being evicted or shut down. *)
Definition powerfs_cap_notify_work_func (live : bool) (w : powerfs_cap_notify_work) : cprog unit :=
  if negb live then Ret tt else
  section (fun s =>
    match find_cap_by_token_locked s (w_token w) (w_token_len w) with
    | None => (s, Ret tt)
    | Some k =>
        match w_body w with
        | CAP_NOTIFY_RECALL _ retain epoch =>
            let k_recall := Z.ldiff (issued_of s k) (wire_capset_to_kernel_bits retain) in
            let s := on_cap s k (set_epoch epoch) in
            if nz k_recall then powerfs_cap_revoke k k_recall s else (s, call X_wake_up)
        | CAP_NOTIFY_UPGRADE granted epoch sn =>
            let s := on_cap s k (set_grant None epoch sn) in
            (powerfs_cap_issue s k (wire_capset_to_kernel_bits granted), call X_wake_up)
        end
    end).

(** ** Checking what is wanted *)

Definition acquire_done (k : Z) (g : grant) (s : cinode) : cinode :=
  let s := on_cap s k (fun c => set_expire (grant_expiry s (g_dur_ms g))
                                  (set_grant (fitting_token g) (g_epoch g) (g_sn g) c)) in
  powerfs_cap_issue s k (wire_capset_to_kernel_bits (g_caps g)).

Definition powerfs_check_caps (flags : Z) : cprog unit :=
  section (fun s =>
    let '(iss, _) := powerfs_caps_issued s in
    let wanted := Z.lor (powerfs_caps_file_wanted s) (powerfs_caps_used s) in
    if has flags POWERFS_CHECK_CAPS_FLUSH && nz (i_dirty_caps s) then
      (s, dirty ← peek i_dirty_caps; _ ← powerfs_cap_flush dirty; Ret tt)
    else
    let need_acquire := Z.ldiff wanted iss in
    match i_auth_cap s with
    | Some k =>
        if nz need_acquire && (i_flushing_caps s =? 0) then
          let wire_wanted := kernel_bits_to_wire_capset need_acquire in
          if wire_wanted =? 0 then (s, Ret tt) else
          (s, '(acq_ret, g) ← call (X_acquire (token_of s k) wire_wanted);
              if acq_ret =? 0 then _ ← locked (acquire_done k g); call X_wake_up else Ret tt)
        else (s, Ret tt)
    | None => (s, Ret tt)
    end).

(** ** References *)

Definition powerfs_cap_take_refs (s : cinode) (got : Z) : cinode :=
  let r := ci_refs s in
  let inc bit x := if has got bit then s32 (x + 1) else x in
  set_refs s
    (mk_refs (inc POWERFS_CAP_PIN (i_pin_ref r)) (inc POWERFS_CAP_FILE_SHARED (i_rd_ref r))
       (inc POWERFS_CAP_FILE_CACHE (i_rdcache_ref r)) (inc POWERFS_CAP_FILE_WR (i_wr_ref r))
       (i_wb_ref r) (i_wrbuffer_ref r) (inc POWERFS_CAP_FILE_EXCL (i_fx_ref r)))
    (if has got POWERFS_CAP_FILE_WR && (i_wr_ref r =? 0) then ci_hold s + 1 else ci_hold s).

Definition powerfs_cap_get_refs (got : Z) : cprog unit := locked (fun s => powerfs_cap_take_refs s got).

(** The locked part of [powerfs_cap_put_refs]: the state, whether some
    counter reached zero, and whether the inode reference is dropped. *)
Definition drop_refs (s : cinode) (had : Z) : cinode * bool * bool :=
  let r := ci_refs s in
  let dec bit x := if has had bit then s32 (x - 1) else x in
  let zero bit x := has had bit && (s32 (x - 1) =? 0) in
  (set_refs s
     (mk_refs (dec POWERFS_CAP_PIN (i_pin_ref r)) (dec POWERFS_CAP_FILE_SHARED (i_rd_ref r))
        (dec POWERFS_CAP_FILE_CACHE (i_rdcache_ref r)) (dec POWERFS_CAP_FILE_WR (i_wr_ref r))
        (i_wb_ref r) (i_wrbuffer_ref r) (dec POWERFS_CAP_FILE_EXCL (i_fx_ref r))) (ci_hold s),
   zero POWERFS_CAP_FILE_SHARED (i_rd_ref r) || zero POWERFS_CAP_FILE_CACHE (i_rdcache_ref r) ||
   zero POWERFS_CAP_FILE_EXCL (i_fx_ref r) || zero POWERFS_CAP_FILE_WR (i_wr_ref r),
   zero POWERFS_CAP_FILE_WR (i_wr_ref r) && (i_wb_ref r =? 0)).

Definition iput : cprog unit := locked (fun s => set_refs s (ci_refs s) (ci_hold s - 1)).

Definition powerfs_cap_put_refs (had : Z) : cprog unit :=
  section (fun s =>
    let '(s, last, put_inode) := drop_refs s had in
    (s, _ ← when_ last (powerfs_check_caps 0); when_ put_inode iput)).

(** The bits a reference can be taken on. *)
Definition file_bits : Z :=
  Z.lor (Z.lor (Z.lor POWERFS_CAP_FILE_SHARED POWERFS_CAP_FILE_CACHE) POWERFS_CAP_FILE_WR) POWERFS_CAP_FILE_EXCL.

(** [try_get_cap_refs_locked]: success, [*got], state. *)
Definition try_get_cap_refs_locked (s : cinode) (need want : Z) : bool * Z * cinode :=
  let '(iss, _) := powerfs_caps_issued s in
  let have_need := Z.ldiff need iss =? 0 in
  let have_want := Z.ldiff (Z.land want file_bits) iss =? 0 in
  if have_need then
    let refs := POWERFS_CAP_PIN in
    let refs := or_if (has iss POWERFS_CAP_FILE_SHARED) refs POWERFS_CAP_FILE_SHARED in
    let refs := or_if (has iss POWERFS_CAP_FILE_CACHE) refs POWERFS_CAP_FILE_CACHE in
    let refs := or_if (has iss POWERFS_CAP_FILE_WR) refs POWERFS_CAP_FILE_WR in
    let refs := or_if (has iss POWERFS_CAP_FILE_EXCL) refs POWERFS_CAP_FILE_EXCL in
    (have_want, refs, powerfs_cap_take_refs s refs)
  else (false, 0, s).

(** One locked attempt. *)
Definition try_section (need want : Z) : cprog (bool * Z) :=
  section (fun s => let '(ok, refs, s) := try_get_cap_refs_locked s need want in (s, Ret (ok, refs))).

Definition powerfs_try_get_caps (need want : Z) : cprog (bool * Z) :=
  '(ok, refs) ← try_section need want;
  _ ← when_ (negb ok) (powerfs_check_caps 0);
  Ret (ok, refs).

(** The loop of [powerfs_get_caps], [*got] on return ([None] when it is not
    written); the outer [None] is fuel running out. *)
Fixpoint get_caps_loop (fuel : nat) (need want round : Z) : cprog (option (Z * option Z)) :=
  match fuel with
  | O => Ret None
  | S fuel =>
      '(ok, refs) ← try_section need want;
      if (ok : bool) then Ret (Some (0, Some refs)) else
      if round >=? 30 then Ret (Some (0, Some refs)) else
      _ ← powerfs_check_caps 0;
      sig ← call X_signal_pending;
      if (sig : bool) then Ret (Some (- ERESTARTSYS, None)) else
      '(ok, refs) ← try_section need want;
      if (ok : bool) then Ret (Some (0, Some refs)) else
      sig ← call X_signal_pending;
      if (sig : bool) then Ret (Some (- ERESTARTSYS, None)) else
      _ ← call X_wait;
      get_caps_loop fuel need want (round + 1)
  end.

Definition powerfs_get_caps (need want : Z) : cprog (option (Z * option Z)) := get_caps_loop 31 need want 0.

(** ** Renewal *)

(** What the sweep reads of an inode under the lock; [None] skips it. *)
Definition renew_look (s : cinode) : option (bool * bool * bool * bool) :=
  match i_auth_cap s ≫= cap_at (i_caps s) with
  | None => None
  | Some c =>
      if (blen (cap_token c) =? 0) || (cap_gen c =? 0) then None else
      Some (nr_wr (ci_open s) >? 0, inline_dirty (pi_inline (ci_layout s)) || nz (i_dirty_caps s),
            nz (cap_expire c) && time_after_eq (jiffies s) (cap_expire c),
            (cap_expire c =? 0) ||
            time_after_eq (jiffies s) (u64 (cap_expire c - POWERFS_LEASE_DURATION / 3)))
  end.

(** The body of the sweep for one grabbed inode. *)
Definition renew_inode (shutting_down : bool) : cprog unit :=
  if shutting_down || negb S_ISREG then Ret tt else
  look ← peek renew_look;
  match look with
  | None => Ret tt
  | Some (open_wr, dirty, was_expired, renew_now) =>
      if negb renew_now then Ret tt else
      dirty ← (if open_wr || dirty then Ret (Some dirty)
               else tagged ← call X_pages_tagged; Ret (if (tagged : bool) then Some true else None));
      match dirty with
      | None => Ret tt
      | Some dirty =>
          _ ← cap_open_grant_and_issue (open_wr || dirty);
          ok ← peek (fun s => match i_auth_cap s ≫= cap_at (i_caps s) with
                              | Some c => nz (blen (cap_token c)) && powerfs_cap_is_valid (jiffies s) c
                              | None => false
                              end);
          if (ok : bool) && was_expired && dirty then _ ← powerfs_cap_flush POWERFS_CAP_ANY_DIRTY; Ret tt
          else Ret tt
      end
  end.

(** What [powerfs_quiesce_all] does for a collected capability. *)
Definition quiesce_one (k : Z) : cprog unit := _ ← cap_send_release k; call X_invalidate_pages.
End caps.

(** ** Walks over inodes and capabilities *)

(** [powerfs_quiesce_all]: what is seen of an inode of the superblock, and the
    capabilities collected, last one first. *)
Record quiesce_view := mk_quiesce { q_cap : Z; q_igrab : bool; q_token : bool; q_open : bool; q_busy : bool }.

Definition quiesce_collect (inodes : list quiesce_view) : list Z :=
  foldl (fun dispose i =>
           if negb (q_igrab i) then dispose else
           if negb (q_token i) then dispose else
           if q_open i then dispose else
           if q_busy i then dispose else q_cap i :: dispose) [] inodes.

(** Result, [*released] and the order of the releases. *)
Definition powerfs_quiesce_all (client : bool) (inodes : list quiesce_view) : Z * option (Z * list Z) :=
  if negb client then (- EINVAL, None) else
  let dispose := quiesce_collect inodes in (0, Some (Z.of_nat (length dispose), dispose)).

(** The inodes the renewal sweep grabs: [r_auth] tells that the entry is the
    auth cap of its inode. *)
Record renew_view := mk_renew { r_inode : Z; r_auth : bool; r_igrab : bool }.

Fixpoint renew_grab (max nr : Z) (lru : list renew_view) : list Z :=
  match lru with
  | [] => []
  | e :: lru =>
      if nr >=? max then []
      else if negb (r_auth e) then renew_grab max nr lru
      else if negb (r_igrab e) then renew_grab max nr lru
      else r_inode e :: renew_grab max (nr + 1) lru
  end.

(** ** The LRU of capabilities *)

(** What the shrinker sees of an entry: its inode's back pointer, dirty or
    writeback pages, an empty token, and whether [igrab] succeeds. *)
Record lru_entry := mk_lru { e_id : Z; e_ci : bool; e_busy : bool; e_token : bool; e_igrab : bool }.

Definition powerfs_cap_shrinker_count (lru : list lru_entry) : Z := Z.of_nat (length lru).

(** The loop of the scan; [None] is fuel running out, else the rest of the
    list and [dispose] (newest first). *)
Fixpoint scan_loop (fuel : nat) (nr_to_scan freed scanned budget : Z) (lru dispose : list lru_entry)
  : option (list lru_entry * list lru_entry) :=
  match fuel with
  | O => None
  | S fuel =>
      match lru with
      | [] => Some (lru, dispose)
      | e :: rest =>
          if (freed <? nr_to_scan) && (scanned <? budget) then
            if negb (e_ci e) then scan_loop fuel nr_to_scan freed (scanned + 1) budget rest dispose
            else if e_busy e then scan_loop fuel nr_to_scan freed (scanned + 1) budget (rest ++ [e]) dispose
            else if negb (e_token e) then scan_loop fuel nr_to_scan freed (scanned + 1) budget rest dispose
            else if negb (e_igrab e) then scan_loop fuel nr_to_scan freed (scanned + 1) budget rest dispose
            else scan_loop fuel nr_to_scan (freed + 1) (scanned + 1) budget rest (e :: dispose)
          else Some (lru, dispose)
      end
  end.

(** The list left, the inodes whose pages are dropped (in that order) and the
    result. *)
Definition powerfs_cap_shrinker_scan (lru : list lru_entry) (nr_to_scan : Z)
  : option (list lru_entry * list lru_entry * Z) :=
  '(lru, dispose) ← scan_loop (S (length lru)) nr_to_scan 0 0 (Z.of_nat (length lru)) lru [];
  Some (lru, dispose, Z.of_nat (length dispose)).
