(* ===== verification/CapsProof.v ===== *)
(** * CapsProof: theorems on the capabilities of an inode

    The programs of [Caps] run here in two ways: one program with
    interference ([runs]), giving the trace of its outside calls, and a pool
    of programs in every interleaving ([pool_step]).  Shown: the state
    invariant in every interleaving and for every answer of the server; a
    dirty bit that a flush leaves clean has been written back, or the payload
    of an inline file is still in the inode; a recall without interference
    lowers the capability and acknowledges last; [powerfs_get_caps]
    terminates; the shrinker terminates and takes exactly the idle entries;
    an optimistic create is upgraded only with a token from the filer. *)

From Stdlib Require Import Sorted.
From S2P Require Import Prelude Tlv NetLease Layout Prog Caps.

(** ** Sets of bits *)

(** [a] is contained in [b]. *)
Definition sub (a b : Z) : Prop := forall n, 0 <= n -> Z.testbit a n = true -> Z.testbit b n = true.

Ltac bits := apply Z.bits_inj'; intros ? ?; rewrite ?Z.lor_spec, ?Z.land_spec, ?Z.ldiff_spec, ?Z.lor_spec, ?Z.land_spec, ?Z.ldiff_spec;
  repeat match goal with |- context [Z.testbit ?a ?n] => destruct (Z.testbit a n) eqn:? end; try done.

Lemma sub_refl a : sub a a.
Proof. by intros n. Qed.
Lemma sub_trans a b c : sub a b -> sub b c -> sub a c.
Proof. intros H1 H2 n Hn Ha. auto. Qed.
Lemma sub_0 a : sub 0 a.
Proof. intros n _. by rewrite Z.bits_0. Qed.
Lemma sub_lor_l a b : sub a (Z.lor a b).
Proof. intros n _ H. by rewrite Z.lor_spec, H. Qed.
Lemma sub_lor_r a b : sub b (Z.lor a b).
Proof. intros n _ H. by rewrite Z.lor_spec, H, orb_true_r. Qed.
Lemma sub_lor a b c : sub a c -> sub b c -> sub (Z.lor a b) c.
Proof. intros H1 H2 n Hn. rewrite Z.lor_spec. intros H. apply orb_true_iff in H as [H|H]; auto. Qed.
Lemma sub_lor_mono a b c : sub a b -> sub (Z.lor a c) (Z.lor b c).
Proof. intros H. apply sub_lor; [|apply sub_lor_r]. eapply sub_trans; [exact H|apply sub_lor_l]. Qed.
Lemma sub_land_l a b : sub (Z.land a b) a.
Proof. intros n _. rewrite Z.land_spec. intros H. by apply andb_true_iff in H as [H _]. Qed.
Lemma sub_land_r a b : sub (Z.land a b) b.
Proof. intros n _. rewrite Z.land_spec. intros H. by apply andb_true_iff in H as [_ H]. Qed.
Lemma sub_ldiff a b : sub (Z.ldiff a b) a.
Proof. intros n _. rewrite Z.ldiff_spec. intros H. by apply andb_true_iff in H as [H _]. Qed.
#[export] Hint Resolve sub_refl sub_0 sub_lor_l sub_lor_r sub_lor sub_lor_mono sub_land_l sub_land_r sub_ldiff : pfs.

Lemma ldiff_0_sub a b : 0 <= a -> Z.ldiff a b = 0 <-> sub a b.
Proof.
  intros _. split.
  - intros H n Hn Ha. assert (E : Z.testbit (Z.ldiff a b) n = false) by (by rewrite H, Z.bits_0).
    rewrite Z.ldiff_spec, Ha in E. by destruct (Z.testbit b n).
  - intros H. apply Z.bits_inj'. intros n Hn. rewrite Z.ldiff_spec, Z.bits_0.
    destruct (Z.testbit a n) eqn:E; [|done]. by rewrite (H n Hn E).
Qed.

Abbreviation event := (Prog.event ans).
Abbreviation runs_call_bind := (@Prog.runs_call_bind cinode ext ans).
Abbreviation runs_call := (@Prog.runs_call cinode ext ans).

#[global] Instance ans_inhabited x : Inhabited (ans x).
Proof. destruct x; cbn; repeat constructor. Defined.

(** ** The invariant *)

Definition cap_ok (c : powerfs_cap) : Prop := sub (issued c) (implemented c) /\ blen (cap_token c) < 64.

Definition caps_wf (s : cinode) : Prop :=
  StronglySorted Z.lt (issuer_id <$> i_caps s) /\ Forall cap_ok (i_caps s) /\
  (forall k, i_auth_cap s = Some k -> is_Some (cap_at (i_caps s) k)).

(** Capabilities stay where they are, and the auth cap stays the same. *)
Definition caps_stay (s s' : cinode) : Prop :=
  (forall k, is_Some (cap_at (i_caps s) k) -> is_Some (cap_at (i_caps s') k)) /\
  (forall k, i_auth_cap s = Some k -> i_auth_cap s' = Some k).

(** Issued bits only grow. *)
Definition issued_grows (s s' : cinode) : Prop :=
  forall k, sub (issued_of s k) (issued_of s' k).

Definition steady (s s' : cinode) : Prop := (caps_wf s -> caps_wf s') /\ caps_stay s s'.
Definition growing (s s' : cinode) : Prop := steady s s' /\ issued_grows s s'.

Lemma steady_trans s1 s2 s3 : steady s1 s2 -> steady s2 s3 -> steady s1 s3.
Proof. intros [A1 [A2 A3]] [B1 [B2 B3]]. split; [auto|]. split; auto. Qed.
Lemma growing_trans s1 s2 s3 : growing s1 s2 -> growing s2 s3 -> growing s1 s3.
Proof.
  intros [A1 A2] [B1 B2]. split; [by eapply steady_trans|]. intros k. eapply sub_trans; [apply A2|apply B2].
Qed.
Lemma growing_same s s' : i_caps s' = i_caps s -> i_auth_cap s' = i_auth_cap s -> growing s s'.
Proof.
  intros E1 E2. split; [split|].
  - unfold caps_wf. by rewrite E1, E2.
  - unfold caps_stay. by rewrite E1, E2.
  - intros k. unfold issued_of. rewrite E1. apply sub_refl.
Qed.
Lemma growing_refl s : growing s s.
Proof. by apply growing_same. Qed.

Lemma cap_at_upd l k f j : (forall c, issuer_id (f c) = issuer_id c) ->
  cap_at (upd_cap l k f) j = (if j =? k then f <$> cap_at l j else cap_at l j).
Proof.
  intros Hf. unfold cap_at, upd_cap. induction l as [|c l IH]; [by destruct (j =? k)|]. cbn [fmap list_fmap List.find].
  destruct (Z.eqb_spec (issuer_id c) k) as [Ek|Ek].
  - rewrite Hf. destruct (Z.eqb_spec (issuer_id c) j) as [<-|Ej]; [|exact IH].
    by rewrite (proj2 (Z.eqb_eq _ _) Ek).
  - destruct (Z.eqb_spec (issuer_id c) j) as [<-|Ej]; [|exact IH]. by rewrite (proj2 (Z.eqb_neq _ _) Ek).
Qed.

Lemma issuers_upd l k f : (forall c, issuer_id (f c) = issuer_id c) -> issuer_id <$> upd_cap l k f = issuer_id <$> l.
Proof.
  intros Hf. unfold upd_cap. rewrite <- list_fmap_compose. apply list_fmap_ext. intros i c _. cbn.
  case_if; [apply Hf|done].
Qed.

Lemma i_caps_on_cap s k f : i_caps (on_cap s k f) = upd_cap (i_caps s) k f.
Proof. done. Qed.

(** An update of one capability that keeps its key and its own invariant. *)
Lemma on_cap_steady s k f :
  (forall c, issuer_id (f c) = issuer_id c) -> (forall c, cap_ok c -> cap_ok (f c)) -> steady s (on_cap s k f).
Proof.
  intros Hid Hok. split.
  - intros (W1 & W2 & W3). unfold caps_wf. rewrite i_caps_on_cap. split_and!.
    + by rewrite issuers_upd.
    + unfold upd_cap. apply Forall_fmap. eapply Forall_impl; [exact W2|]. intros c Hc. cbn. case_if; auto.
    + intros j Hj. rewrite cap_at_upd by done. destruct (W3 j Hj) as [c ->]. by case_if.
  - split; [|done]. intros j [c Hc]. rewrite i_caps_on_cap, cap_at_upd, Hc by done. by case_if.
Qed.

Lemma on_cap_growing s k f :
  (forall c, issuer_id (f c) = issuer_id c) -> (forall c, cap_ok c -> cap_ok (f c)) ->
  (forall c, sub (issued c) (issued (f c))) -> growing s (on_cap s k f).
Proof.
  intros Hid Hok Hi. split; [by apply on_cap_steady|]. intros j. unfold issued_of. rewrite i_caps_on_cap.
  rewrite cap_at_upd by done. destruct (cap_at (i_caps s) j) as [c|]; case_if; cbn; auto with pfs.
Qed.

Lemma set_auth_growing s k : is_Some (cap_at (i_caps s) k) -> i_auth_cap s = None -> growing s (set_caps s (i_caps s) (Some k)).
Proof.
  intros Hk Ha. split; [split|].
  - intros (W1 & W2 & W3). split_and!; [done|done|]. cbn. by intros j [= <-].
  - split; [done|]. by rewrite Ha.
  - intros j. apply sub_refl.
Qed.

Lemma blen_token_string t n : 0 <= n < 64 -> blen (token_string t n) < 64.
Proof.
  intros Hn. unfold token_string, blen. rewrite length_take, length_take. lia.
Qed.

(** ** Issuing *)

Section proofs.
Context `{KT : KernelTime} (kind : file_type).

Lemma gen_growing s g : growing s (set_gen s g).
Proof. by apply growing_same. Qed.

Lemma if_gen_growing (b : bool) s s1 g : growing s s1 -> growing s (if b then set_gen s1 g else s1).
Proof. intros H. destruct b; [eapply growing_trans; [exact H|apply gen_growing]|done]. Qed.

Lemma cap_issue_growing s k bits : growing s (powerfs_cap_issue kind s k bits).
Proof.
  unfold powerfs_cap_issue.
  match goal with |- context [on_cap s k ?f] => assert (H1 : growing s (on_cap s k f)) end.
  { apply on_cap_growing; [done| |intros c; apply sub_lor_l]. intros c [Hs Ht]. split; [|done]. cbn. auto with pfs. }
  apply (if_gen_growing (S_ISDIR kind && has bits POWERFS_CAP_FILE_SHARED &&
    negb (has (fst (powerfs_caps_issued s)) POWERFS_CAP_FILE_SHARED))) with
    (g := mk_gen (s32 (i_shared_gen (ci_gen s) + 1)) (i_rdcache_gen (ci_gen s)) false false) in H1.
  eapply if_gen_growing in H1.
  match goal with |- growing s (match i_auth_cap ?x with _ => _ end) => set (s3 := x) end.
  assert (H3 : growing s s3) by exact H1. clear H1.
  destruct (i_auth_cap s3) eqn:Ea; [done|]. destruct (cap_at (i_caps s3) k) eqn:Ek; [|done].
  eapply growing_trans; [exact H3|]. by apply set_auth_growing.
Qed.

Lemma insert_cap_issuers l c : cap_at l (issuer_id c) = None ->
  (forall k, cap_at (insert_cap l c) k = if k =? issuer_id c then Some c else cap_at l k) /\
  (forall P : powerfs_cap -> Prop, Forall P l -> P c -> Forall P (insert_cap l c)) /\
  (StronglySorted Z.lt (issuer_id <$> l) -> StronglySorted Z.lt (issuer_id <$> insert_cap l c)).
Proof.
  unfold cap_at. induction l as [|d l IH]; intros Hn; cbn [insert_cap List.find] in *.
  - split_and!; [|by constructor|by repeat constructor]. intros k. by rewrite Z.eqb_sym.
  - destruct (Z.eqb_spec (issuer_id d) (issuer_id c)) as [|Hne]; [done|].
    destruct (IH Hn) as (I1 & I2 & I3). destruct (Z.ltb_spec (issuer_id c) (issuer_id d)).
    + split_and!.
      * intros k. cbn [List.find]. by rewrite Z.eqb_sym.
      * intros P Hl Hc. by constructor.
      * intros Hs. cbn. constructor; [done|]. cbn in Hs. inversion Hs as [|? ? _ Hall]; subst. constructor; [done|].
        eapply Forall_impl; [exact Hall|]. cbn. lia.
    + rewrite Z.gtb_ltb, (proj2 (Z.ltb_lt _ _)) by lia. split_and!.
      * intros k. cbn [List.find]. destruct (Z.eqb_spec (issuer_id d) k) as [<-|]; [by rewrite (proj2 (Z.eqb_neq _ _) Hne)|].
        apply I1.
      * intros P Hl Hc. inversion Hl; subst. constructor; auto.
      * intros Hs. cbn in *. inversion Hs as [|? ? Hs' Hall]; subst. constructor; [auto|].
        assert (Hd : Forall (fun e => issuer_id d < issuer_id e) (insert_cap l c)).
        { apply I2; [|lia]. exact (proj1 (Forall_fmap _ _ _) Hall). }
        exact (proj2 (Forall_fmap _ _ _) Hd).
Qed.

Lemma auth_or_new_growing alloc s : growing s (snd (auth_or_new alloc s)).
Proof.
  unfold auth_or_new. destruct (i_auth_cap s) as [k|] eqn:Ea.
  { apply growing_refl. }
  unfold add_cap_for_inode_locked. destruct alloc; cbn [negb fst snd]; [|apply growing_refl].
  destruct (cap_at (i_caps s) 0) as [c|] eqn:Ec.
  { apply growing_refl. }
  rewrite Ea. set (c := mk_cap 0 0 0 0 0 1 [] 0 0 0 0).
  destruct (insert_cap_issuers (i_caps s) c Ec) as (I1 & I2 & I3).
  assert (Hat : forall k, cap_at (i_caps (set_caps s (insert_cap (i_caps s) c) (Some 0))) k =
                          if k =? 0 then Some c else cap_at (i_caps s) k) by exact I1.
  split; [split|].
  - intros (W1 & W2 & W3). split_and!; [by apply I3|apply I2; [done|]|].
    + split; [apply sub_refl|done].
    + intros k [= <-]. by rewrite Hat.
  - split; [|by rewrite Ea]. intros k Hk. rewrite Hat. by case_if.
  - intros k. unfold issued_of. rewrite Hat. destruct (Z.eqb_spec k 0) as [->|]; [|apply sub_refl].
    rewrite Ec. apply sub_0.
Qed.

(** ** Every operation obeys the guarantees *)

(** The tree is not touched. *)
Definition outside (s s' : cinode) : Prop := i_caps s' = i_caps s /\ i_auth_cap s' = i_auth_cap s.
Lemma outside_refl s : outside s s.
Proof. done. Qed.
Lemma outside_growing s s' : outside s s' -> growing s s'.
Proof. intros [H1 H2]. by apply growing_same. Qed.

(** Nor the placement of the file. *)
Definition kept (s s' : cinode) : Prop := outside s s' /\ placement (ci_layout s') = placement (ci_layout s).
Lemma kept_refl s : kept s s.
Proof. done. Qed.
Lemma kept_trans s1 s2 s3 : kept s1 s2 -> kept s2 s3 -> kept s1 s3.
Proof. intros [[A1 A2] A3] [[B1 B2] B3]. split; [split|]; congruence. Qed.
Lemma kept_growing s s' : kept s s' -> growing s s'.
Proof. intros [H _]. by apply outside_growing. Qed.

(** Walk through binds, branches and pairs; [tac] handles calls of other
    operations; sections that touch the tree are left over. *)
Ltac walk_with tac := repeat first
  [ match goal with |- forall _, _ => intro end
  | exact I
  | tac
  | apply obeys_bind | match goal with |- obeys ?G (call ?x) => exact (obeys_call G x) end | apply obeys_when
  | apply obeys_peek; first [exact kept_refl | exact growing_refl]
  | apply obeys_locked; intros ?; first [done | by apply growing_same]
  | match goal with
    | |- obeys _ (let '(_, _) := ?p in _) => destruct p
    | |- obeys _ (match ?p with (_, _) => _ end) => destruct p
    | |- obeys _ (if ?b then _ else _) => destruct b
    | |- obeys _ (match ?o with Some _ => _ | None => _ end) => destruct o
    end ].
Ltac walk := walk_with fail.

Lemma set_grant_ok tok e sn c :
  (forall t, tok = Some t -> blen t < 64) -> cap_ok c -> cap_ok (set_grant tok e sn c).
Proof. intros Ht [H1 H2]. split; [done|]. cbn. destruct tok; cbn; auto. Qed.

Lemma fitting_token_short g t : fitting_token g = Some t -> blen t < 64.
Proof.
  unfold fitting_token. case_if; [|done]. intros [= <-]. apply blen_token_string. lia.
Qed.

Lemma grant_fields_growing s k g : growing s (on_cap s k (open_grant_fields s g)).
Proof.
  apply on_cap_growing; [done| |intros c; apply sub_refl]. intros c Hc.
  assert (H := set_grant_ok (if blen (g_token g) >? 0 then Some (token_string (g_token g) (Z.min (blen (g_token g)) 63)) else None)
    (g_epoch g) (g_sn g) c). destruct H as [H1 H2]; [|done|by split].
  intros t. case_if; [|done]. intros [= <-]. apply blen_token_string. pose proof (blen_nonneg (g_token g)). lia.
Qed.

Lemma open_grant_obeys w : obeys growing (cap_open_grant_and_issue kind w).
Proof.
  unfold cap_open_grant_and_issue. walk. apply obeys_section_alloc. intros alloc s.
  pose proof (auth_or_new_growing alloc s) as H. destruct (auth_or_new alloc s) as [[k|] s1]; cbn [fst snd] in *; [|by split].
  split; [|done]. eapply growing_trans; [exact H|]. eapply growing_trans; [apply grant_fields_growing|apply cap_issue_growing].
Qed.

Lemma local_grant_obeys w : obeys growing (cap_open_grant_local kind w).
Proof.
  apply obeys_section_alloc. intros alloc s.
  pose proof (auth_or_new_growing alloc s) as H. destruct (auth_or_new alloc s) as [[k|] s1]; cbn [fst snd] in *; [|by split].
  split; [|done]. eapply growing_trans; [exact H|]. eapply growing_trans; [apply cap_issue_growing|].
  apply on_cap_growing; [done|by intros c [H1 H2]|]. intros c. apply sub_refl.
Qed.

Lemma upgrade_loop_obeys n w ret : obeys growing (upgrade_loop kind n w ret).
Proof.
  revert ret; induction n as [|n IH]; intros ret; [done|]. cbn [upgrade_loop].
  walk_with ltac:(first [apply open_grant_obeys | apply IH]).
Qed.

Lemma upgrade_obeys w : obeys growing (powerfs_upgrade_local_create kind w).
Proof.
  unfold powerfs_upgrade_local_create. walk_with ltac:(apply upgrade_loop_obeys).
  apply obeys_section. intros s. destruct (auth_has_token s); split; try done; [by apply growing_same|apply growing_refl].
Qed.

Lemma release_done_growing k g s :
  growing s (powerfs_cap_issue kind (on_cap s k (set_grant (fitting_token g) (g_epoch g) (g_sn g))) k
               (wire_capset_to_kernel_bits (g_caps g))).
Proof.
  eapply growing_trans; [|apply cap_issue_growing]. apply on_cap_growing; [done| |intros c; apply sub_refl].
  intros c. apply set_grant_ok, fitting_token_short.
Qed.

Lemma recall_ack_obeys k : obeys growing (cap_send_recall_ack kind k).
Proof. unfold cap_send_recall_ack. walk. apply obeys_section. intros s. split; [apply cap_issue_growing|done]. Qed.

Lemma release_obeys k : obeys growing (cap_send_release kind k).
Proof. unfold cap_send_release. walk. apply obeys_locked. intros s. apply release_done_growing. Qed.

Lemma push_xattrs_obeys keys : obeys kept (push_xattrs keys).
Proof. induction keys as [|key keys IH]; [done|]. cbn [push_xattrs]. walk_with ltac:(apply IH). Qed.

Lemma update_inline_obeys n i data : obeys kept (update_inline_loop n i data).
Proof. revert i; induction n as [|n IH]; intros i; [done|]. cbn [update_inline_loop]. walk_with ltac:(apply IH). Qed.

Lemma keep_inline_obeys ret err : obeys kept (keep_inline_dirty ret err).
Proof. unfold keep_inline_dirty. walk. Qed.

Lemma flush_inline_obeys b ret : obeys kept (flush_inline b ret).
Proof.
  unfold flush_inline. walk_with ltac:(apply keep_inline_obeys). apply obeys_section. intros s.
  case_if; [by split|]. split; [apply kept_refl|].
  cbn [snd]. walk_with ltac:(first [apply keep_inline_obeys | apply update_inline_obeys]).
Qed.

Lemma flush_steps_obeys tid bits b : obeys kept (flush_steps tid bits b).
Proof.
  unfold flush_steps, flush_data, flush_attr, flush_xattr, xattr_step, flush_finish, rollback.
  walk_with ltac:(first [apply push_xattrs_obeys | apply flush_inline_obeys]).
Qed.

(** A flush does not touch the capabilities. *)
Lemma flush_kept mask : obeys kept (powerfs_cap_flush mask).
Proof.
  unfold powerfs_cap_flush. walk. apply obeys_section_alloc. intros b s. cbn zeta.
  destruct (_ =? 0).
  - split; [apply kept_refl|]. cbn [snd]. walk. apply obeys_section. intros ?. by split.
  - unfold flush_take. match goal with |- context [if ?x then (None, s) else _] => destruct x end; cbn [fst snd].
    + by split.
    + split; [done|apply flush_steps_obeys].
Qed.

Lemma flush_obeys mask : obeys growing (powerfs_cap_flush mask).
Proof. eapply obeys_mono; [exact kept_growing|apply flush_kept]. Qed.

Lemma acquire_done_growing k g s : growing s (acquire_done kind k g s).
Proof.
  unfold acquire_done. eapply growing_trans; [|apply cap_issue_growing].
  apply on_cap_growing; [done| |intros c; apply sub_refl]. intros c Hc.
  destruct (set_grant_ok (fitting_token g) (g_epoch g) (g_sn g) c (fitting_token_short g) Hc) as [H1 H2]. by split.
Qed.

Lemma check_caps_obeys flags : obeys growing (powerfs_check_caps kind flags).
Proof.
  apply obeys_section. intros s. destruct (powerfs_caps_issued s) as [iss impl]. cbv beta iota zeta.
  case_if; [split; [apply growing_refl|]; cbn [snd]; walk_with ltac:(apply flush_obeys)|].
  destruct (i_auth_cap s) as [k|]; [|split; [apply growing_refl|done]].
  cbv beta iota zeta. case_if; [|split; [apply growing_refl|done]].
  cbv beta iota zeta. case_if; [split; [apply growing_refl|done]|].
  split; [apply growing_refl|]. cbn [snd]. walk. apply obeys_locked. apply acquire_done_growing.
Qed.

(** Only a recall takes bits away. *)
Lemma steady_of_growing {A} (p : cprog A) : obeys growing p -> obeys steady p.
Proof. apply obeys_mono. by intros s s' [H _]. Qed.

Lemma revoke_settle_steady k bits s : steady s (fst (revoke_settle k bits s)).
Proof.
  unfold revoke_settle.
  assert (H1 : steady s (on_cap s k settle_cap)).
  { apply on_cap_steady; [done|]. intros c [_ Ht]. split; [apply sub_refl|done]. }
  set (s1 := on_cap s k settle_cap) in *.
  assert (H2 : steady s (if has bits POWERFS_CAP_FILE_SHARED then drop_dir_complete s1 else s1)).
  { case_if; [|done]. eapply steady_trans; [exact H1|]. apply (gen_growing s1). }
  set (s2 := if has bits POWERFS_CAP_FILE_SHARED then _ else s1) in *.
  case_if; cbn [fst]; [|done]. case_if; [done|]. eapply steady_trans; [exact H2|]. by apply growing_same.
Qed.

Lemma revoke_tail_obeys k bits : obeys steady (revoke_tail kind k bits).
Proof.
  unfold revoke_tail. apply obeys_bind.
  - apply obeys_section. intros s. pose proof (revoke_settle_steady k bits s) as H.
    destruct (revoke_settle k bits s) as [s1 b]. split; [done|]. by destruct b.
  - intros []. apply steady_of_growing. walk_with ltac:(apply recall_ack_obeys).
Qed.

Lemma revoke_steady k bits s :
  steady s (fst (powerfs_cap_revoke kind k bits s)) /\ obeys steady (snd (powerfs_cap_revoke kind k bits s)).
Proof.
  unfold powerfs_cap_revoke. cbn [fst snd]. split.
  - apply on_cap_steady; [done|]. intros c [Hs Ht]. split; [|done]. cbn. eapply sub_trans; [apply sub_ldiff|done].
  - apply obeys_bind; [apply steady_of_growing; walk_with ltac:(apply flush_obeys)|]. intros _.
    apply obeys_bind; [apply steady_of_growing; walk|]. intros _. apply revoke_tail_obeys.
Qed.

Lemma notify_obeys live w : obeys steady (powerfs_cap_notify_work_func kind live w).
Proof.
  unfold powerfs_cap_notify_work_func. destruct live; cbn [negb]; [|done]. apply obeys_section. intros s.
  destruct (find_cap_by_token_locked s _ _) as [k|]; [|split; [apply growing_refl|done]].
  destruct (w_body w) as [recall retain e|granted e sn]; cbv zeta.
  - set (s1 := on_cap s k (set_epoch e)).
    assert (H1 : steady s s1) by (apply on_cap_steady; [done|by intros c [H1 H2]]).
    case_if; [|by split]. destruct (revoke_steady k (Z.ldiff (issued_of s k) (wire_capset_to_kernel_bits retain)) s1) as [H2 H3].
    split; [|done]. by eapply steady_trans.
  - split; [|done]. cbn [fst]. eapply steady_trans; [|apply cap_issue_growing].
    apply on_cap_steady; [done|]. intros c. by apply set_grant_ok.
Qed.

Lemma upgrade_notify_obeys live t n g e sn :
  obeys growing (powerfs_cap_notify_work_func kind live (mk_notify t n (CAP_NOTIFY_UPGRADE g e sn))).
Proof.
  unfold powerfs_cap_notify_work_func. destruct live; cbn [negb]; [|done]. apply obeys_section. intros s.
  destruct (find_cap_by_token_locked s _ _) as [k|]; [|split; [apply growing_refl|done]].
  split; [|done]. cbn [fst w_body]. eapply growing_trans; [|apply cap_issue_growing].
  apply on_cap_growing; [done| |intros c; apply sub_refl]. intros c. by apply set_grant_ok.
Qed.

Lemma put_refs_obeys had : obeys growing (powerfs_cap_put_refs kind had).
Proof.
  apply obeys_section. intros s. unfold drop_refs. split; [by apply growing_same|]. cbn [snd].
  walk_with ltac:(apply check_caps_obeys).
Qed.

Lemma try_section_obeys need want : obeys growing (try_section need want).
Proof.
  apply obeys_section. intros s. unfold try_get_cap_refs_locked. destruct (powerfs_caps_issued s) as [iss impl].
  case_if; [split; [by apply growing_same|done]|]. split; [apply growing_refl|done].
Qed.

Lemma get_caps_obeys n need want r : obeys growing (get_caps_loop kind n need want r).
Proof.
  revert r; induction n as [|n IH]; intros r; [done|]. cbn [get_caps_loop].
  walk_with ltac:(first [apply try_section_obeys | apply check_caps_obeys | apply IH]).
Qed.

Lemma renew_obeys b : obeys growing (renew_inode kind b).
Proof. unfold renew_inode. walk_with ltac:(first [apply open_grant_obeys | apply flush_obeys]). Qed.

(** *** The query that touches the LRU stamps *)

Definition touched (now : Z) (c d : powerfs_cap) : Prop := d = c \/ d = touch_cap now c.

Lemma touched_refl now l : Forall2 (touched now) l l.
Proof. induction l; constructor; [by left|done]. Qed.

Lemma issued_mask_loop_touched now mask t have before rest l :
  issued_mask_loop now mask t have before rest = Some l -> Forall2 (touched now) (before ++ rest) l.
Proof.
  revert have before. induction rest as [|c rest IH]; intros have before; [done|]. cbn [issued_mask_loop].
  assert (Hc : forall l1, Forall2 (touched now) before l1 ->
    Forall2 (touched now) (before ++ c :: rest) (l1 ++ (if t then touch_cap now c else c) :: rest)).
  { intros l1 H. apply Forall2_app; [done|]. constructor; [|apply touched_refl]. destruct t; [by right|by left]. }
  assert (Hnext : forall h, issued_mask_loop now mask t h (before ++ [c]) rest = Some l -> Forall2 (touched now) (before ++ c :: rest) l).
  { intros h H. apply IH in H. by rewrite <- app_assoc in H. }
  case_if; [apply Hnext|]. case_if; [intros [= <-]; apply Hc, touched_refl|].
  case_if; [|apply Hnext]. intros [= <-]. apply Hc. destruct t; [|apply touched_refl].
  apply Forall2_fmap_r, Forall_Forall2_diag, Forall_forall. intros d _. unfold compose. case_if; [by right|by left].
Qed.

Lemma touched_growing s l now :
  Forall2 (touched now) (i_caps s) l -> growing s (set_caps s l (i_auth_cap s)).
Proof.
  intros H. assert (Hat : forall k, (cap_at (i_caps s) k = None /\ cap_at l k = None) \/
    exists c d, cap_at (i_caps s) k = Some c /\ cap_at l k = Some d /\ touched now c d).
  { intros k. unfold cap_at. induction H as [|c d l1 l2 Hcd _ IH]; [by left|]. cbn [List.find].
    assert (E : issuer_id d = issuer_id c) by (by destruct Hcd as [-> | ->]). rewrite E.
    case_if; [right; eauto|exact IH]. }
  split; [split|].
  - intros (W1 & W2 & W3). split_and!; cbn [i_caps i_auth_cap set_caps].
    + replace (issuer_id <$> l) with (issuer_id <$> i_caps s); [done|].
      clear -H. induction H as [|c d l1 l2 Hcd _ IH]; [done|]. cbn. f_equal; [by destruct Hcd as [-> | ->]|done].
    + clear -H W2. induction H as [|c d l1 l2 Hcd _ IH]; [done|]. inversion W2; subst.
      constructor; [by destruct Hcd as [-> | ->]|auto].
    + intros k Hk. destruct (Hat k) as [[H1 _]|(c & d & _ & -> & _)]; [|done]. destruct (W3 k Hk). congruence.
  - split; [|done]. cbn [i_caps set_caps]. intros k [c Hc]. destruct (Hat k) as [[H1 _]|(c' & d & _ & -> & _)]; [congruence|done].
  - intros k. unfold issued_of. cbn [i_caps set_caps].
    destruct (Hat k) as [[-> ->]|(c & d & -> & -> & Hcd)]; [apply sub_refl|]. destruct Hcd as [-> | ->]; apply sub_refl.
Qed.

Lemma issued_mask_growing s mask t : growing s (snd (powerfs_caps_issued_mask s mask t)).
Proof.
  unfold powerfs_caps_issued_mask. case_if; [apply growing_refl|].
  destruct (issued_mask_loop _ _ _ _ _ _) as [l|] eqn:El; [|apply growing_refl].
  apply (touched_growing s l (jiffies s)), (issued_mask_loop_touched _ _ _ _ _ _ _ El).
Qed.

(** ** Interleavings *)

(** The entry points of the component. *)
Inductive cap_op :=
| OpenGrant (is_write : bool) | GrantLocal (is_write : bool) | UpgradeLocal (is_write : bool)
| Notify (live : bool) (w : powerfs_cap_notify_work) | SendRelease (k : Z) | Quiesce (k : Z)
| Flush (mask : Z) | MarkDirty (bits : Z) | CheckCaps (flags : Z)
| GetRefs (got : Z) | PutRefs (had : Z) | TryGetCaps (need want : Z) | GetCaps (need want : Z)
| IssuedMask (mask : Z) (touch : bool) | Renew (shutting_down : bool).

Definition forget {A} (p : cprog A) : cprog unit := _ ← p; Ret tt.

Definition op_prog (o : cap_op) : cprog unit :=
  match o with
  | OpenGrant w => forget (cap_open_grant_and_issue kind w)
  | GrantLocal w => forget (cap_open_grant_local kind w)
  | UpgradeLocal w => forget (powerfs_upgrade_local_create kind w)
  | Notify live w => powerfs_cap_notify_work_func kind live w
  | SendRelease k => forget (cap_send_release kind k)
  | Quiesce k => quiesce_one kind k
  | Flush mask => forget (powerfs_cap_flush mask)
  | MarkDirty bits => powerfs_cap_mark_dirty bits
  | CheckCaps flags => powerfs_check_caps kind flags
  | GetRefs got => powerfs_cap_get_refs got
  | PutRefs had => powerfs_cap_put_refs kind had
  | TryGetCaps need want => forget (powerfs_try_get_caps kind need want)
  | GetCaps need want => forget (powerfs_get_caps kind need want)
  | IssuedMask mask touch => locked (fun s => snd (powerfs_caps_issued_mask s mask touch))
  | Renew b => renew_inode kind b
  end.

Definition is_recall (o : cap_op) : bool :=
  match o with Notify _ (mk_notify _ _ (CAP_NOTIFY_RECALL _ _ _)) => true | _ => false end.

(** A pool of operations on one inode; operations that satisfy [allowed] are
    started at any time. *)
Definition pool_step (allowed : cap_op -> Prop) :=
  Prog.pool_step outside (fun p => exists o, allowed o /\ p = op_prog o).

Lemma op_obeys_growing o : is_recall o = false -> obeys growing (op_prog o).
Proof.
  destruct o as [w|w|w|live [t n [r m e|g e sn]]|k|k|mask|bits|flags|got|had|need want|need want|mask t|b]; intros Hr;
    cbn [op_prog]; unfold forget; try done.
  - walk_with ltac:(apply open_grant_obeys).
  - walk_with ltac:(apply local_grant_obeys).
  - walk_with ltac:(apply upgrade_obeys).
  - apply upgrade_notify_obeys.
  - walk_with ltac:(apply release_obeys).
  - unfold quiesce_one. walk_with ltac:(apply release_obeys).
  - walk_with ltac:(apply flush_obeys).
  - intros b s. split; [by apply growing_same|done].
  - apply check_caps_obeys.
  - intros b s. split; [by apply growing_same|done].
  - apply put_refs_obeys.
  - unfold powerfs_try_get_caps. walk_with ltac:(first [apply try_section_obeys | apply check_caps_obeys]).
  - unfold powerfs_get_caps. walk_with ltac:(apply get_caps_obeys).
  - apply obeys_locked. intros s. apply issued_mask_growing.
  - apply renew_obeys.
Qed.

Lemma op_obeys_steady o : obeys steady (op_prog o).
Proof.
  destruct (is_recall o) eqn:E; [|by apply steady_of_growing, op_obeys_growing].
  destruct o as [| | |live w| | | | | | | | | | |]; try done. apply notify_obeys.
Qed.

(** ** Flush *)

Definition dirty_grows (s s' : cinode) : Prop := sub (i_dirty_caps s) (i_dirty_caps s').

(** The inode is an Inline file with data that the filer does not have. *)
Definition has_payload (s : cinode) : Prop :=
  inline_file s = true /\ inline_dirty (pi_inline (ci_layout s)) = true /\
  inline_data (pi_inline (ci_layout s)) <> None /\ inline_len (pi_inline (ci_layout s)) <> 0.

#[global] Instance has_payload_dec s : Decision (has_payload s).
Proof. unfold has_payload. apply _. Defined.

Lemma sub_nonzero a b : sub a b -> a <> 0 -> b <> 0.
Proof.
  intros H Ha ->. apply Ha. apply Z.bits_inj'. intros n Hn. rewrite Z.bits_0.
  destruct (Z.testbit a n) eqn:Ea; [|done]. apply (H n Hn) in Ea. by rewrite Z.bits_0 in Ea.
Qed.

(** Other threads may mark bits dirty and rewrite inline data, but do not
    flush, commit or truncate this inode. *)
Definition undisturbed (s s' : cinode) : Prop := dirty_grows s s' /\ (has_payload s -> has_payload s').

(** The bits a call writes back, and whether it failed. *)
Definition served (x : ext) : Z :=
  match x with
  | X_write_and_wait _ | X_sync_size_chunks => POWERFS_CAP_WR_DATA
  | X_setattr => POWERFS_CAP_AUTH_EXCL
  | X_xattr_list _ | X_setxattr _ _ => POWERFS_CAP_XATTR_EXCL
  | _ => 0
  end.

Definition failed (e : event) : bool :=
  match e with
  | Ev x v =>
      match x return ans x -> bool with
      | X_write_and_wait _ | X_sync_size_chunks | X_setattr | X_setxattr _ _ => fun r => r <? 0
      | X_xattr_list _ => fun r => fst r <? 0
      | _ => fun _ => false
      end v
  end.

Definition quiet (tr : list event) : Prop := Forall (fun e => failed e = false) tr.

(** The inline payload reached the filer, or was moved to a volume because the
    filer had chosen another layout. *)
Definition delivers (e : event) : Prop :=
  match e with
  | Ev x v =>
      match x return ans x -> Prop with
      | X_update_inline _ => fun r => r = 0
      | X_align_inline => fun r => 0 < r
      | _ => fun _ => False
      end v
  end.
Definition delivered (tr : list event) : Prop := Exists delivers tr.

(** [class] has been written back in [tr]: some call served it. *)
Definition attempted (class : Z) (tr : list event) : Prop := Exists (fun e => served (ev_call e) = class) tr.

(** Outcome of one step for the bits [need] of [class]: either it is quiet
    and the result is unchanged, or the bits are dirty again and the result is
    an error. *)
Definition step_outcome (class need : Z) (s : cinode) (tr : list event) (ret0 ret1 : Z) (s' : cinode) : Prop :=
  undisturbed s s' /\
  Forall (fun e => served (ev_call e) = 0 \/ served (ev_call e) = class) tr /\
  ((quiet tr /\ ret1 = ret0 /\ (need <> 0 -> attempted class tr)) \/
   (sub need (i_dirty_caps s') /\ exists e, e <> 0 /\ ret1 = or_else ret0 e)).

Lemma dirty_grows_trans s1 s2 s3 : dirty_grows s1 s2 -> dirty_grows s2 s3 -> dirty_grows s1 s3.
Proof. apply sub_trans. Qed.
Lemma dirty_grows_refl s : dirty_grows s s.
Proof. apply sub_refl. Qed.
Lemma undisturbed_trans s1 s2 s3 : undisturbed s1 s2 -> undisturbed s2 s3 -> undisturbed s1 s3.
Proof. intros [H1 H2] [H3 H4]. split; [by eapply dirty_grows_trans|auto]. Qed.
Lemma undisturbed_refl s : undisturbed s s.
Proof. split; [apply dirty_grows_refl|done]. Qed.

Lemma runs_rollback bits s tr a s' :
  runs undisturbed (rollback bits) s tr a s' -> tr = [] /\ undisturbed s s' /\ sub bits (i_dirty_caps s').
Proof.
  intros H. apply runs_locked in H as (s0 & [HR HP] & -> & ->). split_and!; [done| |apply sub_lor_r].
  split; [eapply sub_trans; [exact HR|apply sub_lor_l]|exact HP].
Qed.

(** A step that ended well. *)
Lemma outcome_quiet class need s tr ret s' :
  undisturbed s s' -> Forall (fun e => served (ev_call e) = 0 \/ served (ev_call e) = class) tr -> quiet tr ->
  (need <> 0 -> attempted class tr) -> step_outcome class need s tr ret ret s'.
Proof. intros. split_and!; auto. Qed.

(** A step that failed with [e] and put its bits back. *)
Lemma outcome_failed class need s s1 tr tr' ret e ret' s' u :
  undisturbed s s1 -> Forall (fun e => served (ev_call e) = 0 \/ served (ev_call e) = class) tr -> e <> 0 ->
  runs undisturbed (_ ← rollback need; Ret (or_else ret e)) s1 tr' ret' s' -> tr ++ tr' = u ->
  step_outcome class need s u ret ret' s'.
Proof.
  intros Hg Hf He H <-. apply runs_bind in H as (t1 & t2 & a & s2 & -> & H1 & (-> & -> & ->)).
  apply runs_rollback in H1 as (-> & G & D). rewrite !app_nil_r.
  split_and!; [by eapply undisturbed_trans|done|]. right. eauto.
Qed.

Lemma or_else_0 e : or_else 0 e = e.
Proof. done. Qed.

(** Which bits the calls of a concrete trace serve. *)
Ltac classes := repeat (apply List.Forall_cons; [first [by left|by right]|]); apply List.Forall_nil.
Lemma flush_data_outcome need s tr ret s' :
  runs undisturbed (flush_data need) s tr ret s' -> step_outcome POWERFS_CAP_WR_DATA need s tr 0 ret s'.
Proof.
  unfold flush_data. intros H. case_run H.
  { destruct H as (-> & -> & ->). apply outcome_quiet; [apply undisturbed_refl|constructor|constructor|done]. }
  apply runs_peek_bind in H as (s0 & G0 & H). apply runs_call_bind in H as (err & t & -> & H). case_run H.
  { eapply outcome_failed with (tr := [_]) (e := err); [exact G0| | |exact H|reflexivity]; [classes|lia]. }
  apply runs_peek_bind in H as (s1 & G1 & H). case_run H.
  - apply runs_call_bind in H as (cerr & t1 & -> & H). case_run H.
    + eapply outcome_failed with (tr := [_; _]) (e := cerr);
        [by eapply undisturbed_trans| | |exact H|reflexivity]; [classes|lia].
    + destruct H as (-> & -> & ->). apply outcome_quiet;
        [by eapply undisturbed_trans|classes|repeat constructor; by apply Z.ltb_ge|by constructor].
  - destruct H as (-> & -> & ->). apply outcome_quiet;
      [by eapply undisturbed_trans|classes|repeat constructor; by apply Z.ltb_ge|by constructor].
Qed.

Lemma flush_attr_outcome need ret0 s tr ret s' :
  runs undisturbed (flush_attr need ret0) s tr ret s' -> step_outcome POWERFS_CAP_AUTH_EXCL need s tr ret0 ret s'.
Proof.
  unfold flush_attr. intros H. case_run H.
  { destruct H as (-> & -> & ->). apply outcome_quiet; [apply undisturbed_refl|constructor|constructor|done]. }
  apply runs_call_bind in H as (err & t & -> & H). case_run H.
  - eapply outcome_failed with (tr := [_]) (e := err); [apply undisturbed_refl| | |exact H|reflexivity]; [classes|lia].
  - destruct H as (-> & -> & ->). apply outcome_quiet;
      [apply undisturbed_refl|classes|repeat constructor; by apply Z.ltb_ge|by constructor].
Qed.
(** Calls of the class [c] or of none, and no failure when [r] is 0. *)
Definition clean_calls (c : Z) (tr : list event) (r : Z) : Prop :=
  Forall (fun e => served (ev_call e) = 0 \/ served (ev_call e) = c) tr /\ (r = 0 -> quiet tr).

Lemma clean_cons c e tr r :
  served (ev_call e) = 0 \/ served (ev_call e) = c -> failed e = false -> clean_calls c tr r -> clean_calls c (e :: tr) r.
Proof. intros H1 H2 [H3 H4]. split; [by constructor|]. intros Hr. constructor; [done|by apply H4]. Qed.
Lemma clean_nil c r : clean_calls c [] r.
Proof. split; [constructor|intros; constructor]. Qed.
Lemma clean_error c e tr r : Forall (fun e => served (ev_call e) = 0 \/ served (ev_call e) = c) (e :: tr) -> r <> 0 ->
  clean_calls c (e :: tr) r.
Proof. by split. Qed.

Lemma push_xattrs_clean R keys s tr r s' :
  runs R (push_xattrs keys) s tr r s' -> s' = s /\ clean_calls POWERFS_CAP_XATTR_EXCL tr r.
Proof.
  revert tr. induction keys as [|key keys IH]; intros tr H; cbn [push_xattrs] in H.
  { destruct H as (-> & -> & ->). split; [done|apply clean_nil]. }
  apply runs_call_bind in H as ([vsize v0] & t & -> & H). case_run H.
  { apply IH in H as [-> H]. split; [done|]. apply clean_cons; auto. }
  apply runs_call_bind in H as (ok & t1 & -> & H). case_run H.
  { destruct H as (-> & -> & ->). split; [done|]. repeat (apply clean_cons; auto). apply clean_nil. }
  apply runs_bind in H as (t2 & t3 & [gotv val] & s1 & -> & H1 & H).
  assert (H2 : s1 = s /\ clean_calls POWERFS_CAP_XATTR_EXCL t2 0 /\ quiet t2).
  { case_run H1; [apply runs_call in H1 as [-> ->]|destruct H1 as (-> & _ & ->)]; split_and!; try done.
    - apply clean_cons; auto. apply clean_nil.
    - by repeat constructor.
    - apply clean_nil.
    - constructor. }
  destruct H2 as (-> & [C2 _] & Q2).
  assert (Happ : forall u q, clean_calls POWERFS_CAP_XATTR_EXCL u q -> clean_calls POWERFS_CAP_XATTR_EXCL (t2 ++ u) q).
  { intros u q [D1 D2]. split; [by apply Forall_app|]. intros Hq. apply Forall_app. split; [exact Q2|by apply D2]. }
  case_run H.
  { destruct H as (-> & -> & ->). split; [done|]. repeat (apply clean_cons; auto). apply Happ, clean_nil. }
  apply runs_call_bind in H as (q & t4 & -> & H). case_run H.
  - destruct H as (-> & -> & ->). split; [done|]. repeat (apply clean_cons; auto). apply Happ. apply clean_error; [classes|lia].
  - apply IH in H as [-> H]. split; [done|]. repeat (apply clean_cons; auto). apply Happ.
    apply clean_cons; [by right|by apply Z.ltb_ge|done].
Qed.

Lemma xattr_step_clean R s tr r s' :
  runs R xattr_step s tr r s' ->
  s' = s /\ clean_calls POWERFS_CAP_XATTR_EXCL tr r /\ attempted POWERFS_CAP_XATTR_EXCL tr.
Proof.
  unfold xattr_step. intros H. apply runs_call_bind in H as ([sz v] & t & -> & H).
  assert (Ha : attempted POWERFS_CAP_XATTR_EXCL (Ev (X_xattr_list 0) (sz, v) :: t)) by (by constructor). case_run H.
  { destruct H as (-> & -> & ->). split_and!; [done| |done]. apply clean_error; [classes|lia]. }
  assert (Hc : forall q, clean_calls POWERFS_CAP_XATTR_EXCL t q ->
               clean_calls POWERFS_CAP_XATTR_EXCL (Ev (X_xattr_list 0) (sz, v) :: t) q).
  { intros q Hq. apply clean_cons; [by right|by apply Z.ltb_ge|done]. }
  case_run H.
  { destruct H as (-> & -> & ->). split_and!; [done| |done]. apply Hc, clean_nil. }
  apply runs_call_bind in H as (ok & t1 & -> & H). case_run H.
  { destruct H as (-> & -> & ->). split_and!; [done| |done]. apply Hc. apply clean_cons; auto. apply clean_nil. }
  apply runs_call_bind in H as ([got buf] & t2 & -> & H). case_run H.
  { destruct H as (-> & -> & ->). split_and!; [done| |done]. apply Hc. apply clean_cons; auto.
    apply clean_error; [classes|]. case_if; unfold EIO; lia. }
  apply push_xattrs_clean in H as [-> H]. split_and!; [done| |done]. apply Hc. apply clean_cons; auto.
  apply clean_cons; [by right|apply Z.ltb_ge; cbn; lia|done].
Qed.

Lemma flush_xattr_outcome need ret0 s tr ret s' :
  runs undisturbed (flush_xattr need ret0) s tr ret s' -> step_outcome POWERFS_CAP_XATTR_EXCL need s tr ret0 ret s'.
Proof.
  unfold flush_xattr. intros H. case_run H.
  { destruct H as (-> & -> & ->). apply outcome_quiet; [apply undisturbed_refl|constructor|constructor|done]. }
  apply runs_bind in H as (t1 & t2 & e & s1 & -> & H1 & H). apply xattr_step_clean in H1 as (-> & [C1 C2] & Ha).
  case_run H.
  - destruct H as (-> & -> & ->). rewrite app_nil_r. apply outcome_quiet; auto. apply undisturbed_refl.
  - eapply outcome_failed; [apply undisturbed_refl|exact C1|exact E0|exact H|done].
Qed.

(** The inline step serves no bit; it ends well or with an error.  A payload
    is delivered or, with an error, still there. *)
Definition inline_outcome (need : bool) (s : cinode) (tr : list event) (ret0 ret1 : Z) (s' : cinode) : Prop :=
  dirty_grows s s' /\ Forall (fun e => served (ev_call e) = 0) tr /\ quiet tr /\
  (ret1 = ret0 \/ exists e, e <> 0 /\ ret1 = or_else ret0 e) /\
  (need = true -> has_payload s ->
   (delivered tr /\ ret1 = ret0) \/ (has_payload s' /\ exists e, e <> 0 /\ ret1 = or_else ret0 e)).

Definition idle (tr : list event) : Prop := Forall (fun e => served (ev_call e) = 0) tr /\ quiet tr.

Lemma idle_nil : idle [].
Proof. split; constructor. Qed.
Lemma idle_cons e tr : served (ev_call e) = 0 -> failed e = false -> idle tr -> idle (e :: tr).
Proof. intros H1 H2 [H3 H4]. split; by constructor. Qed.
Lemma idle_app t u : idle t -> idle u -> idle (t ++ u).
Proof. intros [H1 H2] [H3 H4]. split; by apply Forall_app. Qed.

Lemma keep_inline_outcome b ret err s tr r s' :
  err <> 0 -> runs undisturbed (keep_inline_dirty ret err) s tr r s' -> inline_outcome b s tr ret r s'.
Proof.
  intros He H. apply runs_locked_bind in H as (s0 & [G HP] & (-> & -> & ->)).
  split_and!; [exact G|constructor|constructor|right; eauto|]. intros _ Hp. right. split; [|eauto].
  destruct (HP Hp) as (P1 & P2 & P3 & P4). by split_and!.
Qed.

Lemma update_inline_idle R n i data s tr r s' :
  runs R (update_inline_loop n i data) s tr r s' -> s' = s /\ idle tr /\ (r = true -> delivered tr).
Proof.
  revert i s tr; induction n as [|n IH]; intros i s tr H; cbn [update_inline_loop] in H.
  { destruct H as (-> & -> & ->). split_and!; [done|apply idle_nil|done]. }
  apply runs_call_bind in H as (v & t & -> & H). case_run H.
  { destruct H as (-> & -> & ->). split_and!; [done|apply idle_cons; auto; apply idle_nil|]. intros _. by constructor. }
  apply runs_bind in H as (t1 & t2 & [] & s1 & -> & H1 & H). apply IH in H as (-> & H & D).
  case_run H1; [apply runs_call in H1 as [-> ->]|destruct H1 as (-> & _ & ->)]; 
    (split_and!; [done|repeat (apply idle_cons; auto)|]; intros Hr; repeat apply Exists_cons_tl; by apply D).
Qed.

Lemma inline_cons b e s tr ret0 ret1 s' :
  served (ev_call e) = 0 -> failed e = false -> inline_outcome b s tr ret0 ret1 s' -> inline_outcome b s (e :: tr) ret0 ret1 s'.
Proof.
  intros H1 H2 (A1 & A2 & A3 & A4 & A5). split_and!; [done|by constructor|by constructor|done|].
  intros Hb Hp. destruct (A5 Hb Hp) as [[D R]|K]; [left; split; [by apply Exists_cons_tl|done]|by right].
Qed.

Lemma inline_before b s1 s2 tr ret0 ret1 s' :
  undisturbed s1 s2 -> inline_outcome b s2 tr ret0 ret1 s' -> inline_outcome b s1 tr ret0 ret1 s'.
Proof. intros [H HP] (A1 & A2 & A3 & A4 & A5). split_and!; auto. by eapply dirty_grows_trans. Qed.

Lemma inline_nothing s s' ret : dirty_grows s s' -> (has_payload s -> False) -> inline_outcome true s [] ret ret s'.
Proof. intros H Hn. split_and!; [done|constructor|constructor|by left|]. by intros _ []%Hn. Qed.

Lemma flush_inline_outcome b ret0 s tr ret s' :
  runs undisturbed (flush_inline b ret0) s tr ret s' -> inline_outcome b s tr ret0 ret s'.
Proof.
  unfold flush_inline. intros H. destruct b; cbn [negb] in H.
  2:{ destruct H as (-> & -> & ->). split_and!; [apply dirty_grows_refl|constructor|constructor|by left|done]. }
  apply runs_call_bind in H as (aret & t & -> & H). case_run H.
  { apply inline_cons; [done|done|]. eapply keep_inline_outcome; [|exact H]. lia. }
  case_run H.
  { destruct H as (-> & -> & ->). split_and!; [apply dirty_grows_refl|by repeat constructor|by repeat constructor|by left|].
    intros _ _. left. split; [|done]. constructor. cbn. lia. }
  apply inline_cons; [done|done|].
  apply runs_section in H as (s0 & G & H). apply (inline_before _ _ s0); [done|].
  destruct (bool_decide (inline_data _ = None) || _) eqn:Eb; cbn [fst snd] in H.
  { destruct H as (-> & -> & ->). apply inline_nothing; [exact (dirty_grows_refl s0)|].
    intros (_ & _ & P3 & P4). apply orb_true_iff in Eb as [Eb|Eb]; [by apply bool_decide_eq_true in Eb|lia]. }
  apply runs_call_bind in H as (ok & t1 & -> & H). apply inline_cons; [done|done|]. case_run H.
  { eapply keep_inline_outcome; [|exact H]. done. }
  apply runs_peek_bind in H as (s1 & G1 & H). apply (inline_before _ _ s1); [done|]. case_run H.
  2:{ eapply keep_inline_outcome; [|exact H]. done. }
  apply runs_bind in H as (t2 & t3 & synced & s2 & -> & Hu & H). apply update_inline_idle in Hu as (-> & [I1 I2] & Hd).
  assert (Hr : inline_outcome true s1 t3 ret0 ret s' \/ (delivered t2 /\ t3 = [] /\ ret = ret0 /\ dirty_grows s1 s')).
  { case_run H; [right|left; eapply keep_inline_outcome; [|exact H]; done].
    apply runs_locked_bind in H as (s3 & [G3 _] & (-> & -> & ->)). split_and!; [by apply Hd|done|done|exact G3]. }
  destruct Hr as [(A1 & A2 & A3 & A4 & A5)|(D & -> & -> & G2)].
  - split_and!; auto; [by apply Forall_app|by apply Forall_app|].
    intros Hb Hp. destruct (A5 Hb Hp) as [[D R]|K]; [left; split; [by apply Exists_app; right|done]|by right].
  - rewrite app_nil_r. split_and!; auto.
Qed.

(** A bit of [class] has been written back: a call served it and none failed. *)
Definition written (class : Z) (tr : list event) : Prop :=
  attempted class tr /\ Forall (fun e => served (ev_call e) = class -> failed e = false) tr.

Lemma quiet_written class tr tr' tr'' :
  quiet tr -> attempted class tr -> Forall (fun e => served (ev_call e) <> class) (tr' ++ tr'') ->
  written class (tr' ++ tr ++ tr'').
Proof.
  intros Hq Ha Hn. apply Forall_app in Hn as [N1 N2]. split; [apply Exists_app; right; apply Exists_app; by left|].
  apply Forall_app. split; [eapply Forall_impl; [exact N1|]; done|].
  apply Forall_app. split; [eapply Forall_impl; [exact Hq|]; done|eapply Forall_impl; [exact N2|]; done].
Qed.

Lemma or_else_chain ret e : e <> 0 -> or_else ret e <> 0.
Proof. unfold or_else. intros He. case_if; [done|]. done. Qed.

Lemma outcome_ret class need s tr ret0 ret1 s' :
  step_outcome class need s tr ret0 ret1 s' -> ret1 = 0 -> ret0 = 0 /\ quiet tr /\ (need <> 0 -> attempted class tr).
Proof.
  intros (_ & _ & [(Q & -> & A)|(_ & e & He & ->)]) Hr; [done|]. by apply (or_else_chain ret0) in He.
Qed.

Lemma class_ne : POWERFS_CAP_WR_DATA <> POWERFS_CAP_AUTH_EXCL /\ POWERFS_CAP_WR_DATA <> POWERFS_CAP_XATTR_EXCL /\
  POWERFS_CAP_AUTH_EXCL <> POWERFS_CAP_XATTR_EXCL /\ POWERFS_CAP_WR_DATA <> 0 /\ POWERFS_CAP_AUTH_EXCL <> 0 /\
  POWERFS_CAP_XATTR_EXCL <> 0.
Proof. by vm_compute. Qed.

Lemma not_served c d (tr : list event) :
  c <> 0 -> c <> d -> Forall (fun e => served (ev_call e) = 0 \/ served (ev_call e) = d) tr ->
  Forall (fun e => served (ev_call e) <> c) tr.
Proof. intros H0 Hd H. eapply Forall_impl; [exact H|]. cbv beta. intros e [-> | ->]; congruence. Qed.

(** All the steps of a flush of [bits]. *)
Lemma flush_steps_outcome tid bits b s tr ret s' :
  runs undisturbed (flush_steps tid bits b) s tr ret s' ->
  dirty_grows s s' /\ (ret = 0 -> quiet tr) /\
  (b = true -> has_payload s -> delivered tr \/ (ret <> 0 /\ has_payload s')) /\
  forall class, class ∈ [POWERFS_CAP_WR_DATA; POWERFS_CAP_AUTH_EXCL; POWERFS_CAP_XATTR_EXCL] ->
    Z.land bits class <> 0 -> sub (Z.land bits class) (i_dirty_caps s') \/ written class tr.
Proof.
  unfold flush_steps. intros H.
  apply runs_bind in H as (t1 & u1 & r1 & s1 & -> & H1 & H). apply flush_data_outcome in H1.
  apply runs_bind in H as (t2 & u2 & r2 & s2 & -> & H2 & H). apply flush_attr_outcome in H2.
  apply runs_bind in H as (t3 & u3 & r3 & s3 & -> & H3 & H). apply flush_xattr_outcome in H3.
  apply runs_bind in H as (t4 & u4 & r4 & s4 & -> & H4 & H). apply flush_inline_outcome in H4.
  apply runs_locked_bind in H as (s5 & G5 & H). apply runs_call_bind in H as ([] & t5 & -> & (-> & -> & ->)).
  destruct H4 as (G4 & S4 & Q4 & R4 & P4). destruct G5 as [G5 P5].
  assert (G54 : dirty_grows s4 (set_flush (set_dirty s5 (i_dirty_caps s5) 0) (mk_fl true
    (filter (λ t : Z, t ≠ tid) (i_cap_flush_list (ci_flush s5))) (i_release_count (ci_flush s5))))) by exact G5.
  set (sf := set_flush _ _) in *. assert (P54 : has_payload s4 -> has_payload sf) by exact P5. clearbody sf.
  pose proof H1 as ([G1 P1] & S1 & O1). pose proof H2 as ([G2 P2] & S2 & O2). pose proof H3 as ([G3 P3] & S3 & O3).
  assert (G3f : dirty_grows s3 sf) by (by eapply dirty_grows_trans). assert (G2f : dirty_grows s2 sf) by (by eapply dirty_grows_trans).
  assert (G1f : dirty_grows s1 sf) by (by eapply dirty_grows_trans).
  split_and!; [by eapply dirty_grows_trans| | |].
  - intros ->. assert (r3 = 0) as -> by (destruct R4 as [<-|(e & He & Hr)]; [done|by apply (or_else_chain r3) in He]).
    destruct (outcome_ret _ _ _ _ _ _ _ H3 eq_refl) as (-> & Q3 & _).
    destruct (outcome_ret _ _ _ _ _ _ _ H2 eq_refl) as (-> & Q2 & _).
    destruct (outcome_ret _ _ _ _ _ _ _ H1 eq_refl) as (_ & Q1 & _).
    repeat (apply Forall_app; split); try done. by repeat constructor.
  - intros Hb Hp. destruct (P4 Hb (P3 (P2 (P1 Hp)))) as [[D _]|(K & e & He & ->)]; [left|right; split; [by apply or_else_chain|auto]].
    apply Exists_app; right. apply Exists_app; right. apply Exists_app; right. apply Exists_app; by left.
  - destruct class_ne as (N1 & N2 & N3 & Z1 & Z2 & Z3).
    assert (W4 : forall c, c <> 0 -> Forall (fun e => served (ev_call e) <> c) (t4 ++ [Ev X_wake_up tt])).
    { intros c Hc. apply Forall_app. split; [eapply Forall_impl; [exact S4|]; cbv beta; congruence|].
      constructor; [|constructor]. cbn. congruence. }
    intros class Hc Hne. inv_elem.
    + destruct O1 as [(Q & _ & A)|(D & _)]; [right|left; by eapply sub_trans].
      apply (quiet_written _ t1 []); [done|auto|]. cbn [app].
      apply Forall_app; split; [by eapply not_served; [| |exact S2]|].
      apply Forall_app; split; [by eapply not_served; [| |exact S3]|by apply W4].
    + destruct O2 as [(Q & _ & A)|(D & _)]; [right|left; by eapply sub_trans].
      apply (quiet_written _ t2 t1); [done|auto|].
      apply Forall_app; split; [by eapply not_served; [| |exact S1]|].
      apply Forall_app; split; [by eapply not_served; [| |exact S3]|by apply W4].
    + destruct O3 as [(Q & _ & A)|(D & _)]; [right|left; by eapply sub_trans].
      rewrite app_assoc. apply (quiet_written _ t3 (t1 ++ t2)); [done|auto|].
      apply Forall_app; split; [apply Forall_app; split; [by eapply not_served; [| |exact S1]|]|by apply W4].
      by eapply not_served; [| |exact S2].
Qed.
(** What became of the selected bits of [class]: dirty again; written back,
    with the payload of an Inline file delivered; or, for the data bits of an
    Inline file, dropped with an error while the payload waits in the inode. *)
Definition flush_fate (class bits : Z) (s s' : cinode) (tr : list event) : Prop :=
  sub bits (i_dirty_caps s') \/
  (written class tr /\ (class = POWERFS_CAP_WR_DATA -> has_payload s -> delivered tr)) \/
  (class = POWERFS_CAP_WR_DATA /\ has_payload s /\ has_payload s').

Lemma flush_outcome (mask : Z) (s s' : cinode) (tr : list event) (ret : Z) :
  runs undisturbed (powerfs_cap_flush mask) s tr ret s' ->
  sub (Z.ldiff (i_dirty_caps s) mask) (i_dirty_caps s') /\ (ret = 0 -> quiet tr) /\
  (ret = 0 -> Z.land (Z.land (i_dirty_caps s) mask) POWERFS_CAP_WR_DATA <> 0 -> has_payload s -> delivered tr) /\
  forall class, class ∈ [POWERFS_CAP_WR_DATA; POWERFS_CAP_AUTH_EXCL; POWERFS_CAP_XATTR_EXCL] ->
    let bits := Z.land (Z.land (i_dirty_caps s) mask) class in
    bits <> 0 -> flush_fate class bits s s' tr.
Proof.
  intros H. apply runs_call_bind in H as (pre & t & -> & H). apply runs_section_alloc in H as (b & s0 & [G HP] & H).
  assert (Hbits : forall c, sub (Z.land (Z.land (i_dirty_caps s) mask) c) (Z.land (Z.land (i_dirty_caps s0) mask) c)).
  { intros c n Hn. rewrite !Z.land_spec. intros Hb. apply andb_true_iff in Hb as [Hb ->].
    apply andb_true_iff in Hb as [Hb ->]. by rewrite (G n Hn Hb). }
  assert (Hnz : forall c, Z.land (Z.land (i_dirty_caps s) mask) c <> 0 -> Z.land (Z.land (i_dirty_caps s0) mask) c <> 0)
    by (intros c; apply sub_nonzero, Hbits).
  cbv zeta in H. destruct (Z.eqb_spec (Z.land (i_dirty_caps s0) mask) 0) as [E0|E0].
  { assert (Hs : t = [] /\ dirty_grows s0 s').
    { destruct pre; [|destruct H as (-> & _ & ->); split; [done|apply dirty_grows_refl]].
      apply runs_section in H as (s1 & [G1 _] & (-> & _ & ->)). by split. }
    destruct Hs as [-> Hg]. assert (Hno : forall c, Z.land (Z.land (i_dirty_caps s) mask) c <> 0 -> False)
      by (intros c Hc; apply Hnz in Hc; by rewrite E0, Z.land_0_l in Hc).
    split_and!; [|intros _; by repeat constructor|by intros _ []%Hno|by intros c _ bits []%Hno].
    eapply sub_trans; [apply sub_ldiff|]. by eapply sub_trans. }
  unfold flush_take in H.
  destruct (negb (i_prealloc_cap_flush (ci_flush s0) || pre || b)); cbn [fst snd] in H.
  { destruct H as (-> & -> & ->). split_and!; [|intros _; by repeat constructor|done|intros c _ bits _; left].
    - eapply sub_trans; [apply sub_ldiff|]. eapply sub_trans; [exact G|apply sub_lor_l].
    - do 2 (eapply sub_trans; [apply sub_land_l|]). eapply sub_trans; [exact G|apply sub_lor_l]. }
  apply flush_steps_outcome in H as (Hg & Hq & Hd & Hc).
  assert (Hdel : Z.land (Z.land (i_dirty_caps s) mask) POWERFS_CAP_WR_DATA <> 0 -> has_payload s ->
                 delivered t \/ (ret <> 0 /\ has_payload s')).
  { intros Hw Hp. apply Hd; [|exact (HP Hp)]. destruct (HP Hp) as (P1 & P2 & _). unfold inline_file in P1.
    rewrite P1, P2, !andb_true_r. unfold has, nz. by apply negb_true_iff, Z.eqb_neq, Hnz. }
  assert (Hcons : forall e, delivered t -> delivered (e :: t)) by (intros; by apply Exists_cons_tl).
  split_and!.
  - eapply sub_trans; [|exact Hg]. intros n Hn. cbn [i_dirty_caps set_flush set_dirty].
    rewrite !Z.ldiff_spec, Z.land_spec. intros Hb. apply andb_true_iff in Hb as [Hb Hm].
    rewrite (G n Hn Hb). by destruct (Z.testbit mask n).
  - intros ->. constructor; [done|by apply Hq].
  - intros Hr Hw Hp. destruct (Hdel Hw Hp) as [D|[]]; [by apply Hcons|done].
  - intros class Hin bits Hne. destruct (Hc class Hin (Hnz class Hne)) as [Hs|[Ha Hw]].
    + left. eapply sub_trans; [apply (Hbits class)|exact Hs].
    + right. assert (Hwr : written class (Ev (X_alloc 0) pre :: t)) by (split; [by apply Exists_cons_tl|by constructor]).
      destruct (decide (class = POWERFS_CAP_WR_DATA)) as [->|]; [|by left].
      destruct (decide (has_payload s)) as [Hp|Hp]; [|left; by split].
      destruct (Hdel Hne Hp) as [D|[_ K]]; [left; split; [done|by intros; apply Hcons]|by right].
Qed.

(** ** Recall *)

(** What [powerfs_cap_issue] makes of the capability. *)
Definition issue_cap (now bits : Z) (c : powerfs_cap) : powerfs_cap :=
  mk_cap (issuer_id c) (Z.lor (issued c) bits) (Z.lor (implemented c) bits) (cap_seq c) (issue_seq c) 1
    (cap_token c) (cap_epoch c) (u64 (now + POWERFS_LEASE_DURATION)) (last_used c) (content_size c).

Lemma cap_issue_effect s k bits :
  i_caps (powerfs_cap_issue kind s k bits) = upd_cap (i_caps s) k (issue_cap (jiffies s) bits) /\
  i_dirty_caps (powerfs_cap_issue kind s k bits) = i_dirty_caps s /\
  ci_layout (powerfs_cap_issue kind s k bits) = ci_layout s.
Proof.
  unfold powerfs_cap_issue.
  match goal with |- context [on_cap s k ?f] => change f with (issue_cap (jiffies s) bits) end.
  set (s1 := on_cap s k _).
  assert (H1 : i_caps s1 = upd_cap (i_caps s) k (issue_cap (jiffies s) bits) /\ i_dirty_caps s1 = i_dirty_caps s /\
    ci_layout s1 = ci_layout s) by done.
  clearbody s1. cbv zeta.
  repeat match goal with |- context [if ?b then _ else _] =>
    lazymatch type of b with bool => destruct b end end; cbn [i_auth_cap i_caps set_gen];
    (destruct (i_auth_cap s1); [done|]); by destruct (cap_at (i_caps s1) k).
Qed.

Definition is_ack (e : event) : bool := match ev_call e with X_recall_ack _ => true | _ => false end.
Definition no_ack (tr : list event) : Prop := Forall (fun e => is_ack e = false) tr.

(** Bits a recall acknowledgement brings back. *)
Definition piggyback (ack : list event) : Z :=
  match ack with
  | [Ev (X_recall_ack t) v] =>
      if (fst v <? 0) || (snd v =? 0) then 0 else wire_capset_to_kernel_bits (snd v)
  | _ => 0
  end.

(** The acknowledgement for the token [t]. *)
Definition ack_for (t : buffer) (ack : list event) : Prop :=
  (t = [] /\ ack = []) \/ exists r p, t <> [] /\ ack = [Ev (X_recall_ack t) (r, p)].

Lemma recall_ack_effect k c s tr r s' :
  cap_at (i_caps s) k = Some c -> runs eq (cap_send_recall_ack kind k) s tr r s' ->
  ack_for (cap_token c) tr /\ i_dirty_caps s' = i_dirty_caps s /\ ci_layout s' = ci_layout s /\
  exists c', cap_at (i_caps s') k = Some c' /\ issued c' = Z.lor (issued c) (piggyback tr) /\
    implemented c' = Z.lor (implemented c) (piggyback tr) /\ cap_epoch c' = cap_epoch c.
Proof.
  intros Hc H. unfold cap_send_recall_ack in H. apply runs_peek_bind in H as (s0 & <- & H).
  unfold token_of in H. rewrite Hc in H. case_run H.
  { destruct H as (-> & -> & ->). split_and!; [left; split; [|done]|done|done|exists c; by rewrite !Z.lor_0_r].
    unfold blen in E. destruct (cap_token c); [done|cbn in E; lia]. }
  assert (Ht : cap_token c <> []) by (intros E'; rewrite E' in E; done).
  apply runs_call_bind in H as ([q p] & t & -> & H). case_run H.
  { destruct H as (-> & -> & ->). split_and!; [right; eauto|done|done|]. exists c. cbn.
    rewrite (proj2 (Z.ltb_lt q 0)), !Z.lor_0_r by lia. done. }
  unfold nz in H. case_run H.
  - apply runs_section in H as (s1 & <- & (-> & -> & ->)). split; [right; eauto|]. cbn [fst snd].
    destruct (cap_issue_effect s k (wire_capset_to_kernel_bits p)) as (-> & -> & ->). split; [done|]. split; [done|].
    rewrite cap_at_upd, Z.eqb_refl, Hc by done. eexists. split; [reflexivity|]. cbn [issue_cap issued implemented cap_epoch piggyback fst snd].
    rewrite (proj2 (Z.ltb_ge q 0)), (proj2 (Z.eqb_neq p 0)) by done. done.
  - destruct H as (-> & -> & ->). split_and!; [right; eauto|done|done|]. exists c. cbn.
    rewrite E1, orb_true_r, !Z.lor_0_r. done.
Qed.
Lemma on_cap_at s k f c :
  (forall c, issuer_id (f c) = issuer_id c) -> cap_at (i_caps s) k = Some c -> cap_at (i_caps (on_cap s k f)) k = Some (f c).
Proof. intros Hf Hc. rewrite i_caps_on_cap, cap_at_upd, Z.eqb_refl, Hc by done. done. Qed.

Definition invalidates (e : event) : Prop := ev_call e = X_invalidate_pages.

Lemma revoke_settle_effect k bits s c :
  cap_at (i_caps s) k = Some c ->
  cap_at (i_caps (fst (revoke_settle k bits s))) k = Some (settle_cap c) /\
  i_dirty_caps (fst (revoke_settle k bits s)) = i_dirty_caps s /\
  inline_file (fst (revoke_settle k bits s)) = inline_file s /\
  (has_payload s -> has_payload (fst (revoke_settle k bits s))) /\
  snd (revoke_settle k bits s) = has bits POWERFS_CAP_WR_DATA && inline_file s.
Proof.
  intros Hc. unfold revoke_settle. pose proof (on_cap_at s k settle_cap c ltac:(done) Hc) as H. cbv zeta.
  destruct (has bits POWERFS_CAP_FILE_SHARED); change (inline_file (drop_dir_complete (on_cap s k settle_cap))) with (inline_file s);
    change (inline_file (on_cap s k settle_cap)) with (inline_file s);
    destruct (has bits POWERFS_CAP_WR_DATA && inline_file s); cbn [fst snd]; try (by split_and!);
    match goal with |- context [if ?b then _ else set_inline _ _] => destruct b eqn:Eb end;
    split_and!; try done; intros (_ & P2 & _); cbn in Eb, P2; congruence.
Qed.

Lemma revoke_tail_effect k bits c s tr s' :
  cap_at (i_caps s) k = Some c -> runs eq (revoke_tail kind k bits) s tr tt s' ->
  exists pre ack c', tr = pre ++ ack ++ [Ev X_wake_up tt] /\ no_ack pre /\
    Forall (fun e => served (ev_call e) = 0) pre /\ ack_for (cap_token c) ack /\
    i_dirty_caps s' = i_dirty_caps s /\ (has_payload s -> has_payload s') /\ cap_at (i_caps s') k = Some c' /\
    issued c' = Z.lor (issued c) (piggyback ack) /\ implemented c' = issued c' /\ cap_epoch c' = cap_epoch c /\
    (if inline_file s then has bits POWERFS_CAP_WR_DATA = true -> Exists invalidates pre
     else S_ISREG kind = true -> has bits file_bits = true -> Exists invalidates pre).
Proof.
  intros Hc H. unfold revoke_tail in H. apply runs_bind in H as (t1 & u1 & [] & s1 & -> & H1 & H).
  apply runs_section in H1 as (s0 & <- & H1).
  destruct (revoke_settle_effect k bits s c Hc) as (E1 & E2 & E3 & EP & E4).
  destruct (revoke_settle k bits s) as [s2 drop]. cbn [fst snd] in *.
  assert (T1 : s1 = s2 /\ no_ack t1 /\ Forall (fun e => served (ev_call e) = 0) t1 /\ (drop = true -> Exists invalidates t1)).
  { destruct drop; cbn [when_] in H1.
    - apply runs_call_bind in H1 as ([] & v & -> & H1). apply runs_call in H1 as [-> ->].
      split_and!; [done|by repeat constructor|by repeat constructor|]. intros _. by constructor.
    - destruct H1 as (-> & _ & ->). split_and!; [done|constructor|constructor|done]. }
  destruct T1 as (-> & N1 & V1 & I1).
  apply runs_peek_bind in H as (s3 & <- & H). apply runs_bind in H as (t2 & u2 & [] & s3 & -> & H2 & H).
  assert (T2 : s3 = s2 /\ no_ack t2 /\ Forall (fun e => served (ev_call e) = 0) t2 /\ (S_ISREG kind && negb (inline_file s2) && has bits file_bits = true -> Exists invalidates t2)).
  { change file_bits with (Z.lor (Z.lor POWERFS_CAP_FILE_SHARED POWERFS_CAP_FILE_CACHE) POWERFS_CAP_WR_DATA).
    destruct (S_ISREG kind && negb (inline_file s2) && _); cbn [when_] in H2.
    - apply runs_call in H2 as [-> ->]. split_and!; [done|by repeat constructor|by repeat constructor|]. intros _. by constructor.
    - destruct H2 as (-> & _ & ->). split_and!; [done|constructor|constructor|done]. }
  destruct T2 as (-> & N2 & V2 & I2).
  apply runs_bind in H as (t3 & u3 & r & s4 & -> & H3 & H). apply runs_call in H as [-> ->].
  apply (recall_ack_effect k _ _ _ _ _ E1) in H3 as (A1 & A2 & AL & c' & A3 & A4 & A5 & A6). cbn in A1, A4, A5, A6.
  exists (t1 ++ t2), t3, c'. split_and!; try done.
  - by rewrite !app_assoc.
  - by apply Forall_app.
  - by apply Forall_app.
  - congruence.
  - intros Hp. apply EP in Hp. unfold has_payload, inline_file in *. by rewrite AL.
  - congruence.
  - rewrite E3, E4 in *. destruct (inline_file s).
    + intros Hb. rewrite Hb in I1. apply Exists_app. left. by apply I1.
    + intros Hreg Hb. rewrite Hreg, Hb in I2. apply Exists_app. right. by apply I2.
Qed.
(** Neither an acknowledgement nor a wait. *)
Definition plain (x : ext) : Prop := match x with X_recall_ack _ | X_wait => False | _ => True end.

Ltac walk_calls tac := repeat first
  [ match goal with |- forall _, _ => intro end
  | exact I
  | tac
  | match goal with
    | |- only _ (call _) => split; [exact I|]
    | |- only _ (locked _) => intros ? ?
    | |- only _ (peek _) => intros ? ?
    end
  | apply only_bind
  | match goal with
    | |- only _ (let '(_, _) := ?p in _) => destruct p
    | |- only _ (match ?p with (_, _) => _ end) => destruct p
    | |- only _ (if ?b then _ else _) => destruct b
    | |- only _ (match ?o with Some _ => _ | None => _ end) => destruct o
    end ].

Lemma push_xattrs_only keys : only plain (push_xattrs keys).
Proof. induction keys as [|key keys IH]; [done|]. cbn [push_xattrs]. walk_calls ltac:(apply IH). Qed.
Lemma update_inline_only n i data : only plain (update_inline_loop n i data).
Proof. revert i; induction n as [|n IH]; intros i; [done|]. cbn [update_inline_loop]. walk_calls ltac:(apply IH). Qed.
Lemma flush_inline_only b ret : only plain (flush_inline b ret).
Proof.
  unfold flush_inline, keep_inline_dirty. walk_calls fail. intros b0 s. cbv zeta.
  case_if; cbn [snd]; walk_calls ltac:(apply update_inline_only).
Qed.

(** A flush neither acknowledges nor waits. *)
Lemma flush_only mask : only plain (powerfs_cap_flush mask).
Proof.
  unfold powerfs_cap_flush. walk_calls fail. intros b s. cbv zeta. destruct (_ =? 0); cbn [snd].
  - case_if; [|done]. by intros b1 s1.
  - unfold flush_take. match goal with |- context [if ?x then (None, s) else _] => destruct x end; cbn [snd]; [done|].
    unfold flush_steps, flush_data, flush_attr, flush_xattr, xattr_step, flush_finish, rollback.
    walk_calls ltac:(first [apply push_xattrs_only | apply flush_inline_only]).
Qed.
(** Calls that write nothing back do not change what became of the bits. *)
Lemma fate_app class bits s s' tr tr' :
  class ∈ [POWERFS_CAP_WR_DATA; POWERFS_CAP_AUTH_EXCL; POWERFS_CAP_XATTR_EXCL] ->
  Forall (fun e => served (ev_call e) = 0) tr' -> flush_fate class bits s s' tr -> flush_fate class bits s s' (tr ++ tr').
Proof.
  intros Hin S2 [Hs|[[[W1 W2] D]|K]]; [by left|right; left|by right; right].
  split; [|intros Hc Hp; apply Exists_app; left; exact (D Hc Hp)].
  split; [by apply Exists_app; left|]. apply Forall_app. split; [done|]. eapply Forall_impl; [exact S2|].
  intros e He Hs. rewrite He in Hs. inv_elem; by rewrite <- Hs in *.
Qed.

(** The flush and the directory step of a recall. *)
Lemma revoke_head_effect (lost : Z) s tr s' :
  runs eq (_ ← (if nz (Z.land (i_dirty_caps s) lost) then powerfs_cap_flush (Z.land (i_dirty_caps s) lost) else Ret 0);
           when_ (has lost POWERFS_CAP_AUTH_EXCL && S_ISDIR kind) (_ ← call X_cancel_flush_work; call X_flush_dirty_creates))
    s tr tt s' ->
  no_ack tr /\ kept s s' /\
  (has lost POWERFS_CAP_AUTH_EXCL && S_ISDIR kind = true -> Exists (fun e => ev_call e = X_flush_dirty_creates) tr) /\
  forall class, class ∈ [POWERFS_CAP_WR_DATA; POWERFS_CAP_AUTH_EXCL; POWERFS_CAP_XATTR_EXCL] ->
    let bits := Z.land (Z.land (i_dirty_caps s) lost) class in
    bits <> 0 -> flush_fate class bits s s' tr.
Proof.
  intros H. apply runs_bind in H as (t1 & t2 & r & s1 & -> & H1 & H2).
  assert (T2 : s' = s1 /\ no_ack t2 /\ Forall (fun e => served (ev_call e) = 0) t2 /\
    (has lost POWERFS_CAP_AUTH_EXCL && S_ISDIR kind = true -> Exists (fun e => ev_call e = X_flush_dirty_creates) t2)).
  { destruct (has lost POWERFS_CAP_AUTH_EXCL && S_ISDIR kind); cbn [when_] in H2.
    - apply runs_call_bind in H2 as ([] & v & -> & H2). apply runs_call in H2 as [-> ->].
      split_and!; [done|by repeat constructor|by repeat constructor|]. intros _. apply Exists_cons_tl. by constructor.
    - destruct H2 as (-> & _ & ->). split_and!; [done|constructor|constructor|done]. }
  destruct T2 as (-> & N2 & S2 & D2).
  assert (T1 : no_ack t1 /\ kept s s1 /\
    forall class, class ∈ [POWERFS_CAP_WR_DATA; POWERFS_CAP_AUTH_EXCL; POWERFS_CAP_XATTR_EXCL] ->
      let bits := Z.land (Z.land (i_dirty_caps s) lost) class in
      bits <> 0 -> flush_fate class bits s s1 t1).
  { unfold nz in H1. destruct (Z.eqb_spec (Z.land (i_dirty_caps s) lost) 0) as [E|E]; cbn [negb] in H1.
    { destruct H1 as (-> & _ & ->). split_and!; [constructor|apply kept_refl|]. intros class _. cbv zeta.
      by rewrite E, Z.land_0_l. }
    split_and!.
    - eapply Forall_impl; [exact (runs_only _ _ _ _ _ _ _ (flush_only _) H1)|]. intros [x v]. by destruct x.
    - eapply (runs_obeys eq kept); [by intros ? ? ->|apply kept_refl|apply kept_trans|apply flush_kept|exact H1].
    - apply (runs_mono _ undisturbed) in H1; [|by intros ? ? ->; apply undisturbed_refl].
      apply flush_outcome in H1 as (_ & _ & _ & Hc). intros class Hin bits Hne.
      replace bits with (Z.land (Z.land (i_dirty_caps s) (Z.land (i_dirty_caps s) lost)) class) in *; [by apply Hc|].
      unfold bits. by rewrite Z.land_assoc, Z.land_diag. }
  destruct T1 as (N1 & K1 & C1). split_and!; [by apply Forall_app|done|intros Hb; apply Exists_app; right; auto|].
  intros class Hin bits Hne. by apply fate_app, (C1 class Hin Hne).
Qed.
(** ** Waiting for capabilities *)

Definition is_wait (e : event) : bool := match ev_call e with X_wait => true | _ => false end.
Definition waits (tr : list event) : Z := Z.of_nat (length (filter (fun e => is_wait e = true) tr)).
Definition interrupted (e : event) : Prop := e = Ev X_signal_pending true.

(** The references cover the file bits of what was asked for. *)
Definition covers (refs need want : Z) : Prop := sub (Z.land (Z.lor need want) file_bits) refs.

Lemma waits_app t u : waits (t ++ u) = waits t + waits u.
Proof. unfold waits. rewrite filter_app, length_app. lia. Qed.
Lemma waits_cons e t : waits (e :: t) = (if is_wait e then 1 else 0) + waits t.
Proof. unfold waits. rewrite filter_cons. destruct (is_wait e) eqn:E; case_decide; try done; cbn [length]; lia. Qed.
Lemma waits_nil : waits [] = 0.
Proof. done. Qed.
Lemma waits_none tr : Forall (fun e => is_wait e = false) tr -> waits tr = 0.
Proof. induction 1 as [|e tr He _ IH]; [done|]. rewrite waits_cons, He, IH. done. Qed.

Lemma check_caps_only flags : only plain (powerfs_check_caps kind flags).
Proof.
  intros b s. cbv zeta. destruct (powerfs_caps_issued s) as [iss impl].
  case_if; cbn [snd]; [walk_calls ltac:(apply flush_only)|]. destruct (i_auth_cap s) as [k|]; [|done].
  case_if; [|done]. cbv zeta. case_if; [done|]. cbn [snd]. walk_calls fail.
Qed.

Lemma plain_waits R {A} (p : cprog A) s tr a s' : only plain p -> runs R p s tr a s' -> waits tr = 0.
Proof.
  intros Hp H. apply waits_none. eapply Forall_impl; [exact (runs_only _ _ _ _ _ _ _ Hp H)|]. intros [x v]. by destruct x.
Qed.

Lemma or_if_bit r iss j :
  0 <= j -> or_if (has iss (Z.shiftl 1 j)) r (Z.shiftl 1 j) = Z.lor r (Z.land iss (Z.shiftl 1 j)).
Proof.
  intros Hj. unfold or_if, has. rewrite Z.shiftl_1_l.
  assert (E : Z.land iss (2 ^ j) = if Z.testbit iss j then 2 ^ j else 0).
  { apply Z.bits_inj'. intros n Hn. rewrite Z.land_spec, Z.pow2_bits_eqb by done.
    destruct (Z.eqb_spec j n) as [<-|Hne]; [rewrite andb_true_r|rewrite andb_false_r];
      destruct (Z.testbit iss j) eqn:Et; rewrite ?Z.bits_0, ?Z.pow2_bits_eqb by done; try done.
    - by rewrite Z.eqb_refl.
    - by rewrite (proj2 (Z.eqb_neq j n)). }
  rewrite E. destruct (Z.testbit iss j); [|by rewrite Z.lor_0_r].
  rewrite (proj2 (Z.eqb_neq (2 ^ j) 0)) by (apply Z.pow_nonzero; lia). done.
Qed.

Lemma try_refs_covers s need want refs s' :
  try_get_cap_refs_locked s need want = (true, refs, s') -> covers refs need want.
Proof.
  unfold try_get_cap_refs_locked. destruct (powerfs_caps_issued s) as [iss impl].
  destruct (Z.eqb_spec (Z.ldiff need iss) 0) as [E1|]; [|done]. intros [= E2 <- _]. apply Z.eqb_eq in E2.
  unfold POWERFS_CAP_FILE_SHARED, POWERFS_CAP_FILE_CACHE, POWERFS_CAP_FILE_WR, POWERFS_CAP_FILE_EXCL.
  rewrite !or_if_bit by lia. intros b Hb. unfold covers, file_bits in *.
  rewrite !Z.land_spec, !Z.lor_spec, !Z.land_spec. intros H. apply andb_true_iff in H as [H Hfb].
  assert (X1 : Z.testbit (Z.ldiff need iss) b = false) by (by rewrite E1, Z.bits_0).
  assert (X2 : Z.testbit (Z.ldiff (Z.land want file_bits) iss) b = false) by (unfold file_bits; by rewrite E2, Z.bits_0).
  rewrite Z.ldiff_spec in X1, X2. unfold file_bits in X2. rewrite Z.land_spec, !Z.lor_spec, Hfb, andb_true_r in X2.
  assert (Hi : Z.testbit iss b = true) by (destruct (Z.testbit need b), (Z.testbit want b), (Z.testbit iss b); done).
  rewrite Hi. cbn [andb]. unfold POWERFS_CAP_FILE_SHARED, POWERFS_CAP_FILE_CACHE, POWERFS_CAP_FILE_WR, POWERFS_CAP_FILE_EXCL in Hfb.
  destruct (Z.testbit POWERFS_CAP_PIN b); [done|]. by rewrite orb_false_l, <- !orb_assoc in *.
Qed.
Lemma runs_try R need want s tr ok refs s' :
  runs R (try_section need want) s tr (ok, refs) s' -> tr = [] /\ (ok = true -> covers refs need want).
Proof.
  intros H. apply runs_section in H as (s0 & _ & H).
  destruct (try_get_cap_refs_locked s0 need want) as [[ok' refs'] s1] eqn:E. destruct H as (-> & [= -> ->] & ->).
  split; [done|]. intros ->. by eapply try_refs_covers.
Qed.

(** Outcome of the loop entered with [round] rounds behind it. *)
Definition get_outcome (need want round : Z) (tr : list event) (r : option (Z * option Z)) : Prop :=
  exists ret got, r = Some (ret, got) /\ round + waits tr <= 30 /\
    ((ret = - ERESTARTSYS /\ got = None /\ Exists interrupted tr) \/
     exists refs, ret = 0 /\ got = Some refs /\ (covers refs need want \/ round + waits tr = 30)).

Lemma get_caps_loop_outcome R need want fuel round s tr r s' :
  0 <= round -> 31 <= round + Z.of_nat fuel -> round <= 30 ->
  runs R (get_caps_loop kind fuel need want round) s tr r s' -> get_outcome need want round tr r.
Proof.
  revert round s tr. induction fuel as [|fuel IH]; intros round s tr H0 Hf H30 H; [lia|]. cbn [get_caps_loop] in H.
  apply runs_bind in H as (t1 & u1 & [ok refs] & s1 & -> & H1 & H). apply runs_try in H1 as [-> C1]. cbn [app] in *.
  case_run H. { destruct H as (-> & -> & ->). eexists _, _. rewrite waits_nil. split_and!; [done|lia|]. right. eauto 6. }
  destruct (Z.geb_spec round 30).
  { destruct H as (-> & -> & ->). eexists _, _. rewrite waits_nil. split_and!; [done|lia|]. right. eexists. split_and!; [done|done|right; lia]. }
  apply runs_bind in H as (t2 & u2 & [] & s2 & -> & H2 & H). apply (plain_waits R _ _ _ _ _ (check_caps_only 0)) in H2.
  apply runs_call_bind in H as (sig & u3 & -> & H).
  assert (Hint : forall u, sig = true -> Exists interrupted (t2 ++ Ev X_signal_pending sig :: u)).
  { intros u ->. apply Exists_app. right. by constructor. }
  case_run H.
  { destruct H as (-> & -> & ->). eexists _, _. rewrite waits_app, waits_cons, waits_nil, H2. cbn [is_wait ev_call].
    split_and!; [done|lia|]. left. auto. }
  apply runs_bind in H as (t4 & u4 & [ok2 refs2] & s4 & -> & H4 & H). apply runs_try in H4 as [-> C4]. cbn [app] in *.
  case_run H.
  { destruct H as (-> & -> & ->). eexists _, _. rewrite waits_app, waits_cons, waits_nil, H2. cbn [is_wait ev_call].
    split_and!; [done|lia|]. right. eauto 6. }
  apply runs_call_bind in H as (sig2 & u5 & -> & H). case_run H.
  { destruct H as (-> & -> & ->). eexists _, _. rewrite waits_app, !waits_cons, waits_nil, H2. cbn [is_wait ev_call].
    split_and!; [done|lia|]. left. split_and!; [done|done|]. apply Exists_app. right. apply Exists_cons_tl. by constructor. }
  apply runs_call_bind in H as ([] & u6 & -> & H). apply IH in H; [|lia..].
  destruct H as (ret & got & -> & Hw & Ho). exists ret, got. rewrite waits_app, !waits_cons, H2. cbn [is_wait ev_call].
  split_and!; [done|lia|]. destruct Ho as [(-> & -> & Ho)|(refs' & -> & -> & Ho)].
  - left. split_and!; [done|done|]. apply Exists_app. right. by repeat apply Exists_cons_tl.
  - right. exists refs'. split_and!; [done|done|]. destruct Ho as [Ho|Ho]; [by left|right; lia].
Qed.
(** ** Upgrading an optimistic create *)

Definition is_grant (e : event) : bool := match ev_call e with X_open_grant _ => true | _ => false end.
Definition grants (tr : list event) : Z := Z.of_nat (length (filter (fun e => is_grant e = true) tr)).

Lemma grants_cons e t : grants (e :: t) = (if is_grant e then 1 else 0) + grants t.
Proof. unfold grants. rewrite filter_cons. destruct (is_grant e) eqn:E; case_decide; try done; cbn [length]; lia. Qed.
Lemma grants_nil : grants [] = 0.
Proof. done. Qed.

Lemma local_issue s k bits : local_cap_granted (powerfs_cap_issue kind s k bits) = local_cap_granted s.
Proof.
  unfold powerfs_cap_issue. set (s1 := on_cap s k _).
  assert (H1 : local_cap_granted s1 = local_cap_granted s) by done. clearbody s1. cbv zeta.
  repeat match goal with |- context [if ?b then _ else _] =>
    lazymatch type of b with bool => destruct b end end; cbn [i_auth_cap i_caps set_gen];
    (destruct (i_auth_cap s1); [done|]); by destruct (cap_at (i_caps s1) k).
Qed.

Lemma runs_open_grant w s tr r s' :
  runs eq (cap_open_grant_and_issue kind w) s tr r s' ->
  (exists v, tr = [Ev (X_open_grant w) v]) /\ local_cap_granted s' = local_cap_granted s.
Proof.
  intros H. apply runs_call_bind in H as ([q g] & t & -> & H). apply runs_section_alloc in H as (b & s0 & <- & H).
  cbv zeta in H. unfold auth_or_new, add_cap_for_inode_locked in H.
  destruct (i_auth_cap s) as [k|]; [|destruct b; [destruct (cap_at (i_caps s) 0)|]];
    destruct H as (-> & _ & ->); (split; [eauto|]); cbn [fst negb]; rewrite ?local_issue; done.
Qed.

Lemma upgrade_loop_effect n w ret0 s tr r s' :
  local_cap_granted s = true -> runs eq (upgrade_loop kind n w ret0) s tr r s' ->
  is_Some r /\ local_cap_granted s' = true /\ grants tr <= Z.of_nat n /\
  (auth_has_token s' = false -> grants tr = Z.of_nat n).
Proof.
  revert s tr ret0. induction n as [|n IH]; intros s tr ret0 Hl H; cbn [upgrade_loop] in H.
  { destruct H as (-> & -> & ->). rewrite grants_nil. split_and!; [done|done|lia|lia]. }
  apply runs_peek_bind in H as (s0 & <- & H). unfold upgrade_state in H. rewrite Hl in H. cbn [negb] in H.
  apply runs_bind in H as (t1 & u1 & [[ready tok] ret] & s1 & -> & H1 & H).
  destruct (auth_has_token s) eqn:Et.
  { destruct H1 as (-> & [= -> -> ->] & ->). destruct H as (-> & -> & ->).
    cbn [app]; rewrite grants_nil. split_and!; [done|done|lia|congruence]. }
  apply runs_bind in H1 as (t2 & t3 & q & s2 & -> & H2 & H1). apply runs_open_grant in H2 as [[v ->] Hl2]. rewrite Hl in Hl2.
  assert (Hst : t3 = [] /\ s1 = s2 /\ ready = false /\ (tok = true -> auth_has_token s2 = true)).
  { case_run H1; [|by destruct H1 as (-> & [= -> -> _] & ->)].
    apply runs_peek_bind in H1 as (s3 & <- & H1). unfold upgrade_state in H1. rewrite Hl2 in H1.
    by destruct H1 as (-> & [= -> -> _] & ->). }
  destruct Hst as (-> & -> & -> & Htok). cbn [app] in *. rewrite grants_cons. cbn [is_grant ev_call].
  destruct tok.
  { destruct H as (-> & -> & ->). rewrite grants_nil. split_and!; [done|done|lia|]. rewrite Htok; done. }
  apply runs_bind in H as (t4 & t5 & [] & s4 & -> & H4 & H).
  assert (Hms : s4 = s2 /\ forall u, grants (t4 ++ u) = grants u).
  { destruct n; [by destruct H4 as (-> & _ & ->)|]. apply runs_call in H4 as [-> ->]. split; [done|]. intros u.
    cbn [app]. by rewrite grants_cons. }
  destruct Hms as [-> Hg]. apply IH in H as (I1 & I2 & I3 & I4); [|done]. rewrite Hg.
  split_and!; [done|done|lia|]. intros E. specialize (I4 E). lia.
Qed.
(** ** Theorems *)

(** C9. In every interleaving of any operations on an inode, whatever the
    server and the kernel answer: the capabilities stay keyed in order by
    issuer, no bit is issued that is not implemented, tokens fit their buffer
    and the auth cap is one of the tree; no capability disappears; and as long
    as no recall is started, no issued bit of any capability is lost. *)
Theorem caps_interleaving_invariant (allowed : cap_op -> Prop) (s0 s : cinode) (ths : list (cprog unit)) :
  caps_wf s0 -> rtc (pool_step allowed) (s0, []) (s, ths) ->
  caps_wf s /\ caps_stay s0 s /\
  ((forall o, allowed o -> is_recall o = false) -> issued_grows s0 s).
Proof.
  intros Hwf Hst.
  destruct (pool_obeys steady outside (fun p => exists o, allowed o /\ p = op_prog o) s0 (s, ths)) as [[H1 H2] _]; auto.
  - intros p (o & _ & ->). apply op_obeys_steady.
  - intros ?. apply growing_refl.
  - apply steady_trans.
  - intros ? ? Ho. apply (outside_growing _ _ Ho).
  - split_and!; auto. intros Hq. destruct (pool_obeys growing outside (fun p => exists o, allowed o /\ p = op_prog o) s0 (s, ths)) as [[_ H3] _]; auto.
    + intros p (o & Ha & ->). apply op_obeys_growing. auto.
    + apply growing_refl.
    + apply growing_trans.
    + apply outside_growing.
Qed.

(** C10. What a flush does with dirty state: whatever the calls answer, and
    while other threads mark bits dirty and rewrite inline data (but do not
    flush, commit or truncate this inode), every dirty bit selected by the mask
    is afterwards dirty again, or written back: a call of its kind was made and
    none of them failed, and the unsent payload of an Inline file reached the
    filer or was moved to a volume.  The one exception are the data bits of an
    Inline file whose payload could not be sent: they may be dropped, and only
    [inline_dirty] and the data in the inode remain.  Other dirty bits are
    kept; result 0 means that no write-back call failed and that a selected
    payload was delivered. *)
Theorem flush_writes_or_keeps (mask : Z) (s s' : cinode) (tr : list event) (ret : Z) :
  runs undisturbed (powerfs_cap_flush mask) s tr ret s' ->
  sub (Z.ldiff (i_dirty_caps s) mask) (i_dirty_caps s') /\ (ret = 0 -> quiet tr) /\
  (ret = 0 -> Z.land (Z.land (i_dirty_caps s) mask) POWERFS_CAP_WR_DATA <> 0 -> has_payload s -> delivered tr) /\
  forall class, class ∈ [POWERFS_CAP_WR_DATA; POWERFS_CAP_AUTH_EXCL; POWERFS_CAP_XATTR_EXCL] ->
    let bits := Z.land (Z.land (i_dirty_caps s) mask) class in
    bits <> 0 -> flush_fate class bits s s' tr.
Proof. apply flush_outcome. Qed.

(** C14. A recall that retains the wire capabilities [retain], run while no
    other thread changes the inode: the capability ends with the issued bits
    that were retained plus those the filer hands back with the
    acknowledgement, its implemented bits equal to them; the acknowledgement
    is the last call before the wake-up and is sent once, for the token of the
    capability, or not at all when that token is empty.  Before it, each
    recalled dirty bit is written back or dirty again (a failed flush does not
    stop the acknowledgement) or, for an Inline file, dropped with the payload
    still in the inode; pending creates of a directory were flushed and the
    cached pages dropped. *)
Theorem recall_lowers_then_acks (s s' : cinode) (tr : list event) (t : buffer) (n recall retain e k : Z) (c : powerfs_cap) :
  let keep := wire_capset_to_kernel_bits retain in
  let lost := Z.ldiff (issued c) keep in
  find_cap_by_token_locked s t n = Some k -> cap_at (i_caps s) k = Some c -> lost <> 0 ->
  runs eq (powerfs_cap_notify_work_func kind true (mk_notify t n (CAP_NOTIFY_RECALL recall retain e))) s tr tt s' ->
  exists pre ack c',
    tr = pre ++ ack ++ [Ev X_wake_up tt] /\ no_ack pre /\ ack_for (cap_token c) ack /\
    cap_at (i_caps s') k = Some c' /\ issued c' = Z.lor (Z.land (issued c) keep) (piggyback ack) /\
    implemented c' = issued c' /\ cap_epoch c' = e /\
    (forall class, class ∈ [POWERFS_CAP_WR_DATA; POWERFS_CAP_AUTH_EXCL; POWERFS_CAP_XATTR_EXCL] ->
       let bits := Z.land (Z.land (i_dirty_caps s) lost) class in
       bits <> 0 -> flush_fate class bits s s' pre) /\
    (has lost POWERFS_CAP_AUTH_EXCL && S_ISDIR kind = true -> Exists (fun e => ev_call e = X_flush_dirty_creates) pre) /\
    (if inline_file s then has lost POWERFS_CAP_WR_DATA = true -> Exists invalidates pre
     else S_ISREG kind = true -> has lost file_bits = true -> Exists invalidates pre).
Proof.
  intros keep lost Hf Hc Hl H. unfold powerfs_cap_notify_work_func in H. cbn [negb] in H.
  apply runs_section in H as (s0 & <- & H). cbn [w_token w_token_len w_body] in H. rewrite Hf in H. cbv zeta in H.
  unfold issued_of in H. rewrite Hc in H. fold keep lost in H. unfold nz in H.
  rewrite (proj2 (Z.eqb_neq lost 0)) in H by done. cbn [negb] in H. unfold powerfs_cap_revoke in H. cbn [fst snd] in H.
  set (s1 := on_cap (on_cap s k (set_epoch e)) k (clear_issued lost)) in *.
  assert (Hc1 : cap_at (i_caps s1) k = Some (clear_issued lost (set_epoch e c))).
  { apply on_cap_at; [done|]. by apply on_cap_at. }
  change (i_dirty_caps s1) with (i_dirty_caps s) in H.
  apply runs_bind in H as (t1 & t2 & r & s2 & -> & H1 & H).
  apply runs_bind in H as (t3 & t4 & [] & s3 & -> & H2 & H3).
  destruct (revoke_head_effect lost s1 (t1 ++ t3) s3) as (N1 & [[K1 K2] K3] & D1 & W1).
  { apply runs_bind. exists t1, t3, r, s2. done. }
  rewrite <- K1 in Hc1. apply (revoke_tail_effect k lost _ _ _ _ Hc1) in H3 as
    (pre & ack & c' & -> & N2 & V2 & A & Hd & HP & Hc' & Hi & Himp & He & Hinv).
  exists ((t1 ++ t3) ++ pre), ack, c'. split_and!; try done.
  - by rewrite !app_assoc.
  - by apply Forall_app.
  - rewrite Hi. f_equal. cbn. unfold lost. bits.
  - intros class Hin bits Hne. apply fate_app; [done|done|].
    destruct (W1 class Hin Hne) as [Hs|[Hw|(-> & P & P')]]; [left; by rewrite Hd|by right; left|right; right; auto].
  - intros Hb. apply Exists_app. left. auto.
  - replace (inline_file s) with (inline_file s3) by (unfold inline_file; by rewrite K3).
    destruct (inline_file s3); intros; apply Exists_app; right; auto.
Qed.

(** C15. [powerfs_get_caps] always returns, whatever the server answers and
    other threads do: after at most 30 waits.  It returns [-ERESTARTSYS]
    without references only when a signal was pending, and otherwise 0 with
    references that cover every file bit needed and wanted, unless it gave up
    after exactly 30 waits. *)
Theorem get_caps_terminates (R : cinode -> cinode -> Prop) (need want : Z) (s s' : cinode) (tr : list event)
    (r : option (Z * option Z)) :
  runs R (powerfs_get_caps kind need want) s tr r s' ->
  exists ret got, r = Some (ret, got) /\ waits tr <= 30 /\
    ((ret = - ERESTARTSYS /\ got = None /\ Exists interrupted tr) \/
     exists refs, ret = 0 /\ got = Some refs /\ (covers refs need want \/ waits tr = 30)).
Proof.
  intros H. apply get_caps_loop_outcome in H; [|lia..]. exact H.
Qed.

(** Upgrade of an optimistic create: nothing happens when the inode is
    not marked; otherwise the pending create is flushed before any grant is
    asked for, and the mark is cleared, with result 0, exactly when the auth
    cap ends up with a token from the filer; [-EAGAIN] is returned, with the
    mark kept, only after three grants brought none. *)
Theorem upgrade_needs_token (is_write : bool) (s s' : cinode) (tr : list event) (ret : Z) :
  runs eq (powerfs_upgrade_local_create kind is_write) s tr ret s' ->
  (local_cap_granted s = false -> ret = 0 /\ tr = [] /\ s' = s) /\
  (local_cap_granted s = true ->
     (exists tr', tr = Ev X_flush_pending_create tt :: tr') /\ grants tr <= 3 /\
     ((ret = 0 /\ auth_has_token s' = true /\ local_cap_granted s' = false) \/
      (ret = - EAGAIN /\ auth_has_token s' = false /\ local_cap_granted s' = true /\ grants tr = 3))).
Proof.
  intros H. apply runs_peek_bind in H as (s0 & <- & H). split; intros Hl; rewrite Hl in H; cbn [negb] in H.
  { by destruct H as (-> & -> & ->). }
  apply runs_call_bind in H as ([] & t & -> & H). split; [eauto|]. rewrite grants_cons. cbn [is_grant ev_call].
  apply runs_bind in H as (t1 & t2 & r & s1 & -> & H1 & H). apply upgrade_loop_effect in H1 as ([q ->] & L1 & L2 & L3); [|done].
  apply runs_section in H as (s2 & <- & H). destruct (auth_has_token s1) eqn:Et; destruct H as (-> & -> & ->);
    cbn [fst]; rewrite app_nil_r; (split; [lia|]).
  - left. by split_and!.
  - right. split_and!; [done|done|done|]. rewrite L3 by done. lia.
Qed.
End proofs.

(** ** The shrinker *)

(** An entry whose pages are dropped, and one that goes back to the tail. *)
Definition takes (e : lru_entry) : bool := e_ci e && negb (e_busy e) && e_token e && e_igrab e.
Definition requeues (e : lru_entry) : bool := e_ci e && e_busy e.

Abbreviation taken := (filter (fun e => takes e = true)).
Abbreviation requeued := (filter (fun e => requeues e = true)).

Lemma scan_loop_spec nr fuel p rest :
  (length rest < fuel)%nat ->
  exists p' rest', rest = p' ++ rest' /\
    scan_loop fuel nr (Z.of_nat (length (taken p))) (Z.of_nat (length p)) (Z.of_nat (length p + length rest))
      (rest ++ requeued p) (reverse (taken p)) = Some (rest' ++ requeued (p ++ p'), reverse (taken (p ++ p'))) /\
    (Z.of_nat (length (taken p)) <= nr -> Z.of_nat (length (taken (p ++ p'))) <= nr) /\
    (rest' = [] \/ nr <= Z.of_nat (length (taken (p ++ p')))).
Proof.
  revert p rest. induction fuel as [|fuel IH]; intros p rest Hf; [lia|]. destruct rest as [|e rest].
  { exists [], []. rewrite !app_nil_r. cbn [app scan_loop length]. rewrite Nat.add_0_r. split_and!; auto.
    destruct (requeued p); [done|]. by rewrite Z.ltb_irrefl, andb_false_r. }
  cbn [app scan_loop].
  destruct (Z.ltb_spec (Z.of_nat (length (taken p))) nr) as [Hnr|Hnr].
  2:{ exists [], (e :: rest). rewrite !app_nil_r. split_and!; auto. }
  rewrite (proj2 (Z.ltb_lt (Z.of_nat (length p)) _)) by (cbn [length]; lia). cbn [andb].
  destruct (IH (p ++ [e]) rest) as (p' & rest' & -> & E & H1 & H2); [cbn in Hf; lia|].
  exists (e :: p'), rest'. rewrite <- !app_assoc in *. cbn [app] in *.
  replace (Z.of_nat (length (p ++ [e]) + length (p' ++ rest'))) with (Z.of_nat (length p + length (e :: p' ++ rest'))) in E
    by (rewrite length_app; cbn [length]; lia).
  replace (Z.of_nat (length (p ++ [e]))) with (Z.of_nat (length p) + 1) in E by (rewrite length_app; cbn [length]; lia).
  rewrite !filter_app, !filter_cons, !filter_nil in E. rewrite !filter_app, !filter_cons, !filter_nil in H1.
  rewrite !filter_app, !filter_cons in *.
  split_and!; [done| | |exact H2].
  - rewrite <- E. clear E. unfold takes, requeues. destruct (e_ci e), (e_busy e), (e_token e), (e_igrab e); cbn [andb negb];
      repeat case_decide; try done; rewrite ?app_nil_r; try done; rewrite ?length_app, ?reverse_app; cbn [length reverse];
      rewrite ?app_assoc, ?Nat2Z.inj_add; done.
  - intros _. apply H1. repeat case_decide; rewrite ?length_app; cbn [length]; lia.
Qed.

(** The shrinker terminates on every list, busy entries included: it
    walks a prefix of the LRU once and stops at its end or when enough
    entries are taken; exactly the idle, granted and live entries of the
    prefix are taken, newest first, busy ones go to the tail in order, and
    dead ones are dropped. *)
Theorem shrinker_scan_spec (lru : list lru_entry) (nr_to_scan : Z) :
  0 <= nr_to_scan ->
  exists scanned rest, lru = scanned ++ rest /\
    powerfs_cap_shrinker_scan lru nr_to_scan =
      Some (rest ++ requeued scanned, reverse (taken scanned), Z.of_nat (length (taken scanned))) /\
    Z.of_nat (length (taken scanned)) <= nr_to_scan /\
    (rest = [] \/ Z.of_nat (length (taken scanned)) = nr_to_scan).
Proof.
  intros Hnr. destruct (scan_loop_spec nr_to_scan (S (length lru)) [] lru) as (p & rest & -> & E & H1 & H2); [lia|].
  cbn [app] in *. exists p, rest. unfold powerfs_cap_shrinker_scan.
  rewrite !filter_nil, app_nil_r in E. cbn [length reverse] in E. change (Z.of_nat 0) with 0 in *.
  rewrite Nat.add_0_l in E. change (reverse (@nil lru_entry)) with (@nil lru_entry) in E. rewrite E. cbn [mbind option_bind].
  rewrite length_reverse. split_and!; [done|done|apply H1; cbn; lia|].
  destruct H2 as [->|H2]; [by left|right]. specialize (H1 ltac:(cbn; lia)). lia.
Qed.

(** ** Concrete runs *)

Module Sample.

#[local] Instance hz1000 : KernelTime :=
  {| HZ := 1000; jiffies_to_msecs := fun j => j; msecs_to_jiffies := fun m => m |}.

(** A server that grants everything, with token [7]. *)
Definition generous : grant := mk_grant [7] 7 1 1 0.
Definition answers (x : ext) : ans x :=
  match x with
  | X_open_grant _ | X_acquire _ _ => (0, generous)
  | X_release _ => (0, 0, generous)
  | X_alloc _ => true
  | _ => inhabitant
  end.
(** A server that gives nothing; waits end by a signal. *)
Definition refuses (x : ext) : ans x :=
  match x with
  | X_open_grant _ | X_acquire _ _ => (- EAGAIN, generous)
  | X_write_and_wait _ => - EIO
  | X_update_inline _ => - EIO
  | X_alloc _ => true
  | X_signal_pending => false
  | _ => inhabitant
  end.

Definition all_bits : Z := wire_capset_to_kernel_bits 7.
Definition no_refs : cap_refs := mk_refs 0 0 0 0 0 0 0.
Definition layout_of (placement : Z) (data : buffer) : layout_inode :=
  mk_linode placement 0 0 POWERFS_CHUNK_SIZE 1 1 (mk_inline (Some data) (blen data) true 4096)
    (mk_stripe 0 0 0 None 0 None) (mk_chunks None 0 None 0 None 0 0 0).
Definition sample (placement : Z) (dirty : Z) (local : bool) : cinode :=
  mk_ci [mk_cap 1 all_bits all_bits 0 0 1 [65] 0 0 0 0] (Some 1) 0 dirty 0 no_refs (mk_fl true [] 0)
    (mk_gen 0 0 true true) (mk_open 1 1 0 0) (layout_of placement [1; 2; 3]) local 1 10 100 0.

Lemma sample_wf placement dirty local : caps_wf (sample placement dirty local).
Proof.
  split_and!; cbn.
  - repeat constructor.
  - rewrite list.Forall_singleton. split; [by intros n|]. reflexivity.
  - intros k [= <-]. by eexists.
Qed.

Lemma caps_interleaving_invariant_witness :
  let s := set_dirty (sample 1 0 false) POWERFS_CAP_FILE_WR 0 in caps_wf s /\ caps_stay (sample 1 0 false) s.
Proof.
  destruct (caps_interleaving_invariant REG (fun _ => True) (sample 1 0 false)
    (set_dirty (sample 1 0 false) POWERFS_CAP_FILE_WR 0) [Ret tt; op_prog REG (GetCaps 1 1)]) as (H1 & H2 & _); [apply sample_wf| |exact (conj H1 H2)].
  eapply rtc_l; [exact (ps_call _ _ _ _ _ (ex_intro _ (MarkDirty POWERFS_CAP_FILE_WR) (conj I eq_refl)))|].
  eapply rtc_l; [exact (ps_call _ _ _ _ _ (ex_intro _ (GetCaps 1 1) (conj I eq_refl)))|].
  eapply rtc_l; [eapply (ps_crit _ _ _ _ 0%nat _ _ true); reflexivity|].
  apply rtc_refl.
Defined.

(** The data cannot be written, the attributes can. *)
Lemma flush_writes_or_keeps_witness :
  let run := exec refuses (powerfs_cap_flush 1023) (sample 1 0x104 false) in
  flush_fate POWERFS_CAP_WR_DATA 0x100 (sample 1 0x104 false) run.2 run.1.1.
Proof.
  refine (proj2 (proj2 (proj2 (flush_writes_or_keeps 1023 (sample 1 0x104 false) _ _ _
    (exec_runs undisturbed refuses (powerfs_cap_flush 1023) (sample 1 0x104 false) undisturbed_refl)))) POWERFS_CAP_WR_DATA _ _).
  - set_solver.
  - done.
Defined.

Definition recall_W : powerfs_cap_notify_work := mk_notify [65] 1 (CAP_NOTIFY_RECALL 6 1 9).
Definition recall_run := exec answers (powerfs_cap_notify_work_func REG true recall_W) (sample 1 0x104 false).

Lemma recall_lowers_then_acks_witness :
  exists pre ack c', recall_run.1.1 = pre ++ ack ++ [Ev X_wake_up tt] /\ ack_for [65] ack /\
    cap_at (i_caps recall_run.2) 1 = Some c' /\ cap_epoch c' = 9.
Proof.
  destruct (recall_lowers_then_acks REG (sample 1 0x104 false) recall_run.2 recall_run.1.1 [65] 1 6 1 9 1
    (mk_cap 1 all_bits all_bits 0 0 1 [65] 0 0 0 0)) as (pre & ack & c' & H1 & _ & H3 & H4 & _ & _ & H7 & _);
    [reflexivity|reflexivity|discriminate| |].
  - unfold recall_run. pose proof (exec_runs eq answers
      (powerfs_cap_notify_work_func REG true recall_W) (sample 1 0x104 false) (fun s => eq_refl)) as H.
    by destruct (exec answers _ _).1.2.
  - exists pre, ack, c'. exact (conj H1 (conj H3 (conj H4 H7))).
Defined.

(** Nothing is granted: the caller waits 30 times and gives up. *)
Definition starving : cinode :=
  set_caps (sample 1 0 false) [mk_cap 1 0 0 0 0 1 [65] 0 0 0 0] (Some 1).
Definition starving_run := exec refuses (powerfs_get_caps REG POWERFS_CAP_FILE_WR 0) starving.

Lemma get_caps_terminates_witness : exists ret got, starving_run.1.2 = Some (ret, got) /\ waits starving_run.1.1 <= 30.
Proof.
  destruct (get_caps_terminates REG eq POWERFS_CAP_FILE_WR 0 starving starving_run.2 starving_run.1.1 starving_run.1.2)
    as (ret & got & H1 & H2 & _); [exact (exec_runs eq refuses _ starving (fun s => eq_refl))|].
  exact (ex_intro _ ret (ex_intro _ got (conj H1 H2))).
Defined.

Definition lru3 : list lru_entry :=
  [mk_lru 1 true true true true; mk_lru 2 true false true true; mk_lru 3 false false false false].

Lemma shrinker_scan_spec_witness : exists scanned rest, lru3 = scanned ++ rest /\
  powerfs_cap_shrinker_scan lru3 5 = Some (rest ++ requeued scanned, reverse (taken scanned), Z.of_nat (length (taken scanned))).
Proof.
  destruct (shrinker_scan_spec lru3 5) as (p & q & H1 & H2 & _); [lia|]. exact (ex_intro _ p (ex_intro _ q (conj H1 H2))).
Defined.

Definition local_only : cinode := set_caps (sample 1 0 true) [mk_cap 1 all_bits all_bits 0 0 1 [] 0 0 0 0] (Some 1).
Definition upgrade_run := exec answers (powerfs_upgrade_local_create REG true) local_only.

Lemma upgrade_needs_token_witness : (exists tr', upgrade_run.1.1 = Ev X_flush_pending_create tt :: tr') /\ grants upgrade_run.1.1 <= 3.
Proof.
  destruct (upgrade_needs_token REG true local_only upgrade_run.2 upgrade_run.1.1 upgrade_run.1.2) as [_ H];
    [exact (exec_runs eq answers _ local_only (fun s => eq_refl))|].
  destruct (H eq_refl) as (H1 & H2 & _). exact (conj H1 H2).
Defined.

(** A failed update of inline data leaves [inline_dirty] set but no dirty
    bit: the next recall finds nothing to flush, updates nothing and
    acknowledges. *)
Definition no_inline_update (x : ext) : ans x :=
  match x with X_update_inline _ => - EIO | X_alloc _ => true | _ => inhabitant end.
Definition inline_failed := exec no_inline_update (powerfs_cap_flush 1023) (sample POWERFS_PLACEMENT_INLINE 0x100 false).
Definition inline_recalled := exec no_inline_update (powerfs_cap_notify_work_func REG true recall_W) inline_failed.2.

Example inline_failure_forgotten :
  inline_failed.1.2 = - EIO /\ i_dirty_caps inline_failed.2 = 0 /\
  inline_dirty (pi_inline (ci_layout inline_failed.2)) = true /\
  map ev_call inline_recalled.1.1 = [X_invalidate_pages; X_invalidate_one; X_recall_ack [65]; X_wake_up].
Proof. vm_compute. repeat split; reflexivity. Qed.

(** A recall acknowledges although the data could not be written. *)
Example recall_acks_after_failed_write :
  let run := exec refuses (powerfs_cap_notify_work_func REG true recall_W) (sample 1 0x100 false) in
  map ev_call run.1.1 = [X_alloc 0; X_write_and_wait 9; X_wake_up; X_invalidate_pages; X_recall_ack [65]; X_wake_up] /\
  i_dirty_caps run.2 = 0x100.
Proof. vm_compute. repeat split; reflexivity. Qed.

(** The read bits are issued, the write bits wanted are not: every attempt of
    [powerfs_get_caps] takes references, and the caller is told of one. *)
Definition reader : cinode := set_caps (sample 1 0 false) [mk_cap 1 0xdb 0xdb 0 0 1 [65] 0 0 0 0] (Some 1).

Example get_caps_leaks_references :
  let run := exec refuses (powerfs_get_caps REG POWERFS_CAP_FILE_SHARED POWERFS_CAP_FILE_WR) reader in
  run.1.2 = Some (0, Some (Z.lor POWERFS_CAP_PIN (Z.lor POWERFS_CAP_FILE_SHARED POWERFS_CAP_FILE_CACHE))) /\
  i_rd_ref (ci_refs run.2) = 61.
Proof. vm_compute. repeat split; reflexivity. Qed.

End Sample.
