(* ===== verification/Submit.v ===== *)
(** * Submit: routing a metadata request to the leader of its shard

    Models [powerfs_request_submit], [powerfs_net_parse_redirect] and the two
    senders of [src/powerfs_mod/powerfs_net_req.c], and the shard-route table
    of [powerfs_net_conn.c] they use.  A filer answers a request for a shard
    it does not lead with a redirect; the submit loop follows it, keeps a
    per-request blacklist of filers that redirected to themselves, waits when
    no filer is connected, and gives up at a deadline.

    The shared state is the pool: the filers with their connection states, the
    route table and the clock.  [powerfs_request_do_send] and the waits are
    outside calls; a connection is identified by its index.  The scan of the
    filers for a connected one reads the pool at one instant.  Theorems are in
    [SubmitProof]. *)

From S2P Require Import Prelude Tlv NetLease ShardMap Prog.

Definition EINTR : Z := 4.
Definition ENOTCONN : Z := 107.
Definition ETIMEDOUT : Z := 110.

Definition POWERFS_NET_STATUS_ERR_REDIRECT : Z := 11.
Definition POWERFS_NET_FLD_OWNER : Z := 0x17.
Definition POWERFS_NET_RECONNECT_WAIT_TIMEOUT_MS : Z := 30000.
Definition POWERFS_MAX_BLACKLISTED_SELF : Z := 8.
Definition BAD_SELF_MAX_STALE_ROUNDS : Z := 2.
Definition POWERFS_REQ_MAX_EAGAIN_RETRIES : Z := 8.

(** ** The pool *)

Inductive powerfs_conn_state := CONN_INIT | CONN_CONNECTING | CONN_CONNECTED | CONN_RECONNECTING | CONN_FAULT.
#[global] Instance conn_state_eq_dec : EqDecision powerfs_conn_state.
Proof. solve_decision. Defined.

Inductive powerfs_shard_route_state := ROUTE_VALID | ROUTE_CHECKING | ROUTE_UNKNOWN.
#[global] Instance route_state_eq_dec : EqDecision powerfs_shard_route_state.
Proof. solve_decision. Defined.

(** What the routing reads of a connection; [f_addr] is the C string. *)
Record filer := mk_filer { f_addr : buffer; f_port : Z; in_use : bool; f_state : powerfs_conn_state }.

(** [r_pending] holds the requests that wait for the shard. *)
Record powerfs_shard_route_entry := mk_route {
  leader_filer_idx : Z; r_state : powerfs_shard_route_state; r_pending : list Z
}.

(** [filers] are the first [filer_count] slots, [routes] the
    [POWERFS_MAX_SHARDS] entries of the table. *)
Record pool := mk_pool {
  filers : list filer; routes : list powerfs_shard_route_entry; shard_count : Z; stopping : bool; p_jiffies : Z
}.

Definition set_routes (s : pool) (r : list powerfs_shard_route_entry) : pool :=
  mk_pool (filers s) r (shard_count s) (stopping s) (p_jiffies s).

Definition route_of (s : pool) (shard : Z) : powerfs_shard_route_entry :=
  default (mk_route (-1) ROUTE_UNKNOWN []) (routes s !! Z.to_nat shard).
Definition on_route (s : pool) (shard : Z) (f : powerfs_shard_route_entry -> powerfs_shard_route_entry) : pool :=
  set_routes s (alter f (Z.to_nat shard) (routes s)).

Definition filer_at (s : pool) (i : Z) : option filer := if i <? 0 then None else filers s !! Z.to_nat i.
Definition filer_count (s : pool) : Z := Z.of_nat (length (filers s)).
Definition connected (f : filer) : bool := bool_decide (f_state f = CONN_CONNECTED).

(** ** Outside calls *)

(** [X_do_send i]: [powerfs_request_do_send] on filer [i], answered by its
    result, the status and the body of the response.  [X_wait_dispatch] is the
    wait in the queue of the shard, answered by the result of the wait and
    the error the request then has. *)
Inductive sub_ext :=
| X_record_start (i : Z)
| X_do_send (i : Z)
| X_record_complete (i : Z)
| X_wait_dispatch
| X_complete (req err : Z)
| X_msleep (ms : Z)
| X_kzalloc.

Definition sub_ans (x : sub_ext) : Type :=
  match x with
  | X_do_send _ => Z * Z * buffer
  | X_wait_dispatch => Z * Z
  | X_kzalloc => bool
  | _ => unit
  end.

Abbreviation sprog := (prog pool sub_ans).

(** ** The route table *)

Definition powerfs_calc_shard_id (s : pool) (inode : Z) : Z :=
  if shard_count s <=? 1 then 0 else (inode / 1000000) mod shard_count s.

Definition powerfs_shard_route_get_state (s : pool) (shard : Z) : powerfs_shard_route_state :=
  if shard >=? POWERFS_MAX_SHARDS then ROUTE_UNKNOWN else r_state (route_of s shard).

(** VALID entries of the filer become CHECKING. *)
Definition powerfs_shard_route_on_filer_disconnect (s : pool) (idx : Z) : pool :=
  if (idx <? 0) || (idx >=? filer_count s) then s else
  set_routes s ((fun e => if (leader_filer_idx e =? idx) && bool_decide (r_state e = ROUTE_VALID)
                          then mk_route (leader_filer_idx e) ROUTE_CHECKING (r_pending e) else e) <$> routes s).

Definition powerfs_shard_route_find_available_filer (s : pool) (shard : Z) : Z :=
  if shard >=? POWERFS_MAX_SHARDS then -1 else
  let leader_idx := leader_filer_idx (route_of s shard) in
  if filer_count s <=? 0 then -1 else
  let start := if leader_idx >=? 0 then leader_idx + 1 else 0 in
  default (-1) (List.find (fun idx => match filer_at s idx with
                                      | Some f => in_use f && connected f
                                      | None => false
                                      end)
                  ((fun i => (start + Z.of_nat i) mod filer_count s) <$> seq 0 (length (filers s)))).

Definition powerfs_conn_get_filer_for_shard (s : pool) (shard : Z) : option Z :=
  if shard >=? POWERFS_MAX_SHARDS then None else
  let leader_idx := leader_filer_idx (route_of s shard) in
  if (leader_idx <? 0) || (leader_idx >=? filer_count s) then None else Some leader_idx.

Definition same_node (addr : buffer) (port : Z) (node : buffer * Z) : bool :=
  bool_decide (addr = fst node) && (port =? snd node).

(** Index of the first filer that satisfies [ok]. *)
Definition first_filer (s : pool) (ok : Z -> filer -> bool) : option Z :=
  List.find (fun i => match filer_at s i with Some f => ok i f | None => false end)
    (Z.of_nat <$> seq 0 (length (filers s))).

Definition powerfs_conn_find_filer (s : pool) (addr : buffer) (port : Z) : option Z :=
  first_filer s (fun _ f => in_use f && same_node (f_addr f) (f_port f) (addr, port)).

(** Requests that waited for the shard are completed with [-EAGAIN]. *)
Fixpoint complete_all (reqs : list Z) (err : Z) : sprog unit :=
  match reqs with
  | [] => Ret tt
  | r :: reqs => _ ← call (X_complete r err); complete_all reqs err
  end.

Definition take_pending (shard : Z) : sprog unit :=
  section (fun s =>
    (on_route s shard (fun e => mk_route (leader_filer_idx e) (r_state e) []),
     complete_all (r_pending (route_of s shard)) (- EAGAIN))).

Definition powerfs_shard_route_dispatch_pending (shard : Z) : sprog unit :=
  count ← peek shard_count;
  if shard >=? count then Ret tt else
  idx ← peek (fun s => leader_filer_idx (route_of s shard));
  ready ← peek (fun s => match filer_at s idx with Some f => connected f | None => false end);
  when_ ready (take_pending shard).

Definition powerfs_shard_route_update (shard idx : Z) : sprog unit :=
  if shard >=? POWERFS_MAX_SHARDS then Ret tt else
  section (fun s =>
    let e := route_of s shard in
    (on_route s shard (fun e => mk_route idx ROUTE_VALID (r_pending e)),
     when_ (bool_decide (r_state e <> ROUTE_VALID)) (powerfs_shard_route_dispatch_pending shard))).

(** UNKNOWN entries of the filer become CHECKING; requests of every shard that
    is not VALID are woken. *)
Fixpoint wake_shards (idx : Z) (shards : list Z) : sprog unit :=
  match shards with
  | [] => Ret tt
  | i :: shards =>
      leader ← peek (fun s => leader_filer_idx (route_of s i));
      _ ← (if leader =? idx then powerfs_shard_route_dispatch_pending i else take_pending i);
      wake_shards idx shards
  end.

Definition reconnect_entry (idx : Z) (e : powerfs_shard_route_entry) : powerfs_shard_route_entry :=
  if (leader_filer_idx e =? idx) && bool_decide (r_state e = ROUTE_UNKNOWN)
  then mk_route (leader_filer_idx e) ROUTE_CHECKING (r_pending e) else e.

Definition powerfs_shard_route_on_filer_reconnect (idx : Z) : sprog unit :=
  section (fun s =>
    if (idx <? 0) || (idx >=? filer_count s) then (s, Ret tt) else
    let r := reconnect_entry idx <$> routes s in
    (set_routes s r,
     wake_shards idx (filter (fun i => bool_decide (r_state (route_of (set_routes s r) i) <> ROUTE_VALID))
                        (Z.of_nat <$> seq 0 (length r))))).

(** ** Redirects *)

(** [kstrtoul(s, 10, &p)] on a C string: an optional plus sign, digits, an
    optional final newline; [None] is an error. *)
Fixpoint parse_digits (acc : Z) (s : buffer) : option (Z * buffer) :=
  match s with
  | x :: s' => if (48 <=? x) && (x <=? 57)
               then if acc * 10 + (x - 48) <? 2 ^ 64 then parse_digits (acc * 10 + (x - 48)) s' else None
               else Some (acc, s)
  | [] => Some (acc, [])
  end.

Definition kstrtoul (s : buffer) : option Z :=
  let s := match s with x :: s' => if x =? 43 then s' else s | [] => [] end in
  match s with
  | x :: _ =>
      if (48 <=? x) && (x <=? 57) then
        match parse_digits 0 s with
        | Some (v, []) => Some v
        | Some (v, [10]) => Some v
        | _ => None
        end
      else None
  | [] => None
  end.

(** The part of a C string before its last occurrence of [c], and after. *)
Fixpoint strrchr_split (c : Z) (s : buffer) : option (buffer * buffer) :=
  match s with
  | [] => None
  | x :: s' => match strrchr_split c s' with
               | Some (a, b) => Some (x :: a, b)
               | None => if x =? c then Some ([], s') else None
               end
  end.

(** [addr_cap] is the size of the caller's buffer. *)
Definition powerfs_net_parse_redirect (body : buffer) (addr_cap : Z) : option (buffer * Z) :=
  match powerfs_tlv_dec_string (powerfs_tlv_dec_init body (blen body)) POWERFS_NET_FLD_OWNER 79 with
  | (ret, Some owner, _) =>
      if ret <? 0 then None else
      let owner := take (Z.to_nat (c_strlen owner)) owner in
      match strrchr_split 58 owner with
      | None => None
      | Some (ip, rest) =>
          match kstrtoul rest with
          | Some p => if (p =? 0) || (p >? 0xFFFF) then None else Some (take (Z.to_nat (addr_cap - 1)) ip, p)
          | None => None
          end
      end
  | _ => None
  end.

(** ** Submit *)

(** The locals that live across attempts: [last_tried_conn], the blacklist of
    nodes that redirected to themselves and the two counters. *)
Record sub_locals := mk_locals {
  last_tried : option Z; bad_self : list (buffer * Z); bad_self_stale_count : Z; eagain_retries : Z
}.

Definition blacklisted (bad : list (buffer * Z)) (f : filer) : bool := existsb (same_node (f_addr f) (f_port f)) bad.

(** First pass: connected, not tried last and not blacklisted; second pass:
    any connected one. *)
Definition pick_filer (s : pool) (l : sub_locals) : option Z :=
  match first_filer s (fun i f => in_use f && connected f && negb (bool_decide (last_tried l = Some i)) &&
                                  negb (blacklisted (bad_self l) f)) with
  | Some i => Some i
  | None => first_filer s (fun _ f => in_use f && connected f)
  end.

(** [if (entry->state == ROUTE_VALID) entry->state = ROUTE_CHECKING] for a
    shard of the table. *)
Definition to_checking (shard : Z) : sprog unit :=
  when_ (shard <? POWERFS_MAX_SHARDS) (locked (fun s => on_route s shard (fun e =>
    if bool_decide (r_state e = ROUTE_VALID) then mk_route (leader_filer_idx e) ROUTE_CHECKING (r_pending e) else e))).

(** The connection of a VALID route, when it is usable. *)
Definition valid_conn (shard : Z) (l : sub_locals) : sprog (option Z) :=
  conn ← peek (fun s => powerfs_conn_get_filer_for_shard s shard);
  match conn with
  | None => Ret None
  | Some i =>
      up ← peek (fun s => match filer_at s i with Some f => connected f | None => false end);
      if negb up then _ ← locked (fun s => powerfs_shard_route_on_filer_disconnect s i); Ret None else
      bl_hit ← peek (fun s => match filer_at s i with Some f => blacklisted (bad_self l) f | None => false end);
      if (bl_hit : bool) then _ ← to_checking shard; Ret None else Ret (Some i)
  end.

Definition select_conn (shard : Z) (l : sub_locals) : sprog (option Z) :=
  st ← peek (fun s => powerfs_shard_route_get_state s shard);
  match st with
  | ROUTE_VALID => valid_conn shard l
  | _ => peek (fun s => pick_filer s l)
  end.

(** Result of the call with the status and body of the response, 0 and empty
    when the call fails. *)
Record sub_result := mk_res { res_ret : Z; res_status : Z; res_body : buffer }.
Definition failed_with (err : Z) : sub_result := mk_res err 0 [].

(** How an attempt ends: the result of the call, or another attempt. *)
Inductive attempt_end := Done (r : sub_result) | Retry (l : sub_locals).

(** No filer: wait in the queue of the shard.  [req] is the request. *)
Definition wait_for_filer (req shard : Z) (l : sub_locals) : sprog attempt_end :=
  if shard >=? POWERFS_MAX_SHARDS then _ ← call (X_complete req (- ENOTCONN)); Ret (Done (failed_with (- ENOTCONN))) else
  _ ← locked (fun s => on_route s shard (fun e => mk_route (leader_filer_idx e) (r_state e) (r_pending e ++ [req])));
  '(wait_ret, err) ← call X_wait_dispatch;
  _ ← locked (fun s => on_route s shard (fun e =>
        mk_route (leader_filer_idx e) (r_state e) (filter (fun r => r <> req) (r_pending e))));
  if wait_ret <? 0 then Ret (Done (failed_with (- EINTR))) else
  if (wait_ret =? 0) && (err =? 0) then Ret (Done (failed_with (- ETIMEDOUT))) else
  if err =? - EAGAIN then
    let n := eagain_retries l + 1 in
    if n >? POWERFS_REQ_MAX_EAGAIN_RETRIES then Ret (Done (failed_with (- EAGAIN)))
    else Ret (Retry (mk_locals (last_tried l) (bad_self l) (bad_self_stale_count l) n))
  else Ret (Done (failed_with err)).

Definition backoff (attempt : Z) : Z := Z.min (20 * Z.shiftl 1 (Z.min attempt 1)) 50.

Definition with_bad (l : sub_locals) (bad : list (buffer * Z)) (stale : Z) : sub_locals :=
  mk_locals (last_tried l) bad stale (eagain_retries l).

(** A filer that redirects to itself. *)
Definition self_redirect (shard attempt : Z) (node : buffer * Z) (l : sub_locals) : sprog attempt_end :=
  let already := existsb (same_node (fst node) (snd node)) (bad_self l) in
  let bad := if negb already && (Z.of_nat (length (bad_self l)) <? POWERFS_MAX_BLACKLISTED_SELF)
             then bad_self l ++ [(take 63 (fst node), snd node)] else bad_self l in
  let stale := if already then bad_self_stale_count l + 1 else bad_self_stale_count l in
  let cleared := already && (stale >=? BAD_SELF_MAX_STALE_ROUNDS) in
  let l' := if cleared then with_bad l [] 0 else with_bad l bad stale in
  _ ← to_checking shard;
  _ ← when_ (negb cleared) (call (X_msleep (backoff attempt)));
  Ret (Retry l').

(** A redirect to a blacklisted node. *)
Definition stale_redirect (shard attempt : Z) (leader : buffer * Z) (l : sub_locals) : sprog attempt_end :=
  let stale := bad_self_stale_count l + 1 in
  if stale >=? BAD_SELF_MAX_STALE_ROUNDS then
    ldr ← peek (fun s => powerfs_conn_find_filer s (fst leader) (snd leader));
    _ ← (match ldr with
         | Some cidx => when_ (shard <? POWERFS_MAX_SHARDS) (powerfs_shard_route_update shard cidx)
         | None => Ret tt
         end);
    Ret (Retry (with_bad l [] 0))
  else
    _ ← to_checking shard;
    _ ← call (X_msleep (backoff attempt));
    Ret (Retry (with_bad l (bad_self l) stale)).

Definition redirect_failed (req : Z) : sprog attempt_end :=
  _ ← call (X_complete req (- EAGAIN)); Ret (Done (failed_with (- EAGAIN))).

(** The node of filer [i]. *)
Definition node_of (s : pool) (i : Z) : buffer * Z :=
  match filer_at s i with Some f => (f_addr f, f_port f) | None => ([], 0) end.

(** A redirect answered by filer [i]; here [last_tried_conn] is [i]. *)
Definition handle_redirect (req shard attempt i : Z) (body : buffer) (l : sub_locals) : sprog attempt_end :=
  match powerfs_net_parse_redirect body 64 with
  | None => redirect_failed req
  | Some (addr, port) =>
      node ← peek (fun s => node_of s i);
      if same_node addr port node then self_redirect shard attempt node l else
      if existsb (same_node addr port) (bad_self l) then stale_redirect shard attempt (addr, port) l else
      last ← peek (fun s => match last_tried l with Some t => Some (node_of s t) | None => None end);
      if match last with Some t => same_node addr port t | None => false end then
        _ ← locked (fun s => powerfs_shard_route_on_filer_disconnect s i);
        redirect_failed req
      else
      ldr ← peek (fun s => powerfs_conn_find_filer s addr port);
      match ldr with
      | None => redirect_failed req
      | Some new_idx =>
          leader ← peek (fun s => node_of s new_idx);
          if existsb (same_node (fst leader) (snd leader)) (bad_self l) then
            _ ← to_checking shard;
            _ ← call (X_msleep (backoff attempt));
            Ret (Retry (mk_locals (Some i) (bad_self l) (bad_self_stale_count l) (eagain_retries l)))
          else
            _ ← powerfs_shard_route_update shard new_idx;
            Ret (Retry (mk_locals (Some i) (bad_self l) (bad_self_stale_count l) (eagain_retries l)))
      end
  end.

(** Send on filer [i] and handle the answer. *)
Definition send_on (req shard deadline attempt i : Z) (l : sub_locals) : sprog attempt_end :=
  let l := mk_locals (Some i) (bad_self l) (bad_self_stale_count l) (eagain_retries l) in
  _ ← call (X_record_start i);
  '(ret, resp_status, resp_body) ← call (X_do_send i);
  _ ← when_ (negb (ret =? 0)) (call (X_record_complete i));
  if ret =? - ENOTCONN then
    stop ← peek stopping;
    if (stop : bool) then Ret (Done (failed_with (- ENOTCONN))) else
    now ← peek p_jiffies;
    if time_after now deadline then Ret (Done (failed_with (- ETIMEDOUT))) else
    _ ← call (X_msleep 100);
    Ret (Retry l)
  else if ret <? 0 then Ret (Done (failed_with ret))
  else if resp_status =? POWERFS_NET_STATUS_ERR_REDIRECT then handle_redirect req shard attempt i resp_body l
  else Ret (Done (mk_res ret resp_status resp_body)).

Definition submit_attempt (req shard deadline attempt : Z) (l : sub_locals) : sprog attempt_end :=
  now ← peek p_jiffies;
  if time_after now deadline then _ ← call (X_complete req (- ETIMEDOUT)); Ret (Done (failed_with (- ETIMEDOUT))) else
  conn ← select_conn shard l;
  match conn with
  | None => wait_for_filer req shard l
  | Some i => send_on req shard deadline attempt i l
  end.

(** The loop; [None] is fuel running out. *)
Fixpoint submit_loop (fuel : nat) (req shard deadline attempt : Z) (l : sub_locals) : sprog (option sub_result) :=
  match fuel with
  | O => Ret None
  | S fuel =>
      e ← submit_attempt req shard deadline attempt l;
      match e with
      | Done r => Ret (Some r)
      | Retry l => submit_loop fuel req shard deadline (attempt + 1) l
      end
  end.

Section submit.
Context `{KT : KernelTime}.

(** [req_deadline] is [req->deadline], 0 for the default. *)
Definition powerfs_request_submit (fuel : nat) (req shard req_deadline : Z) : sprog (option sub_result) :=
  now ← peek p_jiffies;
  let deadline := if req_deadline =? 0
                  then u64 (now + msecs_to_jiffies POWERFS_NET_RECONNECT_WAIT_TIMEOUT_MS) else req_deadline in
  submit_loop fuel req shard deadline 0 (mk_locals None [] 0 0).

(** Both senders, with [shard] computed by the first from the pool: status or
    error, and the response body. *)
Definition send_request (fuel : nat) (req : Z) (shard : pool -> Z) (timeout_ms : Z) : sprog (option (Z * buffer)) :=
  down ← peek (fun s => (filer_count s =? 0) || stopping s);
  if (down : bool) then Ret (Some (- ENOTCONN, [])) else
  ok ← call X_kzalloc;
  if negb ok then Ret (Some (- ENOMEM, [])) else
  shard ← peek shard;
  now ← peek p_jiffies;
  r ← powerfs_request_submit fuel req shard (if timeout_ms >? 0 then u64 (now + msecs_to_jiffies timeout_ms) else 0);
  match r with
  | None => Ret None
  | Some r => Ret (Some (if res_ret r <? 0 then res_ret r else res_status r, res_body r))
  end.

Definition powerfs_net_send_request (fuel : nat) (req route_inode timeout_ms : Z) : sprog (option (Z * buffer)) :=
  send_request fuel req (fun s => if route_inode =? 0 then 0 else powerfs_calc_shard_id s route_inode) timeout_ms.

Definition powerfs_net_send_request_shard (fuel : nat) (req explicit_shard_id timeout_ms : Z)
  : sprog (option (Z * buffer)) := send_request fuel req (fun _ => explicit_shard_id) timeout_ms.
End submit.
