(* ===== verification/SubmitProof.v ===== *)
(** * SubmitProof: theorems on the routing of metadata requests

    Shown: in a stable cluster every request reaches the leader of its shard,
    whatever route was cached, after at most one request to each filer; a
    success is the answer of the last filer asked, and the flow accounting of
    every attempt is balanced; an encoded redirect is parsed to the address
    and port it was made from.  With eleven filers the search can go on for
    ever (an example). *)

From S2P Require Import Prelude Tlv NetLease ShardMap Prog Submit.

Abbreviation sevent := (Prog.event sub_ans).
Abbreviation runs_call_bind := (@Prog.runs_call_bind pool sub_ext sub_ans).

#[global] Instance sub_ans_inhabited x : Inhabited (sub_ans x).
Proof. destruct x; cbn; repeat constructor. Defined.

(** ** Traces *)

(** The filers asked, in order. *)
Definition sends (tr : list sevent) : list Z :=
  omap (fun e => match ev_call e with X_do_send i => Some i | _ => None end) tr.

Lemma sends_app t1 t2 : sends (t1 ++ t2) = sends t1 ++ sends t2.
Proof. apply omap_app. Qed.

(** ** A stable cluster *)

Definition node (f : filer) : buffer * Z := (f_addr f, f_port f).

(** [L] leads the shard: it answers, and every other filer redirects to
    itself or to [L]. *)
Definition serves (F : list filer) (L : Z) (e : sevent) : Prop :=
  match e with
  | Ev x v =>
      match x return sub_ans x -> Prop with
      | X_do_send i => fun '(ret, status, body) =>
          ret = 0 /\
          if i =? L then status <> POWERFS_NET_STATUS_ERR_REDIRECT
          else status = POWERFS_NET_STATUS_ERR_REDIRECT /\
               exists j f, (j = i \/ j = L) /\ F !! Z.to_nat j = Some f /\
                 powerfs_net_parse_redirect body 64 = Some (node f)
      | _ => fun _ => True
      end v
  end.

(** All filers are connected, have different addresses that fit their buffers,
    and the followers fit the blacklist. *)
Record stable (F : list filer) (L : Z) : Prop := {
  st_leader : 0 <= L < Z.of_nat (length F);
  st_few : Z.of_nat (length F) <= POWERFS_MAX_BLACKLISTED_SELF + 1;
  st_up : Forall (fun f => in_use f && connected f = true) F;
  st_distinct : NoDup (node <$> F);
  st_addr : Forall (fun f => blen (f_addr f) <= 63) F
}.

(** Only time passes, and not beyond the deadline. *)
Definition tick (deadline : Z) (s s' : pool) : Prop :=
  filers s' = filers s /\ routes s' = routes s /\ time_after (p_jiffies s') deadline = false.

Lemma geb_lt a b : a < b -> (a >=? b) = false.
Proof. intros H. rewrite Z.geb_leb. by apply Z.leb_gt. Qed.

(** *** Looking up filers *)

Lemma filer_at_nat s k : filer_at s (Z.of_nat k) = filers s !! k.
Proof. unfold filer_at. case_if; [lia|]. by rewrite Nat2Z.id. Qed.

Lemma filer_at_range s i : 0 <= i < Z.of_nat (length (filers s)) -> is_Some (filer_at s i).
Proof. intros Hi. unfold filer_at. case_if; [lia|]. apply lookup_lt_is_Some. lia. Qed.

Lemma filer_at_Some s i f : filer_at s i = Some f -> 0 <= i < Z.of_nat (length (filers s)) /\ filers s !! Z.to_nat i = Some f.
Proof. unfold filer_at. case_if; [done|]. intros H. split; [|done]. apply lookup_lt_Some in H. lia. Qed.

Lemma first_filer_spec s ok :
  match first_filer s ok with
  | Some i => exists f, filer_at s i = Some f /\ ok i f = true
  | None => forall i f, filer_at s i = Some f -> ok i f = false
  end.
Proof.
  unfold first_filer. destruct (List.find _ _) as [i|] eqn:E.
  - apply List.find_some in E as [_ E]. destruct (filer_at s i) as [f|]; [|done]. eauto.
  - intros i f Hf. pose proof (List.find_none _ _ E i) as Hn. cbv beta in Hn. rewrite Hf in Hn. apply Hn.
    apply filer_at_Some in Hf as [Hi _]. apply in_map_iff. exists (Z.to_nat i). split; [lia|]. apply in_seq. lia.
Qed.

Section cluster.
Context (F : list filer) (L : Z) (HF : stable F L).

Lemma node_inj i j fi fj : F !! i = Some fi -> F !! j = Some fj -> node fi = node fj -> i = j.
Proof.
  intros Hi Hj E. apply (NoDup_lookup (node <$> F) i j (node fi)); [apply HF|..]; rewrite list_lookup_fmap.
  - by rewrite Hi.
  - by rewrite Hj, E.
Qed.

Lemma same_node_spec a p n : same_node a p n = true <-> (a, p) = n.
Proof.
  unfold same_node. destruct n as [b q]. cbn. rewrite andb_true_iff, bool_decide_eq_true, Z.eqb_eq. split; [by intros [-> ->]|]. by intros [= -> ->].
Qed.

Lemma existsb_same a p bad : existsb (same_node a p) bad = true <-> (a, p) ∈ bad.
Proof.
  rewrite existsb_exists. setoid_rewrite same_node_spec. rewrite list_elem_of_In. split; [by intros (n & Hn & <-)|eauto].
Qed.

Lemma up_at s i f : filers s = F -> filer_at s i = Some f -> in_use f = true /\ connected f = true.
Proof.
  intros HFs Hf. apply filer_at_Some in Hf as [_ Hf]. rewrite HFs in Hf.
  pose proof (Forall_lookup_1 _ _ _ _ (st_up _ _ HF) Hf) as H. by apply andb_true_iff in H.
Qed.

(** The nodes at the indices [vis]. *)
Definition nodes (vis : list Z) : list (buffer * Z) :=
  (fun i => match F !! Z.to_nat i with Some f => node f | None => ([], 0) end) <$> vis.

Lemma nodes_elem i f vis :
  0 <= i -> F !! Z.to_nat i = Some f -> Forall (fun j => 0 <= j < Z.of_nat (length F)) vis ->
  node f ∈ nodes vis -> i ∈ vis.
Proof.
  intros Hi Hf Hv H. apply list_elem_of_fmap in H as (j & E & Hj).
  pose proof (proj1 (Forall_forall _ _) Hv j Hj) as Hjr. cbv beta in Hjr.
  destruct (lookup_lt_is_Some_2 F (Z.to_nat j)) as [g Hg]; [lia|]. rewrite Hg in E.
  assert (Z.to_nat i = Z.to_nat j) by (by eapply node_inj). replace i with j by lia. done.
Qed.

(** The search: [vis] are the followers that redirected to themselves. *)
Record searching (shard : Z) (s : pool) (l : sub_locals) (vis : list Z) : Prop := {
  se_filers : filers s = F;
  se_routes : length (routes s) = 64%nat;
  se_bad : bad_self l = nodes vis;
  se_range : Forall (fun i => 0 <= i < Z.of_nat (length F)) vis;
  se_nodup : NoDup vis;
  se_leader : L ∉ vis;
  se_last : forall t, last_tried l = Some t -> t ∈ vis;
  se_route : r_state (route_of s shard) <> ROUTE_VALID \/
             (vis = [] /\ 0 <= leader_filer_idx (route_of s shard) < Z.of_nat (length F))
}.

(** The leader is known. *)
Record known (shard : Z) (s : pool) (l : sub_locals) : Prop := {
  kn_filers : filers s = F;
  kn_bad : forall f, F !! Z.to_nat L = Some f -> node f ∉ bad_self l;
  kn_route : r_state (route_of s shard) = ROUTE_VALID /\ leader_filer_idx (route_of s shard) = L
}.

Definition same (s s' : pool) : Prop := filers s' = filers s /\ routes s' = routes s.

Lemma tick_same d s s' : tick d s s' -> same s s'.
Proof. intros (H1 & H2 & _). done. Qed.
Lemma route_same s s' shard : same s s' -> route_of s' shard = route_of s shard.
Proof. intros [_ H]. unfold route_of. by rewrite H. Qed.
Lemma searching_same shard s s' l vis : same s s' -> searching shard s l vis -> searching shard s' l vis.
Proof.
  intros Hs []. pose proof (route_same _ _ shard Hs) as Hr. destruct Hs as [H1 H2]. constructor; rewrite ?H1, ?H2, ?Hr; done.
Qed.
Lemma known_same shard s s' l : same s s' -> known shard s l -> known shard s' l.
Proof.
  intros Hs []. pose proof (route_same _ _ shard Hs) as Hr. destruct Hs as [H1 H2]. constructor; rewrite ?H1, ?Hr; done.
Qed.
Lemma same_trans s1 s2 s3 : same s1 s2 -> same s2 s3 -> same s1 s3.
Proof. intros [] []. split; congruence. Qed.
Lemma filer_at_same s s' i : same s s' -> filer_at s' i = filer_at s i.
Proof. intros [H _]. unfold filer_at. by rewrite H. Qed.

Lemma leader_at s : filers s = F -> exists f, filer_at s L = Some f /\ F !! Z.to_nat L = Some f.
Proof.
  intros H. destruct (filer_at_range s L) as [f Hf]; [rewrite H; apply HF|]. exists f. split; [done|].
  apply filer_at_Some in Hf as [_ Hf]. by rewrite H in Hf.
Qed.

(** The scan finds a filer that was not asked. *)
Lemma pick_fresh shard s l vis :
  searching shard s l vis -> exists i, pick_filer s l = Some i /\ 0 <= i < Z.of_nat (length F) /\ i ∉ vis.
Proof.
  intros []. unfold pick_filer.
  match goal with |- context [first_filer s ?ok] => pose proof (first_filer_spec s ok) as H; destruct (first_filer s ok) as [i|] eqn:E end.
  - destruct H as (f & Hf & Hok). exists i. split; [done|]. rewrite !andb_true_iff, !negb_true_iff in Hok.
    destruct Hok as [[_ _] Hb]. apply filer_at_Some in Hf as [Hr Hf]. rewrite se_filers0 in *. split; [done|].
    intros Hin. assert (Hb' : blacklisted (bad_self l) f = true); [|congruence].
    unfold blacklisted. apply existsb_same. rewrite se_bad0. apply list_elem_of_fmap. exists i. rewrite Hf. done.
  - exfalso. destruct (leader_at s se_filers0) as (f & Hf & HL). specialize (H L f Hf).
    destruct (up_at s L f se_filers0 Hf) as [Hu Hc]. rewrite Hu, Hc in H. cbn [andb] in H.
    apply andb_false_iff in H as [H|H]; apply negb_false_iff in H.
    + apply bool_decide_eq_true in H. by apply se_last0 in H.
    + unfold blacklisted in H. apply existsb_same in H. rewrite se_bad0 in H.
      apply (nodes_elem L f vis) in H; [done| |done|done]. apply HF.
Qed.

Lemma get_filer_valid s shard :
  filers s = F -> 0 <= shard < POWERFS_MAX_SHARDS -> 0 <= leader_filer_idx (route_of s shard) < Z.of_nat (length F) ->
  powerfs_conn_get_filer_for_shard s shard = Some (leader_filer_idx (route_of s shard)).
Proof.
  intros H Hs Hi. unfold powerfs_conn_get_filer_for_shard, filer_count. rewrite H.
  by rewrite !geb_lt, (proj2 (Z.ltb_ge _ 0)) by lia.
Qed.

(** A VALID route to a filer that is not blacklisted is taken. *)
Lemma runs_valid_conn d shard l s tr c s' i f :
  filers s = F -> 0 <= shard < POWERFS_MAX_SHARDS -> leader_filer_idx (route_of s shard) = i ->
  filer_at s i = Some f -> node f ∉ bad_self l ->
  runs (tick d) (valid_conn shard l) s tr c s' -> tr = [] /\ same s s' /\ c = Some i.
Proof.
  intros HFs Hsh Hi Hf Hb H. apply runs_peek_bind in H as (s1 & T1 & H). apply tick_same in T1.
  assert (Hr : 0 <= i < Z.of_nat (length F)) by (apply filer_at_Some in Hf as [Hr _]; by rewrite HFs in Hr).
  rewrite get_filer_valid in H; [|by destruct T1 as [-> _]|done|by rewrite (route_same _ _ _ T1), Hi].
  rewrite (route_same _ _ _ T1), Hi in H.
  apply runs_peek_bind in H as (s2 & T2 & H). apply tick_same in T2. rewrite (filer_at_same _ _ _ T2), (filer_at_same _ _ _ T1), Hf in H.
  destruct (up_at s i f HFs Hf) as [_ Hc]. rewrite Hc in H. cbn [negb] in H.
  apply runs_peek_bind in H as (s3 & T3 & H). apply tick_same in T3.
  rewrite (filer_at_same _ _ _ T3), (filer_at_same _ _ _ T2), (filer_at_same _ _ _ T1), Hf in H.
  assert (Hbl : blacklisted (bad_self l) f = false).
  { apply not_true_iff_false. intros E. by apply existsb_same in E. }
  rewrite Hbl in H. destruct H as (-> & -> & ->). split_and!; [done| |done]. eauto using same_trans.
Qed.

Lemma runs_select d shard l s tr c s' vis :
  0 <= shard < POWERFS_MAX_SHARDS -> searching shard s l vis -> runs (tick d) (select_conn shard l) s tr c s' ->
  tr = [] /\ same s s' /\ exists i, c = Some i /\ 0 <= i < Z.of_nat (length F) /\ i ∉ vis.
Proof.
  intros Hsh Hse H. apply runs_peek_bind in H as (s1 & T1 & H). apply tick_same in T1.
  unfold powerfs_shard_route_get_state in H. rewrite geb_lt, (route_same _ _ _ T1) in H by lia.
  apply (searching_same _ _ _ _ _ T1) in Hse as Hse1.
  destruct (r_state (route_of s shard)) eqn:Er.
  - destruct (se_route _ _ _ _ Hse) as [?|[-> Hi]]; [done|]. set (i := leader_filer_idx (route_of s shard)) in *.
    destruct (filer_at_range s1 i) as [f Hf]; [by rewrite (se_filers _ _ _ _ Hse1)|].
    apply (runs_valid_conn _ _ _ _ _ _ _ i f (se_filers _ _ _ _ Hse1)) in H; [|done|by rewrite (route_same _ _ _ T1)|done|].
    + destruct H as (-> & T2 & ->). split_and!; [done|eauto using same_trans|]. exists i. split_and!; [done|lia|lia|]. by apply not_elem_of_nil.
    + rewrite (se_bad _ _ _ _ Hse). by apply not_elem_of_nil.
  - apply runs_peek in H as (s2 & T2 & -> & -> & ->). apply tick_same in T2.
    split_and!; [done|eauto using same_trans|]. eapply pick_fresh. exact (searching_same _ _ _ _ _ T2 Hse1).
  - apply runs_peek in H as (s2 & T2 & -> & -> & ->). apply tick_same in T2.
    split_and!; [done|eauto using same_trans|]. eapply pick_fresh. exact (searching_same _ _ _ _ _ T2 Hse1).
Qed.

Lemma runs_select_known d shard l s tr c s' :
  0 <= shard < POWERFS_MAX_SHARDS -> known shard s l -> runs (tick d) (select_conn shard l) s tr c s' ->
  tr = [] /\ same s s' /\ c = Some L.
Proof.
  intros Hsh Hk H. apply runs_peek_bind in H as (s1 & T1 & H). apply tick_same in T1.
  unfold powerfs_shard_route_get_state in H. rewrite geb_lt, (route_same _ _ _ T1) in H by lia.
  pose proof (known_same _ _ _ _ T1 Hk) as Hk1. destruct Hk1 as [H1 H2 [H3 H4]]. rewrite (route_same _ _ _ T1) in H3, H4. rewrite H3 in H.
  destruct (leader_at s1 H1) as (f & Hf & HL).
  apply (runs_valid_conn _ _ _ _ _ _ _ L f H1) in H; [|done|by rewrite (route_same _ _ _ T1)|done|auto].
  destruct H as (-> & T2 & ->). eauto using same_trans.
Qed.

(** *** Effects on the route of the shard *)

Lemma route_on_route s shard f :
  0 <= shard -> Z.of_nat (length (routes s)) = POWERFS_MAX_SHARDS -> shard < POWERFS_MAX_SHARDS ->
  route_of (on_route s shard f) shard = f (route_of s shard).
Proof.
  intros H0 Hl Hs. unfold route_of, on_route. cbn [routes set_routes]. rewrite list_lookup_alter, decide_True by done.
  destruct (lookup_lt_is_Some_2 (routes s) (Z.to_nat shard)) as [e ->]; [lia|]. done.
Qed.

(** Leader and state of the route after [p]: [g]. *)
Definition reroutes (shard : Z) (s : pool) (tr : list sevent) (s' : pool) (lead : Z) (st : powerfs_shard_route_state) : Prop :=
  sends tr = [] /\ filers s' = filers s /\ length (routes s') = length (routes s) /\
  leader_filer_idx (route_of s' shard) = lead /\ r_state (route_of s' shard) = st.

Lemma complete_all_sends d reqs err s tr a s' : runs (tick d) (complete_all reqs err) s tr a s' -> sends tr = [] /\ s' = s.
Proof.
  revert s tr. induction reqs as [|r reqs IH]; intros s tr H; cbn [complete_all] in H.
  - by destruct H as (-> & _ & ->).
  - apply runs_call_bind in H as (v & tr' & -> & H). apply IH in H as [H ->]. done.
Qed.

Lemma runs_dispatch d shard s tr a s' :
  0 <= shard < POWERFS_MAX_SHARDS -> Z.of_nat (length (routes s)) = POWERFS_MAX_SHARDS ->
  runs (tick d) (powerfs_shard_route_dispatch_pending shard) s tr a s' ->
  reroutes shard s tr s' (leader_filer_idx (route_of s shard)) (r_state (route_of s shard)).
Proof.
  intros Hsh Hl H. unfold powerfs_shard_route_dispatch_pending in H.
  apply runs_peek_bind in H as (s1 & T1 & H). apply tick_same in T1.
  assert (Hdone : forall s2, same s1 s2 -> reroutes shard s [] s2 (leader_filer_idx (route_of s shard)) (r_state (route_of s shard))).
  { intros s2 T2. pose proof (same_trans _ _ _ T1 T2) as T. pose proof (route_same _ _ shard T) as Hr. destruct T as [E1 E2].
    split_and!; [done|done|by rewrite E2|by rewrite Hr|by rewrite Hr]. }
  case_run H. { destruct H as (-> & _ & ->). by apply Hdone. }
  apply runs_peek_bind in H as (s2 & T2 & H). apply tick_same in T2.
  apply runs_peek_bind in H as (s3 & T3 & H). apply tick_same in T3. pose proof (same_trans _ _ _ T2 T3) as T23.
  unfold when_ in H. case_run H; [|destruct H as (-> & _ & ->); by apply Hdone].
  apply runs_section in H as (s4 & T4 & H). apply tick_same in T4. cbn [fst snd] in H.
  pose proof (same_trans _ _ _ T1 (same_trans _ _ _ T23 T4)) as T. apply complete_all_sends in H as [H ->].
  pose proof (route_same _ _ shard T) as Hr. destruct T as [E1 E2].
  split_and!; [done|done| | |].
  - cbn. rewrite length_alter. by rewrite E2.
  - rewrite route_on_route by (rewrite ?E2; lia). cbn. by rewrite Hr.
  - rewrite route_on_route by (rewrite ?E2; lia). cbn. by rewrite Hr.
Qed.

Lemma runs_route_update d shard idx s tr a s' :
  0 <= shard < POWERFS_MAX_SHARDS -> Z.of_nat (length (routes s)) = POWERFS_MAX_SHARDS ->
  runs (tick d) (powerfs_shard_route_update shard idx) s tr a s' -> reroutes shard s tr s' idx ROUTE_VALID.
Proof.
  intros Hsh Hl H. unfold powerfs_shard_route_update in H. rewrite geb_lt in H by lia.
  apply runs_section in H as (s1 & T1 & H). apply tick_same in T1. destruct T1 as [E1 E2]. cbn [fst snd] in H.
  set (s2 := on_route s1 shard _) in *.
  assert (Hr : route_of s2 shard = mk_route idx ROUTE_VALID (r_pending (route_of s1 shard))).
  { apply (route_on_route s1 shard); rewrite ?E2; lia. }
  assert (Hl2 : length (routes s2) = length (routes s)) by (cbn; by rewrite length_alter, E2).
  unfold when_ in H. case_run H.
  - apply runs_dispatch in H; [|done|by rewrite Hl2]. destruct H as (R1 & R2 & R3 & R4 & R5). rewrite Hr in R4, R5.
    split_and!; [done|by rewrite R2|by rewrite R3|done|done].
  - destruct H as (-> & _ & ->). split_and!; [done|done|done|by rewrite Hr|by rewrite Hr].
Qed.

Lemma runs_to_checking d shard s tr a s' :
  0 <= shard < POWERFS_MAX_SHARDS -> Z.of_nat (length (routes s)) = POWERFS_MAX_SHARDS ->
  runs (tick d) (to_checking shard) s tr a s' ->
  tr = [] /\ filers s' = filers s /\ length (routes s') = length (routes s) /\ r_state (route_of s' shard) <> ROUTE_VALID.
Proof.
  intros Hsh Hl H. unfold to_checking in H. rewrite (proj2 (Z.ltb_lt _ _)) in H by lia. cbn [when_] in H.
  apply runs_locked in H as (s1 & T1 & -> & ->). apply tick_same in T1. destruct T1 as [E1 E2].
  split_and!; [done|done|cbn; by rewrite length_alter, E2|].
  rewrite route_on_route by (rewrite ?E2; lia). case_bool_decide; done.
Qed.

(** *** One attempt *)

Lemma node_of_at s i f : filer_at s i = Some f -> node_of s i = node f.
Proof. unfold node_of. by intros ->. Qed.

Lemma find_leader s f : filers s = F -> F !! Z.to_nat L = Some f ->
  powerfs_conn_find_filer s (f_addr f) (f_port f) = Some L.
Proof.
  intros HFs Hf. destruct (leader_at s HFs) as (f' & Hat & Hf'). assert (f' = f) as -> by congruence.
  unfold powerfs_conn_find_filer. match goal with |- first_filer s ?ok = _ => pose proof (first_filer_spec s ok) as H end.
  destruct (first_filer s _) as [i|].
  - destruct H as (g & Hg & Hok). apply andb_true_iff in Hok as [_ Hn]. apply same_node_spec in Hn.
    apply filer_at_Some in Hg as [Hi Hg]. rewrite HFs in Hg. f_equal.
    assert (Z.to_nat i = Z.to_nat L) by (by eapply node_inj). pose proof (st_leader _ _ HF). lia.
  - specialize (H L f Hat). destruct (up_at s L f HFs Hat) as [Hu _]. rewrite Hu in H. cbn [andb] in H.
    assert (same_node (f_addr f) (f_port f) (f_addr f, f_port f) = true) by (by apply same_node_spec). congruence.
Qed.

Lemma nodes_snoc vis i f : F !! Z.to_nat i = Some f -> nodes (vis ++ [i]) = nodes vis ++ [node f].
Proof. intros H. unfold nodes. rewrite fmap_app. cbn. by rewrite H. Qed.

Lemma pigeon vis : NoDup vis -> Forall (fun i => 0 <= i < Z.of_nat (length F)) vis -> L ∉ vis ->
  Z.of_nat (length vis) < Z.of_nat (length F).
Proof.
  intros Hn Hr HL. pose proof (st_leader _ _ HF).
  assert (Hsub : forall x, x ∈ L :: vis -> x ∈ Z.of_nat <$> seq 0 (length F)).
  { intros x Hx. apply list_elem_of_fmap. exists (Z.to_nat x). rewrite elem_of_seq.
    apply elem_of_cons in Hx as [->|Hx]; [split; lia|]. rewrite Forall_forall in Hr. specialize (Hr x Hx). cbv beta in Hr. split; lia. }
  assert (Hle : (length (L :: vis) <= length (Z.of_nat <$> seq 0 (length F)))%nat).
  { apply submseteq_length, NoDup_submseteq; [by constructor|exact Hsub]. }
  rewrite length_fmap, length_seq in Hle. cbn in Hle. lia.
Qed.

Lemma nodup_snoc (vis : list Z) i : NoDup vis -> i ∉ vis -> NoDup (vis ++ [i]).
Proof. intros H1 H2. apply NoDup_app. split_and!; [done| |apply NoDup_singleton].
  intros x Hx ->%list_elem_of_singleton. done.
Qed.
Lemma elem_snoc (vis : list Z) i j : j ∈ vis ++ [i] <-> j ∈ vis \/ j = i.
Proof. rewrite elem_of_app, list_elem_of_singleton. done. Qed.

(** A follower that redirects to itself is remembered. *)
Lemma self_redirect_step d shard attempt i f s tr e s' l vis :
  0 <= shard < POWERFS_MAX_SHARDS -> filers s = F -> length (routes s) = 64%nat -> bad_self l = nodes vis ->
  Forall (fun i => 0 <= i < Z.of_nat (length F)) vis -> NoDup vis -> L ∉ vis ->
  last_tried l = Some i -> i ∉ vis -> i <> L -> 0 <= i < Z.of_nat (length F) -> F !! Z.to_nat i = Some f ->
  runs (tick d) (self_redirect shard attempt (node f) l) s tr e s' ->
  exists l', e = Retry l' /\ sends tr = [] /\ searching shard s' l' (vis ++ [i]).
Proof.
  intros Hsh HFs Hrl Hb Hr Hn HL Hlast Hi HiL Hir Hf H. unfold self_redirect in H.
  assert (Ha : existsb (same_node (node f).1 (node f).2) (bad_self l) = false).
  { apply not_true_iff_false. intros E. apply existsb_same in E. rewrite Hb in E. by apply (nodes_elem i f vis) in E; [| lia | |]. }
  rewrite Ha in H. cbn [negb andb] in H.
  assert (Hlen : Z.of_nat (length (bad_self l)) < POWERFS_MAX_BLACKLISTED_SELF).
  { rewrite Hb. unfold nodes. rewrite length_fmap. pose proof (st_few _ _ HF).
    pose proof (pigeon (vis ++ [i])) as Hp. rewrite length_app in Hp. cbn [length] in Hp.
    assert (Z.of_nat (length vis + 1) < Z.of_nat (length F)); [|lia].
    apply Hp; [by apply nodup_snoc|apply Forall_app; split; [done|by constructor]|]. intros [?|?]%elem_snoc; [done|congruence]. }
  rewrite (proj2 (Z.ltb_lt _ _)) in H by done.
  apply runs_bind in H as (t1 & t2 & [] & s1 & -> & H1 & H). apply runs_to_checking in H1 as (-> & E1 & E2 & E3); [|done|by rewrite Hrl].
  cbn [app when_] in *. apply runs_call_bind in H as ([] & t & -> & H). destruct H as (-> & -> & ->).
  eexists. split_and!; [done|done|]. constructor; cbn.
  - by rewrite E1.
  - by rewrite E2.
  - rewrite Hb, (nodes_snoc _ _ _ Hf). unfold node. f_equal. f_equal. f_equal. apply take_ge.
    pose proof (Forall_lookup_1 _ _ _ _ (st_addr _ _ HF) Hf) as Hadr. cbv beta in Hadr. unfold blen in Hadr. lia.
  - apply Forall_app. split; [done|by constructor].
  - by apply nodup_snoc.
  - intros [?|?]%elem_snoc; [done|congruence].
  - intros t Ht. rewrite Hlast in Ht. apply elem_snoc. right. congruence.
  - by left.
Qed.

(** What an attempt of the search leaves. *)
Definition step_end (shard : Z) (vis : list Z) (tr : list sevent) (e : attempt_end) (s' : pool) : Prop :=
  (sends tr = [L] /\ exists r, e = Done r /\ res_ret r = 0 /\ res_status r <> POWERFS_NET_STATUS_ERR_REDIRECT) \/
  exists i l', sends tr = [i] /\ 0 <= i < Z.of_nat (length F) /\ (i ∉ vis) /\ i <> L /\ e = Retry l' /\
    (searching shard s' l' (vis ++ [i]) \/ known shard s' l').

(** A redirect answered by the follower [i]. *)
Lemma redirect_step d req shard attempt i f j g body s tr e s' l vis :
  0 <= shard < POWERFS_MAX_SHARDS -> filers s = F -> length (routes s) = 64%nat -> bad_self l = nodes vis ->
  Forall (fun i => 0 <= i < Z.of_nat (length F)) vis -> NoDup vis -> L ∉ vis ->
  last_tried l = Some i -> i ∉ vis -> i <> L -> 0 <= i < Z.of_nat (length F) -> F !! Z.to_nat i = Some f ->
  (j = i \/ j = L) -> F !! Z.to_nat j = Some g -> powerfs_net_parse_redirect body 64 = Some (node g) ->
  runs (tick d) (handle_redirect req shard attempt i body l) s tr e s' ->
  exists l', sends tr = [] /\ e = Retry l' /\ (searching shard s' l' (vis ++ [i]) \/ known shard s' l').
Proof.
  intros Hsh HFs Hrl Hb Hr Hn HL Hlast Hi HiL Hir Hf Hj Hg Hp H. unfold handle_redirect in H. rewrite Hp in H.
  assert (Hat : forall s2, same s s2 -> filer_at s2 i = Some f).
  { intros s2 T. rewrite (filer_at_same _ _ _ T). unfold filer_at. rewrite HFs, (proj2 (Z.ltb_ge _ _)) by lia. done. }
  apply runs_peek_bind in H as (s1 & T1 & H). apply tick_same in T1. rewrite (node_of_at _ _ _ (Hat _ T1)) in H.
  destruct (same_node (f_addr g) (f_port g) (node f)) eqn:Es.
  { destruct T1 as [T1 T2]. eapply (self_redirect_step d shard attempt i f) in H as (l' & -> & H1 & H2); eauto; try congruence.
    all: by rewrite ?T1, ?T2. }
  assert (j = L) as ->.
  { destruct Hj as [->|]; [|done]. assert (g = f) as -> by congruence. apply not_true_iff_false in Es. destruct Es. by apply same_node_spec. }
  assert (Hnb : node g ∉ bad_self l).
  { rewrite Hb. intros E. apply (nodes_elem L g vis) in E; auto. apply HF. }
  assert (Hnb' : existsb (same_node (f_addr g) (f_port g)) (bad_self l) = false).
  { apply not_true_iff_false. intros E. by apply existsb_same in E. }
  rewrite Hnb' in H. apply runs_peek_bind in H as (s2 & T2 & H). apply tick_same in T2. pose proof (same_trans _ _ _ T1 T2) as T12.
  rewrite Hlast, (node_of_at _ _ _ (Hat _ T12)), Es in H.
  apply runs_peek_bind in H as (s3 & T3 & H). apply tick_same in T3. pose proof (same_trans _ _ _ T12 T3) as T13.
  assert (HF3 : filers s3 = F) by (destruct T13; congruence). rewrite (find_leader s3 g HF3 Hg) in H.
  apply runs_peek_bind in H as (s4 & T4 & H). apply tick_same in T4. pose proof (same_trans _ _ _ T13 T4) as T14.
  assert (HF4 : filers s4 = F) by (destruct T14; congruence).
  destruct (leader_at s4 HF4) as (g' & Hg4 & Hg'). assert (g' = g) as -> by congruence.
  rewrite (node_of_at _ _ _ Hg4) in H. change (existsb (same_node (node g).1 (node g).2) (bad_self l)) with (existsb (same_node (f_addr g) (f_port g)) (bad_self l)) in H.
  rewrite Hnb' in H. apply runs_bind in H as (t1 & t2 & [] & s5 & -> & H1 & H).
  apply runs_route_update in H1 as (R1 & R2 & R3 & R4 & R5); [|done|destruct T14 as [_ ->]; by rewrite Hrl].
  destruct H as (-> & -> & ->). eexists. rewrite sends_app, R1. split_and!; [done|done|]. right. constructor; cbn.
  - congruence.
  - intros f0 Hf0. by assert (f0 = g) as -> by congruence.
  - done.
Qed.

Lemma send_step d req shard attempt i s tr e s' l vis :
  0 <= shard < POWERFS_MAX_SHARDS -> searching shard s l vis -> 0 <= i < Z.of_nat (length F) -> i ∉ vis ->
  Forall (serves F L) tr -> runs (tick d) (send_on req shard d attempt i l) s tr e s' -> step_end shard vis tr e s'.
Proof.
  intros Hsh [] Hi Hiv Hsv H. unfold send_on in H. cbv zeta in H.
  apply runs_call_bind in H as ([] & t1 & -> & H). apply runs_call_bind in H as ([[ret st] body] & t2 & -> & H).
  apply Forall_cons in Hsv as [_ Hsv]. apply Forall_cons in Hsv as [[-> Hans] _]. cbn [negb when_ Z.eqb] in H.
  destruct (Z.eqb_spec i L) as [->|HiL].
  - left. apply (runs_bind (tick d) (Ret tt)) in H as (u1 & u2 & [] & s1 & -> & (-> & _ & ->) & H).
    change (0 =? - ENOTCONN) with false in H. cbn [Z.ltb Z.compare] in H.
    rewrite (proj2 (Z.eqb_neq _ _)) in H by done. destruct H as (-> & -> & ->). split; [done|]. eexists. split_and!; done.
  - destruct Hans as (-> & j & g & Hj & Hg & Hp). right.
    apply (runs_bind (tick d) (Ret tt)) in H as (u1 & u2 & [] & s1 & -> & (-> & _ & ->) & H).
    change (0 =? - ENOTCONN) with false in H. cbn [Z.ltb Z.compare Z.eqb POWERFS_NET_STATUS_ERR_REDIRECT Pos.eqb] in H.
    destruct (lookup_lt_is_Some_2 F (Z.to_nat i)) as [f Hf]; [lia|].
    eapply redirect_step in H as (l' & E1 & -> & E2); eauto. exists i, l'. split_and!; auto; [|lia..].
    change (i :: sends u2 = [i]). by rewrite E1.
Qed.

Lemma search_attempt d req shard attempt s tr e s' l vis :
  0 <= shard < POWERFS_MAX_SHARDS -> searching shard s l vis -> Forall (serves F L) tr ->
  runs (tick d) (submit_attempt req shard d attempt l) s tr e s' -> step_end shard vis tr e s'.
Proof.
  intros Hsh Hse Hsv H. apply runs_peek_bind in H as (s1 & T1 & H). rewrite (proj2 (proj2 T1)) in H. apply tick_same in T1.
  apply runs_bind in H as (t1 & t2 & c & s2 & -> & H1 & H). apply (searching_same _ _ _ _ _ T1) in Hse.
  apply (runs_select _ _ _ _ _ _ _ vis) in H1 as (-> & T2 & i & -> & Hi & Hiv); [|done|done].
  eapply send_step; [done|by eapply searching_same|exact Hi|exact Hiv|exact Hsv|exact H].
Qed.

Lemma known_attempt d req shard attempt s tr e s' l :
  0 <= shard < POWERFS_MAX_SHARDS -> known shard s l -> Forall (serves F L) tr ->
  runs (tick d) (submit_attempt req shard d attempt l) s tr e s' ->
  sends tr = [L] /\ exists r, e = Done r /\ res_ret r = 0 /\ res_status r <> POWERFS_NET_STATUS_ERR_REDIRECT.
Proof.
  intros Hsh Hk Hsv H. apply runs_peek_bind in H as (s1 & T1 & H). rewrite (proj2 (proj2 T1)) in H. apply tick_same in T1.
  apply runs_bind in H as (t1 & t2 & c & s2 & -> & H1 & H).
  apply runs_select_known in H1 as (-> & T2 & ->); [|done|by eapply known_same]. unfold send_on in H. cbv zeta in H.
  apply runs_call_bind in H as ([] & t3 & -> & H). apply runs_call_bind in H as ([[ret st] body] & t4 & -> & H).
  apply Forall_cons in Hsv as [_ Hsv]. apply Forall_cons in Hsv as [[-> Hans] _]. rewrite Z.eqb_refl in Hans.
  cbn [negb when_ Z.eqb] in H. apply (runs_bind (tick d) (Ret tt)) in H as (u1 & u2 & [] & s3 & -> & (-> & _ & ->) & H).
  change (0 =? - ENOTCONN) with false in H. cbn [Z.ltb Z.compare] in H.
  rewrite (proj2 (Z.eqb_neq _ _)) in H by done. destruct H as (-> & -> & ->). split; [done|]. eexists. split_and!; done.
Qed.

(** The loop: the filers asked are new, and the last is the leader. *)
Definition reached (vis : list Z) (tr : list sevent) (r : option sub_result) : Prop :=
  exists pre q, sends tr = pre ++ [L] /\ NoDup (vis ++ pre) /\ (L ∉ pre) /\ r = Some q /\
    res_ret q = 0 /\ res_status q <> POWERFS_NET_STATUS_ERR_REDIRECT.

Lemma search_loop d req shard fuel attempt s tr r s' l vis :
  0 <= shard < POWERFS_MAX_SHARDS -> searching shard s l vis ->
  Z.of_nat (length F) <= Z.of_nat (length vis) + Z.of_nat fuel -> Forall (serves F L) tr ->
  runs (tick d) (submit_loop fuel req shard d attempt l) s tr r s' -> reached vis tr r.
Proof.
  intros Hsh. revert attempt s tr l vis. induction fuel as [|fuel IH]; intros attempt s tr l vis Hse Hf Hsv H.
  { destruct Hse. pose proof (pigeon vis se_nodup0 se_range0 se_leader0). lia. }
  cbn [submit_loop] in H. apply runs_bind in H as (t1 & t2 & e & s1 & -> & H1 & H). apply Forall_app in Hsv as [Hs1 Hs2].
  destruct (search_attempt _ _ _ _ _ _ _ _ _ _ Hsh Hse Hs1 H1) as [(E & q & -> & Hq)|(i & l' & E & Hir & Hi & HiL & -> & He)].
  { destruct H as (-> & -> & ->). exists [], q. rewrite !app_nil_r. destruct Hse, Hq. split_and!; auto. apply not_elem_of_nil. }
  assert (Hpre : forall pre q, sends t2 = pre ++ [L] -> NoDup ((vis ++ [i]) ++ pre) -> L ∉ pre -> r = Some q ->
            res_ret q = 0 -> res_status q <> POWERFS_NET_STATUS_ERR_REDIRECT -> reached vis (t1 ++ t2) r).
  { intros pre q P1 P2 P3 P4 P5 P6. exists (i :: pre), q. rewrite sends_app, E, P1. rewrite <- app_assoc in P2.
    split_and!; auto. rewrite elem_of_cons. intros [?|?]; congruence. }
  destruct He as [He|He].
  - apply IH with (vis := vis ++ [i]) in H; [|done|rewrite length_app; cbn; lia|done].
    destruct H as (pre & q & P1 & P2 & P3 & P4 & P5 & P6). eauto.
  - destruct fuel as [|fuel].
    { destruct Hse. pose proof (pigeon (vis ++ [i])) as Hp. rewrite length_app in Hp. cbn [length] in Hp. exfalso.
      assert (Z.of_nat (length vis + 1) < Z.of_nat (length F)); [|lia].
      apply Hp; [by apply nodup_snoc|apply Forall_app; split; [done|by constructor]|].
      intros [?|?]%elem_snoc; [done|congruence]. }
    cbn [submit_loop] in H. apply runs_bind in H as (t3 & t4 & e & s2 & -> & H2 & H). apply Forall_app in Hs2 as [Hs2 _].
    destruct (known_attempt _ _ _ _ _ _ _ _ _ Hsh He Hs2 H2) as (E2 & q & -> & P5 & P6). destruct H as (-> & -> & ->).
    rewrite app_nil_r in *. destruct Hse. apply (Hpre [] q); auto; [|apply not_elem_of_nil]. rewrite app_nil_r. by apply nodup_snoc.
Qed.
End cluster.

(** ** Accounting *)

Definition starts (tr : list sevent) : list Z :=
  omap (fun e => match ev_call e with X_record_start i => Some i | _ => None end) tr.
Definition completes (tr : list sevent) : list Z :=
  omap (fun e => match ev_call e with X_record_complete i => Some i | _ => None end) tr.
(** The filers on which [do_send] failed. *)
Definition failures (tr : list sevent) : list Z :=
  omap (fun e => match e with
                 | Ev x v => match x return sub_ans x -> option Z with
                             | X_do_send i => fun a => if a.1.1 =? 0 then None else Some i
                             | _ => fun _ => None
                             end v
                 end) tr.
Definition is_wait (e : sevent) : bool := match ev_call e with X_wait_dispatch => true | _ => false end.
Definition dispatch_waits (tr : list sevent) : Z := Z.of_nat (length (filter (fun e => is_wait e = true) tr)).

(** One start per request sent, one completion per failed one. *)
Definition balanced (tr : list sevent) : Prop := starts tr = sends tr /\ completes tr = failures tr.

Lemma balanced_app t1 t2 : balanced t1 -> balanced t2 -> balanced (t1 ++ t2).
Proof. unfold balanced, starts, sends, completes, failures. rewrite !omap_app. intros [-> ->] [-> ->]. done. Qed.
Lemma dispatch_waits_app t1 t2 : dispatch_waits (t1 ++ t2) = dispatch_waits t1 + dispatch_waits t2.
Proof. unfold dispatch_waits. rewrite filter_app, length_app. lia. Qed.

(** Calls that neither send nor wait. *)
Definition silent (x : sub_ext) : Prop := match x with X_complete _ _ | X_msleep _ => True | _ => False end.

Lemma silent_trace tr : Forall (fun e : sevent => silent (ev_call e)) tr -> balanced tr /\ dispatch_waits tr = 0.
Proof.
  induction 1 as [|[x v] tr Hx _ [[IH1 IH2] IH3]]; [done|]. destruct x; cbn in Hx; try done; (split; [split|]; done).
Qed.

(** What the answers of the outside calls promise: [do_send] gives no positive
    result, and a wait ends without error only by its timeout. *)
Definition honest (e : sevent) : Prop :=
  match e with
  | Ev x v => match x return sub_ans x -> Prop with
              | X_do_send _ => fun a => a.1.1 <= 0
              | X_wait_dispatch => fun a => a.2 = 0 -> a.1 <= 0
              | _ => fun _ => True
              end v
  end.

Ltac walk_silent tac := repeat first
  [ match goal with |- forall _, _ => intro end
  | exact I
  | tac
  | match goal with
    | |- only _ (call _) => split; [exact I|intro]
    | |- only _ (locked _) => intros ? ?
    | |- only _ (peek _) => intros ? ?
    | |- only _ (when_ ?b _) => destruct b; unfold when_
    | |- only _ (Ret _) => exact I
    | |- only _ (_ ≫= _) => apply only_bind
    | |- only _ (match ?x with _ => _ end) => destruct x
    | |- only _ (section _) => intros ? ?
    end ].

Lemma complete_all_silent reqs err : only silent (complete_all reqs err).
Proof. induction reqs as [|r reqs IH]; cbn [complete_all]; walk_silent ltac:(exact IH). Qed.
Lemma take_pending_silent shard : only silent (take_pending shard).
Proof. intros b s. apply complete_all_silent. Qed.
Lemma dispatch_silent shard : only silent (powerfs_shard_route_dispatch_pending shard).
Proof. unfold powerfs_shard_route_dispatch_pending. walk_silent ltac:(apply take_pending_silent). Qed.
Lemma update_silent shard idx : only silent (powerfs_shard_route_update shard idx).
Proof.
  unfold powerfs_shard_route_update. walk_silent ltac:(apply dispatch_silent). cbn [snd]. walk_silent ltac:(apply dispatch_silent).
Qed.
Lemma select_silent shard l : only silent (select_conn shard l).
Proof. unfold select_conn, valid_conn, to_checking. walk_silent fail. Qed.
Lemma redirect_silent req shard attempt i body l : only silent (handle_redirect req shard attempt i body l).
Proof.
  unfold handle_redirect, self_redirect, stale_redirect, redirect_failed, to_checking. cbv zeta.
  walk_silent ltac:(apply update_silent).
Qed.

(** A redirect ends in another attempt with the same number of waits behind
    it, or in an error. *)
Definition redirect_end (l : sub_locals) (e : attempt_end) : Prop :=
  match e with Done r => res_ret r <> 0 | Retry l' => eagain_retries l' = eagain_retries l end.

Lemma redirect_ensures req shard attempt i body l : ensures (redirect_end l) (handle_redirect req shard attempt i body l).
Proof.
  unfold handle_redirect, self_redirect, stale_redirect, redirect_failed. cbv zeta.
  repeat first
    [ match goal with
      | |- ensures _ (Ret _) => cbn; first [done | case_if; done]
      | |- ensures _ (_ ≫= _) => apply ensures_bind; intro
      | |- ensures _ (match ?x with _ => _ end) => destruct x
      end ].
Qed.
(** The answer is the one of the last filer asked. *)
Definition answered (tr : list sevent) (r : sub_result) : Prop :=
  res_status r <> POWERFS_NET_STATUS_ERR_REDIRECT /\
  exists pre i, tr = pre ++ [Ev (X_record_start i) tt; Ev (X_do_send i) (0, res_status r, res_body r)].

(** What one attempt with [l] may do. *)
Definition attempt_ok (l : sub_locals) (tr : list sevent) (e : attempt_end) : Prop :=
  balanced tr /\
  match e with
  | Done r => dispatch_waits tr <= 1 /\ (res_ret r = 0 -> answered tr r)
  | Retry l' => eagain_retries l' = eagain_retries l + dispatch_waits tr /\
                (dispatch_waits tr = 0 \/ eagain_retries l' <= POWERFS_REQ_MAX_EAGAIN_RETRIES)
  end.

Lemma wait_ok R req shard l s tr e s' :
  Forall honest tr -> runs R (wait_for_filer req shard l) s tr e s' -> attempt_ok l tr e.
Proof.
  intros Hh H. unfold wait_for_filer in H. case_run H.
  { apply runs_call_bind in H as ([] & t & -> & -> & -> & ->). split_and!; done. }
  apply runs_locked_bind in H as (s1 & _ & H). apply runs_call_bind in H as ([wr err] & t & -> & H).
  apply Forall_cons in Hh as [Hh _]. cbn in Hh. apply runs_locked_bind in H as (s2 & _ & H).
  assert (Ht : t = []) by (repeat case_run H; by destruct H as (-> & _)). subst t.
  split; [done|]. change (dispatch_waits [Ev X_wait_dispatch (wr, err)]) with 1.
  repeat case_run H; destruct H as (_ & -> & _); cbn.
  - done.
  - done.
  - done.
  - split; [lia|]. right. unfold POWERFS_REQ_MAX_EAGAIN_RETRIES in *. lia.
  - split; [lia|]. intros ->. exfalso. bool_to_prop. apply andb_false_iff in E1. bool_to_prop. destruct E1 as [E1|E1]; bool_to_prop; lia.
Qed.

Lemma send_ok R req shard d attempt i l s tr e s' :
  Forall honest tr -> runs R (send_on req shard d attempt i l) s tr e s' -> attempt_ok l tr e.
Proof.
  intros Hh H. unfold send_on in H. cbv zeta in H.
  apply runs_call_bind in H as ([] & t1 & -> & H). apply runs_call_bind in H as ([[ret st] body] & t2 & -> & H).
  apply Forall_cons in Hh as [_ Hh]. apply Forall_cons in Hh as [Hret Hh]. cbn in Hret.
  apply runs_bind in H as (t3 & t4 & [] & s1 & -> & H1 & H).
  assert (H3 : t3 = if ret =? 0 then [] else [Ev (X_record_complete i) tt]).
  { destruct (ret =? 0); cbn [negb when_] in H1; [by destruct H1 as (-> & _)|]. by destruct H1 as ([] & t & -> & -> & _). }
  assert (Hb : forall t, balanced t -> dispatch_waits t = 0 ->
    balanced (Ev (X_record_start i) tt :: Ev (X_do_send i) (ret, st, body) :: t3 ++ t) /\
    dispatch_waits (Ev (X_record_start i) tt :: Ev (X_do_send i) (ret, st, body) :: t3 ++ t) = 0).
  { intros t [B1 B2] W. subst t3. unfold balanced, starts, sends, completes, failures, dispatch_waits, is_wait in *.
    cbn. destruct (ret =? 0); cbn; rewrite B1, B2; done. }
  case_run H.
  { apply runs_peek_bind in H as (s2 & _ & H). case_run H.
    { destruct H as (-> & -> & _). destruct (Hb [] ltac:(done) ltac:(done)) as [B W]. split; [done|]. rewrite W. done. }
    apply runs_peek_bind in H as (s3 & _ & H). case_run H.
    { destruct H as (-> & -> & _). destruct (Hb [] ltac:(done) ltac:(done)) as [B W]. split; [done|]. rewrite W. done. }
    apply runs_call_bind in H as ([] & t5 & -> & -> & -> & _). destruct (Hb [Ev (X_msleep 100) tt] ltac:(done) ltac:(done)) as [B W].
    split; [done|]. rewrite W. cbn. split; [lia|by left]. }
  case_run H.
  { destruct H as (-> & -> & _). destruct (Hb [] ltac:(done) ltac:(done)) as [B W]. split; [done|]. rewrite W. cbn. split; [lia|]. intros ->. lia. }
  assert (ret = 0) as -> by lia. cbn in H3. subst t3.
  case_run H.
  - pose proof (runs_ensures _ _ _ _ _ _ _ (redirect_ensures _ _ _ _ _ _) H) as He.
    apply (runs_only _ _ _ _ _ _ _ (redirect_silent _ _ _ _ _ _)) in H. apply silent_trace in H as [B W].
    destruct (Hb t4 B W) as [B' W']. split; [done|]. rewrite W'. destruct e as [r|l']; cbn in He; [split; [lia|done]|].
    split; [lia|by left].
  - destruct H as (-> & -> & _). destruct (Hb [] ltac:(done) ltac:(done)) as [B W]. split; [done|]. rewrite W. split; [lia|].
    intros _. split; [done|]. by exists [], i.
Qed.

Lemma attempt_outcome R req shard d attempt l s tr e s' :
  Forall honest tr -> runs R (submit_attempt req shard d attempt l) s tr e s' -> attempt_ok l tr e.
Proof.
  intros Hh H. apply runs_peek_bind in H as (s1 & _ & H). case_run H.
  { apply runs_call_bind in H as ([] & t & -> & -> & -> & _). split_and!; done. }
  apply runs_bind in H as (t1 & t2 & c & s2 & -> & H1 & H). apply (runs_only _ _ _ _ _ _ _ (select_silent _ _)) in H1.
  apply silent_trace in H1 as [B1 W1]. apply Forall_app in Hh as [_ Hh].
  assert (Hk : attempt_ok l t2 e) by (case_run H; [by eapply send_ok|by eapply wait_ok]).
  destruct Hk as [B2 Hk]. split; [by apply balanced_app|]. rewrite dispatch_waits_app, W1. destruct e as [r|l'].
  - destruct Hk as [K1 K2]. split; [lia|]. intros Hr. destruct (K2 Hr) as (N & pre & i & ->). split; [done|].
    exists (t1 ++ pre), i. by rewrite app_assoc.
  - cbn [Z.add]. exact Hk.
Qed.

Lemma loop_outcome R req shard d fuel attempt l s tr r s' :
  Forall honest tr -> 0 <= eagain_retries l <= POWERFS_REQ_MAX_EAGAIN_RETRIES ->
  runs R (submit_loop fuel req shard d attempt l) s tr r s' ->
  balanced tr /\ eagain_retries l + dispatch_waits tr <= POWERFS_REQ_MAX_EAGAIN_RETRIES + 1 /\
  forall q, r = Some q -> res_ret q = 0 -> answered tr q.
Proof.
  revert attempt l s tr. induction fuel as [|fuel IH]; intros attempt l s tr Hh Hl H; cbn [submit_loop] in H.
  { destruct H as (-> & -> & _). split; [done|]. split; [change (dispatch_waits []) with 0; lia|done]. }
  apply runs_bind in H as (t1 & t2 & e & s1 & -> & H1 & H). apply Forall_app in Hh as [Hh1 Hh2].
  apply attempt_outcome in H1 as [B Hk]; [|done]. destruct e as [q|l'].
  - destruct H as (-> & -> & ->). rewrite app_nil_r. destruct Hk as [K1 K2]. split; [done|]. split; [lia|].
    intros q' [= <-]. done.
  - destruct Hk as [K1 K2]. assert (0 <= dispatch_waits t1) by (unfold dispatch_waits; lia).
    apply IH in H as (I1 & I2 & I3); [|done|destruct K2; lia].
    split; [by apply balanced_app|]. split; [rewrite dispatch_waits_app; lia|].
    intros q -> Hq. destruct (I3 q eq_refl Hq) as (N & pre & i & ->). split; [done|]. exists (t1 ++ pre), i. by rewrite app_assoc.
Qed.
(** ** Redirects *)

Definition digit (x : Z) : Prop := 48 <= x <= 57.

(** [p] in decimal, with at most [n] digits. *)
Fixpoint decimal (n : nat) (p : Z) : buffer :=
  match n with
  | O => []
  | S n => if p <? 10 then [48 + p] else decimal n (p / 10) ++ [48 + p mod 10]
  end.

Definition value (acc : Z) (ds : buffer) : Z := foldl (fun a x => a * 10 + (x - 48)) acc ds.

Lemma value_ge ds acc : Forall digit ds -> 0 <= acc -> acc <= value acc ds.
Proof.
  intros H. revert acc. induction H as [|x ds Hx _ IH]; intros acc Ha; [done|]. cbn. unfold digit in Hx.
  etrans; [|apply IH]; lia.
Qed.

Lemma parse_digits_value ds acc :
  Forall digit ds -> 0 <= acc -> value acc ds < 2 ^ 64 -> parse_digits acc ds = Some (value acc ds, []).
Proof.
  intros H. revert acc. induction H as [|x ds Hx H IH]; intros acc Ha Hv; [done|]. unfold digit in Hx. cbn [parse_digits].
  rewrite (proj2 (Z.leb_le 48 x)), (proj2 (Z.leb_le x 57)) by lia. cbn [andb].
  pose proof (value_ge ds (acc * 10 + (x - 48)) H ltac:(lia)) as Hge.
  change (value acc (x :: ds)) with (value (acc * 10 + (x - 48)) ds) in *.
  rewrite (proj2 (Z.ltb_lt _ _)) by lia. apply IH; lia.
Qed.

Lemma decimal_value n p : 0 <= p < 10 ^ Z.of_nat n -> value 0 (decimal n p) = p /\ Forall digit (decimal n p).
Proof.
  revert p. induction n as [|n IH]; intros p Hp. { cbn in *. split; [lia|constructor]. }
  cbn [decimal]. case_if. { split; [cbn; lia|]. constructor; [unfold digit; lia|constructor]. }
  rewrite Nat2Z.inj_succ, Z.pow_succ_r in Hp by lia.
  destruct (IH (p / 10)) as [IH1 IH2]; [div_lia|]. split.
  - unfold value in *. rewrite foldl_app, IH1. cbn. div_lia.
  - apply Forall_app. split; [done|]. constructor; [unfold digit; div_lia|constructor].
Qed.

Lemma decimal_cons n p : exists x ds, decimal (S n) p = x :: ds.
Proof. cbn [decimal]. case_if; [eauto|]. destruct (decimal n (p / 10)); cbn; eauto. Qed.

Lemma kstrtoul_decimal n p : 0 <= p < 2 ^ 64 -> p < 10 ^ Z.of_nat (S n) -> kstrtoul (decimal (S n) p) = Some p.
Proof.
  intros Hp Hn. destruct (decimal_value (S n) p) as [Hv Hd]; [lia|]. destruct (decimal_cons n p) as (x & ds & E).
  rewrite E in *. pose proof (Forall_inv Hd) as Hx. unfold digit in Hx. unfold kstrtoul.
  rewrite (proj2 (Z.eqb_neq x 43)) by lia. rewrite (proj2 (Z.leb_le 48 x)), (proj2 (Z.leb_le x 57)) by lia. cbn [andb].
  rewrite parse_digits_value, Hv by (done || lia). done.
Qed.

Lemma strrchr_none c s : Forall (fun x => x <> c) s -> strrchr_split c s = None.
Proof. induction 1 as [|x s Hx _ IH]; [done|]. cbn. by rewrite IH, (proj2 (Z.eqb_neq x c)). Qed.
Lemma strrchr_last c a b : Forall (fun x => x <> c) b -> strrchr_split c (a ++ c :: b) = Some (a, b).
Proof.
  intros Hb. induction a as [|x a IH]; cbn; [|by rewrite IH]. by rewrite (strrchr_none c b Hb), Z.eqb_refl.
Qed.

Lemma c_strlen_full s : Forall (fun x => x <> 0) s -> take (Z.to_nat (c_strlen s)) s = s.
Proof.
  intros H. assert (E : c_strlen s = blen s).
  { induction H as [|x s Hx _ IH]; [done|]. cbn [c_strlen]. rewrite (proj2 (Z.eqb_neq x 0)) by done. rewrite IH, blen_cons. done. }
  rewrite E. unfold blen. rewrite Nat2Z.id. by rewrite firstn_all.
Qed.

(** ** Theorems *)

(** C16. Whatever route is cached for the shard, in a stable cluster of up to
    nine connected filers in which only the leader answers and every other
    filer redirects to itself or to the leader, a request that is not cut off
    by its deadline is answered by the leader, after at most one request to
    each other filer. *)
Theorem submit_reaches_leader `{KT : KernelTime} (F : list filer) (L : Z) (s s' : pool) (tr : list sevent)
    (r : option sub_result) (fuel : nat) (req shard deadline : Z) :
  stable F L -> filers s = F -> Z.of_nat (length (routes s)) = POWERFS_MAX_SHARDS ->
  0 <= shard < POWERFS_MAX_SHARDS -> deadline <> 0 ->
  (r_state (route_of s shard) = ROUTE_VALID -> 0 <= leader_filer_idx (route_of s shard) < Z.of_nat (length F)) ->
  (length F <= fuel)%nat ->
  runs (tick deadline) (powerfs_request_submit fuel req shard deadline) s tr r s' ->
  Forall (serves F L) tr ->
  exists pre q, sends tr = pre ++ [L] /\ NoDup (pre ++ [L]) /\ r = Some q /\
    res_ret q = 0 /\ res_status q <> POWERFS_NET_STATUS_ERR_REDIRECT.
Proof.
  intros HF HFs Hrl Hsh Hd Hrt Hfuel H Hsv. apply runs_peek_bind in H as (s1 & T1 & H). apply tick_same in T1.
  rewrite (proj2 (Z.eqb_neq _ _)) in H by done.
  apply (search_loop F L HF _ _ _ _ _ _ _ _ _ _ []) in H; [|done| |cbn; lia|done].
  - destruct H as (pre & q & P1 & P2 & P3 & P4 & P5 & P6). exists pre, q. split_and!; auto. by apply nodup_snoc.
  - apply (searching_same F L _ _ _ _ _ T1). constructor; cbn; [done| |done|by constructor|by constructor|by apply not_elem_of_nil|done|].
    + unfold POWERFS_MAX_SHARDS in Hrl. lia.
    + destruct (r_state (route_of s shard)) eqn:E; [right; auto|by left..].
Qed.

(** C17. Whatever other threads do to the pool and the network answers: a
    submit that returns success returns the answer of the last filer asked,
    which is not a redirect; every request sent was counted as started, in
    order, and every failed one as completed; and the request waits for a
    filer at most nine times. *)
Theorem submit_outcome `{KT : KernelTime} (R : pool -> pool -> Prop) (s s' : pool) (tr : list sevent)
    (r : option sub_result) (fuel : nat) (req shard req_deadline : Z) :
  runs R (powerfs_request_submit fuel req shard req_deadline) s tr r s' -> Forall honest tr ->
  (forall q, r = Some q -> res_ret q = 0 -> answered tr q) /\ balanced tr /\ dispatch_waits tr <= 9.
Proof.
  intros H Hh. apply runs_peek_bind in H as (s1 & _ & H).
  apply loop_outcome in H as (B & W & Q); [|done|cbn; unfold POWERFS_REQ_MAX_EAGAIN_RETRIES; lia].
  cbn in W. unfold POWERFS_REQ_MAX_EAGAIN_RETRIES in W. split; [done|]. split; [done|lia].
Qed.

(** A redirect whose body is one Owner field with the text ["ip:port"] is
    parsed to that address (cut to the 63 bytes of the caller's buffer) and
    port, for every port and every text that fits the 78 bytes of the parser,
    colons in the address included. *)
Theorem parse_redirect_roundtrip (ip : buffer) (port : Z) :
  Forall (fun x => 1 <= x < 256) ip -> 1 <= port < 65536 -> blen ip <= 72 ->
  powerfs_net_parse_redirect (tlv_field POWERFS_NET_FLD_OWNER (ip ++ 58 :: decimal 5 port)) 64 =
    Some (take 63 ip, port).
Proof.
  intros Hip Hp Hl. set (ds := decimal 5 port).
  destruct (decimal_value 5 port) as [Hv Hd]; [cbn; lia|]. fold ds in Hv, Hd.
  assert (Hdl : blen ds <= 5).
  { unfold ds. cbn. repeat case_if; cbn; unfold blen; rewrite ?length_app; cbn; lia. }
  assert (Hb : bytes_ok (ip ++ 58 :: ds)).
  { apply Forall_app. split; [eapply Forall_impl; [exact Hip|]; cbn; lia|]. constructor; [lia|].
    eapply Forall_impl; [exact Hd|]. unfold digit. cbn. lia. }
  assert (Hlen : blen (ip ++ 58 :: ds) <= 78) by (rewrite blen_app, blen_cons; lia).
  pose proof (dec_string_field [] [] POWERFS_NET_FLD_OWNER ltac:(constructor) ltac:(constructor) ltac:(done)
                (ip ++ 58 :: ds) 79 Hb ltac:(unfold POWERFS_NET_MAX_TLV; lia) ltac:(lia)) as E.
  unfold at_field in E. cbn [app] in E. rewrite app_nil_r in E. specialize (E ltac:(rewrite blen_tlv_field; lia)).
  unfold powerfs_net_parse_redirect, powerfs_tlv_dec_init. change (blen []) with 0 in E. rewrite E. cbn [Z.ltb Z.compare].
  rewrite c_strlen_full.
  2:{ apply Forall_app. split; [eapply Forall_impl; [exact Hip|]; cbn; lia|]. constructor; [done|].
      eapply Forall_impl; [exact Hd|]. unfold digit. cbn. lia. }
  rewrite strrchr_last by (eapply Forall_impl; [exact Hd|]; unfold digit; cbn; lia).
  unfold ds. rewrite kstrtoul_decimal by (cbn; lia).
  rewrite (proj2 (Z.eqb_neq port 0)) by lia. rewrite Z.gtb_ltb, (proj2 (Z.ltb_ge _ _)) by lia. done.
Qed.

(** ** Concrete runs *)

Module Sample.

#[local] Instance hz1000 : KernelTime :=
  {| HZ := 1000; jiffies_to_msecs := fun j => j; msecs_to_jiffies := fun m => m |}.

(** Filer [i] is 10.0.0.[i], port 9333. *)
Definition ip (i : nat) : buffer := [49; 48; 46; 48; 46; 48; 46] ++ decimal 3 (Z.of_nat i).
Definition cluster (n : nat) : list filer := (fun i => mk_filer (ip i) 9333 true CONN_CONNECTED) <$> seq 0 n.
Definition sample (n : nat) : pool := mk_pool (cluster n) (replicate 64 (mk_route 0 ROUTE_VALID [])) 64 false 5.

(** Filer [L] leads, the others redirect to themselves. *)
Definition owner (i : Z) : buffer := tlv_field POWERFS_NET_FLD_OWNER (ip (Z.to_nat i) ++ 58 :: decimal 5 9333).
Definition answers (L : Z) (x : sub_ext) : sub_ans x :=
  match x with
  | X_do_send i => if i =? L then (0, 0, [1]) else (0, POWERFS_NET_STATUS_ERR_REDIRECT, owner i)
  | X_kzalloc => true
  | X_wait_dispatch => (0, 0)
  | _ => inhabitant
  end.

Definition run3 := exec (answers 2) (powerfs_request_submit 3 1 7 1000) (sample 3).

Example run3_sends : sends run3.1.1 = [0; 1; 2] /\ run3.1.2 = Some (mk_res 0 0 [1]).
Proof. vm_compute. split; reflexivity. Qed.

Lemma run3_trace : run3.1.1 =
  [Ev (X_record_start 0) tt; Ev (X_do_send 0) (0, POWERFS_NET_STATUS_ERR_REDIRECT, owner 0); Ev (X_msleep 20) tt;
   Ev (X_record_start 1) tt; Ev (X_do_send 1) (0, POWERFS_NET_STATUS_ERR_REDIRECT, owner 1); Ev (X_msleep 40) tt;
   Ev (X_record_start 2) tt; Ev (X_do_send 2) (0, 0, [1])].
Proof. vm_compute. reflexivity. Qed.

Lemma self_serves F L i f body :
  i <> L -> F !! Z.to_nat i = Some f -> powerfs_net_parse_redirect body 64 = Some (node f) ->
  serves F L (Ev (X_do_send i) (0, POWERFS_NET_STATUS_ERR_REDIRECT, body)).
Proof. intros Hi Hf Hp. split; [done|]. rewrite (proj2 (Z.eqb_neq i L)) by done. split; [done|]. exists i, f. auto. Qed.

Ltac walk_time tac := repeat first
  [ match goal with |- forall _, _ => intro end
  | exact I
  | tac
  | match goal with
    | |- obeys _ (Ret _) => exact I
    | |- obeys ?G (call ?x) => exact (obeys_call G x)
    | |- obeys _ (locked _) => apply obeys_locked; intro
    | |- obeys _ (peek _) => apply obeys_peek; intro
    | |- obeys _ (when_ _ _) => apply obeys_when
    | |- obeys _ (_ ≫= _) => apply obeys_bind
    | |- obeys _ (section _) => apply obeys_section; intro; split; [done|cbn [snd]]
    | |- obeys _ (match ?x with _ => _ end) => destruct x
    end
  | done ].

(** Nothing in a submit changes the clock. *)
Definition early (s : pool) : Prop := time_after (p_jiffies s) 1000 = false.
Abbreviation keeps := (fun s s' => early s -> early s').

Lemma complete_all_keeps reqs err : obeys keeps (complete_all reqs err).
Proof. induction reqs as [|r reqs IH]; cbn [complete_all]; walk_time ltac:(exact IH). Qed.
Lemma update_keeps shard idx : obeys keeps (powerfs_shard_route_update shard idx).
Proof.
  unfold powerfs_shard_route_update, powerfs_shard_route_dispatch_pending, take_pending.
  walk_time ltac:(apply complete_all_keeps).
Qed.
Lemma disconnect_keeps s i : early s -> early (powerfs_shard_route_on_filer_disconnect s i).
Proof. unfold powerfs_shard_route_on_filer_disconnect. by case_if. Qed.
Lemma attempt_keeps req shard d attempt l : obeys keeps (submit_attempt req shard d attempt l).
Proof.
  unfold submit_attempt, select_conn, valid_conn, wait_for_filer, send_on, handle_redirect, self_redirect, stale_redirect,
    redirect_failed, to_checking. cbv zeta.
  walk_time ltac:(first [apply update_keeps | apply disconnect_keeps]).
Qed.
Lemma submit_keeps fuel req shard d : obeys keeps (powerfs_request_submit fuel req shard d).
Proof.
  apply obeys_bind; [walk_time fail|]. intros now. cbv zeta. generalize (mk_locals None [] 0 0).
  match goal with |- context [submit_loop fuel req shard ?dl 0] => generalize dl end. intros dl. generalize 0.
  induction fuel as [|fuel IH]; intros attempt l; cbn [submit_loop]; [done|]. apply obeys_bind; [apply attempt_keeps|].
  intros [r|l']; [done|apply IH].
Qed.

Lemma submit_reaches_leader_witness :
  exists pre q, sends run3.1.1 = pre ++ [2] /\ run3.1.2 = Some q /\ res_ret q = 0.
Proof.
  destruct (submit_reaches_leader (cluster 3) 2 (sample 3) run3.2 run3.1.1 run3.1.2 3 1 7 1000)
    as (pre & q & H1 & _ & H3 & H4 & _); [|reflexivity|reflexivity|done|done| |cbn; lia| | |].
  - constructor; [done|done|repeat constructor| |repeat constructor; done].
    apply (bool_decide_unpack _). vm_compute. exact I.
  - intros _. done.
  - apply (exec_runs_on early); [|apply submit_keeps|done]. intros s Hs. by split_and!.
  - rewrite run3_trace. repeat (apply Forall_cons; split; [first [exact I | by split | eapply self_serves; [done|reflexivity|vm_compute; reflexivity]]|]).
    constructor.
  - exact (ex_intro _ pre (ex_intro _ q (conj H1 (conj H3 H4)))).
Defined.

Lemma submit_outcome_witness : balanced run3.1.1 /\ dispatch_waits run3.1.1 <= 9.
Proof.
  destruct (submit_outcome eq (sample 3) run3.2 run3.1.1 run3.1.2 3 1 7 1000) as (_ & H2 & H3).
  - exact (exec_runs eq (answers 2) _ (sample 3) (fun s => eq_refl)).
  - rewrite run3_trace. repeat (apply Forall_cons; split; [by cbn|]). constructor.
  - exact (conj H2 H3).
Defined.

Lemma parse_redirect_roundtrip_witness :
  powerfs_net_parse_redirect (tlv_field POWERFS_NET_FLD_OWNER (ip 7 ++ 58 :: decimal 5 9333)) 64 = Some (take 63 (ip 7), 9333).
Proof. apply (parse_redirect_roundtrip (ip 7) 9333); [repeat constructor; done|lia|done]. Defined.

(** Eleven filers, all followers redirect to themselves: the blacklist is full
    after eight, and the ninth and tenth filer are asked in turn; the leader
    is never reached. *)
Definition run11 := exec (answers 10) (powerfs_request_submit 40 1 7 1000) (sample 11).

Example eleven_filers_ping_pong :
  run11.1.2 = None /\ sends run11.1.1 = [0; 1; 2; 3; 4; 5; 6; 7] ++ concat (replicate 16 [8; 9]).
Proof. vm_compute. split; reflexivity. Qed.

End Sample.
