(* ===== verification/Request.v ===== *)
(** * Request: the life of an asynchronous request on a connection

    Models [powerfs_request_do_send] for requests with a callback, their
    timeout work and completion in [src/powerfs_mod/powerfs_net_req.c], and
    the other ends of a request in [powerfs_net_conn.c]: the response
    ([pfs_rx_dispatch]), the transmission ([pfs_process_transmit]), the
    disconnect and the fault.  They race for a request; whoever takes it out
    of the request tree completes it.

    The state is one connection with its requests; each thread is the place it
    is at in its function, and a step is one critical section under [req_lock]
    or [tx_lock], or one access outside them.  [cancel_delayed_work_sync]
    blocks while the timeout work of the request runs.  Identities of requests
    are never reused in the model: use of a request after its callback freed
    it is recorded instead ([use_after_free]).

    Shown, for every interleaving: a request is at one place only (with the
    one thread that will enter it, complete it or refuse it, in the tree, or
    done); what a completed request reports, and that a success is a frame
    received with its number; a request with a deadline can be brought to its
    end by local steps alone, the filer need not answer.  Three interleavings
    that use a freed request are given as examples. *)

From S2P Require Import Prelude Tlv Submit.

(** ** State *)

(** The fields the protocol uses.  [resp_body] and [resp_data] are the bytes
    received, within the capacities; a capacity is [None] when the caller gave
    no buffer.  [q_deadline] says that there is a deadline. *)
Record powerfs_request := mk_request {
  q_seq : Z; q_error : Z; q_deadline : bool; timer_armed : bool;
  resp_body_cap : option Z; resp_data_cap : option Z;
  resp_status : Z; resp_body : buffer; resp_data : buffer
}.

Definition set_seq (q : powerfs_request) (seq : Z) : powerfs_request :=
  mk_request seq (q_error q) (q_deadline q) (timer_armed q) (resp_body_cap q) (resp_data_cap q)
    (resp_status q) (resp_body q) (resp_data q).
Definition set_error (q : powerfs_request) (e : Z) : powerfs_request :=
  mk_request (q_seq q) e (q_deadline q) (timer_armed q) (resp_body_cap q) (resp_data_cap q)
    (resp_status q) (resp_body q) (resp_data q).
Definition set_armed (q : powerfs_request) (b : bool) : powerfs_request :=
  mk_request (q_seq q) (q_error q) (q_deadline q) b (resp_body_cap q) (resp_data_cap q)
    (resp_status q) (resp_body q) (resp_data q).

(** What [powerfs_request_alloc] and the asynchronous callers set. *)
Definition powerfs_request_alloc (deadline : bool) (body_cap data_cap : option Z) : powerfs_request :=
  mk_request 0 0 deadline false body_cap data_cap 0 [] [].

(** [req_tree] in its order; [timers] are the queued timeout works, [running]
    those that execute and have not left their critical section.
    [completed], [refused] and [use_after_free] record what happened. *)
Record conn := mk_conn {
  c_up : bool; seq_counter : Z; pending_reqs : list Z; req_tree : list Z; tx_queue : list Z;
  timers : list Z; running : list Z; reqs : gmap Z powerfs_request;
  completed : list Z; refused : list Z; use_after_free : bool
}.

Definition empty_conn : conn := mk_conn true 0 [] [] [] [] [] ∅ [] [] false.

Definition set_up (c : conn) (b : bool) : conn :=
  let '(mk_conn _ n p t x ti ru q d f u) := c in mk_conn b n p t x ti ru q d f u.
Definition set_counter (c : conn) (n : Z) : conn :=
  let '(mk_conn b _ p t x ti ru q d f u) := c in mk_conn b n p t x ti ru q d f u.
Definition set_lists (c : conn) (p t : list Z) : conn :=
  let '(mk_conn b n _ _ x ti ru q d f u) := c in mk_conn b n p t x ti ru q d f u.
Definition set_tx (c : conn) (x : list Z) : conn :=
  let '(mk_conn b n p t _ ti ru q d f u) := c in mk_conn b n p t x ti ru q d f u.
Definition set_timers (c : conn) (ti ru : list Z) : conn :=
  let '(mk_conn b n p t x _ _ q d f u) := c in mk_conn b n p t x ti ru q d f u.
Definition set_reqs (c : conn) (q : gmap Z powerfs_request) : conn :=
  let '(mk_conn b n p t x ti ru _ d f u) := c in mk_conn b n p t x ti ru q d f u.
Definition set_done (c : conn) (d f : list Z) : conn :=
  let '(mk_conn b n p t x ti ru q _ _ u) := c in mk_conn b n p t x ti ru q d f u.
Definition on_req (c : conn) (r : Z) (f : powerfs_request -> powerfs_request) : conn := set_reqs c (alter f r (reqs c)).
(** The request is looked at, although its callback may have freed it. *)
Definition touch (c : conn) (r : Z) : conn :=
  let '(mk_conn b n p t x ti ru q d f u) := c in mk_conn b n p t x ti ru q d f (u || bool_decide (r ∈ d)).

Definition field {A} (c : conn) (r : Z) (get : powerfs_request -> A) (dflt : A) : A := from_option get dflt (reqs c !! r).
Definition seq_of (c : conn) (r : Z) : Z := field c r q_seq 0.
Definition without (r : Z) (l : list Z) : list Z := filter (fun x => x <> r) l.

(** ** The request tree *)

(** Equal keys go to the right. *)
Fixpoint powerfs_req_tree_insert (key : Z -> Z) (tree : list Z) (r : Z) : list Z :=
  match tree with
  | [] => [r]
  | x :: tree' => if key r <? key x then r :: tree else x :: powerfs_req_tree_insert key tree' r
  end.

(** The entries the search may return: which of several with one number
    depends on the shape of the tree. *)
Definition powerfs_req_tree_lookup (c : conn) (seq : Z) : list Z := filter (fun r => seq_of c r = seq) (req_tree c).

Definition powerfs_req_tree_remove (tree : list Z) (r : Z) : list Z := without r tree.

(** ** Threads *)

(** A received frame: sequence number, flag NOTIFY, status, body and data. *)
Record frame := mk_frame { fr_seq : Z; fr_notify : bool; fr_status : Z; fr_body : buffer; fr_data : buffer }.

(** What follows a loop of completions. *)
Inductive after := Return | QueueDisconnect | Drain.

Inductive thread :=
| DoSend (r : Z)
| Enqueue (r : Z)
| QueueTx (r : Z)
| ArmTimer (r : Z)
| QueueTimer (r : Z)
| RxDispatch (f : frame)
| RxFill (r : Z) (f : frame)
| TimeoutFn (r : Z)
| TimeoutTx (r : Z)
| Transmit
| Sending (r : Z)
| Requeue (r : Z)
| SendFailed (r : Z)
| Sent (r : Z)
| Disconnect
| Fault
| CancelAll (next : after)
| Complete (rs : list Z) (next : after)
| DrainTx
| Finished.

Definition resume (next : after) : thread :=
  match next with Return => Finished | QueueDisconnect => Disconnect | Drain => DrainTx end.

(** Copy of one part of the response: the bytes, and whether it was too big. *)
Definition copy_part (cap : option Z) (bytes : buffer) : buffer * bool :=
  match cap with
  | None => ([], false)
  | Some cap => if blen bytes >? cap then ([], true) else (bytes, false)
  end.

Definition fill_response (f : frame) (q : powerfs_request) : powerfs_request :=
  let '(body, big1) := copy_part (resp_body_cap q) (fr_body f) in
  let '(data, big2) := copy_part (resp_data_cap q) (fr_data f) in
  mk_request (q_seq q) (if big1 || big2 then - E2BIG else 0) (q_deadline q) (timer_armed q)
    (resp_body_cap q) (resp_data_cap q) (fr_status f) body data.

(** Take [r] out of both structures. *)
Definition take_out (c : conn) (r : Z) : conn :=
  set_lists c (without r (pending_reqs c)) (powerfs_req_tree_remove (req_tree c) r).

(** Critical section of the cancellation: the pending list moves to the
    cancel list; each of its requests leaves the tree with an error. *)
Definition cancel_one (c : conn) (r : Z) : conn :=
  on_req (set_lists c (pending_reqs c) (powerfs_req_tree_remove (req_tree c) r)) r
    (fun q => set_error q (- ENOTCONN)).

Definition cancel_all (c : conn) : conn := foldl cancel_one (set_lists c [] (req_tree c)) (pending_reqs c).

(** Cancel the timer if it is armed, then the callback, which frees the
    request.  [None] while the timeout work of the request is running. *)
Definition powerfs_req_complete (c : conn) (r : Z) : option conn :=
  let c := touch c r in
  let finish c := Some (set_done c (r :: completed c) (refused c)) in
  if field c r timer_armed false
  then if bool_decide (r ∈ running c) then None
       else finish (on_req (set_timers c (without r (timers c)) (running c)) r (fun q => set_armed q false))
  else finish c.

(** ** The functions, one step at a time

    Each takes the place the thread is at and gives the next one; [None] means
    blocked, or not a place of this function.  [choice] resolves what the
    connection does not: which entry a lookup returns, and the results of
    [is_connected] and [send_frame].  A queued [disconnect_work] is the thread
    going on as [Disconnect]. *)

(** For a request with a callback: check of the connection and number; both
    structures under [req_lock]; transmit queue under [tx_lock]; arming and
    queueing of the timer. *)
Definition powerfs_request_do_send (c : conn) (t : thread) : option (conn * thread) :=
  match t with
  | DoSend r =>
      if c_up c
      then let seq := u32 (seq_counter c + 1) in
           Some (on_req (set_counter c seq) r (fun q => set_seq q seq), Enqueue r)
      else Some (set_done c (completed c) (r :: refused c), Finished)
  | Enqueue r =>
      let tree := if bool_decide (r ∈ pending_reqs c) then powerfs_req_tree_remove (req_tree c) r else req_tree c in
      Some (set_lists c (without r (pending_reqs c) ++ [r]) (powerfs_req_tree_insert (seq_of c) tree r), QueueTx r)
  | QueueTx r => Some (set_tx c (without r (tx_queue c) ++ [r]), ArmTimer r)
  | ArmTimer r =>
      let c := touch c r in
      if field c r q_deadline false
      then Some (on_req c r (fun q => set_armed q true), QueueTimer r)
      else Some (c, Finished)
  | QueueTimer r => Some (set_timers (touch c r) (r :: timers c) (running c), Finished)
  | _ => None
  end.

(** A response: the lookup under [req_lock], then the copy outside it.
    Notifications do not concern requests. *)
Definition pfs_rx_dispatch (c : conn) (t : thread) (choice : Z) : option (conn * thread) :=
  match t with
  | RxDispatch f =>
      if fr_notify f || (fr_seq f =? 0) then Some (c, Finished)
      else match powerfs_req_tree_lookup c (fr_seq f) with
      | [] => Some (c, Finished)
      | cands => if bool_decide (choice ∈ cands) then Some (take_out c choice, RxFill choice f) else None
      end
  | RxFill r f => Some (on_req c r (fill_response f), Complete [r] Return)
  | _ => None
  end.

Definition powerfs_req_timeout_fn (c : conn) (t : thread) : option (conn * thread) :=
  match t with
  | TimeoutFn r =>
      let c := touch c r in
      let c := set_timers c (timers c) (without r (running c)) in
      if bool_decide (r ∈ req_tree c)
      then Some (on_req (take_out c r) r (fun q => set_error q (- ETIMEDOUT)), TimeoutTx r)
      else Some (c, Finished)
  | TimeoutTx r =>
      Some (on_req (set_tx c (without r (tx_queue c))) r (fun q => set_armed q false), Complete [r] Return)
  | _ => None
  end.

Definition pfs_process_transmit (c : conn) (t : thread) (choice : Z) : option (conn * thread) :=
  match t with
  | Transmit =>
      if choice =? 0 then Some (c, Disconnect)
      else match tx_queue c with
      | [] => Some (c, Finished)
      | r :: tx => Some (set_tx c tx, Sending r)
      end
  | Sending r =>
      let c := touch c r in
      if (choice =? - EAGAIN) || (choice =? - ENOMEM) then Some (c, Requeue r)
      else if choice <? 0 then Some (c, SendFailed r)
      else Some (c, Sent r)
  | Requeue r => Some (set_tx (touch c r) (r :: tx_queue c), Finished)
  | SendFailed r =>
      let c := touch c r in
      if bool_decide (r ∈ req_tree c)
      then Some (on_req (take_out c r) r (fun q => set_error q (- ENOTCONN)), Complete [r] QueueDisconnect)
      else Some (c, Disconnect)
  | Sent r => Some (touch c r, Finished)
  | _ => None
  end.

(** Only the first caller on a connection that is up goes on. *)
Definition powerfs_conn_disconnect_one (c : conn) (t : thread) : option (conn * thread) :=
  match t with
  | Disconnect => if c_up c then Some (set_up c false, CancelAll Drain) else Some (c, Finished)
  | DrainTx => Some (set_tx c [], Finished)
  | _ => None
  end.

(** The loop after a cancellation or a single completion. *)
Definition complete_loop (c : conn) (rs : list Z) (next : after) : option (conn * thread) :=
  match rs with
  | [] => Some (c, resume next)
  | r :: rs => match powerfs_req_complete c r with Some c => Some (c, Complete rs next) | None => None end
  end.

Definition tstep (c : conn) (t : thread) (choice : Z) : option (conn * thread) :=
  match t with
  | DoSend _ | Enqueue _ | QueueTx _ | ArmTimer _ | QueueTimer _ => powerfs_request_do_send c t
  | RxDispatch _ | RxFill _ _ => pfs_rx_dispatch c t choice
  | TimeoutFn _ | TimeoutTx _ => powerfs_req_timeout_fn c t
  | Transmit | Sending _ | Requeue _ | SendFailed _ | Sent _ => pfs_process_transmit c t choice
  | Disconnect | DrainTx => powerfs_conn_disconnect_one c t
  | Fault => Some (set_up c false, CancelAll Return)
  | CancelAll next => Some (cancel_all c, Complete (pending_reqs c) next)
  | Complete rs next => complete_loop c rs next
  | Finished => None
  end.

(** ** The connection and all its threads *)

(** [Run i choice] is a step of thread [i]; the others start a thread:
    a caller with a new request, a received frame, the transmitter, the two
    ways to lose the connection; [Expire] starts the timeout work of a queued
    timer and [Reconnected] is the reconnect worker. *)
Inductive event :=
| Run (i : nat) (choice : Z)
| Submit (r : Z) (deadline : bool) (body_cap data_cap : option Z)
| Receive (f : frame)
| Transmitter
| Disconnected
| Faulted
| Reconnected
| Expire (r : Z).

Definition state : Type := conn * list thread.

Definition start (s : state) (t : thread) : state := (fst s, snd s ++ [t]).

Definition step (s : state) (e : event) : option state :=
  match e with
  | Run i choice =>
      match snd s !! i with
      | Some t => match tstep (fst s) t choice with
                  | Some (c, t') => Some (c, <[i := t']> (snd s))
                  | None => None
                  end
      | None => None
      end
  | Submit r deadline body_cap data_cap =>
      match reqs (fst s) !! r with
      | Some _ => None
      | None => Some (set_reqs (fst s) (<[r := powerfs_request_alloc deadline body_cap data_cap]> (reqs (fst s))),
                      snd s ++ [DoSend r])
      end
  | Receive f => Some (start s (RxDispatch f))
  | Transmitter => Some (start s Transmit)
  | Disconnected => Some (start s Disconnect)
  | Faulted => Some (start s Fault)
  | Reconnected => Some (set_up (fst s) true, snd s)
  | Expire r =>
      if bool_decide (r ∈ timers (fst s))
      then Some (set_timers (fst s) (without r (timers (fst s))) (r :: running (fst s)), snd s ++ [TimeoutFn r])
      else None
  end.

Fixpoint exec (es : list event) (s : state) : option state :=
  match es with
  | [] => Some s
  | e :: es => match step s e with Some s' => exec es s' | None => None end
  end.

Definition initial : state := (empty_conn, []).
