(* ===== verification/RequestProof.v ===== *)
(** * RequestProof: properties of the life cycle of requests

    Over [Request]: the accounting of requests, the reports of completed
    requests, and that a request with a deadline always can be ended. *)

From S2P Require Import Prelude Tlv Submit Request.

(** ** Where a request is *)

(** The requests a thread has to enter, complete or refuse. *)
Definition held (t : thread) : list Z :=
  match t with
  | DoSend r | Enqueue r | RxFill r _ | TimeoutTx r => [r]
  | Complete rs _ => rs
  | _ => []
  end.

Definition at_rest (c : conn) : list Z := req_tree c ++ completed c ++ refused c.
Definition places (s : state) : list Z := concat (held <$> snd s) ++ at_rest (fst s).

(** A timeout is on its way for [r] in this thread. *)
Definition arming (r : Z) (t : thread) : Prop :=
  match t with QueueTx x | ArmTimer x | QueueTimer x | TimeoutFn x => x = r | _ => False end.

Record inv (s : state) : Prop := {
  inv_nodup : NoDup (places s);
  inv_dom r : r ∈ places s <-> is_Some (reqs (fst s) !! r);
  inv_pending : pending_reqs (fst s) ≡ₚ req_tree (fst s);
  inv_timer r : r ∈ req_tree (fst s) -> field (fst s) r q_deadline false = true ->
    r ∈ timers (fst s) \/ exists t, t ∈ snd s /\ arming r t;
  inv_running r : r ∈ running (fst s) -> TimeoutFn r ∈ snd s
}.

(** ** Lists of requests *)

Lemma elem_of_without r x l : x ∈ without r l <-> x ∈ l /\ x <> r.
Proof. unfold without. rewrite list_elem_of_filter. tauto. Qed.

Lemma without_notin r l : r ∉ l -> without r l = l.
Proof.
  intros Hr. unfold without. induction l as [|x l IH]; [done|].
  apply not_elem_of_cons in Hr as [Hx Hl]. rewrite filter_cons_True by done. by rewrite IH.
Qed.

Lemma without_perm r l : NoDup l -> r ∈ l -> r :: without r l ≡ₚ l.
Proof.
  induction 1 as [|x l Hx Hl IH]; intros Hr; [by apply elem_of_nil in Hr|].
  unfold without in *. destruct (decide (x = r)) as [->|Hne].
  - rewrite filter_cons_False by tauto. fold (without r l). by rewrite without_notin.
  - rewrite filter_cons_True by done. apply elem_of_cons in Hr as [->|Hr]; [done|].
    rewrite Permutation_swap. by f_equiv; apply IH.
Qed.

Lemma without_proper r l1 l2 : l1 ≡ₚ l2 -> without r l1 ≡ₚ without r l2.
Proof. intros H. unfold without. by rewrite H. Qed.

Lemma tree_insert_perm key tree r : powerfs_req_tree_insert key tree r ≡ₚ r :: tree.
Proof.
  induction tree as [|x tree IH]; simpl; [done|]. case_if; [done|].
  rewrite IH. by rewrite Permutation_swap.
Qed.

Lemma held_insert ts i t t' :
  ts !! i = Some t ->
  exists rest, concat (held <$> ts) ≡ₚ held t ++ rest /\ concat (held <$> <[i := t']> ts) ≡ₚ held t' ++ rest.
Proof.
  intros Ht. exists (concat (held <$> take i ts) ++ concat (held <$> drop (S i) ts)).
  split.
  - rewrite <- (take_drop_middle ts i t Ht) at 1.
    rewrite fmap_app, concat_app; simpl. rewrite !app_assoc. by rewrite (Permutation_app_comm (held t)).
  - rewrite insert_take_drop by by eapply lookup_lt_Some.
    rewrite fmap_app, concat_app; simpl. rewrite !app_assoc. by rewrite (Permutation_app_comm (held t')).
Qed.

(** ** The cancellation *)

Lemma cancel_fold rs c :
  pending_reqs c = [] ->
  exists tree q, foldl cancel_one c rs = set_reqs (set_lists c [] tree) q /\
    (forall r, r ∈ tree <-> r ∈ req_tree c /\ r ∉ rs) /\
    (forall r, q !! r = if bool_decide (r ∈ rs) then (fun q => set_error q (- ENOTCONN)) <$> reqs c !! r else reqs c !! r).
Proof.
  revert c; induction rs as [|r rs IH]; intros c Hp; simpl.
  - exists (req_tree c), (reqs c). split_and!; [destruct c; simpl in *; by subst| |done].
    intros. rewrite elem_of_nil. tauto.
  - destruct (IH (cancel_one c r)) as (tree & q & -> & Ht & Hq); [destruct c; simpl in *; by subst|].
    exists tree, q. split_and!; [destruct c; simpl in *; by subst| |].
    + intros x. rewrite Ht, not_elem_of_cons. destruct c; simpl.
      unfold powerfs_req_tree_remove. rewrite elem_of_without. tauto.
    + intros x. rewrite Hq. destruct c as [b n p t tx ti ru qs d f u]; simpl in *.
      destruct (decide (x = r)) as [->|Hne].
      * rewrite lookup_alter_eq, (bool_decide_true (r ∈ r :: rs)) by apply list_elem_of_here.
        case_bool_decide; [|done]. by destruct (qs !! r).
      * rewrite lookup_alter_ne by done. repeat case_bool_decide; try done;
        rewrite elem_of_cons in *; tauto.
Qed.

(** With the pending list holding the tree, the cancellation empties the tree
    and marks all its requests. *)
Lemma cancel_all_spec c :
  pending_reqs c ≡ₚ req_tree c ->
  exists q, cancel_all c = set_reqs (set_lists c [] []) q /\
    (forall r, q !! r = if bool_decide (r ∈ pending_reqs c) then (fun q => set_error q (- ENOTCONN)) <$> reqs c !! r
                       else reqs c !! r).
Proof.
  intros Hp. unfold cancel_all.
  destruct (cancel_fold (pending_reqs c) (set_lists c [] (req_tree c))) as (tree & q & Heq & Ht & Hq); [by destruct c|].
  exists q. split.
  - rewrite Heq.
    assert (tree = []) as ->; [|by destruct c].
    destruct tree as [|x tree]; [done|]. exfalso.
    destruct (proj1 (Ht x)) as [H1 H2]; [apply list_elem_of_here|]. apply H2. rewrite Hp. by destruct c.
  - intros r. rewrite Hq. by destruct c.
Qed.

(** ** A step of a thread *)

Ltac step_cases H :=
  unfold tstep, powerfs_request_do_send, pfs_rx_dispatch, powerfs_req_timeout_fn, pfs_process_transmit,
    powerfs_conn_disconnect_one, complete_loop in H; simplify_eq/=; repeat (case_match; simplify_eq/=).

Lemma take_out_places c r :
  NoDup (at_rest c) -> pending_reqs c ≡ₚ req_tree c -> r ∈ req_tree c ->
  r :: at_rest (take_out c r) ≡ₚ at_rest c /\ pending_reqs (take_out c r) ≡ₚ req_tree (take_out c r).
Proof.
  intros [Hn _]%NoDup_app Hp Hr. destruct c; unfold at_rest, powerfs_req_tree_remove in *; simpl in *. split.
  - unfold take_out, powerfs_req_tree_remove; simpl. by rewrite app_comm_cons, (without_perm r).
  - unfold take_out, powerfs_req_tree_remove; simpl. by apply without_proper.
Qed.

Lemma enqueue_places c r key :
  NoDup (r :: at_rest c) -> pending_reqs c ≡ₚ req_tree c ->
  without r (pending_reqs c) = pending_reqs c /\ powerfs_req_tree_remove (req_tree c) r = req_tree c /\
  powerfs_req_tree_insert key (req_tree c) r ++ completed c ++ refused c ≡ₚ r :: at_rest c /\
  pending_reqs c ++ [r] ≡ₚ powerfs_req_tree_insert key (req_tree c) r.
Proof.
  intros [Hr _]%NoDup_cons Hp.
  assert (r ∉ req_tree c) as Ht by (intros ?; apply Hr, elem_of_app; by left).
  split_and!.
  - apply without_notin. by rewrite Hp.
  - by apply without_notin.
  - by rewrite tree_insert_perm.
  - by rewrite tree_insert_perm, Hp, Permutation_app_comm.
Qed.

Lemma lookup_in_tree c seq r : r ∈ powerfs_req_tree_lookup c seq -> r ∈ req_tree c /\ seq_of c r = seq.
Proof. unfold powerfs_req_tree_lookup. rewrite list_elem_of_filter. tauto. Qed.

Lemma req_complete_spec c r c' :
  powerfs_req_complete c r = Some c' ->
  pending_reqs c' = pending_reqs c /\ req_tree c' = req_tree c /\ running c' = running c /\
  completed c' = r :: completed c /\ refused c' = refused c /\
  (forall x, x <> r -> x ∈ timers c -> x ∈ timers c') /\
  reqs c' = alter (fun q => set_armed q false) r (reqs c).
Proof.
  intros H. unfold powerfs_req_complete in H. destruct c as [b n p t tx ti ru qs d f u]; simpl in H.
  unfold field in H; simpl in H. repeat case_match; simplify_eq/=; split_and!; try done.
  - intros. by apply elem_of_without.
  - symmetry. apply map_eq. intros x. destruct (decide (x = r)) as [->|]; [|by rewrite lookup_alter_ne].
    rewrite lookup_alter_eq. destruct (qs !! r) as [[]|]; simpl in *; by subst.
Qed.

Lemma req_complete_runs c r : r ∉ running c -> exists c', powerfs_req_complete c r = Some c'.
Proof.
  intros Hr. unfold powerfs_req_complete. case_match; [|by eexists].
  rewrite bool_decide_false by by destruct c. by eexists.
Qed.

(** A step moves requests between the thread and the connection and loses
    none; the pending list keeps the requests of the tree. *)
Lemma tstep_places c t choice c' t' :
  tstep c t choice = Some (c', t') -> NoDup (held t ++ at_rest c) -> pending_reqs c ≡ₚ req_tree c ->
  held t' ++ at_rest c' ≡ₚ held t ++ at_rest c /\ pending_reqs c' ≡ₚ req_tree c'.
Proof.
  intros H Hn Hp. destruct t; step_cases H;
    try (destruct c; simpl in *; done); try done; simpl in *.
  - destruct c; unfold at_rest; simpl. split; [|done]. by rewrite !app_assoc, Permutation_middle.
  - destruct (enqueue_places c r (seq_of c)) as (-> & -> & ? & ?); [done..|]. by destruct c.
  - destruct (enqueue_places c r (seq_of c)) as (-> & _ & ? & ?); [done..|]. by destruct c.
  - apply bool_decide_eq_true in H2. apply take_out_places; [done..|]. by eapply lookup_in_tree; rewrite ?H1.
  - apply bool_decide_eq_true in H0. destruct (take_out_places c r); [done..|by destruct c|by destruct c].
  - apply bool_decide_eq_true in H0. destruct (take_out_places c r); [done..|by destruct c|by destruct c].
  - destruct (cancel_all_spec c Hp) as (q & -> & _). destruct c; unfold at_rest; simpl in *. by rewrite Hp.
  - by destruct next.
  - apply req_complete_spec in H0 as (Hp' & Ht & _ & Hd & Hf & _). unfold at_rest. rewrite Hp', Ht, Hd, Hf.
    split; [|done]. simpl. rewrite !(app_assoc l). symmetry. apply Permutation_middle.
Qed.

(** A part of a request that a function keeps. *)
Lemma on_req_part {A} (g : powerfs_request -> A) c r f x :
  (x = r -> forall q, g (f q) = g q) -> g <$> reqs (on_req c r f) !! x = g <$> reqs c !! x.
Proof.
  intros Hf. destruct c; simpl. destruct (decide (x = r)) as [->|]; [|by rewrite lookup_alter_ne].
  rewrite lookup_alter_eq, <- option_fmap_compose. apply option_fmap_ext. intros; by apply Hf.
Qed.

Lemma set_part_reqs c :
  (forall b, reqs (set_up c b) = reqs c) /\ (forall n, reqs (set_counter c n) = reqs c) /\
  (forall p t, reqs (set_lists c p t) = reqs c) /\ (forall x, reqs (set_tx c x) = reqs c) /\
  (forall ti ru, reqs (set_timers c ti ru) = reqs c) /\ (forall d f, reqs (set_done c d f) = reqs c) /\
  (forall r, reqs (touch c r) = reqs c).
Proof. by destruct c. Qed.

Lemma fill_response_keeps f q : q_deadline (fill_response f q) = q_deadline q /\ q_seq (fill_response f q) = q_seq q.
Proof. unfold fill_response. by repeat case_match. Qed.

Lemma cancel_all_part {A} (g : powerfs_request -> A) c x :
  pending_reqs c ≡ₚ req_tree c -> (x ∈ req_tree c -> forall q e, g (set_error q e) = g q) ->
  g <$> reqs (cancel_all c) !! x = g <$> reqs c !! x.
Proof.
  intros Hp Hg. destruct (cancel_all_spec c Hp) as (q & -> & Hq).
  replace (reqs (set_reqs _ q)) with q by by destruct c. rewrite Hq.
  case_bool_decide as Hx; [|done]. rewrite Hp in Hx. rewrite <- option_fmap_compose.
  apply option_fmap_ext. intros; by apply Hg.
Qed.

Lemma req_complete_part {A} (g : powerfs_request -> A) c r c' x :
  powerfs_req_complete c r = Some c' -> (forall q, g (set_armed q false) = g q) ->
  g <$> reqs c' !! x = g <$> reqs c !! x.
Proof.
  intros (_ & _ & _ & _ & _ & _ & ->)%req_complete_spec Hg.
  rewrite <- (on_req_part g c r (fun q => set_armed q false)) by done. by destruct c.
Qed.

(** Requests and deadlines stay. *)
Lemma tstep_reqs c t choice c' t' :
  tstep c t choice = Some (c', t') -> pending_reqs c ≡ₚ req_tree c ->
  forall r, q_deadline <$> reqs c' !! r = q_deadline <$> reqs c !! r.
Proof.
  intros H Hp r. destruct (set_part_reqs c) as (E1 & E2 & E3 & E4 & E5 & E6 & E7).
  destruct t; step_cases H; rewrite ?on_req_part; try done; try (by destruct c).
  - intros _ q. apply fill_response_keeps.
  - by apply cancel_all_part.
  - by eapply req_complete_part.
Qed.

Lemma deadline_stays c t choice c' t' r :
  tstep c t choice = Some (c', t') -> pending_reqs c ≡ₚ req_tree c ->
  field c r q_deadline false = field c' r q_deadline false.
Proof.
  intros H Hp. pose proof (tstep_reqs _ _ _ _ _ H Hp r) as Hdl. unfold field.
  destruct (reqs c !! r), (reqs c' !! r); simplify_eq/=; congruence.
Qed.

(** What a request reports to its callback. *)
Definition report (q : powerfs_request) := (q_error q, resp_status q, resp_body q, resp_data q, (q_seq q, resp_body_cap q, resp_data_cap q)).

(** Nobody changes the report of a request in other hands. *)
Lemma tstep_report c t choice c' t' x :
  tstep c t choice = Some (c', t') -> pending_reqs c ≡ₚ req_tree c -> x ∉ held t -> x ∉ req_tree c ->
  report <$> reqs c' !! x = report <$> reqs c !! x.
Proof.
  intros H Hp Hh Hx.
  destruct t; step_cases H; rewrite ?on_req_part; try done; try (by destruct c).
  - intros ->. by apply not_elem_of_cons in Hh as [].
  - intros ->. by apply not_elem_of_cons in Hh as [].
  - intros ->. apply bool_decide_eq_true in H0. by destruct c.
  - intros ->. apply bool_decide_eq_true in H0. by destruct c.
  - by apply cancel_all_part.
  - by eapply req_complete_part.
Qed.

(** A request with a deadline that stays in the tree keeps its timer, or the
    thread that will queue it; one that enters has such a thread. *)
Lemma tstep_timer c t choice c' t' r :
  tstep c t choice = Some (c', t') -> NoDup (held t ++ at_rest c) -> pending_reqs c ≡ₚ req_tree c ->
  r ∈ req_tree c' -> field c r q_deadline false = true ->
  arming r t' \/
  (r ∈ req_tree c /\ (r ∈ timers c -> r ∈ timers c') /\ (arming r t -> r ∈ timers c' \/ arming r t')).
Proof.
  intros H Hn Hp Hr Hd.
  destruct t; step_cases H; try tauto; repeat match goal with
    | H : bool_decide _ = true |- _ => apply bool_decide_eq_true in H
    | H : bool_decide _ = false |- _ => apply bool_decide_eq_false in H
    end; unfold take_out, powerfs_req_tree_remove, field in *.
  all: try (destruct c; simpl in *; rewrite ?tree_insert_perm, ?elem_of_cons, ?elem_of_without in *;
    intuition (subst; eauto; congruence)).
  - exfalso. destruct (cancel_all_spec c Hp) as (q & Heq & _). rewrite Heq in Hr. destruct c; simpl in Hr.
    by apply elem_of_nil in Hr.
  - apply req_complete_spec in H0 as (_ & Ht & _ & _ & _ & Hk & _). rewrite Ht in Hr.
    right. split_and!; [done| |done]. apply Hk. intros ->.
    apply NoDup_cons in Hn as [Hn _]. apply Hn. unfold at_rest. rewrite !elem_of_app. tauto.
Qed.

Lemma tstep_running c t choice c' t' r :
  tstep c t choice = Some (c', t') -> pending_reqs c ≡ₚ req_tree c ->
  r ∈ running c' -> r ∈ running c /\ t <> TimeoutFn r.
Proof.
  intros H Hp Hr. destruct t; step_cases H; try done.
  all: try (by destruct c); 
    try (unfold take_out in *; destruct c; simpl in *; apply elem_of_without in Hr; destruct Hr; split; congruence).
  - destruct (cancel_all_spec c Hp) as (q & Heq & _). rewrite Heq in Hr. by destruct c.
  - apply req_complete_spec in H0 as (_ & _ & Heq & _). by rewrite Heq in Hr.
Qed.

(** ** The invariant *)

Lemma elem_of_insert_other {A} (l : list A) i x y z :
  l !! i = Some x -> z ∈ l -> z <> x -> z ∈ <[i := y]> l.
Proof.
  intros Hx Hz Hne. apply list_elem_of_lookup in Hz as [j Hj].
  apply list_elem_of_lookup. exists j. rewrite list_lookup_insert_ne; [done|]. intros ->. congruence.
Qed.

Lemma elem_of_insert_self {A} (l : list A) i x y : l !! i = Some x -> y ∈ <[i := y]> l.
Proof. intros Hx. apply list_elem_of_lookup. exists i. apply list_lookup_insert_eq. by eapply lookup_lt_Some. Qed.

Lemma run_places c ts i t choice c' t' :
  tstep c t choice = Some (c', t') -> ts !! i = Some t -> NoDup (places (c, ts)) -> pending_reqs c ≡ₚ req_tree c ->
  NoDup (held t ++ at_rest c) /\ places (c', <[i := t']> ts) ≡ₚ places (c, ts) /\ pending_reqs c' ≡ₚ req_tree c'.
Proof.
  intros H Ht Hn Hp. destruct (held_insert ts i t t' Ht) as (rest & E & E'). unfold places in *; simpl in *.
  rewrite E, (Permutation_app_comm (held t)), <- app_assoc in Hn. apply NoDup_app in Hn as (_ & _ & Hn').
  destruct (tstep_places _ _ _ _ _ H Hn' Hp) as [Hpl Hpend]. split_and!; [done| |done].
  by rewrite E, E', (Permutation_app_comm (held t)), (Permutation_app_comm (held t')), <- !app_assoc, Hpl.
Qed.

Lemma run_inv c ts i t choice c' t' :
  inv (c, ts) -> ts !! i = Some t -> tstep c t choice = Some (c', t') -> inv (c', <[i := t']> ts).
Proof.
  intros [Hn Hdom Hp Hti Hru] Ht H. simpl in *.
  destruct (run_places _ _ _ _ _ _ _ H Ht Hn Hp) as (Hn' & Hpl & Hp').
  pose proof (tstep_reqs _ _ _ _ _ H Hp) as Hdl.
  split; simpl.
  - by rewrite Hpl.
  - intros r. rewrite Hpl, Hdom, <- !(fmap_is_Some q_deadline). by rewrite Hdl.
  - done.
  - intros r Hr Hd.
    assert (field c r q_deadline false = true) as Hd0 by (rewrite <- Hd; by eapply deadline_stays).
    destruct (tstep_timer _ _ _ _ _ _ H Hn' Hp Hr Hd0) as [Ha|(Hr0 & Hk & Ha)].
    { right. exists t'. split; [by eapply elem_of_insert_self|done]. }
    destruct (Hti r Hr0 Hd0) as [|(u & Hu & Hau)]; [by left; apply Hk|].
    apply list_elem_of_lookup in Hu as [j Hj]. destruct (decide (j = i)) as [->|Hne].
    { assert (u = t) as -> by congruence. destruct (Ha Hau) as [|Ha']; [by left|].
      right. exists t'. split; [by eapply elem_of_insert_self|done]. }
    right. exists u. split; [|done]. apply list_elem_of_lookup. exists j. by rewrite list_lookup_insert_ne.
  - intros r Hr. destruct (tstep_running _ _ _ _ _ _ H Hp Hr) as [Hr0 Hne].
    eapply elem_of_insert_other; [done|by apply Hru|done].
Qed.

Lemma start_places c ts t : places (c, ts ++ [t]) ≡ₚ held t ++ places (c, ts).
Proof.
  unfold places; simpl. rewrite fmap_app, concat_app; simpl. rewrite app_nil_r.
  by rewrite (Permutation_app_comm _ (held t)), <- app_assoc.
Qed.

(** A new thread that holds nothing and a new timeout work change nothing. *)
Lemma start_inv s t ti ru :
  inv s -> held t = [] ->
  (forall r, r ∈ timers (fst s) -> r ∈ ti \/ arming r t) -> (forall r, r ∈ ru -> r ∈ running (fst s) \/ t = TimeoutFn r) ->
  inv (set_timers (fst s) ti ru, snd s ++ [t]).
Proof.
  destruct s as [c ts]. intros [Hn Hdom Hp Hti Hru] Ht H1 H2. simpl in *.
  assert (places (set_timers c ti ru, ts ++ [t]) ≡ₚ places (c, ts)) as Hpl.
  { rewrite start_places, Ht. by destruct c. }
  split; simpl.
  - by rewrite Hpl.
  - intros r. rewrite Hpl, Hdom. by destruct c.
  - by destruct c.
  - intros r Hr Hd. assert (r ∈ timers c \/ (exists u, u ∈ ts /\ arming r u)) as [Hr0|(u & Hu & Ha)] by (apply Hti; by destruct c).
    + destruct (H1 r Hr0); [left; by destruct c|right]. exists t. split; [|done]. apply elem_of_app; right; by left.
    + right. exists u. split; [|done]. apply elem_of_app; by left.
  - intros r Hr. rewrite elem_of_app. destruct (H2 r) as [| ->]; [by destruct c|left; by apply Hru|right; by left].
Qed.

Lemma submit_inv c ts r q :
  inv (c, ts) -> reqs c !! r = None -> inv (set_reqs c (<[r := q]> (reqs c)), ts ++ [DoSend r]).
Proof.
  intros [Hn Hdom Hp Hti Hru] Hq. simpl in *.
  assert (r ∉ places (c, ts)) as Hr by (rewrite Hdom, Hq; by intros [? ?]).
  assert (places (set_reqs c (<[r := q]> (reqs c)), ts ++ [DoSend r]) ≡ₚ r :: places (c, ts)) as Hpl.
  { rewrite start_places. by destruct c. }
  split; simpl.
  - rewrite Hpl. by apply NoDup_cons.
  - intros x. rewrite Hpl, elem_of_cons, Hdom. destruct c as [b n p t tx ti ru qs d f u]; simpl in *.
    destruct (decide (x = r)) as [->|Hne]; 
      [rewrite lookup_insert_eq; split; [by eexists|by left]|].
    rewrite lookup_insert_ne by done. tauto.
  - by destruct c.
  - intros x Hx Hd. destruct (Hti x) as [|(u & Hu & Ha)]; [by destruct c| |left; by destruct c|].
    + assert (x <> r) as Hne.
      { intros ->. apply Hr. unfold places, at_rest. rewrite !elem_of_app. right; left. by destruct c. }
      destruct c as [b n p t tx ti ru qs d f u]; unfold field in *; simpl in *. by rewrite lookup_insert_ne in Hd.
    + right. exists u. split; [apply elem_of_app; by left|done].
  - intros x Hx. apply elem_of_app; left. apply Hru. by destruct c.
Qed.

Lemma step_inv s e s' : inv s -> step s e = Some s' -> inv s'.
Proof.
  intros Hi H. destruct s as [c ts].
  assert (forall t, held t = [] -> inv (start (c, ts) t)) as Hst.
  { intros t Ht. pose proof (start_inv (c, ts) t (timers c) (running c) Hi Ht) as Hs.
    destruct c; apply Hs; intros; by left. }
  destruct e; unfold step in H; simplify_eq/=; repeat (case_match; simplify_eq/=); try (by apply Hst).
  - by eapply run_inv.
  - by apply submit_inv.
  - destruct Hi. by destruct c.
  - apply bool_decide_eq_true in H0. apply (start_inv (c, ts)); [done..| |]; simpl.
    + intros x Hx. destruct (decide (x = r)) as [->|]; [by right|left]. by apply elem_of_without.
    + intros x [->|]%elem_of_cons; [by right|by left].
Qed.

Lemma exec_inv es s s' : inv s -> exec es s = Some s' -> inv s'.
Proof.
  revert s; induction es as [|e es IH]; intros s Hi H; simplify_eq/=; [done|].
  case_match; [|done]. eapply IH; [|done]. by eapply step_inv.
Qed.

Lemma initial_inv : inv initial.
Proof.
  split; simpl; try (intros r H; by apply elem_of_nil in H); [constructor| |done].
  intros r. unfold places, at_rest; simpl. rewrite elem_of_nil, lookup_empty. split; [done|by intros []].
Qed.

(** ** What a completed request reports *)

(** The part [got] of a response of which [sent] was received, for a buffer of
    capacity [cap]. *)
Definition part_ok (cap : option Z) (got sent : buffer) : Prop :=
  match cap with Some n => got = sent /\ blen sent <= n | None => got = [] end.
Definition part_too_big (cap : option Z) (sent : buffer) : Prop :=
  match cap with Some n => n < blen sent | None => False end.

(** [q] reports the frame [f]: complete, or refused because a part of it does
    not fit. *)
Definition reports (f : frame) (q : powerfs_request) : Prop :=
  fr_notify f = false /\ fr_seq f = q_seq q /\ resp_status q = fr_status f /\
  ((q_error q = 0 /\ part_ok (resp_body_cap q) (resp_body q) (fr_body f) /\ part_ok (resp_data_cap q) (resp_data q) (fr_data f)) \/
   (q_error q = - E2BIG /\ (part_too_big (resp_body_cap q) (fr_body f) \/ part_too_big (resp_data_cap q) (fr_data f)))).

Definition outcome (es : list event) (q : powerfs_request) : Prop :=
  q_error q = - ETIMEDOUT \/ q_error q = - ENOTCONN \/ exists f, Receive f ∈ es /\ reports f q.

Definition settled (es : list event) (c : conn) (r : Z) : Prop :=
  exists q, reqs c !! r = Some q /\ outcome es q.

(** What the history has done for the thread. *)
Definition knows (es : list event) (c : conn) (t : thread) : Prop :=
  match t with
  | RxDispatch f => Receive f ∈ es
  | RxFill r f => Receive f ∈ es /\ fr_notify f = false /\ exists q, reqs c !! r = Some q /\ q_seq q = fr_seq f
  | TimeoutTx r => settled es c r
  | Complete rs _ => Forall (settled es c) rs
  | _ => True
  end.

Definition history (es : list event) (s : state) : Prop :=
  Forall (knows es (fst s)) (snd s) /\ Forall (settled es (fst s)) (completed (fst s)).

Lemma fill_response_reports f q : fr_notify f = false -> fr_seq f = q_seq q -> reports f (fill_response f q).
Proof.
  intros Hn Hs. unfold fill_response, reports, copy_part, part_ok, part_too_big.
  destruct (resp_body_cap q), (resp_data_cap q); repeat case_if; simpl; split_and!; try done; try (left; split_and!; done || lia).
  all: right; split; [done|]; lia.
Qed.

Lemma report_outcome es q q' : report q' = report q -> outcome es q -> outcome es q'.
Proof. destruct q, q'. intros [=]; subst. done. Qed.

(** What is known of requests in other hands stays known. *)
Lemma report_settled es c c' r :
  report <$> reqs c' !! r = report <$> reqs c !! r -> settled es c r -> settled es c' r.
Proof.
  intros Heq (q & Hq & Ho). rewrite Hq in Heq. apply fmap_Some in Heq as (q' & Hq' & Hr).
  exists q'. split; [done|]. by eapply report_outcome.
Qed.

Lemma report_knows es c c' t :
  (forall r, r ∈ held t -> report <$> reqs c' !! r = report <$> reqs c !! r) -> knows es c t -> knows es c' t.
Proof.
  intros Heq. destruct t; simpl in *; try done.
  - intros (Hf & Hn & q & Hq & Hs). split_and!; [done..|].
    specialize (Heq r ltac:(by left)). rewrite Hq in Heq. apply fmap_Some in Heq as (q' & Hq' & Hr).
    exists q'. split; [done|]. unfold report in Hr. congruence.
  - apply report_settled, Heq. by left.
  - rewrite !Forall_forall. intros Hall r Hr. apply (report_settled es c); auto.
Qed.

(** What a step makes known about the requests it handles. *)
Lemma tstep_knows es c t choice c' t' :
  tstep c t choice = Some (c', t') -> pending_reqs c ≡ₚ req_tree c ->
  (forall r, r ∈ held t ++ req_tree c -> is_Some (reqs c !! r)) -> knows es c t -> knows es c' t'.
Proof.
  intros H Hp Hdom Hk. destruct t; step_cases H; try done.
  - (* the frame found its request *)
    apply bool_decide_eq_true in H2. apply orb_false_iff in H0 as [Hnot _].
    assert (choice ∈ req_tree c /\ seq_of c choice = fr_seq f) as [Hr Hs] by (apply lookup_in_tree; by rewrite H1).
    destruct (Hdom choice Hr) as [q Hq]. split_and!; [done..|].
    exists q. split; [by destruct c|]. unfold seq_of, field in Hs. by rewrite Hq in Hs.
  - destruct Hk as (Hf & Hn & q & Hq & Hs). constructor; [|done].
    exists (fill_response f q). split; [destruct c; simpl in *; by rewrite lookup_alter_eq, Hq|].
    right; right. exists f. split; [done|]. by apply fill_response_reports.
  - apply bool_decide_eq_true in H0. destruct (Hdom r) as [q Hq]; [by destruct c|].
    exists (set_error q (- ETIMEDOUT)). split; [destruct c; simpl in *; by rewrite lookup_alter_eq, Hq|by left].
  - constructor; [|done]. apply (report_settled es c); [|done].
    rewrite on_req_part; [by destruct c|done].
  - apply bool_decide_eq_true in H0. destruct (Hdom r) as [q Hq]; [by destruct c|].
    constructor; [|done].
    exists (set_error q (- ENOTCONN)). split; [destruct c; simpl in *; by rewrite lookup_alter_eq, Hq|by right; left].
  - apply Forall_forall. intros r Hr. destruct (Hdom r) as [q Hq]; [by rewrite <- Hp|].
    destruct (cancel_all_spec c Hp) as (qs & -> & Hqs). exists (set_error q (- ENOTCONN)).
    split; [|by right; left]. replace (reqs (set_reqs _ qs)) with qs by by destruct c.
    by rewrite Hqs, bool_decide_true, Hq.
  - by destruct next.
  - apply Forall_cons in Hk as [_ Hk]. eapply Forall_impl; [exact Hk|]. intros r. apply report_settled.
    by eapply req_complete_part.
Qed.

(** The finished requests are those before the step, and one whose completion
    the thread was about to do. *)
Lemma tstep_completed c t choice c' t' :
  tstep c t choice = Some (c', t') -> pending_reqs c ≡ₚ req_tree c ->
  completed c' = completed c \/ exists r rs next, t = Complete (r :: rs) next /\ completed c' = r :: completed c.
Proof.
  intros H Hp. destruct t; step_cases H; try (left; by destruct c); try by left.
  - left. destruct (cancel_all_spec c Hp) as (qs & -> & _). by destruct c.
  - apply req_complete_spec in H0 as (_ & _ & _ & -> & _). right. by do 3 eexists.
Qed.

Lemma history_mono es es' s : history es s -> history (es ++ es') s.
Proof.
  assert (forall c r, settled es c r -> settled (es ++ es') c r) as Hs.
  { intros c r (q & Hq & Ho). exists q. split; [done|].
    destruct Ho as [|[|(f & Hf & Hr)]]; [by left|by right; left|].
    right; right. exists f. split; [apply elem_of_app; by left|done]. }
  intros [H1 H2]. split; [|eapply Forall_impl; [exact H2|]; apply Hs].
  eapply Forall_impl; [exact H1|]. intros t. destruct t; simpl; try done.
  - intros. apply elem_of_app; by left.
  - intros (Hf & Hr). split; [apply elem_of_app; by left|done].
  - apply Hs.
  - intros Hall. eapply Forall_impl; [exact Hall|]. apply Hs.
Qed.

(** Requests of different places are different. *)
Lemma held_elsewhere c ts i t j u r :
  NoDup (places (c, ts)) -> ts !! i = Some t -> ts !! j = Some u -> i <> j -> r ∈ held u ->
  (r ∉ held t) /\ (r ∉ at_rest c).
Proof.
  intros Hn Ht Hu Hij Hr. unfold places in Hn; simpl in Hn.
  destruct (held_insert ts i t Finished Ht) as (rest & E & E'). simpl in E'.
  assert (r ∈ rest) as Hrest.
  { rewrite <- E'. apply list_elem_of_In, in_concat. exists (held u). rewrite <- !list_elem_of_In. split; [|done].
    apply list_elem_of_fmap. exists u. split; [done|]. apply list_elem_of_lookup. exists j.
    by rewrite list_lookup_insert_ne. }
  rewrite E in Hn. apply NoDup_app in Hn as (Hn & Hd & _). apply NoDup_app in Hn as (_ & Hd' & _).
  split; intros Hc; [by eapply Hd'|]. eapply Hd; [|done]. apply elem_of_app; by right.
Qed.

Lemma run_history es c ts i t choice c' t' :
  inv (c, ts) -> history es (c, ts) -> ts !! i = Some t -> tstep c t choice = Some (c', t') ->
  history es (c', <[i := t']> ts).
Proof.
  intros [Hn Hdom Hp Hti Hru] [Hk Hd] Ht H. simpl in *.
  destruct (run_places _ _ _ _ _ _ _ H Ht Hn Hp) as (Hn' & _ & _).
  assert (Hat : forall r, r ∈ at_rest c -> r ∈ places (c, ts)) by (intros; apply elem_of_app; by right).
  split; simpl.
  - apply Forall_lookup. intros j u Hu. destruct (decide (j = i)) as [->|Hne].
    + rewrite list_lookup_insert_eq in Hu by (by eapply lookup_lt_Some). injection Hu as <-.
      eapply tstep_knows; [done..| |by eapply Forall_lookup_1 in Hk].
      intros r Hr. apply Hdom. unfold places; simpl. destruct (held_insert ts i t t Ht) as (rest & -> & _).
      unfold at_rest. rewrite !elem_of_app in *. tauto.
    + rewrite list_lookup_insert_ne in Hu by done. apply (report_knows es c); [|by eapply Forall_lookup_1 in Hk].
      intros r Hr. destruct (held_elsewhere _ _ _ _ _ _ _ Hn Ht Hu (not_eq_sym Hne) Hr) as [Hh Ha].
      eapply tstep_report; [done..|]. intros ?. apply Ha, elem_of_app. by left.
  - assert (Forall (settled es c') (completed c)) as Hall.
    { apply Forall_forall. intros r Hr. eapply Forall_forall in Hd; [|exact Hr].
      apply (report_settled es c); [|done]. apply NoDup_app in Hn' as (_ & Hdis & Hna).
      eapply tstep_report; [done..| |].
      - intros Hh. apply (Hdis r Hh). unfold at_rest. rewrite !elem_of_app. tauto.
      - intros Hh. apply NoDup_app in Hna as (_ & Hna & _). apply (Hna r Hh), elem_of_app. by left. }
    destruct (tstep_completed _ _ _ _ _ H Hp) as [->|(r & rs & next & -> & ->)]; [done|].
    constructor; [|done]. eapply Forall_lookup_1 in Hk; [|done]. apply Forall_cons in Hk as [Hk _].
    apply (report_settled es c); [|done]. simpl in H. case_match; simplify_eq. by eapply req_complete_part.
Qed.

Lemma step_history es s e s' : inv s -> history es s -> step s e = Some s' -> history (es ++ [e]) s'.
Proof.
  intros Hi Hh H. apply (history_mono es [e]) in Hh. destruct s as [c ts].
  assert (forall t, knows (es ++ [e]) c t -> history (es ++ [e]) (start (c, ts) t)) as Hst.
  { intros t Ht. destruct Hh as [H1 H2]. split; [|done]. apply Forall_app; split; [done|]. by constructor. }
  destruct e; unfold step in H; simplify_eq/=; repeat (case_match; simplify_eq/=); try (by apply Hst).
  - by eapply run_history.
  - destruct Hh as [H1 H2].
    assert (forall x, x <> r -> report <$> reqs (set_reqs c (<[r := powerfs_request_alloc deadline body_cap data_cap]> (reqs c))) !! x
      = report <$> reqs c !! x) as Hrep.
    { intros x Hx. destruct c; simpl. by rewrite lookup_insert_ne. }
    assert (r ∉ places (c, ts)) as Hr by (rewrite (inv_dom _ Hi); simpl; rewrite H0; by intros [? ?]).
    split; simpl.
    + apply Forall_app; split; [|by constructor].
      apply Forall_lookup. intros i t Ht. apply (report_knows _ c); [|by eapply Forall_lookup_1 in H1].
      intros x Hx. apply Hrep. intros ->. apply Hr. unfold places; simpl.
      destruct (held_insert ts i t t Ht) as (rest & -> & _). rewrite !elem_of_app. tauto.
    + apply Forall_forall. intros x Hx. apply (report_settled _ c).
      * apply Hrep. intros ->. apply Hr. unfold places, at_rest; simpl. rewrite !elem_of_app. destruct c; simpl in *; tauto.
      * eapply Forall_forall in H2; [done|]. by destruct c.
  - apply Hst; simpl. apply elem_of_app; right; by left.
  - destruct Hh. by destruct c.
  - destruct (Hst (TimeoutFn r) I) as [H1 H2]. by destruct c.
Qed.

Lemma exec_history es0 es s s' :
  inv s -> history es0 s -> exec es s = Some s' -> inv s' /\ history (es0 ++ es) s'.
Proof.
  revert es0 s; induction es as [|e es IH]; intros es0 s Hi Hh H; simplify_eq/=; [by rewrite app_nil_r|].
  case_match; [|done]. replace (es0 ++ e :: es) with ((es0 ++ [e]) ++ es) by by rewrite <- app_assoc.
  eapply IH; [by eapply step_inv|by eapply step_history|done].
Qed.

(** ** Requests with a deadline come to an end *)

(** Steps of running threads and expiring timers: nothing from outside. *)
Definition local (e : event) : Prop := match e with Run _ _ | Expire _ => True | _ => False end.

Definition can_end (r : Z) (s : state) : Prop :=
  exists es s', Forall local es /\ exec es s = Some s' /\ (r ∈ completed (fst s') \/ r ∈ refused (fst s')).

Lemma can_end_step r s e s' : step s e = Some s' -> local e -> can_end r s' -> can_end r s.
Proof.
  intros Hs He (es & s'' & Hes & Hx & Hr). exists (e :: es), s''. split_and!; [by constructor|simpl; by rewrite Hs|done].
Qed.

(** A step of thread [i], with the invariant for what follows. *)
Lemma can_end_run r c ts i t choice c' t' :
  inv (c, ts) -> ts !! i = Some t -> tstep c t choice = Some (c', t') ->
  (inv (c', <[i := t']> ts) -> <[i := t']> ts !! i = Some t' -> can_end r (c', <[i := t']> ts)) -> can_end r (c, ts).
Proof.
  intros Hi Ht H Hnext. eapply (can_end_step _ _ (Run i choice)); [simpl; by rewrite Ht, H|done|].
  apply Hnext; [by eapply run_inv|]. apply list_lookup_insert_eq. by eapply lookup_lt_Some.
Qed.

(** A completion that waits for a running timeout work can go on: the work
    finds the request gone and ends. *)
Lemma can_end_complete r c ts i rs next :
  inv (c, ts) -> ts !! i = Some (Complete rs next) -> r ∈ rs -> can_end r (c, ts).
Proof.
  revert c ts; induction rs as [|z rs IH]; intros c ts Hi Ht Hr; [by apply elem_of_nil in Hr|].
  assert (forall c ts, inv (c, ts) -> ts !! i = Some (Complete (z :: rs) next) -> z ∉ running c -> can_end r (c, ts)) as Hgo.
  { clear c ts Hi Ht. intros c ts Hi Ht Hz. destruct (req_complete_runs c z Hz) as [c' Hc].
    eapply (can_end_run _ _ _ i _ 0); [done..|simpl; by rewrite Hc|]. intros Hi' Ht'.
    apply elem_of_cons in Hr as [->|Hr]; [|by eapply IH].
    exists [], (c', <[i := Complete rs next]> ts). split_and!; [constructor|done|left; simpl].
    apply req_complete_spec in Hc as (_ & _ & _ & -> & _). by left. }
  destruct (decide (z ∈ running c)) as [Hz|Hz]; [|by apply Hgo].
  pose proof (inv_running _ Hi z Hz) as [j Hj]%list_elem_of_lookup; simpl in Hj.
  assert (i <> j) as Hij by (intros ->; congruence).
  assert (z ∉ req_tree c) as Htree.
  { destruct (held_elsewhere c ts j _ i _ z (inv_nodup _ Hi) Hj Ht (not_eq_sym Hij)) as [_ Ha]; [by left|].
    intros ?. apply Ha, elem_of_app. by left. }
  eapply (can_end_run _ _ _ j _ 0); [done..|simpl; rewrite bool_decide_false by (by destruct c); done|].
  intros Hi' _. apply Hgo; [done|by rewrite list_lookup_insert_ne|].
  destruct c; simpl. rewrite elem_of_without. tauto.
Qed.

Lemma can_end_timeout_fn r c ts i :
  inv (c, ts) -> ts !! i = Some (TimeoutFn r) -> r ∈ req_tree c -> can_end r (c, ts).
Proof.
  intros Hi Ht Hr. eapply (can_end_run _ _ _ i _ 0); [done..|simpl; rewrite bool_decide_true by (by destruct c); done|].
  intros Hi' Ht'. eapply (can_end_run _ _ _ i _ 0); [done..|]. intros Hi'' Ht''.
  eapply can_end_complete; [done..|]. by left.
Qed.

Lemma can_end_timer r c ts : inv (c, ts) -> r ∈ timers c -> r ∈ req_tree c -> can_end r (c, ts).
Proof.
  intros Hi Hti Hr.
  assert (step (c, ts) (Expire r) = Some (set_timers c (without r (timers c)) (r :: running c), ts ++ [TimeoutFn r])) as Hs.
  { simpl. by rewrite bool_decide_true. }
  eapply can_end_step; [done..|]. apply (can_end_timeout_fn _ _ _ (length ts)); [by eapply step_inv| |by destruct c].
  by rewrite lookup_app_r, Nat.sub_diag.
Qed.

(** Every thread that is about to queue the timer of a request of the tree
    gets it there, if there is a deadline. *)
Lemma can_end_arming r c ts i t :
  inv (c, ts) -> ts !! i = Some t -> arming r t -> r ∈ req_tree c -> field c r q_deadline false = true -> can_end r (c, ts).
Proof.
  intros Hi Ht Ha Hr Hd.
  assert (forall c ts, inv (c, ts) -> ts !! i = Some (QueueTimer r) -> r ∈ req_tree c -> can_end r (c, ts)) as Hqueue.
  { clear c ts t Hi Ht Ha Hr Hd. intros c ts Hi Ht Hr. eapply (can_end_run _ _ _ i _ 0); [done..|].
    intros Hi' _. apply can_end_timer; [done|destruct c; by left|by destruct c]. }
  assert (forall c ts, inv (c, ts) -> ts !! i = Some (ArmTimer r) -> r ∈ req_tree c ->
    field c r q_deadline false = true -> can_end r (c, ts)) as Harm.
  { clear c ts t Hi Ht Ha Hr Hd. intros c ts Hi Ht Hr Hd. eapply (can_end_run _ _ _ i _ 0); [done..| |].
    - simpl. replace (field (touch c r) r q_deadline false) with true; [done|]. symmetry. by destruct c.
    - intros Hi' Ht'. apply Hqueue; [done..|by destruct c]. }
  destruct t; simpl in Ha; try done; subst.
  - eapply (can_end_run _ _ _ i _ 0); [done..|]. intros Hi' Ht'. apply Harm; [done..| |]; by destruct c.
  - by apply Harm.
  - by apply Hqueue.
  - by eapply can_end_timeout_fn.
Qed.

Lemma can_end_tree r c ts : inv (c, ts) -> r ∈ req_tree c -> field c r q_deadline false = true -> can_end r (c, ts).
Proof.
  intros Hi Hr Hd. destruct (inv_timer _ Hi r Hr Hd) as [Hti|(t & Ht & Ha)]; [by apply can_end_timer|].
  apply list_elem_of_lookup in Ht as [i Hti]. by eapply can_end_arming.
Qed.

Lemma can_end_held r c ts i t :
  inv (c, ts) -> ts !! i = Some t -> r ∈ held t -> field c r q_deadline false = true -> can_end r (c, ts).
Proof.
  intros Hi Ht Hr Hd.
  assert (forall c ts, inv (c, ts) -> ts !! i = Some (Enqueue r) -> field c r q_deadline false = true -> can_end r (c, ts)) as Henq.
  { clear c ts t Hi Ht Hr Hd. intros c ts Hi Ht Hd. eapply (can_end_run _ _ _ i _ 0); [done..|]. intros Hi' _.
    apply can_end_tree; [done| |by destruct c]. destruct c; simpl. rewrite tree_insert_perm. by left. }
  destruct t; simpl in Hr; try (by apply elem_of_nil in Hr).
  - apply list_elem_of_singleton in Hr as ->. destruct (c_up c) eqn:Hup.
    + eapply (can_end_run _ _ _ i _ 0); [done..|simpl; by rewrite Hup|]. intros Hi' Ht'. apply Henq; [done..|].
      rewrite <- Hd. symmetry. apply (deadline_stays c (DoSend r0) 0 _ (Enqueue r0)); [simpl; by rewrite Hup|apply (inv_pending _ Hi)].
    + eapply (can_end_run _ _ _ i _ 0); [done..|simpl; by rewrite Hup|]. intros Hi' Ht'.
      exists [], (set_done c (completed c) (r0 :: refused c), <[i := Finished]> ts). split_and!; [constructor|done|right].
      destruct c; by left.
  - apply list_elem_of_singleton in Hr as ->. by apply Henq.
  - eapply (can_end_run _ _ _ i _ 0); [done..|]. intros Hi' Ht'. by eapply can_end_complete.
  - eapply (can_end_run _ _ _ i _ 0); [done..|]. intros Hi' Ht'. by eapply can_end_complete.
  - by eapply can_end_complete.
Qed.

(** ** Theorems *)

Definition submitted (es : list event) : list Z :=
  omap (fun e => match e with Submit r _ _ _ => Some r | _ => None end) es.

Lemma step_submitted s e s' : inv s -> step s e = Some s' -> places s' ≡ₚ submitted [e] ++ places s.
Proof.
  intros Hi H. destruct s as [c ts]. destruct e; unfold step in H; simplify_eq/=; repeat (case_match; simplify_eq/=).
  all: try apply start_places.
  - by eapply run_places; [..|apply (inv_nodup _ Hi)|apply (inv_pending _ Hi)].
  - rewrite start_places. by destruct c.
  - by destruct c.
  - rewrite start_places. by destruct c.
Qed.

Lemma exec_submitted es s s' : inv s -> exec es s = Some s' -> places s' ≡ₚ submitted es ++ places s.
Proof.
  revert s; induction es as [|e es IH]; intros s Hi H; simplify_eq/=; [done|].
  case_match; [|done]. rewrite (IH _ (step_inv _ _ _ Hi H0) H), (step_submitted _ _ _ Hi H0).
  rewrite app_assoc, (Permutation_app_comm (submitted es)). f_equiv.
  by destruct e.
Qed.

(** C18. In every interleaving each submitted request is at exactly one place:
    with the one thread that will enter, refuse or complete it, in the request
    tree, completed, or refused.  So a request is completed or refused at most
    once and none is lost.  The pending list holds the requests of the tree. *)
Theorem requests_accounted es c ts :
  exec es initial = Some (c, ts) ->
  concat (held <$> ts) ++ req_tree c ++ completed c ++ refused c ≡ₚ submitted es /\
  NoDup (submitted es) /\ pending_reqs c ≡ₚ req_tree c.
Proof.
  intros H. pose proof (exec_inv _ _ _ initial_inv H) as Hi.
  pose proof (exec_submitted _ _ _ initial_inv H) as Hs. rewrite app_nil_r in Hs.
  split_and!; [done| |apply Hi]. rewrite <- Hs. apply Hi.
Qed.

(** A completed request reports a timeout, the loss of the connection, or
    a frame that was received with its number and is no notification; the
    report of a frame is its status with the whole parts, or [-E2BIG] when a
    part is larger than its buffer. *)
Theorem completed_requests_report es c ts r :
  exec es initial = Some (c, ts) -> r ∈ completed c ->
  exists q, reqs c !! r = Some q /\ outcome es q.
Proof.
  intros H Hr. destruct (exec_history [] es initial (c, ts)) as [_ [_ Hd]]; [apply initial_inv| |done|].
  - split; constructor.
  - by eapply Forall_forall in Hd.
Qed.

(** C19. Whatever happened, a submitted request with a deadline can be brought
    to its end, completion or refusal, by the threads that run and by expiring
    timers: no frame, disconnect or other event from outside is needed. *)
Theorem deadline_requests_end es c ts r q :
  exec es initial = Some (c, ts) -> reqs c !! r = Some q -> q_deadline q = true ->
  exists es' c' ts', Forall local es' /\ exec es' (c, ts) = Some (c', ts') /\ (r ∈ completed c' \/ r ∈ refused c').
Proof.
  intros H Hq Hd. pose proof (exec_inv _ _ _ initial_inv H) as Hi.
  assert (field c r q_deadline false = true) as Hf by (unfold field; by rewrite Hq).
  cut (can_end r (c, ts)); [intros (es' & [c' ts'] & ?); by exists es', c', ts'|].
  assert (r ∈ places (c, ts)) as Hr by (apply (inv_dom _ Hi); by eexists).
  unfold places, at_rest in Hr; simpl in Hr. rewrite !elem_of_app in Hr.
  destruct Hr as [Hr|[Hr|Hr]]; [|by apply can_end_tree|by exists [], (c, ts); split_and!].
  apply list_elem_of_In, in_concat in Hr as (l & Hl & Hr). rewrite <- !list_elem_of_In in *.
  apply list_elem_of_fmap in Hl as (t & -> & [i Hi']%list_elem_of_lookup). by eapply can_end_held.
Qed.

(** ** Runs *)

Module Sample.

Definition reply (n : Z) : frame := mk_frame n false 0 [7; 8; 9] [].

(** Request 1 is sent and answered, request 2 is cancelled by a disconnect,
    request 3 enters the tree after it, request 4 is refused. *)
Definition busy : list event :=
  [Submit 1 true (Some 4) None; Run 0 0; Run 0 0; Run 0 0; Run 0 0; Run 0 0;
   Transmitter; Run 1 1; Run 1 31; Run 1 0;
   Submit 2 false None None; Run 2 0; Run 2 0;
   Submit 3 true (Some 2) None; Run 3 0;
   Receive (reply 1); Run 4 1; Run 4 0; Run 4 0;
   Disconnected; Run 5 0; Run 5 0; Run 5 0;
   Run 3 0; Submit 4 true None None; Run 6 0].

Definition busy_end : state := default initial (exec busy initial).

Example busy_outcome :
  (completed (fst busy_end), refused (fst busy_end), req_tree (fst busy_end), timers (fst busy_end)) = ([2; 1], [4], [3], []) /\
  resp_body <$> reqs (fst busy_end) !! 1 = Some [7; 8; 9] /\ use_after_free (fst busy_end) = false.
Proof. vm_compute. done. Qed.

Lemma requests_accounted_witness :
  exists c ts, exec busy initial = Some (c, ts) /\
    concat (held <$> ts) ++ req_tree c ++ completed c ++ refused c ≡ₚ submitted busy.
Proof.
  exists (fst busy_end), (snd busy_end). split; [vm_compute; reflexivity|].
  apply (requests_accounted busy (fst busy_end) (snd busy_end)). vm_compute. reflexivity.
Defined.

Lemma completed_requests_report_witness :
  exists q, reqs (fst busy_end) !! 1 = Some q /\ outcome busy q.
Proof.
  apply (completed_requests_report busy (fst busy_end) (snd busy_end) 1); [vm_compute; reflexivity|].
  vm_compute. right. left.
Defined.

Lemma deadline_requests_end_witness :
  exists es' c' ts', Forall local es' /\ exec es' busy_end = Some (c', ts') /\ (3 ∈ completed c' \/ 3 ∈ refused c').
Proof.
  apply (deadline_requests_end busy (fst busy_end) (snd busy_end) 3
           (default (powerfs_request_alloc false None None) (reqs (fst busy_end) !! 3))); vm_compute; reflexivity.
Defined.

(** The response is handled between [pfs_tx_schedule] and the arming of the
    timer: the sender arms the timer of a request that was freed. *)
Example timer_armed_after_free :
  option_map (fun s => (completed (fst s), timers (fst s), use_after_free (fst s)))
    (exec [Submit 1 true (Some 4) None; Run 0 0; Run 0 0; Run 0 0; Receive (reply 1); Run 1 1; Run 1 0; Run 1 0;
           Run 0 0; Run 0 0] initial) = Some ([1], [1], true).
Proof. vm_compute. reflexivity. Qed.

(** The timeout completes a request while it is being sent; the transmitter
    then puts the freed request back into the queue. *)
Example requeued_after_free :
  option_map (fun s => (completed (fst s), tx_queue (fst s), use_after_free (fst s)))
    (exec [Submit 1 true (Some 4) None; Run 0 0; Run 0 0; Run 0 0; Run 0 0; Run 0 0; Transmitter; Run 1 1;
           Expire 1; Run 2 0; Run 2 0; Run 2 0; Run 1 (- EAGAIN); Run 1 0] initial) = Some ([1], [1], true).
Proof. vm_compute. reflexivity. Qed.

(** The response is handled before the transmitter, back from [send_frame],
    writes the time into the request. *)
Example stamped_after_free :
  option_map (fun s => (completed (fst s), use_after_free (fst s)))
    (exec [Submit 1 true (Some 4) None; Run 0 0; Run 0 0; Run 0 0; Run 0 0; Run 0 0; Transmitter; Run 1 1; Run 1 31;
           Receive (reply 1); Run 2 1; Run 2 0; Run 2 0; Run 1 0] initial) = Some ([1], true).
Proof. vm_compute. reflexivity. Qed.

End Sample.
