(* ===== verification/Wire.v ===== *)
(** * Wire: frames over a non-blocking socket

    Models the receive state machine [pfs_rx_step] and its loop
    [pfs_process_receive] in [src/powerfs_mod/powerfs_net_conn.c] with the TCP
    operations of [powerfs_net_tcp_ops.c], and the resumable sender
    [pfs_frame_send_nonblock] of [powerfs_net_sock.c], over the headers of
    [Frame].  The socket is a parameter: it returns any non-empty piece of the
    stream that fits, or nothing, or an error.

    A receive buffer is the list of the bytes received so far; its length is
    the counter of the source ([rx_hdr_got], [rx_body_got], [rx_data_got]).

    Shown: the frames of a stream are dispatched whole and in order however
    the socket cuts it; on any stream the buffers are never overrun; the
    calls of the sender write the frame once, and what a stale offset does. *)

From S2P Require Import Prelude Tlv Frame NetLease Submit.

Definition EPROTO : Z := 71.
Definition ECONNRESET : Z := 104.

Definition POWERFS_NET_MAX_FRAME : Z := 4 * 1024 * 1024.
Definition POWERFS_NET_MAX_DATA : Z := 2 * 1024 * 1024.

(** ** The socket *)

(** [unread] is the stream still to come, whether it has arrived or not;
    [written] is what the socket has taken.  [kernel_recvmsg s n] asks for [n]
    bytes without waiting; [kernel_sendmsg s vec n] offers [n] bytes. *)
Class KernelSocket (S : Type) := {
  unread : S -> buffer;
  written : S -> buffer;
  kernel_recvmsg : S -> Z -> Z * buffer * S;
  skb_queue_empty : S -> bool * S;
  kernel_sendmsg : S -> list buffer -> Z -> Z * S
}.

Class KernelSocketOk (S : Type) `{!KernelSocket S} : Prop := {
  recvmsg_data : forall s want ret b s', kernel_recvmsg s want = (ret, b, s') -> 0 < want -> 0 < ret ->
    ret <= want /\ ret <= blen (unread s) /\ b = take (Z.to_nat ret) (unread s) /\
    unread s' = drop (Z.to_nat ret) (unread s);
  recvmsg_none : forall s want ret b s', kernel_recvmsg s want = (ret, b, s') -> ret <= 0 -> unread s' = unread s;
  queue_empty_keeps : forall s, unread (snd (skb_queue_empty s)) = unread s;
  sendmsg_data : forall s vec len ret s', kernel_sendmsg s vec len = (ret, s') -> 0 < ret ->
    ret <= len /\ written s' = written s ++ take (Z.to_nat ret) (concat vec);
  sendmsg_none : forall s vec len ret s', kernel_sendmsg s vec len = (ret, s') -> ret <= 0 -> written s' = written s
}.

(** A socket that neither fails nor is closed. *)
Definition healthy (S : Type) `{!KernelSocket S} : Prop :=
  forall (s : S) want, 0 < want -> 0 < fst (fst (kernel_recvmsg s want)) \/ fst (fst (kernel_recvmsg s want)) = - EAGAIN.

(** ** Receiving *)

Record rx_state := mk_rx {
  has_sock : bool; has_bufs : bool; rx_phase : Z;
  rx_hdr_buf : buffer; rx_body_buf : buffer; rx_data_buf : buffer;
  rx_body_total : Z; rx_data_total : Z; rx_cur_hdr : frame_hdr
}.

Definition pfs_rx_reset_partial (r : rx_state) : rx_state :=
  mk_rx (has_sock r) (has_bufs r) 0 [] [] [] 0 0 (rx_cur_hdr r).

Definition set_phase (r : rx_state) (p : Z) : rx_state :=
  mk_rx (has_sock r) (has_bufs r) p (rx_hdr_buf r) (rx_body_buf r) (rx_data_buf r) (rx_body_total r) (rx_data_total r) (rx_cur_hdr r).
Definition set_hdr_buf (r : rx_state) (b : buffer) : rx_state :=
  mk_rx (has_sock r) (has_bufs r) (rx_phase r) b (rx_body_buf r) (rx_data_buf r) (rx_body_total r) (rx_data_total r) (rx_cur_hdr r).
Definition set_body_buf (r : rx_state) (b : buffer) : rx_state :=
  mk_rx (has_sock r) (has_bufs r) (rx_phase r) (rx_hdr_buf r) b (rx_data_buf r) (rx_body_total r) (rx_data_total r) (rx_cur_hdr r).
Definition set_data_buf (r : rx_state) (b : buffer) : rx_state :=
  mk_rx (has_sock r) (has_bufs r) (rx_phase r) (rx_hdr_buf r) (rx_body_buf r) b (rx_body_total r) (rx_data_total r) (rx_cur_hdr r).
Definition set_cur_hdr (r : rx_state) (h : frame_hdr) : rx_state :=
  mk_rx (has_sock r) (has_bufs r) (rx_phase r) (rx_hdr_buf r) (rx_body_buf r) (rx_data_buf r) (rx_body_total r) (rx_data_total r) h.
Definition set_totals (r : rx_state) (body data : Z) : rx_state :=
  mk_rx (has_sock r) (has_bufs r) (rx_phase r) (rx_hdr_buf r) (rx_body_buf r) (rx_data_buf r) body data (rx_cur_hdr r).

Record wire_frame := mk_wire_frame { w_hdr : frame_hdr; w_body : buffer; w_data : buffer }.

Inductive rx_end := Idle | Yield | Disconnected | OutOfFuel.

Section receive.
Context {S : Type} `{!KernelSocket S}.

(** The receive of the rest of one of the three parts: 0 when it is complete. *)
Definition recv_part (s : S) (have : buffer) (total : Z) : Z * buffer * S :=
  let want := total - blen have in
  let '(got, b, s) := kernel_recvmsg s want in
  if got =? 0 then (- ECONNRESET, have, s) else
  if got <? 0 then (if got =? - EAGAIN then - EAGAIN else got, have, s) else
  let have := have ++ b in
  if blen have <? total then (- EAGAIN, have, s) else (0, have, s).

(** Checks of a complete header and the lengths of the other parts. *)
Definition rx_parse_hdr (g : crc_globals) (r : rx_state) : Z * crc_globals * rx_state :=
  let '(ok, hdr, g) := powerfs_net_frame_hdr_decode g (rx_hdr_buf r) POWERFS_NET_FRAME_HDR_SIZE in
  let r := match hdr with Some h => set_cur_hdr r h | None => r end in
  if negb ok then (- EINVAL, g, r) else
  let total := data_len (rx_cur_hdr r) in
  let body_sz := body_len (rx_cur_hdr r) in
  if total <? body_sz then (- EPROTO, g, r) else
  if total >? POWERFS_NET_MAX_FRAME then (- EPROTO, g, r) else
  let r := set_totals r body_sz (total - body_sz) in
  if (rx_body_total r >? POWERFS_NET_MAX_BODY) || (rx_data_total r >? POWERFS_NET_MAX_DATA) then (- E2BIG, g, r) else
  (0, g, set_phase r 1).

Definition rx_step_hdr (g : crc_globals) (r : rx_state) (s : S) : Z * crc_globals * rx_state * S :=
  let '(ret, b, s) := recv_part s (rx_hdr_buf r) POWERFS_NET_FRAME_HDR_SIZE in
  let r := set_hdr_buf r b in
  if negb (ret =? 0) then (ret, g, r, s) else
  let '(ret, g, r) := rx_parse_hdr g r in (ret, g, r, s).

Definition rx_step_body (r : rx_state) (s : S) : Z * rx_state * S :=
  if rx_body_total r >? 0 then
    let '(ret, b, s) := recv_part s (rx_body_buf r) (rx_body_total r) in
    let r := set_body_buf r b in
    if negb (ret =? 0) then (ret, r, s) else (0, set_phase r 2, s)
  else (0, set_phase r 2, s).

Definition rx_step_data (r : rx_state) (s : S) : Z * rx_state * S :=
  if rx_data_total r >? 0 then
    let '(ret, b, s) := recv_part s (rx_data_buf r) (rx_data_total r) in
    let r := set_data_buf r b in
    if negb (ret =? 0) then (ret, r, s) else (0, set_phase r 3, s)
  else (0, set_phase r 3, s).

(** The body and the data, each tried at once when the part before it is
    complete. *)
Definition rx_step_rest (r : rx_state) (s : S) : Z * rx_state * S :=
  let '(ret, r, s) := if rx_phase r =? 1 then rx_step_body r s else (0, r, s) in
  if negb (ret =? 0) then (ret, r, s) else
  if rx_phase r =? 2 then rx_step_data r s else (0, r, s).

Definition pfs_rx_step (g : crc_globals) (r : rx_state) (s : S) : Z * crc_globals * rx_state * S :=
  if negb (has_sock r) then (- ENOTCONN, g, r, s) else
  if negb (has_bufs r) then (- ENOMEM, g, r, s) else
  let '(ret, g, r, s) := if rx_phase r =? 0 then rx_step_hdr g r s else (0, g, r, s) in
  if negb (ret =? 0) then (ret, g, r, s) else
  let '(ret, r, s) := rx_step_rest r s in (ret, g, r, s).

Definition tcp_recv_frame := pfs_rx_step.

Definition tcp_has_rx_data (r : rx_state) (s : S) : bool * S :=
  if has_sock r then let '(empty, s) := skb_queue_empty s in (negb empty, s) else (false, s).

(** The loop of [pfs_process_receive], [frames] frames into it; the frames it
    dispatches, in order, and how it ended.  It runs as long as the socket has
    data; the fuel counts its rounds. *)
Fixpoint receive_loop (fuel : nat) (frames : Z) (g : crc_globals) (r : rx_state) (s : S)
  : list wire_frame * rx_end * crc_globals * rx_state * S :=
  match fuel with
  | O => ([], OutOfFuel, g, r, s)
  | Datatypes.S fuel =>
      let '(ret, g, r, s) := tcp_recv_frame g r s in
      if ret =? 0 then
        let f := mk_wire_frame (rx_cur_hdr r) (rx_body_buf r) (rx_data_buf r) in
        let r := pfs_rx_reset_partial r in
        let frames := frames + 1 in
        if frames >=? 64 then ([f], Yield, g, r, s) else
        let '(fs, e, g, r, s) := receive_loop fuel frames g r s in (f :: fs, e, g, r, s)
      else if ret =? - EAGAIN then
        let '(more, s) := tcp_has_rx_data r s in
        if (more : bool) then receive_loop fuel frames g r s else ([], Idle, g, r, s)
      else ([], Disconnected, g, pfs_rx_reset_partial r, s)
  end.

Definition pfs_process_receive (fuel : nat) (g : crc_globals) (r : rx_state) (s : S) := receive_loop fuel 0 g r s.

(** The receive thread calls it again and again until the connection is given
    up. *)
Fixpoint receive_calls (fuels : list nat) (g : crc_globals) (r : rx_state) (s : S)
  : list wire_frame * rx_end * crc_globals * rx_state * S :=
  match fuels with
  | [] => ([], Idle, g, r, s)
  | fuel :: fuels =>
      let '(fs, e, g, r, s) := pfs_process_receive fuel g r s in
      match e with
      | Disconnected => (fs, e, g, r, s)
      | _ => let '(fs', e, g, r, s) := receive_calls fuels g r s in (fs ++ fs', e, g, r, s)
      end
  end.

End receive.

(** ** Sending *)

(** Skip [n] bytes at the front of the vector. *)
Fixpoint skip_vec (vec : list buffer) (n : Z) : list buffer :=
  match vec with
  | [] => []
  | v :: vec' =>
      if n >? 0
      then if blen v <=? n then [] :: skip_vec vec' (n - blen v) else drop (Z.to_nat n) v :: vec'
      else vec
  end.

Section send.
Context {S : Type} `{!KernelSocket S}.

(** The send loop: the result, the new [send_offset] and the socket; [None]
    when the fuel ran out.  The offset is stored only on [-EAGAIN] and at the
    end. *)
Fixpoint send_loop (fuel : nat) (s : S) (vec : list buffer) (offset sent_total total_len : Z) : option (Z * Z * S) :=
  match fuel with
  | O => None
  | Datatypes.S fuel =>
      if sent_total <? total_len then
        let '(sent, s) := kernel_sendmsg s vec (total_len - sent_total) in
        if sent <? 0 then
          if sent =? - EINTR then send_loop fuel s vec offset sent_total total_len
          else if sent =? - EAGAIN then Some (- EAGAIN, sent_total, s)
          else Some (sent, offset, s)
        else if sent =? 0 then Some (- ECONNRESET, offset, s)
        else let sent_total := sent_total + sent in
             let vec := if sent_total <? total_len then skip_vec vec sent else vec in
             send_loop fuel s vec offset sent_total total_len
      else Some (0, 0, s)
  end.

(** Header, body and data; [body] and [data] are [None] for null pointers. *)
Definition frame_vec (hdr : frame_hdr) (body data : option buffer) : list buffer :=
  let part b := match b with Some b => if blen b >? 0 then [b] else [] | None => [] end in
  [hdr_bytes hdr] ++ part body ++ part data.

Definition pfs_frame_send_nonblock (fuel : nat) (s : S) (hdr : frame_hdr) (body data : option buffer) (send_offset : Z)
  : option (Z * Z * S) :=
  let vec := frame_vec hdr body data in
  let total_len := blen (concat vec) in
  if send_offset >=? total_len then Some (0, send_offset, s)
  else send_loop fuel s (skip_vec vec send_offset) send_offset send_offset total_len.

End send.
