(* ===== verification/WireProof.v ===== *)
(** * WireProof: properties of the transfer of frames

    Over [Wire]: reassembly of a stream, bounds of the receive buffers on any
    stream, and the resumable send. *)

From S2P Require Import Prelude Tlv Frame NetLease Submit Wire.

(** ** Frames on the wire *)

Definition frame_bytes (f : wire_frame) : buffer := hdr_bytes (w_hdr f) ++ w_body f ++ w_data f.

(** [f] was made by the header encoder, with parts within the limits. *)
Definition framed (f : wire_frame) : Prop :=
  blen (w_body f) <= POWERFS_NET_MAX_BODY /\ blen (w_data f) <= POWERFS_NET_MAX_DATA /\
  exists g hdr mt fl sq st rh,
    crc_ok g /\ hdr_args_ok mt fl sq st (blen (w_body f)) (blen (w_body f) + blen (w_data f)) rh /\
    w_hdr f = fst (powerfs_net_frame_hdr_encode g hdr mt fl sq st (blen (w_body f)) (blen (w_body f) + blen (w_data f)) rh).

Lemma framed_parsed f g : framed f -> crc_ok g ->
  exists g', powerfs_net_frame_hdr_decode g (hdr_bytes (w_hdr f)) 28 = (true, Some (w_hdr f), g') /\ crc_ok g' /\
    body_len (w_hdr f) = blen (w_body f) /\ data_len (w_hdr f) = blen (w_body f) + blen (w_data f).
Proof.
  intros (_ & _ & g0 & hdr & mt & fl & sq & st & rh & Hg0 & Ha & Hh) Hg.
  pose proof (frame_hdr_encode_spec g0 hdr mt fl sq st _ _ rh Hg0 Ha) as Hs.
  destruct (powerfs_net_frame_hdr_encode _ _ _ _ _ _ _ _ _) as [h g1]; simpl in Hh; subst h.
  destruct Hs as (_ & Hok & Hh). destruct (frame_hdr_decode_encoded _ _ _ _ _ _ _ _ _ Hg Hok Hh) as (g' & Hd & Hg').
  exists g'. split_and!; [done..| |]; by rewrite Hh.
Qed.

Section receive_proofs.
Context {S : Type} `{!KernelSocket S} `{!KernelSocketOk S}.
Implicit Types s : S.

(** ** One part *)

(** The receive of the rest of [part], of which [have] is there. *)
Lemma recv_part_spec s have total part tail ret have' s' :
  recv_part s have total = (ret, have', s') ->
  have ++ unread s = part ++ tail -> blen part = total -> blen have < total ->
  (ret = 0 /\ have' = part /\ unread s' = tail) \/
  (ret = - EAGAIN /\ have' ++ unread s' = part ++ tail /\ blen have' < total) \/
  (ret < 0 /\ ret <> - EAGAIN /\ ~ healthy S).
Proof.
  intros H Hst Hpart Hlt. unfold recv_part in H.
  destruct (kernel_recvmsg s (total - blen have)) as [[got b] s1] eqn:E.
  assert (forall got', got = got' -> got' <= 0 -> got' <> - EAGAIN -> ~ healthy S) as Hsick.
  { intros ? <- Hle Hne Hh. destruct (Hh s (total - blen have)) as [Hp|Hp]; [lia|..]; rewrite E in Hp; simpl in Hp; lia. }
  case_if_in H; [|case_if_in H].
  - simplify_eq/=. right; right. split_and!; [done..|]. by eapply Hsick.
  - injection H as <- <- <-. case_if.
    + right; left. by rewrite (recvmsg_none _ _ _ _ _ E) by lia.
    + right; right. split_and!; [done..|]. eapply Hsick; [done|lia|done].
  - destruct (recvmsg_data _ _ _ _ _ E) as (H1 & H2 & Hb & Hu); [lia..|].
    assert (blen b = got) as Hlen by (subst b; unfold blen in *; rewrite length_take; lia).
    assert ((have ++ b) ++ unread s1 = part ++ tail) as Happ by (rewrite <- app_assoc, Hb, Hu, take_drop; done).
    case_if_in H; injection H as <- <- <-; [by right; left|left].
    apply app_inj_1 in Happ as [-> ->]; [done|]. rewrite blen_app in *. unfold blen in *. rewrite length_app. lia.
Qed.

(** ** One call of the state machine *)

(** The machine is inside frame [f], with [f] and [tail] still to come from
    what it has and the socket has. *)
Definition rx_at (f : wire_frame) (tail : buffer) (r : rx_state) (s : S) : Prop :=
  (rx_phase r = 0 /\ rx_hdr_buf r ++ unread s = frame_bytes f ++ tail /\ blen (rx_hdr_buf r) < 28 /\
   rx_body_buf r = [] /\ rx_data_buf r = []) \/
  (rx_phase r = 1 /\ rx_cur_hdr r = w_hdr f /\ rx_body_total r = blen (w_body f) /\ rx_data_total r = blen (w_data f) /\
   rx_body_buf r ++ unread s = w_body f ++ w_data f ++ tail /\ blen (rx_body_buf r) < rx_body_total r /\ rx_data_buf r = []) \/
  (rx_phase r = 2 /\ rx_cur_hdr r = w_hdr f /\ rx_data_total r = blen (w_data f) /\ rx_body_buf r = w_body f /\
   rx_data_buf r ++ unread s = w_data f ++ tail /\ blen (rx_data_buf r) < rx_data_total r).

Definition rx_ready (r : rx_state) : Prop := has_sock r = true /\ has_bufs r = true.

(** Outcome of a call inside [f]. *)
Definition step_result (f : wire_frame) (tail : buffer) (ret : Z) (r : rx_state) (s : S) : Prop :=
  (ret = 0 /\ mk_wire_frame (rx_cur_hdr r) (rx_body_buf r) (rx_data_buf r) = f /\ unread s = tail) \/
  (ret = - EAGAIN /\ rx_at f tail r s) \/
  (ret < 0 /\ ret <> - EAGAIN /\ ~ healthy S).

Lemma rx_step_data_spec f tail r s ret r' s' :
  rx_step_data r s = (ret, r', s') ->
  rx_phase r = 2 -> rx_cur_hdr r = w_hdr f -> rx_data_total r = blen (w_data f) -> rx_body_buf r = w_body f ->
  rx_data_buf r ++ unread s = w_data f ++ tail -> blen (rx_data_buf r) < rx_data_total r \/ rx_data_buf r = [] ->
  step_result f tail ret r' s'.
Proof.
  intros H Hp Hc Ht Hb Hd Hlt. unfold rx_step_data in H. pose proof (blen_nonneg (rx_data_buf r)).
  case_if_in H.
  - destruct (recv_part s (rx_data_buf r) (rx_data_total r)) as [[ret1 b] s1] eqn:Er.
    assert (blen (rx_data_buf r) < rx_data_total r) as Hlt' by (destruct Hlt as [|Hn]; [done|rewrite Hn, blen_nil; lia]).
    destruct (recv_part_spec _ _ _ _ _ _ _ _ Er Hd (eq_sym Ht) Hlt') as [(-> & -> & Hu)|[(-> & Hu & Hl)|(H1 & H2 & H3)]];
      simplify_eq/=.
    + left; simpl. rewrite Hc, Hb. by destruct f.
    + right; left. split; [done|]. right; right. split_and!; done.
    + case_if_in H; [|lia]. injection H as <- <- <-. right; right. done.
  - injection H as <- <- <-.
    assert (w_data f = []) as Hnil by (apply length_zero_iff_nil; unfold blen in *; lia).
    assert (rx_data_buf r = []) as Hn by (destruct Hlt; [lia|done]).
    rewrite Hnil, Hn in Hd. left. simpl. rewrite Hc, Hb, Hn, <- Hnil. by destruct f.
Qed.

Lemma rx_step_body_spec f tail r s ret r' s' :
  rx_step_body r s = (ret, r', s') ->
  rx_phase r = 1 -> rx_cur_hdr r = w_hdr f -> rx_body_total r = blen (w_body f) -> rx_data_total r = blen (w_data f) ->
  rx_body_buf r ++ unread s = w_body f ++ w_data f ++ tail ->
  blen (rx_body_buf r) < rx_body_total r \/ rx_body_buf r = [] -> rx_data_buf r = [] ->
  (ret = 0 /\ rx_phase r' = 2 /\ rx_cur_hdr r' = w_hdr f /\ rx_data_total r' = blen (w_data f) /\ rx_body_buf r' = w_body f /\
   rx_data_buf r' = [] /\ unread s' = w_data f ++ tail) \/
  (ret = - EAGAIN /\ rx_at f tail r' s') \/
  (ret < 0 /\ ret <> - EAGAIN /\ ~ healthy S).
Proof.
  intros H Hp Hc Hbt Hdt Hb Hlt Hd. unfold rx_step_body in H. pose proof (blen_nonneg (rx_body_buf r)).
  case_if_in H.
  - destruct (recv_part s (rx_body_buf r) (rx_body_total r)) as [[ret1 b] s1] eqn:Er.
    assert (blen (rx_body_buf r) < rx_body_total r) as Hlt' by (destruct Hlt as [|Hn]; [done|rewrite Hn, blen_nil; lia]).
    destruct (recv_part_spec _ _ _ _ _ _ _ _ Er Hb (eq_sym Hbt) Hlt') as [(-> & -> & Hu)|[(-> & Hu & Hl)|(H1 & H2 & H3)]];
      simplify_eq/=.
    + left. by split_and!.
    + right; left. split; [done|]. right; left. by split_and!.
    + case_if_in H; [|lia]. injection H as <- <- <-. right; right. done.
  - injection H as <- <- <-.
    assert (w_body f = []) as Hnil by (apply length_zero_iff_nil; unfold blen in *; lia).
    assert (rx_body_buf r = []) as Hn by (destruct Hlt; [lia|done]).
    rewrite Hnil, Hn in Hb. left. simpl. rewrite Hn, Hnil. by split_and!.
Qed.

Lemma rx_parse_hdr_spec f g r :
  framed f -> crc_ok g -> rx_hdr_buf r = hdr_bytes (w_hdr f) ->
  exists g', crc_ok g' /\
    rx_parse_hdr g r = (0, g', set_phase (set_totals (set_cur_hdr r (w_hdr f)) (blen (w_body f)) (blen (w_data f))) 1).
Proof.
  intros Hf Hg Hr. destruct (framed_parsed f g Hf Hg) as (g' & Hd & Hg' & Hbl & Hdl). exists g'. split; [done|].
  destruct Hf as (Hb & Hdt & _). unfold rx_parse_hdr, POWERFS_NET_MAX_FRAME, POWERFS_NET_MAX_BODY, POWERFS_NET_MAX_DATA in *.
  rewrite Hr. change POWERFS_NET_FRAME_HDR_SIZE with 28. rewrite Hd; simpl. rewrite Hbl, Hdl.
  pose proof (blen_nonneg (w_body f)). pose proof (blen_nonneg (w_data f)).
  do 2 ltb_false. replace (blen (w_body f) + blen (w_data f) - blen (w_body f)) with (blen (w_data f)) by lia.
  by do 2 ltb_false.
Qed.

Lemma rx_step_rest_spec f tail r s ret r' s' :
  rx_step_rest r s = (ret, r', s') -> rx_phase r <> 0 ->
  rx_at f tail r s \/
  (rx_phase r = 1 /\ rx_cur_hdr r = w_hdr f /\ rx_body_total r = blen (w_body f) /\ rx_data_total r = blen (w_data f) /\
   unread s = w_body f ++ w_data f ++ tail /\ rx_body_buf r = [] /\ rx_data_buf r = []) ->
  step_result f tail ret r' s'.
Proof.
  intros H Hp Hcase. unfold rx_step_rest in H.
  assert (forall r s ret r' s', rx_phase r = 1 -> rx_cur_hdr r = w_hdr f -> rx_body_total r = blen (w_body f) ->
    rx_data_total r = blen (w_data f) -> rx_body_buf r ++ unread s = w_body f ++ w_data f ++ tail ->
    blen (rx_body_buf r) < rx_body_total r \/ rx_body_buf r = [] -> rx_data_buf r = [] ->
    (let '(ret, r, s) := rx_step_body r s in
     if negb (ret =? 0) then (ret, r, s) else if rx_phase r =? 2 then rx_step_data r s else (0, r, s)) = (ret, r', s') ->
    step_result f tail ret r' s') as Hbody.
  { clear -KernelSocketOk0. intros r s ret r' s' Hp Hc Hbt Hdt Hb Hlt Hd H.
    destruct (rx_step_body r s) as [[ret1 r1] s1] eqn:E1.
    destruct (rx_step_body_spec f tail _ _ _ _ _ E1 Hp Hc Hbt Hdt Hb Hlt Hd)
      as [(-> & Hp1 & Hc1 & Hdt1 & Hb1 & Hd1 & Hu1)|[[-> Hat]|(H1 & H2 & H3)]].
    - simpl in H. rewrite Hp1 in H. eapply rx_step_data_spec; [exact H|done..| |by right]. by rewrite Hd1.
    - injection H as <- <- <-. by right; left.
    - case_if_in H; [|lia]. injection H as <- <- <-. by right; right. }
  destruct Hcase as [[(?&_)|[(H1&H2&H3&H4&H5&H6&H7)|(H1&H2&H3&H4&H5&H6)]]|(H1&H2&H3&H4&H5&H6&H7)]; [done| | |];
    rewrite H1 in H; simpl in H.
  - eapply Hbody; [..|exact H]; auto.
  - rewrite H1 in H; simpl in H. eapply rx_step_data_spec; [exact H|..]; auto.
  - eapply Hbody; [..|exact H]; auto. by rewrite H6.
Qed.

(** ** Bounds on any stream *)

Definition same_conn (r r' : rx_state) : Prop := has_sock r' = has_sock r /\ has_bufs r' = has_bufs r.

(** The buffers hold no more than was allocated. *)
Definition rx_bounded (r : rx_state) : Prop :=
  blen (rx_hdr_buf r) <= POWERFS_NET_FRAME_HDR_SIZE /\ blen (rx_body_buf r) <= POWERFS_NET_MAX_BODY /\
  blen (rx_data_buf r) <= POWERFS_NET_MAX_DATA.

Definition rx_mid (r : rx_state) : Prop :=
  (rx_phase r = 1 /\ rx_body_total r <= POWERFS_NET_MAX_BODY /\ (blen (rx_body_buf r) < rx_body_total r \/ rx_body_buf r = []) /\
   rx_data_buf r = [] \/
   rx_phase r = 2 /\ blen (rx_body_buf r) <= POWERFS_NET_MAX_BODY /\
   (blen (rx_data_buf r) < rx_data_total r \/ rx_data_buf r = [])) /\
  blen (rx_hdr_buf r) <= POWERFS_NET_FRAME_HDR_SIZE /\ rx_data_total r <= POWERFS_NET_MAX_DATA.

(** The states between calls. *)
Definition rx_resumable (r : rx_state) : Prop :=
  (rx_phase r = 0 /\ blen (rx_hdr_buf r) < POWERFS_NET_FRAME_HDR_SIZE /\ rx_body_buf r = [] /\ rx_data_buf r = []) \/ rx_mid r.

Lemma recv_part_bounds s have total ret have' s' :
  recv_part s have total = (ret, have', s') -> blen have < total ->
  blen have' <= total /\ (ret = - EAGAIN -> blen have' < total).
Proof.
  intros H Hlt. unfold recv_part in H. destruct (kernel_recvmsg s (total - blen have)) as [[got b] s1] eqn:Er.
  case_if_in H; [|case_if_in H]; [by simplify_eq; split; lia|injection H as <- <- <-; split; lia|].
  destruct (recvmsg_data _ _ _ _ _ Er) as (H1 & H2 & Hb & _); [lia..|].
  assert (blen b = got) as Hlen by (subst b; unfold blen in *; rewrite length_take; lia).
  assert (blen (have ++ b) <= total) by (rewrite blen_app; lia).
  case_if_in H; injection H as <- <- <-; split; [lia|done|lia|done].
Qed.

(** A stage keeps the buffers bounded; on [-EAGAIN] it can be resumed and on
    0 the next stage can start. *)
Definition stage_ok (next : rx_state -> Prop) (ret : Z) (r r' : rx_state) : Prop :=
  same_conn r r' /\ rx_bounded r' /\ (ret = - EAGAIN -> rx_resumable r') /\ (ret = 0 -> next r').

Lemma max_sizes_pos : 0 <= POWERFS_NET_MAX_BODY /\ 0 <= POWERFS_NET_MAX_DATA.
Proof. done. Qed.

Lemma rx_step_data_bounds r s ret r' s' :
  rx_step_data r s = (ret, r', s') -> rx_mid r -> rx_phase r = 2 -> stage_ok (fun _ => True) ret r r'.
Proof.
  intros H Hm Hp. pose proof max_sizes_pos.
  destruct Hm as [[(? & _)|(_ & Hb & Hd)] [Hh Hdt]]; [congruence|].
  unfold rx_step_data in H. case_if_in H.
  - destruct (recv_part s (rx_data_buf r) (rx_data_total r)) as [[ret1 b] s1] eqn:Er.
    destruct (recv_part_bounds _ _ _ _ _ _ Er) as [Hle Hag]; [destruct Hd as [|Hn]; [done|rewrite Hn, blen_nil; lia]|].
    case_if_in H; injection H as <- <- <-; (split_and!; [done|split_and!; simpl; lia| |done]).
    + intros Heq. right. split; [|done]. right. split_and!; [done..|left; by apply Hag].
    + unfold EAGAIN; lia.
  - injection H as <- <- <-. split_and!; [done| |done|done]. split_and!; simpl; [done..|].
    destruct Hd as [|Hn]; [lia|]. rewrite Hn, blen_nil. lia.
Qed.

Lemma rx_step_body_bounds r s ret r' s' :
  rx_step_body r s = (ret, r', s') -> rx_mid r -> rx_phase r = 1 -> stage_ok (fun r => rx_mid r /\ rx_phase r = 2) ret r r'.
Proof.
  intros H Hm Hp. pose proof max_sizes_pos.
  destruct Hm as [[(_ & Hbt & Hb & Hd)|(? & _)] [Hh Hdt]]; [|congruence].
  assert (blen (rx_data_buf r) <= POWERFS_NET_MAX_DATA) by (rewrite Hd, blen_nil; lia).
  assert (forall b, blen b <= POWERFS_NET_MAX_BODY ->
    stage_ok (fun r => rx_mid r /\ rx_phase r = 2) 0 r (set_phase (set_body_buf r b) 2)) as Hdone.
  { intros b Hle. split_and!; [done|by split_and!|by unfold EAGAIN|].
    intros _. split; [|done]. split; [|done]. right. split_and!; [done..|by right]. }
  unfold rx_step_body in H. case_if_in H.
  - destruct (recv_part s (rx_body_buf r) (rx_body_total r)) as [[ret1 b] s1] eqn:Er.
    destruct (recv_part_bounds _ _ _ _ _ _ Er) as [Hle Hag]; [destruct Hb as [|Hn]; [done|rewrite Hn, blen_nil; lia]|].
    case_if_in H; injection H as <- <- <-; [|apply Hdone; lia].
    split_and!; [done|split_and!; simpl; lia| |lia].
    intros Heq. right. split; [|done]. left. split_and!; [done..|left; by apply Hag|done].
  - injection H as <- <- <-. destruct Hb as [|Hn]; [pose proof (blen_nonneg (rx_body_buf r)); lia|].
    replace r with (set_body_buf r (rx_body_buf r)) at 2 by by destruct r. apply Hdone. rewrite Hn, blen_nil. lia.
Qed.

Lemma rx_step_rest_bounds r s ret r' s' :
  rx_step_rest r s = (ret, r', s') -> rx_mid r -> stage_ok (fun _ => True) ret r r'.
Proof.
  intros H Hm. unfold rx_step_rest in H.
  assert (rx_phase r = 1 \/ rx_phase r = 2) as [Hp|Hp] by (destruct Hm as [[(? & _)|(? & _)] _]; auto); rewrite Hp in H; simpl in H.
  - destruct (rx_step_body r s) as [[ret1 r1] s1] eqn:E1.
    destruct (rx_step_body_bounds _ _ _ _ _ E1 Hm Hp) as ([Hc1 Hc2] & Hb & Ha & Hn).
    case_if_in H; [by simplify_eq|]. destruct (Hn E) as [Hm' Hp']. rewrite Hp' in H; simpl in H.
    destruct (rx_step_data_bounds _ _ _ _ _ H Hm' Hp') as ([? ?] & ? & ? & _). split_and!; try done. split; congruence.
  - rewrite Hp in H. simpl in H. by eapply rx_step_data_bounds.
Qed.

Lemma rx_parse_bounds g r ret g' r' :
  rx_parse_hdr g r = (ret, g', r') -> blen (rx_hdr_buf r) <= POWERFS_NET_FRAME_HDR_SIZE ->
  rx_body_buf r = [] -> rx_data_buf r = [] -> stage_ok rx_mid ret r r'.
Proof.
  intros H Hh Hb Hd. unfold rx_parse_hdr in H.
  destruct (powerfs_net_frame_hdr_decode _ _ _) as [[ok hdr] g1].
  set (r1 := match hdr with Some h => set_cur_hdr r h | None => r end) in H.
  assert (same_conn r r1 /\ rx_hdr_buf r1 = rx_hdr_buf r /\ rx_body_buf r1 = [] /\ rx_data_buf r1 = []) as (Hc & Hh1 & Hb1 & Hd1)
    by (unfold r1; by destruct hdr).
  assert (forall r2, rx_hdr_buf r2 = rx_hdr_buf r1 -> rx_body_buf r2 = [] -> rx_data_buf r2 = [] -> rx_bounded r2) as Hbd.
  { intros r2 E1 E2 E3. pose proof max_sizes_pos. unfold rx_bounded. rewrite E1, E2, E3, Hh1, blen_nil. lia. }
  repeat case_if_in H; injection H as <- <- <-; (split_and!; [done|by apply Hbd|done|]); try done.
  simpl in *. intros _. split; [|split; simpl; [by rewrite Hh1|lia]]. left. split_and!; simpl; [done|lia|by right|done].
Qed.

Lemma resumable_bounded r : rx_resumable r -> rx_bounded r.
Proof.
  intros Hr. pose proof max_sizes_pos. unfold rx_bounded.
  destruct Hr as [(_ & ? & -> & ->)|Hm]; [|destruct Hm as [[(_ & ? & Hb & ->)|(_ & ? & Hd)] [? ?]]]; rewrite ?blen_nil.
  - lia.
  - destruct Hb as [| ->]; rewrite ?blen_nil; lia.
  - destruct Hd as [| ->]; rewrite ?blen_nil; lia.
Qed.

(** A call on any stream. *)
Lemma rx_step_bounds g r s ret g' r' s' :
  pfs_rx_step g r s = (ret, g', r', s') -> rx_resumable r -> stage_ok (fun _ => True) ret r r'.
Proof.
  intros H Hr. pose proof max_sizes_pos. pose proof (resumable_bounded r Hr) as Hbd.
  unfold pfs_rx_step in H. case_if_in H; [by simplify_eq; split_and!|]. case_if_in H; [by simplify_eq; split_and!|].
  destruct Hr as [(Hp & Hh & Hb & Hd)|Hm].
  - rewrite Hp in H. simpl in H. unfold rx_step_hdr in H.
    destruct (recv_part s (rx_hdr_buf r) _) as [[ret1 b] s1] eqn:E1.
    destruct (recv_part_bounds _ _ _ _ _ _ E1 Hh) as [Hle Hag].
    destruct (Z.eqb_spec ret1 0) as [->|Hne]; cbn [negb Z.eqb] in H.
    + destruct (rx_parse_hdr g (set_hdr_buf r b)) as [[ret2 g2] r2] eqn:E2.
      destruct (rx_parse_bounds _ _ _ _ _ E2) as ([Hc1 Hc2] & Hb2 & Ha2 & Hn2); [done..|].
      destruct (Z.eqb_spec ret2 0) as [->|]; cbn [negb Z.eqb] in H; [|by simplify_eq; split_and!].
      destruct (rx_step_rest r2 s1) as [[ret3 r3] s3] eqn:E3. injection H as <- <- <- <-.
      destruct (rx_step_rest_bounds _ _ _ _ _ E3 (Hn2 eq_refl)) as ([? ?] & ? & ? & _). split_and!; try done.
      split; simpl in *; congruence.
    + apply Z.eqb_neq in Hne. rewrite Hne in H. cbn [negb] in H. injection H as <- <- <- <-.
      split_and!; [done|split_and!; simpl; rewrite ?Hb, ?Hd, ?blen_nil; lia| |done].
      intros Heq. left. split_and!; [done|by apply Hag|done..].
  - assert (rx_phase r <> 0) as Hp by (destruct Hm as [[(? & _)|(? & _)] _]; congruence).
    apply Z.eqb_neq in Hp. rewrite Hp in H. cbn [negb Z.eqb] in H.
    destruct (rx_step_rest r s) as [[ret3 r3] s3] eqn:E3. injection H as <- <- <- <-.
    by eapply rx_step_rest_bounds.
Qed.

(** A call inside a frame: the whole frame, or a later place in it. *)
Lemma rx_step_spec f tail g r s ret g' r' s' :
  framed f -> crc_ok g -> rx_ready r -> rx_at f tail r s -> pfs_rx_step g r s = (ret, g', r', s') ->
  crc_ok g' /\ step_result f tail ret r' s'.
Proof.
  intros Hf Hg [Hs Hbf] Hat H. unfold pfs_rx_step in H. rewrite Hs, Hbf in H. cbn [negb] in H.
  destruct (decide (rx_phase r = 0)) as [Hp|Hp].
  - rewrite Hp in H. cbn [Z.eqb] in H. unfold rx_step_hdr in H.
    destruct Hat as [(_ & Hst & Hlt & Hb & Hd)|[(? & _)|(? & _)]]; [|congruence..].
    change POWERFS_NET_FRAME_HDR_SIZE with 28 in H.
    destruct (recv_part s (rx_hdr_buf r) 28) as [[ret1 b] s1] eqn:E1.
    unfold frame_bytes in Hst. rewrite <- app_assoc in Hst.
    destruct (recv_part_spec _ _ _ _ _ _ _ _ E1 Hst (blen_hdr_bytes _) Hlt) as [(-> & -> & Hu)|[(-> & Hu & Hl)|(H1 & H2 & H3)]].
    + destruct (rx_parse_hdr_spec f g (set_hdr_buf r (hdr_bytes (w_hdr f))) Hf Hg eq_refl) as (g1 & Hg1 & Hparse).
      cbn [negb Z.eqb] in H. rewrite Hparse in H. cbn [negb Z.eqb] in H.
      destruct (rx_step_rest _ s1) as [[ret2 r2] s2] eqn:E2. injection H as <- <- <- <-. split; [done|].
      eapply rx_step_rest_spec; [exact E2|done|]. right. split_and!; try done. by rewrite <- app_assoc in Hu.
    + change (negb (- EAGAIN =? 0)) with true in H. cbv iota in H. change (negb (- EAGAIN =? 0)) with true in H.
      injection H as <- <- <- <-. split; [done|]. right; left. split; [done|]. left. unfold frame_bytes.
      rewrite <- app_assoc. by split_and!.
    + assert (negb (ret1 =? 0) = true) as Hn by (apply negb_true_iff, Z.eqb_neq; lia). rewrite !Hn in H.
      injection H as <- <- <- <-. split; [done|]. by right; right.
  - apply Z.eqb_neq in Hp as Hp'. rewrite Hp' in H. cbn [negb Z.eqb] in H.
    destruct (rx_step_rest r s) as [[ret2 r2] s2] eqn:E2. injection H as <- <- <- <-.
    split; [done|]. eapply rx_step_rest_spec; [exact E2|done|by left].
Qed.

(** ** The loop *)

(** The frames [rest] are still to be dispatched. *)
Definition holds (rest : list wire_frame) (r : rx_state) (s : S) : Prop :=
  match rest with
  | [] => rx_phase r = 0 /\ rx_hdr_buf r = [] /\ rx_body_buf r = [] /\ rx_data_buf r = [] /\ unread s = []
  | f :: rest => rx_at f (concat (frame_bytes <$> rest)) r s
  end.

Lemma frame_bytes_length f : 28 <= blen (frame_bytes f).
Proof.
  unfold frame_bytes. rewrite !blen_app, blen_hdr_bytes.
  pose proof (blen_nonneg (w_body f)). pose proof (blen_nonneg (w_data f)). lia.
Qed.

Lemma rx_at_unread f tail r s : rx_at f tail r s -> unread s <> [].
Proof.
  intros Hat Hu. pose proof (frame_bytes_length f). pose proof (blen_nonneg tail). unfold rx_at in Hat. rewrite Hu, !app_nil_r in Hat.
  destruct Hat as [(_ & E & Hl & _)|[(_ & _ & Hbt & _ & E & Hl & _)|(_ & _ & Hdt & _ & E & Hl)]];
    rewrite E, !blen_app in Hl; pose proof (blen_nonneg (w_data f)); lia.
Qed.

Lemma holds_unread rest r s : holds rest r s -> (unread s = [] <-> rest = []).
Proof.
  destruct rest as [|f rest]; simpl; [tauto|]. intros Hat%rx_at_unread. split; [done|by intros].
Qed.

Lemma holds_fresh rest r s : unread s = concat (frame_bytes <$> rest) -> holds rest (pfs_rx_reset_partial r) s.
Proof. destruct rest as [|f rest]; simpl; intros Hu; [by split_and!|]. left. by split_and!. Qed.

(** With nothing to come a call changes nothing. *)
Lemma rx_step_none g r s ret g' r' s' :
  rx_ready r -> holds [] r s -> pfs_rx_step g r s = (ret, g', r', s') ->
  ret < 0 /\ (ret = - EAGAIN -> g' = g /\ rx_ready r' /\ holds [] r' s') /\ (ret <> - EAGAIN -> ~ healthy S).
Proof.
  intros [Hs Hbf] (Hp & Hh & Hb & Hd & Hu) H. unfold pfs_rx_step in H. rewrite Hs, Hbf, Hp in H. cbn [negb Z.eqb] in H.
  unfold rx_step_hdr, recv_part in H. rewrite Hh in H. change (POWERFS_NET_FRAME_HDR_SIZE - blen []) with 28 in H.
  destruct (kernel_recvmsg s 28) as [[got b] s1] eqn:E.
  assert (got <= 0) as Hle.
  { destruct (Z.le_gt_cases got 0) as [|Hgt]; [done|]. destruct (recvmsg_data _ _ _ _ _ E) as (_ & Hl & _); [lia..|].
    rewrite Hu, blen_nil in Hl. lia. }
  assert (got <> - EAGAIN -> ~ healthy S) as Hsick.
  { intros Hne Hhe. destruct (Hhe s 28) as [Hx|Hx]; [lia|..]; rewrite E in Hx; simpl in Hx; lia. }
  pose proof (recvmsg_none _ _ _ _ _ E Hle) as Hu'.
  destruct (Z.eqb_spec got 0) as [->|Hne].
  { change (negb (- ECONNRESET =? 0)) with true in H. cbv iota in H. change (negb (- ECONNRESET =? 0)) with true in H.
    injection H as <- <- <- <-. split_and!; [done|done|]. intros _. by apply Hsick. }
  replace (got <? 0) with true in H by (symmetry; apply Z.ltb_lt; lia).
  assert ((if got =? - EAGAIN then - EAGAIN else got) = got) as Hgot by (case_if; congruence). rewrite Hgot in H.
  assert (negb (got =? 0) = true) as Hn by (by apply negb_true_iff, Z.eqb_neq). rewrite !Hn in H.
  injection H as <- <- <- <-. split_and!; [lia| |done]. intros _. split_and!; [done|by split|]. simpl. by rewrite Hu', Hu.
Qed.

Definition rx_good (r : rx_state) : Prop := rx_ready r /\ rx_resumable r.

Lemma reset_good r : rx_ready r -> rx_good (pfs_rx_reset_partial r).
Proof. intros Hr. split; [done|]. left. by split_and!. Qed.

(** One round: the next frame, a later state, or the end of the socket. *)
Lemma recv_frame_spec rest g r s ret g' r' s' :
  Forall framed rest -> crc_ok g -> rx_good r -> holds rest r s -> tcp_recv_frame g r s = (ret, g', r', s') ->
  (exists rest', ret = 0 /\ rest = mk_wire_frame (rx_cur_hdr r') (rx_body_buf r') (rx_data_buf r') :: rest' /\
     crc_ok g' /\ rx_good (pfs_rx_reset_partial r') /\ holds rest' (pfs_rx_reset_partial r') s') \/
  (ret = - EAGAIN /\ crc_ok g' /\ rx_good r' /\ holds rest r' s') \/
  (ret < 0 /\ ret <> - EAGAIN /\ ~ healthy S).
Proof.
  unfold tcp_recv_frame. intros Hf Hg [Hr Hres] Hh H.
  destruct (rx_step_bounds _ _ _ _ _ _ _ H Hres) as ([Hs' Hb'] & _ & Hag & _).
  assert (rx_ready r') as Hr' by (destruct Hr; split; congruence).
  destruct rest as [|f rest].
  - destruct (rx_step_none _ _ _ _ _ _ _ Hr Hh H) as (Hlt & Ha & Hn).
    destruct (decide (ret = - EAGAIN)) as [Heq|]; [|by right; right; auto].
    destruct (Ha Heq) as (-> & ? & ?). right; left. split_and!; try done. split; auto.
  - apply Forall_cons in Hf as [Hf _]. destruct (rx_step_spec _ _ _ _ _ _ _ _ _ Hf Hg Hr Hh H) as [Hg' Hout].
    destruct Hout as [(-> & <- & Hu)|[[-> Hat]|Herr]]; [left|right; left|by right; right].
    + exists rest. split_and!; [done..|by apply reset_good|by apply holds_fresh].
    + split_and!; try done. split; auto.
Qed.

Lemma has_rx_data_keeps r s more s' : tcp_has_rx_data r s = (more, s') -> unread s' = unread s.
Proof.
  unfold tcp_has_rx_data. intros H. case_match; [|by simplify_eq].
  pose proof (queue_empty_keeps s) as Hq. destruct (skb_queue_empty s); simplify_eq/=. done.
Qed.

Lemma holds_same rest r s s' : unread s' = unread s -> holds rest r s -> holds rest r s'.
Proof. intros Hu. destruct rest; simpl; unfold rx_at; by rewrite Hu. Qed.

(** After any rounds, the dispatched frames are the first of those to come. *)
Definition loop_result (rest fs : list wire_frame) (e : rx_end) (g : crc_globals) (r : rx_state) (s : S) : Prop :=
  exists rest', rest = fs ++ rest' /\
    (e <> Disconnected -> crc_ok g /\ rx_good r /\ holds rest' r s) /\ (e = Disconnected -> ~ healthy S).

Lemma receive_loop_spec fuel frames rest g r s fs e g' r' s' :
  Forall framed rest -> crc_ok g -> rx_good r -> holds rest r s ->
  receive_loop fuel frames g r s = (fs, e, g', r', s') -> loop_result rest fs e g' r' s'.
Proof.
  revert frames rest g r s fs; induction fuel as [|fuel IH]; intros frames rest g r s fs Hf Hg Hr Hh H;
    cbn [receive_loop] in H; [simplify_eq; by exists rest|].
  destruct (tcp_recv_frame g r s) as [[[ret g1] r1] s1] eqn:E1.
  destruct (recv_frame_spec _ _ _ _ _ _ _ _ Hf Hg Hr Hh E1) as [(rest' & -> & -> & Hg1 & Hr1 & Hh1)|[(-> & Hg1 & Hr1 & Hh1)|(Hlt & Hne & Hsick)]].
  - cbn [Z.eqb] in H. case_if_in H; [simplify_eq; by exists rest'|].
    destruct (receive_loop fuel _ _ _ _) as [[[[fs2 e2] g2] r2] s2] eqn:E2. injection H as <- <- <- <- <-.
    apply Forall_cons in Hf as [_ Hf]. destruct (IH _ _ _ _ _ _ Hf Hg1 Hr1 Hh1 E2) as (rest2 & -> & ?). by exists rest2.
  - change (- EAGAIN =? 0) with false in H. change (- EAGAIN =? - EAGAIN) with true in H. cbv iota in H.
    destruct (tcp_has_rx_data r1 s1) as [more s2] eqn:E2. apply has_rx_data_keeps in E2.
    apply (holds_same _ _ _ s2) in Hh1; [|done]. destruct more; [by eapply IH|]. simplify_eq. by exists rest.
  - replace (ret =? 0) with false in H by (symmetry; apply Z.eqb_neq; lia).
    replace (ret =? - EAGAIN) with false in H by (symmetry; by apply Z.eqb_neq). simplify_eq. by exists rest.
Qed.

Lemma receive_calls_spec fuels rest g r s fs e g' r' s' :
  Forall framed rest -> crc_ok g -> rx_good r -> holds rest r s ->
  receive_calls fuels g r s = (fs, e, g', r', s') -> loop_result rest fs e g' r' s'.
Proof.
  revert rest g r s fs; induction fuels as [|fuel fuels IH]; intros rest g r s fs Hf Hg Hr Hh H; cbn [receive_calls] in H;
    [simplify_eq; by exists rest|].
  destruct (pfs_process_receive fuel g r s) as [[[[fs1 e1] g1] r1] s1] eqn:E1.
  destruct (receive_loop_spec _ _ _ _ _ _ _ _ _ _ _ Hf Hg Hr Hh E1) as (rest1 & -> & Hok & Hd).
  assert (e1 = Disconnected \/ e1 <> Disconnected) as [->|Hne] by (destruct e1; auto).
  { simplify_eq. exists rest1. split_and!; [done|by intros []|]. auto. }
  destruct (Hok Hne) as (Hg1 & Hr1 & Hh1). apply Forall_app in Hf as [_ Hf].
  destruct (receive_calls fuels g1 r1 s1) as [[[[fs2 e2] g2] r2] s2] eqn:E2.
  assert ((fs1 ++ fs2, e2, g2, r2, s2) = (fs, e, g', r', s')) as [= <- -> -> -> ->] by (by destruct e1).
  destruct (IH _ _ _ _ _ Hf Hg1 Hr1 Hh1 E2) as (rest2 & -> & Hrest).
  exists rest2. by rewrite <- app_assoc.
Qed.

(** ** Progress *)

(** A socket that hands out what has come and says so. *)
Definition prompt : Prop :=
  healthy S /\ (forall s want, 0 < want -> unread s <> [] -> 0 < fst (fst (kernel_recvmsg s want))) /\
  (forall s, fst (skb_queue_empty s) = true <-> unread s = []).

Lemma recv_part_unread s have total ret have' s' :
  recv_part s have total = (ret, have', s') -> blen have < total ->
  (length (unread s') <= length (unread s))%nat /\
  (prompt -> unread s <> [] -> (length (unread s') < length (unread s))%nat).
Proof.
  intros H Hlt. unfold recv_part in H. destruct (kernel_recvmsg s (total - blen have)) as [[got b] s1] eqn:E.
  assert (s1 = s') as -> by (repeat case_if_in H; by simplify_eq).
  destruct (Z.le_gt_cases got 0) as [Hle|Hgt].
  - rewrite (recvmsg_none _ _ _ _ _ E Hle). split; [done|]. intros (_ & Hp & _) Hne.
    specialize (Hp s (total - blen have) ltac:(lia) Hne). rewrite E in Hp. simpl in Hp. lia.
  - destruct (recvmsg_data _ _ _ _ _ E) as (_ & Hl & _ & ->); [lia..|]. unfold blen in Hl. rewrite length_drop. lia.
Qed.

Lemma rx_body_unread r s ret r' s' :
  rx_step_body r s = (ret, r', s') -> blen (rx_body_buf r) < rx_body_total r \/ rx_body_buf r = [] ->
  (length (unread s') <= length (unread s))%nat /\
  (prompt -> unread s <> [] -> blen (rx_body_buf r) < rx_body_total r -> (length (unread s') < length (unread s))%nat).
Proof.
  unfold rx_step_body. intros H Hlt. pose proof (blen_nonneg (rx_body_buf r)). case_if_in H.
  - destruct (recv_part s _ _) as [[ret1 b] s1] eqn:E1.
    assert (s1 = s') as -> by (case_if_in H; by simplify_eq).
    destruct (recv_part_unread _ _ _ _ _ _ E1) as [H1 H2]; [destruct Hlt as [| ->]; rewrite ?blen_nil; lia|]. auto.
  - simplify_eq. split; [done|]. lia.
Qed.

Lemma rx_data_unread r s ret r' s' :
  rx_step_data r s = (ret, r', s') -> blen (rx_data_buf r) < rx_data_total r \/ rx_data_buf r = [] ->
  (length (unread s') <= length (unread s))%nat /\
  (prompt -> unread s <> [] -> blen (rx_data_buf r) < rx_data_total r -> (length (unread s') < length (unread s))%nat).
Proof.
  unfold rx_step_data. intros H Hlt. pose proof (blen_nonneg (rx_data_buf r)). case_if_in H.
  - destruct (recv_part s _ _) as [[ret1 b] s1] eqn:E1.
    assert (s1 = s') as -> by (case_if_in H; by simplify_eq).
    destruct (recv_part_unread _ _ _ _ _ _ E1) as [H1 H2]; [destruct Hlt as [| ->]; rewrite ?blen_nil; lia|]. auto.
  - simplify_eq. split; [done|]. lia.
Qed.

Lemma rx_rest_unread r s ret r' s' :
  rx_step_rest r s = (ret, r', s') -> rx_mid r ->
  (length (unread s') <= length (unread s))%nat /\
  (prompt -> unread s <> [] ->
   rx_phase r = 1 /\ blen (rx_body_buf r) < rx_body_total r \/ rx_phase r = 2 /\ blen (rx_data_buf r) < rx_data_total r ->
   (length (unread s') < length (unread s))%nat).
Proof.
  intros H Hm. unfold rx_step_rest in H. pose proof Hm as [[(Hp & _ & Hb & Hd)|(Hp & _ & Hd)] _]; rewrite Hp in H; cbn [Z.eqb Pos.eqb] in H.
  - destruct (rx_step_body r s) as [[ret1 r1] s1] eqn:E1. destruct (rx_body_unread _ _ _ _ _ E1 Hb) as [H1 H2].
    assert ((length (unread s') <= length (unread s1))%nat) as H3.
    { destruct (rx_step_body_bounds _ _ _ _ _ E1 Hm Hp) as (_ & _ & _ & Hn).
      destruct (Z.eqb_spec ret1 0) as [Hz|]; cbn [negb] in H; [|by simplify_eq].
      destruct (Hn Hz) as [[[(? & _)|(Hp1 & _ & Hd1)] _] Hp1']; [congruence|]. rewrite Hp1 in H; cbn [Z.eqb Pos.eqb] in H.
      by eapply rx_data_unread. }
    split; [lia|]. intros Hpr Hne [[_ Hl]|[? _]]; [|congruence]. specialize (H2 Hpr Hne Hl). lia.
  - cbn [negb] in H. rewrite Hp in H; cbn [Z.eqb Pos.eqb] in H. destruct (rx_data_unread _ _ _ _ _ H Hd) as [H1 H2].
    split; [done|]. intros Hpr Hne [[? _]|[_ Hl]]; [congruence|auto].
Qed.

Lemma rx_step_shrinks f tail g r s ret g' r' s' :
  rx_good r -> rx_at f tail r s -> prompt -> pfs_rx_step g r s = (ret, g', r', s') ->
  (length (unread s') < length (unread s))%nat.
Proof.
  intros [[Hs Hbf] Hres] Hat Hpr H. pose proof (rx_at_unread _ _ _ _ Hat) as Hne.
  unfold pfs_rx_step in H. rewrite Hs, Hbf in H. cbn [negb] in H.
  destruct Hres as [(Hp & Hh & Hb & Hd)|Hm].
  - rewrite Hp in H. cbn [Z.eqb] in H. unfold rx_step_hdr in H.
    destruct (recv_part s (rx_hdr_buf r) _) as [[ret1 b] s1] eqn:E1.
    destruct (recv_part_bounds _ _ _ _ _ _ E1 Hh) as [Hle _].
    destruct (recv_part_unread _ _ _ _ _ _ E1 Hh) as [_ Hlt]. specialize (Hlt Hpr Hne).
    destruct (Z.eqb_spec ret1 0) as [->|Hz]; cbn [negb] in H.
    2:{ apply Z.eqb_neq in Hz. rewrite Hz in H. cbn [negb] in H. by simplify_eq. }
    destruct (rx_parse_hdr g (set_hdr_buf r b)) as [[ret2 g2] r2] eqn:E2.
    destruct (rx_parse_bounds _ _ _ _ _ E2) as (_ & _ & _ & Hn2); [done..|].
    destruct (Z.eqb_spec ret2 0) as [->|]; cbn [negb] in H; [|by simplify_eq].
    destruct (rx_step_rest r2 s1) as [[ret3 r3] s3] eqn:E3. injection H as <- <- <- <-.
    destruct (rx_rest_unread _ _ _ _ _ E3 (Hn2 eq_refl)) as [? _]. lia.
  - assert (rx_phase r <> 0) as Hp by (destruct Hm as [[(? & _)|(? & _)] _]; congruence).
    apply Z.eqb_neq in Hp as Hp'. rewrite Hp' in H. cbn [negb Z.eqb] in H.
    destruct (rx_step_rest r s) as [[ret3 r3] s3] eqn:E3. injection H as <- <- <- <-.
    destruct (rx_rest_unread _ _ _ _ _ E3 Hm) as [_ Hlt]. apply Hlt; [done..|].
    destruct Hat as [(? & _)|[(? & _ & _ & _ & _ & ? & _)|(? & _ & _ & _ & _ & ?)]]; [done|by left|by right].
Qed.

Lemma receive_loop_all fuel frames rest g r s fs e g' r' s' :
  Forall framed rest -> crc_ok g -> rx_good r -> holds rest r s -> prompt -> (length (unread s) < fuel)%nat -> 0 <= frames < 64 ->
  receive_loop fuel frames g r s = (fs, e, g', r', s') ->
  e = Idle /\ fs = rest \/ e = Yield /\ frames + Z.of_nat (length fs) = 64.
Proof.
  revert frames rest g r s fs; induction fuel as [|fuel IH]; intros frames rest g r s fs Hf Hg Hr Hh Hpr Hfuel Hfr H; [lia|].
  cbn [receive_loop] in H. destruct (tcp_recv_frame g r s) as [[[ret g1] r1] s1] eqn:E1.
  assert (rest = [] \/ (length (unread s1) < length (unread s))%nat) as Hdec.
  { destruct rest as [|f rest]; [by left|right]. by eapply rx_step_shrinks. }
  destruct (recv_frame_spec _ _ _ _ _ _ _ _ Hf Hg Hr Hh E1) as [(rest' & -> & -> & Hg1 & Hr1 & Hh1)|[(-> & Hg1 & Hr1 & Hh1)|(Hlt & Hne & Hsick)]].
  - destruct Hdec as [|Hdec]; [done|]. cbn [Z.eqb] in H. destruct (Z.geb_spec (frames + 1) 64).
    { simplify_eq/=. right. split; [done|lia]. }
    destruct (receive_loop fuel _ _ _ _) as [[[[fs2 e2] g2] r2] s2] eqn:E2. injection H as <- <- <- <- <-.
    apply Forall_cons in Hf as [_ Hf].
    destruct (IH (frames + 1) _ _ _ s1 _ Hf Hg1 Hr1 Hh1 Hpr ltac:(lia) ltac:(lia) E2) as [[-> ->]|[-> Hl]]; [by left|right].
    split; [done|]. simpl. lia.
  - change (- EAGAIN =? 0) with false in H. change (- EAGAIN =? - EAGAIN) with true in H. cbv iota in H.
    destruct (tcp_has_rx_data r1 s1) as [more s2] eqn:E2. pose proof (has_rx_data_keeps _ _ _ _ E2) as Hk.
    apply (holds_same _ _ _ s2) in Hh1; [|done].
    assert (more = false <-> unread s1 = []) as Hmore.
    { destruct Hpr as (_ & _ & Hq). rewrite <- Hq. unfold tcp_has_rx_data in E2. destruct Hr1 as [[Hs1 _] _]. rewrite Hs1 in E2.
      destruct (skb_queue_empty s1) as [[] ?]; simplify_eq/=; tauto || done. }
    pose proof (holds_unread _ _ _ Hh1) as Hun. rewrite Hk in Hun. destruct more.
    + assert (rest <> []) as Hne by (rewrite <- Hun, <- Hmore; done).
      destruct Hdec as [|Hdec]; [done|]. eapply IH; [..|exact H]; try done. rewrite Hk. lia.
    + left. assert (rest = []) as -> by (apply Hun, Hmore; done). by simplify_eq.
  - by destruct Hpr.
Qed.

(** ** Theorems on receiving *)

(** C20. However the socket cuts the stream of encoded frames into pieces, and
    however often the receive loop is left and entered again, the frames are
    dispatched whole and in order, header, body and data as sent; the
    connection is given up only for an error of the socket, and when all is
    read all has been dispatched. *)
Theorem frames_received fuels fs g r s got e g' r' s' :
  crc_ok g -> rx_ready r -> Forall framed fs -> unread s = concat (frame_bytes <$> fs) ->
  receive_calls fuels g (pfs_rx_reset_partial r) s = (got, e, g', r', s') ->
  got `prefix_of` fs /\ (healthy S -> e <> Disconnected) /\ (e <> Disconnected -> unread s' = [] -> got = fs).
Proof.
  intros Hg Hr Hf Hu H.
  destruct (receive_calls_spec fuels fs g _ s got e g' r' s' Hf Hg (reset_good r Hr) (holds_fresh fs r s Hu) H)
    as (rest & -> & Hok & Hd). split_and!.
  - by exists rest.
  - intros Hh He. by apply Hd.
  - intros He Hn. destruct (Hok He) as (_ & _ & Hh). apply (holds_unread _ _ _ Hh) in Hn as ->. by rewrite app_nil_r.
Qed.

(** With a socket that hands out what has come, one call of the receive
    loop ends after at most one round per byte: it has dispatched all the
    frames, or yields after 64 of them. *)
Theorem receive_terminates fuel fs g r s got e g' r' s' :
  crc_ok g -> rx_ready r -> Forall framed fs -> unread s = concat (frame_bytes <$> fs) ->
  prompt -> (length (unread s) < fuel)%nat ->
  pfs_process_receive fuel g (pfs_rx_reset_partial r) s = (got, e, g', r', s') ->
  e = Idle /\ got = fs \/ e = Yield /\ length got = 64%nat.
Proof.
  intros Hg Hr Hf Hu Hpr Hfuel H.
  destruct (receive_loop_all fuel 0 fs g _ s got e g' r' s' Hf Hg (reset_good r Hr) (holds_fresh fs r s Hu) Hpr Hfuel) as [|[? ?]];
    [lia|done|by left|right; split; [done|lia]].
Qed.

Lemma receive_loop_bounds fuel frames g r s fs e g' r' s' :
  receive_loop fuel frames g r s = (fs, e, g', r', s') -> rx_resumable r ->
  rx_resumable r' /\ Forall (fun f => blen (w_body f) <= POWERFS_NET_MAX_BODY /\ blen (w_data f) <= POWERFS_NET_MAX_DATA) fs.
Proof.
  assert (forall r, rx_resumable (pfs_rx_reset_partial r)) as Hreset by (intros; left; by split_and!).
  revert frames g r s fs; induction fuel as [|fuel IH]; intros frames g r s fs H Hr; cbn [receive_loop] in H; [by simplify_eq|].
  destruct (tcp_recv_frame g r s) as [[[ret g1] r1] s1] eqn:E1.
  destruct (rx_step_bounds _ _ _ _ _ _ _ E1 Hr) as (_ & (_ & Hb & Hd) & Ha & _).
  case_if_in H; [|case_if_in H].
  - case_if_in H; [simplify_eq; split; [done|by constructor]|].
    destruct (receive_loop fuel _ _ _ _) as [[[[fs2 e2] g2] r2] s2] eqn:E2. injection H as <- <- <- <- <-.
    destruct (IH _ _ _ _ _ E2 (Hreset r1)). split; [done|by constructor].
  - destruct (tcp_has_rx_data r1 s1) as [[] s2]; [eapply IH; [exact H|]; by apply Ha|]. simplify_eq. split; [by apply Ha|done].
  - by simplify_eq.
Qed.

Lemma receive_calls_bounds fuels g r s fs e g' r' s' :
  receive_calls fuels g r s = (fs, e, g', r', s') -> rx_resumable r ->
  rx_resumable r' /\ Forall (fun f => blen (w_body f) <= POWERFS_NET_MAX_BODY /\ blen (w_data f) <= POWERFS_NET_MAX_DATA) fs.
Proof.
  revert g r s fs; induction fuels as [|fuel fuels IH]; intros g r s fs H Hr; cbn [receive_calls] in H; [by simplify_eq|].
  destruct (pfs_process_receive fuel g r s) as [[[[fs1 e1] g1] r1] s1] eqn:E1.
  destruct (receive_loop_bounds _ _ _ _ _ _ _ _ _ _ E1 Hr) as [Hr1 Hf1].
  destruct (receive_calls fuels g1 r1 s1) as [[[[fs2 e2] g2] r2] s2] eqn:E2.
  assert (e1 = Disconnected \/ e1 <> Disconnected) as [->|Hne] by (destruct e1; auto); [by simplify_eq|].
  assert ((fs1 ++ fs2, e2, g2, r2, s2) = (fs, e, g', r', s')) as [= <- -> -> -> ->] by (by destruct e1).
  destruct (IH _ _ _ _ E2 Hr1). split; [done|by apply Forall_app].
Qed.

(** C21. On any stream and any behaviour of the socket, damaged or hostile
    headers included, the receive buffers are never filled beyond what was
    allocated, nor is a larger frame dispatched; the state stays one that the
    next call can resume. *)
Theorem receive_bounds fuels g r s got e g' r' s' :
  receive_calls fuels g (pfs_rx_reset_partial r) s = (got, e, g', r', s') ->
  rx_bounded r' /\ rx_resumable r' /\
  Forall (fun f => blen (w_body f) <= POWERFS_NET_MAX_BODY /\ blen (w_data f) <= POWERFS_NET_MAX_DATA) got.
Proof.
  intros H. destruct (receive_calls_bounds _ _ _ _ _ _ _ _ _ H) as [Hr Hf]; [left; by split_and!|].
  split_and!; [by apply resumable_bounded|done..].
Qed.

End receive_proofs.

(** ** Sending *)

Lemma concat_skip_vec vec n : 0 <= n -> concat (skip_vec vec n) = drop (Z.to_nat n) (concat vec).
Proof.
  revert n; induction vec as [|v vec IH]; intros n Hn; simpl; [by rewrite drop_nil|].
  repeat case_if; simpl.
  - rewrite IH by lia. rewrite drop_app_ge by (unfold blen in *; lia). f_equal. unfold blen; lia.
  - rewrite drop_app_le by (unfold blen in *; lia). done.
  - by replace (Z.to_nat n) with 0%nat by lia.
Qed.

(** What lies between two offsets. *)
Definition between (frame : buffer) (a b : Z) : buffer := slice frame a (b - a).

Lemma between_app frame a b c : 0 <= a <= b -> b <= c -> between frame a b ++ between frame b c = between frame a c.
Proof.
  intros Hab Hbc. unfold between, slice.
  replace (Z.to_nat b) with (Z.to_nat a + Z.to_nat (b - a))%nat by lia. rewrite <- drop_drop.
  replace (Z.to_nat (c - a)) with (Z.to_nat (b - a) + Z.to_nat (c - b))%nat by lia. by rewrite take_take_drop.
Qed.

Lemma between_all frame a : 0 <= a -> between frame a (blen frame) = drop (Z.to_nat a) frame.
Proof. intros. unfold between, slice. apply take_ge. rewrite length_drop. unfold blen. lia. Qed.

Section send_proofs.
Context {S : Type} `{!KernelSocket S} `{!KernelSocketOk S}.
Implicit Types s : S.

(** The socket got [frame] from [a] to [b]. *)
Definition sent_part (frame : buffer) (a b : Z) (s s' : S) : Prop :=
  a <= b <= blen frame /\ written s' = written s ++ between frame a b.

Definition send_result (frame : buffer) (offset a : Z) (s : S) (ret off : Z) (s' : S) : Prop :=
  (ret = 0 /\ off = 0 /\ sent_part frame a (blen frame) s s') \/
  (ret = - EAGAIN /\ off < blen frame /\ sent_part frame a off s s') \/
  (ret < 0 /\ ret <> - EAGAIN /\ off = offset /\ exists b, sent_part frame a b s s').

Lemma send_loop_spec fuel frame s vec offset sent_total ret off s' :
  send_loop fuel s vec offset sent_total (blen frame) = Some (ret, off, s') ->
  0 <= sent_total <= blen frame -> (sent_total < blen frame -> concat vec = drop (Z.to_nat sent_total) frame) ->
  send_result frame offset sent_total s ret off s'.
Proof.
  revert s vec sent_total; induction fuel as [|fuel IH]; intros s vec st H Hst Hvec; [done|]. cbn [send_loop] in H.
  assert (forall s0, written s0 = written s -> sent_part frame st st s s0) as Hnone.
  { intros s0 Hw. split; [lia|]. unfold between, slice. by rewrite Hw, Z.sub_diag, app_nil_r. }
  case_if_in H.
  2:{ assert (st = blen frame) as -> by lia. simplify_eq. left. split_and!; try done. by apply Hnone. }
  destruct (kernel_sendmsg s vec (blen frame - st)) as [sent s1] eqn:Es. case_if_in H; [|case_if_in H].
  - pose proof (sendmsg_none _ _ _ _ _ Es ltac:(lia)) as Hw. specialize (Hnone _ Hw). case_if_in H; [|case_if_in H].
    + apply IH in H; [|done..]. unfold send_result, sent_part in *. by rewrite Hw in H.
    + simplify_eq. right; left. by split_and!.
    + simplify_eq. right; right. split_and!; try done. by exists st.
  - pose proof (sendmsg_none _ _ _ _ _ Es ltac:(lia)) as Hw. specialize (Hnone _ Hw). simplify_eq.
    right; right. split_and!; try done. by exists st.
  - destruct (sendmsg_data _ _ _ _ _ Es) as [Hle Hw]; [lia|].
    assert (sent_part frame st (st + sent) s s1) as [_ Hp].
    { split; [lia|]. rewrite Hw, Hvec by lia. unfold between, slice. by replace (st + sent - st) with sent by lia. }
    apply IH in H; [|lia|].
    + assert (forall b s2, sent_part frame (st + sent) b s1 s2 -> sent_part frame st b s s2) as Hjoin.
      { intros b s2 [Hb Hw2]. split; [lia|]. rewrite Hw2, Hp, <- app_assoc. by rewrite between_app by lia. }
      destruct H as [(? & ? & ?)|[(? & ? & ?)|(? & ? & ? & b & ?)]]; [left|right; left|right; right]; split_and!; eauto.
    + intros Hlt. replace (st + sent <? blen frame) with true by (symmetry; by apply Z.ltb_lt).
      rewrite concat_skip_vec, Hvec, drop_drop by lia. f_equal. lia.
Qed.

(** The bytes of a frame as the sender sees its parts. *)
Definition parts_bytes (hdr : frame_hdr) (body data : option buffer) : buffer :=
  hdr_bytes hdr ++ default [] body ++ default [] data.

Lemma concat_frame_vec hdr body data : concat (frame_vec hdr body data) = parts_bytes hdr body data.
Proof.
  assert (forall b : option buffer, concat match b with Some b => if blen b >? 0 then [b] else [] | None => [] end = default [] b) as Hpart.
  { intros [b|]; [|done]. case_if; [apply app_nil_r|]. symmetry. change (b = []). apply length_zero_iff_nil. unfold blen in *. lia. }
  unfold frame_vec, parts_bytes. by rewrite !concat_app, !Hpart.
Qed.

Lemma send_nonblock_spec fuel s hdr body data off ret off' s' :
  pfs_frame_send_nonblock fuel s hdr body data off = Some (ret, off', s') ->
  0 <= off < blen (parts_bytes hdr body data) -> send_result (parts_bytes hdr body data) off off s ret off' s'.
Proof.
  intros H Hoff. unfold pfs_frame_send_nonblock in H. rewrite concat_frame_vec in H.
  destruct (Z.geb_spec off (blen (parts_bytes hdr body data))); [lia|].
  eapply send_loop_spec; [exact H|lia|]. intros _. by rewrite concat_skip_vec, concat_frame_vec by lia.
Qed.

(** Calls of the transmitter: again, from the stored offset, while the socket
    is full. *)
Fixpoint send_calls (fuels : list nat) (s : S) (hdr : frame_hdr) (body data : option buffer) (off : Z) : option (Z * Z * S) :=
  match fuels with
  | [] => Some (- EAGAIN, off, s)
  | fuel :: fuels =>
      match pfs_frame_send_nonblock fuel s hdr body data off with
      | Some (ret, off, s) => if ret =? - EAGAIN then send_calls fuels s hdr body data off else Some (ret, off, s)
      | None => None
      end
  end.

Lemma send_calls_spec fuels s hdr body data off ret off' s' :
  send_calls fuels s hdr body data off = Some (ret, off', s') ->
  0 <= off < blen (parts_bytes hdr body data) ->
  (ret = 0 /\ off' = 0 /\ sent_part (parts_bytes hdr body data) off (blen (parts_bytes hdr body data)) s s') \/
  (ret = - EAGAIN /\ off' < blen (parts_bytes hdr body data) /\ sent_part (parts_bytes hdr body data) off off' s s') \/
  (ret < 0 /\ ret <> - EAGAIN /\ exists b, sent_part (parts_bytes hdr body data) off b s s').
Proof.
  set (frame := parts_bytes hdr body data).
  revert s off; induction fuels as [|fuel fuels IH]; intros s off H Hoff; cbn [send_calls] in H.
  { simplify_eq. right; left. split_and!; [done|lia|]. split; [lia|]. unfold between, slice. by rewrite Z.sub_diag, app_nil_r. }
  destruct (pfs_frame_send_nonblock fuel s hdr body data off) as [[[ret1 off1] s1]|] eqn:Es; [|done].
  destruct (send_nonblock_spec _ _ _ _ _ _ _ _ _ Es Hoff) as [(-> & -> & Hp)|[(-> & Hlt & Hp)|(H1 & H2 & -> & Hp)]].
  - change (0 =? - EAGAIN) with false in H. cbv iota in H. simplify_eq. by left.
  - change (- EAGAIN =? - EAGAIN) with true in H. cbv iota in H. fold frame in Hp, Hlt. pose proof Hp as [Hrange Hw].
    apply IH in H; [|lia].
    assert (forall b s2, sent_part frame off1 b s1 s2 -> sent_part frame off b s s2) as Hjoin.
    { intros b s2 [Hb Hw2]. split; [lia|]. rewrite Hw2, Hw, <- app_assoc. by rewrite between_app by lia. }
    destruct H as [(? & ? & ?)|[(? & ? & ?)|(? & ? & b & ?)]]; [left|right; left|right; right]; split_and!; eauto.
  - replace (ret1 =? - EAGAIN) with false in H by (symmetry; by apply Z.eqb_neq). simplify_eq. by right; right.
Qed.

(** C22. A frame sent from its beginning in any number of calls, with any
    pieces accepted by the socket: on success the socket got exactly the frame
    and the offset is 0 again; while the socket is full it got exactly the
    bytes before the offset; an error leaves a part of the frame. *)
Theorem frame_sent fuels s hdr body data ret off s' :
  send_calls fuels s hdr body data 0 = Some (ret, off, s') ->
  let frame := hdr_bytes hdr ++ default [] body ++ default [] data in
  (ret = 0 /\ off = 0 /\ written s' = written s ++ frame) \/
  (ret = - EAGAIN /\ 0 <= off < blen frame /\ written s' = written s ++ take (Z.to_nat off) frame) \/
  (ret < 0 /\ ret <> - EAGAIN /\ exists part, part `prefix_of` frame /\ written s' = written s ++ part).
Proof.
  intros H frame. change frame with (parts_bytes hdr body data). clear frame.
  assert (0 < blen (parts_bytes hdr body data)) as Hpos.
  { unfold parts_bytes. rewrite !blen_app, blen_hdr_bytes. pose proof (blen_nonneg (default [] body)).
    pose proof (blen_nonneg (default [] data)). lia. }
  pose proof (send_calls_spec fuels s hdr body data 0 ret off s' H ltac:(lia)) as Hs.
  set (frame := parts_bytes hdr body data) in *. unfold sent_part, between, slice in Hs. rewrite !Z.sub_0_r in Hs.
  destruct Hs as [(? & ? & Hr & Hp)|[(? & ? & Hr & Hp)|(? & ? & b & Hr & Hp)]].
  - left. by rewrite take_blen in Hp.
  - right; left. split_and!; done || lia.
  - right; right. split_and!; [done..|]. rewrite Z.sub_0_r in Hp.
    exists (take (Z.to_nat b) frame). split; [apply prefix_take|done].
Qed.

Lemma send_loop_terminates fuel s vec offset sent_total total :
  (forall (s : S) vec len, fst (kernel_sendmsg s vec len) <> - EINTR) -> (Z.to_nat (total - sent_total) < fuel)%nat ->
  is_Some (send_loop fuel s vec offset sent_total total).
Proof.
  intros Hint. revert s vec sent_total; induction fuel as [|fuel IH]; intros s vec st Hf; [lia|]. cbn [send_loop].
  case_if; [|done]. pose proof (Hint s vec (total - st)) as Hi. destruct (kernel_sendmsg _ _ _) as [sent s1]. simpl in Hi.
  case_if; [repeat case_if; done|]. case_if; [done|]. apply IH. lia.
Qed.

(** A call of the sender ends after at most one round per byte when it is
    not interrupted. *)
Theorem send_terminates fuel s hdr body data off :
  (forall s vec len, fst (kernel_sendmsg s vec len) <> - EINTR) ->
  (Z.to_nat (blen (hdr_bytes hdr ++ default [] body ++ default [] data)) < fuel)%nat -> 0 <= off ->
  exists ret off' s', pfs_frame_send_nonblock fuel s hdr body data off = Some (ret, off', s').
Proof.
  intros Hint Hf Ho. cut (is_Some (pfs_frame_send_nonblock fuel s hdr body data off)).
  { intros [[[ret off'] s'] H]. by exists ret, off', s'. }
  unfold pfs_frame_send_nonblock. rewrite concat_frame_vec. case_if; [done|]. apply send_loop_terminates; [done|].
  fold (parts_bytes hdr body data) in Hf. lia.
Qed.
End send_proofs.

(** ** Sockets and runs *)

Module Sample.

(** A socket whose pieces are prescribed: an entry of [cuts] or [room] is the
    size of the next piece, 0 means that the call would block; when the list
    is at its end there is no limit. *)
Record script := mk_script { incoming : buffer; cuts : list Z; outgoing : buffer; room : list Z }.

Definition piece (l : list Z) (avail : Z) : Z * list Z :=
  match l with [] => (avail, []) | n :: l => (Z.min n avail, l) end.

#[export] Instance script_socket : KernelSocket script := {
  unread := incoming;
  written := outgoing;
  kernel_recvmsg s want :=
    let '(n, l) := piece (cuts s) (Z.min want (blen (incoming s))) in
    if 0 <? n then (n, take (Z.to_nat n) (incoming s), mk_script (drop (Z.to_nat n) (incoming s)) l (outgoing s) (room s))
    else (- EAGAIN, [], mk_script (incoming s) l (outgoing s) (room s));
  skb_queue_empty s := (blen (incoming s) =? 0, s);
  kernel_sendmsg s vec len :=
    let '(n, l) := piece (room s) len in
    if 0 <? n then (n, mk_script (incoming s) (cuts s) (outgoing s ++ take (Z.to_nat n) (concat vec)) l)
    else (- EAGAIN, mk_script (incoming s) (cuts s) (outgoing s) l)
}.

Lemma piece_le l avail : fst (piece l avail) <= avail.
Proof. destruct l; simpl; lia. Qed.

#[export] Instance script_socket_ok : KernelSocketOk script.
Proof.
  split; simpl.
  - intros s want ret b s' H Hw Hr. pose proof (piece_le (cuts s) (Z.min want (blen (incoming s)))) as Hl.
    destruct (piece _ _) as [n l]; simpl in Hl. case_if_in H; simplify_eq/=; [|done]. split_and!; [lia..|done|done].
  - intros s want ret b s' H Hr. destruct (piece _ _) as [n l]. case_if_in H; simplify_eq/=; [lia|done].
  - done.
  - intros s vec len ret s' H Hr. pose proof (piece_le (room s) len) as Hl.
    destruct (piece _ _) as [n l]; simpl in Hl. case_if_in H; simplify_eq/=; done.
  - intros s vec len ret s' H Hr. destruct (piece _ _) as [n l]. case_if_in H; simplify_eq/=; [lia|done].
Defined.

(** A socket without prescribed pieces. *)
Record eager := mk_eager { e_in : buffer; e_out : buffer }.

#[export] Instance eager_socket : KernelSocket eager := {
  unread := e_in;
  written := e_out;
  kernel_recvmsg s want :=
    let n := Z.min want (blen (e_in s)) in
    if 0 <? n then (n, take (Z.to_nat n) (e_in s), mk_eager (drop (Z.to_nat n) (e_in s)) (e_out s)) else (- EAGAIN, [], s);
  skb_queue_empty s := (blen (e_in s) =? 0, s);
  kernel_sendmsg s vec len :=
    if 0 <? len then (len, mk_eager (e_in s) (e_out s ++ take (Z.to_nat len) (concat vec))) else (- EAGAIN, s)
}.

#[export] Instance eager_socket_ok : KernelSocketOk eager.
Proof.
  split; simpl.
  - intros s want ret b s' H Hw Hr. case_if_in H; simplify_eq/=; [|done]. split_and!; [lia..|done|done].
  - intros s want ret b s' H Hr. case_if_in H; simplify_eq/=; [lia|done].
  - done.
  - intros s vec len ret s' H Hr. case_if_in H; simplify_eq/=; done.
  - intros s vec len ret s' H Hr. case_if_in H; simplify_eq/=; [lia|done].
Defined.

Lemma blen_zero b : blen b = 0 <-> b = [].
Proof. rewrite <- length_zero_iff_nil. unfold blen. lia. Qed.

Lemma eager_prompt : prompt (S := eager).
Proof.
  split_and!; simpl.
  - intros s want Hw. simpl. case_if; simpl; [left; lia|by right].
  - intros s want Hw Hne. pose proof (blen_nonneg (e_in s)). rewrite <- blen_zero in Hne. case_if; simpl; lia.
  - intros s. rewrite <- blen_zero. apply Z.eqb_eq.
Defined.

Definition make (sq : Z) (body data : buffer) : wire_frame :=
  mk_wire_frame
    (fst (powerfs_net_frame_hdr_encode crc_globals0 (hdr_of_bytes []) 0x0101 0 sq 0 (blen body) (blen body + blen data) 0xAA))
    body data.

Lemma make_framed sq body data :
  is_u32 sq -> blen body <= 1000 -> blen data <= 1000 -> framed (make sq body data).
Proof.
  intros Hs Hb Hd. unfold framed, POWERFS_NET_MAX_BODY, POWERFS_NET_MAX_DATA; simpl w_body; simpl w_data.
  split_and!; [lia..|]. exists crc_globals0, (hdr_of_bytes []), 0x0101, 0, sq, 0, 0xAA.
  pose proof (blen_nonneg body). pose proof (blen_nonneg data).
  split_and!; [apply crc_globals0_ok| |done]. unfold hdr_args_ok, is_u32, is_u8 in *. lia.
Qed.

(** Three frames: with both parts, with none, with data only. *)
Definition three : list wire_frame := [make 1 [1; 2; 3] [4; 5]; make 2 [] []; make 3 [] [6; 7; 8; 9]].

Lemma three_framed : Forall framed three.
Proof. repeat constructor; apply make_framed; unfold is_u32; done. Defined.

Definition stream : buffer := concat (frame_bytes <$> three).
Definition fresh_rx : rx_state := mk_rx true true 0 [] [] [] 0 0 (hdr_of_bytes []).

(** The stream in pieces that cut headers and parts, read in three calls. *)
Definition cut_socket : script := mk_script stream [10; 0; 17; 1; 2; 0; 1; 1; 0; 1; 30; 0; 27; 1; 3; 1] [] [].

Lemma frames_received_witness :
  let '(got, e, _, _, s') := receive_calls [3; 2; 40]%nat crc_globals0 (pfs_rx_reset_partial fresh_rx) cut_socket in
  got `prefix_of` three /\ (healthy script -> e <> Disconnected) /\ (e <> Disconnected -> unread s' = [] -> got = three).
Proof.
  destruct (receive_calls [3; 2; 40]%nat crc_globals0 (pfs_rx_reset_partial fresh_rx) cut_socket)
    as [[[[got e] g'] r'] s'] eqn:E.
  apply (frames_received [3; 2; 40]%nat three crc_globals0 fresh_rx cut_socket got e g' r' s');
    [exact crc_globals0_ok|by split|exact three_framed|reflexivity|exact E].
Defined.

Definition summary {S} `{!KernelSocket S} (x : list wire_frame * rx_end * crc_globals * rx_state * S) :=
  let '(got, e, _, _, s) := x in (seq ∘ w_hdr <$> got, w_body <$> got, w_data <$> got, e, unread s).

Example cut_run_complete :
  summary (receive_calls [3; 2; 40]%nat crc_globals0 (pfs_rx_reset_partial fresh_rx) cut_socket) =
  ([1; 2; 3], [[1; 2; 3]; []; []], [[4; 5]; []; [6; 7; 8; 9]], Idle, []).
Proof. vm_compute. reflexivity. Qed.

Lemma receive_terminates_witness :
  let '(got, e, _, _, _) := pfs_process_receive 200 crc_globals0 (pfs_rx_reset_partial fresh_rx) (mk_eager stream []) in
  e = Idle /\ got = three \/ e = Yield /\ length got = 64%nat.
Proof.
  destruct (pfs_process_receive 200 crc_globals0 (pfs_rx_reset_partial fresh_rx) (mk_eager stream []))
    as [[[[got e] g'] r'] s'] eqn:E.
  apply (receive_terminates 200 three crc_globals0 fresh_rx (mk_eager stream []) got e g' r' s');
    [exact crc_globals0_ok|by split|exact three_framed|reflexivity|exact eager_prompt|vm_compute; lia|exact E].
Defined.

(** A damaged header after a good frame. *)
Definition hostile_socket : script := mk_script (frame_bytes (make 1 [1] []) ++ replicate 40 255) [] [] [].

Example hostile_disconnects :
  summary (receive_calls [9]%nat crc_globals0 (pfs_rx_reset_partial fresh_rx) hostile_socket) =
  ([1], [[1]], [[]], Disconnected, replicate 12 255).
Proof. vm_compute. reflexivity. Qed.

Lemma receive_bounds_witness :
  let '(got, e, _, r', s') := receive_calls [9]%nat crc_globals0 (pfs_rx_reset_partial fresh_rx) hostile_socket in
  rx_bounded r' /\ rx_resumable r' /\
  Forall (fun f => blen (w_body f) <= POWERFS_NET_MAX_BODY /\ blen (w_data f) <= POWERFS_NET_MAX_DATA) got.
Proof.
  destruct (receive_calls [9]%nat crc_globals0 (pfs_rx_reset_partial fresh_rx) hostile_socket)
    as [[[[got e] g'] r'] s'] eqn:E.
  apply (receive_bounds [9]%nat crc_globals0 fresh_rx hostile_socket got e g' r' s'). exact E.
Defined.

Definition sent_frame : wire_frame := make 7 [1; 2; 3] [4; 5].

Definition send_run (room : list Z) (off : Z) :=
  send_calls [40; 40; 40]%nat (mk_script [] [] [] room) (w_hdr sent_frame) (Some [1; 2; 3]) (Some [4; 5]) off.

Lemma frame_sent_witness :
  exists s', send_run [5; 0; 20; 4; 0] 0 = Some (0, 0, s') /\ written s' = frame_bytes sent_frame.
Proof.
  destruct (send_run [5; 0; 20; 4; 0] 0) as [[[ret off] s']|] eqn:E; [|by vm_compute in E].
  exists s'. assert (ret = 0 /\ off = 0) as [-> ->] by (vm_compute in E; by simplify_eq). split; [done|].
  destruct (frame_sent [40; 40; 40]%nat (mk_script [] [] [] [5; 0; 20; 4; 0]) (w_hdr sent_frame) (Some [1; 2; 3]) (Some [4; 5])
    0 0 s' E) as [(_ & _ & Hw)|[(Hx & _)|(Hx & _)]]; [exact Hw|by vm_compute in Hx|lia].
Defined.

Lemma send_terminates_witness :
  exists ret off' s', pfs_frame_send_nonblock 40 (mk_eager [] []) (w_hdr sent_frame) (Some [1; 2; 3]) (Some [4; 5]) 3 = Some (ret, off', s').
Proof.
  apply (send_terminates 40 (mk_eager [] [])).
  - intros s vec len. simpl. case_if; simpl; unfold EINTR, EAGAIN; lia.
  - vm_compute. lia.
  - lia.
Defined.

(** A request that was half sent on a connection that failed keeps its
    [send_offset]: sent again on another connection, only the second half goes
    out, and the receiver there gives up. *)
Example stale_offset_truncates :
  let second := match send_run [] 20 with Some (_, _, s) => written s | None => [] end in
  second = drop 20 (frame_bytes sent_frame) /\
  snd (fst (summary (receive_calls [9]%nat crc_globals0 (pfs_rx_reset_partial fresh_rx) (mk_script (second ++ stream) [] [] [])))) = Disconnected.
Proof. vm_compute. done. Qed.

End Sample.
