(* ===== verification/Create.v ===== *)
(** * Create: optimistic creates of a directory

    Models, from [src/powerfs_mod/powerfs_dir.c], the pool of preallocated
    inode numbers, the fast path of [__powerfs_do_create_core], the list of
    creates not yet known to the filer and its flush, and everyone who adds
    to, takes from or waits for that list: unlink, [fsync], rename, rmdir,
    eviction, the recall of a capability, close and the lookup of a name the
    filer does not know.

    The state is one directory with the pools of its superblock and the
    cached inodes of its children.  Each thread is the place it is at in its
    function; a step is one critical section, one outside call with its
    answer, or one access outside the locks.  Creates in other directories
    share the pools and end with their inode number.  [system_long_wq] runs
    one instance of [flush_work] at a time; [queue_delayed_work] does nothing
    while the work is pending; [cancel_delayed_work_sync] waits for a running
    instance.  The log records what happened, newest first.

    The properties are in [CreateProof]. *)

From S2P Require Import Prelude Layout Caps.

Definition POWERFS_INODE_POOL_BATCH : Z := 64.
Definition POWERFS_DIRTY_FLUSH_THRESHOLD : Z := 32.
Definition POWERFS_DIRTY_FLUSH_TIMEOUT_MS : Z := 100.
Definition POWERFS_DIRTY_FLUSH_RETRY_MS : Z := 200.
Definition POWERFS_DIRTY_FLUSH_MAX_RETRIES : Z := 150.
Definition ENODEV : Z := 19.
Definition ENOTEMPTY : Z := 39.

(** ** State *)

Record powerfs_inode_pool := mk_pool { next_ino : Z; end_ino : Z; remaining : Z }.

(** A create the filer does not know; [dc_name] holds the [name_len] bytes. *)
Record powerfs_dirty_create := mk_dc {
  dc_ino : Z; dc_parent : Z; dc_mode : Z; dc_uid : Z; dc_gid : Z; dc_mtime : Z; dc_atime : Z;
  dc_name : buffer; placement_out : Z
}.

(** The fields of the directory's [powerfs_inode_info].  [flush_work] is the
    delay of the pending work, [work_running] tells that it executes. *)
Record dir_info := mk_dir {
  is_dir : bool; dirty_creates : list powerfs_dirty_create; dirty_create_count : Z;
  dirty_create_retries : Z; dirty_creates_flushing : bool;
  flush_work : option Z; work_running : bool
}.

(** The fields of a child's [powerfs_inode_info] the flush reads and sets;
    [ch_pages_dirty] is [mapping_tagged], [ch_token] tells that [i_auth_cap]
    has a token. *)
Record child_info := mk_child {
  ch_placement : Z; ch_aligned : bool; ch_local_cap : bool; ch_nr_wr : Z; ch_nr_rd : Z;
  ch_inline_dirty : bool; ch_pages_dirty : bool; ch_token : bool; ch_volume_id : Z
}.

Inductive fact :=
| Recorded (dc : powerfs_dirty_create)
| Published (dcs : list powerfs_dirty_create)
| Cancelled (dc : powerfs_dirty_create)
| Dropped (dcs : list powerfs_dirty_create)
| Unsent (dcs : list powerfs_dirty_create)
| CountOverwritten
| Taken (ino : Z)
| Refilled (first last : Z)
| Unlinked (name : buffer)
| NotFound (name : buffer)
| RmdirResult (ret : Z).

Record st := mk_st {
  pools : option (list powerfs_inode_pool); dir : dir_info; children : gmap Z child_info; log : list fact
}.

Definition set_pools (s : st) (p : option (list powerfs_inode_pool)) : st := mk_st p (dir s) (children s) (log s).
Definition set_dir (s : st) (d : dir_info) : st := mk_st (pools s) d (children s) (log s).
Definition set_children (s : st) (c : gmap Z child_info) : st := mk_st (pools s) (dir s) c (log s).
Definition note (s : st) (f : fact) : st := mk_st (pools s) (dir s) (children s) (f :: log s).

Definition set_list (d : dir_info) (l : list powerfs_dirty_create) (n : Z) : dir_info :=
  mk_dir (is_dir d) l n (dirty_create_retries d) (dirty_creates_flushing d) (flush_work d) (work_running d).
Definition set_retries (d : dir_info) (n : Z) : dir_info :=
  mk_dir (is_dir d) (dirty_creates d) (dirty_create_count d) n (dirty_creates_flushing d) (flush_work d) (work_running d).
Definition set_flushing (d : dir_info) (b : bool) : dir_info :=
  mk_dir (is_dir d) (dirty_creates d) (dirty_create_count d) (dirty_create_retries d) b (flush_work d) (work_running d).
Definition set_work (d : dir_info) (w : option Z) (r : bool) : dir_info :=
  mk_dir (is_dir d) (dirty_creates d) (dirty_create_count d) (dirty_create_retries d) (dirty_creates_flushing d) w r.
Definition on_dir (s : st) (f : dir_info -> dir_info) : st := set_dir s (f (dir s)).

(** ** The pools of inode numbers *)

(** 0 if the pool is empty; [next_ino++] wraps at 64 bits. *)
Definition pool_take_inode (s : st) (shard_id : Z) : Z * st :=
  match pools s with
  | None => (0, s)
  | Some ps =>
      match ps !! Z.to_nat shard_id with
      | None => (0, s)
      | Some pool =>
          if remaining pool >? 0
          then (next_ino pool,
                note (set_pools s (Some (<[Z.to_nat shard_id :=
                        mk_pool (u64 (next_ino pool + 1)) (end_ino pool) (remaining pool - 1)]> ps)))
                     (Taken (next_ino pool)))
          else (0, s)
      end
  end.

(** The guard before the call, and the store after a successful one. *)
Definition has_pool (s : st) (shard_id : Z) : bool :=
  match pools s with Some ps => bool_decide (is_Some (ps !! Z.to_nat shard_id)) | None => false end.

Definition pool_refill_store (s : st) (shard_id first last : Z) : st :=
  match pools s with
  | None => s
  | Some ps =>
      note (set_pools s (Some (<[Z.to_nat shard_id := mk_pool first last (u32 (last - first))]> ps)))
        (Refilled first last)
  end.

(** ** Single critical sections *)

(** [auth_cap] is the [issued] set of [i_auth_cap]. *)
Definition has_dir_auth_excl (auth_cap : option Z) : bool :=
  match auth_cap with Some issued => negb (Z.land issued POWERFS_CAP_AUTH_EXCL =? 0) | None => false end.

Definition same_name (name : buffer) (dc : powerfs_dirty_create) : bool := bool_decide (dc_name dc = name).

(** Remove the first entry of that name. *)
Fixpoint remove_first (name : buffer) (l : list powerfs_dirty_create)
  : option (powerfs_dirty_create * list powerfs_dirty_create) :=
  match l with
  | [] => None
  | dc :: l =>
      if same_name name dc then Some (dc, l)
      else match remove_first name l with Some (x, l') => Some (x, dc :: l') | None => None end
  end.

Definition powerfs_cancel_dirty_create (s : st) (name : buffer) : bool * st :=
  match remove_first name (dirty_creates (dir s)) with
  | Some (dc, l) => (true, note (on_dir s (fun d => set_list d l (dirty_create_count d - 1))) (Cancelled dc))
  | None => (false, s)
  end.

Definition powerfs_has_pending_dirty_create (s : st) (name : buffer) : bool :=
  is_dir (dir s) && negb (dirty_create_count (dir s) =? 0) && existsb (same_name name) (dirty_creates (dir s)).

Definition queue_delayed_work (s : st) (delay : Z) : st :=
  on_dir s (fun d => match flush_work d with Some _ => d | None => set_work d (Some delay) (work_running d) end).

(** [None] while an instance of the work runs. *)
Definition cancel_delayed_work_sync (s : st) : option st :=
  if work_running (dir s) then None else Some (on_dir s (fun d => set_work d None false)).

Definition merge_times (mtime atime : Z) (dc : powerfs_dirty_create) : powerfs_dirty_create :=
  mk_dc (dc_ino dc) (dc_parent dc) (dc_mode dc) (dc_uid dc) (dc_gid dc)
    (if mtime =? 0 then dc_mtime dc else mtime) (if atime =? 0 then dc_atime dc else atime) (dc_name dc) (placement_out dc).

Fixpoint update_first (ino : Z) (f : powerfs_dirty_create -> powerfs_dirty_create) (l : list powerfs_dirty_create)
  : option (list powerfs_dirty_create) :=
  match l with
  | [] => None
  | dc :: l => if dc_ino dc =? ino then Some (f dc :: l)
               else match update_first ino f l with Some l' => Some (dc :: l') | None => None end
  end.

Definition powerfs_dirty_create_update_times (s : st) (ino mtime atime : Z) : bool * st :=
  if is_dir (dir s)
  then match update_first ino (merge_times mtime atime) (dirty_creates (dir s)) with
       | Some l => (true, on_dir s (fun d => set_list d l (dirty_create_count d)))
       | None => (false, s)
       end
  else (false, s).

(** ** Threads *)

(** Who waits for the end of a flush. *)
Inductive caller := ByWork | ByCaller | ByRmdir | ByEvict | ByLookup (name : buffer).

(** What an outside call answers: an allocation or another yes or no, a
    result, the issued capabilities of the parent, a batch of inode numbers, a
    BatchCreate with the placements it reports. *)
Inductive answer :=
| Nothing
| Bool (b : bool)
| Ret (ret : Z)
| AuthCap (issued : option Z)
| Batch (ret first last : Z)
| Created (ret : Z) (placements : list Z).

(** Creates carry the snapshot to record, or nothing when they are for
    another directory. *)
Inductive thread :=
| CreateAuth (shard : Z) (w : option powerfs_dirty_create)
| CreateRecheck (shard : Z) (w : option powerfs_dirty_create)
| CreateTake (shard : Z) (w : option powerfs_dirty_create) (refilled : bool)
| CreateRefill (shard : Z) (w : option powerfs_dirty_create)
| CreateStore (shard : Z) (w : option powerfs_dirty_create) (first last : Z)
| CreateNew (w : option powerfs_dirty_create) (ino : Z)
| CreateInit (dc : powerfs_dirty_create)
| CreateRecord (dc : powerfs_dirty_create)
| CheckFlush
| QueueWork (delay : Z)
| Unlink (name : buffer)
| UnlinkRpc (name : buffer)
| SyncFlush (k : caller)
| CancelWork (k : caller)
| PendingChild (ino : Z) (force : bool)
| PendingData (ino : Z)
| PendingDir
| LookupRpc (name : buffer) (retried : bool)
| LookupPending (name : buffer)
| LookupFlushing (name : buffer) (pending : bool)
| LookupWait (name : buffer)
| WorkFn
| WorkDone
| Flush (k : caller)
| FlushAlloc (tmp : list powerfs_dirty_create) (n : Z) (k : caller)
| FlushOom (tmp : list powerfs_dirty_create) (n : Z) (k : caller)
| FlushOomQueue (k : caller)
| FlushRpc (tmp : list powerfs_dirty_create) (n : Z) (k : caller)
| Retire (rest : list powerfs_dirty_create) (k : caller)
| RetireTagged (ino : Z) (open_wr open_rd dirty : bool) (rest : list powerfs_dirty_create) (k : caller)
| RetireGrant (ino : Z) (rest : list powerfs_dirty_create) (k : caller)
| RetireCheck (ino : Z) (rest : list powerfs_dirty_create) (k : caller)
| RetireClear (ino : Z) (rest : list powerfs_dirty_create) (k : caller)
| FlushFailed (tmp : list powerfs_dirty_create) (n : Z) (k : caller)
| FlushGiveUp (tmp : list powerfs_dirty_create) (k : caller)
| FlushRequeue (tmp : list powerfs_dirty_create) (n : Z) (k : caller)
| FlushQueue (k : caller)
| FlushEnd (k : caller)
| RmdirCheck
| EvictIdle
| EvictCancel
| EvictTest
| EvictDrop
| Evicted
| Finished.

Definition resume (k : caller) : thread :=
  match k with
  | ByWork => WorkDone
  | ByCaller => Finished
  | ByRmdir => RmdirCheck
  | ByEvict => EvictCancel
  | ByLookup name => LookupRpc name true
  end.

(** ** The fast path of a create

    Everything else, from the check of the parent's capability to the
    snapshot on the list; [Finished] before that is the slow path.  The
    number is put in the snapshot when the inode exists. *)

Definition with_ino (dc : powerfs_dirty_create) (ino : Z) : powerfs_dirty_create :=
  mk_dc ino (dc_parent dc) (dc_mode dc) (dc_uid dc) (dc_gid dc) 0 0 (take 255 (dc_name dc)) 0.

(** Fields of the new child as the fast path sets them. *)
Definition init_local_create (c : child_info) : child_info :=
  mk_child POWERFS_PLACEMENT_INLINE false true (ch_nr_wr c) (ch_nr_rd c) (ch_inline_dirty c)
    (ch_pages_dirty c) (ch_token c) (ch_volume_id c).

(** A fresh inode, as [powerfs_alloc_inode] initialises it. *)
Definition new_child : child_info := mk_child POWERFS_PLACEMENT_FLAT true false 0 0 false false false 0.

Definition powerfs_do_create_core (s : st) (t : thread) (a : answer) : option (st * thread) :=
  match t, a with
  | CreateAuth shard w, AuthCap issued =>
      Some (s, if has_dir_auth_excl issued then CreateTake shard w false else CreateRecheck shard w)
  | CreateRecheck shard w, AuthCap issued =>
      Some (s, if has_dir_auth_excl issued then CreateTake shard w false else Finished)
  | CreateTake shard w refilled, Nothing =>
      let '(ino, s) := pool_take_inode s shard in
      Some (s, if negb (ino =? 0) then CreateNew w ino
               else if refilled || negb (has_pool s shard) then Finished else CreateRefill shard w)
  | CreateRefill shard w, Batch ret first last =>
      Some (s, if ret =? 0 then CreateStore shard w first last else Finished)
  | CreateStore shard w first last, Nothing => Some (pool_refill_store s shard first last, CreateTake shard w true)
  | CreateNew w ino, Bool ok =>
      if ok
      then match w with
           | Some dc => Some (set_children s (<[ino := new_child]> (children s)), CreateInit (with_ino dc ino))
           | None => Some (s, Finished)
           end
      else Some (s, Finished)
  | CreateInit dc, Nothing => Some (set_children s (alter init_local_create (dc_ino dc) (children s)), CreateRecord dc)
  | CreateRecord dc, Bool ok =>
      if ok
      then Some (note (on_dir s (fun d => set_list d (dirty_creates d ++ [dc]) (dirty_create_count d + 1))) (Recorded dc),
                 CheckFlush)
      else Some (s, CheckFlush)
  | _, _ => None
  end.

(** The test of the count under the lock, and the queueing after it. *)
Definition powerfs_check_dirty_flush (s : st) (t : thread) : option (st * thread) :=
  match t with
  | CheckFlush =>
      if is_dir (dir s)
      then Some (s, QueueWork (if dirty_create_count (dir s) >=? POWERFS_DIRTY_FLUSH_THRESHOLD
                               then 0 else POWERFS_DIRTY_FLUSH_TIMEOUT_MS))
      else Some (s, Finished)
  | QueueWork delay => Some (queue_delayed_work s delay, Finished)
  | _ => None
  end.

(** The head of [powerfs_unlink]: an entry still on the list is cancelled,
    otherwise the filer is asked and "no entry" counts as success. *)
Definition powerfs_unlink (s : st) (t : thread) (a : answer) : option (st * thread) :=
  match t, a with
  | Unlink name, Nothing =>
      let '(found, s) := powerfs_cancel_dirty_create s name in
      Some (if found then (note s (Unlinked name), Finished) else (s, UnlinkRpc name))
  | UnlinkRpc name, Ret ret =>
      if negb (ret =? 0) && negb (ret =? - ENOENT) then Some (s, Finished) else Some (note s (Unlinked name), Finished)
  | _, _ => None
  end.

(** ** The flush *)

(** Copy of [placement_out] from the array back to the list nodes. *)
Fixpoint set_placements (tmp : list powerfs_dirty_create) (placements : list Z) : list powerfs_dirty_create :=
  match tmp, placements with
  | dc :: tmp, p :: placements =>
      mk_dc (dc_ino dc) (dc_parent dc) (dc_mode dc) (dc_uid dc) (dc_gid dc) (dc_mtime dc) (dc_atime dc) (dc_name dc) p
        :: set_placements tmp placements
  | _, _ => tmp
  end.

(** Placement of a published child, under its lock. *)
Definition backfill (placement : Z) (c : child_info) : child_info :=
  if negb (placement =? 0)
  then mk_child placement (ch_aligned c) (ch_local_cap c) (ch_nr_wr c) (ch_nr_rd c) (ch_inline_dirty c)
         (ch_pages_dirty c) (ch_token c) (ch_volume_id c)
  else if ch_placement c =? POWERFS_PLACEMENT_INLINE
       then mk_child (ch_placement c) true (ch_local_cap c) (ch_nr_wr c) (ch_nr_rd c) (ch_inline_dirty c)
              (ch_pages_dirty c) (ch_token c) (ch_volume_id c)
       else c.

Definition set_token (b : bool) (c : child_info) : child_info :=
  mk_child (ch_placement c) (ch_aligned c) (ch_local_cap c) (ch_nr_wr c) (ch_nr_rd c) (ch_inline_dirty c)
    (ch_pages_dirty c) b (ch_volume_id c).
Definition clear_local_cap (c : child_info) : child_info :=
  mk_child (ch_placement c) (ch_aligned c) false (ch_nr_wr c) (ch_nr_rd c) (ch_inline_dirty c)
    (ch_pages_dirty c) (ch_token c) (ch_volume_id c).
Definition on_child (s : st) (ino : Z) (f : child_info -> child_info) : st := set_children s (alter f ino (children s)).

(** The loop over the published children.  The reference that [ilookup] takes
    keeps the child cached until the next one. *)
Definition retire_children (s : st) (t : thread) (a : answer) : option (st * thread) :=
  match t, a with
  | Retire [] k, Nothing => Some (on_dir s (fun d => set_retries d 0), FlushEnd k)
  | Retire (dc :: rest) k, Nothing =>
      match children s !! dc_ino dc with
      | None => Some (s, Retire rest k)
      | Some c =>
          Some (on_child s (dc_ino dc) (backfill (placement_out dc)),
                if ch_local_cap c
                then RetireTagged (dc_ino dc) (ch_nr_wr c >? 0) (ch_nr_rd c >? 0) (ch_inline_dirty c) rest k
                else Retire rest k)
      end
  | RetireTagged ino open_wr open_rd dirty rest k, Nothing =>
      let dirty := dirty || from_option ch_pages_dirty false (children s !! ino) in
      Some (s, if open_wr || open_rd || dirty then RetireGrant ino rest k else RetireClear ino rest k)
  | RetireGrant ino rest k, Bool token => Some (on_child s ino (set_token token), RetireCheck ino rest k)
  | RetireCheck ino rest k, Nothing =>
      Some (on_child s ino (fun c => if ch_token c then clear_local_cap c else c), Retire rest k)
  | RetireClear ino rest k, Nothing => Some (on_child s ino clear_local_cap, Retire rest k)
  | _, _ => None
  end.

(** [list_splice] in front of the list, and the count is set to [n]. *)
Definition put_back (s : st) (tmp : list powerfs_dirty_create) (n : Z) : st :=
  let s := if bool_decide (dirty_creates (dir s) = []) then s else note s CountOverwritten in
  on_dir s (fun d => set_list d (tmp ++ dirty_creates d) n).

(** After a refused batch, and the end of every flush: the retry counter, the
    entries put back or dropped, the flag cleared. *)
Definition flush_refused (s : st) (t : thread) (a : answer) : option (st * thread) :=
  match t, a with
  | FlushFailed tmp n k, Nothing =>
      let retries := dirty_create_retries (dir s) + 1 in
      Some (on_dir s (fun d => set_retries d retries),
            if retries >? POWERFS_DIRTY_FLUSH_MAX_RETRIES then FlushGiveUp tmp k else FlushRequeue tmp n k)
  | FlushGiveUp tmp k, Nothing =>
      Some (note (on_dir s (fun d => set_retries (set_list d [] 0) 0)) (Dropped (tmp ++ dirty_creates (dir s))), FlushEnd k)
  | FlushRequeue tmp n k, Nothing => Some (put_back s tmp n, FlushQueue k)
  | FlushQueue k, Nothing => Some (queue_delayed_work s POWERFS_DIRTY_FLUSH_RETRY_MS, FlushEnd k)
  | FlushEnd k, Nothing => Some (on_dir s (fun d => set_flushing d false), resume k)
  | _, _ => None
  end.

(** From the collection to the end.  [kmalloc_array] fails for a negative
    count.  The array holds [n] entries, those behind it are not sent. *)
Definition powerfs_flush_dirty_creates (s : st) (t : thread) (a : answer) : option (st * thread) :=
  match t, a with
  | Flush k, Nothing =>
      if dirty_create_count (dir s) =? 0 then Some (s, resume k)
      else Some (on_dir s (fun d => set_flushing (set_list d [] 0) true),
                 FlushAlloc (dirty_creates (dir s)) (dirty_create_count (dir s)) k)
  | FlushAlloc tmp n k, Bool ok => Some (s, if ok && (0 <=? n) then FlushRpc tmp n k else FlushOom tmp n k)
  | FlushOom tmp n k, Nothing => Some (on_dir (put_back s tmp n) (fun d => set_flushing d false), FlushOomQueue k)
  | FlushOomQueue k, Nothing => Some (queue_delayed_work s POWERFS_DIRTY_FLUSH_RETRY_MS, resume k)
  | FlushRpc tmp n k, Created ret placements =>
      if ret =? 0
      then Some (note (note s (Unsent (drop (Z.to_nat n) tmp))) (Published (take (Z.to_nat n) tmp)),
                 Retire (set_placements tmp placements) k)
      else Some (s, FlushFailed tmp n k)
  | _, _ => flush_refused s t a
  end.

Definition powerfs_flush_dirty_creates_work_fn (s : st) (t : thread) : option (st * thread) :=
  match t with
  | WorkFn => Some (s, if is_dir (dir s) then Flush ByWork else WorkDone)
  | WorkDone => Some (on_dir s (fun d => set_work d (flush_work d) false), Finished)
  | _ => None
  end.

(** ** Who flushes synchronously *)

(** [fsync], rename, rmdir and eviction look at the count without the lock;
    the recall of AUTH_EXCL starts at [CancelWork]. *)
Definition sync_flush (s : st) (t : thread) : option (st * thread) :=
  match t with
  | SyncFlush k =>
      Some (s, if dirty_create_count (dir s) >? 0 then CancelWork k
               else match k with ByEvict => EvictIdle | _ => Finished end)
  | CancelWork k =>
      match cancel_delayed_work_sync s with
      | Some s => Some (s, match k with ByLookup name => LookupWait name | _ => Flush k end)
      | None => None
      end
  | _ => None
  end.

(** The rest of the rmdir with pending creates. *)
Definition rmdir_check (s : st) : st * thread :=
  (note s (RmdirResult (if dirty_create_count (dir s) >? 0 then - EAGAIN else - ENOTEMPTY)), Finished).

(** The end of an eviction: the timer is cancelled and what is left is freed. *)
Definition evict_dirty_creates (s : st) (t : thread) : option (st * thread) :=
  match t with
  | EvictIdle =>
      if is_dir (dir s) then match cancel_delayed_work_sync s with Some s => Some (s, Evicted) | None => None end
      else Some (s, Evicted)
  | EvictCancel => match cancel_delayed_work_sync s with Some s => Some (s, EvictTest) | None => None end
  | EvictTest => Some (s, if dirty_create_count (dir s) >? 0 then EvictDrop else Evicted)
  | EvictDrop => Some (note (on_dir s (fun d => set_list d [] 0)) (Dropped (dirty_creates (dir s))), Evicted)
  | _ => None
  end.

(** For a child: only a local create, and without [force] only one with data
    to push.  The last step looks at the directory without its lock; the
    answer tells whether the directory is in the inode cache. *)
Definition powerfs_flush_pending_create (s : st) (t : thread) (a : answer) : option (st * thread) :=
  match t, a with
  | PendingChild ino force, Nothing =>
      match children s !! ino with
      | Some c => Some (s, if ch_local_cap c then (if force then PendingDir else PendingData ino) else Finished)
      | None => None
      end
  | PendingData ino, Nothing =>
      match children s !! ino with
      | Some c =>
          let has_data := ch_inline_dirty c ||
            (negb (ch_placement c =? POWERFS_PLACEMENT_INLINE) && negb (ch_volume_id c =? 0)) in
          Some (s, if has_data then PendingDir else Finished)
      | None => None
      end
  | PendingDir, Bool cached =>
      Some (s, if cached && is_dir (dir s) && ((dirty_create_count (dir s) >? 0) || dirty_creates_flushing (dir s))
               then CancelWork ByCaller else Finished)
  | _, _ => None
  end.

(** [powerfs_lookup] around a "no entry" of the filer: retried once, after a
    flush, when the name is pending or a flush is in flight.  The wait ends
    when no flush is in flight or after its timeout (the answer). *)
Definition powerfs_lookup (s : st) (t : thread) (a : answer) : option (st * thread) :=
  match t, a with
  | LookupRpc name retried, Ret ret =>
      if ret =? - ENOENT
      then if retried then Some (note s (NotFound name), Finished) else Some (s, LookupPending name)
      else Some (s, Finished)
  | LookupPending name, Nothing => Some (s, LookupFlushing name (powerfs_has_pending_dirty_create s name))
  | LookupFlushing name pending, Nothing =>
      if pending || dirty_creates_flushing (dir s) then Some (s, CancelWork (ByLookup name))
      else Some (note s (NotFound name), Finished)
  | LookupWait name, Bool timeout =>
      if timeout || negb (dirty_creates_flushing (dir s)) then Some (s, Flush (ByLookup name)) else None
  | _, _ => None
  end.

(** ** All threads *)

Definition tstep (s : st) (t : thread) (a : answer) : option (st * thread) :=
  match t with
  | CreateAuth _ _ | CreateRecheck _ _ | CreateTake _ _ _ | CreateRefill _ _ | CreateStore _ _ _ _ | CreateNew _ _
  | CreateInit _ | CreateRecord _ => powerfs_do_create_core s t a
  | CheckFlush | QueueWork _ => powerfs_check_dirty_flush s t
  | Unlink _ | UnlinkRpc _ => powerfs_unlink s t a
  | SyncFlush _ | CancelWork _ => sync_flush s t
  | PendingChild _ _ | PendingData _ | PendingDir => powerfs_flush_pending_create s t a
  | LookupRpc _ _ | LookupPending _ | LookupFlushing _ _ | LookupWait _ => powerfs_lookup s t a
  | WorkFn | WorkDone => powerfs_flush_dirty_creates_work_fn s t
  | Retire _ _ | RetireTagged _ _ _ _ _ _ | RetireGrant _ _ _ | RetireCheck _ _ _ | RetireClear _ _ _ =>
      retire_children s t a
  | Flush _ | FlushAlloc _ _ _ | FlushOom _ _ _ | FlushOomQueue _ | FlushRpc _ _ _ | FlushFailed _ _ _
  | FlushGiveUp _ _ | FlushRequeue _ _ _ | FlushQueue _ | FlushEnd _ => powerfs_flush_dirty_creates s t a
  | RmdirCheck => Some (rmdir_check s)
  | EvictIdle | EvictCancel | EvictTest | EvictDrop => evict_dirty_creates s t
  | Evicted | Finished => None
  end.

(** [Run i a] is a step of thread [i]; [Start t] a caller enters at the
    beginning of a function; [Fire] the timer of the work expires;
    [UpdateTimes] is the section of a [utimes]; [Touch] is anything the rest of
    the system does to a child. *)
Inductive event :=
| Run (i : nat) (a : answer)
| Start (t : thread)
| Fire
| UpdateTimes (ino mtime atime : Z)
| Touch (ino : Z) (c : option child_info).

Definition entry (t : thread) : bool :=
  match t with
  | CreateAuth _ _ | Unlink _ | SyncFlush (ByCaller | ByRmdir | ByEvict) | CancelWork ByCaller | PendingChild _ _
  | LookupRpc _ false => true
  | _ => false
  end.

Definition state : Type := st * list thread.

Definition step (s : state) (e : event) : option state :=
  match e with
  | Run i a =>
      match snd s !! i with
      | Some t => match tstep (fst s) t a with Some (s', t') => Some (s', <[i := t']> (snd s)) | None => None end
      | None => None
      end
  | Start t => if entry t then Some (fst s, snd s ++ [t]) else None
  | Fire =>
      match flush_work (dir (fst s)) with
      | Some _ => if work_running (dir (fst s)) then None
                  else Some (on_dir (fst s) (fun d => set_work d None true), snd s ++ [WorkFn])
      | None => None
      end
  | UpdateTimes ino mtime atime => Some (snd (powerfs_dirty_create_update_times (fst s) ino mtime atime), snd s)
  | Touch ino c =>
      Some (set_children (fst s) (match c with Some c => <[ino := c]> (children (fst s)) | None => delete ino (children (fst s)) end),
            snd s)
  end.

Fixpoint exec (es : list event) (s : state) : option state :=
  match es with
  | [] => Some s
  | e :: es => match step s e with Some s' => exec es s' | None => None end
  end.

(** A new directory inode: [powerfs_alloc_inode] sets all these fields but
    [dirty_create_retries], which keeps the value of the inode that had the
    memory before.  And the pools of a mount with [shards] shards. *)
Definition new_dir (retries : Z) : dir_info := mk_dir true [] 0 retries false None false.
Definition empty_pools (shards : nat) : list powerfs_inode_pool := replicate shards (mk_pool 0 0 0).
Definition initial (shards : nat) (retries : Z) : state := (mk_st (Some (empty_pools shards)) (new_dir retries) ∅ [], []).

(** One thread run to its end, nothing interfering; outside calls answer by
    place. *)
Fixpoint run_alone (fuel : nat) (o : thread -> answer) (s : st) (t : thread) : option st :=
  match t with
  | Finished => Some s
  | _ => match fuel with
         | O => None
         | S fuel => match tstep s t (o t) with Some (s, t) => run_alone fuel o s t | None => None end
         end
  end.
