(* ===== verification/CreateProof.v ===== *)
(** * CreateProof: properties of optimistic creates

    Over [Create]: the accounting of every recorded create and of the count,
    the flush that is always on its way, the inode numbers handed out, and what
    a flush does when it runs alone. *)

From S2P Require Import Prelude Layout Caps Create.

(** ** The ledger *)

Definition inos (l : list powerfs_dirty_create) : list Z := dc_ino <$> l.

Definition recorded_by (f : fact) : list Z := match f with Recorded dc => [dc_ino dc] | _ => [] end.
(** How a create leaves the directory. *)
Definition settled_by (f : fact) : list Z :=
  match f with
  | Published dcs | Dropped dcs | Unsent dcs => inos dcs
  | Cancelled dc => [dc_ino dc]
  | _ => []
  end.
Definition unsent_by (f : fact) : list Z := match f with Unsent dcs => inos dcs | _ => [] end.
Definition taken_by (f : fact) : list Z := match f with Taken ino => [ino] | _ => [] end.
Definition refilled_by (f : fact) : list (Z * Z) := match f with Refilled a b => [(a, b)] | _ => [] end.

Definition all {A} (g : fact -> list A) (l : list fact) : list A := concat (g <$> l).

(** The creates a flush has taken off the list, and their number as it knows it. *)
Definition in_flight (t : thread) : list powerfs_dirty_create :=
  match t with
  | FlushAlloc tmp _ _ | FlushOom tmp _ _ | FlushRpc tmp _ _ | FlushFailed tmp _ _ | FlushGiveUp tmp _
  | FlushRequeue tmp _ _ => tmp
  | _ => []
  end.
Definition counted (t : thread) : Prop :=
  match t with
  | FlushAlloc tmp n _ | FlushOom tmp n _ | FlushRpc tmp n _ | FlushFailed tmp n _ | FlushRequeue tmp n _ =>
      n = Z.of_nat (length tmp)
  | _ => True
  end.

(** Where the recorded creates are, as far as one thread and the directory go. *)
Definition ledger (s : st) (t : thread) : list Z :=
  inos (dirty_creates (dir s)) ++ inos (in_flight t) ++ all settled_by (log s).

(** A flush is about to collect the list or to queue the work. *)
Definition about_to (t : thread) : bool :=
  match t with
  | CheckFlush | QueueWork _ | CancelWork _ | LookupWait _ | WorkFn | Flush _ | FlushOomQueue _ | FlushQueue _ => true
  | _ => false
  end.
Definition evicting (t : thread) : bool :=
  match t with EvictIdle | EvictCancel | EvictTest | EvictDrop | Evicted => true | _ => false end.

(** ** One step *)

Ltac step_cases H :=
  unfold tstep, powerfs_do_create_core, powerfs_check_dirty_flush, powerfs_unlink, powerfs_flush_dirty_creates, flush_refused,
    retire_children, powerfs_flush_dirty_creates_work_fn, sync_flush, rmdir_check, evict_dirty_creates,
    powerfs_flush_pending_create, powerfs_lookup, powerfs_cancel_dirty_create, cancel_delayed_work_sync,
    pool_take_inode, pool_refill_store, queue_delayed_work, put_back in H;
  simplify_eq/=; repeat (case_match; simplify_eq/=).

Lemma all_cons {A} (g : fact -> list A) f l : all g (f :: l) = g f ++ all g l.
Proof. done. Qed.

Lemma inos_app a b : inos (a ++ b) = inos a ++ inos b.
Proof. apply fmap_app. Qed.

Lemma remove_first_inos name l dc l' : remove_first name l = Some (dc, l') -> inos l ≡ₚ dc_ino dc :: inos l'.
Proof.
  revert l'; induction l as [|x l IH]; intros l' H; simplify_eq/=. repeat case_match; simplify_eq/=; [done|].
  rewrite (IH _ eq_refl). apply Permutation_swap.
Qed.

Lemma remove_first_length name l dc l' : remove_first name l = Some (dc, l') -> length l = S (length l').
Proof.
  intros H%remove_first_inos%Permutation_length. unfold inos in H. simpl in H. by rewrite !length_fmap in H.
Qed.

Lemma update_first_inos ino f l l' : (forall dc, dc_ino (f dc) = dc_ino dc) -> update_first ino f l = Some l' -> inos l' = inos l.
Proof.
  intros Hf. revert l'; induction l as [|x l IH]; intros l' H; simplify_eq/=. repeat case_match; simplify_eq/=.
  - by rewrite Hf.
  - by f_equal; apply IH.
Qed.

Lemma inos_take_drop n l : inos (take n l) ++ inos (drop n l) = inos l.
Proof. by rewrite <- inos_app, take_drop. Qed.

Lemma in_flight_resume k : in_flight (resume k) = [].
Proof. by destruct k. Qed.

Lemma queue_keeps s delay :
  let s' := queue_delayed_work s delay in
  dirty_creates (dir s') = dirty_creates (dir s) /\ dirty_create_count (dir s') = dirty_create_count (dir s) /\
  is_dir (dir s') = is_dir (dir s) /\ flush_work (dir s') = Some (default delay (flush_work (dir s))).
Proof. unfold queue_delayed_work; simpl. by destruct (flush_work (dir s)) eqn:E. Qed.

(** Permutations of lists of numbers, by counting. *)
Ltac perm_count :=
  apply (Permutation_count_occ Z.eq_dec); intros ?; rewrite ?inos_app, ?all_cons, ?count_occ_app; simpl;
  rewrite ?inos_app, ?all_cons, ?count_occ_app; simpl; repeat case_match; lia.

(** A step moves creates between the list, the thread and the log. *)
Lemma tstep_ledger s t a s' t' :
  tstep s t a = Some (s', t') ->
  exists new, all recorded_by (log s') = new ++ all recorded_by (log s) /\ ledger s' t' ≡ₚ new ++ ledger s t.
Proof.
  intros H. destruct t; step_cases H; try (exists []; done).
  { exists [dc_ino dc]. split; [done|]. unfold ledger; simpl. perm_count. }
  all: exists []; split; [done|]; unfold ledger; simpl; rewrite ?in_flight_resume;
    try (destruct (flush_work (dir s)); done); try perm_count.
  - match goal with H : remove_first _ _ = _ |- _ => rewrite (remove_first_inos _ _ _ _ H) end. perm_count.
  - rewrite <- (inos_take_drop (Z.to_nat n) tmp). perm_count.
Qed.

(** The count is the length of the list as long as it was never overwritten,
    and every flush in flight knows the number of its entries. *)
Definition count_ok (s : st) (t : thread) : Prop :=
  CountOverwritten ∉ log s ->
  dirty_create_count (dir s) = Z.of_nat (length (dirty_creates (dir s))) /\ counted t /\ all unsent_by (log s) = [].

Lemma tstep_log s t a s' t' : tstep s t a = Some (s', t') -> exists fs, log s' = fs ++ log s.
Proof.
  intros H. destruct t; step_cases H;
    solve [by exists [] | by eexists [_] | by eexists [_; _] | exists []; by destruct (flush_work _)].
Qed.

Lemma counted_resume k : counted (resume k).
Proof. by destruct k. Qed.

Lemma tstep_count s t a s' t' : tstep s t a = Some (s', t') -> count_ok s t -> count_ok s' t'.
Proof.
  intros H Hc Hn. destruct (tstep_log _ _ _ _ _ H) as [fs Hlog].
  destruct Hc as (Hc & Ht & Hu); [rewrite Hlog, elem_of_app in Hn; tauto|]. clear Hlog.
  destruct t; step_cases H; rewrite ?all_cons; simpl in *; try (split_and!; done).
  all: split_and!; try done; try apply counted_resume; rewrite ?length_app.
  all: repeat match goal with
    | H : remove_first _ _ = _ |- _ => apply remove_first_length in H
    | H : bool_decide _ = true |- _ => apply bool_decide_eq_true in H; rewrite H
    | H : CountOverwritten ∉ CountOverwritten :: _ |- _ => by destruct H; left
    end; simpl; try lia.
  by rewrite Nat2Z.id, drop_all, Hu.
Qed.

(** With creates on the list, a step leaves a pending work or a thread that
    will see to them, or the step changes nothing that matters. *)
Lemma tstep_work s t a s' t' :
  tstep s t a = Some (s', t') -> CountOverwritten ∉ log s' -> count_ok s t -> is_dir (dir s') = true ->
  dirty_creates (dir s') <> [] ->
  is_Some (flush_work (dir s')) \/ about_to t' || evicting t' = true \/
  (dirty_creates (dir s) <> [] /\ flush_work (dir s') = flush_work (dir s) /\ about_to t || evicting t = false).
Proof.
  intros H Hn Hc Hd Hl. destruct (tstep_log _ _ _ _ _ H) as [fs Hlog].
  destruct Hc as (Hc & _ & _); [rewrite Hlog, elem_of_app in Hn; tauto|]. clear Hlog.
  destruct t; step_cases H; try tauto; try congruence.
  all: try (destruct (flush_work (dir s)); eauto; fail).
  - right; right. split_and!; [|done..]. intros Hnil. match goal with H : remove_first _ _ = _ |- _ => by rewrite Hnil in H end.
  - exfalso. apply Hl. destruct (dirty_creates (dir s')); [done|]. simpl in Hc. bool_to_prop. lia.
Qed.

Lemma tstep_is_dir s t a s' t' : tstep s t a = Some (s', t') -> is_dir (dir s') = is_dir (dir s).
Proof. intros H. destruct t; step_cases H; try done; by destruct (flush_work _). Qed.

(** ** The invariant *)

Record inv (s : state) : Prop := {
  inv_ledger : all recorded_by (log (fst s)) ≡ₚ
    inos (dirty_creates (dir (fst s))) ++ inos (concat (in_flight <$> snd s)) ++ all settled_by (log (fst s));
  inv_count : CountOverwritten ∉ log (fst s) ->
    dirty_create_count (dir (fst s)) = Z.of_nat (length (dirty_creates (dir (fst s)))) /\
    Forall counted (snd s) /\ all unsent_by (log (fst s)) = [];
  inv_work : CountOverwritten ∉ log (fst s) -> is_dir (dir (fst s)) = true -> dirty_creates (dir (fst s)) <> [] ->
    is_Some (flush_work (dir (fst s))) \/ Exists (fun t => about_to t || evicting t = true) (snd s)
}.

Lemma in_flight_insert ts i t t' :
  ts !! i = Some t ->
  exists rest, concat (in_flight <$> ts) ≡ₚ in_flight t ++ rest /\ concat (in_flight <$> <[i := t']> ts) ≡ₚ in_flight t' ++ rest.
Proof.
  intros Ht. exists (concat (in_flight <$> take i ts) ++ concat (in_flight <$> drop (S i) ts)).
  rewrite insert_take_drop by by eapply lookup_lt_Some.
  rewrite <- (take_drop_middle ts i t Ht) at 1. rewrite !fmap_app, !concat_app; simpl.
  split; apply Permutation_app_swap_app.
Qed.

Lemma inos_proper l1 l2 : l1 ≡ₚ l2 -> inos l1 ≡ₚ inos l2.
Proof. apply fmap_Permutation. Qed.

Lemma Exists_insert_other {A} (P : A -> Prop) l i x y : l !! i = Some x -> Exists P l -> ~ P x -> Exists P (<[i := y]> l).
Proof.
  intros Hx HP Hn. apply Exists_exists in HP as (z & Hz & HP). apply list_elem_of_lookup in Hz as [j Hj].
  apply Exists_exists. exists z. split; [|done]. apply list_elem_of_lookup. exists j.
  rewrite list_lookup_insert_ne; [done|]. intros ->. congruence.
Qed.

Lemma Exists_insert_self {A} (P : A -> Prop) l i x y : l !! i = Some x -> P y -> Exists P (<[i := y]> l).
Proof.
  intros Hx HP. apply Exists_exists. exists y. split; [|done]. apply list_elem_of_lookup. exists i.
  apply list_lookup_insert_eq. by eapply lookup_lt_Some.
Qed.

Lemma create_run_inv s ts i t a s' t' :
  inv (s, ts) -> ts !! i = Some t -> tstep s t a = Some (s', t') -> inv (s', <[i := t']> ts).
Proof.
  intros [Hl Hc Hw] Ht H. simpl in *.
  assert (count_ok s t) as Hok.
  { intros Hn. destruct (Hc Hn) as (H1 & H2 & H3). split_and!; [done| |done]. by eapply Forall_lookup_1 in H2. }
  pose proof (tstep_count _ _ _ _ _ H Hok) as Hok'.
  assert (CountOverwritten ∉ log s' -> CountOverwritten ∉ log s) as Hmono.
  { destruct (tstep_log _ _ _ _ _ H) as [fs ->]. rewrite elem_of_app. tauto. }
  split; simpl.
  - destruct (tstep_ledger _ _ _ _ _ H) as (new & -> & Hled). rewrite Hl.
    destruct (in_flight_insert ts i t t' Ht) as (rest & E & E').
    apply inos_proper in E, E'. rewrite E, E', !inos_app. unfold ledger in Hled. revert Hled.
    rewrite !(Permutation_count_occ Z.eq_dec). intros Hled x. specialize (Hled x). rewrite !count_occ_app in *. lia.
  - intros Hn. destruct (Hok' Hn) as (H1 & H2 & H3). split_and!; [done| |done].
    apply Forall_insert; [by apply Hc, Hmono|done].
  - intros Hn Hd Hne. destruct (tstep_work _ _ _ _ _ H Hn Hok Hd Hne) as [|[Ha|(Hne0 & Hfw & Ha)]]; [by left| |].
    + right. by eapply Exists_insert_self.
    + rewrite Hfw. destruct Hw as [|Hex]; [by apply Hmono|by rewrite <- (tstep_is_dir _ _ _ _ _ H)|done|by left|].
      right. eapply Exists_insert_other; [done..|]. by rewrite Ha.
Qed.

Lemma create_step_inv s e s' : inv s -> step s e = Some s' -> inv s'.
Proof.
  intros Hi H. destruct s as [s ts]. destruct e as [i a|t| |ino mtime atime|ino c]; unfold step in H; simpl in H.
  - repeat (case_match; simplify_eq/=). by eapply create_run_inv.
  - case_match; simplify_eq/=. destruct Hi as [Hl Hc Hw]; simpl in *.
    assert (in_flight t = [] /\ counted t) as [E1 E2] by by destruct t.
    split; simpl.
    + by rewrite fmap_app, concat_app; simpl; rewrite E1, !app_nil_r.
    + intros Hn. destruct (Hc Hn) as (Hc1 & Hc2 & Hc3). split_and!; [done| |done]. apply Forall_app; split; [done|by constructor].
    + intros Hn Hd Hne. destruct (Hw Hn Hd Hne); [by left|right]. apply Exists_app; by left.
  - repeat (case_match; simplify_eq/=). destruct Hi as [Hl Hc Hw]; simpl in *. split; simpl.
    + by rewrite fmap_app, concat_app; simpl; rewrite !app_nil_r.
    + intros Hn. destruct (Hc Hn) as (Hc1 & Hc2 & Hc3). split_and!; [done| |done]. apply Forall_app; split; [done|by constructor].
    + intros _ _ _. right. apply Exists_app; right. by left.
  - unfold powerfs_dirty_create_update_times in H. repeat (case_match; simplify_eq/=); [|done..].
    destruct Hi as [Hl Hc Hw]; simpl in *.
    match goal with H : update_first _ _ _ = Some _ |- _ => apply update_first_inos in H; [|done]; rename H into Hin end.
    assert (length l = length (dirty_creates (dir s))) as Hlen by (unfold inos in Hin; apply (f_equal length) in Hin; by rewrite !length_fmap in Hin).
    split; simpl; [by rewrite Hin|by rewrite Hlen|].
    intros Hn Hd Hne. apply Hw; [done..|]. by destruct l, (dirty_creates (dir s)).
  - simplify_eq/=. destruct Hi. by split.
Qed.

Lemma create_exec_inv es s s' : inv s -> exec es s = Some s' -> inv s'.
Proof.
  revert s; induction es as [|e es IH]; intros s Hi H; simplify_eq/=; [done|].
  case_match; [|done]. eapply IH; [|done]. by eapply create_step_inv.
Qed.

Lemma create_initial_inv shards retries : inv (initial shards retries).
Proof. by split. Qed.

(** ** Inode numbers *)

Definition apart (r1 r2 : Z * Z) : Prop := snd r1 <= fst r2 \/ snd r2 <= fst r1.
(** What the filer promises about its batches, half-open ranges. *)
Definition batches_ok (rs : list (Z * Z)) : Prop :=
  Forall (fun r => 0 < fst r <= snd r /\ snd r < 2 ^ 64) rs /\ ForallOrdPairs apart rs.

Definition in_range (x : Z) (r : Z * Z) : Prop := fst r <= x < snd r.
(** The numbers a pool may still hand out. *)
Definition window (p : powerfs_inode_pool) : Z * Z := (next_ino p, next_ino p + remaining p).

Record pools_inv (ps : list powerfs_inode_pool) (l : list fact) : Prop := {
  pi_nodup : NoDup (all taken_by l);
  pi_taken x : x ∈ all taken_by l -> exists r, r ∈ all refilled_by l /\ in_range x r;
  pi_window i p : ps !! i = Some p -> remaining p = 0 \/
    (0 < remaining p /\ exists r, r ∈ all refilled_by l /\ fst r <= next_ino p /\ next_ino p + remaining p <= snd r);
  pi_fresh i p x : ps !! i = Some p -> in_range x (window p) -> x ∉ all taken_by l;
  pi_apart i j p q x : i <> j -> ps !! i = Some p -> ps !! j = Some q -> in_range x (window p) -> ~ in_range x (window q)
}.

Definition pools_ok (s : st) : Prop :=
  batches_ok (all refilled_by (log s)) -> forall ps, pools s = Some ps -> pools_inv ps (log s).

Lemma batches_ok_in rs r : batches_ok rs -> r ∈ rs -> 0 < fst r <= snd r /\ snd r < 2 ^ 64.
Proof. intros [H _] Hr. rewrite Forall_forall in H. by apply H. Qed.

Lemma pools_ext ps l l' :
  all taken_by l' = all taken_by l -> all refilled_by l' = all refilled_by l -> pools_inv ps l -> pools_inv ps l'.
Proof. intros E1 E2 []. split; rewrite ?E1, ?E2; auto. Qed.

Lemma take_pools_ok s shard : pools_ok s -> pools_ok (snd (pool_take_inode s shard)).
Proof.
  intros Hs. unfold pool_take_inode. destruct (pools s) as [ps|] eqn:Eps; [|done].
  destruct (ps !! Z.to_nat shard) as [pool|] eqn:Ep; [|done]. case_if; [|done].
  intros Hb ps' [= <-]. simpl in *. specialize (Hs Hb _ Eps) as [Hnd Htk Hwin Hfr Hap].
  destruct (Hwin _ _ Ep) as [|(Hrem & r & Hr & Hr1 & Hr2)]; [lia|].
  pose proof (batches_ok_in _ _ Hb Hr) as Hrb.
  rewrite u64_small by lia.
  assert (forall i p, <[Z.to_nat shard := mk_pool (next_ino pool + 1) (end_ino pool) (remaining pool - 1)]> ps !! i = Some p ->
    exists p0, ps !! i = Some p0 /\ (forall x, in_range x (window p) -> in_range x (window p0) /\ (x = next_ino pool -> p0 <> pool))) as Hold.
  { intros i p Hi. destruct (decide (i = Z.to_nat shard)) as [->|Hne].
    - rewrite list_lookup_insert_eq in Hi by (by eapply lookup_lt_Some). simplify_eq. exists pool. split; [done|].
      unfold in_range, window; simpl. intros x Hx. split; [lia|]. lia.
    - rewrite list_lookup_insert_ne in Hi by done. exists p. split; [done|]. intros x Hx. split; [done|].
      intros -> ->. eapply (Hap i (Z.to_nat shard)); [done..|]. unfold in_range, window in *; simpl in *; lia. }
  split; rewrite ?all_cons; simpl.
  - apply NoDup_cons. split; [|done]. eapply Hfr; [exact Ep|]. unfold in_range, window; simpl; lia.
  - intros x [->|Hx]%elem_of_cons; [|by apply Htk]. exists r. split; [done|]. unfold in_range; lia.
  - intros i p Hi. destruct (decide (i = Z.to_nat shard)) as [->|Hne].
    + rewrite list_lookup_insert_eq in Hi by (by eapply lookup_lt_Some). simplify_eq/=.
      destruct (decide (remaining pool = 1)); [left; lia|]. right. split; [lia|]. exists r. split; [done|lia].
    + rewrite list_lookup_insert_ne in Hi by done. by eapply Hwin.
  - intros i p x Hi Hx. destruct (Hold _ _ Hi) as (p0 & Hp0 & Hin). destruct (Hin x Hx) as [Hx0 Hne].
    apply not_elem_of_cons. split; [|by eapply Hfr]. intros ->. apply Hne; [done|].
    destruct (decide (i = Z.to_nat shard)) as [->|Hni]; [congruence|]. exfalso.
    eapply (Hap i (Z.to_nat shard)); [done..|]. unfold in_range, window; simpl; lia.
  - intros i j p q x Hij Hi Hj Hp Hq. destruct (Hold _ _ Hi) as (p0 & Hp0 & Hin1). destruct (Hold _ _ Hj) as (q0 & Hq0 & Hin2).
    eapply (Hap i j); [done| | |by apply Hin1|by apply Hin2]; done.
Qed.

Lemma store_pools_ok s shard first last : pools_ok s -> pools_ok (pool_refill_store s shard first last).
Proof.
  intros Hs. unfold pool_refill_store. destruct (pools s) as [ps|] eqn:Eps; [|done].
  intros Hb ps' [= <-]. simpl in *. rewrite all_cons in Hb. simpl in Hb. destruct Hb as [Hb1 Hb2].
  apply Forall_cons_1 in Hb1 as [Hfl Hb1]. simpl in Hfl. inversion Hb2 as [|? ? Hap0 Hb2']; subst.
  specialize (Hs (conj Hb1 Hb2') _ Eps) as [Hnd Htk Hwin Hfr Hap]. rewrite Forall_forall in Hap0.
  assert (forall x r, r ∈ all refilled_by (log s) -> in_range x r -> in_range x (first, last) -> False) as Hnew.
  { intros x r Hr Hx Hx'. destruct (Hap0 _ Hr); unfold in_range in *; simpl in *; lia. }
  assert (0 <= u32 (last - first) <= last - first) as Hu.
  { split; [apply u32_range|]. apply Z.mod_le; lia. }
  assert (forall i p, <[Z.to_nat shard := mk_pool first last (u32 (last - first))]> ps !! i = Some p ->
    (i = Z.to_nat shard /\ p = mk_pool first last (u32 (last - first))) \/ (i <> Z.to_nat shard /\ ps !! i = Some p)) as Hcase.
  { intros i p [(-> & -> & _)|[? ?]]%list_lookup_insert_Some; auto. }
  assert (forall x, in_range x (window (mk_pool first last (u32 (last - first)))) -> in_range x (first, last)) as Hw.
  { unfold in_range, window; simpl. lia. }
  assert (forall i p x, ps !! i = Some p -> in_range x (window p) -> in_range x (first, last) -> False) as Hother.
  { intros i p x Hi Hx. destruct (Hwin _ _ Hi) as [|(_ & r & Hr & Hr1 & Hr2)]; [unfold in_range, window in *; simpl in *; lia|].
    apply (Hnew x r); [done|]. unfold in_range, window in *; simpl in *; lia. }
  split; rewrite ?all_cons; simpl.
  - done.
  - intros x Hx. destruct (Htk _ Hx) as (r & Hr & Hxr). exists r. split; [by right|done].
  - intros i p [[-> ->]|[_ Hi]]%Hcase; simpl.
    + destruct (decide (u32 (last - first) = 0)); [by left|right]. split; [lia|]. exists (first, last).
      split; [left|simpl; lia].
    + destruct (Hwin _ _ Hi) as [|(? & r & Hr & ?)]; [by left|right]. split; [done|]. exists r. split; [by right|done].
  - intros i p x [[-> ->]|[_ Hi]]%Hcase Hx; [|by eapply Hfr]. intros (r & Hr & Hxr)%Htk. eapply Hnew; eauto.
  - intros i j p q x Hij [[-> ->]|[Hni Hi]]%Hcase [[-> ->]|[Hnj Hj]]%Hcase Hp Hq.
    + done.
    + by eapply (Hother j); [| |apply Hw].
    + by eapply (Hother i); [| |apply Hw].
    + by eapply (Hap i j).
Qed.

Lemma tstep_pools_ok s t a s' t' : tstep s t a = Some (s', t') -> pools_ok s -> pools_ok s'.
Proof.
  intros H Hs.
  assert (pools s' = pools s -> all taken_by (log s') = all taken_by (log s) ->
          all refilled_by (log s') = all refilled_by (log s) -> pools_ok s') as Hsame.
  { intros E1 E2 E3. intros Hb ps Hps. rewrite E3 in Hb. rewrite E1 in Hps. eapply pools_ext; [done..|by apply Hs]. }
  destruct t; try (step_cases H; apply Hsame; try done; by destruct (flush_work _)); unfold tstep, powerfs_do_create_core in H.
  - destruct a; try done. pose proof (take_pools_ok s shard Hs) as Hok. destruct (pool_take_inode s shard). by simplify_eq.
  - destruct a; simplify_eq. by apply store_pools_ok.
Qed.

Lemma exec_pools_ok es s s' : pools_ok (fst s) -> exec es s = Some s' -> pools_ok (fst s').
Proof.
  revert s; induction es as [|e es IH]; intros s Hi H; simplify_eq/=; [done|].
  destruct (step s e) as [s1|] eqn:E; [|done]. eapply IH; [|done]. clear IH H. destruct s as [s ts].
  destruct e; unfold step, powerfs_dirty_create_update_times in E; simplify_eq/=; repeat (case_match; simplify_eq/=); try done.
  by eapply tstep_pools_ok.
Qed.

Lemma exec_pools_some es s s' : is_Some (pools (fst s)) -> exec es s = Some s' -> is_Some (pools (fst s')).
Proof.
  revert s; induction es as [|e es IH]; intros s Hi H; simplify_eq/=; [done|].
  destruct (step s e) as [s1|] eqn:E; [|done]. eapply IH; [|done]. clear IH H. destruct s as [s ts].
  destruct e; unfold step, powerfs_dirty_create_update_times in E; simplify_eq/=; repeat (case_match; simplify_eq/=); try done.
  match goal with H : tstep _ ?t _ = _ |- _ => destruct t; step_cases H; try done; by destruct (flush_work _) end.
Qed.

Lemma initial_pools_ok shards retries : pools_ok (fst (initial shards retries)).
Proof.
  intros _ ps [= <-]. split; simpl; [constructor| | | |].
  - intros x Hx. by apply elem_of_nil in Hx.
  - intros i p [-> _]%lookup_replicate. by left.
  - intros i p x _ _ Hx. by apply elem_of_nil in Hx.
  - intros i j p q x _ [-> _]%lookup_replicate _. unfold in_range; simpl. lia.
Qed.

(** ** A flush alone *)

(** Answers of the outside calls of one flush. *)
Definition flush_answers (alloc : bool) (ret : Z) (placements : list Z) (grant : Z -> bool) (t : thread) : answer :=
  match t with
  | FlushAlloc _ _ _ => Bool alloc
  | FlushRpc _ _ _ => Created ret placements
  | RetireGrant ino _ _ => Bool (grant ino)
  | _ => Nothing
  end.

(** What the flush does to the inode of a published create. *)
Definition retired (grant : Z -> bool) (ino placement : Z) (c : child_info) : child_info :=
  let c := backfill placement c in
  if ch_local_cap c
  then if (ch_nr_wr c >? 0) || (ch_nr_rd c >? 0) || (ch_inline_dirty c || ch_pages_dirty c)
       then if grant ino then clear_local_cap (set_token true c) else set_token false c
       else clear_local_cap c
  else c.

Definition retire_all (grant : Z -> bool) (dcs : list powerfs_dirty_create) (m : gmap Z child_info) : gmap Z child_info :=
  foldl (fun m dc => alter (retired grant (dc_ino dc) (placement_out dc)) (dc_ino dc) m) m dcs.

Lemma create_run_alone_step n o s t s' t' :
  tstep s t (o t) = Some (s', t') -> run_alone (S n) o s t = run_alone n o s' t'.
Proof. intros H. destruct t; cbn [run_alone]; try (by rewrite H); done. Qed.

(** One more step of a run is at hand. *)
Ltac alone_step := erewrite create_run_alone_step; [|reflexivity]; cbn [flush_answers resume].

Lemma run_alone_more n m o s t r : run_alone n o s t = Some r -> (n <= m)%nat -> run_alone m o s t = Some r.
Proof.
  revert m s t; induction n as [|n IH]; intros m s t H Hm; [by destruct t, m|].
  destruct m as [|m]; [lia|]. destruct (tstep s t (o t)) as [[s1 t1]|] eqn:E.
  - rewrite (create_run_alone_step _ _ _ _ _ _ E) in H. rewrite (create_run_alone_step _ _ _ _ _ _ E). apply IH; [done|lia].
  - destruct t; cbn [run_alone] in *; try (by rewrite E in H); done.
Qed.

Lemma backfill_fields p c :
  ch_local_cap (backfill p c) = ch_local_cap c /\ ch_nr_wr (backfill p c) = ch_nr_wr c /\
  ch_nr_rd (backfill p c) = ch_nr_rd c /\ ch_inline_dirty (backfill p c) = ch_inline_dirty c /\
  ch_pages_dirty (backfill p c) = ch_pages_dirty c.
Proof. unfold backfill. by repeat case_match. Qed.

Lemma alter_id_at {A} (f : A -> A) (m : gmap Z A) i g :
  (forall x, m !! i = Some x -> f x = g x) -> alter f i m = alter g i m.
Proof. intros H. apply map_eq. intros j. rewrite !lookup_alter. case_match; [|done]. subst. destruct (m !! j) eqn:E; [|done]. simpl. f_equal. auto. Qed.

Lemma alter_absent {A} (f : A -> A) (m : gmap Z A) i : m !! i = None -> alter f i m = m.
Proof. intros H. apply map_eq. intros j. rewrite lookup_alter. case_match; [|done]. subst. by rewrite H. Qed.

Lemma on_child_compose s i f g : on_child (on_child s i f) i g = on_child s i (fun c => g (f c)).
Proof.
  unfold on_child. destruct s; simpl. unfold set_children; simpl. f_equal. apply map_eq. intros j.
  destruct (decide (i = j)) as [->|Hne]; [|by rewrite !lookup_alter_ne].
  rewrite !lookup_alter_eq. by rewrite <- option_fmap_compose.
Qed.

Lemma on_child_ext s i f g : (forall c, children s !! i = Some c -> f c = g c) -> on_child s i f = on_child s i g.
Proof. intros H. unfold on_child. f_equal. by apply alter_id_at. Qed.

Lemma run_retire_one alloc ret pl grant k dc rest s :
  exists j, (j <= 4)%nat /\ forall n,
  run_alone (j + n) (flush_answers alloc ret pl grant) s (Retire (dc :: rest) k) =
  run_alone n (flush_answers alloc ret pl grant) (on_child s (dc_ino dc) (retired grant (dc_ino dc) (placement_out dc)))
    (Retire rest k).
Proof.
  destruct (children s !! dc_ino dc) as [c|] eqn:Ec.
  2:{ exists 1%nat. split; [lia|]. intros n. erewrite create_run_alone_step; [|simpl; rewrite Ec; reflexivity].
      f_equal. unfold on_child. rewrite (alter_absent _ _ _ Ec). by destruct s. }
  destruct (backfill_fields (placement_out dc) c) as (E1 & E2 & E3 & E4 & E5).
  assert (children (on_child s (dc_ino dc) (backfill (placement_out dc))) !! dc_ino dc = Some (backfill (placement_out dc) c)) as Ec'.
  { simpl. by rewrite lookup_alter_eq, Ec. }
  destruct (ch_local_cap c) eqn:El.
  2:{ exists 1%nat. split; [lia|]. intros n. erewrite create_run_alone_step; [|simpl; rewrite Ec, El; reflexivity].
      f_equal. apply on_child_ext. intros x Hx. simplify_eq. unfold retired. by rewrite E1. }
  destruct ((ch_nr_wr c >? 0) || (ch_nr_rd c >? 0) || (ch_inline_dirty c || ch_pages_dirty c)) eqn:En.
  - exists 4%nat. split; [lia|]. intros n. simpl Nat.add.
    erewrite create_run_alone_step; [|simpl; rewrite Ec, El; reflexivity].
    erewrite create_run_alone_step; [|simpl; rewrite lookup_alter_eq, Ec; simpl; rewrite E5, En; reflexivity].
    do 2 (erewrite create_run_alone_step; [|reflexivity]).
    f_equal. rewrite !on_child_compose. apply on_child_ext. intros x Hx. simplify_eq. unfold retired.
    rewrite E1, E2, E3, E4, E5, En. by destruct (grant _).
  - exists 3%nat. split; [lia|]. intros n. simpl Nat.add.
    erewrite create_run_alone_step; [|simpl; rewrite Ec, El; reflexivity].
    erewrite create_run_alone_step; [|simpl; rewrite lookup_alter_eq, Ec; simpl; rewrite E5, En; reflexivity].
    erewrite create_run_alone_step; [|reflexivity].
    f_equal. rewrite !on_child_compose. apply on_child_ext. intros x Hx. simplify_eq. unfold retired.
    by rewrite E1, E2, E3, E4, E5, En.
Qed.

Lemma run_retire alloc ret pl grant k dcs s :
  exists j, (j <= 4 * length dcs)%nat /\ forall n,
  run_alone (j + n) (flush_answers alloc ret pl grant) s (Retire dcs k) =
  run_alone n (flush_answers alloc ret pl grant) (set_children s (retire_all grant dcs (children s))) (Retire [] k).
Proof.
  revert s; induction dcs as [|dc dcs IH]; intros s; simpl.
  { exists 0%nat. split; [lia|]. intros n. by destruct s. }
  destruct (run_retire_one alloc ret pl grant k dc dcs s) as (j1 & Hj1 & H1).
  destruct (IH (on_child s (dc_ino dc) (retired grant (dc_ino dc) (placement_out dc)))) as (j2 & Hj2 & H2).
  exists (j1 + j2)%nat. split; [lia|]. intros n. by rewrite <- Nat.add_assoc, H1, H2.
Qed.

Lemma length_set_placements l pl : length (set_placements l pl) = length l.
Proof. revert pl; induction l as [|x l IH]; intros [|p pl]; simpl; auto. Qed.

Definition settled_dir (d : dir_info) (l : list powerfs_dirty_create) (n retries : Z) (work : option Z) : dir_info :=
  mk_dir (is_dir d) l n retries false work (work_running d).

Section flush_alone.
Context (s : st) (pl : list Z) (grant : Z -> bool).
#[local] Abbreviation l := (dirty_creates (dir s)).
Hypothesis Hcount : dirty_create_count (dir s) = Z.of_nat (length l).
Hypothesis Hne : l <> [].

Lemma count_pos : 0 < dirty_create_count (dir s).
Proof. rewrite Hcount. destruct l; simpl in *; [done|lia]. Qed.

(** The first two steps: the list is taken, the array allocated. *)
Lemma run_collect ret n :
  run_alone (S (S n)) (flush_answers true ret pl grant) s (Flush ByCaller) =
  run_alone n (flush_answers true ret pl grant) (on_dir s (fun d => set_flushing (set_list d [] 0) true))
    (FlushRpc l (dirty_create_count (dir s)) ByCaller).
Proof.
  pose proof count_pos as Hpos.
  erewrite create_run_alone_step; [|simpl; rewrite (proj2 (Z.eqb_neq _ 0)) by lia; reflexivity].
  erewrite create_run_alone_step; [|simpl; rewrite (proj2 (Z.leb_le _ _)) by lia; reflexivity]. done.
Qed.

Lemma run_flush_ok fuel :
  (5 + 4 * length l <= fuel)%nat ->
  run_alone fuel (flush_answers true 0 pl grant) s (Flush ByCaller) =
  Some (mk_st (pools s) (settled_dir (dir s) [] 0 0 (flush_work (dir s)))
          (retire_all grant (set_placements l pl) (children s)) (Published l :: Unsent [] :: log s)).
Proof.
  intros Hf.
  pose proof (length_set_placements l pl) as Hlen.
  destruct (run_retire true 0 pl grant ByCaller (set_placements l pl)
    (note (note (on_dir s (fun d => set_flushing (set_list d [] 0) true)) (Unsent [])) (Published l))) as (j & Hj & Hr).
  rewrite Hlen in Hj.
  eapply (run_alone_more (S (S (S (j + 2))))); [|lia].
  rewrite run_collect. erewrite create_run_alone_step; [|reflexivity].
  rewrite Hcount, Nat2Z.id, drop_all, firstn_all, Hr. by do 2 (erewrite create_run_alone_step; [|reflexivity]).
Qed.

Lemma run_flush_fails ret fuel :
  ret <> 0 -> (7 <= fuel)%nat ->
  run_alone fuel (flush_answers true ret pl grant) s (Flush ByCaller) =
  Some (if dirty_create_retries (dir s) + 1 >? POWERFS_DIRTY_FLUSH_MAX_RETRIES
        then mk_st (pools s) (settled_dir (dir s) [] 0 0 (flush_work (dir s))) (children s) (Dropped l :: log s)
        else mk_st (pools s) (settled_dir (dir s) l (dirty_create_count (dir s)) (dirty_create_retries (dir s) + 1)
                                (Some (default POWERFS_DIRTY_FLUSH_RETRY_MS (flush_work (dir s))))) (children s) (log s)).
Proof.
  intros Hret Hf. eapply (run_alone_more 7); [|lia]. rewrite run_collect.
  erewrite create_run_alone_step; [|simpl; rewrite (proj2 (Z.eqb_neq _ _) Hret); reflexivity].
  erewrite create_run_alone_step; [|reflexivity]. cbn [dirty_create_retries dir on_dir set_dir set_flushing set_list].
  case_match.
  - do 2 (erewrite create_run_alone_step; [|reflexivity]). simpl. by rewrite app_nil_r.
  - do 3 (erewrite create_run_alone_step; [|reflexivity]). unfold put_back, queue_delayed_work, on_dir; simpl.
    rewrite app_nil_r. destruct (flush_work (dir s)) eqn:E; unfold settled_dir, set_flushing, set_list; simpl; by rewrite ?E.
Qed.
End flush_alone.

(** Flushes one after the other. *)
Fixpoint repeat_flush (j : nat) (fuel : nat) (o : thread -> answer) (s : st) : option st :=
  match j with
  | O => Some s
  | S j => match run_alone fuel o s (Flush ByCaller) with Some s => repeat_flush j fuel o s | None => None end
  end.

Lemma repeat_flush_S j fuel o s s1 s2 :
  repeat_flush j fuel o s = Some s1 -> run_alone fuel o s1 (Flush ByCaller) = Some s2 -> repeat_flush (S j) fuel o s = Some s2.
Proof.
  revert s; induction j as [|j IH]; intros s H1 H2; [simplify_eq/=; by rewrite H2|].
  cbn [repeat_flush] in *. destruct (run_alone fuel o s (Flush ByCaller)); [|done]. by apply IH.
Qed.

(** The state after [j] refused flushes. *)
Definition after_refusals (s : st) (j : nat) : st :=
  mk_st (pools s) (settled_dir (dir s) (dirty_creates (dir s)) (dirty_create_count (dir s))
      (dirty_create_retries (dir s) + Z.of_nat j) (Some (default POWERFS_DIRTY_FLUSH_RETRY_MS (flush_work (dir s)))))
    (children s) (log s).

Lemma refused_kept s pl grant ret fuel j :
  dirty_create_count (dir s) = Z.of_nat (length (dirty_creates (dir s))) -> dirty_creates (dir s) <> [] ->
  ret <> 0 -> (7 <= fuel)%nat -> dirty_create_retries (dir s) + Z.of_nat (S j) <= POWERFS_DIRTY_FLUSH_MAX_RETRIES ->
  repeat_flush (S j) fuel (flush_answers true ret pl grant) s = Some (after_refusals s (S j)).
Proof.
  intros Hc Hne Hret Hf. induction j as [|j IH]; intros Hj.
  - simpl. rewrite run_flush_fails by done. case_if; [lia|]. done.
  - eapply repeat_flush_S; [apply IH; lia|]. rewrite run_flush_fails by done. simpl dir. simpl dirty_create_retries.
    case_if; [lia|]. unfold after_refusals, settled_dir; simpl. do 3 f_equal. lia.
Qed.

(** ** Theorems *)

(** C23. Every create that was recorded is at exactly one place, in every
    interleaving of creates, unlinks, flushes, lookups and an eviction, and
    whatever the filer answers: on the list of the directory, in the hands of
    one flush, or settled (published, cancelled, dropped, or left out of a
    batch).  As long as no failed flush overwrote the count of entries added
    meanwhile, the count is the length of the list and no flush ever writes or
    leaves out entries behind its array. *)
Theorem creates_accounted (shards : nat) (retries : Z) (es : list event) (s : state) :
  exec es (initial shards retries) = Some s ->
  all recorded_by (log (fst s)) ≡ₚ
    inos (dirty_creates (dir (fst s))) ++ inos (concat (in_flight <$> snd s)) ++ all settled_by (log (fst s)) /\
  (CountOverwritten ∉ log (fst s) ->
   dirty_create_count (dir (fst s)) = Z.of_nat (length (dirty_creates (dir (fst s)))) /\
   Forall counted (snd s) /\ all unsent_by (log (fst s)) = []).
Proof. intros H. apply create_exec_inv in H as [H1 H2 _]; [by split|apply create_initial_inv]. Qed.

(** C24. A create on the list is not forgotten: in every interleaving without
    such an overwritten count, while the list is not empty the flush work is
    pending, or some thread is about to flush or to queue it, or the directory
    is being evicted. *)
Theorem flush_on_its_way (shards : nat) (retries : Z) (es : list event) (s : state) :
  exec es (initial shards retries) = Some s -> CountOverwritten ∉ log (fst s) ->
  is_dir (dir (fst s)) = true -> dirty_creates (dir (fst s)) <> [] ->
  is_Some (flush_work (dir (fst s))) \/ Exists (fun t => about_to t || evicting t = true) (snd s).
Proof. intros H. apply create_exec_inv in H as [_ _ H]; [done|apply create_initial_inv]. Qed.

(** No inode number is handed out twice: in every interleaving of creates
    of any directories, refills racing included, the numbers taken from the
    pools are distinct and come from the batches, if the batches of the filer
    are disjoint half-open ranges. *)
Theorem inodes_distinct (shards : nat) (retries : Z) (es : list event) (s : state) :
  exec es (initial shards retries) = Some s -> batches_ok (all refilled_by (log (fst s))) ->
  NoDup (all taken_by (log (fst s))) /\
  forall x, x ∈ all taken_by (log (fst s)) -> exists r, r ∈ all refilled_by (log (fst s)) /\ in_range x r.
Proof.
  intros H Hb. apply exec_pools_some in H as Hs; [|by eexists]. destruct Hs as [ps Hps].
  by destruct (exec_pools_ok _ _ _ (initial_pools_ok shards retries) H Hb ps Hps).
Qed.

(** A flush that runs alone ends, and when the filer accepts the batch it
    has sent exactly the creates of the list in their order, the list is empty,
    no flush is in flight, and the inode of every published create has its
    placement and has given up its local capability or holds a token of the
    filer. *)
Theorem flush_publishes (s : st) (pl : list Z) (grant : Z -> bool) (fuel : nat) :
  dirty_create_count (dir s) = Z.of_nat (length (dirty_creates (dir s))) -> dirty_creates (dir s) <> [] ->
  (5 + 4 * length (dirty_creates (dir s)) <= fuel)%nat ->
  run_alone fuel (flush_answers true 0 pl grant) s (Flush ByCaller) =
  Some (mk_st (pools s) (settled_dir (dir s) [] 0 0 (flush_work (dir s)))
          (retire_all grant (set_placements (dirty_creates (dir s)) pl) (children s))
          (Published (dirty_creates (dir s)) :: Unsent [] :: log s)).
Proof. intros H1 H2 H3. by apply run_flush_ok. Qed.

(** Flushes that the filer refuses keep the creates, their order and their
    count, and leave the work pending, until the retry counter passes its
    maximum; the flush that passes it drops all of them.  The counter starts
    where the inode that had the memory before left it. *)
Theorem refused_flushes (s : st) (pl : list Z) (grant : Z -> bool) (ret : Z) (fuel j : nat) :
  dirty_create_count (dir s) = Z.of_nat (length (dirty_creates (dir s))) -> dirty_creates (dir s) <> [] ->
  ret <> 0 -> (7 <= fuel)%nat -> (0 < j)%nat ->
  let retries := dirty_create_retries (dir s) + Z.of_nat j in
  (retries <= POWERFS_DIRTY_FLUSH_MAX_RETRIES ->
   repeat_flush j fuel (flush_answers true ret pl grant) s = Some (after_refusals s j)) /\
  (retries = POWERFS_DIRTY_FLUSH_MAX_RETRIES + 1 ->
   exists s', repeat_flush j fuel (flush_answers true ret pl grant) s = Some s' /\
     dirty_creates (dir s') = [] /\ dirty_create_count (dir s') = 0 /\ dirty_create_retries (dir s') = 0 /\
     log s' = Dropped (dirty_creates (dir s)) :: log s).
Proof.
  intros Hc Hne Hret Hf Hj. destruct j as [|j]; [lia|]. split; [by apply refused_kept|]. intros Hr.
  destruct j as [|j].
  - eexists. simpl. rewrite run_flush_fails by done. case_if; [|lia]. done.
  - eexists. split.
    + eapply repeat_flush_S; [apply refused_kept; [done..|lia]|]. rewrite run_flush_fails by done.
      simpl dir. simpl dirty_create_retries. case_if; [|lia]. reflexivity.
    + done.
Qed.

(** ** Runs *)

Module Sample.
Definition snap (c : Z) : powerfs_dirty_create := mk_dc 0 1 0x81a4 0 0 0 0 [c] 0.
Definition recorded (ino c : Z) : powerfs_dirty_create := mk_dc ino 1 0x81a4 0 0 0 0 [c] 0.
Definition excl : answer := AuthCap (Some POWERFS_CAP_AUTH_EXCL).

(** A create by thread [i], with an empty pool and with a filled one. *)
Definition first_create (i : nat) (c : Z) : list event :=
  [Start (CreateAuth 0 (Some (snap c))); Run i excl; Run i Nothing; Run i (Batch 0 100 164); Run i Nothing; Run i Nothing;
   Run i (Bool true); Run i Nothing; Run i (Bool true); Run i Nothing; Run i Nothing].
Definition next_create (i : nat) (c : Z) : list event :=
  [Start (CreateAuth 0 (Some (snap c))); Run i excl; Run i Nothing; Run i (Bool true); Run i Nothing; Run i (Bool true);
   Run i Nothing; Run i Nothing].
(** The head of an [fsync] up to the RPC; its refusal; its success. *)
Definition begin_flush (i : nat) : list event :=
  [Start (SyncFlush ByCaller); Run i Nothing; Run i Nothing; Run i Nothing; Run i (Bool true)].
Definition refused (i : nat) : list event :=
  [Run i (Created (-110) []); Run i Nothing; Run i Nothing; Run i Nothing; Run i Nothing].

(** The facts and the thread places of a run. *)
Definition outcome (es : list event) : option (list fact * dir_info) :=
  match exec es (initial 1 0) with Some s => Some (log (fst s), dir (fst s)) | None => None end.

(** A create while a flush is in flight that the filer refuses: the count
    covers one of the two entries. *)
Example count_overwritten :
  outcome (first_create 0 97 ++ begin_flush 1 ++ next_create 2 98 ++ refused 1) =
  Some ([CountOverwritten; Recorded (recorded 101 98); Taken 101; Recorded (recorded 100 97); Taken 100; Refilled 100 164],
        mk_dir true [recorded 100 97; recorded 101 98] 1 1 false (Some 100) false).
Proof. vm_compute. reflexivity. Qed.

(** The next flush writes the second one behind its array and frees it unsent. *)
Example entry_behind_array :
  outcome (first_create 0 97 ++ begin_flush 1 ++ next_create 2 98 ++ refused 1 ++ begin_flush 3 ++ [Run 3 (Created 0 [0])]) =
  Some ([Published [recorded 100 97]; Unsent [recorded 101 98]; CountOverwritten; Recorded (recorded 101 98); Taken 101;
         Recorded (recorded 100 97); Taken 100; Refilled 100 164],
        mk_dir true [] 0 1 true None false).
Proof. vm_compute. reflexivity. Qed.

(** An unlink while the batch is in flight succeeds, and the filer creates the
    file afterwards. *)
Example unlinked_then_published :
  outcome (first_create 0 97 ++ begin_flush 1 ++
           [Start (Unlink [97]); Run 2 Nothing; Run 2 (Ret (- ENOENT)); Run 1 (Created 0 [0])]) =
  Some ([Published [recorded 100 97]; Unsent []; Unlinked [97]; Recorded (recorded 100 97); Taken 100; Refilled 100 164],
        mk_dir true [] 0 0 true None false).
Proof. vm_compute. reflexivity. Qed.

(** A lookup whose request was answered before the batch arrived and which
    looks at the directory after the flush: the creator's own file is not
    found, although it is published. *)
Example lookup_misses_create :
  outcome (first_create 0 97 ++ begin_flush 1 ++ [Start (LookupRpc [97] false); Run 2 (Ret (- ENOENT))] ++
           [Run 1 (Created 0 [0]); Run 1 Nothing; Run 1 Nothing; Run 1 Nothing; Run 1 Nothing; Run 1 Nothing] ++
           [Run 2 Nothing; Run 2 Nothing]) =
  Some ([NotFound [97]; Published [recorded 100 97]; Unsent []; Recorded (recorded 100 97); Taken 100; Refilled 100 164],
        mk_dir true [] 0 0 false None false).
Proof. vm_compute. reflexivity. Qed.

(** The work that the first create queued stays at its 100 ms when the
    threshold is reached. *)
Definition many (n : nat) : list event := concat ((fun i => next_create (S i) 98) <$> seq 0 n).
Example threshold_waits :
  flush_work ∘ snd <$> outcome (first_create 0 97 ++ many 40) = Some (Some POWERFS_DIRTY_FLUSH_TIMEOUT_MS) /\
  dirty_create_count ∘ snd <$> outcome (first_create 0 97 ++ many 40) = Some 41.
Proof. vm_compute. by split. Qed.

(** An [fsync] of the directory while the work has a batch in flight: the
    count is 0 and it returns at once, the create is not published. *)
Example fsync_skips_batch :
  outcome (first_create 0 97 ++ [Fire; Run 1 Nothing; Run 1 Nothing; Run 1 (Bool true); Start (SyncFlush ByCaller); Run 2 Nothing]) =
  Some ([Recorded (recorded 100 97); Taken 100; Refilled 100 164], mk_dir true [] 0 0 true None true) /\
  (snd <$> exec (first_create 0 97 ++ [Fire; Run 1 Nothing; Run 1 Nothing; Run 1 (Bool true); Start (SyncFlush ByCaller); Run 2 Nothing])
     (initial 1 0)) = Some [Finished; FlushRpc [recorded 100 97] 1 ByWork; Finished].
Proof. vm_compute. by split. Qed.

(** An answer without the end of the range fills the pool with numbers the
    filer never gave. *)
Example refill_without_end :
  pools (pool_refill_store (fst (initial 1 0)) 0 100 0) = Some [mk_pool 100 0 (2 ^ 32 - 100)].
Proof. vm_compute. reflexivity. Qed.

Definition two_creates : list event := first_create 0 97 ++ next_create 1 98.
Definition two_state : st := from_option fst (fst (initial 1 0)) (exec two_creates (initial 1 0)).

Lemma creates_accounted_witness :
  exists s, exec (two_creates ++ begin_flush 2) (initial 1 0) = Some s /\
  all recorded_by (log (fst s)) ≡ₚ
    inos (dirty_creates (dir (fst s))) ++ inos (concat (in_flight <$> snd s)) ++ all settled_by (log (fst s)) /\
  all recorded_by (log (fst s)) = [101; 100].
Proof.
  destruct (exec (two_creates ++ begin_flush 2) (initial 1 0)) as [s|] eqn:E; [|by vm_compute in E].
  exists s. split; [done|]. split; [by apply (creates_accounted 1 0 (two_creates ++ begin_flush 2) s)|].
  vm_compute in E. by injection E as <-.
Defined.

Lemma flush_on_its_way_witness :
  exists s, exec two_creates (initial 1 0) = Some s /\
  (is_Some (flush_work (dir (fst s))) \/ Exists (fun t => about_to t || evicting t = true) (snd s)).
Proof.
  destruct (exec two_creates (initial 1 0)) as [s|] eqn:E; [|by vm_compute in E].
  exists s. split; [done|]. apply (flush_on_its_way 1 0 two_creates s E); vm_compute in E; injection E as <-; simpl.
  - intros H. repeat (apply elem_of_cons in H as [H|H]; [discriminate H|]). by apply elem_of_nil in H.
  - done.
  - done.
Defined.

Lemma inodes_distinct_witness :
  exists s, exec two_creates (initial 1 0) = Some s /\ NoDup (all taken_by (log (fst s))) /\
  all taken_by (log (fst s)) = [101; 100].
Proof.
  destruct (exec two_creates (initial 1 0)) as [s|] eqn:E; [|by vm_compute in E].
  exists s. split; [done|]. split.
  - apply (inodes_distinct 1 0 two_creates s E). vm_compute in E. injection E as <-. split; repeat constructor; simpl; lia.
  - vm_compute in E. by injection E as <-.
Defined.

Lemma flush_publishes_witness :
  exists s, run_alone 13 (flush_answers true 0 [0; 1] (fun _ => true)) two_state (Flush ByCaller) = Some s /\
  log s = Published [recorded 100 97; recorded 101 98] :: Unsent [] :: log two_state /\
  ch_placement <$> children s !! 101 = Some POWERFS_PLACEMENT_FLAT.
Proof.
  eexists. split; [apply (flush_publishes two_state [0; 1] (fun _ => true) 13)|]; [vm_compute..|by vm_compute]; try done; lia.
Defined.

Lemma refused_flushes_witness :
  repeat_flush 2 7 (flush_answers true (-110) [] (fun _ => true)) two_state = Some (after_refusals two_state 2).
Proof. apply (refused_flushes two_state [] (fun _ => true) (-110) 7 2); [by vm_compute|by vm_compute|done|lia|lia|by vm_compute]. Defined.
End Sample.
