(* ===== verification/CreateRpc.v ===== *)
(** * CreateRpc: the RPCs of optimistic creates

    Models [powerfs_net_alloc_inode_batch] and [powerfs_net_batch_create] of
    [src/powerfs_mod/powerfs_net_inode.c] over the codec of [Tlv], with the
    snapshots of [Create] and the result mapping of [NetLease].  The transport
    ([powerfs_net_send_request_shard]) is a class.

    Shown: the filer reads a batch back entry by entry; a response that lists
    inode and placement of the entries gives every entry its placement, and
    the flush of [Create] hands them to the children; the parser of the
    response ends on any bytes; how many entries fit in the response buffer. *)

From S2P Require Import Prelude Tlv NetLease Layout Caps Create CreateProof.

(** ** Interface *)

(** [powerfs_net_send_request_shard]: status and response body, for a message
    type, a shard, a body and the capacity of the response buffer; and the
    allocator. *)
Class ShardTransport (W : Type) := {
  shard_kvmalloc : W -> Z -> bool;
  shard_send : W -> Z -> Z -> buffer -> Z -> Z * buffer * W
}.

(** A response that does not fit its buffer is an error (see [Request]). *)
Class ShardTransportOk (W : Type) `{!ShardTransport W} : Prop := {
  shard_response_ok : forall w msg shard body cap ret resp w',
    0 <= cap -> shard_send w msg shard body cap = (ret, resp, w') ->
    ret < 2 ^ 16 /\ bytes_ok resp /\ blen resp <= cap
}.

Definition POWERFS_NET_FLD_PARENT_INO : Z := 0x01.
Definition POWERFS_NET_FLD_NAME : Z := 0x02.
Definition POWERFS_NET_FLD_UID : Z := 0x04.
Definition POWERFS_NET_FLD_GID : Z := 0x05.
Definition POWERFS_NET_FLD_MTIME : Z := 0x09.
Definition POWERFS_NET_FLD_ATIME : Z := 0x0A.
Definition POWERFS_NET_FLD_COUNT : Z := 0x24.
Definition POWERFS_NET_FLD_ENTRY : Z := 0x25.
Definition POWERFS_NET_FLD_SHARD_ID : Z := 0x70.
Definition POWERFS_NET_FLD_START_INODE : Z := 0xB0.
Definition POWERFS_NET_FLD_END_INODE : Z := 0xB1.
Definition POWERFS_NET_MSG_ALLOC_INODE_BATCH : Z := 0x0033.
Definition POWERFS_NET_MSG_BATCH_CREATE : Z := 0x003f.

(** The constant "powerfs-kernel", sent with its terminator. *)
Definition powerfs_kernel : buffer := [112; 111; 119; 101; 114; 102; 115; 45; 107; 101; 114; 110; 101; 108; 0].

Section rpcs.
Context {W : Type} `{ST : !ShardTransport W}.

(** ** Inode numbers *)

Definition alloc_ops (shard_id count : Z) : list enc_op :=
  [OpU64 POWERFS_NET_FLD_SHARD_ID shard_id; OpU32 POWERFS_NET_FLD_COUNT count;
   OpString POWERFS_NET_FLD_CLIENT_ID powerfs_kernel].

(** [start_ino] and [end_ino] are the caller's variables. *)
Definition powerfs_net_alloc_inode_batch (w : W) (shard_id count start_ino end_ino : Z) : Z * Z * Z * W :=
  let body := request 256 (alloc_ops shard_id count) in
  let '(ret, resp, w) := shard_send w POWERFS_NET_MSG_ALLOC_INODE_BATCH shard_id body 128 in
  match rpc_status ret with
  | Some e => (e, start_ino, end_ino, w)
  | None =>
      if blen resp >? 0
      then let d := powerfs_tlv_dec_init resp (blen resp) in
           let '(r, v, _) := powerfs_tlv_dec_find_u64 d POWERFS_NET_FLD_START_INODE in
           let start_ino := default start_ino v in
           if negb (r =? 0) || (start_ino =? 0) then (- EREMOTEIO, start_ino, end_ino, w)
           else let '(_, v, _) := powerfs_tlv_dec_find_u64 d POWERFS_NET_FLD_END_INODE in
                (0, start_ino, default end_ino v, w)
      else (- EREMOTEIO, start_ino, end_ino, w)
  end.

(** [pool_refill]: the guard, the call and the store. *)
Definition pool_refill (w : W) (s : st) (shard_id : Z) : Z * st * W :=
  if has_pool s shard_id
  then let '(ret, first, last, w) := powerfs_net_alloc_inode_batch w shard_id POWERFS_INODE_POOL_BATCH 0 0 in
       if ret =? 0 then (0, pool_refill_store s shard_id first last, w) else (ret, s, w)
  else (- ENODEV, s, w).

(** ** Batches of creates *)

Definition ENTRY_BUF : Z := 80 + 255 + 1.

Definition entry_ops (dc : powerfs_dirty_create) : list enc_op :=
  [OpU64 POWERFS_NET_FLD_INO (dc_ino dc); OpU64 POWERFS_NET_FLD_PARENT_INO (dc_parent dc);
   OpString POWERFS_NET_FLD_NAME (dc_name dc); OpU32 POWERFS_NET_FLD_MODE (dc_mode dc);
   OpU32 POWERFS_NET_FLD_UID (dc_uid dc); OpU32 POWERFS_NET_FLD_GID (dc_gid dc)] ++
  (if dc_mtime dc =? 0 then [] else [OpU64 POWERFS_NET_FLD_MTIME (dc_mtime dc)]) ++
  (if dc_atime dc =? 0 then [] else [OpU64 POWERFS_NET_FLD_ATIME (dc_atime dc)]).

Definition batch_create_ops (shard_id : Z) (entries : list powerfs_dirty_create) : list enc_op :=
  OpU64 POWERFS_NET_FLD_SHARD_ID shard_id :: OpU32 POWERFS_NET_FLD_COUNT (Z.of_nat (length entries)) ::
  ((fun dc => OpNested POWERFS_NET_FLD_ENTRY (request ENTRY_BUF (entry_ops dc))) <$> entries).

Definition create_body_cap (count : Z) : Z := 64 + count * ENTRY_BUF.
Definition create_resp_cap (count : Z) : Z := 64 + count * 20.

(** The first entry with that inode number gets the placement. *)
Fixpoint assign_placement (entries : list powerfs_dirty_create) (pl : list Z) (pino ptag : Z) : list Z :=
  match entries, pl with
  | dc :: entries, p :: pl => if dc_ino dc =? pino then ptag :: pl else p :: assign_placement entries pl pino ptag
  | _, _ => pl
  end.

(** The loop over the response; [None] means out of fuel.  The results of
    the reads inside an entry are ignored. *)
Fixpoint parse_placements (fuel : nat) (d : tlv_dec) (entries : list powerfs_dirty_create) (pl : list Z)
  : option (list Z) :=
  match fuel with
  | O => None
  | S fuel =>
      if powerfs_tlv_dec_is_empty d then Some pl
      else match powerfs_tlv_dec_next d with
      | (ret, Some (field, flen), d) =>
          if ret <? 0 then Some pl
          else if negb (field =? POWERFS_NET_FLD_ENTRY)
               then parse_placements fuel (snd (powerfs_tlv_dec_skip d flen)) entries pl
               else
                 let edec := powerfs_tlv_dec_init (slice (dec_buf d) (dec_pos d) flen) flen in
                 let '(_, pino, edec) := powerfs_tlv_dec_u64 edec POWERFS_NET_FLD_INO in
                 let '(_, ptag, _) := powerfs_tlv_dec_u8 edec POWERFS_NET_FLD_PLACEMENT in
                 parse_placements fuel (snd (powerfs_tlv_dec_skip d flen)) entries
                   (assign_placement entries pl (default 0 pino) (default 0 ptag))
      | (_, None, _) => Some pl
      end
  end.

(** Result, placements of the entries, number flushed. *)
Definition powerfs_net_batch_create (w : W) (shard_id : Z) (entries : list powerfs_dirty_create) (flushed : Z)
  : Z * list Z * Z * W :=
  let count := Z.of_nat (length entries) in
  let pl := placement_out <$> entries in
  if count =? 0 then (0, pl, 0, w) else
  if negb (shard_kvmalloc w (create_body_cap count)) then (- ENOMEM, pl, flushed, w) else
  if negb (shard_kvmalloc w (create_resp_cap count)) then (- ENOMEM, pl, flushed, w) else
  let body := request (create_body_cap count) (batch_create_ops shard_id entries) in
  let '(ret, resp, w) := shard_send w POWERFS_NET_MSG_BATCH_CREATE shard_id body (create_resp_cap count) in
  match rpc_status ret with
  | Some e => (e, pl, flushed, w)
  | None =>
      if blen resp >? 0
      then let '(_, n, d) := powerfs_tlv_dec_find_u32 (powerfs_tlv_dec_init resp (blen resp)) POWERFS_NET_FLD_COUNT in
           (0, default pl (parse_placements (S (length resp)) d entries pl), default count n, w)
      else (0, pl, count, w)
  end.
End rpcs.

(** ** The request *)

Definition dc_ok (dc : powerfs_dirty_create) : Prop :=
  is_u64 (dc_ino dc) /\ is_u64 (dc_parent dc) /\ is_u32 (dc_mode dc) /\ is_u32 (dc_uid dc) /\ is_u32 (dc_gid dc) /\
  is_u64 (dc_mtime dc) /\ is_u64 (dc_atime dc) /\ bytes_ok (dc_name dc) /\ blen (dc_name dc) <= 255.

Definition times_len (dc : powerfs_dirty_create) : Z :=
  (if dc_mtime dc =? 0 then 0 else 13) + (if dc_atime dc =? 0 then 0 else 13).

(** What the two buffers leave room for: every name without times, names of
    up to 247 bytes with both. *)
Definition name_fits (dc : powerfs_dirty_create) : Prop := blen (dc_name dc) + times_len dc <= 273.

Lemma entry_message_len dc : blen (ops_message (entry_ops dc)) = 58 + blen (dc_name dc) + times_len dc.
Proof.
  unfold entry_ops, times_len. destruct (dc_mtime dc =? 0), (dc_atime dc =? 0); cbn [app];
    autorewrite with pfs; cbn [op_field snd]; autorewrite with pfs; simpl Z.of_nat; lia.
Qed.

Lemma entry_ops_ok dc : dc_ok dc -> Forall op_ok (entry_ops dc).
Proof.
  intros (? & ? & ? & ? & ? & ? & ? & ? & ?). unfold entry_ops.
  destruct (dc_mtime dc =? 0), (dc_atime dc =? 0); cbn [app]; ops_ok.
Qed.

Lemma entry_request dc : dc_ok dc -> name_fits dc -> request ENTRY_BUF (entry_ops dc) = ops_message (entry_ops dc).
Proof.
  intros Hok Hfit. apply request_fit; [by apply entry_ops_ok|]. rewrite entry_message_len.
  unfold name_fits, ENTRY_BUF in *. lia.
Qed.

Lemma batch_ops_ok shard entries :
  is_u64 shard -> Z.of_nat (length entries) < 2 ^ 32 -> Forall dc_ok entries -> Forall name_fits entries ->
  Forall op_ok (batch_create_ops shard entries).
Proof.
  intros Hs Hn Hok Hfit. unfold batch_create_ops. repeat apply Forall_cons_2.
  - cbn [op_ok]. split; [by vm_compute|done].
  - cbn [op_ok]. split; [by vm_compute|unfold is_u32; lia].
  - clear Hn. induction Hok as [|dc l Hdc Hl IH]; [constructor|]. apply Forall_cons in Hfit as [Hf Hfit].
    rewrite fmap_cons. constructor; [|by apply IH]. cbn [op_ok]. rewrite entry_request by done. split_and!.
    + by vm_compute.
    + apply tlv_message_ok, ops_fields_ok. by apply entry_ops_ok.
    + rewrite entry_message_len. unfold name_fits, POWERFS_NET_MAX_TLV in *. lia.
Qed.

Lemma batch_message_len shard entries :
  Forall dc_ok entries -> Forall name_fits entries ->
  blen (ops_message (batch_create_ops shard entries)) <= create_body_cap (Z.of_nat (length entries)).
Proof.
  intros Hok Hfit. unfold batch_create_ops, create_body_cap. autorewrite with pfs. cbn [op_field snd]. autorewrite with pfs.
  simpl Z.of_nat.
  assert (blen (ops_message ((fun dc => OpNested POWERFS_NET_FLD_ENTRY (request ENTRY_BUF (entry_ops dc))) <$> entries))
          <= Z.of_nat (length entries) * ENTRY_BUF); [|lia].
  induction Hok as [|dc l Hdc Hl IH]; [done|]. apply Forall_cons in Hfit as [Hf Hfit]. rewrite fmap_cons.
  autorewrite with pfs. cbn [op_field snd]. rewrite entry_request, entry_message_len by done.
  specialize (IH Hfit). unfold name_fits, ENTRY_BUF in *. simpl length. lia.
Qed.

(** ** The response *)

(** Inode and placement of an entry, as the parser reads them. *)
Definition placed_ops (r : Z * Z) : list enc_op := [OpU64 POWERFS_NET_FLD_INO (fst r); OpU8 POWERFS_NET_FLD_PLACEMENT (snd r)].
Definition placed_entries (rs : list (Z * Z)) : list enc_op :=
  (fun r => OpNested POWERFS_NET_FLD_ENTRY (ops_message (placed_ops r))) <$> rs.
Definition response_ops (n : Z) (rs : list (Z * Z)) : list enc_op := OpU32 POWERFS_NET_FLD_COUNT n :: placed_entries rs.

Definition placed_ok (r : Z * Z) : Prop := is_u64 (fst r) /\ is_u8 (snd r).

Lemma placed_message_len r : blen (ops_message (placed_ops r)) = 19.
Proof. unfold placed_ops. autorewrite with pfs. cbn [op_field snd]. by autorewrite with pfs. Qed.

Lemma placed_ops_ok r : placed_ok r -> Forall op_ok (placed_ops r).
Proof. intros [? ?]. unfold placed_ops. ops_ok. Qed.

Lemma placed_entries_ok rs : Forall placed_ok rs -> Forall op_ok (placed_entries rs).
Proof.
  intros H. unfold placed_entries. apply Forall_fmap. eapply Forall_impl; [exact H|]. intros r Hr. unfold compose; cbn [op_ok].
  split_and!; [by vm_compute| |].
  - apply tlv_message_ok, ops_fields_ok. by apply placed_ops_ok.
  - rewrite placed_message_len. unfold POWERFS_NET_MAX_TLV. lia.
Qed.

Lemma placed_entries_len rs : blen (ops_message (placed_entries rs)) = 24 * Z.of_nat (length rs).
Proof.
  unfold placed_entries. induction rs as [|r rs IH]; [done|]. rewrite fmap_cons. autorewrite with pfs. cbn [op_field snd].
  rewrite IH, placed_message_len. simpl length. lia.
Qed.

Definition assign_all (entries : list powerfs_dirty_create) (pl : list Z) (rs : list (Z * Z)) : list Z :=
  foldl (fun pl r => assign_placement entries pl (fst r) (snd r)) pl rs.

(** One entry of the response. *)
Lemma parse_one fuel pre r post entries pl :
  bytes_ok pre -> bytes_ok post -> placed_ok r ->
  blen (pre ++ tlv_field POWERFS_NET_FLD_ENTRY (ops_message (placed_ops r)) ++ post) < 2 ^ 63 ->
  parse_placements (S fuel) (at_field pre POWERFS_NET_FLD_ENTRY (ops_message (placed_ops r)) post (blen pre)) entries pl =
  parse_placements fuel (at_field pre POWERFS_NET_FLD_ENTRY (ops_message (placed_ops r)) post (blen pre + 24)) entries
    (assign_placement entries pl (fst r) (snd r)).
Proof.
  intros Hpre Hpost Hr Hb. pose proof (blen_nonneg pre); pose proof (blen_nonneg post).
  pose proof (placed_message_len r) as Hlen.
  destruct (dec_next_skip_field pre post POWERFS_NET_FLD_ENTRY Hpre Hpost ltac:(by vm_compute) (ops_message (placed_ops r)))
    as (Hnext & Hslice & Hskip); [apply tlv_message_ok, ops_fields_ok; by apply placed_ops_ok| |done|].
  { rewrite Hlen. unfold POWERFS_NET_MAX_TLV. lia. }
  pose proof (message_reads_back (placed_ops r) (placed_ops_ok r Hr) ltac:(rewrite Hlen; lia)) as Hread.
  rewrite Hlen in Hread. destruct Hread as (d1 & E1 & d2 & E2 & _).
  rewrite Hlen in Hnext, Hslice, Hskip. cbn [parse_placements].
  replace (powerfs_tlv_dec_is_empty _) with false.
  2:{ symmetry. unfold powerfs_tlv_dec_is_empty, at_field; cbn [dec_pos dec_len].
      rewrite !blen_app, blen_tlv_field, Hlen, Z.geb_leb. apply Z.leb_gt. lia. }
  rewrite Hnext. cbn [Z.ltb Z.compare Z.eqb Pos.eqb negb]. rewrite Hslice, E1. rewrite E2. rewrite Hskip. cbn [default snd].
  by replace (blen pre + 5 + 19) with (blen pre + 24) by lia.
Qed.

Lemma parse_all rs fuel pre entries pl :
  bytes_ok pre -> Forall placed_ok rs -> (length rs < fuel)%nat ->
  blen (pre ++ ops_message (placed_entries rs)) < 2 ^ 63 ->
  parse_placements fuel (mk_dec (pre ++ ops_message (placed_entries rs)) (blen (pre ++ ops_message (placed_entries rs))) (blen pre))
    entries pl = Some (assign_all entries pl rs).
Proof.
  intros Hpre Hrs. revert fuel pre pl Hpre. induction Hrs as [|r rs Hr Hrs IH]; intros fuel pre pl Hpre Hf Hb.
  - destruct fuel; [lia|]. cbn [parse_placements placed_entries fmap list_fmap]. unfold ops_message; simpl.
    unfold powerfs_tlv_dec_is_empty; simpl. by rewrite app_nil_r, Z.geb_leb, Z.leb_refl.
  - destruct fuel as [|fuel]; [simpl in Hf; lia|].
    assert (ops_message (placed_entries (r :: rs)) =
      tlv_field POWERFS_NET_FLD_ENTRY (ops_message (placed_ops r)) ++ ops_message (placed_entries rs)) as Hm by done.
    rewrite Hm in Hb |- *. pose proof (tlv_message_ok _ (ops_fields_ok _ (placed_entries_ok rs Hrs))) as Hpost.
    fold (ops_message (placed_entries rs)) in Hpost.
    change (mk_dec (pre ++ tlv_field POWERFS_NET_FLD_ENTRY (ops_message (placed_ops r)) ++ ops_message (placed_entries rs)) _ _)
      with (at_field pre POWERFS_NET_FLD_ENTRY (ops_message (placed_ops r)) (ops_message (placed_entries rs)) (blen pre)).
    rewrite parse_one by done. unfold at_field. simpl assign_all.
    specialize (IH fuel (pre ++ tlv_field POWERFS_NET_FLD_ENTRY (ops_message (placed_ops r)))
      (assign_placement entries pl (fst r) (snd r))).
    rewrite <- app_assoc, blen_pre_field, placed_message_len in IH.
    replace (blen pre + 24) with (blen pre + 5 + 19) by lia. apply IH; [|simpl in Hf; lia|done].
    rewrite bytes_ok_app. split; [done|]. apply tlv_field_ok; [by vm_compute|].
    apply tlv_message_ok, ops_fields_ok. by apply placed_ops_ok.
Qed.

(** The parser stops on any bytes with the fuel it is given. *)
Lemma parse_terminates fuel d entries pl :
  dec_wf d -> (Z.to_nat (dec_len d - dec_pos d) < fuel)%nat ->
  exists pl', parse_placements fuel d entries pl = Some pl'.
Proof.
  revert d pl; induction fuel as [|fuel IH]; intros d pl Hw Hf; [lia|]. cbn [parse_placements].
  destruct (powerfs_tlv_dec_is_empty d) eqn:Ee; [by eexists|].
  rewrite dec_next_spec by done. destruct (dec_pos d + 5 >? dec_len d) eqn:E1; [by eexists|].
  destruct (dec_pos d + 5 + hdr_length d >? dec_len d) eqn:E2; [by eexists|]. bool_to_prop. cbn [Z.ltb Z.compare].
  pose proof Hw as (Hp & Hl & Hs & Hb).
  pose proof (be32_at_range (dec_buf d) (dec_pos d + 1) Hb) as Hr. fold (hdr_length d) in Hr. unfold is_u32 in Hr.
  assert (powerfs_tlv_dec_skip (set_pos d (dec_pos d + 5)) (hdr_length d) = (0, set_pos d (dec_pos d + 5 + hdr_length d))) as ->.
  { unfold powerfs_tlv_dec_skip; cbn [dec_pos dec_len set_pos]. rewrite u64_small by lia. by ltb_false. }
  assert (forall pl, exists pl', parse_placements fuel (set_pos d (dec_pos d + 5 + hdr_length d)) entries pl = Some pl') as H.
  { intros pl0. apply IH; [apply set_pos_wf; [done|lia]|]. cbn [dec_len dec_pos set_pos]. lia. }
  case_if; [apply H|]. destruct (powerfs_tlv_dec_u64 _ _) as [[? ?] ?]. destruct (powerfs_tlv_dec_u8 _ _) as [[? ?] ?]. apply H.
Qed.

(** ** Placements *)

Lemma assign_other a dc b pa p pb t :
  length pa = length a -> dc_ino dc ∉ inos a ->
  assign_placement (a ++ dc :: b) (pa ++ p :: pb) (dc_ino dc) t = pa ++ t :: pb.
Proof.
  revert pa; induction a as [|x a IH]; intros pa Hl Hn; destruct pa as [|q pa]; simplify_eq/=; [by rewrite Z.eqb_refl|].
  apply not_elem_of_cons in Hn as [Hx Hn]. case_if; [congruence|]. by rewrite IH.
Qed.

(** The placements of a complete response end up at their entries. *)
Lemma assign_zip a b pa pb qs :
  NoDup (inos (a ++ b)) -> length pa = length a -> length pb = length b -> length qs = length b ->
  assign_all (a ++ b) (pa ++ pb) (zip (inos b) qs) = pa ++ qs.
Proof.
  revert a pa pb qs; induction b as [|dc b IH]; intros a pa pb qs Hn Hla Hlb Hq; destruct pb, qs as [|q qs]; simplify_eq/=.
  - done.
  - unfold assign_all; simpl. rewrite assign_other; [|done|].
    2:{ rewrite inos_app in Hn. apply NoDup_app in Hn as (_ & Hn & _). intros Hx. apply (Hn _ Hx). left. }
    specialize (IH (a ++ [dc]) (pa ++ [q]) pb qs). rewrite <- !app_assoc in IH. simpl in IH.
    apply IH; rewrite ?length_app; simpl; [done|lia..].
Qed.

Lemma retire_all_other grant dcs m i : i ∉ inos dcs -> retire_all grant dcs m !! i = m !! i.
Proof.
  revert m; induction dcs as [|dc dcs IH]; intros m Hi; [done|]. apply not_elem_of_cons in Hi as [Hi1 Hi2].
  simpl. by rewrite IH, lookup_alter_ne.
Qed.

Lemma inos_set_placements l pl : inos (set_placements l pl) = inos l.
Proof. revert pl; induction l as [|dc l IH]; intros [|p pl]; simpl; [done..|by f_equal]. Qed.

Lemma retire_all_lookup grant dcs pls m dc p :
  NoDup (inos dcs) -> length pls = length dcs -> (dc, p) ∈ zip dcs pls ->
  retire_all grant (set_placements dcs pls) m !! dc_ino dc = retired grant (dc_ino dc) p <$> m !! dc_ino dc.
Proof.
  revert pls m; induction dcs as [|x dcs IH]; intros pls m Hn Hl Hin; destruct pls as [|q pls]; simplify_eq/=; [by apply elem_of_nil in Hin|].
  apply NoDup_cons in Hn as [Hx Hn]. apply elem_of_cons in Hin as [Heq|Hin].
  - simplify_eq. rewrite retire_all_other by by rewrite inos_set_placements. by rewrite lookup_alter_eq.
  - rewrite (IH pls) by done. rewrite lookup_alter_ne; [done|]. intros Heq. apply Hx. rewrite Heq.
    apply list_elem_of_fmap. exists dc. split; [done|]. apply list_elem_of_lookup in Hin as [i Hi].
    apply lookup_zip_Some in Hi as [Hi _]. by eapply list_elem_of_lookup_2.
Qed.

Lemma response_message n rs :
  ops_message (response_ops n rs) = tlv_field POWERFS_NET_FLD_COUNT (le_split 4 n) ++ ops_message (placed_entries rs).
Proof. done. Qed.

Lemma find_count n rs :
  is_u32 n -> Forall placed_ok rs -> blen (ops_message (response_ops n rs)) < 2 ^ 63 ->
  let msg := ops_message (response_ops n rs) in
  powerfs_tlv_dec_find_u32 (powerfs_tlv_dec_init msg (blen msg)) POWERFS_NET_FLD_COUNT = (0, Some n, mk_dec msg (blen msg) 9).
Proof.
  intros Hn Hrs Hb. cbv zeta. pose proof (response_message n rs) as Hm.
  pose proof (tlv_message_ok _ (ops_fields_ok _ (placed_entries_ok rs Hrs))) as Hpost.
  fold (ops_message (placed_entries rs)) in Hpost.
  set (msg := ops_message (response_ops n rs)) in *. clearbody msg. subst msg.
  destruct (dec_next_skip_field [] (ops_message (placed_entries rs)) POWERFS_NET_FLD_COUNT ltac:(constructor) Hpost
    ltac:(by vm_compute) (le_split 4 n)) as (Hnext & _ & _);
    [apply le_split_ok|rewrite blen_le_split; by vm_compute|done|].
  unfold powerfs_tlv_dec_find_u32, find_from_start, find_fuel. cbn [find_loop].
  unfold powerfs_tlv_dec_init, set_pos; cbn [dec_pos dec_len dec_buf].
  replace (0 <? blen _) with true.
  2:{ symmetry. apply Z.ltb_lt. rewrite blen_app, blen_tlv_field. pose proof (blen_nonneg (ops_message (placed_entries rs))).
      pose proof (blen_nonneg (le_split 4 n)). lia. }
  unfold at_field in Hnext. cbn [app] in Hnext. change (blen []) with 0 in Hnext. rewrite Hnext, blen_le_split.
  change ((POWERFS_NET_FLD_COUNT =? POWERFS_NET_FLD_COUNT) && (Z.of_nat 4 =? 4)) with true. cbn [Z.eqb negb dec_pos dec_buf].
  destruct (field_value_split [] POWERFS_NET_FLD_COUNT (le_split 4 n) (ops_message (placed_entries rs)) ltac:(constructor)
    ltac:(by vm_compute)) as (a & Ha & Hok & Hlen). cbn [app] in Ha. change (blen []) with 0 in Hlen.
  rewrite Ha. rewrite <- Hlen at 1. rewrite le32_at_prefix by done. done.
Qed.

(** ** Theorems *)

Section theorems.
Context {W : Type} `{ST : !ShardTransport W}.

Lemma batch_body shard entries :
  is_u64 shard -> Z.of_nat (length entries) < 2 ^ 32 -> Forall dc_ok entries -> Forall name_fits entries ->
  request (create_body_cap (Z.of_nat (length entries))) (batch_create_ops shard entries) =
  ops_message (batch_create_ops shard entries).
Proof.
  intros Hs Hn Hok Hfit. apply request_fit; [by apply batch_ops_ok|]. split; [by apply batch_message_len|].
  unfold create_body_cap, ENTRY_BUF. lia.
Qed.

(** The filer reads a batch of creates back in order: the shard, the
    number of entries and every entry, and in each entry the inode, the parent,
    the name, the mode, the owner and the times that were set; for names of up
    to 247 bytes, and for every name when no time was set. *)
Theorem batch_create_readable (shard : Z) (entries : list powerfs_dirty_create) :
  is_u64 shard -> Z.of_nat (length entries) < 2 ^ 32 -> Forall dc_ok entries -> Forall name_fits entries ->
  readable (request (create_body_cap (Z.of_nat (length entries))) (batch_create_ops shard entries))
    (OpU64 POWERFS_NET_FLD_SHARD_ID shard :: OpU32 POWERFS_NET_FLD_COUNT (Z.of_nat (length entries)) ::
     ((fun dc => OpNested POWERFS_NET_FLD_ENTRY (ops_message (entry_ops dc))) <$> entries)) /\
  Forall (fun dc => readable (ops_message (entry_ops dc)) (entry_ops dc)) entries.
Proof.
  intros Hs Hn Hok Hfit.
  assert (batch_create_ops shard entries =
    OpU64 POWERFS_NET_FLD_SHARD_ID shard :: OpU32 POWERFS_NET_FLD_COUNT (Z.of_nat (length entries)) ::
     ((fun dc => OpNested POWERFS_NET_FLD_ENTRY (ops_message (entry_ops dc))) <$> entries)) as Heq.
  { unfold batch_create_ops. do 2 f_equal. apply list_fmap_ext. intros i dc Hdc.
    rewrite entry_request; [done|by eapply Forall_lookup_1 in Hok|by eapply Forall_lookup_1 in Hfit]. }
  split.
  - rewrite <- Heq. apply request_readable; [by apply batch_ops_ok|].
    split; [by apply batch_message_len|]. unfold create_body_cap, ENTRY_BUF. lia.
  - apply Forall_forall. intros dc Hdc. rewrite Forall_forall in Hok, Hfit. specialize (Hok _ Hdc). specialize (Hfit _ Hdc).
    apply message_reads_back; [by apply entry_ops_ok|]. rewrite entry_message_len. unfold name_fits in Hfit. lia.
Qed.

(** A batch the filer accepts with a complete response. *)
Lemma batch_create_placed w w' shard entries flushed n qs :
  entries <> [] -> shard_kvmalloc w (create_body_cap (Z.of_nat (length entries))) = true ->
  shard_kvmalloc w (create_resp_cap (Z.of_nat (length entries))) = true ->
  shard_send w POWERFS_NET_MSG_BATCH_CREATE shard
    (request (create_body_cap (Z.of_nat (length entries))) (batch_create_ops shard entries))
    (create_resp_cap (Z.of_nat (length entries))) = (0, ops_message (response_ops n (zip (inos entries) qs)), w') ->
  is_u32 n -> Forall dc_ok entries -> Forall is_u8 qs -> length qs = length entries -> NoDup (inos entries) ->
  Z.of_nat (length entries) < 2 ^ 32 ->
  powerfs_net_batch_create w shard entries flushed = (0, qs, n, w').
Proof.
  intros Hne Hm1 Hm2 Hsend Hn Hok Hq Hlen Hnd Hcnt. unfold powerfs_net_batch_create.
  assert (Forall placed_ok (zip (inos entries) qs)) as Hpl.
  { apply Forall_lookup. intros i [x q] Hi. apply lookup_zip_Some in Hi as [Hx Hq'].
    apply list_lookup_fmap_Some in Hx as (dc & -> & Hdc). split; simpl.
    - eapply Forall_lookup_1 in Hok; [|done]. by destruct Hok.
    - by eapply Forall_lookup_1 in Hq. }
  assert (length (zip (inos entries) qs) = length entries) as Hzl.
  { rewrite length_zip_with. unfold inos. rewrite length_fmap. lia. }
  assert (blen (ops_message (response_ops n (zip (inos entries) qs))) = 9 + 24 * Z.of_nat (length entries)) as Hbl.
  { rewrite response_message, blen_app, blen_tlv_field, blen_le_split, placed_entries_len, Hzl. lia. }
  replace (Z.of_nat (length entries) =? 0) with false by (symmetry; apply Z.eqb_neq; destruct entries; simpl; [done|lia]).
  rewrite Hm1, Hm2, Hsend. cbn [negb rpc_status Z.ltb Z.gtb Z.compare]. rewrite Hbl.
  replace (9 + _ >? 0) with true by (symmetry; rewrite Z.gtb_ltb; apply Z.ltb_lt; lia).
  rewrite <- Hbl, find_count by (try done; lia). cbn [default].
  pose proof (parse_all (zip (inos entries) qs) (S (length (ops_message (response_ops n (zip (inos entries) qs)))))
    (tlv_field POWERFS_NET_FLD_COUNT (le_split 4 n)) entries (placement_out <$> entries)) as Hp.
  rewrite <- response_message, blen_tlv_field, blen_le_split in Hp. change (5 + Z.of_nat 4) with 9 in Hp.
  rewrite Hp.
  - cbn [default]. do 3 f_equal. pose proof (assign_zip [] entries [] (placement_out <$> entries) qs) as Hz. simpl in Hz.
    apply Hz; rewrite ?length_fmap; done.
  - apply tlv_field_ok; [by vm_compute|apply le_split_ok].
  - done.
  - rewrite Hzl. unfold blen in Hbl. lia.
  - lia.
Qed.

(** Flush and RPC together: when the filer accepts the batch and reports
    every entry's placement, the call returns these placements in the order of
    the entries, and the flush that runs alone publishes the list and leaves
    every cached child with its own placement and without an unregistered
    capability. *)
Theorem published_with_placements (w w' : W) (s : st) (shard n : Z) (qs : list Z) (grant : Z -> bool) (fuel : nat) :
  let l := dirty_creates (dir s) in
  dirty_create_count (dir s) = Z.of_nat (length l) -> l <> [] -> (5 + 4 * length l <= fuel)%nat ->
  NoDup (inos l) -> Forall dc_ok l -> Forall is_u8 qs -> length qs = length l -> is_u32 n -> Z.of_nat (length l) < 2 ^ 32 ->
  shard_kvmalloc w (create_body_cap (Z.of_nat (length l))) = true ->
  shard_kvmalloc w (create_resp_cap (Z.of_nat (length l))) = true ->
  shard_send w POWERFS_NET_MSG_BATCH_CREATE shard
    (request (create_body_cap (Z.of_nat (length l))) (batch_create_ops shard l))
    (create_resp_cap (Z.of_nat (length l))) = (0, ops_message (response_ops n (zip (inos l) qs)), w') ->
  let '(ret, pl, flushed, _) := powerfs_net_batch_create w shard l 0 in
  ret = 0 /\ pl = qs /\ flushed = n /\
  exists s', run_alone fuel (flush_answers true ret pl grant) s (Flush ByCaller) = Some s' /\
    dirty_creates (dir s') = [] /\ log s' = Published l :: Unsent [] :: log s /\
    forall dc q, (dc, q) ∈ zip l qs ->
      children s' !! dc_ino dc = retired grant (dc_ino dc) q <$> children s !! dc_ino dc.
Proof.
  intros l Hc Hne Hf Hnd Hok Hq Hlen Hn Hcnt Hm1 Hm2 Hsend.
  rewrite (batch_create_placed w w' shard l 0 n qs) by done. split_and!; [done..|].
  eexists. split; [by apply run_flush_ok|]. split_and!; [done..|]. intros dc q Hin. simpl. by apply retire_all_lookup.
Qed.

(** The response buffer: a response that names every entry of the batch
    takes 24 bytes per entry and fits the buffer only up to 13 entries; a
    transport that refuses what does not fit never delivers a longer one. *)
Theorem batch_response_capacity `{!ShardTransportOk W} (w : W) (shard n : Z) (body : buffer) (rs : list (Z * Z)) :
  (blen (ops_message (response_ops n rs)) <= create_resp_cap (Z.of_nat (length rs)) <-> (length rs <= 13)%nat) /\
  forall ret w', shard_send w POWERFS_NET_MSG_BATCH_CREATE shard body (create_resp_cap (Z.of_nat (length rs))) =
    (ret, ops_message (response_ops n rs), w') -> (length rs <= 13)%nat.
Proof.
  assert (blen (ops_message (response_ops n rs)) <= create_resp_cap (Z.of_nat (length rs)) <-> (length rs <= 13)%nat) as H.
  { rewrite response_message, blen_app, blen_tlv_field, blen_le_split, placed_entries_len. unfold create_resp_cap. lia. }
  split; [done|]. intros ret w' Hsend. apply H. apply shard_response_ok in Hsend; [tauto|]. unfold create_resp_cap. lia.
Qed.
End theorems.

(** ** Runs *)

Module Sample.
(** A filer with one answer, refused when it does not fit. *)
Definition world : Type := Z * buffer.
Definition answer (w : world) (cap : Z) : Z * buffer * world :=
  if bool_decide (fst w < 2 ^ 16) && forallb (fun x => (0 <=? x) && (x <? 256)) (snd w) && (blen (snd w) <=? cap)
  then (fst w, snd w, w) else (- E2BIG, [], w).

#[local] Instance transport : ShardTransport world :=
  { shard_kvmalloc := fun _ _ => true; shard_send := fun w _ _ _ cap => answer w cap }.

#[local] Instance transport_ok : ShardTransportOk world.
Proof.
  split. intros w msg shard body cap ret resp w' Hcap. simpl. unfold answer.
  destruct (bool_decide _) eqn:E1; simpl; [|intros [= <- <- <-]; split_and!; [by vm_compute|constructor|done]].
  destruct (forallb _ _) eqn:E2; simpl; [|intros [= <- <- <-]; split_and!; [by vm_compute|constructor|done]].
  case_if; [|intros [= <- <- <-]; split_and!; [by vm_compute|constructor|done]].
  intros [= <- <- <-]. apply bool_decide_eq_true in E1. split_and!; [done| |done].
  apply Forall_forall. intros x Hx. rewrite forallb_forall in E2. apply list_elem_of_In in Hx. specialize (E2 x Hx).
  cbv beta in E2. bool_to_prop. lia.
Defined.

Definition file (ino c : Z) : powerfs_dirty_create := mk_dc ino 1 0x81a4 0 0 0 7 [c; 46; 98] 0.
Definition files : list powerfs_dirty_create := [file 100 97; file 101 98].

Lemma sample_file_ok ino c : is_u64 ino -> is_u8 c -> dc_ok (file ino c) /\ name_fits (file ino c).
Proof.
  intros Hi Hc. unfold is_u8 in Hc. split; [|by vm_compute]. unfold dc_ok, is_u64, is_u32 in *; simpl.
  split_and!; try lia; [|by vm_compute]. unfold bytes_ok; split_forall; lia.
Qed.
Lemma files_ok : Forall dc_ok files.
Proof. unfold files; split_forall; apply sample_file_ok; unfold is_u64, is_u8; lia. Qed.

Lemma batch_create_readable_witness :
  readable (request (create_body_cap 2) (batch_create_ops 3 files))
    (OpU64 POWERFS_NET_FLD_SHARD_ID 3 :: OpU32 POWERFS_NET_FLD_COUNT 2 ::
     ((fun dc => OpNested POWERFS_NET_FLD_ENTRY (ops_message (entry_ops dc))) <$> files)).
Proof.
  apply (batch_create_readable 3 files); [unfold is_u64; lia|by vm_compute|apply files_ok|].
  unfold files; split_forall; apply sample_file_ok; unfold is_u64, is_u8; lia.
Defined.

Definition placed_world : world := (0, ops_message (response_ops 2 [(100, 0); (101, 1)])).
Definition dir_state : st :=
  mk_st None (mk_dir true files 2 0 false None false)
    (<[101 := mk_child 0 false true 1 0 false false false 0]> ∅) [].

Lemma published_with_placements_witness :
  exists s', run_alone 13 (flush_answers true 0 [0; 1] (fun _ => true)) dir_state (Flush ByCaller) = Some s' /\
  children s' !! 101 = Some (mk_child 1 false false 1 0 false false true 0).
Proof.
  pose proof (published_with_placements placed_world placed_world dir_state 3 2 [0; 1] (fun _ => true) 13) as H.
  cbv zeta in H. simpl dirty_creates in H.
  destruct (powerfs_net_batch_create placed_world 3 files 0) as [[[ret pl] flushed] w1].
  destruct H as (-> & -> & _ & s' & Hs & _ & _ & Hch).
  - by vm_compute.
  - done.
  - simpl; lia.
  - unfold files, inos; simpl. repeat constructor; rewrite ?elem_of_cons, ?elem_of_nil; lia.
  - apply files_ok.
  - unfold is_u8; split_forall; lia.
  - done.
  - unfold is_u32; lia.
  - by vm_compute.
  - done.
  - done.
  - by vm_compute.
  - exists s'. split; [done|]. apply (Hch (file 101 98) 1). right; left.
Defined.

(** Fourteen entries are one too many. *)
Lemma batch_response_capacity_witness :
  (length (replicate 13 (1, 0)) <= 13)%nat /\
  ~ (blen (ops_message (response_ops 14 (replicate 14 (1, 0)))) <= create_resp_cap 14).
Proof.
  split.
  - apply (batch_response_capacity (0, ops_message (response_ops 13 (replicate 13 (1, 0)))) 0 13 [] (replicate 13 (1, 0)))
      with (ret := 0) (w' := (0, ops_message (response_ops 13 (replicate 13 (1, 0))))). by vm_compute.
  - by vm_compute.
Defined.

(** Without the end of the range the pool takes over the rest of 2^32. *)
Definition no_end : world := (0, ops_message [OpU64 POWERFS_NET_FLD_START_INODE 100]).
Example refill_no_end :
  let '(ret, s, _) := pool_refill no_end (fst (initial 1 0)) 0 in
  ret = 0 /\ pools s = Some [mk_pool 100 0 (2 ^ 32 - 100)].
Proof. vm_compute. by split. Qed.

(** A name of 253 bytes with both times: the header of the last field is
    written and its value is not; the entry cannot be read to its end. *)
Definition long_name : powerfs_dirty_create := mk_dc 100 1 0x81a4 0 0 5 7 (replicate 253 97) 0.
Example long_name_cut :
  blen (request ENTRY_BUF (entry_ops long_name)) = 329 /\
  let entry := request ENTRY_BUF (entry_ops long_name) in
  fst (fst (powerfs_tlv_dec_next (mk_dec entry (blen entry) 324))) = - EINVAL.
Proof. vm_compute. by split. Qed.
End Sample.
