(* ===== verification/Dir.v ===== *)
(** * Dir: the cached entries of a directory

    Models the list of directory entries of [src/powerfs_mod/powerfs_dir.c]:
    the operations that add, remove, clear and compact entries, the
    invalidation of the lease, and [powerfs_readdir] with the merge of the
    filer's pages, the sweep of entries the filer no longer returns, and the
    emission to the caller; and [powerfs_net_readdir_timeout] of
    [powerfs_net_inode.c] that fetches a page.

    Removed entries stay on the list, marked, so that positions of readers
    stay valid.  [dir_mutex] is dropped between the phases of a readdir:
    threads are places, as in [Create], and a step is one section under
    [dir_mutex], one outside call or one access outside.  Operations that add
    entries hold the directory's [i_rwsem] exclusively and readers hold it
    shared; removals on behalf of other clients hold neither.

    The properties are in [DirProof]. *)

From S2P Require Import Prelude Tlv NetLease Caps Submit CreateRpc.

Definition POWERFS_MAX_NAME_LEN : nat := 255.
Definition READDIR_BUF : nat := 256.
Definition ESHUTDOWN : Z := 108.
Definition S_IFMT : Z := 0xF000.

(** ** State *)

Record powerfs_dir_entry := mk_entry {
  de_ino : Z; de_type : Z; de_name : buffer; de_deleted : bool; de_epoch : Z
}.

(** The fields of [struct powerfs_net_dir_entry] the directory uses. *)
Record powerfs_net_dir_entry := mk_net { ne_ino : Z; ne_name : buffer; ne_mode : Z }.

(** [flag_complete] is the bit [POWERFS_I_COMPLETE] of [i_flags]. *)
Record dir_cache := mk_cache {
  dir_entries : list powerfs_dir_entry; dir_complete : bool; flag_complete : bool;
  dir_lease_expire : Z; dir_lease_epoch : Z; dir_fetch_epoch : Z; i_shared_gen : Z
}.

Definition set_entries (c : dir_cache) (l : list powerfs_dir_entry) : dir_cache :=
  mk_cache l (dir_complete c) (flag_complete c) (dir_lease_expire c) (dir_lease_epoch c) (dir_fetch_epoch c) (i_shared_gen c).
Definition set_complete (c : dir_cache) (b f : bool) (expire : Z) : dir_cache :=
  mk_cache (dir_entries c) b f expire (dir_lease_epoch c) (dir_fetch_epoch c) (i_shared_gen c).
Definition bump_fetch_epoch (c : dir_cache) : dir_cache :=
  mk_cache (dir_entries c) (dir_complete c) (flag_complete c) (dir_lease_expire c) (dir_lease_epoch c)
    (u64 (dir_fetch_epoch c + 1)) (i_shared_gen c).

Definition set_deleted (e : powerfs_dir_entry) (b : bool) : powerfs_dir_entry :=
  mk_entry (de_ino e) (de_type e) (de_name e) b (de_epoch e).
Definition set_epoch (e : powerfs_dir_entry) (n : Z) : powerfs_dir_entry :=
  mk_entry (de_ino e) (de_type e) (de_name e) (de_deleted e) n.

Definition named (name : buffer) (e : powerfs_dir_entry) : bool := bool_decide (de_name e = name).

(** Change of the first entry that satisfies [p]; [None] if there is none. *)
Fixpoint on_first (p : powerfs_dir_entry -> bool) (f : powerfs_dir_entry -> powerfs_dir_entry)
    (l : list powerfs_dir_entry) : option (list powerfs_dir_entry) :=
  match l with
  | [] => None
  | e :: l => if p e then Some (f e :: l)
              else match on_first p f l with Some l' => Some (e :: l') | None => None end
  end.

(** ** Operations on the list *)

Definition dir_has_local_entry (l : list powerfs_dir_entry) (name : buffer) : bool :=
  existsb (fun e => negb (de_deleted e) && named name e) l.

(** The first section of an addition: an entry of that name is reused. *)
Definition add_reuse (c : dir_cache) (ino type : Z) (name : buffer) : option dir_cache :=
  match on_first (named name) (fun e => mk_entry ino type (de_name e) false 0) (dir_entries c) with
  | Some l => Some (set_entries c l)
  | None => None
  end.

(** The second section, after the allocation. *)
Definition add_insert (c : dir_cache) (ino type : Z) (name : buffer) : dir_cache :=
  set_entries c (dir_entries c ++ [mk_entry ino type (take POWERFS_MAX_NAME_LEN name) false 0]).

Definition powerfs_remove_dir_entry (c : dir_cache) (name : buffer) : Z * dir_cache :=
  match on_first (fun e => named name e && negb (de_deleted e)) (fun e => set_deleted e true) (dir_entries c) with
  | Some l => (0, set_entries c l)
  | None => (- ENOENT, c)
  end.

Definition powerfs_clear_dir_entries (c : dir_cache) : dir_cache := set_entries c [].

Definition count_deleted (l : list powerfs_dir_entry) : nat := length (filter (fun e => de_deleted e = true) l).

Definition powerfs_compact_dir_entries (c : dir_cache) : Z * dir_cache :=
  let total := Z.of_nat (length (dir_entries c)) in
  let deleted := Z.of_nat (count_deleted (dir_entries c)) in
  if (deleted <? 64) || (deleted * 2 <? total) then (0, c)
  else (deleted, set_entries c (filter (fun e => de_deleted e = false) (dir_entries c))).

Definition powerfs_invalidate_dir_lease (c : dir_cache) : dir_cache :=
  mk_cache (dir_entries c) false false 0 (u64 (dir_lease_epoch c + 1)) (dir_fetch_epoch c) (s32 (i_shared_gen c + 1)).

(** ** The pages of the filer *)

(** The change of an entry the filer returned again. *)
Definition merge_found (epoch : Z) (ne : powerfs_net_dir_entry) (e : powerfs_dir_entry) : powerfs_dir_entry :=
  if de_deleted e && negb (de_ino e =? ne_ino ne)
  then mk_entry (ne_ino ne) (Z.land (ne_mode ne) S_IFMT) (de_name e) false epoch
  else if negb (de_deleted e) then set_epoch e epoch else e.

Definition merge_entry (epoch : Z) (l : list powerfs_dir_entry) (ne : powerfs_net_dir_entry)
  : option (list powerfs_dir_entry) :=
  on_first (named (ne_name ne)) (merge_found epoch ne) l.

Definition new_entry (epoch : Z) (ne : powerfs_net_dir_entry) : powerfs_dir_entry :=
  mk_entry (ne_ino ne) (Z.land (ne_mode ne) S_IFMT) (take POWERFS_MAX_NAME_LEN (ne_name ne)) false epoch.

(** A page, with [allocs] allocations that succeed before one fails.  The
    last name read is kept for the next page. *)
Fixpoint merge_page (epoch : Z) (allocs : nat) (l : list powerfs_dir_entry) (page : list powerfs_net_dir_entry)
    (last : buffer) : bool * list powerfs_dir_entry * buffer :=
  match page with
  | [] => (true, l, last)
  | ne :: page =>
      let last := take 255 (ne_name ne) in
      match merge_entry epoch l ne with
      | Some l => merge_page epoch allocs l page last
      | None => match allocs with
                | O => (false, l, last)
                | S allocs => merge_page epoch allocs (l ++ [new_entry epoch ne]) page last
                end
      end
  end.

Definition sweep_entry (epoch : Z) (e : powerfs_dir_entry) : powerfs_dir_entry :=
  if de_deleted e then e
  else if de_epoch e =? 0 then e
  else if negb (de_epoch e =? epoch) then set_deleted e true else e.

Definition sweep (epoch : Z) (l : list powerfs_dir_entry) : list powerfs_dir_entry := sweep_entry epoch <$> l.

(** ** Emission *)

Definition DT_UNKNOWN : Z := 0.
Definition DT_DIR : Z := 4.
Definition DT_REG : Z := 8.
Definition DT_LNK : Z := 10.
Definition d_type (type : Z) : Z :=
  if type =? 0x8000 then DT_REG else if type =? 0x4000 then DT_DIR else if type =? 0xA000 then DT_LNK else DT_UNKNOWN.

(** What the caller gets. *)
Definition emitted_entry (e : powerfs_dir_entry) : buffer * Z * Z := (de_name e, de_ino e, d_type (de_type e)).

(** Emission under the lock: the caller's buffer has room for [room] entries;
    [pos] counts down the entries to skip; the second component is [ctx->pos]. *)
Fixpoint emit_locked (l : list powerfs_dir_entry) (pos : nat) (room : nat) (ctx : Z) : list (buffer * Z * Z) * Z :=
  match l with
  | [] => ([], ctx)
  | e :: l =>
      match pos with
      | S pos => emit_locked l pos room ctx
      | O =>
          if de_deleted e then emit_locked l O room (ctx + 1)
          else match room with
               | O => ([], ctx)
               | S room => let '(out, ctx) := emit_locked l O room (ctx + 1) in (emitted_entry e :: out, ctx)
               end
      end
  end.

(** First phase, under the lock: copy of at most [max] entries, the position
    already advanced over the marked ones. *)
Fixpoint copy_entries (l : list powerfs_dir_entry) (pos : nat) (max : nat) (ctx : Z) : list powerfs_dir_entry * Z :=
  match l with
  | [] => ([], ctx)
  | e :: l =>
      match max with
      | O => ([], ctx)
      | S max' =>
          match pos with
          | S pos => copy_entries l pos max ctx
          | O => if de_deleted e then copy_entries l O max (ctx + 1)
                 else let '(buf, ctx) := copy_entries l O max' ctx in (e :: buf, ctx)
          end
      end
  end.

(** Second phase, without the lock. *)
Definition emit_copied (buf : list powerfs_dir_entry) (room : nat) (ctx : Z) : list (buffer * Z * Z) * Z :=
  let out := emitted_entry <$> take room buf in (out, ctx + Z.of_nat (length out)).

(** ** One page from the filer *)

Definition POWERFS_NET_FLD_SIZE : Z := 0x06.
Definition POWERFS_NET_FLD_NLINK : Z := 0x08.
Definition POWERFS_NET_FLD_CTIME : Z := 0x0B.
Definition POWERFS_NET_FLD_LAST_NAME : Z := 0x21.
Definition POWERFS_NET_FLD_HAS_MORE : Z := 0x22.
Definition POWERFS_NET_MSG_READDIR : Z := 0x0018.
Definition READDIR_RESP : Z := 256 * 1024.

(** The whole entry of the response. *)
Record full_entry := mk_full {
  fe_ino : Z; fe_name : buffer; fe_mode : Z; fe_uid : Z; fe_gid : Z; fe_size : Z;
  fe_atime : Z; fe_mtime : Z; fe_ctime : Z; fe_nlink : Z
}.

Section readdir_rpc.
Context `{KT : KernelTime} {W : Type} `{NT : !NetTransport W}.

Definition readdir_ops (dir_ino limit : Z) (last_name : buffer) : list enc_op :=
  [OpU64 POWERFS_NET_FLD_PARENT_INO dir_ino; OpU64 POWERFS_NET_FLD_LIMIT limit] ++
  match last_name with [] => [] | _ => [OpString POWERFS_NET_FLD_LAST_NAME last_name] end.

(** The fields of an entry, in order; one that is missing stays zero. *)
Definition decode_entry (d : tlv_dec) : full_entry :=
  let '(_, ino, d) := powerfs_tlv_dec_u64 d POWERFS_NET_FLD_INO in
  let '(_, name, d) := powerfs_tlv_dec_string d POWERFS_NET_FLD_NAME 256 in
  let '(_, mode, d) := powerfs_tlv_dec_u32 d POWERFS_NET_FLD_MODE in
  let '(_, uid, d) := powerfs_tlv_dec_u32 d POWERFS_NET_FLD_UID in
  let '(_, gid, d) := powerfs_tlv_dec_u32 d POWERFS_NET_FLD_GID in
  let '(_, size, d) := powerfs_tlv_dec_u64 d POWERFS_NET_FLD_SIZE in
  let '(_, atime, d) := powerfs_tlv_dec_u64 d POWERFS_NET_FLD_ATIME in
  let '(_, mtime, d) := powerfs_tlv_dec_u64 d POWERFS_NET_FLD_MTIME in
  let '(_, ctime, d) := powerfs_tlv_dec_u64 d POWERFS_NET_FLD_CTIME in
  let '(_, nlink, _) := powerfs_tlv_dec_u32 d POWERFS_NET_FLD_NLINK in
  mk_full (default 0 ino) (default [] name) (default 0 mode) (default 0 uid) (default 0 gid) (default 0 size)
    (default 0 atime) (default 0 mtime) (default 0 ctime) (default 0 nlink).

(** At most [count] entries; [None] means out of fuel. *)
Fixpoint decode_entries (fuel : nat) (count : nat) (d : tlv_dec) : option (list full_entry) :=
  match fuel with
  | O => None
  | S fuel =>
      match count with
      | O => Some []
      | S count' =>
          if powerfs_tlv_dec_is_empty d then Some []
          else match powerfs_tlv_dec_next d with
          | (ret, Some (field, flen), d) =>
              if ret <? 0 then Some []
              else if negb (field =? POWERFS_NET_FLD_ENTRY)
                   then decode_entries fuel count (snd (powerfs_tlv_dec_skip d flen))
                   else
                     let e := decode_entry (powerfs_tlv_dec_init (slice (dec_buf d) (dec_pos d) flen) flen) in
                     match decode_entries fuel count' (snd (powerfs_tlv_dec_skip d flen)) with
                     | Some es => Some (e :: es)
                     | None => None
                     end
          | (_, None, _) => Some []
          end
      end
  end.

(** Result, entries and [has_more]. *)
Definition powerfs_net_readdir_timeout (w : W) (dir_ino : Z) (last_name : buffer) (limit : Z) (max_entries : nat)
  : Z * list full_entry * bool * W :=
  if negb (net_kvmalloc w READDIR_RESP) then (- ENOMEM, [], false, w) else
  let body := request 512 (readdir_ops dir_ino limit last_name) in
  let '(ret, resp, w) := net_send_request w POWERFS_NET_MSG_READDIR dir_ino body READDIR_RESP in
  match rpc_status ret with
  | Some e => (e, [], false, w)
  | None =>
      if blen resp =? 0 then (0, [], false, w)
      else
        let '(_, count, d) := powerfs_tlv_dec_u32 (powerfs_tlv_dec_init resp (blen resp)) POWERFS_NET_FLD_COUNT in
        let '(_, more, d) := powerfs_tlv_dec_u64 d POWERFS_NET_FLD_HAS_MORE in
        let count := Nat.min (Z.to_nat (default 0 count)) max_entries in
        (0, default [] (decode_entries (S (length resp)) count d), negb (default 0 more =? 0), w)
  end.
End readdir_rpc.

Definition net_entry (e : full_entry) : powerfs_net_dir_entry := mk_net (fe_ino e) (fe_name e) (fe_mode e).

(** ** Readers and writers *)

(** Answers of outside calls: a yes or no, the time, a number of entries or
    allocations, a page. *)
Inductive answer :=
| Nothing
| Bool (b : bool)
| Time (jiffies : Z)
| Room (n : nat)
| Page (ret : Z) (entries : list powerfs_net_dir_entry) (has_more : bool).

(** The places of [powerfs_readdir], with [ctx->pos]; [RdDone] is its result,
    the entries emitted and the position.  The addition has two sections. *)
Inductive thread :=
| RdEnter (ctx : Z)
| RdCompact
| RdDots
| RdLease (ctx : Z)
| RdNet (ctx : Z)
| RdExpire (ctx : Z)
| RdEpoch (ctx : Z)
| RdAlloc (ctx epoch : Z)
| RdPage (ctx epoch : Z) (last : buffer) (pulled : bool)
| RdMerge (ctx epoch : Z) (page : list powerfs_net_dir_entry) (more : bool) (last : buffer)
| RdSweep (ctx epoch : Z)
| RdComplete (ctx : Z)
| RdBuf (ctx : Z)
| RdCopy (ctx : Z)
| RdEmit (ctx : Z) (buf : list powerfs_dir_entry)
| RdFallback (ctx : Z)
| RdDone (ret : Z) (out : list (buffer * Z * Z)) (ctx : Z)
| AddFind (ino type : Z) (name : buffer)
| AddAlloc (ino type : Z) (name : buffer)
| AddInsert (ino type : Z) (name : buffer)
| AddDone (ret : Z).

Section machine.
Context `{KT : KernelTime}.

Definition powerfs_readdir (c : dir_cache) (t : thread) (a : answer) : option (dir_cache * thread) :=
  match t, a with
  | RdEnter ctx, Bool refused =>
      Some (c, if refused then RdDone (- ENOTCONN) [] ctx else if ctx =? 0 then RdCompact else RdLease ctx)
  | RdCompact, Nothing => Some (snd (powerfs_compact_dir_entries c), RdDots)
  | RdDots, Room n => Some (c, if (n <? 2)%nat then RdDone 0 [] (Z.of_nat n) else RdLease 2)
  | RdLease ctx, Time jiffies =>
      Some (c, if dir_complete c && time_before jiffies (dir_lease_expire c) then RdBuf ctx else RdNet ctx)
  | RdNet ctx, Bool connected => Some (c, if connected then RdExpire ctx else RdBuf ctx)
  | RdExpire ctx, Time jiffies =>
      Some (if dir_complete c && time_after jiffies (dir_lease_expire c)
            then set_complete c false (flag_complete c) 0 else c, RdEpoch ctx)
  | RdEpoch ctx, Nothing => Some (bump_fetch_epoch c, RdAlloc ctx (u64 (dir_fetch_epoch c + 1)))
  | RdAlloc ctx epoch, Bool ok => Some (c, if ok then RdPage ctx epoch [] false else RdDone (- ENOMEM) [] ctx)
  | RdPage ctx epoch last pulled, Page ret page more =>
      if ret <? 0
      then if pulled then Some (c, RdSweep ctx epoch)
           else match dir_entries c with
                | _ :: _ => Some (c, RdComplete ctx)
                | [] => Some (c, RdDone (if (ret =? - ETIMEDOUT) || (ret =? - ENOTCONN) || (ret =? - ESHUTDOWN)
                                         then - EAGAIN else ret) [] ctx)
                end
      else Some (c, RdMerge ctx epoch page more last)
  | RdMerge ctx epoch page more last, Room allocs =>
      let '(ok, l, last) := merge_page epoch allocs (dir_entries c) page last in
      Some (set_entries c l,
            if ok then (if more && negb (length page =? 0)%nat then RdPage ctx epoch last true else RdSweep ctx epoch)
            else RdDone (- ENOMEM) [] ctx)
  | RdSweep ctx epoch, Nothing => Some (set_entries c (sweep epoch (dir_entries c)), RdComplete ctx)
  | RdComplete ctx, Time jiffies => Some (set_complete c true true (u64 (jiffies + POWERFS_DIR_LEASE_TTL)), RdBuf ctx)
  | RdBuf ctx, Bool ok => Some (c, if ok then RdCopy ctx else RdFallback ctx)
  | RdCopy ctx, Nothing =>
      let '(buf, ctx) := copy_entries (dir_entries c) (Z.to_nat (ctx - 2)) READDIR_BUF ctx in Some (c, RdEmit ctx buf)
  | RdEmit ctx buf, Room room => let '(out, ctx) := emit_copied buf room ctx in Some (c, RdDone 0 out ctx)
  | RdFallback ctx, Room room =>
      let '(out, ctx) := emit_locked (dir_entries c) (Z.to_nat (ctx - 2)) room ctx in Some (c, RdDone 0 out ctx)
  | _, _ => None
  end.

Definition powerfs_add_dir_entry (c : dir_cache) (t : thread) (a : answer) : option (dir_cache * thread) :=
  match t, a with
  | AddFind ino type name, Nothing =>
      match add_reuse c ino type name with
      | Some c => Some (c, AddDone 0)
      | None => Some (c, AddAlloc ino type name)
      end
  | AddAlloc ino type name, Bool ok => Some (c, if ok then AddInsert ino type name else AddDone (- ENOMEM))
  | AddInsert ino type name, Nothing => Some (add_insert c ino type name, AddDone 0)
  | _, _ => None
  end.

Definition tstep (c : dir_cache) (t : thread) (a : answer) : option (dir_cache * thread) :=
  match t with
  | AddFind _ _ _ | AddAlloc _ _ _ | AddInsert _ _ _ => powerfs_add_dir_entry c t a
  | AddDone _ => None
  | _ => powerfs_readdir c t a
  end.

Definition finished (t : thread) : bool := match t with RdDone _ _ _ | AddDone _ => true | _ => false end.
Definition adding (t : thread) : bool := match t with AddFind _ _ _ | AddAlloc _ _ _ | AddInsert _ _ _ => true | _ => false end.

(** [Readdir] and [Add] take [i_rwsem]; the others do not. *)
Inductive event :=
| Run (i : nat) (a : answer)
| Readdir (ctx : Z)
| Add (ino type : Z) (name : buffer)
| Remove (name : buffer)
| Clear
| Invalidate.

Definition state : Type := dir_cache * list thread.

Definition step (s : state) (e : event) : option state :=
  match e with
  | Run i a =>
      match snd s !! i with
      | Some t => match tstep (fst s) t a with Some (c, t') => Some (c, <[i := t']> (snd s)) | None => None end
      | None => None
      end
  | Readdir ctx => if forallb (fun t => negb (adding t)) (snd s) then Some (fst s, snd s ++ [RdEnter ctx]) else None
  | Add ino type name =>
      if forallb finished (snd s) then Some (fst s, snd s ++ [AddFind ino type name]) else None
  | Remove name => Some (snd (powerfs_remove_dir_entry (fst s) name), snd s)
  | Clear => Some (powerfs_clear_dir_entries (fst s), snd s)
  | Invalidate => Some (powerfs_invalidate_dir_lease (fst s), snd s)
  end.

Fixpoint exec (es : list event) (s : state) : option state :=
  match es with
  | [] => Some s
  | e :: es => match step s e with Some s' => exec es s' | None => None end
  end.

(** [powerfs_alloc_inode] resets everything but [dir_fetch_epoch]. *)
Definition new_cache (epoch : Z) : dir_cache := mk_cache [] false false 0 0 epoch 0.
Definition initial (epoch : Z) : state := (new_cache epoch, []).

(** One thread run to its end, nothing interfering. *)
Fixpoint run_alone (fuel : nat) (o : thread -> answer) (c : dir_cache) (t : thread) : option (dir_cache * thread) :=
  if finished t then Some (c, t)
  else match fuel with
       | O => None
       | S fuel => match tstep c t (o t) with Some (c, t) => run_alone fuel o c t | None => None end
       end.
End machine.
