(* ===== verification/DirProof.v ===== *)
(** * DirProof: properties of the cached entries of a directory

    Over [Dir]: names are unique and positions stable in every interleaving;
    a complete fetch gives the filer's listing, merged by name; repeated reads
    emit every entry once; a page is read back as the filer wrote it. *)

From S2P Require Import Prelude Tlv NetLease Caps Submit CreateRpc Dir.

(** ** Names *)

Definition names (l : list powerfs_dir_entry) : list buffer := de_name <$> l.

Lemma names_app a b : names (a ++ b) = names a ++ names b.
Proof. apply fmap_app. Qed.

Lemma on_first_names p f l l' : (forall e, de_name (f e) = de_name e) -> on_first p f l = Some l' -> names l' = names l.
Proof.
  intros Hf. revert l'; induction l as [|e l IH]; intros l' H; simplify_eq/=. repeat case_match; simplify_eq/=.
  - by rewrite Hf.
  - by f_equal; apply IH.
Qed.

Lemma on_first_named name f l : on_first (named name) f l = None <-> name ∉ names l.
Proof.
  induction l as [|e l IH]; simpl; [rewrite elem_of_nil; tauto|]. rewrite not_elem_of_cons. unfold named at 1.
  case_bool_decide as Hn; [split; [done|intros [H _]; congruence]|].
  destruct (on_first (named name) f l); split.
  - done.
  - intros [_ H]. apply IH in H. done.
  - intros _. split; [congruence|by apply IH].
  - done.
Qed.

Lemma merge_found_name epoch ne e : de_name (merge_found epoch ne e) = de_name e.
Proof. unfold merge_found. by repeat case_match. Qed.

Definition short (name : buffer) : Prop := (length name <= 255)%nat.

(** A page keeps the names and appends the new ones. *)
Lemma merge_page_names epoch allocs l page last ok l' last' :
  Forall (fun ne => short (ne_name ne)) page -> merge_page epoch allocs l page last = (ok, l', last') ->
  exists new, names l' = names l ++ new /\ (NoDup (names l) -> NoDup (names l')).
Proof.
  intros Hp. revert allocs l last. induction Hp as [|ne page Hne Hp IH]; intros allocs l last H; simplify_eq/=.
  { exists []. by rewrite app_nil_r. }
  destruct (merge_entry epoch l ne) as [l1|] eqn:E.
  - apply on_first_names in E; [|apply merge_found_name]. destruct (IH _ _ _ H) as (new & Hnew & Hnd).
    exists new. rewrite Hnew, E. split; [done|]. intros Hl. rewrite <- E, <- Hnew. apply Hnd. by rewrite E.
  - destruct allocs as [|allocs]; simplify_eq; [exists []; by rewrite app_nil_r|].
    apply on_first_named in E. destruct (IH _ _ _ H) as (new & Hnew & Hnd).
    rewrite names_app in Hnew, Hnd. simpl in *. unfold short, POWERFS_MAX_NAME_LEN in *.
    rewrite take_ge in Hnew, Hnd by done. exists ([ne_name ne] ++ new). rewrite app_assoc. split; [done|].
    intros Hl. apply Hnd. apply NoDup_app. split_and!; [done| |by apply NoDup_singleton].
    intros x Hx ->%list_elem_of_singleton. done.
Qed.

Lemma sweep_names epoch l : names (sweep epoch l) = names l.
Proof.
  unfold names, sweep. rewrite <- list_fmap_compose. apply list_fmap_ext. intros i e _. unfold compose, sweep_entry.
  by repeat case_match.
Qed.

Lemma compact_names c : sublist (names (dir_entries (snd (powerfs_compact_dir_entries c)))) (names (dir_entries c)).
Proof.
  unfold powerfs_compact_dir_entries. case_match; simpl; [done|]. apply fmap_sublist, sublist_filter.
Qed.

Section machine_proofs.
Context `{KT : KernelTime}.

(** Names given to the directory are at most 255 bytes: VFS checks those of
    callers, the decoder of a page those of the filer. *)
Definition page_ok (a : answer) : Prop :=
  match a with Page _ page _ => Forall (fun ne => short (ne_name ne)) page | _ => True end.
Definition event_ok (e : event) : Prop :=
  match e with Run _ a => page_ok a | Add _ _ name => short name | _ => True end.
Definition thread_ok (t : thread) : Prop :=
  match t with
  | RdMerge _ _ page _ _ => Forall (fun ne => short (ne_name ne)) page
  | AddFind _ _ name | AddAlloc _ _ name | AddInsert _ _ name => short name
  | _ => True
  end.

(** The name an addition has found to be new. *)
Definition fresh_name (t : thread) : option buffer :=
  match t with AddAlloc _ _ name | AddInsert _ _ name => Some name | _ => None end.

Record inv (s : state) : Prop := {
  inv_names : NoDup (names (dir_entries (fst s)));
  inv_threads : Forall thread_ok (snd s);
  inv_excl i j t u : snd s !! i = Some t -> snd s !! j = Some u -> adding t = true -> i <> j -> finished u = true;
  inv_fresh t name : t ∈ snd s -> fresh_name t = Some name -> name ∉ names (dir_entries (fst s))
}.

(** ** One step *)

Ltac step_cases H :=
  unfold tstep, powerfs_readdir, powerfs_add_dir_entry, add_reuse in H; simplify_eq/=; repeat (case_match; simplify_eq/=).

(** Reading keeps the names in their places and appends, compaction aside. *)
Lemma readdir_names c t a c' t' :
  adding t = false -> tstep c t a = Some (c', t') -> thread_ok t -> page_ok a ->
  NoDup (names (dir_entries c)) ->
  NoDup (names (dir_entries c')) /\ thread_ok t' /\ adding t' = false /\ finished t = false /\
  (t <> RdCompact -> names (dir_entries c) `prefix_of` names (dir_entries c')).
Proof.
  intros Ha H Ht Hp Hnd. destruct t; simplify_eq/=; step_cases H; try done.
  all: try match goal with H : merge_page _ _ _ _ _ = _ |- _ =>
    destruct (merge_page_names _ _ _ _ _ _ _ _ Ht H) as (new & -> & Hn); split_and!; [auto|done..|]; intros _; by exists new end.
  all: try match goal with H : dir_entries _ = _ |- _ => by rewrite H end.
  - split_and!; [|done..]. eapply sublist_NoDup; [exact Hnd|apply compact_names].
  - by rewrite sweep_names.
Qed.

Lemma add_names c t a c' t' :
  adding t = true -> tstep c t a = Some (c', t') -> thread_ok t ->
  NoDup (names (dir_entries c)) -> (forall name, fresh_name t = Some name -> name ∉ names (dir_entries c)) ->
  NoDup (names (dir_entries c')) /\ thread_ok t' /\ finished t = false /\ (adding t' = true \/ finished t' = true) /\
  (forall name, fresh_name t' = Some name -> name ∉ names (dir_entries c')) /\
  names (dir_entries c) `prefix_of` names (dir_entries c').
Proof.
  intros Ha H Ht Hnd Hf. destruct t; simplify_eq/=; step_cases H.
  - match goal with H : on_first _ _ _ = Some _ |- _ => apply on_first_names in H; [|done]; rewrite H end. by split_and!; auto.
  - match goal with H : on_first _ _ _ = None |- _ => apply on_first_named in H end. split_and!; auto. intros ? [= <-]. done.
  - by split_and!; auto.
  - by split_and!; auto.
  - rewrite names_app; simpl. unfold short, POWERFS_MAX_NAME_LEN in *. rewrite take_ge by done.
    split_and!; [|done|done|by right|done|by exists [name]]. apply NoDup_app. split_and!; [done| |by apply NoDup_singleton].
    intros x Hx ->%list_elem_of_singleton. by eapply Hf.
Qed.

Lemma dir_run_inv c ts i t a c' t' :
  inv (c, ts) -> ts !! i = Some t -> tstep c t a = Some (c', t') -> page_ok a ->
  inv (c', <[i := t']> ts) /\ (t <> RdCompact -> names (dir_entries c) `prefix_of` names (dir_entries c')).
Proof.
  intros [Hnd Hth Hex Hfr] Hi H Hp. simpl in *.
  assert (thread_ok t) as Ht by by eapply Forall_lookup_1 in Hth.
  assert (i < length ts)%nat as Hlt by by eapply lookup_lt_Some.
  destruct (adding t) eqn:Ea.
  - destruct (add_names _ _ _ _ _ Ea H Ht Hnd) as (H1 & H2 & H3 & H4 & H5 & H6).
    { intros name. apply Hfr. by eapply list_elem_of_lookup_2. }
    split; [|done]. split; simpl.
    + done.
    + by apply Forall_insert.
    + intros j k v u Hj Hk Hv Hne. destruct (decide (i = k)) as [->|].
      * rewrite list_lookup_insert_eq in Hk by done. simplify_eq. rewrite list_lookup_insert_ne in Hj by done.
        by rewrite (Hex _ _ _ _ Hj Hi Hv Hne) in H3.
      * rewrite list_lookup_insert_ne in Hk by done. by eapply (Hex i k).
    + intros u name Hu Hn. apply list_elem_of_lookup in Hu as [j Hj]. destruct (decide (i = j)) as [->|].
      * rewrite list_lookup_insert_eq in Hj by done. simplify_eq. by apply H5.
      * rewrite list_lookup_insert_ne in Hj by done. pose proof (Hex i j t u Hi Hj Ea ltac:(done)). by destruct u.
  - destruct (readdir_names _ _ _ _ _ Ea H Ht Hp Hnd) as (H1 & H2 & H3 & H4 & H5). split; [|done].
    assert (forall j u, ts !! j = Some u -> adding u = false) as Hna.
    { intros j u Hj. destruct (adding u) eqn:E; [|done]. destruct (decide (j = i)) as [->|]; [congruence|].
      by rewrite (Hex j i u t Hj Hi E) in H4. }
    split; simpl.
    + done.
    + by apply Forall_insert.
    + intros j k v u Hj Hk Hv Hne. destruct (decide (i = j)) as [->|].
      * rewrite list_lookup_insert_eq in Hj by done. simplify_eq. congruence.
      * rewrite list_lookup_insert_ne in Hj by done. rewrite (Hna _ _ Hj) in Hv. done.
    + intros u name Hu Hn. apply list_elem_of_lookup in Hu as [j Hj]. destruct (decide (i = j)) as [->|].
      * rewrite list_lookup_insert_eq in Hj by done. injection Hj as <-. by destruct t'.
      * rewrite list_lookup_insert_ne in Hj by done. specialize (Hna _ _ Hj). by destruct u.
Qed.

(** A step that makes entries move: clearing and compaction. *)
Definition moves (s : state) (e : event) : Prop :=
  match e with Clear => True | Run i _ => snd s !! i = Some RdCompact | _ => False end.

Lemma dir_step_inv s e s' :
  inv s -> event_ok e -> step s e = Some s' ->
  inv s' /\ (~ moves s e -> names (dir_entries (fst s)) `prefix_of` names (dir_entries (fst s'))).
Proof.
  intros Hi He H. destruct s as [c ts]. destruct e as [i a|ctx|ino ty name|name| |]; unfold step in H; simpl in H, He.
  - destruct (ts !! i) as [t|] eqn:Et; [|done]. destruct (tstep c t a) as [[c' t']|] eqn:E; [|done]. simplify_eq.
    destruct (dir_run_inv _ _ _ _ _ _ _ Hi Et E He) as [H1 H2]. split; [done|]. simpl. intros Hm. apply H2. congruence.
  - case_match; simplify_eq/=. split; [|done]. destruct Hi as [Hnd Hth Hex Hfr]; simpl in *. rewrite forallb_forall in H0.
    split; simpl; [done|apply Forall_app; split; [done|by constructor]| |].
    + intros i j t u [Ht|[-> Hx]]%lookup_snoc_Some Hu Ha; simplify_eq/=.
      exfalso. destruct Ht as [_ Ht]. apply list_elem_of_lookup_2, list_elem_of_In, H0 in Ht. by rewrite Ha in Ht.
    + intros t name [Ht| ->%list_elem_of_singleton]%elem_of_app; [by apply Hfr|done].
  - case_match; simplify_eq/=. split; [|done]. destruct Hi as [Hnd Hth Hex Hfr]; simpl in *. rewrite forallb_forall in H0.
    split; simpl; [done|apply Forall_app; split; [done|by constructor]| |].
    + intros i j t u [[_ Ht]|[-> <-]]%lookup_snoc_Some [[_ Hu]|[-> <-]]%lookup_snoc_Some Ha Hne; simplify_eq/=.
      * by apply list_elem_of_lookup_2, list_elem_of_In, H0 in Hu.
      * apply list_elem_of_lookup_2, list_elem_of_In, H0 in Ht. by destruct t.
      * by apply list_elem_of_lookup_2, list_elem_of_In, H0 in Hu.
    + intros t n [Ht| ->%list_elem_of_singleton]%elem_of_app; [by apply Hfr|done].
  - simplify_eq/=. unfold powerfs_remove_dir_entry. destruct (on_first _ _ _) as [l|] eqn:E; [|done].
    apply on_first_names in E; [|done]. simpl. rewrite E. split; [|done]. destruct Hi; split; simpl in *; rewrite ?E; done.
  - simplify_eq/=. split; [|tauto]. destruct Hi; split; simpl in *; try done; [constructor|]. intros. by apply not_elem_of_nil.
  - simplify_eq/=. split; [|done]. by destruct Hi.
Qed.

Lemma dir_exec_inv es s s' : inv s -> Forall event_ok es -> exec es s = Some s' -> inv s'.
Proof.
  intros Hi Hes. revert s Hi. induction Hes as [|e es He Hes IH]; intros s Hi H; simplify_eq/=; [done|].
  destruct (step s e) as [s1|] eqn:E; [|done]. eapply IH; [|done]. by eapply dir_step_inv.
Qed.

Lemma dir_initial_inv epoch : inv (initial epoch).
Proof. split; simpl; [constructor|constructor|done|]. intros t name H. by apply elem_of_nil in H. Qed.

(** ** A complete fetch *)

(** The entry of that name. *)
Fixpoint lookup_name (name : buffer) (l : list powerfs_dir_entry) : option powerfs_dir_entry :=
  match l with [] => None | e :: l => if named name e then Some e else lookup_name name l end.
Fixpoint lookup_net (name : buffer) (L : list powerfs_net_dir_entry) : option powerfs_net_dir_entry :=
  match L with [] => None | ne :: L => if bool_decide (ne_name ne = name) then Some ne else lookup_net name L end.

(** What becomes of a name: its old entry, and what the filer lists for it.
    An entry removed here stays hidden while the filer lists the same inode; an
    entry the filer does not list stays only if no fetch has seen it. *)
Definition refetched (epoch : Z) (old : option powerfs_dir_entry) (ne : option powerfs_net_dir_entry)
  : option powerfs_dir_entry :=
  match ne, old with
  | Some ne, None => Some (new_entry epoch ne)
  | Some ne, Some e =>
      Some (if de_deleted e
            then if de_ino e =? ne_ino ne then e
                 else mk_entry (ne_ino ne) (Z.land (ne_mode ne) S_IFMT) (de_name e) false epoch
            else set_epoch e epoch)
  | None, Some e => Some (if de_deleted e || (de_epoch e =? 0) then e else set_deleted e true)
  | None, None => None
  end.

Definition merge1 (epoch : Z) (l : list powerfs_dir_entry) (ne : powerfs_net_dir_entry) : list powerfs_dir_entry :=
  default (l ++ [new_entry epoch ne]) (merge_entry epoch l ne).
Definition merge_all (epoch : Z) (l : list powerfs_dir_entry) (L : list powerfs_net_dir_entry) : list powerfs_dir_entry :=
  foldl (merge1 epoch) l L.

Definition last_name (page : list powerfs_net_dir_entry) (dflt : buffer) : buffer :=
  from_option (fun ne => take 255 (ne_name ne)) dflt (last page).

(** With enough memory a page is merged entry by entry. *)
Lemma merge_page_all epoch page allocs l lst :
  (length page <= allocs)%nat ->
  merge_page epoch allocs l page lst = (true, merge_all epoch l page, last_name page lst).
Proof.
  revert allocs l lst; induction page as [|ne page IH]; intros allocs l lst Ha; [done|].
  assert (forall allocs' l', (length page <= allocs')%nat ->
    merge_page epoch allocs' l' page (take 255 (ne_name ne)) = (true, merge_all epoch l' page, last_name (ne :: page) lst)) as Hgo.
  { intros allocs' l' H. rewrite IH by done. f_equal. unfold last_name. rewrite last_cons. by destruct (last page). }
  cbn [merge_page]. replace (merge_all epoch l (ne :: page)) with (merge_all epoch (merge1 epoch l ne) page) by done.
  unfold merge1. simpl in Ha. destruct (merge_entry epoch l ne); cbn [default]; [apply Hgo; lia|].
  destruct allocs; [lia|]. apply Hgo; lia.
Qed.

Lemma lookup_on_first name f l n :
  (forall e, de_name (f e) = de_name e) ->
  from_option (fun l' => lookup_name n l' = if bool_decide (name = n) then f <$> lookup_name n l else lookup_name n l) True
    (on_first (named name) f l).
Proof.
  intros Hf. induction l as [|e l IH]; [done|]. cbn [on_first]. destruct (named name e) eqn:He; unfold named in He.
  - apply bool_decide_eq_true in He. subst name. cbv [from_option]. cbn [lookup_name]. unfold named. rewrite Hf.
    by repeat case_bool_decide.
  - apply bool_decide_eq_false in He. destruct (on_first (named name) f l) as [l'|]; cbv [from_option] in *; [|done].
    cbn [lookup_name]. rewrite IH. unfold named. repeat case_bool_decide; congruence.
Qed.

Lemma lookup_name_app n a b : lookup_name n (a ++ b) = match lookup_name n a with Some e => Some e | None => lookup_name n b end.
Proof. induction a as [|e a IH]; simpl; [done|]. by destruct (named n e). Qed.

Lemma lookup_name_none n l : lookup_name n l = None <-> n ∉ names l.
Proof.
  induction l as [|e l IH]; simpl; [rewrite elem_of_nil; tauto|]. rewrite not_elem_of_cons. unfold named.
  case_bool_decide; [split; [done|intros []; congruence]|]. rewrite IH. split; [split; [congruence|tauto]|tauto].
Qed.

Lemma lookup_merge1 epoch l ne n :
  short (ne_name ne) ->
  lookup_name n (merge1 epoch l ne) =
  if bool_decide (ne_name ne = n) then Some (from_option (merge_found epoch ne) (new_entry epoch ne) (lookup_name n l))
  else lookup_name n l.
Proof.
  intros Hs. unfold merge1, merge_entry.
  pose proof (lookup_on_first (ne_name ne) (merge_found epoch ne) l n (merge_found_name epoch ne)) as Hl.
  destruct (on_first (named (ne_name ne)) (merge_found epoch ne) l) as [l'|] eqn:E; simpl in *.
  - rewrite Hl. case_bool_decide as Hn; [|done]. destruct (lookup_name n l) as [e|] eqn:El; [done|]. exfalso.
    apply lookup_name_none in El. subst n. rewrite <- (on_first_named _ (merge_found epoch ne)) in El. congruence.
  - apply on_first_named in E. rewrite lookup_name_app. simpl. unfold named, POWERFS_MAX_NAME_LEN; simpl. unfold short in Hs.
    rewrite take_ge by done. case_bool_decide as Hn; [|by destruct (lookup_name n l)]. subst n.
    by apply lookup_name_none in E as ->.
Qed.

Lemma lookup_net_none n L : lookup_net n L = None <-> n ∉ (ne_name <$> L).
Proof.
  induction L as [|ne L IH]; simpl; [rewrite elem_of_nil; tauto|]. rewrite not_elem_of_cons.
  case_bool_decide; [split; [done|intros []; congruence]|]. rewrite IH. split; [split; [congruence|tauto]|tauto].
Qed.

Lemma lookup_merge_all epoch l L n :
  Forall (fun ne => short (ne_name ne)) L -> NoDup (ne_name <$> L) ->
  lookup_name n (merge_all epoch l L) =
  match lookup_net n L with
  | Some ne => Some (from_option (merge_found epoch ne) (new_entry epoch ne) (lookup_name n l))
  | None => lookup_name n l
  end.
Proof.
  intros Hs. revert l. induction Hs as [|ne L Hne HL IH]; intros l Hnd; simpl; [done|].
  apply NoDup_cons in Hnd as [Hx Hnd]. change (merge_all epoch l (ne :: L)) with (merge_all epoch (merge1 epoch l ne) L).
  rewrite IH, lookup_merge1 by done.
  case_bool_decide as Hn; [|done]. subst n. by apply lookup_net_none in Hx as ->.
Qed.

Lemma lookup_sweep epoch l n : lookup_name n (sweep epoch l) = sweep_entry epoch <$> lookup_name n l.
Proof.
  induction l as [|e l IH]; simpl; [done|]. unfold named at 1 2.
  assert (de_name (sweep_entry epoch e) = de_name e) as -> by (unfold sweep_entry; by repeat case_match).
  by case_bool_decide.
Qed.

(** Merge and sweep together, name by name. *)
Lemma refetch_lookup epoch l L n :
  Forall (fun ne => short (ne_name ne)) L -> NoDup (ne_name <$> L) -> epoch <> 0 -> Forall (fun e => de_epoch e <> epoch) l ->
  lookup_name n (sweep epoch (merge_all epoch l L)) = refetched epoch (lookup_name n l) (lookup_net n L).
Proof.
  intros Hs Hnd He Hl. rewrite lookup_sweep, lookup_merge_all by done.
  assert (forall e, lookup_name n l = Some e -> de_epoch e <> epoch) as Hold.
  { clear -Hl. induction Hl as [|x l Hx Hl IH]; simpl; [done|]. intros e. case_match; [by intros [= <-]|apply IH]. }
  unfold refetched. destruct (lookup_net n L) as [ne|], (lookup_name n l) as [e|] eqn:El; simpl; try done.
  - unfold merge_found, sweep_entry. destruct (de_deleted e) eqn:Ed; simpl.
    + destruct (de_ino e =? ne_ino ne); simpl; [by rewrite Ed|]. replace (epoch =? 0) with false by (symmetry; by apply Z.eqb_neq). by rewrite Z.eqb_refl.
    + rewrite Ed. replace (epoch =? 0) with false by (symmetry; by apply Z.eqb_neq). by rewrite Z.eqb_refl.
  - unfold sweep_entry, new_entry; simpl. replace (epoch =? 0) with false by (symmetry; by apply Z.eqb_neq). by rewrite Z.eqb_refl.
  - unfold sweep_entry. destruct (de_deleted e); simpl; [done|]. case_if; [done|].
    replace (de_epoch e =? epoch) with false by (symmetry; apply Z.eqb_neq; auto). done.
Qed.

(** A filer that lists [L], in pages of 256 entries after the last name. *)
Fixpoint after (name : buffer) (L : list powerfs_net_dir_entry) : list powerfs_net_dir_entry :=
  match L with [] => [] | ne :: L => if bool_decide (ne_name ne = name) then L else after name L end.
Definition rest (L : list powerfs_net_dir_entry) (last : buffer) : list powerfs_net_dir_entry :=
  match last with [] => L | _ => after last L end.

Definition listing_answers (L : list powerfs_net_dir_entry) (jiffies : Z) (room : nat) (t : thread) : answer :=
  match t with
  | RdAlloc _ _ => Bool true
  | RdPage _ _ last _ => Page 0 (take 256 (rest L last)) (256 <? length (rest L last))%nat
  | RdMerge _ _ page _ _ => Room (length page)
  | RdComplete _ => Time jiffies
  | RdBuf _ => Bool true
  | RdEmit _ _ => Room room
  | _ => Nothing
  end.

Definition listing_ok (L : list powerfs_net_dir_entry) : Prop :=
  NoDup (ne_name <$> L) /\ Forall (fun ne => short (ne_name ne) /\ ne_name ne <> []) L.

Lemma after_middle A ne R : NoDup (ne_name <$> (A ++ ne :: R)) -> after (ne_name ne) (A ++ ne :: R) = R.
Proof.
  induction A as [|x A IH]; simpl; intros Hnd; [by rewrite bool_decide_true|].
  apply NoDup_cons in Hnd as [Hx Hnd]. rewrite bool_decide_false; [by apply IH|]. intros Heq. apply Hx. rewrite Heq.
  rewrite fmap_app. apply elem_of_app; right; left.
Qed.

Lemma rest_page A page R d :
  listing_ok (A ++ page ++ R) -> page <> [] -> rest (A ++ page ++ R) (last_name page d) = R.
Proof.
  intros [Hnd Hs] Hne. destruct (exists_last Hne) as (page0 & ne & ->).
  unfold last_name. rewrite last_snoc. cbv [from_option].
  rewrite !Forall_app, Forall_singleton in Hs. destruct Hs as (_ & (_ & Hshort & Hnil) & _). unfold short in Hshort.
  rewrite take_ge by done.
  replace (A ++ (page0 ++ [ne]) ++ R) with ((A ++ page0) ++ ne :: R) in * by by rewrite <- !app_assoc.
  unfold rest. destruct (ne_name ne) as [|x nm] eqn:E; [done|]. rewrite <- E. by apply after_middle.
Qed.

Lemma dir_run_alone_step n o c t c' t' :
  finished t = false -> tstep c t (o t) = Some (c', t') -> run_alone (S n) o c t = run_alone n o c' t'.
Proof. intros Hf H. cbn [run_alone]. by rewrite Hf, H. Qed.

Lemma run_alone_done n o c t : finished t = true -> run_alone n o c t = Some (c, t).
Proof. intros H. destruct n; cbn [run_alone]; by rewrite H. Qed.

Lemma set_entries_twice c l l' : set_entries (set_entries c l) l' = set_entries c l'.
Proof. done. Qed.

(** The loop over the pages merges the whole listing. *)
Lemma run_pages k L jiffies room : forall A R c ctx epoch lst pulled,
  (length R <= k)%nat -> L = A ++ R -> listing_ok L -> rest L lst = R ->
  exists j, (j <= 2 + 2 * length R)%nat /\ forall n,
  run_alone (j + n) (listing_answers L jiffies room) c (RdPage ctx epoch lst pulled) =
  run_alone n (listing_answers L jiffies room) (set_entries c (merge_all epoch (dir_entries c) R)) (RdSweep ctx epoch).
Proof.
  induction k as [|k IH]; intros A R c ctx epoch lst pulled Hk HL Hok Hrest.
  - assert (R = []) as -> by (destruct R; simpl in *; [done|lia]). exists 2%nat. split; [simpl; lia|]. intros n. simpl Nat.add.
    erewrite dir_run_alone_step; [|done|cbn [listing_answers]; rewrite Hrest; reflexivity].
    erewrite dir_run_alone_step; [|done|reflexivity]. done.
  - set (page := take 256 R). set (R' := drop 256 R). assert (page ++ R' = R) as HR by apply take_drop.
    assert (forall n, run_alone (S (S n)) (listing_answers L jiffies room) c (RdPage ctx epoch lst pulled) =
      run_alone n (listing_answers L jiffies room) (set_entries c (merge_all epoch (dir_entries c) page))
        (if (256 <? length R)%nat && negb (length page =? 0)%nat then RdPage ctx epoch (last_name page lst) true
         else RdSweep ctx epoch)) as Hpage.
    { intros n. erewrite dir_run_alone_step; [|done|cbn [listing_answers]; rewrite Hrest; reflexivity].
      erewrite dir_run_alone_step; [|done|unfold tstep, powerfs_readdir; cbn [listing_answers]; rewrite merge_page_all by done; reflexivity]. done. }
    destruct (256 <? length R)%nat eqn:Emore; cbn [andb] in Hpage.
    + apply Nat.ltb_lt in Emore.
      assert (length page = 256%nat) as Hlen by (unfold page; rewrite length_take; lia).
      replace (length page =? 0)%nat with false in Hpage by by rewrite Hlen.
      assert (length R' = (length R - 256)%nat) as Hlen' by (unfold R'; by rewrite length_drop).
      destruct (IH (A ++ page) R' (set_entries c (merge_all epoch (dir_entries c) page)) ctx epoch (last_name page lst) true)
        as (j & Hj & Hrun); [lia|by rewrite HL, <- HR, app_assoc|done| |].
      { rewrite HL, <- HR. apply rest_page; [by rewrite HR, <- HL|]. by intros ->. }
      exists (S (S j)). split; [lia|]. intros n. simpl Nat.add. rewrite Hpage. cbn [negb]. rewrite Hrun.
      rewrite set_entries_twice. cbn [dir_entries set_entries]. do 2 f_equal. rewrite <- HR. unfold merge_all. by rewrite foldl_app.
    + apply Nat.ltb_ge in Emore. exists 2%nat. split; [lia|]. intros n. simpl Nat.add. rewrite Hpage.
      unfold page. by rewrite take_ge.
Qed.

(** ** Emission *)

Definition active (l : list powerfs_dir_entry) : list (buffer * Z * Z) :=
  emitted_entry <$> filter (fun e => de_deleted e = false) l.

Lemma active_app a b : active (a ++ b) = active a ++ active b.
Proof. unfold active. by rewrite filter_app, fmap_app. Qed.
Lemma active_cons e l : active (e :: l) = (if de_deleted e then [] else [emitted_entry e]) ++ active l.
Proof.
  unfold active. destruct (de_deleted e) eqn:E; [rewrite filter_cons_False by by rewrite E|rewrite filter_cons_True by done]; done.
Qed.

(** One call in the emission: through the copy or under the lock, and the room
    of the caller's buffer. *)
Definition emit_call (l : list powerfs_dir_entry) (ctx : Z) (call : bool * nat) : list (buffer * Z * Z) * Z :=
  if fst call
  then let '(buf, ctx) := copy_entries l (Z.to_nat (ctx - 2)) READDIR_BUF ctx in emit_copied buf (snd call) ctx
  else emit_locked l (Z.to_nat (ctx - 2)) (snd call) ctx.

(** No entry is passed over: what is emitted is what lies between the old and
    the new position, and the position moves unless it is at the end. *)
Definition emits (l : list powerfs_dir_entry) (ctx : Z) (r : list (buffer * Z * Z) * Z) : Prop :=
  exists k, snd r = ctx + Z.of_nat k /\ (k <= length l)%nat /\ fst r = active (take k l) /\ (l <> [] -> (0 < k)%nat).

Lemma emit_locked_skip l p room ctx : emit_locked l p room ctx = emit_locked (drop p l) 0 room ctx.
Proof. revert p; induction l as [|e l IH]; intros [|p]; simpl; first [done|apply IH]. Qed.

Lemma copy_skip l p max ctx : copy_entries l p (S max) ctx = copy_entries (drop p l) 0 (S max) ctx.
Proof. revert p; induction l as [|e l IH]; intros [|p]; simpl; first [done|apply IH]. Qed.

Lemma emit_locked_spec l room ctx :
  exists k, snd (emit_locked l 0 room ctx) = ctx + Z.of_nat k /\ (k <= length l)%nat /\
    fst (emit_locked l 0 room ctx) = active (take k l) /\ ((0 < room)%nat -> l <> [] -> (0 < k)%nat).
Proof.
  revert room ctx; induction l as [|e l IH]; intros room ctx; simpl; [exists 0%nat; simpl; split_and!; [lia|lia|done|done]|].
  destruct (de_deleted e) eqn:Ed.
  - destruct (IH room (ctx + 1)) as (k & H1 & H2 & H3 & H4). exists (S k). rewrite H1, H3. simpl take. rewrite active_cons, Ed.
    split_and!; [lia|lia|done|lia].
  - destruct room as [|room]; [exists 0%nat; simpl; split_and!; [lia|lia|done|lia]|].
    destruct (IH room (ctx + 1)) as (k & H1 & H2 & H3 & H4). exists (S k).
    destruct (emit_locked l 0 room (ctx + 1)) as [out ctx']. simpl in *. rewrite H1, H3, active_cons, Ed.
    split_and!; [lia|lia|done|lia].
Qed.

(** The copy: [k] entries of the list were looked at, the marked ones of them
    are in the position. *)
Lemma copy_spec l max ctx :
  exists k, (k <= length l)%nat /\ fst (copy_entries l 0 max ctx) = filter (fun e => de_deleted e = false) (take k l) /\
    snd (copy_entries l 0 max ctx) = ctx + Z.of_nat k - Z.of_nat (length (fst (copy_entries l 0 max ctx))) /\
    (length (fst (copy_entries l 0 max ctx)) <= max)%nat /\ ((0 < max)%nat -> l <> [] -> (0 < k)%nat).
Proof.
  revert max ctx; induction l as [|e l IH]; intros max ctx; simpl; [exists 0%nat; simpl; split_and!; [lia|done|lia|lia|done]|].
  destruct max as [|max]; [exists 0%nat; simpl; split_and!; [lia|done|lia|lia|lia]|].
  destruct (de_deleted e) eqn:Ed.
  - destruct (IH (S max) (ctx + 1)) as (k & H1 & H2 & H3 & H4 & H5). exists (S k).
    change (take (S k) (e :: l)) with (e :: take k l). rewrite filter_cons_False by by rewrite Ed.
    split_and!; [lia|done|lia|done|lia].
  - destruct (IH max ctx) as (k & H1 & H2 & H3 & H4 & H5). exists (S k).
    change (take (S k) (e :: l)) with (e :: take k l). rewrite filter_cons_True by done.
    destruct (copy_entries l 0 max ctx) as [buf ctx']. simpl in *. rewrite H2 in *. split_and!; [lia|done| |lia|lia].
    simpl. lia.
Qed.

Definition none_deleted (l : list powerfs_dir_entry) : Prop := Forall (fun e => de_deleted e = false) l.
Definition call_ok (l : list powerfs_dir_entry) (call : bool * nat) : Prop :=
  (0 < snd call)%nat /\ (fst call = false \/ (READDIR_BUF <= snd call)%nat \/ none_deleted l).

Lemma filter_none_deleted l : none_deleted l -> filter (fun e => de_deleted e = false) l = l.
Proof. induction 1 as [|e l He Hl IH]; [done|]. rewrite filter_cons_True by done. by rewrite IH. Qed.

Lemma emit_call_spec l ctx call :
  call_ok l call -> 2 <= ctx -> emits (drop (Z.to_nat (ctx - 2)) l) ctx (emit_call l ctx call).
Proof.
  intros [Hroom Hok] Hctx. destruct call as [[|] room]; unfold emit_call; simpl in *.
  2:{ rewrite emit_locked_skip. destruct (emit_locked_spec (drop (Z.to_nat (ctx - 2)) l) room ctx) as (k & ? & ? & ? & ?).
      exists k. split_and!; auto. }
  unfold READDIR_BUF in *. rewrite copy_skip. set (l0 := drop (Z.to_nat (ctx - 2)) l) in *.
  destruct (copy_spec l0 256 ctx) as (k & H1 & H2 & H3 & H4 & H5).
  destruct (copy_entries l0 0 256 ctx) as [buf ctx']. cbn [fst snd] in *. unfold emit_copied, emits; cbn [fst snd].
  destruct Hok as [?|[Hbig|Hnone]]; [done| |].
  - exists k. rewrite take_ge by lia. rewrite length_fmap. split_and!; [lia|done|by rewrite H2|]. intros Hne. apply H5; [lia|done].
  - assert (none_deleted l0) as Hn0 by by apply Forall_drop.
    assert (none_deleted (take k l0)) as Hn by by apply Forall_take.
    rewrite filter_none_deleted in H2 by done. rewrite H2, length_take in H3.
    exists (Nat.min room k). rewrite length_fmap, H2, take_take, length_take.
    unfold active. rewrite filter_none_deleted by by apply Forall_take.
    split_and!; [lia|lia|done|]. intros Hne. specialize (H5 ltac:(lia) Hne). lia.
Qed.

(** Calls one after the other on a list that does not change. *)
Fixpoint read_all (l : list powerfs_dir_entry) (ctx : Z) (calls : list (bool * nat)) : list (buffer * Z * Z) * Z :=
  match calls with
  | [] => ([], ctx)
  | call :: calls =>
      let '(out, ctx) := emit_call l ctx call in
      let '(out', ctx) := read_all l ctx calls in (out ++ out', ctx)
  end.

Lemma read_all_spec l calls ctx :
  Forall (call_ok l) calls -> 2 <= ctx -> (length (drop (Z.to_nat (ctx - 2)) l) <= length calls)%nat ->
  ctx - 2 <= Z.of_nat (length l) ->
  read_all l ctx calls = (active (drop (Z.to_nat (ctx - 2)) l), 2 + Z.of_nat (length l)).
Proof.
  intros Hc. revert ctx. induction Hc as [|call calls Hcall Hc IH]; intros ctx Hctx Hlen Hle.
  - simpl in *. rewrite length_drop in Hlen. rewrite drop_ge by lia. unfold active; simpl. f_equal. lia.
  - cbn [read_all]. destruct (emit_call_spec l ctx call Hcall Hctx) as (k & H1 & H2 & H3 & H4).
    destruct (emit_call l ctx call) as [out ctx']. cbn [fst snd] in *. subst out ctx'.
    rewrite length_drop in *. simpl in Hlen.
    assert (Z.to_nat (ctx + Z.of_nat k - 2) = (Z.to_nat (ctx - 2) + k)%nat) as Hn by lia.
    rewrite IH; rewrite ?Hn, ?length_drop; [|lia| |lia].
    + f_equal. rewrite <- drop_drop. rewrite <- active_app. by rewrite take_drop.
    + destruct (decide (drop (Z.to_nat (ctx - 2)) l = [])) as [E|E].
      * apply (f_equal length) in E. rewrite length_drop in E. simpl in E. lia.
      * specialize (H4 E). lia.
Qed.
End machine_proofs.

(** ** Pages *)

Lemma dec_u64_wf d f v d' : dec_wf d -> powerfs_tlv_dec_u64 d f = (0, Some v, d') -> dec_wf d'.
Proof.
  intros Hw. pose proof Hw as (Hp & Hl & Hs & Hb). unfold powerfs_tlv_dec_u64, powerfs_tlv_dec_read.
  rewrite sadd_fits by lia. case_if; [done|]. rewrite (u64_small (dec_pos d + 5)) by lia.
  pose proof (be32_at_range (dec_buf d) (dec_pos d + 1) Hb) as Hr. unfold is_u32 in Hr. rewrite u64_small by lia.
  case_if; [done|]. case_if; [done|]. case_if; [done|]. intros [= _ <-]. cbn [dec_pos dec_len dec_buf set_pos] in *.
  apply andb_false_iff in E2 as [E2|E2]; [by vm_compute in E2|]. bool_to_prop.
  apply set_pos_wf; [split_and!; simpl; try done; lia|]. simpl. lia.
Qed.

Lemma dec_string_cap d f s d' cap :
  dec_wf d -> powerfs_tlv_dec_string d f 65536 = (0, Some s, d') -> blen s < cap ->
  powerfs_tlv_dec_string d f cap = (0, Some s, d').
Proof.
  intros Hw. pose proof Hw as (Hp & Hl & Hs & Hb). unfold powerfs_tlv_dec_string.
  destruct (powerfs_tlv_dec_read d f 0) as [[[p n]|] d1] eqn:E; [|done].
  unfold powerfs_tlv_dec_read in E. rewrite sadd_fits in E by lia. case_if_in E; [done|]. rewrite (u64_small (dec_pos d + 5)) in E by lia.
  pose proof (be32_at_range (dec_buf d) (dec_pos d + 1) Hb) as Hr. unfold is_u32 in Hr. rewrite u64_small in E by lia.
  case_if_in E; [done|]. case_if_in E; [done|]. case_if_in E; [done|]. injection E as <- <- <-.
  cbn [dec_pos dec_len dec_buf set_pos]. case_if; [done|]. intros [= <- <-] Hc.
  rewrite blen_slice in Hc by lia. rewrite Z.geb_leb. replace (cap <=? _) with false by (symmetry; apply Z.leb_gt; lia). done.
Qed.

Definition full_ops (e : full_entry) : list enc_op :=
  [OpU64 POWERFS_NET_FLD_INO (fe_ino e); OpString POWERFS_NET_FLD_NAME (fe_name e); OpU32 POWERFS_NET_FLD_MODE (fe_mode e);
   OpU32 POWERFS_NET_FLD_UID (fe_uid e); OpU32 POWERFS_NET_FLD_GID (fe_gid e); OpU64 POWERFS_NET_FLD_SIZE (fe_size e);
   OpU64 POWERFS_NET_FLD_ATIME (fe_atime e); OpU64 POWERFS_NET_FLD_MTIME (fe_mtime e);
   OpU64 POWERFS_NET_FLD_CTIME (fe_ctime e); OpU32 POWERFS_NET_FLD_NLINK (fe_nlink e)].

Definition full_ok (e : full_entry) : Prop :=
  is_u64 (fe_ino e) /\ bytes_ok (fe_name e) /\ blen (fe_name e) <= 255 /\ is_u32 (fe_mode e) /\ is_u32 (fe_uid e) /\
  is_u32 (fe_gid e) /\ is_u64 (fe_size e) /\ is_u64 (fe_atime e) /\ is_u64 (fe_mtime e) /\ is_u64 (fe_ctime e) /\
  is_u32 (fe_nlink e).

Lemma full_ops_ok e : full_ok e -> Forall op_ok (full_ops e).
Proof. intros (? & ? & ? & ? & ? & ? & ? & ? & ? & ? & ?). unfold full_ops. ops_ok. Qed.

Lemma full_message_len e : blen (ops_message (full_ops e)) = 106 + blen (fe_name e).
Proof. unfold full_ops. autorewrite with pfs. cbn [op_field snd]. autorewrite with pfs. simpl Z.of_nat. lia. Qed.

Lemma decode_entry_message e :
  full_ok e -> decode_entry (powerfs_tlv_dec_init (ops_message (full_ops e)) (blen (ops_message (full_ops e)))) = e.
Proof.
  intros Hok. pose proof (full_ops_ok e Hok) as Hops. pose proof (full_message_len e) as Hlen.
  destruct Hok as (_ & _ & Hname & _).
  pose proof (message_reads_back (full_ops e) Hops ltac:(lia)) as Hr.
  assert (dec_wf (powerfs_tlv_dec_init (ops_message (full_ops e)) (blen (ops_message (full_ops e))))) as Hw.
  { apply dec_init_wf; [apply tlv_message_ok, ops_fields_ok; exact Hops|lia]. }
  set (d := powerfs_tlv_dec_init _ _) in *. clearbody d. unfold decode_entry.
  cbn [reads_back full_ops] in Hr. destruct Hr as (d1 & E1 & Hr). rewrite E1. apply dec_u64_wf in E1; [|done].
  destruct Hr as (d2 & E2 & Hr). apply (dec_string_cap _ _ _ _ 256) in E2; [|done|lia]. rewrite E2.
  repeat (destruct Hr as (? & E & Hr); rewrite E; clear E). cbn [default]. by destruct e.
Qed.

Definition entries_ops (es : list full_entry) : list enc_op :=
  (fun e => OpNested POWERFS_NET_FLD_ENTRY (ops_message (full_ops e))) <$> es.
(** The response the client expects. *)
Definition page_ops (more : Z) (es : list full_entry) : list enc_op :=
  OpU32 POWERFS_NET_FLD_COUNT (Z.of_nat (length es)) :: OpU64 POWERFS_NET_FLD_HAS_MORE more :: entries_ops es.

Lemma entries_ops_ok es : Forall full_ok es -> Forall op_ok (entries_ops es).
Proof.
  intros H. unfold entries_ops. apply Forall_fmap. eapply Forall_impl; [exact H|]. intros e He. unfold compose; cbn [op_ok].
  split_and!; [by vm_compute| |].
  - apply tlv_message_ok, ops_fields_ok. by apply full_ops_ok.
  - rewrite full_message_len. destruct He as (_ & _ & He & _). unfold POWERFS_NET_MAX_TLV. lia.
Qed.

Lemma entries_message_len es : Forall full_ok es ->
  Z.of_nat (length es) <= blen (ops_message (entries_ops es)) <= 366 * Z.of_nat (length es).
Proof.
  induction 1 as [|e es He Hes IH]; [done|]. unfold entries_ops in *. rewrite fmap_cons. autorewrite with pfs. cbn [op_field snd].
  rewrite full_message_len. destruct He as (_ & _ & He & _). pose proof (blen_nonneg (fe_name e)). simpl length. lia.
Qed.

Lemma decode_all es fuel count pre :
  bytes_ok pre -> Forall full_ok es -> (length es < fuel)%nat ->
  blen (pre ++ ops_message (entries_ops es)) < 2 ^ 63 ->
  decode_entries fuel count (mk_dec (pre ++ ops_message (entries_ops es)) (blen (pre ++ ops_message (entries_ops es))) (blen pre)) =
  Some (take count es).
Proof.
  intros Hpre Hes. revert fuel count pre Hpre. induction Hes as [|e es He Hes IH]; intros fuel count pre Hpre Hf Hb;
    (destruct fuel as [|fuel]; [simpl in Hf; lia|]); destruct count as [|count]; try done.
  - cbn [decode_entries entries_ops fmap list_fmap]. unfold ops_message; simpl. unfold powerfs_tlv_dec_is_empty; simpl.
    by rewrite app_nil_r, Z.geb_leb, Z.leb_refl.
  - assert (ops_message (entries_ops (e :: es)) =
      tlv_field POWERFS_NET_FLD_ENTRY (ops_message (full_ops e)) ++ ops_message (entries_ops es)) as Hm by done.
    rewrite Hm in Hb |- *. pose proof (tlv_message_ok _ (ops_fields_ok _ (entries_ops_ok es Hes))) as Hpost.
    fold (ops_message (entries_ops es)) in Hpost.
    pose proof (tlv_message_ok _ (ops_fields_ok _ (full_ops_ok e He))) as Hbody. fold (ops_message (full_ops e)) in Hbody.
    pose proof (full_message_len e) as Hlen. pose proof He as (_ & _ & Hname & _).
    pose proof (blen_nonneg pre); pose proof (blen_nonneg (ops_message (entries_ops es))); pose proof (blen_nonneg (fe_name e)).
    destruct (dec_next_skip_field pre (ops_message (entries_ops es)) POWERFS_NET_FLD_ENTRY Hpre Hpost ltac:(by vm_compute)
      (ops_message (full_ops e))) as (Hnext & Hslice & Hskip); [done|unfold POWERFS_NET_MAX_TLV; lia|done|].
    change (mk_dec (pre ++ tlv_field POWERFS_NET_FLD_ENTRY (ops_message (full_ops e)) ++ ops_message (entries_ops es)) _ _)
      with (at_field pre POWERFS_NET_FLD_ENTRY (ops_message (full_ops e)) (ops_message (entries_ops es)) (blen pre)).
    cbn [decode_entries]. replace (powerfs_tlv_dec_is_empty _) with false.
    2:{ symmetry. unfold powerfs_tlv_dec_is_empty, at_field; cbn [dec_pos dec_len].
        rewrite !blen_app, blen_tlv_field, Z.geb_leb. apply Z.leb_gt. lia. }
    rewrite Hnext. cbn [Z.ltb Z.compare Z.eqb Pos.eqb negb]. rewrite Hslice, Hskip, decode_entry_message by done.
    cbn [snd]. specialize (IH fuel count (pre ++ tlv_field POWERFS_NET_FLD_ENTRY (ops_message (full_ops e)))).
    rewrite <- app_assoc, blen_pre_field in IH. unfold at_field. rewrite IH; [done| |simpl in Hf; lia|done].
    rewrite bytes_ok_app. split; [done|]. by apply tlv_field_ok; [by vm_compute|].
Qed.

Lemma readdir_request_ok dir_ino limit last :
  is_u64 dir_ino -> is_u64 limit -> bytes_ok last -> blen last <= 255 ->
  readable (request 512 (readdir_ops dir_ino limit last)) (readdir_ops dir_ino limit last).
Proof.
  intros Hd Hl Hb Hlen. pose proof (blen_nonneg last). apply request_readable; destruct last as [|x last]; unfold readdir_ops; cbn [app].
  - ops_ok.
  - ops_ok.
  - autorewrite with pfs. cbn [op_field snd]. autorewrite with pfs. simpl Z.of_nat. lia.
  - autorewrite with pfs. cbn [op_field snd]. autorewrite with pfs in Hlen |- *. simpl Z.of_nat. lia.
Qed.

Lemma readdir_response `{KT : KernelTime} {W : Type} `{NT : !NetTransport W} (w w' : W) dir_ino last limit max more es :
  net_kvmalloc w READDIR_RESP = true ->
  net_send_request w POWERFS_NET_MSG_READDIR dir_ino (request 512 (readdir_ops dir_ino limit last)) READDIR_RESP =
    (0, ops_message (page_ops more es), w') ->
  Forall full_ok es -> is_u64 more -> Z.of_nat (length es) < 2 ^ 32 ->
  powerfs_net_readdir_timeout w dir_ino last limit max = (0, take max es, negb (more =? 0), w').
Proof.
  intros Hm Hsend Hes Hmore Hn. unfold powerfs_net_readdir_timeout. rewrite Hm, Hsend. cbn [negb rpc_status Z.ltb Z.gtb Z.compare].
  pose proof (entries_message_len es Hes) as Hlen. pose proof (entries_ops_ok es Hes) as Hops.
  set (pre := tlv_field POWERFS_NET_FLD_COUNT (le_split 4 (Z.of_nat (length es))) ++
              tlv_field POWERFS_NET_FLD_HAS_MORE (le_split 8 more)).
  assert (ops_message (page_ops more es) = pre ++ ops_message (entries_ops es)) as Heq.
  { unfold pre. by rewrite <- app_assoc. }
  assert (blen pre = 22) as Hpre by (unfold pre; by rewrite blen_app, !blen_tlv_field, !blen_le_split).
  assert (bytes_ok pre) as Hpok.
  { unfold pre. rewrite bytes_ok_app. split; apply tlv_field_ok; try apply le_split_ok; by vm_compute. }
  assert (blen (ops_message (page_ops more es)) = 22 + blen (ops_message (entries_ops es))) as Hbl by (rewrite Heq, blen_app; lia).
  pose proof (blen_nonneg (ops_message (entries_ops es))).
  replace (blen (ops_message (page_ops more es)) =? 0) with false by (symmetry; apply Z.eqb_neq; lia).
  pose proof (tlv_message_ok _ (ops_fields_ok _ Hops)) as Hpost. fold (ops_message (entries_ops es)) in Hpost.
  set (f1 := tlv_field POWERFS_NET_FLD_COUNT (le_split 4 (Z.of_nat (length es)))) in *.
  set (f2 := tlv_field POWERFS_NET_FLD_HAS_MORE (le_split 8 more)) in *.
  assert (bytes_ok f1 /\ bytes_ok f2) as [Hf1 Hf2] by by apply bytes_ok_app.
  assert (blen f1 = 9) as Hl1 by (unfold f1; by rewrite blen_tlv_field, blen_le_split).
  pose proof (dec_u32_field [] (f2 ++ ops_message (entries_ops es)) POWERFS_NET_FLD_COUNT ltac:(constructor)
    ltac:(by apply bytes_ok_app) ltac:(by vm_compute) (Z.of_nat (length es)) ltac:(unfold is_u32; lia)) as E1.
  pose proof (dec_u64_field f1 (ops_message (entries_ops es)) POWERFS_NET_FLD_HAS_MORE Hf1 Hpost ltac:(by vm_compute) more Hmore) as E2.
  unfold at_field in E1, E2. fold f1 in E1. fold f2 in E2. cbn [app] in E1. change (blen []) with 0 in E1.
  assert (f1 ++ f2 ++ ops_message (entries_ops es) = ops_message (page_ops more es)) as Hm1.
  { rewrite Heq. unfold pre. by rewrite <- app_assoc. }
  rewrite Hm1 in E1, E2. unfold powerfs_tlv_dec_init. rewrite E1 by lia. change (0 + 5 + 4) with 9.
  rewrite Hl1 in E2. rewrite E2 by lia.
  unfold default, id. rewrite Nat2Z.id.
  pose proof (decode_all es (S (length (ops_message (page_ops more es)))) (Nat.min (length es) max) pre Hpok Hes) as Hd.
  rewrite <- Heq, Hpre in Hd. change (9 + 5 + 8) with 22. rewrite Hd.
  - rewrite Nat.min_comm, <- take_take. by rewrite firstn_all.
  - unfold blen in *. lia.
  - lia.
Qed.

(** ** Theorems *)

Section theorems.
Context `{KT : KernelTime}.

(** C25. In every interleaving of readers, additions, removals, clearing and
    invalidations, with any pages of the filer, no name is on the list of the
    directory twice. *)
Theorem names_unique (epoch : Z) (es : list event) (s : state) :
  exec es (initial epoch) = Some s -> Forall event_ok es -> NoDup (names (dir_entries (fst s))).
Proof. intros H He. by apply (dir_exec_inv es (initial epoch) s (dir_initial_inv epoch) He) in H as []. Qed.

(** Positions are stable: in every interleaving, a step that is neither
    the clearing of the list nor the compaction of a reader that starts leaves
    every entry at its position and only appends. *)
Theorem positions_stable (epoch : Z) (es : list event) (e : event) (s s' : state) :
  exec es (initial epoch) = Some s -> Forall event_ok es -> event_ok e -> step s e = Some s' -> ~ moves s e ->
  names (dir_entries (fst s)) `prefix_of` names (dir_entries (fst s')).
Proof.
  intros H Hes He Hstep Hm. apply (dir_exec_inv es (initial epoch) s (dir_initial_inv epoch) Hes) in H.
  by apply (dir_step_inv s e s' H He Hstep).
Qed.

(** C26. A fetch that runs alone against a filer which lists [L] in pages ends
    and makes the directory complete; every name becomes what the merge of its
    old entry with the listing says: listed names are visible, except those
    removed here under the same inode; names not listed are hidden, except
    those no fetch has seen; entries keep their positions. *)
Theorem refetch_merges (c : dir_cache) (L : list powerfs_net_dir_entry) (ctx jiffies : Z) (room fuel : nat) :
  listing_ok L -> 0 <= dir_fetch_epoch c < 2 ^ 64 - 1 ->
  Forall (fun e => 0 <= de_epoch e <= dir_fetch_epoch c) (dir_entries c) ->
  (9 + 2 * length L <= fuel)%nat ->
  exists c' out ctx', run_alone fuel (listing_answers L jiffies room) c (RdEpoch ctx) = Some (c', RdDone 0 out ctx') /\
    dir_complete c' = true /\ names (dir_entries c) `prefix_of` names (dir_entries c') /\
    forall n, lookup_name n (dir_entries c') =
      refetched (dir_fetch_epoch c + 1) (lookup_name n (dir_entries c)) (lookup_net n L).
Proof.
  intros [Hnd Hs] He Hep Hf. set (epoch := dir_fetch_epoch c + 1).
  assert (u64 (dir_fetch_epoch c + 1) = epoch) as Hu by (apply u64_small; lia).
  assert (Forall (fun ne => short (ne_name ne)) L) as Hshort by (eapply Forall_impl; [exact Hs|]; by intros ? [? ?]).
  destruct (run_pages (length L) L jiffies room [] L (bump_fetch_epoch c) ctx epoch [] false) as (j & Hj & Hrun); [done..|].
  set (l' := sweep epoch (merge_all epoch (dir_entries c) L)).
  exists (set_complete (set_entries (bump_fetch_epoch c) l') true true (u64 (jiffies + POWERFS_DIR_LEASE_TTL))).
  destruct (copy_entries l' (Z.to_nat (ctx - 2)) READDIR_BUF ctx) as [buf ctx1] eqn:Ecopy.
  eexists _, _. split_and!; [|done| |].
  - assert (exists n, fuel = S (S (j + S (S (S (S (S n)))))))%nat as [n ->] by (exists (fuel - 7 - j)%nat; lia).
    erewrite dir_run_alone_step; [|done|reflexivity]. rewrite Hu.
    erewrite dir_run_alone_step; [|done|reflexivity]. rewrite Hrun.
    erewrite dir_run_alone_step; [|done|reflexivity].
    do 2 (erewrite dir_run_alone_step; [|done|reflexivity]).
    erewrite dir_run_alone_step; [|done|unfold tstep, powerfs_readdir; cbn [listing_answers dir_entries set_complete set_entries];
      change (sweep epoch (merge_all epoch (dir_entries (bump_fetch_epoch c)) L)) with l'; rewrite Ecopy; reflexivity].
    erewrite dir_run_alone_step; [|done|reflexivity]. by apply run_alone_done.
  - cbn [dir_entries set_complete set_entries]. unfold l'. rewrite sweep_names.
    pose proof (merge_page_all epoch L (length L) (dir_entries c) [] ltac:(done)) as Hm.
    destruct (merge_page_names _ _ _ _ _ _ _ _ Hshort Hm) as (new & -> & _). by exists new.
  - intros n. cbn [dir_entries set_complete set_entries]. apply refetch_lookup; [done..|lia|].
    eapply Forall_impl; [exact Hep|]. intros e Hle. simpl in Hle. lia.
Qed.

(** C27. Reads one after the other on a list that does not change emit every
    visible entry once and in order, and end behind the last, for readers whose
    buffer holds a whole copy, for readers of a list without removed entries,
    and for those served under the lock. *)
Theorem readers_see_all (l : list powerfs_dir_entry) (calls : list (bool * nat)) :
  Forall (call_ok l) calls -> (length l <= length calls)%nat ->
  read_all l 2 calls = (active l, 2 + Z.of_nat (length l)).
Proof. intros Hc Hlen. rewrite read_all_spec; rewrite ?drop_0; try done; lia. Qed.

(** The calls of the theorem are those of the readdir. *)
Lemma emission_of_readdir c ctx buffered room n :
  run_alone (S (S (S n))) (fun t => match t with RdBuf _ => Bool buffered | RdCopy _ => Nothing | _ => Room room end) c (RdBuf ctx) =
  let '(out, ctx) := emit_call (dir_entries c) ctx (buffered, room) in Some (c, RdDone 0 out ctx).
Proof.
  erewrite dir_run_alone_step; [|done|reflexivity]. unfold emit_call. cbn [fst snd]. destruct buffered.
  - destruct (copy_entries (dir_entries c) (Z.to_nat (ctx - 2)) READDIR_BUF ctx) as [buf ctx'] eqn:E.
    erewrite dir_run_alone_step; [|done|unfold tstep, powerfs_readdir; rewrite E; reflexivity].
    erewrite dir_run_alone_step; [|done|reflexivity]. by apply run_alone_done.
  - destruct (emit_locked (dir_entries c) (Z.to_nat (ctx - 2)) room ctx) as [out ctx'] eqn:E.
    erewrite dir_run_alone_step; [|done|unfold tstep, powerfs_readdir; rewrite E; reflexivity]. by apply run_alone_done.
Qed.

(** A page: the filer reads the directory, the limit and the last name
    back from the request, and the client gets from the response the first
    [max] entries with all their fields, and whether there are more. *)
Theorem page_roundtrip {W : Type} `{NT : !NetTransport W} (w w' : W) (dir_ino limit more : Z) (last : buffer) (max : nat)
    (es : list full_entry) :
  is_u64 dir_ino -> is_u64 limit -> bytes_ok last -> blen last <= 255 ->
  net_kvmalloc w READDIR_RESP = true ->
  net_send_request w POWERFS_NET_MSG_READDIR dir_ino (request 512 (readdir_ops dir_ino limit last)) READDIR_RESP =
    (0, ops_message (page_ops more es), w') ->
  Forall full_ok es -> is_u64 more -> Z.of_nat (length es) < 2 ^ 32 ->
  readable (request 512 (readdir_ops dir_ino limit last)) (readdir_ops dir_ino limit last) /\
  powerfs_net_readdir_timeout w dir_ino last limit max = (0, take max es, negb (more =? 0), w').
Proof. intros. split; [by apply readdir_request_ok|by apply readdir_response]. Qed.
End theorems.

(** ** Runs *)

Module Sample.
#[local] Instance time : KernelTime :=
  { HZ := 1000; jiffies_to_msecs := fun j => j; msecs_to_jiffies := fun m => m }.

Definition net (c ino : Z) : powerfs_net_dir_entry := mk_net ino [c] 0x8000.
Definition file (c ino epoch : Z) (deleted : bool) : powerfs_dir_entry := mk_entry ino 0x8000 [c] deleted epoch.

(** A read of thread [i] from its start to the first page. *)
Definition begin_read (i : nat) : list event :=
  [Readdir 0; Run i (Bool false); Run i Nothing; Run i (Room 9); Run i (Time 100); Run i (Bool true); Run i (Time 100);
   Run i Nothing; Run i (Bool true)].
Definition page (i : nat) (es : list powerfs_net_dir_entry) (more : bool) : list event :=
  [Run i (Page 0 es more); Run i (Room 99)].
Definition end_read (i : nat) : list event :=
  [Run i Nothing; Run i (Time 100); Run i (Bool true); Run i Nothing; Run i (Room 99)].
Definition entries_after (es : list event) : option (list powerfs_dir_entry) :=
  match exec es (initial 0) with Some s => Some (dir_entries (fst s)) | None => None end.

(** A fetch that fails at its second page hides the entries of that page; the
    next fetch, which is complete, does not bring them back. *)
Definition partial_fetch : list event :=
  begin_read 0 ++ page 0 [net 97 1; net 98 2] false ++ end_read 0 ++ [Invalidate] ++
  begin_read 1 ++ page 1 [net 97 1] true ++ [Run 1 (Page (- ETIMEDOUT) [] false)] ++ end_read 1.
Example partial_fetch_hides :
  entries_after partial_fetch = Some [file 97 1 2 false; file 98 2 1 true] /\
  entries_after (partial_fetch ++ [Invalidate] ++ begin_read 2 ++ page 2 [net 97 1; net 98 2] false ++ end_read 2) =
  Some [file 97 1 3 false; file 98 2 1 true].
Proof. vm_compute. by split. Qed.

(** Two readers that fetch at the same time: the first to finish hides what
    only the second has marked. *)
Example concurrent_fetch_hides :
  entries_after (begin_read 0 ++ begin_read 1 ++ page 0 [net 97 1] false ++ page 1 [net 97 1] false ++ [Run 0 Nothing; Run 1 Nothing]) =
  Some [file 97 1 2 true].
Proof. vm_compute. reflexivity. Qed.

(** A fetch that fails at once on a list with one local entry: the directory
    counts as complete. *)
Example failed_fetch_complete :
  match exec ([Add 7 0x8000 [120]; Run 0 Nothing; Run 0 (Bool true); Run 0 Nothing] ++ begin_read 1 ++
              [Run 1 (Page (- ETIMEDOUT) [] false); Run 1 (Time 100)]) (initial 0) with
  | Some s => dir_complete (fst s) = true /\ flag_complete (fst s) = true /\ dir_entries (fst s) = [file 120 7 0 false]
  | None => False
  end.
Proof. vm_compute. by split. Qed.

(** A buffer with room for one entry: the removed entry behind it is counted
    before it was passed, and the second entry is never emitted. *)
Definition four : list powerfs_dir_entry := [file 97 1 1 false; file 98 2 1 false; file 120 3 1 true; file 99 4 1 false].
Example reader_skips :
  read_all four 2 (replicate 4 (true, 1%nat)) = ([([97], 1, DT_REG); ([99], 4, DT_REG)], 6) /\
  active four = [([97], 1, DT_REG); ([98], 2, DT_REG); ([99], 4, DT_REG)].
Proof. vm_compute. by split. Qed.

(** The compaction of one reader moves the entries under another. *)
Definition many_removed : dir_cache :=
  mk_cache (replicate 64 (file 120 3 1 true) ++ [file 97 1 1 false; file 98 2 1 false]) true true 1000 0 1 0.
Example compaction_moves :
  fst (emit_call (dir_entries many_removed) 66 (true, 9%nat)) = [([97], 1, DT_REG); ([98], 2, DT_REG)] /\
  fst (emit_call (dir_entries (snd (powerfs_compact_dir_entries many_removed))) 66 (true, 9%nat)) = [].
Proof. vm_compute. by split. Qed.

Definition run_two : list event :=
  begin_read 0 ++ page 0 [net 97 1; net 98 2; net 97 1] false ++ end_read 0 ++
  [Add 7 0x8000 [97]; Run 1 Nothing; Remove [98]].

Lemma run_two_ok : Forall event_ok run_two.
Proof. unfold run_two, begin_read, page, end_read; cbn [app]. repeat constructor; unfold event_ok, page_ok, short; simpl; try lia;
  repeat constructor; simpl; lia. Qed.

Lemma names_unique_witness :
  exists s, exec run_two (initial 0) = Some s /\ NoDup (names (dir_entries (fst s))) /\
  dir_entries (fst s) = [file 97 7 0 false; file 98 2 1 true].
Proof.
  destruct (exec run_two (initial 0)) as [s|] eqn:E; [|by vm_compute in E]. exists s. split; [done|]. split.
  - apply (names_unique 0 run_two s E run_two_ok).
  - vm_compute in E. by injection E as <-.
Defined.

Lemma positions_stable_witness :
  exists s s', exec run_two (initial 0) = Some s /\ step s (Remove [97]) = Some s' /\
  names (dir_entries (fst s)) `prefix_of` names (dir_entries (fst s')).
Proof.
  destruct (exec run_two (initial 0)) as [s|] eqn:E; [|by vm_compute in E].
  exists s, (snd (powerfs_remove_dir_entry (fst s) [97]), snd s). split; [done|]. split; [done|].
  apply (positions_stable 0 run_two (Remove [97]) s); [exact E|apply run_two_ok|done|done|]. by intros [].
Defined.

Definition cached : dir_cache := mk_cache [file 97 1 1 true; file 98 2 1 false; file 99 3 0 false; file 100 4 1 false] true true 0 0 1 0.
Definition listing : list powerfs_net_dir_entry := [net 97 1; net 98 2; net 101 5].

Lemma listing_fine : listing_ok listing.
Proof.
  split.
  - unfold listing; simpl. repeat constructor; rewrite ?elem_of_cons, ?elem_of_nil; intuition discriminate.
  - unfold listing; split_forall; unfold short; simpl; try lia; done.
Qed.

Lemma refetch_merges_witness :
  exists c' out ctx', run_alone 15 (listing_answers listing 100 9) cached (RdEpoch 2) = Some (c', RdDone 0 out ctx') /\
  lookup_name [100] (dir_entries c') = Some (file 100 4 1 true) /\ lookup_name [97] (dir_entries c') = Some (file 97 1 1 true).
Proof.
  destruct (refetch_merges cached listing 2 100 9 15) as (c' & out & ctx' & H1 & _ & _ & H2).
  - apply listing_fine.
  - simpl; lia.
  - unfold cached; simpl; split_forall; simpl; lia.
  - simpl; lia.
  - exists c', out, ctx'. split; [done|]. split; [by rewrite (H2 [100])|by rewrite (H2 [97])].
Defined.

Lemma readers_see_all_witness :
  read_all four 2 (replicate 4 (true, 256%nat)) = ([([97], 1, DT_REG); ([98], 2, DT_REG); ([99], 4, DT_REG)], 6).
Proof.
  apply (readers_see_all four (replicate 4 (true, 256%nat))); [|simpl; lia].
  apply Forall_replicate. split; [simpl; lia|]. right; left. unfold READDIR_BUF; simpl; lia.
Defined.

Definition world : Type := buffer.
#[local] Instance transport : NetTransport world :=
  { net_jiffies := fun _ => 0; net_kvmalloc := fun _ _ => true;
    net_send_to_volume := fun w _ _ _ _ => (0, [], w); net_send_request := fun w _ _ _ _ => (0, w, w) }.
Definition full (c ino : Z) : full_entry := mk_full ino [c] 0x81a4 0 0 5 1 2 3 1.
Definition fulls : list full_entry := [full 97 1; full 98 2].

Lemma full_fine c ino : 0 <= c < 256 -> is_u64 ino -> full_ok (full c ino).
Proof.
  intros Hc Hi. unfold full_ok, is_u64, is_u32 in *; simpl. split_and!; try lia; [|by vm_compute].
  unfold bytes_ok; split_forall; lia.
Qed.

Lemma page_roundtrip_witness :
  powerfs_net_readdir_timeout (ops_message (page_ops 1 fulls)) 9 [97] 256 256 = (0, fulls, true, ops_message (page_ops 1 fulls)).
Proof.
  apply (page_roundtrip (ops_message (page_ops 1 fulls)) (ops_message (page_ops 1 fulls)) 9 256 1 [97] 256 fulls).
  - unfold is_u64; lia.
  - unfold is_u64; lia.
  - unfold bytes_ok; split_forall; lia.
  - by vm_compute.
  - done.
  - done.
  - unfold fulls; split_forall; apply full_fine; unfold is_u64; lia.
  - unfold is_u64; lia.
  - by vm_compute.
Defined.
End Sample.
