(* ===== verification/Volume.v ===== *)
(** * Volume: the data path to the volume servers

    Models [src/powerfs_mod/powerfs_net_data.c] (the pool of volume
    connections and its routing, the needle RPCs, [powerfs_net_read] and
    [powerfs_net_read_ec]) and [powerfs_net_write] of [powerfs_net_inode.c].
    A needle holds one chunk of a file; [powerfs_locate_chunk] of [Layout]
    says which.  Sending on a connection is the class [VolumeTransport]; what
    volume servers do with a request is the class [VolumeServers].

    Shown: a read returns the bytes of the needles of the file and where it
    ends; the read of an erasure-coded file never survives a lost data shard
    and returns uninitialised memory behind a short one;
    a direct write reaches the needle a later read looks at; requests are read
    back by the server. *)

From S2P Require Import Prelude Tlv NetLease EcField Ec EcProof Layout Submit CreateRpc Dir.

Definition POWERFS_NET_SERVER_VOLUME : Z := 2.
Definition POWERFS_NET_SERVER_VOLUME_META : Z := 3.
Definition POWERFS_NET_MAX_VOLUMES : Z := 32.
Definition POWERFS_NET_MSG_WRITE_NEEDLE : Z := 0x0062.
Definition POWERFS_NET_MSG_READ_NEEDLE : Z := 0x0063.
Definition POWERFS_NET_MSG_WRITE_NEEDLE_BLOB : Z := 0x006B.
Definition POWERFS_NET_MSG_FLUSH_NEEDLES : Z := 0x006C.
Definition POWERFS_NET_MSG_RANGE_LEASE : Z := 0x0067.
Definition POWERFS_NET_MSG_VOLUME_STATUS : Z := 0x0068.
Definition POWERFS_NET_FLD_FILE_KEY : Z := 0x94.
Definition POWERFS_NET_FLD_INODE_V2 : Z := 0x97.
Definition ENOLINK : Z := 67.

(** ** The pool *)

(** The fields of [struct powerfs_net_server_conn] that routing looks at. *)
Record vol_conn := mk_conn { vc_addr : buffer; vc_port : Z; vc_type : Z; vc_in_use : bool; vc_connected : bool }.

Record vol_route := mk_route { vr_volume_id : Z; vr_conn_idx : Z; vr_meta_conn_idx : Z }.

(** [volumes] holds the first [volume_count] slots, [vol_routes] the first
    [vol_route_count]. *)
Record vol_pool := mk_pool { stopping : bool; volumes : list vol_conn; vol_routes : list vol_route }.

Definition powerfs_net_get_volume_count (p : vol_pool) : Z := Z.of_nat (length (volumes p)).

(** A connection is the index of its slot. *)
Definition powerfs_net_get_volume_conn (p : vol_pool) (idx : Z) : option nat :=
  if (idx <? 0) || (idx >=? powerfs_net_get_volume_count p) then None
  else match volumes p !! Z.to_nat idx with
       | Some c => if vc_in_use c then Some (Z.to_nat idx) else None
       | None => None
       end.

Definition pfs_is_meta_msg (msg_type : Z) : bool :=
  existsb (Z.eqb msg_type)
    [POWERFS_NET_MSG_ACQUIRE_LEASE; POWERFS_NET_MSG_RELEASE_LEASE; POWERFS_NET_MSG_RENEW_LEASE;
     POWERFS_NET_MSG_RANGE_LEASE; POWERFS_NET_MSG_VOLUME_STATUS].

Definition same_server (ip : buffer) (port type : Z) (c : vol_conn) : bool :=
  vc_in_use c && (vc_type c =? type) && (vc_port c =? port) && bool_decide (vc_addr c = ip).

(** First slot from [i] on that satisfies [f]. *)
Fixpoint find_from (f : vol_conn -> bool) (i : nat) (cs : list vol_conn) : option nat :=
  match cs with
  | [] => None
  | c :: cs => if f c then Some i else find_from f (S i) cs
  end.

Definition pfs_find_vol_conn_by_addr (p : vol_pool) (ip : buffer) (port type : Z) : Z :=
  match find_from (same_server ip port type) 0 (volumes p) with Some i => Z.of_nat i | None => -1 end.

(** [rx_ok]: the receive buffers were allocated.  The address is cut to the
    63 bytes of its array. *)
Definition pfs_ensure_volume_conn (p : vol_pool) (ip : buffer) (port type : Z) (rx_ok : bool) : Z * vol_pool :=
  let idx := pfs_find_vol_conn_by_addr p ip port type in
  if idx >=? 0 then (idx, p)
  else if powerfs_net_get_volume_count p >=? POWERFS_NET_MAX_VOLUMES then (- ENOSPC, p)
  else if negb rx_ok then (- ENOMEM, p)
  else (powerfs_net_get_volume_count p,
        mk_pool (stopping p) (volumes p ++ [mk_conn (take 63 ip) port type true false]) (vol_routes p)).

Fixpoint find_route (volume_id : Z) (rs : list vol_route) : option vol_route :=
  match rs with
  | [] => None
  | r :: rs => if vr_volume_id r =? volume_id then Some r else find_route volume_id rs
  end.

(** Without a route: the first connected one of the type, else the first. *)
Definition fallback_conn (p : vol_pool) (want : Z) : option nat :=
  match find_from (fun c => vc_in_use c && (vc_type c =? want) && vc_connected c) 0 (volumes p) with
  | Some i => Some i
  | None => find_from (fun c => vc_in_use c && (vc_type c =? want)) 0 (volumes p)
  end.

Definition powerfs_net_find_volume_conn (p : vol_pool) (volume_id : Z) (is_meta : bool) : option nat :=
  match find_route volume_id (vol_routes p) with
  | Some r =>
      let idx := if is_meta then vr_meta_conn_idx r else vr_conn_idx r in
      if idx <? 0 then None else powerfs_net_get_volume_conn p idx
  | None => fallback_conn p (if is_meta then POWERFS_NET_SERVER_VOLUME_META else POWERFS_NET_SERVER_VOLUME)
  end.

(** ** Requests *)

(** [vol_alloc w n]: an allocation of [n] bytes succeeds ([n = 0] is the slab
    of requests).  [conn_send] is [powerfs_request_do_send] of a synchronous
    request on a connection: its result, the status of the response and the
    data received.  [conn_submit] is the same with a callback: the result and
    no response.  The rest is [powerfs_flow.c]. *)
Class VolumeTransport (W : Type) := {
  vol_pool_of : W -> vol_pool;
  vol_alloc : W -> Z -> bool;
  conn_send : W -> nat -> Z -> buffer -> buffer -> Z -> Z * Z * buffer * W;
  conn_submit : W -> nat -> Z -> buffer -> buffer -> Z * W;
  conn_wr_slot : W -> nat -> bool * W;
  conn_record_start : W -> nat -> Z -> W;
  conn_record_failed : W -> nat -> W
}.

Section requests.
Context {W : Type} `{VT : !VolumeTransport W}.

(** Status, data received and its length. *)
Definition powerfs_net_send_to_volume (w : W) (vol_idx volume_id msg_type : Z) (body data : buffer)
    (resp_data_cap : Z) : Z * buffer * W :=
  let p := vol_pool_of w in
  if stopping p then (- ENOTCONN, [], w) else
  match if vol_idx >=? 0 then powerfs_net_get_volume_conn p vol_idx
        else powerfs_net_find_volume_conn p volume_id (pfs_is_meta_msg msg_type) with
  | None => (- ENOTCONN, [], w)
  | Some c =>
      if negb (vol_alloc w 0) then (- ENOMEM, [], w) else
      let w := conn_record_start w c (blen body + blen data) in
      let '(ret, status, resp, w) := conn_send w c msg_type body data resp_data_cap in
      if negb (ret =? 0) then
        let w := conn_record_failed w c in
        if ret <? 0 then (ret, resp, w) else (status, resp, w)
      else (status, resp, w)
  end.

(** [lease_token && token_len > 0 && token_len < 64] *)
Definition token_ops (lease_token : option buffer) : list enc_op :=
  match lease_token with
  | Some t => if (0 <? blen t) && (blen t <? 64) then [OpString POWERFS_NET_FLD_LEASE_TOKEN t] else []
  | None => []
  end.

Definition write_ops (volume_id file_key inode : Z) (offset : option Z) (lease_token : option buffer) : list enc_op :=
  [OpU64 POWERFS_NET_FLD_INO volume_id; OpU64 POWERFS_NET_FLD_FILE_KEY file_key;
   OpU64 POWERFS_NET_FLD_INODE_V2 inode] ++
  match offset with Some o => [OpU64 POWERFS_NET_FLD_OFFSET o] | None => [] end ++
  token_ops lease_token ++ [OpString POWERFS_NET_FLD_CLIENT_ID kernel_client].

Definition read_ops (volume_id file_key : Z) : list enc_op :=
  [OpU64 POWERFS_NET_FLD_INO volume_id; OpU64 POWERFS_NET_FLD_FILE_KEY file_key].

Definition flush_ops (volume_id : Z) (file_keys : list Z) : list enc_op :=
  [OpU64 POWERFS_NET_FLD_INO volume_id; OpU64 POWERFS_NET_FLD_LIMIT (Z.of_nat (length file_keys))] ++
  (OpU64 POWERFS_NET_FLD_FILE_KEY <$> file_keys).

Definition rpc_result (ret : Z) : Z := default 0 (rpc_status ret).

Definition powerfs_net_write_needle (w : W) (volume_id file_key inode : Z) (data : buffer)
    (lease_token : option buffer) : Z * W :=
  let body := request 512 (write_ops volume_id file_key inode None lease_token) in
  let '(ret, _, w) := powerfs_net_send_to_volume w (-1) volume_id POWERFS_NET_MSG_WRITE_NEEDLE body data 0 in
  (rpc_result ret, w).

Definition powerfs_net_flush_needles (w : W) (volume_id : Z) (file_keys : list Z) : Z * W :=
  match file_keys with
  | [] => (0, w)
  | _ =>
      let cap := 64 + Z.of_nat (length file_keys) * 16 in
      if negb (vol_alloc w cap) then (- ENOMEM, w) else
      let body := request cap (flush_ops volume_id file_keys) in
      let '(ret, _, w) := powerfs_net_send_to_volume w (-1) volume_id POWERFS_NET_MSG_FLUSH_NEEDLES body [] 0 in
      (rpc_result ret, w)
  end.

(** The bytes stored in [buf]; [*read_len] is their number. *)
Definition powerfs_net_read_needle (w : W) (volume_id file_key buf_cap : Z) : Z * buffer * W :=
  let body := request 64 (read_ops volume_id file_key) in
  let '(ret, resp, w) := powerfs_net_send_to_volume w (-1) volume_id POWERFS_NET_MSG_READ_NEEDLE body [] buf_cap in
  (rpc_result ret, resp, w).

(** *** Asynchronous requests *)

(** The common part: connection, request, write slot, accounting, submission. *)
Definition submit_needle (w : W) (volume_id msg_type : Z) (body data : buffer) (write : bool) : Z * W :=
  match powerfs_net_find_volume_conn (vol_pool_of w) volume_id false with
  | None => (- ENOTCONN, w)
  | Some c =>
      if negb (vol_alloc w 0) then (- ENOMEM, w) else
      let '(slot, w) := if write then conn_wr_slot w c else (true, w) in
      if negb slot then (- EBUSY, w) else
      let w := conn_record_start w c (blen body + blen data) in
      let '(ret, w) := conn_submit w c msg_type body data in
      if negb (ret =? 0) then (ret, conn_record_failed w c) else (0, w)
  end.

Definition powerfs_net_write_needle_async (w : W) (volume_id file_key inode : Z) (data : buffer)
    (lease_token : option buffer) : Z * W :=
  if stopping (vol_pool_of w) then (- ENOTCONN, w) else
  let body := request 256 (write_ops volume_id file_key inode None lease_token) in
  submit_needle w volume_id POWERFS_NET_MSG_WRITE_NEEDLE body data true.

Definition powerfs_net_write_needle_blob_async (w : W) (volume_id file_key inode offset : Z) (data : buffer)
    (lease_token : option buffer) : Z * W :=
  if stopping (vol_pool_of w) then (- ENOTCONN, w) else
  let body := request 256 (write_ops volume_id file_key inode (Some offset) lease_token) in
  submit_needle w volume_id POWERFS_NET_MSG_WRITE_NEEDLE_BLOB body data true.

Definition powerfs_net_read_needle_async (w : W) (volume_id file_key : Z) : Z * W :=
  if stopping (vol_pool_of w) then (- ENOTCONN, w) else
  submit_needle w volume_id POWERFS_NET_MSG_READ_NEEDLE (request 256 (read_ops volume_id file_key)) [] false.

End requests.

(** ** Reading *)

(** [crc32 b] is [crc32_le(~0, b, len) ^ ~0] of the kernel; [junk] is what an
    allocation of a chunk contains; [ec_alloc] are the allocations of
    [powerfs_ec.c]. *)
Section reading.
Context {W : Type} `{VT : !VolumeTransport W} (crc32 : buffer -> Z) (junk : buffer) (ec_alloc : alloc_site -> bool).

Fixpoint find_chunk (chunk_idx : Z) (cs : list powerfs_chunk_map) : option powerfs_chunk_map :=
  match cs with
  | [] => None
  | c :: cs => if cm_chunk_idx c =? chunk_idx then Some c else find_chunk chunk_idx cs
  end.

(** The replica of a chunk, if the file has replicas. *)
Definition replica_of (pi : layout_inode) (chunk_idx : Z) : option powerfs_chunk_map :=
  match replica_chunks (pi_chunks pi) with
  | Some cs => find_chunk chunk_idx (take (Z.to_nat (replica_count (pi_chunks pi))) cs)
  | None => None
  end.

(** [crc != 0 && len > 0] and the checksums differ. *)
Definition crc_bad (expected : Z) (data : buffer) : bool :=
  negb (expected =? 0) && (blen data >? 0) && negb (crc32 data =? expected).

(** The retry on the replica: an error to return, or the result of the read. *)
Definition read_failover (w : W) (pi : layout_inode) (chunk_idx ret : Z) (data : buffer)
  : option Z * Z * buffer * W :=
  if (ret <? 0) && negb (ret =? - ENOENT) then
    match replica_of pi chunk_idx with
    | Some r =>
        let '(ret, data, w) := powerfs_net_read_needle w (cm_volume_id r) (cm_needle_id r) POWERFS_CHUNK_SIZE in
        if (ret =? 0) && crc_bad (cm_crc32 r) data then (Some (- EIO), ret, data, w) else (None, ret, data, w)
    | None => (None, ret, data, w)
    end
  else (None, ret, data, w).

(** The content of the needle of [cur_offset]; a missing needle is empty. *)
Inductive chunk_content := CData (data : buffer) | CErr (errno : Z) | CFault.

Definition read_chunk (w : W) (pi : layout_inode) (cur_offset : Z) : chunk_content * W :=
  match powerfs_locate_chunk pi cur_offset with
  | OutOfBounds => (CFault, w)
  | LocErr e => (CErr e, w)
  | At volume needle =>
      let chunk_idx := u32 (cur_offset / POWERFS_CHUNK_SIZE) in
      let '(ret, data, w) := powerfs_net_read_needle w volume needle POWERFS_CHUNK_SIZE in
      let '(stop, ret, data, w) := read_failover w pi chunk_idx ret data in
      match stop with
      | Some e => (CErr e, w)
      | None =>
          if (ret <? 0) && negb (ret =? - ENOENT) then (CErr ret, w) else
          let data := if ret =? - ENOENT then [] else data in
          match replica_of pi chunk_idx with
          | Some r => if crc_bad (cm_crc32 r) data then (CErr (- EIO), w) else (CData data, w)
          | None => (CData data, w)
          end
      end
  end.

(** What one round copies: the part of the needle, or zeros behind its end. *)
Definition read_piece (data : buffer) (offset_in_needle remaining : Z) : buffer :=
  if offset_in_needle >=? blen data
  then replicate (Z.to_nat (Z.min remaining (POWERFS_CHUNK_SIZE - offset_in_needle))) 0
  else slice data offset_in_needle (Z.min (Z.min remaining (blen data)) (blen data - offset_in_needle)).

(** [None]: an access out of bounds, or out of fuel. *)
Fixpoint read_loop (fuel : nat) (w : W) (pi : layout_inode) (cur_offset remaining : Z) (acc : buffer)
  : option (Z * buffer * W) :=
  if remaining <=? 0 then Some (0, acc, w) else
  match fuel with
  | O => None
  | S fuel =>
      match read_chunk w pi cur_offset with
      | (CFault, _) => None
      | (CErr e, w) => Some (e, acc, w)
      | (CData data, w) =>
          let offset_in_needle := cur_offset mod POWERFS_CHUNK_SIZE in
          let piece := read_piece data offset_in_needle remaining in
          let acc := acc ++ piece in
          if (blen data <? POWERFS_CHUNK_SIZE) && (offset_in_needle + blen piece >=? blen data)
          then Some (0, acc, w)
          else read_loop fuel w pi (u64 (cur_offset + blen piece)) (remaining - blen piece) acc
      end
  end.

(** *** Erasure-coded files *)

Definition ec_chunk_at (pi : layout_inode) (i : Z) : option powerfs_chunk_map :=
  match ec_chunks (pi_chunks pi) with
  | Some cs => if i >=? ec_chunk_count (pi_chunks pi) then None else index cs i
  | None => None
  end.

(** Shard [i] of the group: a buffer of one chunk, if it was read and its
    checksum is right. *)
Definition read_shard (w : W) (pi : layout_inode) (group_base : Z) (i : nat) : option buffer * W :=
  match ec_chunk_at pi (group_base + Z.of_nat i) with
  | None => (None, w)
  | Some c =>
      if negb (vol_alloc w POWERFS_CHUNK_SIZE) then (None, w) else
      let '(ret, data, w) := powerfs_net_read_needle w (cm_volume_id c) (cm_needle_id c) POWERFS_CHUNK_SIZE in
      if (ret <? 0) || crc_bad (cm_crc32 c) data then (None, w) else (Some (blit junk 0 data), w)
  end.

Fixpoint read_shards (w : W) (pi : layout_inode) (group_base : Z) (js : list nat) : list (option buffer) * W :=
  match js with
  | [] => ([], w)
  | i :: js =>
      let '(s, w) := read_shard w pi group_base i in
      let '(ss, w) := read_shards w pi group_base js in (s :: ss, w)
  end.

(** [group_data] after the copies: a shard that is absent leaves [junk]. *)
Definition join_shards (data_shards : nat) (shards : list (option buffer)) : buffer :=
  concat ((fun s => default junk s) <$> take data_shards shards).

Definition is_avail (s : option buffer) : bool := match s with Some _ => true | None => false end.

(** The data of the group, or an error. *)
Definition group_data (w : W) (data_shards parity_shards : Z) (shards : list (option buffer)) : Z + buffer :=
  let d := Z.to_nat data_shards in
  let available := is_avail <$> shards in
  if forallb is_avail (take d shards) then
    if negb (vol_alloc w (data_shards * POWERFS_CHUNK_SIZE)) then inl (- ENOMEM) else inr (join_shards d shards)
  else
    match powerfs_ec_init ec_alloc data_shards parity_shards with
    | inl e => inl e
    | inr codec =>
        if negb (powerfs_ec_can_recover (Some codec) (Some available)) then inl (- EIO) else
        let '(ret, sh) := powerfs_ec_decode ec_alloc (Some codec) (Some shards) (Some available) (Z.to_nat POWERFS_CHUNK_SIZE) in
        if negb (ret =? 0) then inl ret else
        if negb (vol_alloc w (data_shards * POWERFS_CHUNK_SIZE)) then inl (- ENOMEM)
        else inr (join_shards d (default [] sh))
    end.

(** [None]: the division by zero of a file without data shards. *)
Definition powerfs_net_read_ec (w : W) (pi : layout_inode) (offset length buf_cap : Z) : option (Z * buffer * W) :=
  let data_shards := ec_data_shards (pi_chunks pi) in
  let parity_shards := ec_parity_shards (pi_chunks pi) in
  let total_shards := u32 (data_shards + parity_shards) in
  let group_data_size := data_shards * POWERFS_CHUNK_SIZE in
  if group_data_size =? 0 then None else
  let group_idx := offset / group_data_size in
  let group_offset := offset - group_idx * group_data_size in
  let group_base := u64 (group_idx * total_shards) in
  if bool_decide (ec_chunks (pi_chunks pi) = None) || (u64 (group_base + total_shards) >? ec_chunk_count (pi_chunks pi))
  then Some (- EINVAL, [], w) else
  if negb (vol_alloc w (8 * total_shards) && vol_alloc w total_shards) then Some (- ENOMEM, [], w) else
  let '(shards, w) := read_shards w pi group_base (seq 0 (Z.to_nat total_shards)) in
  match group_data w data_shards parity_shards shards with
  | inl e => Some (e, [], w)
  | inr group =>
      let copy_len := Z.min (Z.min length (group_data_size - group_offset)) buf_cap in
      Some (0, slice group group_offset copy_len, w)
  end.

(** *** [powerfs_net_read] *)

(** One round for each chunk of the range, and one for a range that starts
    inside a chunk. *)
Definition read_fuel (length : Z) : nat := S (S (Z.to_nat (length / POWERFS_CHUNK_SIZE))).

Definition powerfs_net_read (w : W) (pi : layout_inode) (offset length buf_cap : Z) : option (Z * buffer * W) :=
  if buf_cap <? length then Some (- EINVAL, [], w) else
  if (reliability pi =? POWERFS_RELIABILITY_EC) && bool_decide (is_Some (ec_chunks (pi_chunks pi)))
  then powerfs_net_read_ec w pi offset length buf_cap else
  if negb (vol_alloc w POWERFS_CHUNK_SIZE) then Some (- ENOMEM, [], w)
  else read_loop (read_fuel length) w pi offset length [].

(** ** Writing without the page cache *)

(** [powerfs_net_write]: the needle is read into the allocated chunk, changed
    and written back as far as it is used.  Result and bytes written. *)
Definition powerfs_net_write (w : W) (ino volume_id file_key offset : Z) (data : buffer) : Z * Z * W :=
  if (volume_id =? 0) || (file_key =? 0) then (- ENOLINK, 0, w) else
  let needle_id := u64 (file_key + offset / POWERFS_CHUNK_SIZE) in
  let offset_in_needle := offset mod POWERFS_CHUNK_SIZE in
  if offset_in_needle + blen data >? POWERFS_CHUNK_SIZE then (- EINVAL, 0, w) else
  if negb (vol_alloc w POWERFS_CHUNK_SIZE) then (- ENOMEM, 0, w) else
  let '(ret, existing, w) := powerfs_net_read_needle w volume_id needle_id POWERFS_CHUNK_SIZE in
  if (ret <? 0) && negb (ret =? - ENOENT) then (ret, 0, w) else
  let existing := if ret <? 0 then [] else existing in
  let needle_buf := blit (blit junk 0 existing) offset_in_needle data in
  let len := Z.max (blen existing) (offset_in_needle + blen data) in
  let '(ret, w) := powerfs_net_write_needle w volume_id needle_id ino (take (Z.to_nat len) needle_buf) None in
  if ret <? 0 then (ret, 0, w) else (0, blen data, w).

End reading.

(** ** Bytes at a position

    Buffers are compared byte by byte; behind its end a buffer reads as zero,
    which is what the holes of a file contain. *)

Lemma byte_at_beyond b i : blen b <= i -> byte_at b i = 0.
Proof. intros. unfold byte_at, blen in *. by rewrite lookup_ge_None_2 by lia. Qed.

Lemma byte_at_app a b i :
  0 <= i -> byte_at (a ++ b) i = if i <? blen a then byte_at a i else byte_at b (i - blen a).
Proof.
  intros. case_if; [by apply byte_at_app_l|]. replace i with (blen a + (i - blen a)) at 1 by lia. apply byte_at_app_r. lia.
Qed.

Lemma byte_at_take n b i : 0 <= i -> byte_at (take (Z.to_nat n) b) i = if i <? n then byte_at b i else 0.
Proof.
  intros. unfold byte_at. case_if; [by rewrite lookup_take_lt by lia|]. by rewrite lookup_take_ge by lia.
Qed.

Lemma byte_at_drop n b i : 0 <= n -> 0 <= i -> byte_at (drop (Z.to_nat n) b) i = byte_at b (n + i).
Proof. intros. unfold byte_at. rewrite lookup_drop. do 2 f_equal. lia. Qed.

Lemma byte_at_slice b o n i : 0 <= o -> 0 <= i -> byte_at (slice b o n) i = if i <? n then byte_at b (o + i) else 0.
Proof. intros. unfold slice. rewrite byte_at_take by done. case_if; [|done]. by apply byte_at_drop. Qed.

Lemma byte_at_zeros n i : byte_at (replicate n 0) i = 0.
Proof. unfold byte_at. destruct (replicate n 0 !! Z.to_nat i) eqn:E; [|done]. by apply lookup_replicate in E as [-> _]. Qed.

Lemma blen_replicate n x : blen (replicate n x) = Z.of_nat n.
Proof. unfold blen. by rewrite length_replicate. Qed.
Lemma blen_take_le n b : 0 <= n <= blen b -> blen (take (Z.to_nat n) b) = n.
Proof. unfold blen. intros. rewrite length_take. lia. Qed.

Lemma blen_take_max n b : 0 <= n -> blen (take (Z.to_nat n) b) <= n.
Proof. intros. pose proof (blen_take n b). lia. Qed.
Lemma take_blen_le n b : blen b <= n -> take (Z.to_nat n) b = b.
Proof. intros. apply take_ge. unfold blen in *. lia. Qed.
Lemma blen_replicate_z n x : 0 <= n -> blen (replicate (Z.to_nat n) x) = n.
Proof. intros. rewrite blen_replicate. lia. Qed.

Lemma byte_at_blit b o src i :
  0 <= o <= blen b -> 0 <= i ->
  byte_at (blit b o src) i = if (o <=? i) && (i <? o + blen src) then byte_at src (i - o) else byte_at b i.
Proof.
  intros Ho Hi. unfold blit. rewrite byte_at_app, blen_take_le by lia.
  case_if.
  - rewrite byte_at_take by lia. ltb_true. destruct (Z.leb_spec o i); [lia|done].
  - destruct (Z.leb_spec o i); [|lia]. rewrite byte_at_app by lia. cbn [andb].
    destruct (Z.ltb_spec i (o + blen src)); [by ltb_true|]. ltb_false.
    replace (Z.to_nat o + length src)%nat with (Z.to_nat (o + blen src)) by (unfold blen; lia).
    rewrite byte_at_drop by (pose proof (blen_nonneg src); lia). f_equal. lia.
Qed.

Lemma bytes_ext a b : blen a = blen b -> (forall i, 0 <= i < blen a -> byte_at a i = byte_at b i) -> a = b.
Proof.
  intros Hl H. apply list_eq. intros i. destruct (decide (i < length a)%nat) as [Hi|Hi].
  - specialize (H (Z.of_nat i)). unfold byte_at, blen in *. rewrite Nat2Z.id in H.
    destruct (lookup_lt_is_Some_2 a i Hi) as [x Hx]. destruct (lookup_lt_is_Some_2 b i ltac:(lia)) as [y Hy].
    rewrite Hx, Hy in *. f_equal. apply H. lia.
  - unfold blen in Hl. by rewrite !lookup_ge_None_2 by lia.
Qed.

(** *** The content of a needle after a write *)

Definition patch (old : buffer) (off : Z) (data : buffer) : buffer :=
  take (Z.to_nat off) old ++ replicate (Z.to_nat (off - blen old)) 0 ++ data ++ drop (Z.to_nat (off + blen data)) old.

Lemma byte_at_patch old off data i :
  0 <= off -> 0 <= i ->
  byte_at (patch old off data) i = if (off <=? i) && (i <? off + blen data) then byte_at data (i - off) else byte_at old i.
Proof.
  intros Ho Hi. unfold patch. pose proof (blen_nonneg data). rewrite app_assoc.
  assert (Hh : blen (take (Z.to_nat off) old ++ replicate (Z.to_nat (off - blen old)) 0) = off).
  { rewrite blen_app, blen_replicate. unfold blen in *. rewrite length_take. lia. }
  rewrite byte_at_app, Hh by lia. case_if.
  - destruct (Z.leb_spec off i); [lia|]. cbn [andb]. rewrite byte_at_app by lia. case_if.
    + rewrite byte_at_take by lia. by ltb_true.
    + rewrite byte_at_zeros, byte_at_beyond; [done|]. unfold blen in *. rewrite length_take in E0. lia.
  - destruct (Z.leb_spec off i); [|lia]. cbn [andb]. rewrite byte_at_app by lia.
    destruct (Z.ltb_spec i (off + blen data)); [by ltb_true|]. ltb_false. rewrite byte_at_drop by lia. f_equal. lia.
Qed.

Lemma blen_patch old off data : 0 <= off -> blen (patch old off data) = Z.max (blen old) (off + blen data).
Proof.
  intros. unfold patch. rewrite !blen_app, blen_replicate. unfold blen. rewrite length_take, length_drop. lia.
Qed.

Lemma patch_whole old data : blen old <= blen data -> patch old 0 data = data.
Proof.
  intros. unfold patch. pose proof (blen_nonneg old). cbn [take Z.to_nat]. replace (Z.to_nat (0 - blen old)) with 0%nat by lia.
  rewrite drop_ge by (unfold blen in *; lia). cbn. by rewrite app_nil_r.
Qed.

(** ** What volume servers do *)

Definition POWERFS_NET_STATUS_OK : Z := 0.
Definition POWERFS_NET_STATUS_ERR_NOT_FOUND : Z := 1.

(** [needle w v n]: the content of a needle, over all servers. *)
Class VolumeServers (W : Type) := { needle : W -> Z -> Z -> option buffer }.

Definition same_needles {W} `{!VolumeServers W} (w w' : W) : Prop := forall v n, needle w' v n = needle w v n.

(** [w'] is [w] with one needle overwritten from [off] on. *)
Definition needle_written {W} `{!VolumeServers W} (w w' : W) (v n off : Z) (data : buffer) : Prop :=
  needle w' v n = Some (patch (default [] (needle w v n)) off data) /\
  (forall v' n', (v', n') <> (v, n) -> needle w' v' n' = needle w v' n').

(** [w'] is [w] after a WRITE of [data] to a needle.  The sources disagree
    about what a WRITE does with a longer needle: [powerfs_net_inode.c], the
    header and the comment at [powerfs_dio_write_can_skip_read] say that it
    replaces the needle, a comment in [powerfs_wb_read_cb] that it overwrites
    the front and does not shorten it.  Either is allowed. *)
Definition needle_put {W} `{!VolumeServers W} (w w' : W) (v n : Z) (data : buffer) : Prop :=
  (needle w' v n = Some data \/ needle w' v n = Some (patch (default [] (needle w v n)) 0 data)) /\
  (forall v' n', (v', n') <> (v, n) -> needle w' v' n' = needle w v' n').

(** A needle is at most a chunk.  The server a volume is routed to answers a
    READ with the whole needle or with "not found"; a WRITE puts the data into
    the needle.  A connection fails with other errors than [-ENOENT].
    Accounting does not touch needles. *)
Class VolumeServersOk (W : Type) `{!VolumeTransport W, !VolumeServers W} : Prop := {
  needle_fits : forall w v n b, needle w v n = Some b -> blen b <= POWERFS_CHUNK_SIZE;
  send_errno : forall w c msg body data cap ret st resp w',
    conn_send w c msg body data cap = (ret, st, resp, w') -> ret <= 0 /\ ret <> - ENOENT /\ 0 <= st < 2 ^ 16;
  read_served : forall w c v n ret st resp w',
    is_u64 v -> is_u64 n ->
    powerfs_net_find_volume_conn (vol_pool_of w) v false = Some c ->
    conn_send w c POWERFS_NET_MSG_READ_NEEDLE (request 64 (read_ops v n)) [] POWERFS_CHUNK_SIZE = (ret, st, resp, w') ->
    same_needles w w' /\
    (ret = 0 -> st = POWERFS_NET_STATUS_OK -> needle w v n = Some resp) /\
    (ret = 0 -> st = POWERFS_NET_STATUS_ERR_NOT_FOUND -> needle w v n = None);
  write_served : forall w c v n ino tok data st resp w',
    is_u64 v -> is_u64 n -> is_u64 ino -> (forall t, tok = Some t -> bytes_ok t) ->
    powerfs_net_find_volume_conn (vol_pool_of w) v false = Some c -> blen data <= POWERFS_CHUNK_SIZE ->
    conn_send w c POWERFS_NET_MSG_WRITE_NEEDLE (request 512 (write_ops v n ino None tok)) data 0 = (0, st, resp, w') ->
    st = POWERFS_NET_STATUS_OK -> needle_put w w' v n data;
  start_same : forall w c len, same_needles w (conn_record_start w c len) /\
    vol_pool_of (conn_record_start w c len) = vol_pool_of w;
  failed_same : forall w c, same_needles w (conn_record_failed w c)
}.

Section served.
Context {W : Type} `{VT : !VolumeTransport W} `{VS : !VolumeServers W} `{OK : !VolumeServersOk W}.

#[local] Instance same_needles_equiv : Equivalence (same_needles (W := W)).
Proof.
  split; [done|by intros x y H v n|]. intros x y z H1 H2 v n. by rewrite H2.
Qed.

Lemma rpc_result_zero ret : ret < 2 ^ 16 -> rpc_result ret = 0 -> ret = 0.
Proof.
  unfold rpc_result. intros Hr. destruct (rpc_status ret) as [e|] eqn:E; cbn.
  - intros ->. by apply rpc_status_neg in E.
  - unfold rpc_status in E. repeat case_if_in E; lia || done.
Qed.

Lemma rpc_result_nonpos ret : ret < 2 ^ 16 -> rpc_result ret <= 0.
Proof.
  intros. unfold rpc_result. destruct (rpc_status ret) as [e|] eqn:E; cbn; [|done]. apply rpc_status_neg in E; lia.
Qed.

Lemma status_not_found s : 0 <= s < 2 ^ 16 -> rpc_result s = - ENOENT -> s = 1.
Proof.
  intros Hs. unfold rpc_result, rpc_status. ltb_false. case_if; cbn [default]; [|done].
  rewrite u16_small by lia. destruct s as [|q|q]; try lia. do 4 (destruct q; try done).
Qed.

Lemma send_to_volume_status w idx v msg body data cap ret resp w' :
  powerfs_net_send_to_volume w idx v msg body data cap = (ret, resp, w') -> ret < 2 ^ 16.
Proof.
  unfold powerfs_net_send_to_volume. destruct (stopping _); [by intros [= <- _ _]|]. case_match; [|by intros [= <- _ _]].
  destruct (vol_alloc w 0); cbn [negb]; [|by intros [= <- _ _]].
  destruct (conn_send _ _ _ _ _ _) as [[[r st] rs] w2] eqn:Hs. apply send_errno in Hs as (Hr & _ & Hst).
  case_if; [case_if|]; intros [= <- _ _]; lia.
Qed.

(** A read RPC. *)
Lemma read_needle_served w v n ret data w' :
  is_u64 v -> is_u64 n -> powerfs_net_read_needle w v n POWERFS_CHUNK_SIZE = (ret, data, w') ->
  ret <= 0 /\ same_needles w w' /\ (ret = 0 -> needle w v n = Some data) /\ (ret = - ENOENT -> needle w v n = None).
Proof.
  intros Hv Hn. unfold powerfs_net_read_needle, powerfs_net_send_to_volume. cbn [Z.geb Z.compare].
  destruct (stopping (vol_pool_of w)); [by intros [= <- <- <-]|].
  change (pfs_is_meta_msg POWERFS_NET_MSG_READ_NEEDLE) with false.
  destruct (powerfs_net_find_volume_conn (vol_pool_of w) v false) as [c|] eqn:Hc; [|by intros [= <- <- <-]].
  destruct (vol_alloc w 0); cbn [negb]; [|by intros [= <- <- <-]].
  set (w1 := conn_record_start w c _). destruct (start_same w c (blen (request 64 (read_ops v n)) + blen [])) as [H1 Hp1].
  fold w1 in H1, Hp1. destruct (conn_send w1 c _ _ _ _) as [[[r st] resp] w2] eqn:Hs.
  pose proof (send_errno _ _ _ _ _ _ _ _ _ _ Hs) as (Hr & Hne & Hst).
  destruct (read_served w1 c v n r st resp w2) as (H2 & Hok & Hnf); [done|done|by rewrite Hp1|done|].
  rewrite !(H1 v n) in *. assert (H12 : same_needles w w2) by (by transitivity w1).
  destruct (Z.eqb_spec r 0) as [->|Hr0]; cbn [negb].
  - intros [= <- <- <-]. split; [apply rpc_result_nonpos; lia|]. split; [done|]. split; intros E.
    + apply Hok; [done|]. apply rpc_result_zero in E; [done|lia].
    + apply Hnf; [done|]. by apply status_not_found.
  - destruct (Z.ltb_spec r 0); [|lia]. intros [= <- <- <-].
    assert (E : rpc_result r = r) by (unfold rpc_result, rpc_status; by ltb_true). rewrite E.
    split; [lia|]. split; [transitivity w2; [done|apply failed_same]|]. split; lia.
Qed.

(** A write RPC that succeeded. *)
Lemma write_needle_served w v n ino data tok w' :
  is_u64 v -> is_u64 n -> is_u64 ino -> (forall t, tok = Some t -> bytes_ok t) ->
  blen data <= POWERFS_CHUNK_SIZE -> powerfs_net_write_needle w v n ino data tok = (0, w') -> needle_put w w' v n data.
Proof.
  intros Hv Hn Hino Htok Hd. unfold powerfs_net_write_needle, powerfs_net_send_to_volume. cbn [Z.geb Z.compare].
  destruct (stopping (vol_pool_of w)); [done|]. change (pfs_is_meta_msg POWERFS_NET_MSG_WRITE_NEEDLE) with false.
  destruct (powerfs_net_find_volume_conn (vol_pool_of w) v false) as [c|] eqn:Hc; [|done].
  destruct (vol_alloc w 0); cbn [negb]; [|done].
  set (w1 := conn_record_start w c _).
  destruct (start_same w c (blen (request 512 (write_ops v n ino None tok)) + blen data)) as [H1 Hp1].
  fold w1 in H1, Hp1. destruct (conn_send w1 c _ _ _ _) as [[[r st] resp] w2] eqn:Hs.
  pose proof (send_errno _ _ _ _ _ _ _ _ _ _ Hs) as (Hr & Hne & Hst).
  destruct (Z.eqb_spec r 0) as [->|Hr0]; cbn [negb].
  - intros [= E <-]. apply rpc_result_zero in E as ->; [|lia].
    destruct (write_served w1 c v n ino tok data 0 resp w2) as [W1 W2]; [done|done|done|done|by rewrite Hp1|done|done|done|].
    rewrite H1 in W1. split; [done|]. intros v' n' Hvn. by rewrite W2, H1.
  - destruct (Z.ltb_spec r 0); [|lia]. intros [= E _]. apply rpc_result_zero in E; lia.
Qed.

(** A byte of the needle after a WRITE: of the data, or behind them what was
    there or nothing. *)
Lemma put_byte w w' v n data i :
  needle_put w w' v n data -> 0 <= i ->
  let b := byte_at (default [] (needle w' v n)) i in
  b = (if i <? blen data then byte_at data i else byte_at (default [] (needle w v n)) i) \/ (blen data <= i /\ b = 0).
Proof.
  intros [H _] Hi b. unfold b. destruct H as [-> | ->]; cbn [default from_option id].
  - destruct (Z.ltb_spec i (blen data)); [by left|]. right. split; [done|]. by apply byte_at_beyond.
  - left. rewrite byte_at_patch by lia. rewrite (proj2 (Z.leb_le 0 i)), Z.sub_0_r, Z.add_0_l by lia. done.
Qed.

(** A WRITE of at least the old length. *)
Lemma put_whole w w' v n data :
  needle_put w w' v n data -> blen (default [] (needle w v n)) <= blen data -> needle w' v n = Some data.
Proof. intros [[H|H] _] Hl; [done|]. by rewrite patch_whole in H. Qed.

(** ** The bytes of a file *)

Definition content (w : W) (pi : layout_inode) (o : Z) : buffer :=
  match powerfs_locate_chunk pi o with At v n => default [] (needle w v n) | _ => [] end.

Definition file_byte (w : W) (pi : layout_inode) (o : Z) : Z := byte_at (content w pi o) (o mod POWERFS_CHUNK_SIZE).

(** The chunks of the layout are the chunks of the needles; ids fit in 64
    bits. *)
Definition chunked (pi : layout_inode) : Prop :=
  layout_inv pi /\ geometry pi /\ chunk_size_of pi = POWERFS_CHUNK_SIZE /\
  forall o v n, powerfs_locate_chunk pi o = At v n -> is_u64 v /\ is_u64 n.

(** Replicas hold what their needles hold. *)
Definition mirrored (w : W) (pi : layout_inode) : Prop :=
  forall o v n r, powerfs_locate_chunk pi o = At v n -> replica_of pi (u32 (o / POWERFS_CHUNK_SIZE)) = Some r ->
  is_u64 (cm_volume_id r) /\ is_u64 (cm_needle_id r) /\ needle w (cm_volume_id r) (cm_needle_id r) = needle w v n.

Lemma locate_same_chunk pi o o' :
  chunked pi -> 0 <= o < 2 ^ 63 -> 0 <= o' < 2 ^ 63 -> o / POWERFS_CHUNK_SIZE = o' / POWERFS_CHUNK_SIZE ->
  powerfs_locate_chunk pi o = powerfs_locate_chunk pi o'.
Proof.
  intros (Hi & Hg & Hc & _) Ho Ho' E. rewrite !locate_by_chunk by done. by rewrite Hc, E.
Qed.

Lemma content_same_chunk w pi o o' :
  chunked pi -> 0 <= o < 2 ^ 63 -> 0 <= o' < 2 ^ 63 -> o / POWERFS_CHUNK_SIZE = o' / POWERFS_CHUNK_SIZE ->
  content w pi o = content w pi o'.
Proof. intros. unfold content. by rewrite (locate_same_chunk pi o o'). Qed.

Lemma content_fits w pi o : blen (content w pi o) <= POWERFS_CHUNK_SIZE.
Proof.
  unfold content. destruct (powerfs_locate_chunk pi o) as [v n|e|]; [|done..].
  destruct (needle w v n) eqn:E; [by eapply needle_fits|done].
Qed.

Lemma same_content w w' pi o : same_needles w w' -> content w' pi o = content w pi o.
Proof. intros H. unfold content. destruct (powerfs_locate_chunk pi o); try done. by rewrite H. Qed.

Lemma same_mirrored w w' pi : same_needles w w' -> mirrored w pi -> mirrored w' pi.
Proof. intros H Hm o v n r Hl Hr. rewrite !H. exact (Hm o v n r Hl Hr). Qed.

(** Same chunk as [o], [k] bytes further. *)
Lemma chunk_of_add o k :
  0 <= k -> o mod POWERFS_CHUNK_SIZE + k < POWERFS_CHUNK_SIZE ->
  (o + k) / POWERFS_CHUNK_SIZE = o / POWERFS_CHUNK_SIZE /\ (o + k) mod POWERFS_CHUNK_SIZE = o mod POWERFS_CHUNK_SIZE + k.
Proof.
  intros Hk H. pose proof (Z.mod_pos_bound o POWERFS_CHUNK_SIZE eq_refl) as Hm.
  pose proof (Z.div_mod o POWERFS_CHUNK_SIZE ltac:(done)) as Hd.
  assert (E : o + k = POWERFS_CHUNK_SIZE * (o / POWERFS_CHUNK_SIZE) + (o mod POWERFS_CHUNK_SIZE + k)) by lia. split.
  - symmetry. eapply Z.div_unique; [|exact E]. lia.
  - symmetry. eapply Z.mod_unique; [|exact E]. lia.
Qed.

Section crc.
Context (crc32 : buffer -> Z).

(** A chunk read without error is the content of its needle, or of a replica. *)
Lemma read_chunk_spec w pi o :
  chunked pi -> mirrored w pi ->
  exists r w', read_chunk crc32 w pi o = (r, w') /\ same_needles w w' /\ r <> CFault /\
    (forall data, r = CData data -> data = content w pi o) /\ (forall e, r = CErr e -> e < 0).
Proof.
  intros (Hi & _ & _ & Hids) Hm. unfold read_chunk, content. pose proof (locate_in_bounds pi o Hi) as Hb.
  destruct (powerfs_locate_chunk pi o) as [v n|e|] eqn:Hl; [| |done].
  2:{ eexists _, _. do 2 (split; [done|]). split; [done|]. split; [done|]. intros ? [= <-]. by eapply locate_errno. }
  destruct (powerfs_net_read_needle w v n _) as [[ret data] w1] eqn:H1. destruct (Hids o v n Hl) as [Hv Hn].
  apply read_needle_served in H1 as (Hn1 & S1 & D1 & N1); [|done..]. set (g := u32 _).
  destruct (read_failover crc32 w1 pi g ret data) as [[[stop ret'] data'] w2] eqn:Hf.
  assert (H : same_needles w w2 /\ ret' <= 0 /\ (stop = None \/ stop = Some (- EIO)) /\
      (ret' = 0 -> needle w v n = Some data') /\ (ret' = - ENOENT -> needle w v n = None)).
  { unfold read_failover in Hf. destruct ((ret <? 0) && negb (ret =? - ENOENT)) eqn:Eb.
    2:{ simplify_eq. auto. }
    destruct (replica_of pi g) as [r|] eqn:Hr; [|simplify_eq; auto].
    destruct (powerfs_net_read_needle w1 _ _ _) as [[ret2 data2] w3] eqn:H2.
    destruct (Hm o v n r Hl Hr) as (Hrv & Hrn & Hmr).
    apply read_needle_served in H2 as (Hn2 & S2 & D2 & N2); [|done..]. rewrite S1, Hmr in D2, N2.
    case_if_in Hf; simplify_eq; (split; [by transitivity w1|]); auto. }
  destruct H as (S2 & Hle & Hs & D2 & N2). destruct stop as [e|].
  { eexists _, _. split; [done|]. split; [done|]. do 2 (split; [done|]). intros ? [= <-]. destruct Hs as [|[= ->]]; done. }
  destruct ((ret' <? 0) && negb (ret' =? - ENOENT)) eqn:Eb.
  { eexists _, _. split; [done|]. split; [done|]. do 2 (split; [done|]). intros ? [= <-]. bool_to_prop; done. }
  assert (E : (if ret' =? - ENOENT then [] else data') = default [] (needle w v n)).
  { destruct (Z.eqb_spec ret' (- ENOENT)) as [->|Hne]; [by rewrite N2|]. rewrite D2; [done|].
    destruct (Z.ltb_spec ret' 0); [|lia]. by cbn in Eb. }
  rewrite E. destruct (replica_of pi g) as [r|]; [destruct (crc_bad crc32 _ _)|];
    eexists _, _; (split; [done|]); (split; [done|]); (split; [done|]); (split; [|by intros ? [= <-]]); by intros ? [= <-].
Qed.

Lemma read_piece_spec data oin rem :
  blen data <= POWERFS_CHUNK_SIZE -> 0 <= oin < POWERFS_CHUNK_SIZE -> 0 < rem ->
  let piece := read_piece data oin rem in
  0 < blen piece <= rem /\ oin + blen piece <= POWERFS_CHUNK_SIZE /\
  (forall i, 0 <= i < blen piece -> byte_at piece i = byte_at data (oin + i)) /\
  (blen piece = rem \/ oin + blen piece = blen data \/ oin + blen piece = POWERFS_CHUNK_SIZE).
Proof.
  intros Hd Ho Hr. unfold read_piece. cbv zeta. rewrite Z.geb_leb. destruct (Z.leb_spec (blen data) oin).
  - rewrite blen_replicate, Z2Nat.id by lia. repeat split; try lia.
    intros i Hi. rewrite byte_at_zeros, byte_at_beyond; lia.
  - rewrite blen_slice by lia. repeat split; try lia. intros i Hi. rewrite byte_at_slice by lia. by ltb_true.
Qed.

(** Rounds a loop needs: one, and one for each chunk boundary in the range. *)
Lemma fuel_step fuel o rem k :
  0 <= o -> 0 < k <= rem -> (o mod POWERFS_CHUNK_SIZE + k = POWERFS_CHUNK_SIZE \/ k = rem) ->
  (o mod POWERFS_CHUNK_SIZE + rem + POWERFS_CHUNK_SIZE - 1) / POWERFS_CHUNK_SIZE <= Z.of_nat (S fuel) ->
  ((o + k) mod POWERFS_CHUNK_SIZE + (rem - k) + POWERFS_CHUNK_SIZE - 1) / POWERFS_CHUNK_SIZE <= Z.of_nat fuel \/ rem - k = 0.
Proof.
  intros Ho Hk [E| ->] Hf; [|right; lia]. left.
  assert (Hz : (o + k) mod POWERFS_CHUNK_SIZE = 0).
  { pose proof (Z.div_mod o POWERFS_CHUNK_SIZE ltac:(done)). replace (o + k) with ((o / POWERFS_CHUNK_SIZE + 1) * POWERFS_CHUNK_SIZE) by lia.
    by apply Z.mod_mul. }
  rewrite Hz. replace (o mod POWERFS_CHUNK_SIZE + rem + POWERFS_CHUNK_SIZE - 1)
    with (0 + (rem - k) + POWERFS_CHUNK_SIZE - 1 + 1 * POWERFS_CHUNK_SIZE) in Hf by lia.
  rewrite Z.div_add in Hf by done. lia.
Qed.

Lemma read_loop_spec fuel w pi o rem acc :
  chunked pi -> mirrored w pi -> 0 <= o -> 0 <= rem -> o + rem < 2 ^ 63 ->
  (o mod POWERFS_CHUNK_SIZE + rem + POWERFS_CHUNK_SIZE - 1) / POWERFS_CHUNK_SIZE <= Z.of_nat fuel \/ rem = 0 ->
  exists ret buf w', read_loop crc32 fuel w pi o rem acc = Some (ret, acc ++ buf, w') /\ same_needles w w' /\
    ret <= 0 /\ blen buf <= rem /\ (forall i, 0 <= i < blen buf -> byte_at buf i = file_byte w pi (o + i)) /\
    (ret = 0 -> blen buf < rem -> 0 < blen buf /\ blen (content w pi (o + blen buf - 1)) < POWERFS_CHUNK_SIZE /\
       blen (content w pi (o + blen buf - 1)) <= (o + blen buf - 1) mod POWERFS_CHUNK_SIZE + 1).
Proof.
  revert w o rem acc. induction fuel as [|fuel IH]; intros w o rem acc Hc Hm Ho Hr Hb Hf; cbn [read_loop].
  all: destruct (Z.leb_spec rem 0) as [Hr0|Hr0];
    [exists 0, [], w; rewrite app_nil_r, blen_nil; split_and!; (done || lia || (intros; lia))|].
  { exfalso. destruct Hf as [Hf|]; [|lia]. pose proof (Z.mod_pos_bound o POWERFS_CHUNK_SIZE eq_refl).
    assert (1 <= (o mod POWERFS_CHUNK_SIZE + rem + POWERFS_CHUNK_SIZE - 1) / POWERFS_CHUNK_SIZE); [|lia].
    apply Z.div_le_lower_bound; unfold POWERFS_CHUNK_SIZE in *; lia. }
  destruct Hf as [Hf|]; [|lia].
  destruct (read_chunk_spec w pi o) as (r & w1 & -> & S1 & Hnf & Hdata & Herr); [done|done|].
  destruct r as [data|e|]; [|exists e, [], w1; rewrite app_nil_r, blen_nil; specialize (Herr e eq_refl);
    split_and!; (done || lia || (intros; lia))|done].
  specialize (Hdata data eq_refl) as ->. clear Herr Hnf.
  pose proof (Z.mod_pos_bound o POWERFS_CHUNK_SIZE eq_refl) as Hmod. pose proof (content_fits w pi o) as Hfit.
  destruct (read_piece_spec (content w pi o) (o mod POWERFS_CHUNK_SIZE) rem) as (Hp & Hin & Hbyte & Hend); [lia..|].
  set (piece := read_piece _ _ _) in *. set (k := blen piece) in *.
  assert (Hsame : forall i, 0 <= i < k -> content w pi (o + i) = content w pi o /\
                   (o + i) mod POWERFS_CHUNK_SIZE = o mod POWERFS_CHUNK_SIZE + i).
  { intros i Hi. destruct (chunk_of_add o i) as [E1 E2]; [lia..|]. split; [|done]. apply content_same_chunk; [done|lia..|done]. }
  assert (Hpiece : forall i, 0 <= i < k -> byte_at piece i = file_byte w pi (o + i)).
  { intros i Hi. rewrite Hbyte by done. unfold file_byte. destruct (Hsame i Hi) as [-> ->]. done. }
  destruct ((blen (content w pi o) <? POWERFS_CHUNK_SIZE) && (o mod POWERFS_CHUNK_SIZE + k >=? blen (content w pi o))) eqn:Es.
  - bool_to_prop. exists 0, piece, w1. split_and!; [done|done|done|unfold k in *; lia|done|]. intros _ _. split; [unfold k in *; lia|].
    replace (o + blen piece - 1) with (o + (k - 1)) by (unfold k; lia). destruct (Hsame (k - 1)) as [-> ->]; [lia|]. split; [done|lia].
  - assert (Hfull : o mod POWERFS_CHUNK_SIZE + k = POWERFS_CHUNK_SIZE \/ k = rem).
    { apply andb_false_iff in Es as [Es|Es]; [bool_to_prop; lia|].
      rewrite Z.geb_leb in Es. bool_to_prop. destruct Hend as [|[|]]; lia. }
    rewrite (u64_small (o + k)) by lia.
    destruct (IH w1 (o + k) (rem - k) (acc ++ piece)) as (ret & buf & w2 & -> & S2 & Hret & Hlen & Hbuf & Hshort);
      [done|by eapply same_mirrored|lia..| |].
    { apply fuel_step; [lia|lia|done|done]. }
    exists ret, (piece ++ buf), w2. rewrite app_assoc. split; [done|]. split; [by transitivity w1|]. split; [done|].
    rewrite blen_app. fold k. split; [lia|]. split.
    + intros i Hi. rewrite byte_at_app by lia. fold k. case_if; [apply Hpiece; lia|].
      rewrite Hbuf by lia. unfold file_byte. rewrite (same_content w w1) by done. by replace (o + k + (i - k)) with (o + i) by lia.
    + intros Hz Hl. destruct Hshort as [Hpos Hs]; [done|lia|]. split; [lia|].
      rewrite (same_content w w1) in Hs by done. by replace (o + (k + blen buf) - 1) with (o + k + blen buf - 1) by lia.
Qed.

Lemma read_fuel_enough o rem :
  0 <= rem -> (o mod POWERFS_CHUNK_SIZE + rem + POWERFS_CHUNK_SIZE - 1) / POWERFS_CHUNK_SIZE <= Z.of_nat (read_fuel rem).
Proof.
  intros Hr. pose proof (Z.mod_pos_bound o POWERFS_CHUNK_SIZE eq_refl).
  assert (0 <= rem / POWERFS_CHUNK_SIZE) by (apply Z.div_pos; [lia|done]).
  unfold read_fuel. rewrite !Nat2Z.inj_succ, Z2Nat.id by lia.
  assert ((o mod POWERFS_CHUNK_SIZE + rem + POWERFS_CHUNK_SIZE - 1) / POWERFS_CHUNK_SIZE < rem / POWERFS_CHUNK_SIZE + 3); [|lia].
  apply Z.div_lt_upper_bound; [done|]. pose proof (Z.div_mod rem POWERFS_CHUNK_SIZE ltac:(done)).
  pose proof (Z.mod_pos_bound rem POWERFS_CHUNK_SIZE eq_refl). lia.
Qed.

End crc.
End served.

(** ** Shards *)

Section shards.
Context {W : Type} `{VT : !VolumeTransport W} `{VS : !VolumeServers W} `{OK : !VolumeServersOk W}.
Context (crc32 : buffer -> Z) (junk : buffer).

Definition ids_ok (cs : list powerfs_chunk_map) : Prop :=
  Forall (fun c => is_u64 (cm_volume_id c) /\ is_u64 (cm_needle_id c)) cs.

(** The needle of shard [i] of a group. *)
Definition shard_needle (w : W) (pi : layout_inode) (i : Z) : option buffer :=
  c ← ec_chunk_at pi i; needle w (cm_volume_id c) (cm_needle_id c).

Lemma ec_chunk_ids pi cs i c :
  ec_chunks (pi_chunks pi) = Some cs -> ids_ok cs -> ec_chunk_at pi i = Some c ->
  is_u64 (cm_volume_id c) /\ is_u64 (cm_needle_id c).
Proof.
  unfold ec_chunk_at. intros -> Hcs. case_if; [done|]. unfold index. case_if; [done|].
  intros H. exact (Forall_lookup_1 _ _ _ _ Hcs H).
Qed.

Lemma read_shard_spec w pi cs base i s w' :
  ec_chunks (pi_chunks pi) = Some cs -> ids_ok cs -> read_shard crc32 junk w pi base i = (s, w') ->
  same_needles w w' /\ (forall b, s = Some b -> exists data, shard_needle w pi (base + Z.of_nat i) = Some data /\ b = blit junk 0 data).
Proof.
  intros Hcs Hids. unfold read_shard, shard_needle. destruct (ec_chunk_at pi _) as [c|] eqn:Ec; [|by intros [= <- <-]].
  destruct (vol_alloc w POWERFS_CHUNK_SIZE); cbn [negb]; [|by intros [= <- <-]].
  destruct (ec_chunk_ids _ _ _ _ Hcs Hids Ec) as [Hv Hn].
  destruct (powerfs_net_read_needle w _ _ _) as [[ret data] w1] eqn:Hr.
  apply read_needle_served in Hr as (Hle & S1 & D1 & _); [|done..].
  destruct ((ret <? 0) || crc_bad crc32 (cm_crc32 c) data) eqn:Eb; intros [= <- <-]; [done|].
  split; [done|]. intros b [= <-]. exists data. split; [|done]. cbn. apply D1. bool_to_prop. lia.
Qed.

Lemma read_shards_spec w pi cs base js ss w' :
  ec_chunks (pi_chunks pi) = Some cs -> ids_ok cs -> read_shards crc32 junk w pi base js = (ss, w') ->
  length ss = length js /\ same_needles w w' /\
  (forall k i b, js !! k = Some i -> ss !! k = Some (Some b) ->
     exists data, shard_needle w pi (base + Z.of_nat i) = Some data /\ b = blit junk 0 data).
Proof.
  intros Hcs Hids. revert w ss. induction js as [|j js IH]; intros w ss; cbn [read_shards]; [by intros [= <- <-]|].
  destruct (read_shard crc32 junk w pi base j) as [s w1] eqn:Hs.
  destruct (read_shards crc32 junk w1 pi base js) as [rest w2] eqn:Hr. intros [= <- <-].
  apply (read_shard_spec _ _ cs) in Hs as [S1 D1]; [|done..]. apply IH in Hr as (Hl & S2 & D2).
  split; [cbn; lia|]. split; [intros v n; by rewrite S2|].
  intros [|k] i b Hi Hb; cbn in Hi, Hb; simplify_eq; [by apply D1|].
  destruct (D2 k i b Hi Hb) as (data & Hd & ->). exists data. split; [|done].
  rewrite <- Hd. unfold shard_needle. destruct (ec_chunk_at pi _); [cbn; by rewrite S1|done].
Qed.

(** A list of whole chunks, one after the other. *)
Lemma byte_at_concat (l : list buffer) size i :
  0 < size -> Forall (fun b => blen b = size) l -> 0 <= i < size * Z.of_nat (length l) ->
  exists b, l !! Z.to_nat (i / size) = Some b /\ byte_at (concat l) i = byte_at b (i mod size).
Proof.
  intros Hs Hl. revert i. induction Hl as [|b l Hb Hl IH]; intros i Hi; [cbn in Hi; lia|]. cbn [concat length] in *.
  rewrite byte_at_app, Hb by lia. case_if.
  - exists b. rewrite Z.div_small, Z.mod_small by lia. done.
  - destruct (IH (i - size)) as (b' & H1 & H2); [lia|]. exists b'.
    replace i with (i - size + 1 * size) at 1 by lia. rewrite Z.div_add by lia.
    assert (0 <= (i - size) / size) by (apply Z.div_pos; lia).
    rewrite Z2Nat.inj_add, Nat.add_comm by lia. cbn. split; [done|]. rewrite H2. f_equal.
    replace i with (i - size + 1 * size) at 2 by lia. by rewrite Z.mod_add by lia.
Qed.

Lemma blen_concat (l : list buffer) size :
  Forall (fun b => blen b = size) l -> blen (concat l) = size * Z.of_nat (length l).
Proof. induction 1 as [|b l Hb _ IH]; cbn [concat length]; [rewrite blen_nil; lia|]. rewrite blen_app, IH. lia. Qed.

(** The data shard that holds the byte at [o], by its position in the group;
    and that byte of the erasure-coded file. *)
Definition ec_shard (w : W) (pi : layout_inode) (o : Z) : buffer :=
  let d := ec_data_shards (pi_chunks pi) in let total := d + ec_parity_shards (pi_chunks pi) in
  default [] (shard_needle w pi (o / (d * POWERFS_CHUNK_SIZE) * total + (o / POWERFS_CHUNK_SIZE) mod d)).

Definition ec_file_byte (w : W) (pi : layout_inode) (o : Z) : Z := byte_at (ec_shard w pi o) (o mod POWERFS_CHUNK_SIZE).

Lemma shard_fits w pi i data : shard_needle w pi i = Some data -> blen data <= POWERFS_CHUNK_SIZE.
Proof. unfold shard_needle. destruct (ec_chunk_at pi i); [|done]. apply needle_fits. Qed.

(** Position [k] of the group of [offset]. *)
Lemma group_position d offset k :
  0 < d -> 0 <= offset -> 0 <= k -> offset mod (d * POWERFS_CHUNK_SIZE) + k < d * POWERFS_CHUNK_SIZE ->
  let g := offset mod (d * POWERFS_CHUNK_SIZE) + k in
  (offset + k) / (d * POWERFS_CHUNK_SIZE) = offset / (d * POWERFS_CHUNK_SIZE) /\
  ((offset + k) / POWERFS_CHUNK_SIZE) mod d = g / POWERFS_CHUNK_SIZE /\
  (offset + k) mod POWERFS_CHUNK_SIZE = g mod POWERFS_CHUNK_SIZE /\ 0 <= g / POWERFS_CHUNK_SIZE < d.
Proof.
  intros Hd Ho Hk Hg g. set (C := POWERFS_CHUNK_SIZE) in *. assert (HC : 0 < C) by done. set (q := offset / (d * C)).
  pose proof (Z.div_mod offset (d * C) ltac:(nia)) as Hdm. fold q in Hdm.
  pose proof (Z.mod_pos_bound offset (d * C) ltac:(nia)) as Hmb.
  assert (E : offset + k = d * C * q + g) by (unfold g; lia).
  assert (Hq : 0 <= g / C < d) by (split; [apply Z.div_pos; lia|apply Z.div_lt_upper_bound; nia]).
  assert (E2 : (offset + k) / C = d * q + g / C).
  { rewrite E. replace (d * C * q + g) with (g + d * q * C) by lia. rewrite Z.div_add by lia. lia. }
  split_and!; [|rewrite E2| |lia|lia].
  - symmetry. apply (Z.div_unique_pos _ _ _ g); lia.
  - symmetry. apply (Z.mod_unique_pos _ _ q); lia.
  - rewrite E. replace (d * C * q + g) with (g + d * q * C) by lia. by rewrite Z.mod_add by lia.
Qed.

Lemma avail_lookup n (l : list (option buffer)) i s :
  forallb is_avail (take n l) = true -> (i < n)%nat -> l !! i = Some s -> exists b, s = Some b.
Proof.
  intros Ha Hi Hs. apply Is_true_true_2, forallb_True in Ha.
  apply Forall_lookup_1 with (i := i) (x := s) in Ha; [|by rewrite lookup_take_lt]. destruct s; [eauto|done].
Qed.

(** The data shards of a group that was read are chunks that start with its
    needles. *)
Lemma group_shards w pi base d shards :
  blen junk = POWERFS_CHUNK_SIZE -> 0 <= d <= Z.of_nat (length shards) ->
  (forall i b, shards !! i = Some (Some b) ->
     exists data, shard_needle w pi (base + Z.of_nat i) = Some data /\ b = blit junk 0 data) ->
  forallb is_avail (take (Z.to_nat d) shards) = true ->
  let l := (fun s => default junk s) <$> take (Z.to_nat d) shards in
  length l = Z.to_nat d /\ Forall (fun b => blen b = POWERFS_CHUNK_SIZE) l /\
  (forall i b, l !! i = Some b ->
     exists data, shard_needle w pi (base + Z.of_nat i) = Some data /\ b = blit junk 0 data).
Proof.
  intros Hj Hlen Hsh Ha l.
  assert (Hll : length l = Z.to_nat d) by (unfold l; rewrite length_fmap, length_take; lia).
  assert (H : forall i b, l !! i = Some b ->
     exists data, shard_needle w pi (base + Z.of_nat i) = Some data /\ b = blit junk 0 data).
  { intros i b Hi. pose proof (lookup_lt_Some _ _ _ Hi) as Hlt. rewrite Hll in Hlt. unfold l in Hi.
    rewrite list_lookup_fmap, lookup_take_lt in Hi by done. destruct (shards !! i) as [s|] eqn:Hs; [|done].
    destruct (avail_lookup _ _ _ _ Ha Hlt Hs) as [x ->]. injection Hi as <-. by apply Hsh. }
  split; [done|]. split; [|done]. apply Forall_lookup. intros i b Hi. destruct (H i b Hi) as (data & Hd & ->).
  apply shard_fits in Hd. pose proof (blen_nonneg data). rewrite blit_length; lia.
Qed.

End shards.

(** Two chunks of a file have different needles. *)
Lemma flat_needles_differ k a b :
  0 <= a < 2 ^ 63 -> 0 <= b < 2 ^ 63 -> u64 (k + a / POWERFS_CHUNK_SIZE) = u64 (k + b / POWERFS_CHUNK_SIZE) ->
  a / POWERFS_CHUNK_SIZE = b / POWERFS_CHUNK_SIZE.
Proof.
  intros Ha Hb E. assert (H : forall x, 0 <= x < 2 ^ 63 -> 0 <= x / POWERFS_CHUNK_SIZE < 2 ^ 63).
  { intros x Hx. split; [apply Z.div_pos; [lia|done]|]. apply Z.div_lt_upper_bound; [done|]. unfold POWERFS_CHUNK_SIZE. lia. }
  pose proof (H a Ha). pose proof (H b Hb). unfold u64 in E. div_lia.
Qed.

(** ** Theorems *)

Section theorems.
Context {W : Type} `{VT : !VolumeTransport W} `{VS : !VolumeServers W} `{OK : !VolumeServersOk W}.
Context (crc32 : buffer -> Z) (junk : buffer) (ec_alloc : alloc_site -> bool).

(** [powerfs_net_read] on a file that is not erasure-coded. *)
Lemma net_read_spec (w : W) (pi : layout_inode) (offset len cap : Z) :
  chunked pi -> mirrored w pi -> reliability pi <> POWERFS_RELIABILITY_EC ->
  0 <= offset -> 0 <= len <= cap -> offset + len < 2 ^ 63 ->
  exists ret buf w', powerfs_net_read crc32 junk ec_alloc w pi offset len cap = Some (ret, buf, w') /\
    same_needles w w' /\ ret <= 0 /\ blen buf <= len /\
    (forall i, 0 <= i < blen buf -> byte_at buf i = file_byte w pi (offset + i)) /\
    (ret = 0 -> blen buf < len -> 0 < blen buf /\ blen (content w pi (offset + blen buf - 1)) < POWERFS_CHUNK_SIZE /\
       blen (content w pi (offset + blen buf - 1)) <= (offset + blen buf - 1) mod POWERFS_CHUNK_SIZE + 1).
Proof.
  intros Hc Hm Hr Ho Hl Hb. unfold powerfs_net_read. ltb_false. destruct (Z.eqb_spec (reliability pi) POWERFS_RELIABILITY_EC); [done|].
  cbn [andb]. destruct (vol_alloc w POWERFS_CHUNK_SIZE); cbn [negb].
  2:{ exists (- ENOMEM), [], w. rewrite blen_nil. split_and!; (done || lia || (intros; lia)). }
  destruct (read_loop_spec crc32 (read_fuel len) w pi offset len []) as (ret & buf & w' & H); [done|done|lia|lia|lia| |by exists ret, buf, w'].
  left. apply read_fuel_enough. lia.
Qed.

(** C28. Refinement of the read path: on a file that is not erasure-coded,
    [powerfs_net_read] always returns, changes no needle, and on success every
    byte it stored is the byte of the file at that offset, as the needles (or
    replicas with the same content) hold it and zero where they hold nothing.
    It returns fewer bytes than asked for only if the needle of the last byte
    is shorter than a chunk and ends there or before. *)
Theorem read_returns_file (w : W) (pi : layout_inode) (offset len cap : Z) :
  chunked pi -> mirrored w pi -> reliability pi <> POWERFS_RELIABILITY_EC ->
  0 <= offset -> 0 <= len <= cap -> offset + len < 2 ^ 63 ->
  exists ret buf w', powerfs_net_read crc32 junk ec_alloc w pi offset len cap = Some (ret, buf, w') /\
    same_needles w w' /\ ret <= 0 /\ blen buf <= len /\
    (forall i, 0 <= i < blen buf -> byte_at buf i = file_byte w pi (offset + i)) /\
    (ret = 0 -> blen buf < len -> 0 < blen buf /\ blen (content w pi (offset + blen buf - 1)) < POWERFS_CHUNK_SIZE /\
       blen (content w pi (offset + blen buf - 1)) <= (offset + blen buf - 1) mod POWERFS_CHUNK_SIZE + 1).
Proof. apply net_read_spec. Qed.

(** C29. Reads of an erasure-coded file: with all allocations granted,
    [powerfs_net_read_ec] reads every shard of the group; if all data shards
    can be read, it succeeds and stores as many bytes as asked for, up to the
    end of the group: the bytes of the file where its data shards hold them,
    and what the allocated chunk contained where a shard is shorter than a
    chunk.  If one data shard is lost it fails with [-EINVAL], however many
    parity shards are left, because the codec cannot be initialised. *)
Theorem ec_read_outcome (w : W) (pi : layout_inode) (cs : list powerfs_chunk_map) (offset len cap : Z) :
  let c := pi_chunks pi in let d := ec_data_shards c in let total := d + ec_parity_shards c in
  let base := offset / (d * POWERFS_CHUNK_SIZE) * total in
  0 < d -> 0 < ec_parity_shards c -> total <= 255 -> 0 <= offset < 2 ^ 63 -> 0 <= len <= cap ->
  ec_chunks c = Some cs -> ids_ok cs -> base + total <= ec_chunk_count c < 2 ^ 32 -> blen junk = POWERFS_CHUNK_SIZE ->
  (forall w n, vol_alloc w n = true) -> (forall s, ec_alloc s = true) ->
  exists shards w', read_shards crc32 junk w pi base (seq 0 (Z.to_nat total)) = (shards, w') /\ same_needles w w' /\
  if forallb is_avail (take (Z.to_nat d) shards) then
    exists buf, powerfs_net_read_ec crc32 junk ec_alloc w pi offset len cap = Some (0, buf, w') /\
      blen buf = Z.min len (d * POWERFS_CHUNK_SIZE - offset mod (d * POWERFS_CHUNK_SIZE)) /\
      (forall i, 0 <= i < blen buf -> let o := offset + i in
         byte_at buf i = if o mod POWERFS_CHUNK_SIZE <? blen (ec_shard w pi o) then ec_file_byte w pi o
                         else byte_at junk (o mod POWERFS_CHUNK_SIZE))
  else powerfs_net_read_ec crc32 junk ec_alloc w pi offset len cap = Some (- EINVAL, [], w').
Proof.
  intros c d total base Hd Hp Ht Ho Hl Hcs Hids Hcnt Hj Hal Heal.
  destruct (read_shards crc32 junk w pi base (seq 0 (Z.to_nat total))) as [shards w'] eqn:Hrs.
  pose proof (read_shards_spec crc32 junk w pi cs base _ shards w' Hcs Hids Hrs) as (Hlen & Hsame & Hsh).
  rewrite length_seq in Hlen. exists shards, w'. split; [done|]. split; [done|].
  set (G := d * POWERFS_CHUNK_SIZE) in *. assert (HG : 0 < G) by (unfold G; apply Z.mul_pos_pos; done).
  assert (Hq : 0 <= offset / G) by (apply Z.div_pos; lia). assert (Hbase : 0 <= base) by (unfold base; lia).
  assert (Hread : powerfs_net_read_ec crc32 junk ec_alloc w pi offset len cap =
    match group_data junk ec_alloc w' d (ec_parity_shards c) shards with
    | inl e => Some (e, [], w')
    | inr group => Some (0, slice group (offset mod G) (Z.min (Z.min len (G - offset mod G)) cap), w')
    end).
  { unfold powerfs_net_read_ec. fold c d G. rewrite (proj2 (Z.eqb_neq G 0)) by lia. rewrite (u32_small (d + _)) by lia. fold total.
    fold base. rewrite !(u64_small base), (u64_small (base + total)) by lia. rewrite Hcs, !Hal.
    rewrite bool_decide_eq_false_2 by done. rewrite Z.gtb_ltb, (proj2 (Z.ltb_ge _ _)) by lia. cbn [orb negb andb]. rewrite Hrs.
    replace (offset - offset / G * G) with (offset mod G) by (pose proof (Z.div_mod offset G ltac:(lia)); lia). done. }
  rewrite Hread. unfold group_data. rewrite Hal. destruct (forallb is_avail (take (Z.to_nat d) shards)) eqn:Ha; cbn [negb].
  2:{ by rewrite ec_init_always_fails by (lia || done). }
  pose proof (Z.mod_pos_bound offset G HG) as Hmod.
  destruct (group_shards junk w pi base d shards) as (Hll & Hlf & Hnth); [done|unfold total in *; lia| |done|].
  { intros i b Hi. apply (Hsh i i b); [|done]. apply lookup_seq. apply lookup_lt_Some in Hi. lia. }
  set (l := _ <$> take _ _) in *.
  unfold join_shards. fold l. rewrite (Z.min_l _ cap) by lia. eexists. split; [done|].
  assert (Hbl : blen (slice (concat l) (offset mod G) (Z.min len (G - offset mod G))) = Z.min len (G - offset mod G)).
  { rewrite blen_slice; [done|lia|lia|]. rewrite (blen_concat _ POWERFS_CHUNK_SIZE Hlf), Hll. unfold G in *. lia. }
  split; [done|]. intros i Hi. rewrite Hbl in Hi. rewrite byte_at_slice by lia. ltb_true.
  destruct (group_position d offset i) as (P1 & P2 & P3 & P4); [lia|lia|lia|fold G; lia|]. fold G in P1, P2, P3, P4.
  destruct (byte_at_concat l POWERFS_CHUNK_SIZE (offset mod G + i)) as (b & Hb & ->); [done|done|unfold G in *; rewrite Hll; lia|].
  apply Hnth in Hb as (data & Hb & ->). rewrite Z2Nat.id in Hb by lia. cbv zeta.
  unfold ec_file_byte, ec_shard. fold c d G total. rewrite P1, P2, P3. fold base. rewrite Hb. cbn [default].
  pose proof (shard_fits _ _ _ _ Hb). pose proof (blen_nonneg data).
  pose proof (Z.mod_pos_bound (offset mod G + i) POWERFS_CHUNK_SIZE eq_refl).
  rewrite byte_at_blit, Z.sub_0_r, Z.add_0_l by lia. by rewrite (proj2 (Z.leb_le 0 _)) by lia.
Qed.

(** A Flat file addressed by its key alone. *)
Definition flat_file (pi : layout_inode) : Prop :=
  chunked pi /\ placement pi = POWERFS_PLACEMENT_FLAT /\ chunks (pi_chunks pi) = None /\
  volume_id pi <> 0 /\ file_key pi <> 0 /\ is_u64 (volume_id pi) /\ is_u64 (file_key pi).

Lemma locate_flat_file pi o :
  flat_file pi -> 0 <= o < 2 ^ 63 ->
  powerfs_locate_chunk pi o = At (volume_id pi) (u64 (file_key pi + o / POWERFS_CHUNK_SIZE)).
Proof.
  intros ((Hi & Hg & Hc & _) & Hp & Hch & Hv & Hk & _) Ho. rewrite locate_by_chunk, Hc by done.
  unfold chunk_address, explicit_entry, locate_flat. rewrite Hp, Hch. cbn [Z.eqb is_stripe orb POWERFS_PLACEMENT_FLAT].
  rewrite !(proj2 (Z.eqb_neq _ 0)) by done. by destruct (volume_ids (pi_stripe pi)).
Qed.

(** The chunk [powerfs_net_write] sends. *)
Lemma rewritten_chunk ex oin data i :
  blen junk = POWERFS_CHUNK_SIZE -> blen ex <= POWERFS_CHUNK_SIZE -> 0 <= oin ->
  oin + blen data <= POWERFS_CHUNK_SIZE -> 0 <= i ->
  let len := Z.max (blen ex) (oin + blen data) in let buf := take (Z.to_nat len) (blit (blit junk 0 ex) oin data) in
  blen buf = len /\
  byte_at buf i = if (oin <=? i) && (i <? oin + blen data) then byte_at data (i - oin)
                  else if (blen ex <=? i) && (i <? oin) then byte_at junk i else byte_at ex i.
Proof.
  intros Hj He Ho Hd Hi len buf. pose proof (blen_nonneg ex). pose proof (blen_nonneg data).
  assert (Hb1 : blen (blit junk 0 ex) = POWERFS_CHUNK_SIZE) by (rewrite blit_length; lia).
  assert (Hb2 : blen (blit (blit junk 0 ex) oin data) = POWERFS_CHUNK_SIZE) by (rewrite blit_length; lia).
  split; [unfold buf; apply blen_take_le; lia|]. unfold buf. rewrite byte_at_take, byte_at_blit by lia.
  rewrite byte_at_blit by lia. replace (i - 0) with i by lia.
  destruct (Z.leb_spec oin i), (Z.ltb_spec i (oin + blen data)), (Z.leb_spec 0 i), (Z.ltb_spec i (0 + blen ex)),
    (Z.leb_spec (blen ex) i), (Z.ltb_spec i oin), (Z.ltb_spec i len); cbn [andb]; try lia; try done.
  by rewrite (byte_at_beyond ex) by lia.
Qed.

Lemma content_needle w pi o v n : powerfs_locate_chunk pi o = At v n -> content w pi o = default [] (needle w v n).
Proof. intros E. unfold content. by rewrite E. Qed.

(** Direct writes: a successful [powerfs_net_write] to a Flat file stores
    the data where later reads of the file find it and leaves every other
    byte as it was, except that the bytes between the end of the old needle
    and the start of the write become what the allocated chunk contained. *)
Theorem net_write_spec (w w' : W) (pi : layout_inode) (ino offset n : Z) (data : buffer) :
  flat_file pi -> is_u64 ino -> blen junk = POWERFS_CHUNK_SIZE -> 0 <= offset < 2 ^ 63 ->
  powerfs_net_write junk w ino (volume_id pi) (file_key pi) offset data = (0, n, w') ->
  n = blen data /\ offset mod POWERFS_CHUNK_SIZE + blen data <= POWERFS_CHUNK_SIZE /\
  blen (content w' pi offset) = Z.max (blen (content w pi offset)) (offset mod POWERFS_CHUNK_SIZE + blen data) /\
  forall o, 0 <= o < 2 ^ 63 ->
  file_byte w' pi o =
    if (offset <=? o) && (o <? offset + blen data) then byte_at data (o - offset)
    else if (o / POWERFS_CHUNK_SIZE =? offset / POWERFS_CHUNK_SIZE)
         && (blen (content w pi offset) <=? o mod POWERFS_CHUNK_SIZE) && (o <? offset)
    then byte_at junk (o mod POWERFS_CHUNK_SIZE) else file_byte w pi o.
Proof.
  intros Hf Hino Hj Ho. pose proof (locate_flat_file pi offset Hf Ho) as Hloc. pose proof Hf as (Hch & _ & _ & Hv & Hk & Hvu & Hku).
  unfold powerfs_net_write. rewrite !(proj2 (Z.eqb_neq _ 0)) by done. cbn [orb].
  set (nid := u64 (file_key pi + offset / POWERFS_CHUNK_SIZE)) in *. set (oin := offset mod POWERFS_CHUNK_SIZE).
  pose proof (Z.mod_pos_bound offset POWERFS_CHUNK_SIZE eq_refl) as Hm. fold oin in Hm. case_if; [done|].
  destruct (vol_alloc w POWERFS_CHUNK_SIZE); cbn [negb]; [|done].
  destruct (powerfs_net_read_needle w _ nid _) as [[ret ex] w1] eqn:Hr.
  apply read_needle_served in Hr as (Hle & S1 & D1 & N1); [|done|apply u64_range].
  destruct ((ret <? 0) && negb (ret =? - ENOENT)) eqn:Eb; [intros [= -> _ _]; by bool_to_prop|].
  assert (Hex : (if ret <? 0 then [] else ex) = content w pi offset).
  { rewrite (content_needle _ _ _ _ _ Hloc). destruct (Z.ltb_spec ret 0).
    - apply andb_false_iff in Eb as [|Eb]; [done|]. apply negb_false_iff, Z.eqb_eq in Eb. by rewrite N1.
    - by rewrite D1 by lia. }
  rewrite Hex. set (c := content w pi offset) in *. pose proof (content_fits w pi offset) as Hfit. fold c in Hfit.
  pose proof (fun i => rewritten_chunk c oin data i Hj Hfit ltac:(lia) ltac:(lia)) as Hrc. cbv zeta in Hrc.
  set (buf := take _ _) in *. destruct (Hrc 0 ltac:(lia)) as [Hbl _].
  destruct (powerfs_net_write_needle w1 _ nid ino buf None) as [r w2] eqn:Hw. case_if; [intros [= -> _ _]; lia|].
  intros [= <- <-]. assert (r = 0) as ->.
  { unfold powerfs_net_write_needle in Hw. destruct (powerfs_net_send_to_volume _ _ _ _ _ _ _) as [[rr ?] ?] eqn:Es.
    simplify_eq. apply Z.le_antisymm; [|done]. apply rpc_result_nonpos. by eapply send_to_volume_status. }
  apply write_needle_served in Hw; [|done|apply u64_range|done|done|lia]. split; [done|]. split; [lia|].
  pose proof (put_whole _ _ _ _ _ Hw) as Hw1. rewrite S1, <- (content_needle _ _ _ _ _ Hloc) in Hw1. fold c in Hw1.
  specialize (Hw1 ltac:(lia)). destruct Hw as [_ Hw2].
  split; [by rewrite (content_needle w2 _ _ _ _ Hloc), Hw1|]. intros o Hor.
  pose proof (Z.div_mod o POWERFS_CHUNK_SIZE ltac:(done)). pose proof (Z.div_mod offset POWERFS_CHUNK_SIZE ltac:(done)).
  pose proof (Z.mod_pos_bound o POWERFS_CHUNK_SIZE eq_refl) as Hmo. unfold file_byte.
  destruct (Z.eqb_spec (o / POWERFS_CHUNK_SIZE) (offset / POWERFS_CHUNK_SIZE)) as [Eq|Ne]; cbn [andb].
  - rewrite (content_same_chunk w pi o offset), (content_same_chunk w2 pi o offset) by done. fold c.
    rewrite (content_needle w2 _ _ _ _ Hloc), Hw1. change (default [] (Some buf)) with buf.
    destruct (Hrc (o mod POWERFS_CHUNK_SIZE) ltac:(lia)) as [_ ->].
    destruct (Z.leb_spec offset o), (Z.leb_spec oin (o mod POWERFS_CHUNK_SIZE)), (Z.ltb_spec o (offset + blen data)),
      (Z.ltb_spec (o mod POWERFS_CHUNK_SIZE) (oin + blen data)), (Z.ltb_spec (o mod POWERFS_CHUNK_SIZE) oin), (Z.ltb_spec o offset);
      cbn [andb]; try lia; rewrite ?andb_true_r, ?andb_false_r; try done. f_equal. lia.
  - assert (Hout : (offset <=? o) && (o <? offset + blen data) = false).
    { destruct (Z.leb_spec offset o), (Z.ltb_spec o (offset + blen data)); try done. exfalso. nia. }
    rewrite Hout. f_equal. unfold content. rewrite (locate_flat_file pi o) by done. f_equal. rewrite Hw2, S1; [done|].
    intros [= En]. apply Ne. by eapply flat_needles_differ.
Qed.

(** Requests: the server reads back volume, needle, inode, offset and token of
    a write in order, for every token of at most 63 bytes, and the volume,
    count and needles of a flush. *)
Theorem needle_requests_readable (v n ino off : Z) (tok : option buffer) (keys : list Z) :
  is_u64 v -> is_u64 n -> is_u64 ino -> is_u64 off -> (forall t, tok = Some t -> bytes_ok t) ->
  Forall is_u64 keys -> Z.of_nat (length keys) < 2 ^ 32 ->
  readable (request 512 (write_ops v n ino None tok)) (write_ops v n ino None tok) /\
  readable (request 256 (write_ops v n ino (Some off) tok)) (write_ops v n ino (Some off) tok) /\
  readable (request 64 (read_ops v n)) (read_ops v n) /\
  readable (request (64 + Z.of_nat (length keys) * 16) (flush_ops v keys)) (flush_ops v keys).
Proof.
  intros Hv Hn Hi Ho Ht Hk Hlen.
  assert (Hw : forall o, (forall x, o = Some x -> is_u64 x) -> Forall op_ok (write_ops v n ino o tok) /\
     blen (ops_message (write_ops v n ino o tok)) <= 200).
  { intros o Hox. pose proof kernel_client_ok. unfold write_ops.
    assert (Htk : Forall op_ok (token_ops tok) /\ blen (ops_message (token_ops tok)) <= 68).
    { unfold token_ops. destruct tok as [t|]; [|split; [constructor|done]]. specialize (Ht t eq_refl).
      case_if; [|split; [constructor|done]]. split; [ops_ok|]. autorewrite with pfs. cbn [op_field snd]. lia. }
    assert (Hof : Forall op_ok (match o with Some x => [OpU64 POWERFS_NET_FLD_OFFSET x] | None => [] end) /\
       blen (ops_message (match o with Some x => [OpU64 POWERFS_NET_FLD_OFFSET x] | None => [] end)) <= 13).
    { destruct o as [x|]; [|split; [constructor|done]]. specialize (Hox x eq_refl). split; [ops_ok|].
      autorewrite with pfs. cbn [op_field snd]. autorewrite with pfs. done. }
    destruct Htk as [T1 T2], Hof as [O1 O2]. split.
    - apply Forall_app. split; [ops_ok|]. apply Forall_app. split; [done|]. apply Forall_app. split; [done|].
      constructor; [|constructor]. cbn [op_ok]. split; [done|]. split; [done|]. by vm_compute.
    - rewrite !ops_message_app, !blen_app. autorewrite with pfs. cbn [op_field snd]. autorewrite with pfs.
      change (blen kernel_client) with 13. cbn [Z.of_nat Pos.of_succ_nat Pos.succ]. lia. }
  destruct (Hw None) as [A1 A2]; [done|]. destruct (Hw (Some off)) as [B1 B2]; [by intros x [= <-]|].
  split; [apply request_readable; [done|lia]|]. split; [apply request_readable; [done|lia]|].
  split. { apply request_readable; [unfold read_ops; ops_ok|]. unfold read_ops. autorewrite with pfs. cbn [op_field snd].
    autorewrite with pfs. cbn. lia. }
  assert (Hf : Forall op_ok (OpU64 POWERFS_NET_FLD_FILE_KEY <$> keys) /\
     blen (ops_message (OpU64 POWERFS_NET_FLD_FILE_KEY <$> keys)) = 13 * Z.of_nat (length keys)).
  { clear Hlen. induction Hk as [|k keys Hk Hks [IH1 IH2]]; [split; [constructor|done]|]. rewrite fmap_cons. split.
    - constructor; [by split|done].
    - rewrite blen_ops_message_cons, IH2. cbn [op_field snd length]. autorewrite with pfs. lia. }
  destruct Hf as [F1 F2]. unfold flush_ops. apply request_readable.
  - apply Forall_app. split; [|done]. repeat constructor; unfold is_u64; (done || lia || apply Hv).
  - rewrite ops_message_app, blen_app, F2. autorewrite with pfs. cbn [op_field snd]. autorewrite with pfs. cbn. lia.
Qed.

End theorems.

(** ** A cluster of one server *)

Module Sample.

(** Needles, and the volumes whose server does not answer. *)
Record world := mk_world { w_pool : vol_pool; w_needles : gmap (Z * Z) buffer; w_down : list Z }.

(** What the server decodes from a request. *)
Definition target (body : buffer) : option (Z * Z) :=
  let '(_, v, d) := powerfs_tlv_dec_u64 (powerfs_tlv_dec_init body (blen body)) POWERFS_NET_FLD_INO in
  let '(_, n, _) := powerfs_tlv_dec_u64 d POWERFS_NET_FLD_FILE_KEY in
  match v, n with Some v, Some n => Some (v, n) | _, _ => None end.

Definition chunk_of (b : buffer) : buffer := take (Z.to_nat POWERFS_CHUNK_SIZE) b.

#[global] Arguments chunk_of : simpl never.

Definition stored (w : world) (v n : Z) : option buffer := chunk_of <$> w_needles w !! (v, n).

Definition answer (w : world) (msg : Z) (body data : buffer) : Z * Z * buffer * world :=
  match target body with
  | None => (0, 5, [], w)
  | Some (v, n) =>
      if bool_decide (v ∈ w_down w) then (- ETIMEDOUT, 0, [], w)
      else if msg =? POWERFS_NET_MSG_READ_NEEDLE then
        match stored w v n with Some b => (0, 0, b, w) | None => (0, 1, [], w) end
      else if (msg =? POWERFS_NET_MSG_WRITE_NEEDLE) && (blen data <=? POWERFS_CHUNK_SIZE) then
        (0, 0, [], mk_world (w_pool w) (<[(v, n) := patch (default [] (stored w v n)) 0 data]> (w_needles w)) (w_down w))
      else (0, 5, [], w)
  end.

#[export] Instance sample_transport : VolumeTransport world := {
  vol_pool_of := w_pool;
  vol_alloc := fun _ _ => true;
  conn_send := fun w _ msg body data _ => answer w msg body data;
  conn_submit := fun w _ _ _ _ => (0, w);
  conn_wr_slot := fun w _ => (true, w);
  conn_record_start := fun w _ _ => w;
  conn_record_failed := fun w _ => w
}.

#[export] Instance sample_servers : VolumeServers world := { needle := stored }.

Lemma readable_target body v n os :
  readable body (OpU64 POWERFS_NET_FLD_INO v :: OpU64 POWERFS_NET_FLD_FILE_KEY n :: os) -> target body = Some (v, n).
Proof. intros (d1 & E1 & d2 & E2 & _). unfold target. by rewrite E1, E2. Qed.

#[export] Instance sample_servers_ok : VolumeServersOk world.
Proof.
  split.
  - intros w v n b E. apply fmap_Some in E as (x & _ & ->). by apply blen_take_max.
  - intros w c msg body data cap ret st resp w'. cbn. unfold answer. intros H.
    repeat (case_match; simplify_eq); (split; [done|]); (split; [done|done]).
  - intros w c v n ret st resp w' Hv Hn _. unfold conn_send, sample_transport, answer.
    rewrite (readable_target _ v n []).
    2:{ by apply (needle_requests_readable v n 0 0 None []). }
    case_bool_decide; [by intros [= <- <- <- <-]|]. rewrite Z.eqb_refl.
    destruct (stored w v n) eqn:E; intros [= <- <- <- <-]; (split; [done|]); split; (done || by intros).
  - intros w c v n ino tok data st resp w' Hv Hn Hi Ht _ Hd. unfold conn_send, sample_transport, answer.
    destruct (needle_requests_readable v n ino 0 tok []) as (Hr & _); [done..|].
    unfold write_ops in Hr at 2. cbn [app] in Hr. rewrite (readable_target _ _ _ _ Hr).
    case_bool_decide; [done|]. change (POWERFS_NET_MSG_WRITE_NEEDLE =? POWERFS_NET_MSG_READ_NEEDLE) with false.
    rewrite Z.eqb_refl, (proj2 (Z.leb_le _ _)) by done. cbn [andb]. intros [= <- <- <-] _.
    assert (Hp : chunk_of (patch (default [] (stored w v n)) 0 data) = patch (default [] (stored w v n)) 0 data).
    { apply take_blen_le. rewrite blen_patch by lia.
      assert (blen (default [] (stored w v n)) <= POWERFS_CHUNK_SIZE); [|lia].
      unfold stored. destruct (w_needles w !! (v, n)) as [x|]; [by apply blen_take_max|done]. }
    split; cbn; unfold stored; cbn.
    + right. rewrite lookup_insert_eq. exact (f_equal Some Hp).
    + intros v' n' Hne. by rewrite lookup_insert_ne by congruence.
  - intros w c len. by split.
  - intros w c v n. done.
Qed.

(** One data connection, volume 1, a Flat file with key 100. *)
Definition one_server : vol_pool := mk_pool false [mk_conn [49] 80 POWERFS_NET_SERVER_VOLUME true true] [mk_route 1 0 (-1)].

Definition plain (placement key : Z) (st : stripe_part) (ch : chunk_part) : layout_inode :=
  mk_linode placement 0 0 POWERFS_CHUNK_SIZE 1 key (mk_inline None 0 false 8192) st ch.
Definition no_stripe : stripe_part := mk_stripe 0 0 0 None 0 None.
Definition no_chunks : chunk_part := mk_chunks None 0 None 0 None 0 0 0.
Definition flat : layout_inode := plain POWERFS_PLACEMENT_FLAT 100 no_stripe no_chunks.

Lemma flat_geometry : geometry flat.
Proof. unfold geometry. vm_compute. split_and!; try done. exists 0. reflexivity. Qed.

Lemma flat_is_flat : flat_file flat.
Proof.
  assert (Hinv : layout_inv flat) by (unfold layout_inv; cbn; split_and!; done).
  split; [|split_and!; try done; unfold is_u64; cbn; lia].
  split; [done|]. split; [apply flat_geometry|]. split; [done|]. intros o v n. unfold powerfs_locate_chunk. cbn.
  unfold locate_computed, locate_flat. cbn. intros [= <- <-]. split; [done|apply u64_range].
Qed.

Lemma flat_mirrored w : mirrored w flat.
Proof. intros o v n r _ Hr. discriminate Hr. Qed.

Lemma junk_length x : blen (replicate (Z.to_nat POWERFS_CHUNK_SIZE) x) = POWERFS_CHUNK_SIZE.
Proof. by apply blen_replicate_z. Qed.

(** Three bytes in the first chunk, nothing in the second, three in the third. *)
Definition sparse : world := mk_world one_server {[(1, 100) := [1; 2; 3]; (1, 102) := [7; 8; 9]]} [].

Definition crc0 (b : buffer) : Z := 0.
Definition all_alloc (s : alloc_site) : bool := true.

Definition read_sparse (offset len : Z) : option (Z * buffer) :=
  '(ret, buf, _) ← powerfs_net_read crc0 [] all_alloc sparse flat offset len len; Some (ret, buf).

(** A read that starts in the hole ends with it, although the third chunk has
    data: the bytes the caller takes for zeros are 7 and 8. *)
Example hole_ends_read :
  read_sparse (2 * POWERFS_CHUNK_SIZE - 2) 4 = Some (0, [0; 0]) /\
  file_byte sparse flat (2 * POWERFS_CHUNK_SIZE) = 7 /\ file_byte sparse flat (2 * POWERFS_CHUNK_SIZE + 1) = 8.
Proof. split_and!; vm_compute; reflexivity. Qed.

(** Likewise behind a short needle. *)
Example short_needle_ends_read :
  read_sparse 1 (2 * POWERFS_CHUNK_SIZE + 1) = Some (0, [2; 3]).
Proof. vm_compute. reflexivity. Qed.

Lemma read_returns_file_witness :
  exists ret buf w', powerfs_net_read crc0 [] all_alloc sparse flat 1 2 2 = Some (ret, buf, w') /\ same_needles sparse w' /\
    ret <= 0 /\ blen buf <= 2 /\ (forall i, 0 <= i < blen buf -> byte_at buf i = file_byte sparse flat (1 + i)) /\
    (ret = 0 -> blen buf < 2 -> 0 < blen buf /\ blen (content sparse flat (1 + blen buf - 1)) < POWERFS_CHUNK_SIZE /\
       blen (content sparse flat (1 + blen buf - 1)) <= (1 + blen buf - 1) mod POWERFS_CHUNK_SIZE + 1).
Proof.
  apply (read_returns_file crc0 [] all_alloc sparse flat 1 2 2 (proj1 flat_is_flat) (flat_mirrored sparse)); [discriminate|lia|lia|lia].
Defined.

Definition written : world := mk_world one_server
  (<[(1, 100) := [1; 2; 3; 165; 165; 10; 11]]> (w_needles sparse)) [].

(** Bytes 3 and 4 of the file now come from the allocated chunk. *)
Lemma net_write_spec_witness :
  2 = blen [10; 11] /\ file_byte written flat 4 = byte_at (replicate (Z.to_nat POWERFS_CHUNK_SIZE) 165) 4 /\
  file_byte written flat 5 = 10 /\ file_byte written flat 2 = 3.
Proof.
  destruct (net_write_spec (replicate (Z.to_nat POWERFS_CHUNK_SIZE) 165) sparse written flat 7 5 2 [10; 11] flat_is_flat)
    as (H1 & _ & _ & H2); [unfold is_u64; lia|apply junk_length|lia|vm_compute; reflexivity|].
  split; [exact H1|]. split; [exact (H2 4 ltac:(lia))|]. split; [exact (H2 5 ltac:(lia))|].
  rewrite (H2 2 ltac:(lia)). vm_compute. reflexivity.
Defined.

(** Two data shards and a parity shard; the first data shard is lost. *)
Definition shards : list powerfs_chunk_map := [mk_cm 0 200 1 0 0; mk_cm 1 201 2 0 0; mk_cm 2 202 3 0 0].
Definition coded : layout_inode :=
  mk_linode POWERFS_PLACEMENT_FLAT POWERFS_RELIABILITY_EC 0 POWERFS_CHUNK_SIZE 1 200 (mk_inline None 0 false 8192) no_stripe
    (mk_chunks None 0 (Some shards) 3 None 0 2 1).
Definition full (x : Z) : buffer := replicate (Z.to_nat POWERFS_CHUNK_SIZE) x.
Definition degraded : world := mk_world one_server {[(2, 201) := full 9; (3, 202) := full 9]} [1].
#[global] Arguments full : simpl never.

Lemma first_lost : fst (read_shard crc0 (full 0) degraded coded 0 0) = None.
Proof. reflexivity. Qed.

Lemma shards_ids : ids_ok shards.
Proof. unfold ids_ok, shards. repeat constructor; cbn; lia. Qed.

(** A data shard of two bytes: the bytes behind them come from the allocated
    chunk, here filled with 165. *)
Definition short_shard : world := mk_world one_server {[(1, 200) := [1; 2]; (2, 201) := full 9; (3, 202) := full 9]} [].

Example short_shard_uninitialised :
  fst <$> powerfs_net_read_ec crc0 (full 165) all_alloc short_shard coded 0 4 4 = Some (0, [1; 2; 165; 165]).
Proof. vm_compute. reflexivity. Qed.

Lemma ec_read_outcome_witness :
  exists w', powerfs_net_read_ec crc0 (full 0) all_alloc degraded coded 0 10 10 = Some (- EINVAL, [], w').
Proof.
  destruct (ec_read_outcome crc0 (full 0) all_alloc degraded coded shards 0 10 10) as (ss & w' & Hss & _ & H).
  - reflexivity.
  - reflexivity.
  - discriminate.
  - split; [discriminate|reflexivity].
  - lia.
  - reflexivity.
  - apply shards_ids.
  - rewrite Z.div_0_l by done. split; [discriminate|reflexivity].
  - apply junk_length.
  - intros w n. reflexivity.
  - intros s. reflexivity.
  - exists w'. rewrite Z.div_0_l, Z.mul_0_l in Hss by done.
    change (Z.to_nat (ec_data_shards (pi_chunks coded) + ec_parity_shards (pi_chunks coded))) with 3%nat in Hss.
    change (Z.to_nat (ec_data_shards (pi_chunks coded))) with 2%nat in H.
    pose proof first_lost as Hf. cbn [seq read_shards] in Hss. destruct (read_shard crc0 (full 0) degraded coded 0 0) as [s w1].
    cbn [fst] in Hf. subst s. destruct (read_shard crc0 (full 0) w1 coded 0 1) as [s2 w2].
    destruct (read_shard crc0 (full 0) w2 coded 0 2) as [s3 w3]. injection Hss as <- <-. exact H.
Defined.

End Sample.
