(* ===== verification/Writeback.v ===== *)
(** * Writeback: dirty pages to volume servers

    Models the writeback half of [src/powerfs_mod/powerfs_addr.c]:
    [powerfs_writepages] collects dirty pages into batches, the work function
    [powerfs_writepage_work_fn] groups a batch by needle and submits one
    request for a group that covers its chunk and one per extent otherwise,
    and [powerfs_wb_write_cb] ends the pages when the answer arrives.

    A batch is shared by the work function and the callbacks of its requests;
    the counter [pending_needles] says who frees it.  What the work function
    does never depends on that counter, so it is modelled by the list of its
    actions on the shared batch; callbacks likewise; and a run interleaves
    them; [uses_freed] tells whether a run touches the batch after it was
    freed.  Allocations, submissions and the sizes read for a group are oracles
    indexed by the page a request starts with.  The look-up in the table of
    the write prediction before a whole chunk is sent, which exists only with
    [CONFIG_POWERFS_WRITE_PREDICT], is not part of this file; [Predict] models
    it.

    The properties are in [WritebackProof]. *)

From S2P Require Import Prelude NetLease Layout Submit Volume.

Definition PAGE_SIZE : Z := 4096.
Definition POWERFS_WB_MAX_IN_FLIGHT : Z := 128.
Definition EFAULT : Z := 14.

(** ** Collecting batches *)

(** A page of a batch: index, offset and count; [wp_data] is its content when
    it is copied. *)
Record wpage := mk_wpage { wp_index : Z; wp_offset : Z; wp_count : Z; wp_data : buffer }.

(** A page with the dirty tag: its flags once it is locked, its content, and
    the three values of [i_size] read for it. *)
Record dpage := mk_dpage {
  pg_index : Z; pg_dirty : bool; pg_writeback : bool; pg_data : buffer; pg_size1 : Z; pg_size2 : Z; pg_size3 : Z
}.

(** [redirtied] and [beyond] are pages put back and pages behind the end of
    the file, [skipped] pages that were clean, [rewritten] pages that still
    were under writeback. *)
Record walk := mk_walk {
  batch : list wpage; queued : list (list wpage); nr_to_write : Z;
  redirtied : list Z; beyond : list Z; skipped : list Z; rewritten : list Z
}.

Definition page_offset (p : dpage) : Z := pg_index p * PAGE_SIZE.

(** [size_t] arithmetic on the second and third size read. *)
Definition page_count (p : dpage) : Z :=
  if page_offset p + PAGE_SIZE >? pg_size2 p then u64 (pg_size3 p - page_offset p) else PAGE_SIZE.

Definition queue_batch (s : walk) : walk :=
  mk_walk [] (queued s ++ [batch s]) (nr_to_write s) (redirtied s) (beyond s) (skipped s) (rewritten s).

Definition redirty (s : walk) (p : dpage) : walk :=
  mk_walk (batch s) (queued s) (nr_to_write s) (redirtied s ++ [pg_index p]) (beyond s) (skipped s) (rewritten s).

Definition past_end (s : walk) (p : dpage) : walk :=
  mk_walk (batch s) (queued s) (nr_to_write s) (redirtied s) (beyond s ++ [pg_index p]) (skipped s) (rewritten s).

Definition skip_clean (s : walk) (p : dpage) : walk :=
  mk_walk (batch s) (queued s) (nr_to_write s) (redirtied s) (beyond s) (skipped s ++ [pg_index p]) (rewritten s).

Definition add_page (s : walk) (p : dpage) : walk :=
  mk_walk (batch s ++ [mk_wpage (pg_index p) (page_offset p) (page_count p) (pg_data p)]) (queued s) (nr_to_write s)
    (redirtied s) (beyond s) (skipped s) (if pg_writeback p then rewritten s ++ [pg_index p] else rewritten s).

Definition count_down (s : walk) : walk :=
  mk_walk (batch s) (queued s) (nr_to_write s - 1) (redirtied s) (beyond s) (skipped s) (rewritten s).

(** The batch holds pages of another chunk. *)
Definition other_chunk (s : walk) (p : dpage) : bool :=
  match last (batch s) with
  | Some q => negb (wp_offset q / POWERFS_CHUNK_SIZE =? page_offset p / POWERFS_CHUNK_SIZE)
  | None => false
  end.

(** [alloc i]: the batch that starts with page [i] and the reference to the
    inode were obtained; [busy n]: [wb_in_flight] is at its limit after [n]
    batches of this call. *)
Section writepages.
Context (alloc : Z -> bool) (busy : nat -> bool) (batch_pages : nat).

(** One page; the flag says whether the walk goes on. *)
Definition add_to_batch (s : walk) (p : dpage) : walk * bool :=
  if pg_size1 p <=? page_offset p then (past_end s p, true) else
  if bool_decide (batch s = []) && negb (alloc (pg_index p)) then (redirty s p, true) else
  let s := add_page s p in
  let full := (batch_pages <=? length (batch s))%nat in
  let s := if full then queue_batch s else s in
  if full && busy (length (queued s)) then (s, false) else
  let s := count_down s in (s, negb (nr_to_write s <=? 0)).

Definition visit_page (s : walk) (p : dpage) : walk * bool :=
  if negb (pg_dirty p) then (skip_clean s p, true) else
  if other_chunk s p then
    let s := queue_batch s in
    if busy (length (queued s)) then (redirty s p, false) else add_to_batch s p
  else add_to_batch s p.

(** The pages that were not visited stay dirty. *)
Fixpoint walk_pages (s : walk) (ps : list dpage) : walk * list dpage :=
  match ps with
  | [] => (s, [])
  | p :: ps => let '(s, more) := visit_page s p in if more then walk_pages s ps else (s, ps)
  end.

Definition flush_batch (s : walk) : walk := if bool_decide (batch s = []) then s else queue_batch s.

(** What a call does with the tagged pages of its range. *)
Inductive writepages_out :=
| WpNothing
| WpCleaned (pages : list Z)
| WpQueued (s : walk) (unvisited : list dpage).

Definition powerfs_writepages (is_dir : bool) (pi : layout_inode) (net_stopping : bool) (wb_in_flight nr : Z)
    (tagged : list dpage) : writepages_out :=
  if is_dir then WpNothing else
  if (placement pi =? POWERFS_PLACEMENT_INLINE) || (volume_id pi =? 0) then WpCleaned (pg_index <$> filter (fun p => pg_dirty p = true) tagged) else
  if net_stopping then WpNothing else
  if wb_in_flight >=? POWERFS_WB_MAX_IN_FLIGHT then WpNothing else
  let '(s, rest) := walk_pages (mk_walk [] [] nr [] [] [] []) tagged in WpQueued (flush_batch s) rest.

(** The fallback for one page: the batch queued, or what becomes of the page. *)
Inductive writepage_out := WqRedirtied | WqBeyond | WqBatch (b : list wpage).

Definition powerfs_writepage (net_stopping : bool) (p : dpage) : writepage_out :=
  if net_stopping then WqRedirtied else
  if pg_size1 p <=? page_offset p then WqBeyond else
  if negb (alloc (pg_index p)) then WqRedirtied
  else WqBatch [mk_wpage (pg_index p) (page_offset p) (page_count p) (pg_data p)].

End writepages.

(** ** The work function *)

(** The request of a group or an extent: pages [c_start, c_end) of the batch,
    the needle, and the bytes; a blob goes to an offset of its needle. *)
Record wb_ctx := mk_ctx { c_start : nat; c_end : nat; c_vid : Z; c_nid : Z; c_blob : option Z; c_buf : buffer }.

(** What is done to a batch.  [DecTest] is [atomic_dec_and_test] with the
    cleanup it guards, [Free] the cleanup of a batch without requests. *)
Inductive act :=
| EndPage (j : nat) (err : Z)
| SetPending (n : Z)
| IncPending
| DecPending
| DecTest
| Submit (c : wb_ctx)
| Free.

(** The loop of [powerfs_wb_fail_pages] and of the callback; the former
    records negative errors only. *)
Definition end_pages (b : list wpage) (s e : nat) (err : Z) : list act :=
  (fun j => EndPage j err) <$> filter (fun j => default 0 (wp_count <$> b !! j) <> 0) (seq s (e - s)).

Definition fail_err (err : Z) : Z := if err <? 0 then err else 0.

Definition range {A} (b : list A) (s e : nat) : list A := take (e - s) (drop s b).

(** The loop of [powerfs_wb_needle_full_coverage]. *)
Fixpoint coverage (needle_start need_end covered : Z) (ps : list wpage) : bool :=
  match ps with
  | [] => need_end <=? covered
  | p :: ps =>
      if wp_count p =? 0 then coverage needle_start need_end covered ps else
      if (wp_offset p <? needle_start) || (wp_offset p + wp_count p >? need_end) then false else
      if wp_offset p >? covered then false else
      coverage needle_start need_end (Z.max covered (wp_offset p + wp_count p)) ps
  end.

Definition powerfs_wb_needle_full_coverage (ps : list wpage) (needle_start max_needle_len : Z) : bool :=
  if negb (max_needle_len =? POWERFS_CHUNK_SIZE) then false
  else coverage needle_start (needle_start + max_needle_len) needle_start ps.

(** [memcpy] of a page into the buffer of its needle. *)
Definition copy_page (buf : buffer) (p : wpage) : buffer :=
  if wp_count p =? 0 then buf
  else blit buf (wp_offset p mod POWERFS_CHUNK_SIZE) (take (Z.to_nat (wp_count p)) (wp_data p)).

(** The buffer of [powerfs_wb_submit_write_direct]. *)
Definition direct_buf (ps : list wpage) : buffer :=
  foldl copy_page (replicate (Z.to_nat POWERFS_CHUNK_SIZE) 0) ps.

Definition blob_buf (ps : list wpage) : buffer :=
  concat ((fun p => take (Z.to_nat (wp_count p)) (wp_data p)) <$> ps).

(** The extents of a group that starts at index [i]: runs of adjacent pages.
    [cur] is the start of the open extent and its last page. *)
Fixpoint extents (i : nat) (cur : option (nat * wpage)) (ps : list wpage) : list (nat * nat) :=
  match ps with
  | [] => match cur with Some (s, _) => [(s, i)] | None => [] end
  | p :: ps =>
      if wp_count p =? 0
      then match cur with Some (s, _) => (s, i) :: extents (S i) None ps | None => extents (S i) None ps end
      else match cur with
           | Some (s, q) =>
               if wp_offset p =? wp_offset q + wp_count q then extents (S i) (Some (s, p)) ps
               else (s, i) :: extents (S i) (Some (i, p)) ps
           | None => extents (S i) (Some (i, p)) ps
           end
  end.

(** [mem_ok i]: both allocations for the request that starts with page [i]
    succeed; [sent i]: the result of its submission; [isize i]: the size of
    the file read for the group that starts with page [i]. *)
Section work.
Context (mem_ok : nat -> bool) (sent : nat -> Z) (isize : nat -> Z) (b : list wpage).

Definition offset_at (i : nat) : Z := default 0 (wp_offset <$> b !! i).

Fixpoint blob_acts (vid nid : Z) (group_end : nat) (submitted : nat) (es : list (nat * nat)) : list act :=
  match es with
  | [] => if (submitted =? 0)%nat then [DecTest] else []
  | (s, i) :: es =>
      if negb (mem_ok s) then
        end_pages b s i (- ENOMEM) ++
        (if (submitted =? 0)%nat && (group_end <=? i)%nat then [DecTest] else []) ++
        blob_acts vid nid group_end submitted es
      else
        (if (submitted =? 0)%nat then [] else [IncPending]) ++
        if negb (sent s =? 0)
        then end_pages b s i (fail_err (sent s)) ++ DecTest :: blob_acts vid nid group_end submitted es
        else Submit (mk_ctx s i vid nid (Some (offset_at s mod POWERFS_CHUNK_SIZE)) (blob_buf (range b s i)))
             :: blob_acts vid nid group_end (S submitted) es
  end.

Definition powerfs_wb_submit_blob_extents (s e : nat) (vid nid : Z) : list act :=
  blob_acts vid nid e 0 (extents s None (range b s e)).

(** One group of the second pass. *)
Definition submit_group (g : nat * nat * Z * Z) : list act :=
  let '(s, e, vid, nid) := g in
  let group_offset := offset_at s in
  let needle_start := group_offset - group_offset mod POWERFS_CHUNK_SIZE in
  let max_needle_len := u32 (Z.min (isize s - needle_start) POWERFS_CHUNK_SIZE) in
  if negb (powerfs_wb_needle_full_coverage (range b s e) needle_start max_needle_len)
  then powerfs_wb_submit_blob_extents s e vid nid
  else if negb (mem_ok s) then end_pages b s e (- ENOMEM) ++ [DecPending]
  else if negb (sent s =? 0) then end_pages b s e (fail_err (sent s)) ++ [DecTest]
  else [Submit (mk_ctx s e vid nid None (direct_buf (range b s e)))].

(** The groups of the second pass from page [i] on; [cur] is the open one.
    [loc] is the address of an offset or an error. *)
Fixpoint groups (loc : Z -> Z + Z * Z) (i : nat) (cur : option (nat * Z * Z)) (ps : list wpage)
  : list (nat * nat * Z * Z) :=
  match ps with
  | [] => match cur with Some (s, v, n) => [(s, i, v, n)] | None => [] end
  | p :: ps =>
      if wp_count p =? 0 then groups loc (S i) cur ps else
      match loc (wp_offset p), cur with
      | inl _, _ => groups loc (S i) cur ps
      | inr (v, n), None => groups loc (S i) (Some (i, v, n)) ps
      | inr (v, n), Some (s, v', n') =>
          if (n =? n') && (v =? v') then groups loc (S i) cur ps
          else (s, i, v', n') :: groups loc (S i) (Some (i, v, n)) ps
      end
  end.

(** The first pass: pages ended at once and the number of groups. *)
Fixpoint first_pass (loc : Z -> Z + Z * Z) (i : nat) (cur : option (Z * Z)) (ps : list wpage) : list act * Z :=
  match ps with
  | [] => ([], 0)
  | p :: ps =>
      if wp_count p =? 0 then let '(a, k) := first_pass loc (S i) cur ps in (EndPage i 0 :: a, k) else
      match loc (wp_offset p), cur with
      | inl e, _ => let '(a, k) := first_pass loc (S i) cur ps in (EndPage i e :: a, k)
      | inr (v, n), None => let '(a, k) := first_pass loc (S i) (Some (v, n)) ps in (a, k + 1)
      | inr (v, n), Some (v', n') =>
          if (n =? n') && (v =? v') then first_pass loc (S i) cur ps
          else let '(a, k) := first_pass loc (S i) (Some (v, n)) ps in (a, k + 1)
      end
  end.

(** [loc1] and [loc2] are the layouts seen by the two passes. *)
Definition powerfs_writepage_work_fn (net_stopping : bool) (loc1 loc2 : Z -> Z + Z * Z) : list act :=
  if net_stopping then ((fun j => EndPage j (- EIO)) <$> seq 0 (length b)) ++ [Free] else
  let '(ended, num_groups) := first_pass loc1 0 None b in
  if num_groups =? 0 then ended ++ [Free]
  else ended ++ SetPending (num_groups + 1) :: concat (submit_group <$> groups loc2 0 None b) ++ [DecTest].

(** The callback of a request: the error of the request or of its status. *)
Definition powerfs_wb_write_cb (c : wb_ctx) (error status : Z) : list act :=
  let err := if error <? 0 then error else if negb (status =? 0) then net_status_to_errno status else 0 in
  end_pages b (c_start c) (c_end c) err ++ [DecTest].

End work.

Definition locate_of (pi : layout_inode) (o : Z) : Z + Z * Z :=
  match powerfs_locate_chunk pi o with At v n => inr (v, n) | LocErr e => inl e | OutOfBounds => inl (- EFAULT) end.

(** ** Runs *)

(** [works] is what the work function has left to do, [flying] the requests
    without an answer, [cbs] what running callbacks have left to do,
    [cleanups] how often the batch was freed. *)
Record wb_state := mk_wb {
  works : list act; flying : list wb_ctx; cbs : list (list act);
  pending_needles : Z; cleanups : nat; ended : list nat; errors : list Z; requests : list wb_ctx
}.

Definition do_act (s : wb_state) (a : act) : wb_state :=
  let '(mk_wb w f c n k d er rq) := s in
  match a with
  | EndPage j err => mk_wb w f c n k (d ++ [j]) (if err =? 0 then er else er ++ [err]) rq
  | SetPending m => mk_wb w f c m k d er rq
  | IncPending => mk_wb w f c (n + 1) k d er rq
  | DecPending => mk_wb w f c (n - 1) k d er rq
  | DecTest => mk_wb w f c (n - 1) (if n - 1 =? 0 then S k else k) d er rq
  | Submit x => mk_wb w (f ++ [x]) c n k d er (rq ++ [x])
  | Free => mk_wb w f c n (S k) d er rq
  end.

Inductive wb_event :=
| Work
| Answer (i : nat) (error status : Z)
| Callback (i : nat).

Definition wb_step (b : list wpage) (s : wb_state) (e : wb_event) : option wb_state :=
  match e with
  | Work =>
      match works s with
      | a :: rest => Some (do_act (mk_wb rest (flying s) (cbs s) (pending_needles s) (cleanups s) (ended s) (errors s) (requests s)) a)
      | [] => None
      end
  | Answer i error status =>
      match flying s !! i with
      | Some c => Some (mk_wb (works s) (delete i (flying s)) (cbs s ++ [powerfs_wb_write_cb b c error status])
                          (pending_needles s) (cleanups s) (ended s) (errors s) (requests s))
      | None => None
      end
  | Callback i =>
      match cbs s !! i with
      | Some (a :: rest) =>
          Some (do_act (mk_wb (works s) (flying s) (<[i := rest]> (cbs s)) (pending_needles s) (cleanups s) (ended s) (errors s) (requests s)) a)
      | _ => None
      end
  end.

Fixpoint wb_exec (b : list wpage) (es : list wb_event) (s : wb_state) : option wb_state :=
  match es with
  | [] => Some s
  | e :: es => match wb_step b s e with Some s => wb_exec b es s | None => None end
  end.

(** The work function and the callbacks read and write the batch; does a run
    do so after the batch was freed?  From such a step on the memory is not
    the batch any more, and what the model says of it means nothing. *)
Definition accesses (e : wb_event) : bool := match e with Answer _ _ _ => false | _ => true end.

Fixpoint uses_freed (b : list wpage) (es : list wb_event) (s : wb_state) : bool :=
  match es with
  | [] => false
  | e :: es =>
      accesses e && (0 <? cleanups s)%nat ||
      match wb_step b s e with Some s => uses_freed b es s | None => false end
  end.

Definition wb_start (acts : list act) : wb_state := mk_wb acts [] [] 0 0 [] [] [].

Definition wb_finished (s : wb_state) : Prop := works s = [] /\ flying s = [] /\ Forall (eq []) (cbs s).
