(* ===== verification/WritebackProof.v ===== *)
(** * WritebackProof: properties of writeback

    Shown of [Writeback]: a call of [powerfs_writepages] puts every dirty page
    into exactly one batch, back, or behind the end of the file, and a batch
    is a run of pages of one chunk; a batch is freed once, after its last
    request, in every interleaving, as long as no group loses a submission
    before its first request, and is then not used after it was freed; every
    page of a batch is ended once in a run that does not use a freed batch; the
    requests of a batch store its pages where reads find them, in whatever
    order they arrive.  Examples show what happens outside these conditions. *)

From S2P Require Import Prelude NetLease Layout Submit Volume Writeback.

(** Split [Forall] over appended and concrete parts. *)
Ltac forall_acts := repeat match goal with
  | |- Forall _ (_ ++ _) => apply Forall_app; split
  | |- Forall _ (_ :: _) => apply Forall_cons; split; [try done|]
  | |- Forall _ [] => apply Forall_nil; exact I
  end.

(** ** The reference count *)

(** What the actions take from [pending_needles], a submission included: it
    hands one count to the callback. *)
Fixpoint credit (l : list act) : Z :=
  match l with
  | [] => 0
  | a :: l => credit l + match a with IncPending => -1 | DecPending | DecTest | Submit _ => 1 | _ => 0 end
  end.

(** No part of the list from some point on takes less than nothing. *)
Fixpoint solvent (l : list act) : Prop := match l with [] => True | a :: l' => 0 <= credit l /\ solvent l' end.

(** Actions of the second pass. *)
Definition ordinary (a : act) : Prop := match a with SetPending _ | Free => False | _ => True end.

Lemma credit_app l1 l2 : credit (l1 ++ l2) = credit l1 + credit l2.
Proof. induction l1 as [|a l1 IH]; cbn [app credit]; lia. Qed.

Lemma credit_nil : credit [] = 0.
Proof. done. Qed.

Lemma solvent_credit l : solvent l -> 0 <= credit l.
Proof. destruct l; [done|]. by intros []. Qed.

Lemma solvent_app l1 l2 : solvent l1 -> solvent l2 -> solvent (l1 ++ l2).
Proof.
  intros H1 H2. apply solvent_credit in H2 as Hc. induction l1 as [|a l1 IH]; cbn [app solvent]; [done|].
  destruct H1 as [Ha H1]. split; [|by apply IH]. change (a :: l1 ++ l2) with ((a :: l1) ++ l2). rewrite credit_app. lia.
Qed.

Definition only_ends (l : list act) : Prop := Forall (fun a => match a with EndPage _ _ => True | _ => False end) l.

Lemma only_ends_spec l : only_ends l -> credit l = 0 /\ solvent l /\ Forall ordinary l.
Proof.
  induction 1 as [|a l Ha _ (E & S & O)]; [done|]. destruct a; try done. cbn [credit solvent]. rewrite E.
  split; [done|]. split; [done|]. by constructor.
Qed.

Lemma only_ends_pages b s e err : only_ends (end_pages b s e err).
Proof. unfold only_ends, end_pages. apply Forall_fmap, Forall_true. done. Qed.

Lemma credit_end_pages b s e err : credit (end_pages b s e err) = 0.
Proof. apply only_ends_spec, only_ends_pages. Qed.
Lemma solvent_end_pages b s e err : solvent (end_pages b s e err).
Proof. apply only_ends_spec, only_ends_pages. Qed.
Lemma ordinary_end_pages b s e err : Forall ordinary (end_pages b s e err).
Proof. apply only_ends_spec, only_ends_pages. Qed.

Section oracle.
Context (mem_ok : nat -> bool) (sent : nat -> Z) (isize : nat -> Z) (b : list wpage).

(** The first extent that got its memory was submitted, and there is one. *)
Fixpoint blob_accounted (es : list (nat * nat)) : bool :=
  match es with
  | [] => false
  | (s, _) :: es => if mem_ok s then sent s =? 0 else blob_accounted es
  end.

Definition group_accounted (g : nat * nat * Z * Z) : bool :=
  let '(s, e, _, _) := g in
  let needle_start := offset_at b s - offset_at b s mod POWERFS_CHUNK_SIZE in
  powerfs_wb_needle_full_coverage (range b s e) needle_start (u32 (Z.min (isize s - needle_start) POWERFS_CHUNK_SIZE))
  || blob_accounted (extents s None (range b s e)).

(** After the first request every extent is neutral or counted. *)
Lemma blob_acts_rest v n ge k es :
  credit (blob_acts mem_ok sent b v n ge (S k) es) = 0 /\ solvent (blob_acts mem_ok sent b v n ge (S k) es).
Proof.
  revert k. induction es as [|[s i] es IH]; intros k; cbn [blob_acts Nat.eqb]; [done|].
  destruct (mem_ok s); cbn [negb andb app].
  - destruct (sent s =? 0); cbn [negb].
    + destruct (IH (S k)) as [E S]. cbn [credit solvent]. rewrite E. repeat split; (lia || done).
    + destruct (IH k) as [E S]. split.
      * cbn [credit]. rewrite credit_app, credit_end_pages. cbn [credit]. lia.
      * split; [cbn [credit]; rewrite credit_app, credit_end_pages; cbn [credit]; lia|].
        apply solvent_app; [apply solvent_end_pages|]. split; [cbn [credit]; lia|done].
  - destruct (IH k) as [E S]. rewrite credit_app, credit_end_pages. split; [lia|].
    by apply solvent_app; [apply solvent_end_pages|].
Qed.

Lemma blob_acts_accounted v n ge es :
  (forall pre s i, es = pre ++ [(s, i)] -> Forall (fun x => (snd x < ge)%nat) pre) ->
  blob_accounted es = true ->
  credit (blob_acts mem_ok sent b v n ge 0 es) = 1 /\ solvent (blob_acts mem_ok sent b v n ge 0 es).
Proof.
  induction es as [|[s i] es IH]; intros Hlast; cbn [blob_accounted blob_acts Nat.eqb]; [done|].
  destruct (mem_ok s); cbn [negb andb app].
  - intros ->. cbn [negb]. destruct (blob_acts_rest v n ge 0 es) as [E S]. cbn [credit solvent]. rewrite E. split; [done|]. split; [done|done].
  - intros Ha. assert (es <> []) as Hne by (by intros ->).
    assert (Hi : (ge <=? i)%nat = false).
    { destruct (exists_last Hne) as (pre & [s' i'] & E). specialize (Hlast ((s, i) :: pre) s' i').
      rewrite E in Hlast. specialize (Hlast eq_refl). inversion Hlast. cbn in *. apply Nat.leb_gt. lia. }
    rewrite Hi. cbn [app]. destruct IH as [E S]; [|done|].
    { intros pre s' i' ->. specialize (Hlast ((s, i) :: pre) s' i' eq_refl). by inversion Hlast. }
    rewrite credit_app, credit_end_pages. split; [lia|]. by apply solvent_app; [apply solvent_end_pages|].
Qed.

(** Only the last extent reaches the end of the group. *)
Lemma extents_bound i cur ps :
  Forall (fun x => (snd x <= i + length ps)%nat) (extents i cur ps) /\
  (forall pre s k, extents i cur ps = pre ++ [(s, k)] -> Forall (fun x => (snd x < i + length ps)%nat) pre).
Proof.
  revert i cur. induction ps as [|p ps IH]; intros i cur; cbn [extents].
  { destruct cur as [[s q]|]; split; try (repeat constructor; cbn; lia).
    - intros pre s' k E. destruct pre as [|x [|y pre]]; [constructor|discriminate|discriminate].
    - intros pre s' k E. by destruct pre. }
  assert (Hcons : forall s j c', (j <= i)%nat -> Forall (fun x => (snd x <= i + length (p :: ps))%nat) ((s, j) :: extents (S i) c' ps) /\
    (forall pre s' k, (s, j) :: extents (S i) c' ps = pre ++ [(s', k)] -> Forall (fun x => (snd x < i + length (p :: ps))%nat) pre)).
  { intros s j c' Hj. destruct (IH (S i) c') as [B L]. cbn [length]. split.
    - constructor; [cbn; lia|]. eapply Forall_impl; [exact B|]. cbn; lia.
    - intros [|x pre] s' k E; [constructor|]. injection E as <- E. constructor; [cbn; lia|].
      eapply Forall_impl; [by eapply L|]. cbn; lia. }
  assert (Hsame : forall c', Forall (fun x => (snd x <= i + length (p :: ps))%nat) (extents (S i) c' ps) /\
    (forall pre s' k, extents (S i) c' ps = pre ++ [(s', k)] -> Forall (fun x => (snd x < i + length (p :: ps))%nat) pre)).
  { intros c'. destruct (IH (S i) c') as [B L]. cbn [length]. replace (i + S (length ps))%nat with (S i + length ps)%nat by lia. done. }
  destruct (wp_count p =? 0), cur as [[s q]|]; try case_if; auto.
Qed.

Lemma length_range {A} (l : list A) s e : (s <= e <= length l)%nat -> length (range l s e) = (e - s)%nat.
Proof. intros. unfold range. rewrite length_take, length_drop. lia. Qed.

Lemma submit_group_credit s e v n :
  (s <= e <= length b)%nat -> group_accounted (s, e, v, n) = true ->
  credit (submit_group mem_ok sent isize b (s, e, v, n)) = 1 /\ solvent (submit_group mem_ok sent isize b (s, e, v, n)).
Proof.
  intros Hr Ha. unfold submit_group, group_accounted in *. destruct (powerfs_wb_needle_full_coverage _ _ _); cbn [negb orb] in *.
  - destruct (mem_ok s); cbn [negb]; [destruct (sent s =? 0); cbn [negb]|].
    + done.
    + rewrite credit_app, credit_end_pages. split; [done|]. apply solvent_app; [apply solvent_end_pages|done].
    + rewrite credit_app, credit_end_pages. split; [done|]. apply solvent_app; [apply solvent_end_pages|done].
  - apply blob_acts_accounted; [|done]. destruct (extents_bound s None (range b s e)) as [_ L].
    rewrite length_range in L by done. replace (s + (e - s))%nat with e in L by lia. done.
Qed.

Lemma ordinary_blob_acts v n ge k es : Forall ordinary (blob_acts mem_ok sent b v n ge k es).
Proof.
  revert k. induction es as [|[s i] es IH]; intros k; cbn [blob_acts]; [case_if; repeat constructor|].
  repeat case_if; forall_acts; auto using ordinary_end_pages.
Qed.

Lemma ordinary_submit_group g : Forall ordinary (submit_group mem_ok sent isize b g).
Proof.
  destruct g as [[[s e] v] n]. unfold submit_group, powerfs_wb_submit_blob_extents.
  repeat case_if; forall_acts; auto using ordinary_end_pages, ordinary_blob_acts.
Qed.

End oracle.

(** ** Groups *)

Section groups.
Context (loc : Z -> Z + Z * Z).

Lemma groups_bounds i cur ps :
  (forall s v n, cur = Some (s, v, n) -> (s <= i)%nat) ->
  Forall (fun '(s, e, _, _) => (s <= e <= i + length ps)%nat) (groups loc i cur ps).
Proof.
  revert i cur. induction ps as [|p ps IH]; intros i cur Hc; cbn [groups].
  { destruct cur as [[[s v] n]|]; [|constructor]. specialize (Hc _ _ _ eq_refl). repeat constructor; cbn; lia. }
  assert (H : forall cur', (forall s v n, cur' = Some (s, v, n) -> (s <= S i)%nat) ->
    Forall (fun '(s, e, _, _) => (s <= e <= i + length (p :: ps))%nat) (groups loc (S i) cur' ps)).
  { intros cur' Hc'. eapply Forall_impl; [by apply IH|]. intros [[[s e] v] n]. cbn [length]. lia. }
  assert (Hcur : forall s v n, cur = Some (s, v, n) -> (s <= S i)%nat) by (intros s v n E; specialize (Hc s v n E); lia).
  assert (Hnew : forall (v' n' : Z) s v n, Some (i, v', n') = Some (s, v, n) -> (s <= S i)%nat) by (intros ? ? ? ? ? [= <- _ _]; lia).
  destruct (wp_count p =? 0); [by apply H|]. destruct (loc (wp_offset p)) as [e|[v n]]; [by apply H|].
  destruct cur as [[[s v'] n']|]; [|by eauto]. case_if; [by apply H|]. constructor; [|by eauto].
  specialize (Hc _ _ _ eq_refl). cbn. lia.
Qed.

Definition addr_of (cur : option (nat * Z * Z)) : option (Z * Z) :=
  match cur with Some (_, v, n) => Some (v, n) | None => None end.

(** The first pass counts the groups of the second. *)
Lemma first_pass_count i cur ps :
  snd (first_pass loc i (addr_of cur) ps) + match cur with Some _ => 1 | None => 0 end = Z.of_nat (length (groups loc i cur ps)).
Proof.
  revert i cur. induction ps as [|p ps IH]; intros i cur; cbn [first_pass groups].
  { by destruct cur as [[[s v] n]|]. }
  destruct (wp_count p =? 0).
  { rewrite <- IH. by destruct (first_pass loc (S i) (addr_of cur) ps). }
  destruct (loc (wp_offset p)) as [e|[v n]].
  { rewrite <- IH. by destruct (first_pass loc (S i) (addr_of cur) ps). }
  pose proof (fun s => IH (S i) (Some (s, v, n))) as H. cbn [addr_of] in H.
  destruct cur as [[[s v'] n']|]; cbn [addr_of].
  - destruct ((n =? n') && (v =? v')) eqn:E.
    + rewrite <- IH. cbn [addr_of]. done.
    + cbn [length]. rewrite Nat2Z.inj_succ, <- H. destruct (first_pass loc (S i) (Some (v, n)) ps); cbn. lia.
  - rewrite <- H. destruct (first_pass loc (S i) (Some (v, n)) ps); cbn. lia.
Qed.

Lemma first_pass_ends i cur ps : only_ends (fst (first_pass loc i cur ps)).
Proof.
  revert i cur. induction ps as [|p ps IH]; intros i cur; cbn [first_pass]; [constructor|].
  assert (H : forall c, only_ends (fst (first_pass loc (S i) c ps))) by (intros; apply IH).
  destruct (wp_count p =? 0); [specialize (H cur); destruct (first_pass _ _ _ _); by constructor|].
  destruct (loc (wp_offset p)) as [e|[v n]]; [specialize (H cur); destruct (first_pass _ _ _ _); by constructor|].
  destruct cur as [[v' n']|]; [case_if; [apply IH|]|]; specialize (H (Some (v, n))); by destruct (first_pass _ _ _ _).
Qed.

End groups.

(** ** The batch is freed once *)

Definition tail_ok (l : list act) : Prop := l = [] \/ exists l', l = l' ++ [DecTest] /\ solvent l'.

Definition cb_ok (l : list act) : Prop := l = [] \/ exists l', l = l' ++ [DecTest] /\ only_ends l'.

Definition holders (s : wb_state) : Z :=
  Z.of_nat (length (flying s)) + Z.of_nat (length (filter (fun l => l <> []) (cbs s))).

(** Before the counter is set; freed without requests; and after. *)
Definition starting (s : wb_state) : Prop :=
  flying s = [] /\ cbs s = [] /\ cleanups s = 0%nat /\
  exists l, only_ends l /\
  (works s = l ++ [Free] \/
   exists rest, works s = l ++ SetPending (credit rest) :: rest /\ Forall ordinary rest /\ tail_ok rest /\ rest <> []).

Definition freed (s : wb_state) : Prop := works s = [] /\ flying s = [] /\ cbs s = [] /\ cleanups s = 1%nat.

Definition counting (s : wb_state) : Prop :=
  Forall ordinary (works s) /\ tail_ok (works s) /\ Forall cb_ok (cbs s) /\
  pending_needles s = holders s + credit (works s) /\
  (0 < pending_needles s /\ cleanups s = 0%nat \/ pending_needles s = 0 /\ cleanups s = 1%nat).

Definition count_inv (s : wb_state) : Prop := starting s \/ freed s \/ counting s.

Lemma tail_ok_credit l : tail_ok l -> 0 <= credit l /\ (l <> [] -> 0 < credit l).
Proof.
  intros [->|(l' & -> & Hs)]; [done|]. rewrite credit_app. apply solvent_credit in Hs. cbn. lia.
Qed.

Lemma tail_ok_cons a l : tail_ok (a :: l) -> tail_ok l /\ (l = [] -> a = DecTest).
Proof.
  intros [|(l' & E & Hs)]; [done|]. destruct l' as [|x l']; injection E as -> ->; [split; [by left|done]|].
  split; [right; exists l'; split; [done|apply Hs]|]. intros E. by destruct l'.
Qed.

Lemma holders_nonneg s : 0 <= holders s.
Proof. unfold holders. lia. Qed.

(** Replacing an element changes the number of those left by one. *)
Lemma length_filter_insert (l : list (list act)) i x y :
  l !! i = Some x -> x <> [] ->
  Z.of_nat (length (filter (fun l => l <> []) (<[i := y]> l))) =
  Z.of_nat (length (filter (fun l => l <> []) l)) - (if decide (y = []) then 1 else 0).
Proof.
  revert i. induction l as [|z l IH]; intros [|i] Hi Hx; cbn in Hi; simplify_eq.
  - change (<[0%nat := y]> (x :: l)) with (y :: l). rewrite (filter_cons_True _ x) by done.
    destruct (decide (y = [])) as [->|Hy]; [rewrite filter_cons_False by (intros H; by apply H)|rewrite filter_cons_True by done]; cbn; lia.
  - change (<[S i := y]> (z :: l)) with (z :: <[i := y]> l). specialize (IH i Hi Hx).
    destruct (decide (z = [])) as [->|Hz]; [rewrite !filter_cons_False by (intros H; by apply H)|rewrite !filter_cons_True by done];
      cbn [length]; lia.
Qed.

Lemma count_start acts :
  (exists l, only_ends l /\ (acts = l ++ [Free] \/ exists rest, acts = l ++ SetPending (credit rest) :: rest /\
     Forall ordinary rest /\ tail_ok rest /\ rest <> [])) -> count_inv (wb_start acts).
Proof. intros H. left. by split_and!. Qed.

Lemma starting_work b s s' : starting s -> wb_step b s Work = Some s' -> count_inv s'.
Proof.
  intros (Hf & Hc & Hk & l & Hl & Hw). cbn [wb_step]. destruct s as [w f c n k d er rq]. cbn in Hf, Hc, Hk, Hw |- *. subst f c k.
  destruct Hl as [|a l Ha Hl].
  - destruct Hw as [->|(rest & -> & Ho & Ht & Hne)]; cbn [app]; intros [= <-].
    + right. left. by split_and!.
    + right. right. pose proof (tail_ok_credit rest Ht) as [Hp Hpp]. specialize (Hpp Hne). unfold counting, holders. cbn.
      split; [done|]. split; [done|]. split; [constructor|]. split; [done|]. left. done.
  - destruct a as [j err| | | | | |]; try done. left.
    destruct Hw as [->|(rest & -> & Ho & Ht & Hne)]; cbn [app] in *; simplify_eq/=.
    + split_and!; try done. exists l. split; [done|]. by left.
    + split_and!; try done. exists l. split; [done|]. right. by exists rest.
Qed.

(** One action, with what the actor still holds. *)
Lemma counting_act b s a rest :
  counting s -> works s = a :: rest -> forall s', wb_step b s Work = Some s' -> counting s'.
Proof.
  intros (Ho & Ht & Hcb & Hp & Hk) Hw s'. cbn [wb_step]. rewrite Hw. destruct s as [w f c n k d er rq]. cbn in *. subst w.
  apply Forall_cons in Ho as [Ha Ho]. destruct (tail_ok_credit _ Ht) as [_ Hcur]. specialize (Hcur ltac:(done)).
  apply tail_ok_cons in Ht as [Ht Hlast]. pose proof (tail_ok_credit rest Ht) as [Hc Hcp].
  unfold holders in Hp. cbn -[Z.of_nat] in Hp, Hcur. intros [= <-].
  assert (Hrest : a <> DecTest -> 0 < credit rest) by (intros Hne; apply Hcp; intros ->; by apply Hne, Hlast).
  assert (Hpos : 0 < n) by (destruct a; lia). assert (k = 0%nat) as -> by (destruct Hk as [[_ ?]|[? _]]; [done|lia]).
  destruct a as [j err|m| | | |x|]; cbn [ordinary] in Ha; try done; unfold counting, holders; cbn -[Z.of_nat];
    rewrite ?length_app; cbn [length]; (split; [done|]); (split; [done|]); (split; [done|]); (split; [lia|]).
  4:{ destruct (Z.eqb_spec (n - 1) 0); [right; lia|left; lia]. }
  all: specialize (Hrest ltac:(done)); left; lia.
Qed.

Lemma cb_ok_cons a l : cb_ok (a :: l) -> cb_ok l /\ (a = DecTest /\ l = [] \/ (exists j e, a = EndPage j e) /\ l <> []).
Proof.
  intros [|(l' & E & Hl)]; [done|]. destruct l' as [|x l']; injection E as -> ->; [split; [by left|by left]|].
  inversion Hl as [|? ? Hx Hl']; subst. split; [right; by exists l'|]. right. destruct x; try done. split; [eauto|]. by destruct l'.
Qed.

Lemma counting_step b s e s' : counting s -> wb_step b s e = Some s' -> counting s'.
Proof.
  intros Hc. destruct e as [|i error status|i].
  - intros H. destruct (works s) as [|a rest] eqn:Hw; [cbn in H; by rewrite Hw in H|]. by eapply counting_act.
  - destruct Hc as (Ho & Ht & Hcb & Hp & Hk). cbn [wb_step]. destruct (flying s !! i) as [c|] eqn:Hi; [|done]. intros [= <-].
    unfold counting, holders in *. cbn -[Z.of_nat]. split_and!; try done.
    + apply Forall_app. split; [done|]. constructor; [|constructor]. right. eexists. split; [done|apply only_ends_pages].
    + rewrite filter_app, length_app. rewrite (filter_cons_True _ (powerfs_wb_write_cb b c error status)).
      2:{ unfold powerfs_wb_write_cb. intros E. by apply app_eq_nil in E as [_ ?]. }
      rewrite length_delete by (by eexists). apply lookup_lt_Some in Hi. rewrite filter_nil. cbn [length]. lia.
  - destruct Hc as (Ho & Ht & Hcb & Hp & Hk). cbn [wb_step]. destruct (cbs s !! i) as [[|a l]|] eqn:Hi; [done| |done].
    destruct (cb_ok_cons a l (Forall_lookup_1 _ _ _ _ Hcb Hi)) as [Hl Hcase].
    pose proof (length_filter_insert (cbs s) i (a :: l) l Hi ltac:(done)) as Hlen.
    assert (Hcb' : Forall cb_ok (<[i := l]> (cbs s))) by (by apply Forall_insert).
    destruct s as [w f c n k d er rq]. cbn -[Z.of_nat] in *. unfold holders in Hp. cbn -[Z.of_nat] in Hp. intros [= <-].
    pose proof (tail_ok_credit w Ht) as [Hcr _].
    destruct Hcase as [[-> ->]|[(j & e & ->) Hne]]; unfold counting, holders; cbn -[Z.of_nat];
      (split; [done|]); (split; [done|]); (split; [done|]).
    + rewrite decide_True in Hlen by done. rewrite Hlen. split; [lia|].
      assert (0 < n) by lia. destruct (Z.eqb_spec (n - 1) 0); lia.
    + rewrite Hlen, decide_False by done. split; [lia|done].
Qed.

Lemma count_step b s e s' : count_inv s -> wb_step b s e = Some s' -> count_inv s'.
Proof.
  intros [Hs|[Hf|Hc]] H.
  - destruct e as [|i er st|i]; [by eapply starting_work| |]; destruct Hs as (Hf & Hcb & _); cbn in H; rewrite ?Hf, ?Hcb in H; done.
  - destruct Hf as (Hw & Hf & Hcb & _). destruct e; cbn in H; rewrite ?Hw, ?Hf, ?Hcb in H; done.
  - right. right. by eapply counting_step.
Qed.

Lemma count_exec b es s s' : count_inv s -> wb_exec b es s = Some s' -> count_inv s'.
Proof.
  revert s. induction es as [|e es IH]; intros s Hi; cbn; [by intros [= <-]|].
  destruct (wb_step b s e) as [s1|] eqn:E; [|done]. apply IH. by eapply count_step.
Qed.

(** The counter says whether everything is over. *)
Lemma count_finished s : count_inv s -> (cleanups s <= 1)%nat /\ (cleanups s = 1%nat <-> wb_finished s).
Proof.
  intros [(Hf & Hc & Hk & l & Hl & Hw)|[(Hw & Hf & Hc & Hk)|(Ho & Ht & Hcb & Hp & Hk)]].
  - rewrite Hk. split; [lia|]. split; [lia|]. intros (E & _). destruct Hw as [Hw|(rest & Hw & _)]; rewrite Hw in E; by destruct l.
  - rewrite Hk. split; [lia|]. split; [|done]. intros _. unfold wb_finished. rewrite Hw, Hf, Hc. by split_and!.
  - pose proof (tail_ok_credit _ Ht) as [Hc1 Hc2]. split; [destruct Hk as [[_ ->]|[_ ->]]; lia|]. split.
    + intros E. destruct Hk as [[_ ?]|[Hz _]]; [lia|]. unfold holders in Hp.
      split; [destruct (works s); [done|]; specialize (Hc2 ltac:(done)); lia|].
      split; [destruct (flying s); [done|]; cbn in Hp; lia|].
      apply Forall_lookup. intros i l Hi. destruct l as [|a l]; [done|]. exfalso.
      assert (H : a :: l ∈ filter (fun l => l <> []) (cbs s)) by (apply list_elem_of_filter; split; [done|by eapply list_elem_of_lookup_2]).
      destruct (filter _ (cbs s)); [by apply not_elem_of_nil in H|]. cbn in Hp. lia.
    + intros (Hw & Hf & Hall). rewrite Hw, credit_nil, Z.add_0_r in Hp. unfold holders in Hp. rewrite Hf in Hp.
      assert (E : filter (fun l => l <> []) (cbs s) = []).
      { clear -Hall. induction Hall as [|x l <- _ IH]; [done|]. by rewrite filter_cons_False by (intros H; by apply H). }
      rewrite E in Hp. cbn in Hp. destruct Hk as [[? _]|[_ ->]]; [lia|done].
Qed.

(** A batch that is accounted for is not touched after it was freed. *)
Lemma count_unused b es s s' : count_inv s -> wb_exec b es s = Some s' -> uses_freed b es s = false.
Proof.
  revert s. induction es as [|e es IH]; intros s Hi; cbn [wb_exec uses_freed]; [done|].
  destruct (wb_step b s e) as [s1|] eqn:E; [|done]. intros H. rewrite (IH s1); [|by eapply count_step|done].
  rewrite orb_false_r. destruct (Nat.ltb_spec 0 (cleanups s)); [|by rewrite andb_false_r].
  destruct (count_finished s Hi) as [H1 [H2 _]]. destruct (H2 ltac:(lia)) as (Hw & Hf & Hc).
  destruct e as [|i er st|i]; [cbn in E; by rewrite Hw in E|done|]. cbn [wb_step] in E.
  destruct (cbs s !! i) as [l|] eqn:El; [|done]. by rewrite <- (Forall_lookup_1 _ _ _ _ Hc El) in E.
Qed.

(** ** Runs end *)

Definition act_cost (a : act) : nat := match a with Submit c => 3 + (c_end c - c_start c) | _ => 1 end.
Definition acts_cost (l : list act) : nat := sum_list (act_cost <$> l).
Definition flying_cost (f : list wb_ctx) : nat := sum_list ((fun c => 2 + (c_end c - c_start c))%nat <$> f).
Definition wb_cost (s : wb_state) : nat :=
  (acts_cost (works s) + flying_cost (flying s) + sum_list (acts_cost <$> cbs s))%nat.

Lemma sum_list_app l1 l2 : sum_list (l1 ++ l2) = (sum_list l1 + sum_list l2)%nat.
Proof. induction l1 as [|x l1 IH]; cbn; [done|]. rewrite IH. lia. Qed.

Lemma sum_list_delete {A} (f : A -> nat) l i x :
  l !! i = Some x -> sum_list (f <$> l) = (f x + sum_list (f <$> delete i l))%nat.
Proof. revert i. induction l as [|y l IH]; intros [|i] H; cbn in *; simplify_eq; [done|]. rewrite (IH i H). cbn. unfold delete. lia. Qed.

Lemma sum_list_insert {A} (f : A -> nat) l i x y :
  l !! i = Some x -> (sum_list (f <$> <[i := y]> l) + f x = sum_list (f <$> l) + f y)%nat.
Proof. revert i. induction l as [|z l IH]; intros [|i] H; cbn in *; simplify_eq; [cbn; lia|]. specialize (IH i H). cbn in *. unfold insert in *. lia. Qed.

Lemma acts_cost_cons a l : acts_cost (a :: l) = (act_cost a + acts_cost l)%nat.
Proof. done. Qed.

Lemma acts_cost_ends l : only_ends l -> acts_cost l = length l.
Proof. induction 1 as [|a l Ha _ IH]; [done|]. destruct a; try done. unfold acts_cost in *. cbn. lia. Qed.

Lemma length_end_pages b s e err : (length (end_pages b s e err) <= e - s)%nat.
Proof. unfold end_pages. rewrite length_fmap. etrans; [apply length_filter|]. by rewrite length_seq. Qed.

Lemma write_cb_cost b c er st : (acts_cost (powerfs_wb_write_cb b c er st) <= c_end c - c_start c + 1)%nat.
Proof.
  unfold powerfs_wb_write_cb. set (err := if er <? 0 then _ else _). unfold acts_cost. rewrite fmap_app, sum_list_app.
  fold (acts_cost (end_pages b (c_start c) (c_end c) err)). rewrite acts_cost_ends by apply only_ends_pages.
  pose proof (length_end_pages b (c_start c) (c_end c) err). cbn. lia.
Qed.

Lemma do_act_cost s a : (wb_cost (do_act s a) < wb_cost s + act_cost a)%nat.
Proof.
  destruct s as [w f c n k d er rq], a as [j e|m| | | |x|]; unfold wb_cost; cbn [do_act works flying cbs act_cost]; try lia.
  unfold flying_cost. rewrite fmap_app, sum_list_app. cbn. lia.
Qed.

(** Every step uses up something. *)
Lemma wb_step_cost b s e s' : wb_step b s e = Some s' -> (wb_cost s' < wb_cost s)%nat.
Proof.
  destruct e as [|i er st|i]; cbn [wb_step].
  - destruct (works s) as [|a rest] eqn:Hw; [done|]. intros H. apply (inj Some) in H as <-. eapply Nat.lt_le_trans; [apply do_act_cost|].
    unfold wb_cost. rewrite Hw. cbn [works flying cbs]. rewrite acts_cost_cons. lia.
  - destruct (flying s !! i) as [c|] eqn:Hi; [|done]. intros [= <-]. unfold wb_cost, flying_cost. cbn [works flying cbs].
    rewrite (sum_list_delete _ _ _ _ Hi), fmap_app, sum_list_app. pose proof (write_cb_cost b c er st).
    change (sum_list (acts_cost <$> [powerfs_wb_write_cb b c er st])) with (acts_cost (powerfs_wb_write_cb b c er st) + 0)%nat. lia.
  - destruct (cbs s !! i) as [[|a l]|] eqn:Hi; [done| |done]. intros H. apply (inj Some) in H as <-. eapply Nat.lt_le_trans; [apply do_act_cost|].
    unfold wb_cost. cbn [works flying cbs]. pose proof (sum_list_insert acts_cost _ _ _ l Hi) as H.
    rewrite acts_cost_cons in H. lia.
Qed.

#[local] Instance done_dec (l : list act) : Decision ([] = l).
Proof. destruct l; [left|right]; done. Defined.

(** A run that is not over can go on. *)
Lemma wb_progress b s : wb_finished s \/ exists e s', wb_step b s e = Some s'.
Proof.
  destruct (works s) as [|a w] eqn:Hw; [|right; exists Work; cbn; rewrite Hw; eauto].
  destruct (flying s) as [|x f] eqn:Hf; [|right; exists (Answer 0 0 0); cbn; rewrite Hf; cbn; eauto].
  destruct (decide (Forall (eq []) (cbs s))) as [H|H]; [by left|].
  right. apply not_Forall_Exists, Exists_exists in H as (l & Hl & Hne); [|intros ?; apply _].
  apply list_elem_of_lookup in Hl as [i Hi]. exists (Callback i). cbn. rewrite Hi. destruct l; [by destruct Hne|eauto].
Qed.

Lemma wb_exec_app b es1 es2 s s' s'' :
  wb_exec b es1 s = Some s' -> wb_exec b es2 s' = Some s'' -> wb_exec b (es1 ++ es2) s = Some s''.
Proof. revert s. induction es1 as [|e es1 IH]; intros s; cbn; [by intros [= ->]|]. destruct (wb_step b s e); [apply IH|done]. Qed.

Lemma wb_completes b s : exists es s', wb_exec b es s = Some s' /\ wb_finished s'.
Proof.
  remember (wb_cost s) as n eqn:Hn. revert s Hn. induction (lt_wf n) as [n _ IH]. intros s ->.
  destruct (wb_progress b s) as [H|(e & s1 & H)]; [by exists [], s|].
  destruct (IH _ (wb_step_cost _ _ _ _ H) s1 eq_refl) as (es & s' & He & Hf). exists (e :: es), s'. cbn. by rewrite H.
Qed.

Lemma wb_exec_cost b es s s' : wb_exec b es s = Some s' -> (wb_cost s' + length es <= wb_cost s)%nat.
Proof.
  revert s. induction es as [|e es IH]; intros s; cbn; [intros [= ->]; lia|].
  destruct (wb_step b s e) as [s1|] eqn:E; [|done]. intros H. apply IH in H. apply wb_step_cost in E. lia.
Qed.

(** What the work function does, in the two shapes the counter allows. *)
Lemma work_shape mem_ok sent isize b net_stopping loc :
  Forall (fun g => group_accounted mem_ok sent isize b g = true) (groups loc 0 None b) ->
  exists l, only_ends l /\
    (powerfs_writepage_work_fn mem_ok sent isize b net_stopping loc loc = l ++ [Free] \/
     exists rest, powerfs_writepage_work_fn mem_ok sent isize b net_stopping loc loc = l ++ SetPending (credit rest) :: rest /\
       Forall ordinary rest /\ tail_ok rest /\ rest <> []).
Proof.
  intros Hacc. unfold powerfs_writepage_work_fn. destruct net_stopping.
  { eexists. split; [|by left]. apply Forall_fmap, Forall_true. done. }
  pose proof (first_pass_count loc 0 None b) as Hn. pose proof (first_pass_ends loc 0 None b) as He. cbn [addr_of] in Hn.
  destruct (first_pass loc 0 None b) as [pre k]. cbn [fst snd] in Hn, He. exists pre. split; [done|].
  destruct (k =? 0); [by left|]. right.
  assert (Hgs : credit (concat (submit_group mem_ok sent isize b <$> groups loc 0 None b)) = k /\
    solvent (concat (submit_group mem_ok sent isize b <$> groups loc 0 None b)) /\
    Forall ordinary (concat (submit_group mem_ok sent isize b <$> groups loc 0 None b))).
  { rewrite Z.add_0_r in Hn. rewrite Hn. clear Hn. pose proof (groups_bounds loc 0 None b ltac:(done)) as Hb. cbn [Nat.add] in Hb.
    induction Hacc as [|[[[s e] v] n] gs Hg _ IH]; [done|]. apply Forall_cons in Hb as [Hb1 Hb]. destruct (IH Hb) as (E & S & O).
    destruct (submit_group_credit mem_ok sent isize b s e v n Hb1 Hg) as [E1 S1]. cbn [fmap list_fmap concat length].
    rewrite credit_app, E1. rewrite Nat2Z.inj_succ, <- E. split; [unfold fmap; lia|]. split; [by apply solvent_app|]. apply Forall_app.
    split; [apply ordinary_submit_group|done]. }
  destruct Hgs as (E & S & O). eexists (_ ++ [DecTest]). split; [|split_and!].
  - rewrite credit_app, E. cbn [credit]. by rewrite Z.add_0_l.
  - apply Forall_app. split; [done|]. by repeat constructor.
  - right. eauto.
  - intros E'. by apply app_eq_nil in E' as [_ ?].
Qed.

(** A batch of writeback is freed exactly when its work is over.  The
    work function and the callbacks of its requests run in any order and
    share [pending_needles].  If the passes see one layout and no group
    loses a submission before its first request ([group_accounted]), then in
    every run the batch is freed at most once, and it is freed if and only
    if the work function has returned and every request has been answered
    and its callback has returned; no run is longer than a fixed bound, and
    every run can be continued to the point where the batch is freed. *)
Theorem batch_freed_once mem_ok sent isize b net_stopping loc es s :
  Forall (fun g => group_accounted mem_ok sent isize b g = true) (groups loc 0 None b) ->
  let start := wb_start (powerfs_writepage_work_fn mem_ok sent isize b net_stopping loc loc) in
  wb_exec b es start = Some s ->
  (cleanups s <= 1)%nat /\ (cleanups s = 1%nat <-> wb_finished s) /\
  (length es <= wb_cost start)%nat /\
  exists es' s', wb_exec b (es ++ es') start = Some s' /\ wb_finished s' /\ cleanups s' = 1%nat.
Proof.
  intros Hacc start He. assert (Hi : count_inv start) by (apply count_start, work_shape, Hacc).
  destruct (count_finished s (count_exec _ _ _ _ Hi He)) as [H1 H2]. split; [done|]. split; [done|].
  split; [pose proof (wb_exec_cost _ _ _ _ He); lia|].
  destruct (wb_completes b s) as (es' & s' & He' & Hf). pose proof (wb_exec_app _ _ _ _ _ _ He He') as Hx.
  exists es', s'. split; [done|]. split; [done|]. by apply (count_finished s' (count_exec _ _ _ _ Hi Hx)).
Qed.

(** ** Every page is ended once *)

(** The pages of [s, e) with bytes to write. *)
Definition pages_of (b : list wpage) (s e : nat) : list nat :=
  filter (fun j => default 0 (wp_count <$> b !! j) <> 0) (seq s (e - s)).

(** The pages that an action ends, or hands to a callback to end. *)
Definition act_due (b : list wpage) (a : act) : list nat :=
  match a with EndPage j _ => [j] | Submit c => pages_of b (c_start c) (c_end c) | _ => [] end.
Definition due (b : list wpage) (l : list act) : list nat := concat (act_due b <$> l).
Definition flying_due (b : list wpage) (f : list wb_ctx) : list nat :=
  concat ((fun c => pages_of b (c_start c) (c_end c)) <$> f).
Definition wb_pages (b : list wpage) (s : wb_state) : list nat :=
  ended s ++ due b (works s) ++ flying_due b (flying s) ++ concat (due b <$> cbs s).

Lemma due_app b l1 l2 : due b (l1 ++ l2) = due b l1 ++ due b l2.
Proof. unfold due. by rewrite fmap_app, concat_app. Qed.

Lemma due_end_pages b s e err : due b (end_pages b s e err) = pages_of b s e.
Proof.
  unfold end_pages, pages_of. generalize (filter (fun j => default 0 (wp_count <$> b !! j) <> 0) (seq s (e - s))) as l.
  induction l as [|j l IH]; [done|]. unfold due in *. cbn. by f_equal.
Qed.

Lemma due_write_cb b c er st : due b (powerfs_wb_write_cb b c er st) = pages_of b (c_start c) (c_end c).
Proof. unfold powerfs_wb_write_cb. rewrite due_app, due_end_pages. cbn. apply app_nil_r. Qed.

Lemma concat_delete {A B} (f : A -> list B) l i x :
  l !! i = Some x -> concat (f <$> l) ≡ₚ f x ++ concat (f <$> delete i l).
Proof.
  intros Hi. rewrite <- (take_drop_middle l i x Hi) at 1. rewrite delete_take_drop, !fmap_app, !concat_app. cbn [fmap list_fmap concat].
  solve_Permutation.
Qed.

Lemma concat_insert {A B} (f : A -> list B) l i x y :
  l !! i = Some x -> concat (f <$> <[i := y]> l) ≡ₚ f y ++ concat (f <$> delete i l).
Proof.
  intros Hi. rewrite insert_take_drop by (by eapply lookup_lt_Some). rewrite delete_take_drop, !fmap_app, !concat_app. cbn [fmap list_fmap concat].
  solve_Permutation.
Qed.

Lemma do_act_pages b s a : wb_pages b (do_act s a) ≡ₚ act_due b a ++ wb_pages b s.
Proof.
  destruct s as [w f c n k d er rq], a as [j e|m| | | |x|]; unfold wb_pages; cbn [do_act works flying cbs ended act_due app]; try done.
  - rewrite <- app_assoc. cbn [app]. by rewrite <- Permutation_middle.
  - unfold flying_due. rewrite fmap_app, concat_app. cbn. rewrite app_nil_r. solve_Permutation.
Qed.

(** A step moves pages between the parts of the state and loses none. *)
Lemma wb_step_pages b s e s' : wb_step b s e = Some s' -> wb_pages b s' ≡ₚ wb_pages b s.
Proof.
  destruct e as [|i er st|i]; cbn [wb_step].
  - destruct (works s) as [|a rest] eqn:Hw; [done|]. intros H. apply (inj Some) in H as <-. rewrite do_act_pages.
    unfold wb_pages. rewrite Hw. cbn [works flying cbs ended]. change (due b (a :: rest)) with (act_due b a ++ due b rest). solve_Permutation.
  - destruct (flying s !! i) as [c|] eqn:Hi; [|done]. intros [= <-]. unfold wb_pages. cbn [works flying cbs ended].
    unfold flying_due. rewrite (concat_delete _ (flying s) i c Hi), fmap_app, concat_app.
    cbn [fmap list_fmap concat]. rewrite due_write_cb, app_nil_r. solve_Permutation.
  - destruct (cbs s !! i) as [[|a l]|] eqn:Hi; [done| |done]. intros H. apply (inj Some) in H as <-. rewrite do_act_pages.
    unfold wb_pages. cbn [works flying cbs ended]. rewrite (concat_insert _ (cbs s) i _ l Hi), (concat_delete (due b) (cbs s) i _ Hi).
    change (due b (a :: l)) with (act_due b a ++ due b l). solve_Permutation.
Qed.

Lemma wb_exec_pages b es s s' : wb_exec b es s = Some s' -> wb_pages b s' ≡ₚ wb_pages b s.
Proof.
  revert s. induction es as [|e es IH]; intros s; cbn; [by intros [= ->]|].
  destruct (wb_step b s e) as [s1|] eqn:E; [|done]. intros H. rewrite (IH _ H). by eapply wb_step_pages.
Qed.

Lemma pages_of_split b s m e : (s <= m <= e)%nat -> pages_of b s e = pages_of b s m ++ pages_of b m e.
Proof.
  intros H. unfold pages_of. rewrite <- filter_app. f_equal. replace (e - s)%nat with ((m - s) + (e - m))%nat by lia.
  rewrite seq_app. do 2 f_equal. lia.
Qed.

Lemma pages_of_nil b s : pages_of b s s = [].
Proof. unfold pages_of. by rewrite Nat.sub_diag. Qed.

Lemma pages_of_zero b s p : b !! s = Some p -> wp_count p = 0 -> pages_of b s (S s) = [].
Proof.
  intros Hb Hp. unfold pages_of. replace (S s - s)%nat with 1%nat by lia. cbn [seq].
  rewrite filter_cons_False; [done|]. rewrite Hb. cbn. lia.
Qed.

Lemma drop_cons_inv {A} (b : list A) i p ps : drop i b = p :: ps -> b !! i = Some p /\ drop (S i) b = ps.
Proof.
  intros H. split; [by rewrite <- (Nat.add_0_r i), <- lookup_drop, H|].
  replace (S i) with (i + 1)%nat by lia. by rewrite <- drop_drop, H.
Qed.

(** The part of a list from [i] on whose first elements are [ps]. *)
Definition starts_with {A} (b : list A) (i : nat) (ps : list A) : Prop := exists tl, drop i b = ps ++ tl.

Lemma starts_with_cons {A} (b : list A) i p ps :
  starts_with b i (p :: ps) -> b !! i = Some p /\ starts_with b (S i) ps.
Proof. intros [tl H]. apply drop_cons_inv in H as [H1 H2]. split; [done|]. by exists tl. Qed.

Lemma starts_with_range {A} (b : list A) s e : starts_with b s (range b s e).
Proof. exists (drop (e - s) (drop s b)). unfold range. by rewrite take_drop. Qed.

(** The extents cover the pages with bytes, each once. *)
Lemma extents_pages b i cur ps :
  starts_with b i ps -> (forall s q, cur = Some (s, q) -> (s <= i)%nat) ->
  concat ((fun x => pages_of b (fst x) (snd x)) <$> extents i cur ps) =
  pages_of b (match cur with Some (s, _) => s | None => i end) (i + length ps).
Proof.
  revert i cur. induction ps as [|p ps IH]; intros i cur Hb Hc; cbn [extents].
  { rewrite Nat.add_0_r. destruct cur as [[s q]|]; cbn; [apply app_nil_r|by rewrite pages_of_nil]. }
  apply starts_with_cons in Hb as [Hp Hb]. replace (i + length (p :: ps))%nat with (S i + length ps)%nat by (cbn; lia).
  destruct (Z.eqb_spec (wp_count p) 0) as [Hz|Hz].
  - assert (E : pages_of b i (S i + length ps) = pages_of b (S i) (S i + length ps)).
    { rewrite (pages_of_split b i (S i)) by lia. by rewrite (pages_of_zero b i p). }
    destruct cur as [[s q]|]; cbn [fmap list_fmap concat fst snd].
    + rewrite IH by done. rewrite <- E. specialize (Hc s q eq_refl). by rewrite <- pages_of_split by lia.
    + by rewrite IH.
  - destruct cur as [[s q]|].
    + specialize (Hc s q eq_refl). case_if.
      * rewrite IH; [done|done|]. intros ? ? [= <- <-]. lia.
      * cbn [fmap list_fmap concat fst snd]. rewrite IH; [|done|intros ? ? [= <- <-]; lia]. by rewrite <- pages_of_split by lia.
    + rewrite IH; [done|done|]. intros ? ? [= <- <-]. lia.
Qed.

Lemma blob_acts_due mem_ok sent b v n ge k es :
  due b (blob_acts mem_ok sent b v n ge k es) = concat ((fun x => pages_of b (fst x) (snd x)) <$> es).
Proof.
  revert k. induction es as [|[s i] es IH]; intros k; cbn [blob_acts]; [by case_if|].
  destruct (mem_ok s); cbn [negb]; [|rewrite !due_app, due_end_pages, IH; by case_if].
  rewrite due_app. assert (E : forall c, due b (if (k =? 0)%nat then [] else [IncPending]) ++ c = c) by (by case_if).
  rewrite E. case_if; [|unfold due at 1; cbn [fmap list_fmap concat]; f_equal; apply IH].
  rewrite due_app, due_end_pages. unfold due at 1. cbn [fmap list_fmap concat app]. f_equal. apply IH.
Qed.

(** Whatever happens to a group, each of its pages is ended or submitted. *)
Lemma submit_group_due mem_ok sent isize b s e v n :
  (s <= e <= length b)%nat -> due b (submit_group mem_ok sent isize b (s, e, v, n)) = pages_of b s e.
Proof.
  intros Hr. unfold submit_group. repeat case_if; rewrite ?due_app, ?due_end_pages; try apply app_nil_r.
  unfold powerfs_wb_submit_blob_extents. rewrite blob_acts_due, extents_pages; [|apply starts_with_range|done].
  rewrite length_range by done. f_equal. lia.
Qed.

(** The open group starts at or before the page looked at. *)
Ltac group_start := first
  [ done
  | match goal with
    | Hc : forall s v n, ?c = Some (s, v, n) -> _ |- forall s v n, ?c = Some (s, v, n) -> _ =>
        let E := fresh in intros ? ? ? E; specialize (Hc _ _ _ E); lia
    end
  | let E := fresh in intros ? ? ? E; injection E as <- <- <-; lia ].

Lemma groups_pages loc b i cur ps :
  starts_with b i ps -> (forall s v n, cur = Some (s, v, n) -> (s <= i)%nat) ->
  Forall (fun p => wp_count p <> 0 -> exists a, loc (wp_offset p) = inr a) ps ->
  concat ((fun '(s, e, _, _) => pages_of b s e) <$> groups loc i cur ps) =
  pages_of b (match cur with Some (s, _, _) => s | None => i end) (i + length ps).
Proof.
  revert i cur. induction ps as [|p ps IH]; intros i cur Hb Hc Hl; cbn [groups].
  { rewrite Nat.add_0_r. destruct cur as [[[s v] n]|]; cbn; [apply app_nil_r|by rewrite pages_of_nil]. }
  apply starts_with_cons in Hb as [Hp Hb]. apply Forall_cons in Hl as [Hl1 Hl].
  replace (i + length (p :: ps))%nat with (S i + length ps)%nat by (cbn; lia).
  destruct (Z.eqb_spec (wp_count p) 0) as [Hz|Hz].
  { destruct cur as [[[s v] n]|]; rewrite IH by group_start; [done|].
    rewrite (pages_of_split b i (S i)) by lia. by rewrite (pages_of_zero b i p). }
  destruct (Hl1 Hz) as [[v n] ->]. destruct cur as [[[s v'] n']|]; [case_if|].
  - rewrite IH by group_start. done.
  - cbn [fmap list_fmap concat]. rewrite IH by group_start. specialize (Hc _ _ _ eq_refl). by rewrite <- pages_of_split by lia.
  - rewrite IH by group_start. done.
Qed.

(** The pages that the first pass ends have nothing to write. *)
Lemma first_pass_due loc b i cur ps :
  starts_with b i ps -> Forall (fun p => wp_count p <> 0 -> exists a, loc (wp_offset p) = inr a) ps ->
  due b (fst (first_pass loc i cur ps)) ++ pages_of b i (i + length ps) ≡ₚ seq i (length ps).
Proof.
  revert i cur. induction ps as [|p ps IH]; intros i cur Hb Hl; cbn [first_pass].
  { cbn. by rewrite Nat.add_0_r, pages_of_nil. }
  apply starts_with_cons in Hb as [Hp Hb]. apply Forall_cons in Hl as [Hl1 Hl].
  replace (i + length (p :: ps))%nat with (S i + length ps)%nat by (cbn; lia). cbn [length seq].
  rewrite (pages_of_split b i (S i)) by lia.
  destruct (Z.eqb_spec (wp_count p) 0) as [Hz|Hz].
  { rewrite (pages_of_zero b i p) by done. specialize (IH (S i) cur Hb Hl). destruct (first_pass _ _ _ _) as [a k]. cbn in IH |- *. by f_equiv. }
  assert (E : pages_of b i (S i) = [i]).
  { unfold pages_of. replace (S i - i)%nat with 1%nat by lia. cbn [seq]. rewrite filter_cons_True; [done|]. by rewrite Hp. }
  rewrite E. destruct (Hl1 Hz) as [[v n] ->]. clear E.
  assert (H : forall c, due b (fst (first_pass loc (S i) c ps)) ++ [i] ++ pages_of b (S i) (S i + length ps) ≡ₚ i :: seq (S i) (length ps)).
  { intros c. rewrite <- (IH (S i) c Hb Hl). solve_Permutation. }
  destruct cur as [[v' n']|]; [case_if; [apply H|]|]; specialize (H (Some (v, n))); destruct (first_pass _ _ _ _) as [a k]; exact H.
Qed.

Lemma work_due mem_ok sent isize b net_stopping loc :
  Forall (fun p => wp_count p <> 0 -> exists a, loc (wp_offset p) = inr a) b ->
  due b (powerfs_writepage_work_fn mem_ok sent isize b net_stopping loc loc) ≡ₚ seq 0 (length b).
Proof.
  intros Hl. assert (Hs : starts_with b 0 b) by (exists []; by rewrite drop_0, app_nil_r). unfold powerfs_writepage_work_fn. destruct net_stopping.
  { rewrite due_app. cbn. rewrite app_nil_r. generalize (seq 0 (length b)) as l. induction l as [|j l IH]; [done|]. by constructor. }
  pose proof (first_pass_due loc b 0 None b Hs Hl) as Hf. pose proof (groups_pages loc b 0 None b Hs ltac:(done) Hl) as Hg.
  pose proof (first_pass_count loc 0 None b) as Hn. cbn [addr_of] in Hn. destruct (first_pass loc 0 None b) as [pre k]. cbn [fst snd Nat.add] in *.
  rewrite <- Hf, <- Hg. destruct (Z.eqb_spec k 0) as [->|Hk].
  { destruct (groups loc 0 None b); [|cbn in Hn; lia]. rewrite due_app. done. }
  rewrite due_app. f_equiv. change (due b (SetPending (k + 1) :: ?l)) with (due b l). rewrite due_app. cbn. rewrite app_nil_r. clear Hg Hn.
  pose proof (groups_bounds loc 0 None b ltac:(done)) as Hb. cbn [Nat.add] in Hb.
  induction Hb as [|[[[s e] v] n] gs Hr _ IH]; [done|]. cbn [fmap list_fmap concat]. rewrite due_app, submit_group_due by done. by f_equiv.
Qed.

(** C31. Writeback of a page is ended once.  Take a batch in which the address
    of every page with bytes to write is known, and any run of the work
    function and the callbacks, with allocations, submissions and answers that
    fail.  If no group loses a submission before its first request
    ([group_accounted]), the run does not touch the batch after it was freed,
    and the batch is freed when the run is over.  And in every run that does
    not touch it after that, no page is ended twice, no page is ended while a
    request that carries it is without an answer, and when the work is over
    every page of the batch has been ended.  (Without [group_accounted] the
    batch can be freed with a request in flight: [freed_in_flight] in
    [WritebackStore].) *)
Theorem pages_end_once mem_ok sent isize b net_stopping loc es s :
  Forall (fun p => wp_count p <> 0 -> exists a, loc (wp_offset p) = inr a) b ->
  let start := wb_start (powerfs_writepage_work_fn mem_ok sent isize b net_stopping loc loc) in
  wb_exec b es start = Some s ->
  (Forall (fun g => group_accounted mem_ok sent isize b g = true) (groups loc 0 None b) ->
   uses_freed b es start = false /\ (wb_finished s -> cleanups s = 1%nat)) /\
  (uses_freed b es start = false ->
   NoDup (ended s ++ flying_due b (flying s)) /\
   (forall j, j ∈ ended s -> (j < length b)%nat) /\
   (wb_finished s -> ended s ≡ₚ seq 0 (length b))).
Proof.
  intros Hl start He. split.
  { intros Hacc. assert (Hi : count_inv start) by (apply count_start, work_shape, Hacc).
    split; [by eapply count_unused|]. intros Hf. by apply (count_finished s (count_exec _ _ _ _ Hi He)). }
  intros _. apply wb_exec_pages in He. unfold wb_pages at 2 in He. cbn in He.
  rewrite app_nil_r, (work_due mem_ok sent isize b net_stopping loc Hl) in He. split_and!.
  - assert (Hn : NoDup (wb_pages b s)) by (rewrite He; apply NoDup_seq). unfold wb_pages in Hn.
    rewrite (Permutation_app_comm (due b (works s))), <- app_assoc, app_assoc in Hn. by apply NoDup_app in Hn as [? _].
  - intros j Hj. assert (H : j ∈ seq 0 (length b)) by (rewrite <- He; unfold wb_pages; set_solver). apply elem_of_seq in H. lia.
  - intros (Hw & Hf & Hc). rewrite <- He. unfold wb_pages. rewrite Hw, Hf.
    assert (E : concat (due b <$> cbs s) = []) by (clear -Hc; induction Hc as [|x l <- _ IH]; [done|exact IH]).
    rewrite E. cbn. by rewrite app_nil_r.
Qed.
