(* ===== verification/WritebackStore.v ===== *)
(** * WritebackStore: what writeback stores

    Shown of [Writeback]: the requests of a batch put the bytes of its pages
    where reads find them, in whatever order the servers handle them, and
    change nothing else; and a call of [powerfs_writepages] accounts for every
    page with the dirty tag, in batches of one chunk each.  The examples are
    runs outside the conditions of these theorems and of those of
    [WritebackProof]. *)

From S2P Require Import Prelude NetLease Layout Submit Volume Writeback WritebackProof.

Definition page_ok (p : wpage) : Prop :=
  0 <= wp_index p /\ wp_offset p = wp_index p * PAGE_SIZE /\ wp_offset p + PAGE_SIZE <= 2 ^ 63 /\
  0 <= wp_count p <= PAGE_SIZE /\ wp_count p <= blen (wp_data p).

(** The byte at file offset [o] is one that page [p] has to write. *)
Definition covers (p : wpage) (o : Z) : Prop := wp_offset p <= o < wp_offset p + wp_count p.

Lemma page_in_chunk i : (i * PAGE_SIZE) mod POWERFS_CHUNK_SIZE + PAGE_SIZE <= POWERFS_CHUNK_SIZE.
Proof.
  change POWERFS_CHUNK_SIZE with (256 * PAGE_SIZE). rewrite Z.mul_mod_distr_r by done.
  pose proof (Z.mod_pos_bound i 256 eq_refl). unfold PAGE_SIZE. lia.
Qed.

(** ** Buffers *)



(** Pages that follow each other from offset [o] on. *)
Fixpoint run (o : Z) (ps : list wpage) : Prop :=
  match ps with [] => True | p :: ps => wp_offset p = o /\ 0 < wp_count p <= blen (wp_data p) /\ run (o + wp_count p) ps end.

Lemma blob_buf_cons p ps : blob_buf (p :: ps) = take (Z.to_nat (wp_count p)) (wp_data p) ++ blob_buf ps.
Proof. done. Qed.

(** The bytes of a blob are those of its pages. *)
Lemma blob_buf_bytes o ps x :
  run o ps -> 0 <= x < blen (blob_buf ps) ->
  exists p, p ∈ ps /\ covers p (o + x) /\ byte_at (blob_buf ps) x = byte_at (wp_data p) (o + x - wp_offset p).
Proof.
  revert o x. induction ps as [|p ps IH]; intros o x Hr Hx; [change (blen (blob_buf [])) with 0 in Hx; lia|].
  destruct Hr as (Ho & Hc & Hr). rewrite blob_buf_cons in *. rewrite blen_app, blen_take_le in Hx by lia.
  rewrite byte_at_app, blen_take_le by lia. destruct (Z.ltb_spec x (wp_count p)).
  - exists p. split; [left|]. unfold covers. rewrite byte_at_take by lia. ltb_true. split; [lia|]. f_equal. lia.
  - destruct (IH (o + wp_count p) (x - wp_count p) Hr ltac:(lia)) as (q & Hq & Hcv & Hb).
    exists q. split; [by right|]. replace (o + x) with (o + wp_count p + (x - wp_count p)) by lia. done.
Qed.

Lemma blob_buf_covers o ps p :
  run o ps -> p ∈ ps -> o <= wp_offset p /\ wp_offset p + wp_count p <= o + blen (blob_buf ps).
Proof.
  revert o. induction ps as [|q ps IH]; intros o Hr Hp; [by apply not_elem_of_nil in Hp|].
  destruct Hr as (Ho & Hc & Hr). rewrite blob_buf_cons, blen_app, blen_take_le by lia. pose proof (blen_nonneg (blob_buf ps)).
  apply elem_of_cons in Hp as [->|Hp]; [lia|]. specialize (IH _ Hr Hp). lia.
Qed.

Lemma run_snoc o ps p :
  run o ps -> (forall q, last ps = Some q -> wp_offset p = wp_offset q + wp_count q) -> (ps = [] -> wp_offset p = o) ->
  0 < wp_count p <= blen (wp_data p) -> run o (ps ++ [p]).
Proof.
  revert o. induction ps as [|q ps IH]; intros o Hr Hl Hn Hp; [cbn; auto|].
  destruct Hr as (Ho & Hc & Hr). cbn [app run]. split; [done|]. split; [done|]. apply IH; [done| |intros ->; rewrite <- Ho; by apply Hl|done].
  intros q' Hq'. apply Hl. by rewrite last_cons, Hq'.
Qed.

(** A covered chunk has no byte without a page. *)
Lemma coverage_spec ns ne cov ps o :
  coverage ns ne cov ps = true -> cov <= o < ne -> exists p, p ∈ ps /\ wp_count p <> 0 /\ covers p o.
Proof.
  revert cov. induction ps as [|p ps IH]; intros cov; cbn [coverage]; [intros ?%Z.leb_le; lia|].
  destruct (Z.eqb_spec (wp_count p) 0).
  { intros H Ho. destruct (IH _ H Ho) as (q & ? & ?). exists q. split; [by right|done]. }
  case_if; [done|]. destruct (Z.gtb_spec (wp_offset p) cov); [done|]. intros H' Ho.
  destruct (decide (o < wp_offset p + wp_count p)).
  - exists p. split; [left|]. split; [done|]. unfold covers. lia.
  - destruct (IH _ H' ltac:(lia)) as (q & ? & ?). exists q. split; [by right|done].
Qed.

Lemma blen_copy_page buf p : page_ok p -> blen buf = POWERFS_CHUNK_SIZE -> blen (copy_page buf p) = POWERFS_CHUNK_SIZE.
Proof.
  intros (Hi & Ho & Hm & Hc & Hd) Hb. unfold copy_page. case_if; [done|]. pose proof (page_in_chunk (wp_index p)) as Hin.
  rewrite <- Ho in Hin. pose proof (Z.mod_pos_bound (wp_offset p) POWERFS_CHUNK_SIZE eq_refl).
  rewrite blit_length; [done|lia|]. rewrite blen_take_le by lia. lia.
Qed.

Lemma byte_at_copy_page base buf p i :
  page_ok p -> base mod POWERFS_CHUNK_SIZE = 0 -> base <= wp_offset p < base + POWERFS_CHUNK_SIZE ->
  wp_count p <> 0 -> blen buf = POWERFS_CHUNK_SIZE -> 0 <= i ->
  byte_at (copy_page buf p) i =
  if (wp_offset p <=? base + i) && (base + i <? wp_offset p + wp_count p) then byte_at (wp_data p) (base + i - wp_offset p) else byte_at buf i.
Proof.
  intros (H0 & Ho & Hm & Hcnt & Hd) Hbase Hin Hc Hb Hi. unfold copy_page. destruct (Z.eqb_spec (wp_count p) 0); [done|].
  assert (Em : wp_offset p mod POWERFS_CHUNK_SIZE = wp_offset p - base).
  { apply Z.mod_divide in Hbase as [q Hq]; [|done]. symmetry. apply Z.mod_unique with q; [left; lia|lia]. }
  rewrite Em, byte_at_blit by lia. rewrite blen_take_le by lia.
  replace (wp_offset p - base <=? i) with (wp_offset p <=? base + i) by (destruct (Z.leb_spec (wp_offset p) (base + i)), (Z.leb_spec (wp_offset p - base) i); lia).
  replace (i <? wp_offset p - base + wp_count p) with (base + i <? wp_offset p + wp_count p)
    by (destruct (Z.ltb_spec (base + i) (wp_offset p + wp_count p)), (Z.ltb_spec i (wp_offset p - base + wp_count p)); lia).
  destruct (Z.leb_spec (wp_offset p) (base + i)), (Z.ltb_spec (base + i) (wp_offset p + wp_count p)); cbn [andb]; try done.
  rewrite byte_at_take by lia. ltb_true. f_equal. lia.
Qed.

(** The buffer of a whole chunk that starts at [base]. *)
Lemma direct_buf_bytes base ps :
  Forall page_ok ps -> base mod POWERFS_CHUNK_SIZE = 0 ->
  Forall (fun p => wp_count p <> 0 -> base <= wp_offset p < base + POWERFS_CHUNK_SIZE) ps ->
  blen (direct_buf ps) = POWERFS_CHUNK_SIZE /\
  forall i, (exists p, p ∈ ps /\ wp_count p <> 0 /\ covers p (base + i)) -> 0 <= i ->
    exists p, p ∈ ps /\ covers p (base + i) /\ byte_at (direct_buf ps) i = byte_at (wp_data p) (base + i - wp_offset p).
Proof.
  intros Hok Hbase Hin. unfold direct_buf. set (z := replicate _ 0). assert (Hz : blen z = POWERFS_CHUNK_SIZE) by (by apply blen_replicate_z).
  clearbody z. induction ps as [|p ps IH] using rev_ind.
  { split; [done|]. intros i (p & Hp & _). by apply not_elem_of_nil in Hp. }
  apply Forall_app in Hok as [Hok [Hp _]%Forall_cons]. apply Forall_app in Hin as [Hin [Hip _]%Forall_cons].
  destruct (IH Hok Hin) as [Hlen Hbytes]. rewrite foldl_app. cbn [foldl]. split; [by apply blen_copy_page|]. clear IH.
  intros i (q & Hq & Hqc & Hqv) Hi. destruct (decide (wp_count p = 0)) as [Hc|Hc].
  - unfold copy_page. rewrite Hc. cbn [Z.eqb]. apply elem_of_app in Hq as [Hq|Hq].
    + destruct (Hbytes i) as (r & Hr & Hrc & Hrb); [by exists q|done|]. exists r. split; [by apply elem_of_app; left|done].
    + apply list_elem_of_singleton in Hq as ->. done.
  - rewrite (byte_at_copy_page base) by auto.
    destruct ((wp_offset p <=? base + i) && (base + i <? wp_offset p + wp_count p)) eqn:E.
    + exists p. split; [apply elem_of_app; right; left|]. split; [|done]. unfold covers. bool_to_prop. lia.
    + apply elem_of_app in Hq as [Hq|Hq].
      * destruct (Hbytes i) as (r & Hr & Hrc & Hrb); [by exists q|done|]. exists r. split; [by apply elem_of_app; left|done].
      * apply list_elem_of_singleton in Hq as ->. exfalso. unfold covers in Hqv.
        rewrite (proj2 (Z.leb_le _ _)), (proj2 (Z.ltb_lt _ _)) in E by lia. done.
Qed.

(** ** Ranges of a batch *)

Lemma range_nil {A} (b : list A) s : range b s s = [].
Proof. unfold range. by rewrite Nat.sub_diag. Qed.

Lemma range_snoc {A} (b : list A) s i p : (s <= i)%nat -> b !! i = Some p -> range b s (S i) = range b s i ++ [p].
Proof.
  intros Hs Hp. unfold range. replace (S i - s)%nat with (S (i - s)) by lia. apply take_S_r.
  rewrite lookup_drop. by replace (s + (i - s))%nat with i by lia.
Qed.

Lemma elem_of_range {A} (b : list A) s e p : p ∈ range b s e <-> exists j, (s <= j < e)%nat /\ b !! j = Some p.
Proof.
  unfold range. rewrite list_elem_of_lookup. split.
  - intros [k Hk]. apply lookup_take_Some in Hk as [Hk Hlt]. rewrite lookup_drop in Hk. exists (s + k)%nat. split; [lia|done].
  - intros (j & Hj & Hp). exists (j - s)%nat. apply lookup_take_Some. rewrite lookup_drop. split; [|lia].
    by replace (s + (j - s))%nat with j by lia.
Qed.

Lemma elem_of_range_sub {A} (b : list A) s e s' e' p : (s' <= s)%nat -> (e <= e')%nat -> p ∈ range b s e -> p ∈ range b s' e'.
Proof. rewrite !elem_of_range. intros ? ? (j & ? & ?). exists j. split; [lia|done]. Qed.

(** The extent that is open at page [i]. *)
Definition extent_open (b : list wpage) (lo i : nat) (cur : option (nat * wpage)) : Prop :=
  forall s q, cur = Some (s, q) -> (lo <= s < i)%nat /\ run (offset_at b s) (range b s i) /\ last (range b s i) = Some q.

(** An extent is a run of pages. *)
Lemma extents_run b lo i cur ps :
  starts_with b i ps -> (lo <= i)%nat -> Forall page_ok ps -> extent_open b lo i cur ->
  Forall (fun x => (lo <= fst x < snd x)%nat /\ (snd x <= i + length ps)%nat /\ run (offset_at b (fst x)) (range b (fst x) (snd x)))
    (extents i cur ps).
Proof.
  revert i cur. induction ps as [|p ps IH]; intros i cur Hb Hlo Hok Hc; cbn [extents].
  { destruct cur as [[s q]|]; [|constructor]. destruct (Hc s q eq_refl) as (? & ? & _). repeat constructor; cbn; try done; lia. }
  apply starts_with_cons in Hb as [Hp Hb]. apply Forall_cons in Hok as [Hpok Hok].
  replace (i + length (p :: ps))%nat with (S i + length ps)%nat by (cbn; lia).
  assert (Hnew : wp_count p <> 0 -> extent_open b lo (S i) (Some (i, p))).
  { intros Hz s q [= <- <-]. split; [lia|]. rewrite (range_snoc b i i p), range_nil by done. cbn [app run last]. unfold offset_at. rewrite Hp.
    cbn [fmap option_fmap option_map default]. destruct Hpok as (? & ? & ? & ? & ?). split; [|done]. split; [done|]. split; [lia|done]. }
  assert (Hcons : forall s q cur', cur = Some (s, q) -> extent_open b lo (S i) cur' ->
    Forall (fun x => (lo <= fst x < snd x)%nat /\ (snd x <= S i + length ps)%nat /\ run (offset_at b (fst x)) (range b (fst x) (snd x)))
      ((s, i) :: extents (S i) cur' ps)).
  { intros s q cur' E Ho'. destruct (Hc s q E) as (? & ? & _). constructor; [cbn; split_and!; try done; lia|]. apply IH; auto with lia. }
  assert (Hnone : extent_open b lo (S i) None) by done.
  destruct (Z.eqb_spec (wp_count p) 0) as [Hz|Hz].
  - destruct cur as [[s q]|]; [by eapply Hcons|]. apply IH; auto with lia.
  - destruct cur as [[s q]|]; [|by apply IH; auto with lia]. case_if; [|eapply Hcons; auto].
    apply IH; auto with lia. intros s' q' [= <- <-]. destruct (Hc s q eq_refl) as (Hs & Hr & Hl). split; [lia|].
    rewrite (range_snoc b s i p) by (done || lia). split; [|by rewrite last_snoc].
    destruct Hpok as (? & ? & ? & ? & ?). apply run_snoc; [done| | |lia].
    + intros q' Hq'. rewrite Hl in Hq'. injection Hq' as <-. lia.
    + intros E'. rewrite E' in Hl. done.
Qed.

(** ** Groups and their requests *)

Section stored.
Context (pi : layout_inode) (b : list wpage).
Hypothesis Hchunked : chunked pi.

(** Distinct chunks have distinct needles. *)
Definition no_alias : Prop :=
  forall o o' v n, 0 <= o < 2 ^ 63 -> 0 <= o' < 2 ^ 63 ->
  powerfs_locate_chunk pi o = At v n -> powerfs_locate_chunk pi o' = At v n -> o / POWERFS_CHUNK_SIZE = o' / POWERFS_CHUNK_SIZE.

Hypothesis Halias : no_alias.
Hypothesis Hpages : Forall page_ok b.

(** The pages with bytes of a group are of one chunk. *)
Definition group_ok (g : nat * nat * Z * Z) : Prop :=
  let '(s, e, v, n) := g in
  (exists p, b !! s = Some p /\ wp_count p <> 0) /\ (s < e <= length b)%nat /\
  forall p, p ∈ range b s e -> wp_count p <> 0 -> powerfs_locate_chunk pi (wp_offset p) = At v n.

Lemma locate_of_at o v n : locate_of pi o = inr (v, n) -> powerfs_locate_chunk pi o = At v n.
Proof. unfold locate_of. destruct (powerfs_locate_chunk pi o); by intros [= -> ->]. Qed.

Lemma groups_ok i cur ps :
  starts_with b i ps -> (forall s v n, cur = Some (s, v, n) -> (s < i)%nat /\ group_ok (s, i, v, n)) ->
  Forall (fun p => wp_count p <> 0 -> exists a, locate_of pi (wp_offset p) = inr a) ps ->
  Forall group_ok (groups (locate_of pi) i cur ps).
Proof.
  revert i cur. induction ps as [|p ps IH]; intros i cur Hb Hc Hl; cbn [groups].
  { destruct cur as [[[s v] n]|]; [|constructor]. destruct (Hc _ _ _ eq_refl). constructor; [done|constructor]. }
  apply starts_with_cons in Hb as [Hp Hb]. apply Forall_cons in Hl as [Hl1 Hl].
  pose proof (lookup_lt_Some _ _ _ Hp) as Hlen.
  assert (Hext : forall s v n, cur = Some (s, v, n) -> (wp_count p <> 0 -> powerfs_locate_chunk pi (wp_offset p) = At v n) ->
    (s < S i)%nat /\ group_ok (s, S i, v, n)).
  { intros s v n E Hloc. destruct (Hc s v n E) as (Hs & Hhead & Hr & Hin). split; [lia|]. split; [done|]. split; [lia|].
    intros q Hq. rewrite (range_snoc b s i p) in Hq by (done || lia). apply elem_of_app in Hq as [Hq|Hq]; [by apply Hin|].
    by apply list_elem_of_singleton in Hq as ->. }
  destruct (Z.eqb_spec (wp_count p) 0) as [Hz|Hz]; [apply IH; [done| |done]; intros s v n E; by apply Hext|].
  destruct (Hl1 Hz) as [[v n] Ea]. rewrite Ea. apply locate_of_at in Ea.
  assert (Hnew : forall s v' n', Some (i, v, n) = Some (s, v', n') -> (s < S i)%nat /\ group_ok (s, S i, v', n')).
  { intros s v' n' [= <- <- <-]. split; [lia|]. split; [by exists p|]. split; [lia|].
    intros q Hq. rewrite (range_snoc b i i p), range_nil in Hq by done. by apply list_elem_of_singleton in Hq as ->. }
  destruct cur as [[[s v'] n']|]; [|by apply IH]. destruct ((n =? n') && (v =? v')) eqn:Ec.
  - bool_to_prop. apply IH; [done| |done]. intros s0 v0 n0 [= <- <- <-]. apply Hext; [done|]. intros _. rewrite Ea. f_equal; lia.
  - constructor; [by apply (Hc s v' n')|]. by apply IH.
Qed.

(** A request: where its bytes go, and which pages they are of. *)
Definition request_ok (c : wb_ctx) : Prop :=
  exists base, base mod POWERFS_CHUNK_SIZE = 0 /\ let off := default 0 (c_blob c) in
  0 <= off /\ off + blen (c_buf c) <= POWERFS_CHUNK_SIZE /\
  (forall i, off <= i < off + blen (c_buf c) -> exists p, p ∈ range b (c_start c) (c_end c) /\
     covers p (base + i) /\ byte_at (c_buf c) (i - off) = byte_at (wp_data p) (base + i - wp_offset p)) /\
  (forall p, p ∈ range b (c_start c) (c_end c) -> wp_count p <> 0 ->
     powerfs_locate_chunk pi (wp_offset p) = At (c_vid c) (c_nid c) /\
     base + off <= wp_offset p /\ wp_offset p + wp_count p <= base + off + blen (c_buf c)) /\
  (c_blob c = None -> blen (c_buf c) = POWERFS_CHUNK_SIZE).

Lemma page_ok_in s e p : p ∈ range b s e -> page_ok p.
Proof. rewrite elem_of_range. intros (j & _ & Hj). exact (Forall_lookup_1 _ _ _ _ Hpages Hj). Qed.

(** The pages of a group lie in the chunk of the first. *)
Lemma group_chunk s e v n p :
  group_ok (s, e, v, n) -> p ∈ range b s e -> wp_count p <> 0 ->
  let base := offset_at b s - offset_at b s mod POWERFS_CHUNK_SIZE in
  base <= wp_offset p /\ wp_offset p + PAGE_SIZE <= base + POWERFS_CHUNK_SIZE.
Proof.
  intros ((p0 & H0 & Hz0) & Hr & Hin) Hp Hz base.
  assert (E0 : offset_at b s = wp_offset p0) by (unfold offset_at; by rewrite H0). unfold base. rewrite E0.
  assert (Hp0 : p0 ∈ range b s e) by (apply elem_of_range; exists s; split; [lia|done]).
  pose proof (Hin p Hp Hz) as L1. pose proof (Hin p0 Hp0 Hz0) as L0.
  apply page_ok_in in Hp as (Hi & Ho & Hm & Hc & _). apply page_ok_in in Hp0 as (Hi0 & Ho0 & Hm0 & Hc0 & _).
  pose proof (page_in_chunk (wp_index p)) as Hch. rewrite <- Ho in Hch.
  assert (E : wp_offset p / POWERFS_CHUNK_SIZE = wp_offset p0 / POWERFS_CHUNK_SIZE).
  { apply (Halias _ _ v n); [| |done|done]; unfold PAGE_SIZE in *; lia. }
  pose proof (Z.div_mod (wp_offset p) POWERFS_CHUNK_SIZE ltac:(done)). pose proof (Z.div_mod (wp_offset p0) POWERFS_CHUNK_SIZE ltac:(done)).
  pose proof (Z.mod_pos_bound (wp_offset p) POWERFS_CHUNK_SIZE eq_refl). rewrite E in *. lia.
Qed.

Lemma base_aligned o : (o - o mod POWERFS_CHUNK_SIZE) mod POWERFS_CHUNK_SIZE = 0.
Proof.
  pose proof (Z.div_mod o POWERFS_CHUNK_SIZE ltac:(done)).
  replace (o - o mod POWERFS_CHUNK_SIZE) with ((o / POWERFS_CHUNK_SIZE) * POWERFS_CHUNK_SIZE) by lia. by apply Z.mod_mul.
Qed.

Lemma direct_request_ok s e v n len :
  group_ok (s, e, v, n) ->
  powerfs_wb_needle_full_coverage (range b s e) (offset_at b s - offset_at b s mod POWERFS_CHUNK_SIZE) len = true ->
  request_ok (mk_ctx s e v n None (direct_buf (range b s e))).
Proof.
  intros Hg Hcov. set (base := offset_at b s - offset_at b s mod POWERFS_CHUNK_SIZE) in *.
  unfold powerfs_wb_needle_full_coverage in Hcov. destruct (Z.eqb_spec len POWERFS_CHUNK_SIZE) as [->|]; [|done]. cbn [negb] in Hcov.
  destruct (direct_buf_bytes base (range b s e)) as [Hlen Hbytes].
  { apply Forall_forall. intros p Hp. by eapply page_ok_in. }
  { apply base_aligned. }
  { apply Forall_forall. intros p Hp Hz. destruct (group_chunk s e v n p Hg Hp Hz). unfold base, PAGE_SIZE in *. lia. }
  exists base. split; [apply base_aligned|]. cbn [c_blob c_buf c_start c_end c_vid c_nid default]. rewrite Hlen.
  split; [done|]. split; [done|]. split; [|split; [|done]].
  - intros i Hi. rewrite Z.sub_0_r. apply Hbytes; [|lia]. eapply coverage_spec; [exact Hcov|lia].
  - intros p Hp Hz. split; [by apply Hg|]. destruct (group_chunk s e v n p Hg Hp Hz). apply page_ok_in in Hp as (_ & _ & _ & ? & _). fold base in H, H0. lia.
Qed.

Lemma blob_request_ok s e v n s' i :
  group_ok (s, e, v, n) -> (s <= s' < i)%nat -> (i <= e)%nat -> run (offset_at b s') (range b s' i) ->
  request_ok (mk_ctx s' i v n (Some (offset_at b s' mod POWERFS_CHUNK_SIZE)) (blob_buf (range b s' i))).
Proof.
  intros Hg Hs Hi Hrun. set (off := offset_at b s' mod POWERFS_CHUNK_SIZE). set (base := offset_at b s' - off).
  assert (Hsub : forall p, p ∈ range b s' i -> p ∈ range b s e) by (intros p; apply elem_of_range_sub; lia).
  pose proof (Z.mod_pos_bound (offset_at b s') POWERFS_CHUNK_SIZE eq_refl) as Hoff. fold off in Hoff.
  assert (Hbytes : forall x, 0 <= x < blen (blob_buf (range b s' i)) -> exists p, p ∈ range b s' i /\ covers p (base + (off + x)) /\
    byte_at (blob_buf (range b s' i)) x = byte_at (wp_data p) (base + (off + x) - wp_offset p)).
  { intros x Hx. destruct (blob_buf_bytes _ _ x Hrun Hx) as (p & Hp & Hcv & Hb).
    replace (base + (off + x)) with (offset_at b s' + x) by (unfold base; lia). by exists p. }
  exists base. split; [apply base_aligned|]. cbn [c_blob c_buf c_start c_end c_vid c_nid]. change (default 0 (Some ?x)) with x. cbv zeta. split; [lia|]. split.
  - set (len := blen (blob_buf (range b s' i))) in *. destruct (Z_le_gt_dec len 0); [lia|].
    destruct (Hbytes 0 ltac:(lia)) as (p & Hp & Hcv & _). destruct (Hbytes (len - 1) ltac:(lia)) as (q & Hq & Hcq & _). unfold covers in *.
    assert (Hzp : wp_count p <> 0) by lia. assert (Hzq : wp_count q <> 0) by lia.
    destruct (group_chunk s e v n p Hg (Hsub p Hp) Hzp) as [Hp1 Hp2]. destruct (group_chunk s e v n q Hg (Hsub q Hq) Hzq) as [Hq1 Hq2].
    apply page_ok_in in Hp as (_ & Ho & _ & Hpc & _). apply page_ok_in in Hq as (_ & _ & _ & Hqc & _).
    set (base0 := offset_at b s - offset_at b s mod POWERFS_CHUNK_SIZE) in *.
    assert (E : base = base0).
    { pose proof (base_aligned (offset_at b s)) as A0. fold base0 in A0. pose proof (base_aligned (offset_at b s')) as A1. fold off base in A1.
      apply Z.mod_divide in A0 as [q0 A0]; [|done]. apply Z.mod_divide in A1 as [q1 A1]; [|done]. unfold PAGE_SIZE in *.
      assert (q0 = q1) by (unfold POWERFS_CHUNK_SIZE in *; lia). by rewrite A0, A1, H. }
    rewrite E in *. lia.
  - split; [|split; [|done]].
    + intros x Hx. destruct (Hbytes (x - off) ltac:(lia)) as (p & Hp & Hcv & Hb). exists p.
      replace (base + (off + (x - off))) with (base + x) in * by lia. done.
    + intros p Hp Hz. split; [by apply Hg; [apply Hsub|]|]. destruct (blob_buf_covers _ _ _ Hrun Hp). unfold base. lia.
Qed.

Lemma not_submit_end_pages s e err c : Submit c ∉ end_pages b s e err.
Proof. unfold end_pages. intros H. by apply list_elem_of_fmap in H as (j & ? & _). Qed.

Lemma blob_acts_requests mem_ok sent v n ge k es c :
  Submit c ∈ blob_acts mem_ok sent b v n ge k es ->
  exists s i, (s, i) ∈ es /\ c = mk_ctx s i v n (Some (offset_at b s mod POWERFS_CHUNK_SIZE)) (blob_buf (range b s i)).
Proof.
  revert k. induction es as [|[s i] es IH]; intros k; cbn [blob_acts].
  { case_if; [intros H; apply list_elem_of_singleton in H; done|intros H; by apply not_elem_of_nil in H]. }
  assert (Htl : forall k, Submit c ∈ blob_acts mem_ok sent b v n ge k es -> exists s' i', (s', i') ∈ (s, i) :: es /\
    c = mk_ctx s' i' v n (Some (offset_at b s' mod POWERFS_CHUNK_SIZE)) (blob_buf (range b s' i'))).
  { intros k' H. destruct (IH k' H) as (s' & i' & ? & ?). exists s', i'. split; [by right|done]. }
  case_if; rewrite ?elem_of_app.
  - intros [H|[H|H]]; [by apply not_submit_end_pages in H| |by eauto]. case_if_in H; [by apply list_elem_of_singleton in H|by apply not_elem_of_nil in H].
  - intros [H|H]; [case_if_in H; [by apply not_elem_of_nil in H|by apply list_elem_of_singleton in H]|]. case_if_in H.
    + apply elem_of_app in H as [H|H]; [by apply not_submit_end_pages in H|]. apply elem_of_cons in H as [|H]; [done|by eauto].
    + apply elem_of_cons in H as [[= ->]|H]; [|by eauto]. exists s, i. split; [left|done].
Qed.

(** Every request of a group is sound. *)
Lemma submit_group_ok mem_ok sent isize g c :
  group_ok g -> Submit c ∈ submit_group mem_ok sent isize b g -> request_ok c.
Proof.
  destruct g as [[[s e] v] n]. intros Hg. unfold submit_group. destruct (powerfs_wb_needle_full_coverage _ _ _) eqn:Hcov; cbn [negb].
  - repeat case_if; rewrite ?elem_of_app; try (intros [H|H]; [by apply not_submit_end_pages in H|by apply list_elem_of_singleton in H]).
    intros H. apply list_elem_of_singleton in H as [= ->]. by eapply direct_request_ok.
  - intros H. apply blob_acts_requests in H as (s' & i & Hx & ->). destruct Hg as (Hh & Hr & Hin).
    assert (Hrun : Forall (fun x => (s <= fst x < snd x)%nat /\ (snd x <= e)%nat /\ run (offset_at b (fst x)) (range b (fst x) (snd x)))
      (extents s None (range b s e))).
    { pose proof (extents_run b s s None (range b s e)) as H. rewrite length_range in H by lia.
      replace (s + (e - s))%nat with e in H by lia. apply H; [apply starts_with_range|done| |done].
      apply Forall_forall. intros p Hp. by eapply page_ok_in. }
    rewrite Forall_forall in Hrun. destruct (Hrun _ Hx) as (H1 & H2 & H3). by eapply (blob_request_ok s e).
Qed.

(** A byte of a page has the address of the page. *)
Lemma page_byte_located p o :
  page_ok p -> covers p o -> 0 <= o < 2 ^ 63 /\ powerfs_locate_chunk pi o = powerfs_locate_chunk pi (wp_offset p).
Proof.
  intros (Hi & Ho & Hm & Hc & _) Hcv. unfold covers in Hcv. assert (0 <= wp_offset p) by (unfold PAGE_SIZE in *; lia). split; [lia|].
  pose proof (page_in_chunk (wp_index p)) as Hin. rewrite <- Ho in Hin.
  destruct (chunk_of_add (wp_offset p) (o - wp_offset p)) as [E _]; [lia|lia|].
  replace (wp_offset p + (o - wp_offset p)) with o in E by lia. apply locate_same_chunk; [done|lia|unfold PAGE_SIZE in *; lia|done].
Qed.

Lemma aligned_mod base i : base mod POWERFS_CHUNK_SIZE = 0 -> 0 <= i < POWERFS_CHUNK_SIZE -> (base + i) mod POWERFS_CHUNK_SIZE = i.
Proof. intros Hb Hi. rewrite Z.add_mod, Hb, Z.add_0_l, Z.mod_mod by done. by apply Z.mod_small. Qed.

(** What a request writes at position [i] of its needle. *)
Definition touches (c : wb_ctx) (i : Z) : Prop := default 0 (c_blob c) <= i < default 0 (c_blob c) + blen (c_buf c).

Lemma request_byte c i :
  request_ok c -> touches c i ->
  exists o p, p ∈ b /\ covers p o /\ 0 <= o < 2 ^ 63 /\ o mod POWERFS_CHUNK_SIZE = i /\
    powerfs_locate_chunk pi o = At (c_vid c) (c_nid c) /\ byte_at (c_buf c) (i - default 0 (c_blob c)) = byte_at (wp_data p) (o - wp_offset p).
Proof.
  intros (base & Hb & Hoff & Hlen & Hbytes & Hin & _) Hi. destruct (Hbytes i Hi) as (p & Hp & Hcv & Hx). exists (base + i), p.
  pose proof (page_ok_in _ _ _ Hp) as Hok. destruct (page_byte_located p (base + i) Hok Hcv) as [Hr Hl]. unfold covers, touches in *.
  split; [apply elem_of_range in Hp as (j & _ & Hj); by eapply list_elem_of_lookup_2|]. split; [done|]. split; [done|].
  split; [apply aligned_mod; [done|lia]|]. split; [|done]. rewrite Hl. apply Hin; [done|lia].
Qed.

Lemma request_covers c p o :
  request_ok c -> p ∈ range b (c_start c) (c_end c) -> covers p o ->
  powerfs_locate_chunk pi o = At (c_vid c) (c_nid c) /\ touches c (o mod POWERFS_CHUNK_SIZE).
Proof.
  intros (base & Hb & Hoff & Hlen & _ & Hin & _) Hp Hcv. pose proof (page_ok_in _ _ _ Hp) as Hok.
  destruct (page_byte_located p o Hok Hcv) as [_ Hl]. unfold covers in Hcv. destruct (Hin p Hp ltac:(lia)) as (L & H1 & H2).
  split; [by rewrite Hl|]. assert (E : o mod POWERFS_CHUNK_SIZE = o - base).
  { rewrite <- (aligned_mod base (o - base)) by (done || lia). f_equal. lia. }
  unfold touches. rewrite E. lia.
Qed.

(** The address and the position determine the offset. *)
Lemma offset_unique o o' v n :
  0 <= o < 2 ^ 63 -> 0 <= o' < 2 ^ 63 -> powerfs_locate_chunk pi o = At v n -> powerfs_locate_chunk pi o' = At v n ->
  o mod POWERFS_CHUNK_SIZE = o' mod POWERFS_CHUNK_SIZE -> o = o'.
Proof.
  intros Ho Ho' L L' E. pose proof (Halias o o' v n Ho Ho' L L') as Ed.
  rewrite (Z.div_mod o POWERFS_CHUNK_SIZE), (Z.div_mod o' POWERFS_CHUNK_SIZE) by done. by rewrite E, Ed.
Qed.

Lemma covers_unique p q o : NoDup (wp_index <$> b) -> p ∈ b -> q ∈ b -> covers p o -> covers q o -> p = q.
Proof.
  intros Hnd Hp Hq Hcp Hcq. pose proof (proj1 (Forall_forall _ _) Hpages) as Hok.
  destruct (Hok p Hp) as (? & Hop & _ & ? & _). destruct (Hok q Hq) as (? & Hoq & _ & ? & _). unfold covers in *.
  assert (E : wp_index p = wp_index q) by (unfold PAGE_SIZE in *; lia).
  apply list_elem_of_lookup in Hp as [i Hi]. apply list_elem_of_lookup in Hq as [j Hj].
  assert (i = j) as ->; [|congruence].
  eapply (NoDup_lookup _ i j (wp_index p) Hnd); rewrite list_lookup_fmap; [by rewrite Hi|by rewrite Hj, E].
Qed.

(** ** The work function *)

Section located.
Context (mem_ok : nat -> bool) (sent : nat -> Z) (isize : nat -> Z) (net_stopping : bool).
Hypothesis Hlocated : Forall (fun p => wp_count p <> 0 -> exists a, locate_of pi (wp_offset p) = inr a) b.

Abbreviation acts := (powerfs_writepage_work_fn mem_ok sent isize b net_stopping (locate_of pi) (locate_of pi)).

Lemma only_ends_no_submit l c : only_ends l -> Submit c ∉ l.
Proof. intros H. unfold only_ends in H. rewrite Forall_forall in H. intros Hc. exact (H _ Hc). Qed.

Lemma starts_with_all : starts_with b 0 b.
Proof. exists []. by rewrite drop_0, app_nil_r. Qed.

Lemma batch_groups_ok : Forall group_ok (groups (locate_of pi) 0 None b).
Proof. apply groups_ok; [apply starts_with_all|done|done]. Qed.

Lemma work_requests c : Submit c ∈ acts -> request_ok c.
Proof.
  unfold powerfs_writepage_work_fn. destruct net_stopping.
  { rewrite elem_of_app. intros [H|H]; [by apply list_elem_of_fmap in H as (? & ? & _)|by apply list_elem_of_singleton in H]. }
  pose proof (first_pass_ends (locate_of pi) 0 None b) as He. destruct (first_pass _ _ _ _) as [pre k]. cbn [fst] in He.
  case_if; rewrite elem_of_app; (intros [H|H]; [by apply only_ends_no_submit in H|]).
  - by apply list_elem_of_singleton in H.
  - apply elem_of_cons in H as [|H]; [done|]. apply elem_of_app in H as [H|H]; [|by apply list_elem_of_singleton in H].
    apply list_elem_of_In, in_concat in H as (l & Hl & Hc). apply list_elem_of_In, list_elem_of_fmap in Hl as (g & -> & Hg).
    pose proof batch_groups_ok as Hok. rewrite Forall_forall in Hok. eapply submit_group_ok; [by apply Hok|by apply list_elem_of_In].
Qed.

(** Nothing but a page without bytes is ended without an error. *)
Lemma end_pages_error s e err j x : EndPage j x ∈ end_pages b s e err -> x = err.
Proof. unfold end_pages. intros H. by apply list_elem_of_fmap in H as (? & [= _ ->] & _). Qed.

Hypothesis Hsent : forall i, sent i <= 0.

Lemma fail_err_nonzero i : sent i <> 0 -> fail_err (sent i) <> 0.
Proof. intros H. specialize (Hsent i). unfold fail_err. destruct (Z.ltb_spec (sent i) 0); lia. Qed.

Lemma blob_acts_error v n ge k es j x : EndPage j x ∈ blob_acts mem_ok sent b v n ge k es -> x <> 0.
Proof.
  revert k. induction es as [|[s i] es IH]; intros k; cbn [blob_acts].
  { case_if; [intros H; by apply list_elem_of_singleton in H|intros H; by apply not_elem_of_nil in H]. }
  case_if; rewrite ?elem_of_app.
  - intros [H|[H|H]]; [by apply end_pages_error in H as ->| |by eapply IH].
    case_if_in H; [by apply list_elem_of_singleton in H|by apply not_elem_of_nil in H].
  - intros [H|H]; [case_if_in H; [by apply not_elem_of_nil in H|by apply list_elem_of_singleton in H]|]. case_if_in H.
    + apply elem_of_app in H as [H|H]; [apply end_pages_error in H as ->; by apply fail_err_nonzero|]. apply elem_of_cons in H as [|H]; [done|by eapply IH].
    + apply elem_of_cons in H as [|H]; [done|by eapply IH].
Qed.

Lemma submit_group_error g j x : EndPage j x ∈ submit_group mem_ok sent isize b g -> x <> 0.
Proof.
  destruct g as [[[s e] v] n]. unfold submit_group, powerfs_wb_submit_blob_extents.
  repeat case_if; rewrite ?elem_of_app.
  - apply blob_acts_error.
  - intros [H|H]; [by apply end_pages_error in H as ->|by apply list_elem_of_singleton in H].
  - intros [H|H]; [apply end_pages_error in H as ->; by apply fail_err_nonzero|by apply list_elem_of_singleton in H].
  - intros H. by apply list_elem_of_singleton in H.
Qed.

Lemma first_pass_error i cur ps j x :
  starts_with b i ps -> Forall (fun p => wp_count p <> 0 -> exists a, locate_of pi (wp_offset p) = inr a) ps ->
  EndPage j x ∈ fst (first_pass (locate_of pi) i cur ps) -> exists p, b !! j = Some p /\ wp_count p = 0.
Proof.
  revert i cur. induction ps as [|p ps IH]; intros i cur Hb Hl; cbn [first_pass]; [intros H; by apply not_elem_of_nil in H|].
  apply starts_with_cons in Hb as [Hp Hb]. apply Forall_cons in Hl as [Hl1 Hl]. pose proof (fun c => IH (S i) c Hb Hl) as H.
  destruct (Z.eqb_spec (wp_count p) 0) as [Hz|Hz].
  { specialize (H cur). destruct (first_pass _ _ _ _) as [a k]. cbn. intros [[= -> ->]|Hin]%elem_of_cons; [by exists p|by apply H]. }
  destruct (Hl1 Hz) as [[v n] ->].
  destruct cur as [[v' n']|]; [case_if; [apply H|]|]; specialize (H (Some (v, n))); by destruct (first_pass _ _ _ _).
Qed.

Lemma work_error j x p : EndPage j x ∈ acts -> b !! j = Some p -> wp_count p <> 0 -> x <> 0.
Proof.
  unfold powerfs_writepage_work_fn. intros H Hj Hz. destruct net_stopping.
  { apply elem_of_app in H as [H|H]; [by apply list_elem_of_fmap in H as (? & [= _ ->] & _)|by apply list_elem_of_singleton in H]. }
  pose proof (first_pass_error 0 None b j x starts_with_all Hlocated) as He. destruct (first_pass _ _ _ _) as [pre k]. cbn [fst] in He.
  case_if_in H; apply elem_of_app in H as [H|H]; try (destruct (He H) as (q & Hq & Hqz); congruence).
  - by apply list_elem_of_singleton in H.
  - apply elem_of_cons in H as [|H]; [done|]. apply elem_of_app in H as [H|H]; [|by apply list_elem_of_singleton in H].
    apply list_elem_of_In, in_concat in H as (l & Hl & Hc). apply list_elem_of_In, list_elem_of_fmap in Hl as (g & -> & Hg).
    eapply submit_group_error. by apply list_elem_of_In.
Qed.

(** Each page with bytes is in a request, or has an error. *)
Lemma work_covers j p :
  b !! j = Some p -> wp_count p <> 0 ->
  (exists c, Submit c ∈ acts /\ p ∈ range b (c_start c) (c_end c)) \/ (exists x, x <> 0 /\ EndPage j x ∈ acts).
Proof.
  intros Hj Hz. assert (Hd : j ∈ due b acts).
  { rewrite (work_due mem_ok sent isize b net_stopping (locate_of pi) Hlocated). apply elem_of_seq. apply lookup_lt_Some in Hj. lia. }
  unfold due in Hd. apply list_elem_of_In, in_concat in Hd as (l & Hl & Hd). apply list_elem_of_In, list_elem_of_fmap in Hl as (a & -> & Ha).
  apply list_elem_of_In in Hd. destruct a as [j' x| | | | |c|]; cbn [act_due] in Hd; try (by apply not_elem_of_nil in Hd).
  - apply list_elem_of_singleton in Hd as ->. right. exists x. split; [by eapply work_error|done].
  - left. exists c. split; [done|]. unfold pages_of in Hd. apply list_elem_of_filter in Hd as [_ Hd]. apply elem_of_seq in Hd.
    apply elem_of_range. exists j. split; [lia|done].
Qed.

End located.
End stored.

(** ** Runs *)

(** What was submitted and which errors were seen, so far. *)
Definition ledger (acts : list act) (s : wb_state) : Prop :=
  (forall c, Submit c ∈ acts <-> c ∈ requests s \/ Submit c ∈ works s) /\
  (forall j x, EndPage j x ∈ acts -> x <> 0 -> x ∈ errors s \/ EndPage j x ∈ works s) /\ Forall cb_ok (cbs s).

Lemma do_act_ends s a :
  (forall c, a <> Submit c) -> requests (do_act s a) = requests s /\ works (do_act s a) = works s /\ cbs (do_act s a) = cbs s /\
  (forall x, x ∈ errors s -> x ∈ errors (do_act s a)).
Proof.
  intros Ha. destruct s as [w f c n k d er rq], a as [j x| | | | |c'|]; cbn; try done; [|by destruct (Ha c')].
  split_and!; try done. intros y Hy. case_if; [done|]. apply elem_of_app. by left.
Qed.

Lemma ledger_step acts b s e s' : ledger acts s -> wb_step b s e = Some s' -> ledger acts s'.
Proof.
  intros (Hr & He & Hcb). destruct e as [|i er st|i]; cbn [wb_step].
  - destruct (works s) as [|a rest] eqn:Hw; [done|]. intros H. apply (inj Some) in H as <-.
    assert (Hcase : (exists c, a = Submit c) \/ (forall c, a <> Submit c)) by (destruct a; eauto).
    destruct Hcase as [[c ->]|Ha].
    + cbn. split; [|split; [|done]].
      * intros c'. cbn [requests works]. rewrite Hr, elem_of_cons, elem_of_app, list_elem_of_singleton. split; [intros [|[H|]]; [| injection H as ->|]|intros [[| ->]|]]; auto.
      * intros j x Hj Hx. cbn [errors works]. destruct (He j x Hj Hx) as [|H]; [by left|]. apply elem_of_cons in H as [|]; [done|by right].
    + destruct (do_act_ends (mk_wb rest (flying s) (cbs s) (pending_needles s) (cleanups s) (ended s) (errors s) (requests s)) a Ha)
        as (E1 & E2 & E3 & E4). cbn [requests works cbs errors] in *. split; [|split; [|by rewrite E3]].
      * intros c'. rewrite Hr, E1, E2, elem_of_cons. specialize (Ha c'). split; [intros [|[<-|]]; [by left|done|by right]|intros [|]; auto].
      * intros j x Hj Hx. rewrite E2. destruct (He j x Hj Hx) as [H|H]; [left; by apply E4|]. apply elem_of_cons in H as [<-|]; [|by right].
        left. cbn. rewrite (proj2 (Z.eqb_neq x 0)) by done. apply elem_of_app. right. left.
  - destruct (flying s !! i) as [c|] eqn:Hi; [|done]. intros [= <-]. split; [done|]. split; [done|]. cbn. apply Forall_app. split; [done|].
    constructor; [|constructor]. right. eexists. split; [done|apply only_ends_pages].
  - destruct (cbs s !! i) as [[|a l]|] eqn:Hi; [done| |done]. intros H. apply (inj Some) in H as <-.
    destruct (cb_ok_cons a l (Forall_lookup_1 _ _ _ _ Hcb Hi)) as [Hl Hcase].
    assert (Ha : forall c, a <> Submit c) by (intros c ->; destruct Hcase as [[? _]|[(? & ? & ?) _]]; done).
    destruct (do_act_ends (mk_wb (works s) (flying s) (<[i := l]> (cbs s)) (pending_needles s) (cleanups s) (ended s) (errors s) (requests s)) a Ha)
      as (E1 & E2 & E3 & E4). cbn [requests works cbs errors] in *. split; [|split].
    + intros c'. by rewrite Hr, E1, E2.
    + intros j x Hj Hx. rewrite E2. destruct (He j x Hj Hx); [left; by apply E4|by right].
    + rewrite E3. by apply Forall_insert.
Qed.

Lemma ledger_exec acts b es s s' : ledger acts s -> wb_exec b es s = Some s' -> ledger acts s'.
Proof.
  revert s. induction es as [|e es IH]; intros s Hi; cbn; [by intros [= <-]|].
  destruct (wb_step b s e) as [s1|] eqn:E; [|done]. apply IH. by eapply ledger_step.
Qed.

Lemma ledger_start acts : ledger acts (wb_start acts).
Proof.
  split; [|split; [|constructor]]; cbn; [|by right]. intros c. split; [by right|]. intros [H|]; [by apply not_elem_of_nil in H|done].
Qed.

(** ** Servers *)

Section servers.
Context {W : Type} `{VS : !VolumeServers W}.

(** A request of a whole chunk is a WRITE, which may replace the needle; a
    blob goes to its offset in the needle. *)
Definition request_done (w w' : W) (c : wb_ctx) : Prop :=
  match c_blob c with
  | None => needle_put w w' (c_vid c) (c_nid c) (c_buf c)
  | Some off => needle_written w w' (c_vid c) (c_nid c) off (c_buf c)
  end.

(** The servers handle requests one after the other. *)
Inductive handled : W -> list wb_ctx -> W -> Prop :=
| handled_nil w : handled w [] w
| handled_cons w w1 w' c cs : request_done w w1 c -> handled w1 cs w' -> handled w (c :: cs) w'.

(** The bytes of the needle of a request, and the other needles. *)
Lemma request_done_byte w w' c i :
  request_done w w' c -> 0 <= i < POWERFS_CHUNK_SIZE -> 0 <= default 0 (c_blob c) ->
  (c_blob c = None -> blen (c_buf c) = POWERFS_CHUNK_SIZE) ->
  byte_at (default [] (needle w' (c_vid c) (c_nid c))) i =
    (if (default 0 (c_blob c) <=? i) && (i <? default 0 (c_blob c) + blen (c_buf c))
     then byte_at (c_buf c) (i - default 0 (c_blob c)) else byte_at (default [] (needle w (c_vid c) (c_nid c))) i) /\
  (forall v n, (v, n) <> (c_vid c, c_nid c) -> needle w' v n = needle w v n).
Proof.
  unfold request_done. intros Hd Hi Ho Hw. destruct (c_blob c) as [off|] eqn:Eb; cbn [default from_option id] in *.
  - destruct Hd as [-> Hn]. split; [|done]. cbn [default from_option id]. apply byte_at_patch; lia.
  - pose proof (put_byte _ _ _ _ _ i Hd ltac:(lia)) as Hb. cbv zeta in Hb. rewrite (Hw eq_refl) in *.
    rewrite (proj2 (Z.ltb_lt i POWERFS_CHUNK_SIZE)) in Hb by lia. rewrite (proj2 (Z.leb_le 0 i)), Z.add_0_l, Z.sub_0_r by lia. cbn [andb].
    rewrite (proj2 (Z.ltb_lt i POWERFS_CHUNK_SIZE)) by lia. split; [destruct Hb as [Hb|[? _]]; [done|lia]|apply Hd].
Qed.

Definition needle_byte (w : W) (v n i : Z) : Z := byte_at (default [] (needle w v n)) i.

(** A position that every request gives the same byte. *)
Lemma handled_byte w cs w' v n i x :
  handled w cs w' -> 0 <= i < POWERFS_CHUNK_SIZE -> (forall c, c ∈ cs -> 0 <= default 0 (c_blob c)) ->
  (forall c, c ∈ cs -> c_blob c = None -> blen (c_buf c) = POWERFS_CHUNK_SIZE) ->
  (forall c, c ∈ cs -> c_vid c = v -> c_nid c = n -> touches c i -> byte_at (c_buf c) (i - default 0 (c_blob c)) = x) ->
  (needle_byte w' v n i = x /\ exists c, c ∈ cs /\ c_vid c = v /\ c_nid c = n /\ touches c i) \/
  (needle_byte w' v n i = needle_byte w v n i /\ forall c, c ∈ cs -> c_vid c = v -> c_nid c = n -> ~ touches c i).
Proof.
  intros Hh Hi. induction Hh as [w|w w1 w' c cs Hdone _ IH]; intros Hoff Hwhole Hx.
  { right. split; [done|]. intros c Hc. by apply not_elem_of_nil in Hc. }
  destruct IH as [[E (c' & Hc' & ? & ? & ?)]|[E Hno]]; [intros c' Hc'; apply Hoff; by right|intros c' Hc'; apply Hwhole; by right|intros c' Hc'; apply Hx; by right| |].
  { left. split; [done|]. exists c'. split; [by right|done]. }
  destruct (request_done_byte w w1 c i Hdone Hi (Hoff c ltac:(left)) (Hwhole c ltac:(left))) as [Hw Ho].
  rewrite E. destruct (decide ((c_vid c, c_nid c) = (v, n))) as [[= Hv Hn]|Hne].
  - assert (Ew : needle_byte w1 v n i = if (default 0 (c_blob c) <=? i) && (i <? default 0 (c_blob c) + blen (c_buf c))
      then byte_at (c_buf c) (i - default 0 (c_blob c)) else needle_byte w v n i).
    { unfold needle_byte. by rewrite <- Hv, <- Hn. }
    rewrite Ew. destruct (Z.leb_spec (default 0 (c_blob c)) i), (Z.ltb_spec i (default 0 (c_blob c) + blen (c_buf c))); cbn [andb].
    { left. split; [apply Hx; [left|done|done|]; unfold touches; lia|]. exists c. split; [left|]. unfold touches. split_and!; (done || lia). }
    all: right; (split; [done|]); intros c' [->|Hc']%elem_of_cons ? ?; [unfold touches; lia|by apply Hno].
  - right. split; [unfold needle_byte; by rewrite Ho by done|]. intros c' [->|Hc']%elem_of_cons ? ?; [by subst|by apply Hno].
Qed.

(** C30. Writeback stores the pages.  Take a batch of distinct pages whose
    addresses are known, and a layout whose chunks have distinct needles;
    submissions return 0 or a negative error.  When the work is over and no error was recorded, and the servers have
    handled the requests, in whatever order, then the file holds every byte
    of every page at its offset, and every other byte of the file is what it
    was.  This holds for whole chunks and for blobs, and for pages of several
    chunks in one batch. *)
Theorem writeback_persists (w w' : W) pi b mem_ok sent isize net_stopping es s reqs :
  chunked pi -> no_alias pi -> Forall page_ok b -> NoDup (wp_index <$> b) -> (forall i, sent i <= 0) ->
  Forall (fun p => wp_count p <> 0 -> exists a, locate_of pi (wp_offset p) = inr a) b ->
  wb_exec b es (wb_start (powerfs_writepage_work_fn mem_ok sent isize b net_stopping (locate_of pi) (locate_of pi))) = Some s ->
  wb_finished s -> errors s = [] -> reqs ≡ₚ requests s -> handled w reqs w' ->
  (forall p k, p ∈ b -> 0 <= k < wp_count p -> file_byte w' pi (wp_offset p + k) = byte_at (wp_data p) k) /\
  (forall o, 0 <= o < 2 ^ 63 -> (forall p, p ∈ b -> ~ covers p o) -> file_byte w' pi o = file_byte w pi o).
Proof.
  intros Hch Hal Hok Hnd Hsent Hloc Hex (Hw & _) Herr Hperm Hh.
  set (acts := powerfs_writepage_work_fn _ _ _ _ _ _ _) in Hex.
  destruct (ledger_exec acts b es _ s (ledger_start acts) Hex) as (Hr & He & _). rewrite Hw in Hr, He. rewrite Herr in He.
  assert (Hreq : forall c, c ∈ reqs <-> Submit c ∈ acts).
  { intros c. rewrite Hperm, Hr. split; [by left|]. intros [|H]; [done|by apply not_elem_of_nil in H]. }
  assert (Hrok : forall c, c ∈ reqs -> request_ok pi b c) by (intros c Hc; eapply work_requests; [..|by apply Hreq]; done).
  assert (Hoff : forall c, c ∈ reqs -> 0 <= default 0 (c_blob c)) by (intros c Hc; by destruct (Hrok c Hc) as (? & _ & ? & _)).
  assert (Hwhole : forall c, c ∈ reqs -> c_blob c = None -> blen (c_buf c) = POWERFS_CHUNK_SIZE)
    by (intros c Hc; by destruct (Hrok c Hc) as (? & _ & _ & _ & _ & _ & ?)).
  assert (Hfb : forall (u : W) o v n, powerfs_locate_chunk pi o = At v n -> file_byte u pi o = needle_byte u v n (o mod POWERFS_CHUNK_SIZE)).
  { intros u o v n L. unfold file_byte. by rewrite (content_needle u pi o v n L). }
  assert (Hmod : forall o, 0 <= o mod POWERFS_CHUNK_SIZE < POWERFS_CHUNK_SIZE) by (intros o; by apply Z.mod_pos_bound).
  split.
  - intros p k Hp Hk. set (o := wp_offset p + k). assert (Hcv : covers p o) by (unfold covers, o; lia).
    pose proof Hp as Hp'. apply list_elem_of_lookup in Hp' as [j Hj].
    destruct (work_covers pi b mem_ok sent isize net_stopping Hloc Hsent j p Hj ltac:(lia)) as [(c & Hc & Hpc)|(x & Hx & Hxe)].
    2:{ destruct (He j x Hxe Hx) as [H|H]; by apply not_elem_of_nil in H. }
    apply Hreq in Hc. destruct (request_covers pi b Hch Hok c p o (Hrok c Hc) Hpc Hcv) as [L Ht].
    destruct (page_byte_located pi Hch p o (proj1 (Forall_forall _ _) Hok p Hp) Hcv) as [Hro _]. rewrite (Hfb _ _ _ _ L).
    destruct (handled_byte w reqs w' (c_vid c) (c_nid c) (o mod POWERFS_CHUNK_SIZE) (byte_at (wp_data p) k) Hh (Hmod o) Hoff Hwhole) as [[E _]|[_ Hno]]; [|done|].
    2:{ by destruct (Hno c Hc eq_refl eq_refl). }
    intros c' Hc' Hv Hn Ht'. destruct (request_byte pi b Hch Hok c' _ (Hrok c' Hc') Ht') as (o' & q & Hq & Hcq & Hro' & Em & L' & Hb).
    rewrite Hb. rewrite Hv, Hn in L'. assert (o' = o) as -> by (by eapply (offset_unique pi Hal)).
    assert (q = p) as -> by (by eapply (covers_unique b Hok)). f_equal. unfold o. lia.
  - intros o Ho Hnc. destruct (powerfs_locate_chunk pi o) as [v n|x|] eqn:L.
    2,3: unfold file_byte, content; by rewrite L.
    rewrite !(Hfb _ _ _ _ L).
    destruct (handled_byte w reqs w' v n (o mod POWERFS_CHUNK_SIZE) 0 Hh (Hmod o) Hoff Hwhole) as [[_ (c & Hc & Hv & Hn & Ht)]|[E _]]; [| |done].
    + intros c Hc Hv Hn Ht. exfalso. destruct (request_byte pi b Hch Hok c _ (Hrok c Hc) Ht) as (o' & q & Hq & Hcq & Hro' & Em & L' & _).
      rewrite Hv, Hn in L'. assert (o' = o) as -> by (by eapply (offset_unique pi Hal)). by eapply Hnc.
    + exfalso. destruct (request_byte pi b Hch Hok c _ (Hrok c Hc) Ht) as (o' & q & Hq & Hcq & Hro' & Em & L' & _).
      rewrite Hv, Hn in L'. assert (o' = o) as -> by (by eapply (offset_unique pi Hal)). by eapply Hnc.
Qed.

End servers.

(** ** Collecting pages *)

Section collect.
Context (alloc : Z -> bool) (busy : nat -> bool) (batch_pages : nat).
Hypothesis Hbatch : (0 < batch_pages)%nat.

Definition to_page (p : dpage) : wpage := mk_wpage (pg_index p) (page_offset p) (page_count p) (pg_data p).

(** A batch: its pages are of one chunk. *)
Definition batch_ok (l : list wpage) : Prop :=
  l <> [] /\ (length l <= batch_pages)%nat /\ exists c, Forall (fun q => wp_offset q / POWERFS_CHUNK_SIZE = c) l.

Definition taken (s : walk) : list wpage := concat (queued s) ++ batch s.

(** What the walk did with the pages [seen] so far. *)
Definition walk_inv (seen : list dpage) (s : walk) : Prop :=
  (wp_index <$> taken s) ++ redirtied s ++ beyond s ++ skipped s ≡ₚ pg_index <$> seen /\
  Forall batch_ok (queued s) /\ (batch s = [] \/ batch_ok (batch s)) /\
  Forall (fun q => exists p, p ∈ seen /\ pg_dirty p = true /\ page_offset p < pg_size1 p /\ q = to_page p) (taken s).

(** The budget while the walk goes on, and when it is over. *)
Definition going (nr : Z) (s : walk) : Prop :=
  (length (batch s) < batch_pages)%nat /\ nr_to_write s + Z.of_nat (length (taken s)) = nr /\ (taken s = [] \/ 0 < nr_to_write s).

Definition within (nr : Z) (s : walk) : Prop := Z.of_nat (length (taken s)) <= Z.max nr 1.

Lemma going_within nr s : going nr s -> within nr s.
Proof. unfold within. intros (_ & E & [H|H]); [rewrite H; cbn; lia|lia]. Qed.

Lemma walk_inv_mono seen p s :
  Forall (fun q => exists p, p ∈ seen /\ pg_dirty p = true /\ page_offset p < pg_size1 p /\ q = to_page p) (taken s) ->
  Forall (fun q => exists p', p' ∈ seen ++ [p] /\ pg_dirty p' = true /\ page_offset p' < pg_size1 p' /\ q = to_page p') (taken s).
Proof. intros H. eapply Forall_impl; [exact H|]. intros q (p' & ? & ?). exists p'. split; [apply elem_of_app; by left|done]. Qed.

Lemma taken_queue s : taken (queue_batch s) = taken s.
Proof. unfold taken, queue_batch. cbn [queued batch]. rewrite concat_app. cbn. by rewrite !app_nil_r. Qed.

Lemma queue_inv seen s : walk_inv seen s -> batch s <> [] -> walk_inv seen (queue_batch s).
Proof.
  intros (Hp & Hq & Hb & Hf) Hne. unfold walk_inv. rewrite taken_queue. cbn [queue_batch queued batch redirtied beyond skipped].
  split; [done|]. split; [|split; [by left|done]]. apply Forall_app. split; [done|]. constructor; [|constructor]. by destruct Hb.
Qed.

Lemma queue_going nr s : going nr s -> going nr (queue_batch s).
Proof.
  intros (Hl & E & H). unfold going. rewrite taken_queue. cbn [queue_batch batch nr_to_write length]. auto.
Qed.

Lemma redirty_inv seen p s : walk_inv seen s -> walk_inv (seen ++ [p]) (redirty s p).
Proof.
  intros (Hp & Hq & Hb & Hf). split; [|split; [done|split; [done|by apply walk_inv_mono]]]. cbn [redirty redirtied beyond skipped].
  rewrite fmap_app, <- Hp. change (taken (redirty s p)) with (taken s). cbn [fmap list_fmap]. solve_Permutation.
Qed.

Lemma past_end_inv seen p s : walk_inv seen s -> walk_inv (seen ++ [p]) (past_end s p).
Proof.
  intros (Hp & Hq & Hb & Hf). split; [|split; [done|split; [done|by apply walk_inv_mono]]]. cbn [past_end redirtied beyond skipped].
  rewrite fmap_app, <- Hp. change (taken (past_end s p)) with (taken s). cbn [fmap list_fmap]. solve_Permutation.
Qed.

Lemma skip_inv seen p s : walk_inv seen s -> walk_inv (seen ++ [p]) (skip_clean s p).
Proof.
  intros (Hp & Hq & Hb & Hf). split; [|split; [done|split; [done|by apply walk_inv_mono]]]. cbn [skip_clean redirtied beyond skipped].
  rewrite fmap_app, <- Hp. change (taken (skip_clean s p)) with (taken s). cbn [fmap list_fmap]. solve_Permutation.
Qed.

Lemma taken_add s p : taken (add_page s p) = taken s ++ [to_page p].
Proof. unfold taken, add_page. cbn [queued batch]. by rewrite app_assoc. Qed.

Lemma add_page_inv seen p s :
  walk_inv seen s -> (length (batch s) < batch_pages)%nat -> other_chunk s p = false -> pg_dirty p = true -> page_offset p < pg_size1 p ->
  walk_inv (seen ++ [p]) (add_page s p).
Proof.
  intros (Hp & Hq & Hb & Hf) Hlen Hc Hd Ho. unfold walk_inv. rewrite taken_add. cbn [add_page redirtied beyond skipped queued batch]. split_and!.
  - rewrite !fmap_app, <- Hp. cbn [fmap list_fmap wp_index to_page]. solve_Permutation.
  - done.
  - right. split; [intros E; by apply app_eq_nil in E as [_ ?]|]. rewrite length_app. split; [cbn; lia|].
    destruct Hb as [->|(Hne & _ & c & Hall)]; [eexists; by apply Forall_singleton|]. exists c. apply Forall_app. split; [done|].
    apply Forall_singleton. unfold other_chunk in Hc. destruct (last (batch s)) as [q|] eqn:Hl; [|by apply last_None in Hl].
    apply negb_false_iff, Z.eqb_eq in Hc. cbn [wp_offset]. rewrite <- Hc. rewrite Forall_forall in Hall. apply Hall. by apply last_Some_elem_of.
  - apply Forall_app. split; [by apply walk_inv_mono|]. apply Forall_singleton. exists p. split; [apply elem_of_app; right; left|done].
Qed.

(** One page. *)
Lemma add_to_batch_inv nr seen p s s' more :
  walk_inv seen s -> going nr s -> other_chunk s p = false -> pg_dirty p = true -> add_to_batch alloc busy batch_pages s p = (s', more) ->
  walk_inv (seen ++ [p]) s' /\ within nr s' /\ (more = true -> going nr s').
Proof.
  intros Hi Hg Hc Hd. unfold add_to_batch. destruct (Z.leb_spec (pg_size1 p) (page_offset p)).
  { intros [= <- <-]. split; [by apply past_end_inv|]. split; [by apply going_within in Hg|done]. }
  case_if; [intros [= <- <-]; split; [by apply redirty_inv|]; split; [by apply going_within in Hg|done]|].
  pose proof Hg as (Hlen & Hbud & Hpos). pose proof (add_page_inv seen p s Hi Hlen Hc Hd ltac:(lia)) as Ha.
  assert (Hw : Z.of_nat (length (taken (add_page s p))) = nr - nr_to_write s + 1) by (rewrite taken_add, length_app; cbn [length]; lia).
  assert (Hwi : within nr (add_page s p)).
  { unfold within. rewrite Hw. destruct Hpos as [E0|]; [rewrite E0 in Hbud; cbn in Hbud; lia|lia]. }
  set (s1 := add_page s p) in *. set (full := (batch_pages <=? length (batch s1))%nat).
  set (s2 := if full then queue_batch s1 else s1).
  assert (Hne : batch s1 <> []) by (intros E'; by apply app_eq_nil in E' as [_ ?]).
  assert (H2 : walk_inv (seen ++ [p]) s2 /\ taken s2 = taken s1 /\ nr_to_write s2 = nr_to_write s /\ (length (batch s2) < batch_pages)%nat).
  { unfold s2, full. destruct (Nat.leb_spec batch_pages (length (batch s1))); [|done].
    split; [by apply queue_inv|]. split; [apply taken_queue|]. done. }
  destruct H2 as (Hi2 & Ht2 & Hn2 & Hl2). assert (Hw2 : within nr s2) by (unfold within; by rewrite Ht2).
  case_if; intros [= <- <-]; [by split_and!|]. split; [done|]. split; [done|]. intros Hm. apply negb_true_iff, Z.leb_gt in Hm.
  cbn [count_down nr_to_write] in Hm. change (taken (count_down s2)) with (taken s2). unfold going.
  change (taken (count_down s2)) with (taken s2). cbn [count_down batch nr_to_write]. rewrite Ht2. split; [done|]. split; [lia|right; lia].
Qed.

Lemma visit_page_inv nr seen p s s' more :
  walk_inv seen s -> going nr s -> visit_page alloc busy batch_pages s p = (s', more) ->
  walk_inv (seen ++ [p]) s' /\ within nr s' /\ (more = true -> going nr s').
Proof.
  intros Hi Hg. unfold visit_page. destruct (pg_dirty p) eqn:Hd; cbn [negb].
  2:{ intros [= <- <-]. split; [by apply skip_inv|]. split; [by apply going_within in Hg|done]. }
  destruct (other_chunk s p) eqn:Hc; [|by apply add_to_batch_inv].
  assert (Hne : batch s <> []) by (unfold other_chunk in Hc; by destruct (batch s)). pose proof (queue_inv seen s Hi Hne) as Hq.
  case_if; [|apply add_to_batch_inv; [done|by apply queue_going|done|done]].
  intros [= <- <-]. split; [by apply redirty_inv|]. split; [|done].
  apply (going_within nr (queue_batch s)), queue_going, Hg.
Qed.

Lemma walk_pages_inv nr seen ps s s' rest :
  walk_inv seen s -> going nr s -> walk_pages alloc busy batch_pages s ps = (s', rest) ->
  exists dn, ps = dn ++ rest /\ walk_inv (seen ++ dn) s' /\ within nr s'.
Proof.
  revert seen s. induction ps as [|p ps IH]; intros seen s Hi Hg; cbn [walk_pages].
  { intros [= <- <-]. exists []. split; [done|]. rewrite app_nil_r. split; [done|by apply going_within]. }
  destruct (visit_page alloc busy batch_pages s p) as [s1 more] eqn:Hv.
  destruct (visit_page_inv nr seen p s s1 more Hi Hg Hv) as (Hi1 & Hw & Hgo). destruct more.
  - intros H. destruct (IH _ _ Hi1 (Hgo eq_refl) H) as (dn & -> & Hd & Hw'). exists (p :: dn). split; [done|].
    rewrite <- app_assoc in Hd. done.
  - intros [= <- <-]. by exists [p].
Qed.

(** The count of a page when the size does not change. *)
Lemma page_count_steady p :
  0 <= pg_index p -> pg_size1 p = pg_size2 p -> pg_size2 p = pg_size3 p -> page_offset p < pg_size1 p < 2 ^ 63 ->
  page_count p = Z.min PAGE_SIZE (pg_size1 p - page_offset p).
Proof.
  intros Hi E1 E2 Ho. unfold page_count. rewrite <- E2, <- E1.
  assert (0 <= page_offset p) by (unfold page_offset, PAGE_SIZE; lia).
  destruct (Z.gtb_spec (page_offset p + PAGE_SIZE) (pg_size1 p)); [|lia]. rewrite u64_small by lia. lia.
Qed.

(** C32. A call of [powerfs_writepages] accounts for every page.  Each page
    with the dirty tag is in exactly one place: in a queued batch, redirtied,
    behind the end of the file, clean when it was locked, or not visited.
    Each batch is not empty, has at most [batch_pages] pages and holds pages
    of one chunk only; what it holds are dirty pages below the end of the
    file, with the number of bytes up to the end of the page or of the file
    as long as the size does not change; and the budget of the caller is kept
    (one page is written even if it is zero). *)
Theorem writepages_partition is_dir pi net_stopping in_flight nr tagged s rest :
  powerfs_writepages alloc busy batch_pages is_dir pi net_stopping in_flight nr tagged = WpQueued s rest ->
  (wp_index <$> concat (queued s)) ++ redirtied s ++ beyond s ++ skipped s ++ (pg_index <$> rest) ≡ₚ pg_index <$> tagged /\
  Forall batch_ok (queued s) /\
  (forall q, q ∈ concat (queued s) -> exists p, p ∈ tagged /\ pg_dirty p = true /\ page_offset p < pg_size1 p /\
     wp_index q = pg_index p /\ wp_offset q = page_offset p /\ wp_data q = pg_data p /\
     (0 <= pg_index p -> pg_size1 p = pg_size2 p -> pg_size2 p = pg_size3 p -> pg_size1 p < 2 ^ 63 ->
      wp_count q = Z.min PAGE_SIZE (pg_size1 p - page_offset p))) /\
  Z.of_nat (length (concat (queued s))) <= Z.max nr 1.
Proof.
  unfold powerfs_writepages. repeat (case_if; [done|]). destruct (walk_pages _ _ _ _ _) as [s1 rest1] eqn:Hw. intros [= <- <-].
  set (s0 := mk_walk [] [] nr [] [] [] []) in Hw.
  assert (Hi0 : walk_inv [] s0) by (split; [done|]; split; [constructor|]; split; [by left|constructor]).
  assert (Hg : going nr s0) by (split; [done|]; split; [cbn; lia|by left]).
  destruct (walk_pages_inv nr [] tagged s0 s1 rest1 Hi0 Hg Hw) as (dn & -> & Hi & Hwi).
  cbn [app] in Hi.
  assert (Hfl : walk_inv dn (flush_batch s1) /\ batch (flush_batch s1) = [] /\ within nr (flush_batch s1)).
  { unfold flush_batch. case_bool_decide as Hb; [done|]. split; [by apply queue_inv|]. split; [done|]. unfold within. by rewrite taken_queue. }
  destruct Hfl as ((Hp & Hq & _ & Hf) & Hb & Hbud). unfold within, taken in *. rewrite Hb, app_nil_r in Hp, Hf, Hbud. split_and!.
  - rewrite fmap_app, <- Hp. solve_Permutation.
  - done.
  - intros q Hq'. rewrite Forall_forall in Hf. destruct (Hf q Hq') as (p & Hin & Hd & Ho & ->). exists p.
    split; [apply elem_of_app; by left|]. split_and!; try done. intros. cbn [to_page wp_count]. by apply page_count_steady.
  - done.
Qed.

End collect.

(** The conditions on the layout hold for Flat files. *)
Lemma flat_no_alias pi : flat_file pi -> no_alias pi.
Proof.
  intros Hf o o' v n Ho Ho'. rewrite !locate_flat_file by done. intros [= <- <-] [= E]. symmetry. by eapply flat_needles_differ.
Qed.

Lemma flat_located pi b :
  flat_file pi -> Forall page_ok b -> Forall (fun p => wp_count p <> 0 -> exists a, locate_of pi (wp_offset p) = inr a) b.
Proof.
  intros Hf Hok. eapply Forall_impl; [exact Hok|]. intros p (Hi & Ho & Hm & _) _. unfold locate_of. unfold PAGE_SIZE in *.
  rewrite locate_flat_file by (done || lia). eauto.
Qed.

(** ** Runs *)

Module Sample.
Import Volume.Sample.

Definition page (i : Z) : wpage := mk_wpage i (i * PAGE_SIZE) PAGE_SIZE (replicate (Z.to_nat PAGE_SIZE) (i + 1)).
Definition ok (i : nat) : bool := true.
Definition all_sent (i : nat) : Z := 0.

(** Addresses by position only. *)
Definition one_needle (o : Z) : Z + Z * Z := inr (1, 100).

(** The first of two blobs cannot be submitted: the failure takes the count
    of the group, the second blob takes none, and the work function frees the
    batch while the second request is in flight. *)
Definition first_fails (i : nat) : Z := if (i =? 0)%nat then - ENOMEM else 0.

Example freed_in_flight :
  match wb_exec [page 0; page 2] (replicate 5 Work)
    (wb_start (powerfs_writepage_work_fn ok first_fails (fun _ => 12288) [page 0; page 2] false one_needle one_needle)) with
  | Some s => works s = [] /\ length (flying s) = 1%nat /\ cleanups s = 1%nat
  | None => False
  end.
Proof. vm_compute. split_and!; reflexivity. Qed.

(** Its answer is then handled with the freed batch. *)
Example callback_uses_freed :
  uses_freed [page 0; page 2] (replicate 5 Work ++ [Answer 0 0 0; Callback 0])
    (wb_start (powerfs_writepage_work_fn ok first_fails (fun _ => 12288) [page 0; page 2] false one_needle one_needle)) = true.
Proof. vm_compute. reflexivity. Qed.

(** The address of the page in the middle is not known: the first pass ends
    it with an error, and as a page of the group it is written and ended
    again. *)
Definition hole_in_middle (o : Z) : Z + Z * Z := if o =? PAGE_SIZE then inl (- EIO) else inr (1, 100).

Example ended_twice :
  match wb_exec [page 0; page 1; page 2] (replicate 4 Work ++ [Answer 0 0 0; Callback 0; Callback 0; Callback 0; Callback 0])
    (wb_start (powerfs_writepage_work_fn ok all_sent (fun _ => 12288) [page 0; page 1; page 2] false hole_in_middle hole_in_middle)) with
  | Some s => ended s = [1; 0; 1; 2]%nat /\ cleanups s = 1%nat
  | None => False
  end.
Proof. vm_compute. split_and!; reflexivity. Qed.

(** The file shrinks between the reads of its size: the number of bytes wraps
    around. *)
Example shrunk_count : page_count (mk_dpage 2 true false [] 12288 10000 100) = 2 ^ 64 - 8092.
Proof. reflexivity. Qed.

(** A page whose writeback is under way is collected again. *)
Example collected_under_writeback :
  match powerfs_writepages (fun _ => true) (fun _ => false) 4 false flat false 0 10 [mk_dpage 0 true true [1; 2; 3] 3 3 3] with
  | WpQueued s [] => queued s = [[mk_wpage 0 0 3 [1; 2; 3]]] /\ rewritten s = [0]
  | _ => False
  end.
Proof. vm_compute. split; reflexivity. Qed.

(** A file of three bytes. *)
Definition tiny : list wpage := [mk_wpage 0 0 3 [1; 2; 3]].
Definition tiny_run : list wb_event := [Work; Work; Answer 0 0 0; Callback 0; Work; Callback 0].

Definition tiny_acts : list act := powerfs_writepage_work_fn ok all_sent (fun _ => 3) tiny false (locate_of flat) (locate_of flat).

Definition tiny_request : wb_ctx := mk_ctx 0 1 1 100 (Some 0) [1; 2; 3].
Definition tiny_end : wb_state := mk_wb [] [] [[]] 0 1 [0%nat] [] [tiny_request].

Lemma tiny_exec : wb_exec tiny tiny_run (wb_start tiny_acts) = Some tiny_end.
Proof. vm_compute. reflexivity. Qed.

Lemma tiny_ok : Forall page_ok tiny.
Proof. constructor; [|constructor]. split_and!; vm_compute; (discriminate || reflexivity). Qed.

Lemma tiny_groups : groups (locate_of flat) 0 None tiny = [(0%nat, 1%nat, 1, 100)].
Proof. vm_compute. reflexivity. Qed.

Lemma batch_freed_once_witness : cleanups tiny_end = 1%nat /\ wb_finished tiny_end.
Proof.
  destruct (batch_freed_once ok all_sent (fun _ => 3) tiny false (locate_of flat) tiny_run tiny_end) as (_ & H & _).
  - rewrite tiny_groups. constructor; [vm_compute; reflexivity|constructor].
  - exact tiny_exec.
  - split; [reflexivity|]. apply H. reflexivity.
Defined.

Lemma pages_end_once_witness : uses_freed tiny tiny_run (wb_start tiny_acts) = false /\ ended tiny_end ≡ₚ seq 0 (length tiny).
Proof.
  destruct (pages_end_once ok all_sent (fun _ => 3) tiny false (locate_of flat) tiny_run tiny_end) as [H1 H2].
  - apply flat_located; [apply flat_is_flat|apply tiny_ok].
  - exact tiny_exec.
  - destruct H1 as [H1 _]; [rewrite tiny_groups; constructor; [vm_compute; reflexivity|constructor]|].
    destruct (H2 H1) as (_ & _ & H3). split; [exact H1|]. apply H3. split_and!; [reflexivity|reflexivity|repeat constructor].
Defined.

(** Servers as a map. *)
#[local] Instance map_servers : VolumeServers (gmap (Z * Z) buffer) := {| needle m v n := m !! (v, n) |}.

Definition before : gmap (Z * Z) buffer := {[(1, 100) := [9; 9; 9; 9]]}.
Definition after : gmap (Z * Z) buffer := {[(1, 100) := [1; 2; 3; 9]]}.

Lemma tiny_handled : handled before [tiny_request] after.
Proof.
  econstructor; [|constructor]. split; [reflexivity|]. intros v' n' Hne. cbn. unfold before, after.
  by rewrite !lookup_singleton_ne by done.
Qed.

Lemma writeback_persists_witness : file_byte after flat 1 = 2 /\ file_byte after flat 3 = file_byte before flat 3.
Proof.
  destruct (writeback_persists before after flat tiny ok all_sent (fun _ => 3) false tiny_run tiny_end [tiny_request]
    (proj1 flat_is_flat) (flat_no_alias flat flat_is_flat) tiny_ok) as [H1 H2].
  - apply NoDup_singleton.
  - intros i. reflexivity || discriminate.
  - apply flat_located; [apply flat_is_flat|apply tiny_ok].
  - exact tiny_exec.
  - split_and!; [reflexivity|reflexivity|repeat constructor].
  - reflexivity.
  - reflexivity.
  - exact tiny_handled.
  - split.
    + exact (H1 (mk_wpage 0 0 3 [1; 2; 3]) 1 ltac:(left) ltac:(cbn; lia)).
    + apply H2; [lia|]. intros p Hp. apply list_elem_of_singleton in Hp as ->. unfold covers. cbn. lia.
Defined.

Lemma writepages_partition_witness :
  Z.of_nat (length (concat [[mk_wpage 0 0 3 [1; 2; 3]]])) <= Z.max 10 1.
Proof.
  destruct (writepages_partition (fun _ => true) (fun _ => false) 4 ltac:(lia) false flat false 0 10 [mk_dpage 0 true false [1; 2; 3] 3 3 3]
    (mk_walk [] [[mk_wpage 0 0 3 [1; 2; 3]]] 9 [] [] [] []) []) as (_ & _ & _ & H); [vm_compute; reflexivity|exact H].
Defined.

End Sample.
