(* ===== verification/Predict.v ===== *)
(** * Predict: writes that are skipped

    Models [src/powerfs_mod/powerfs_write_predict.c] (compiled with
    [WRITE_PREDICT=y]), its hooks in [powerfs_addr.c] and
    [powerfs_locate_chunk_for_read] of [powerfs_inode.c].  For every chunk of
    a file a table keeps the hash of what was last written to the chunk's own
    needle; a write of the whole chunk with the same hash is not sent.

    A write plants an entry that is not valid and has a new generation; the
    answer of the server makes it valid.  The file is modelled with the
    requests on their way, in every order of submissions, servers and answers;
    [xxh64] and SHA-256 are the kernel's and are parameters.

    Shown: a skipped write would have stored what the needle holds, as far as
    the hash can tell, if writes of a chunk follow each other and nothing else
    writes the needle; a chunk of a Flat file is read where it is written.
    Examples show lost data
    when a part of a chunk is written in between, and reads from another
    needle when the file has a chunk list. *)

From S2P Require Import Prelude Layout Volume.

(** ** The table *)

(** The fields of [struct powerfs_chunk_map] that the table uses. *)
Record wp_entry := mk_entry {
  e_chunk_idx : Z; e_needle_id : Z; e_volume_id : Z; e_size : Z; fp_xxh : Z; fp_valid : bool; wp_gen : Z
}.

Definition zero_entry : wp_entry := mk_entry 0 0 0 0 0 false 0.

Inductive entry_slot := EnsOk (tbl : list wp_entry) | EnsNull | EnsFault.

(** [kzalloc] of the new array and [memcpy] of the old one; the index is a
    [u32]. *)
Definition wp_entry_ensure_locked (tbl : list wp_entry) (chunk_idx : Z) (alloc : bool) : entry_slot :=
  if chunk_idx <? Z.of_nat (length tbl) then EnsOk tbl else
  let new_count := u32 (chunk_idx + 1) in
  if new_count >? 4096 then EnsNull else
  if negb alloc then EnsNull else
  if new_count <=? chunk_idx then EnsFault
  else EnsOk (tbl ++ replicate (Z.to_nat new_count - length tbl) zero_entry).

Definition wp_entry_at (tbl : list wp_entry) (chunk_idx : Z) : option wp_entry :=
  if chunk_idx <? 0 then None else tbl !! Z.to_nat chunk_idx.

(** The policy cache of an inode. *)
Record policy := mk_policy { wp_enabled : bool; wp_cached : bool; wp_querying : bool }.

Definition powerfs_write_predict_is_enabled (p : policy) : bool := wp_cached p && wp_enabled p.

Definition powerfs_write_predict_invalidate (p : policy) : policy := mk_policy (wp_enabled p) false false.

(** ** Planting and committing entries *)

(** What [check_hit] answers: skip the write, or write and commit with the
    hash and the generation (0, 0 if no entry was planted). *)
Inductive hit_result := Hit | Miss (xxh gen : Z) | HitFault.

Section hash.
Context (xxh64 : buffer -> Z).

Definition own_nid (pi : layout_inode) (chunk_idx : Z) : Z := u64 (file_key pi + chunk_idx).

(** The entry proves that the own needle holds data with this hash. *)
Definition entry_hits (pi : layout_inode) (chunk_idx actual : Z) (e : wp_entry) : bool :=
  fp_valid e && negb (e_needle_id e =? 0) && (fp_xxh e =? actual) &&
  (e_needle_id e =? own_nid pi chunk_idx) && (e_volume_id e =? volume_id pi).

Definition planted (pi : layout_inode) (chunk_idx actual : Z) (e : wp_entry) : wp_entry :=
  mk_entry chunk_idx (own_nid pi chunk_idx) (volume_id pi) POWERFS_CHUNK_SIZE actual false (u64 (wp_gen e + 1)).

Definition powerfs_write_predict_check_hit (pol : policy) (pi : layout_inode) (tbl : list wp_entry)
    (chunk_idx : Z) (data : buffer) (alloc : bool) : hit_result * list wp_entry :=
  if negb (powerfs_write_predict_is_enabled pol) || (blen data =? 0) then (Miss 0 0, tbl) else
  if (own_nid pi chunk_idx =? 0) || (volume_id pi =? 0) then (Miss 0 0, tbl) else
  let actual := xxh64 data in
  if match wp_entry_at tbl chunk_idx with Some e => entry_hits pi chunk_idx actual e | None => false end then (Hit, tbl) else
  match wp_entry_ensure_locked tbl chunk_idx alloc with
  | EnsNull => (Miss 0 0, tbl)
  | EnsFault => (HitFault, tbl)
  | EnsOk tbl =>
      match wp_entry_at tbl chunk_idx with
      | Some e => let e := planted pi chunk_idx actual e in (Miss actual (wp_gen e), <[Z.to_nat chunk_idx := e]> tbl)
      | None => (HitFault, tbl)
      end
  end.

Definition commits (needle_id volume_id xxh gen : Z) (e : wp_entry) : bool :=
  (wp_gen e =? gen) && negb (fp_valid e) && (e_needle_id e =? needle_id) && (e_volume_id e =? volume_id) && (fp_xxh e =? xxh).

Definition set_valid (e : wp_entry) : wp_entry :=
  mk_entry (e_chunk_idx e) (e_needle_id e) (e_volume_id e) (e_size e) (fp_xxh e) true (wp_gen e).

Definition powerfs_write_predict_commit (tbl : list wp_entry) (chunk_idx needle_id volume_id xxh gen : Z) : list wp_entry :=
  if needle_id =? 0 then tbl else
  match wp_entry_at tbl chunk_idx with
  | Some e => if commits needle_id volume_id xxh gen e then <[Z.to_nat chunk_idx := set_valid e]> tbl else tbl
  | None => tbl
  end.

(** ** Where reads look *)

Definition powerfs_locate_chunk_for_read (pi : layout_inode) (tbl : list wp_entry) (offset : Z) : located :=
  if placement pi =? POWERFS_PLACEMENT_INLINE then LocErr (- EINVAL) else
  let chunk_idx := u64 (offset ÷ POWERFS_CHUNK_SIZE) in
  match wp_entry_at tbl chunk_idx with
  | None => powerfs_locate_chunk pi offset
  | Some e =>
      if fp_valid e && negb (e_needle_id e =? 0) then At (e_volume_id e) (e_needle_id e) else
      if negb (is_stripe (placement pi)) && negb (volume_id pi =? 0) && negb (file_key pi =? 0)
      then At (volume_id pi) (u64 (file_key pi + chunk_idx))
      else powerfs_locate_chunk pi offset
  end.

End hash.

(** ** The policy attribute *)

Definition POLICY_XATTR_MAX_LEN : Z := 64.

(** A string of the C source: the bytes up to the first zero. *)
Fixpoint cstring (b : buffer) : buffer := match b with [] => [] | c :: b => if c =? 0 then [] else c :: cstring b end.

Fixpoint trim (s : buffer) : buffer := match s with c :: s' => if (c =? 32) || (c =? 9) then trim s' else s | [] => [] end.

Definition to_lower (c : Z) : Z := if (65 <=? c) && (c <=? 90) then c + 32 else c.

(** [strncasecmp(s, prefix, strlen(prefix)) == 0] *)
Definition has_prefix (prefix s : buffer) : bool := bool_decide (to_lower <$> take (length prefix) s = to_lower <$> prefix).

(** A run of digits: the [int] it makes, whether there was one, and the rest. *)
Fixpoint digits (acc : Z) (seen : bool) (s : buffer) : Z * bool * buffer :=
  match s with
  | c :: s' => if (48 <=? c) && (c <=? 57) then digits (s32 (acc * 10 + (c - 48))) true s' else (acc, seen, s)
  | [] => (acc, seen, [])
  end.

Definition parse_number (s : buffer) : bool :=
  let '(negative, s) :=
    match s with
    | c :: s' => if c =? 45 then (true, s') else if c =? 43 then (false, s') else (false, s)
    | [] => (false, s)
    end in
  let '(int_part, seen, s) := digits 0 false s in
  let '(frac_part, seen, _) :=
    match s with
    | c :: s' => if c =? 46 then digits 0 seen s' else (0, seen, s)
    | [] => (0, seen, s)
    end in
  if negb seen || negative then false else (int_part >? 0) || (frac_part >? 0).

Definition str_off : buffer := [111; 102; 102].
Definition str_nn : buffer := [78; 78; 58].
Definition str_rule : buffer := [82; 85; 76; 69; 58].

Definition parse_policy_threshold (value : buffer) : bool :=
  if blen value =? 0 then false else
  let s := trim (cstring (take (Z.to_nat POLICY_XATTR_MAX_LEN) value)) in
  if has_prefix str_off s then false else
  parse_number (if has_prefix str_nn s then drop 3 s else if has_prefix str_rule s then drop 5 s else s).

(** [getxattr ino]: result and value.  [parents] are the ancestors of the
    file, nearest first, and whether they are of the same file system and
    not the file itself; [waited]: the answer of another thread that is
    asking, if it is there within a thousand rounds. *)
Section asking.
Context (getxattr : Z -> Z * buffer).

Fixpoint inherited (depth : nat) (parents : list (Z * bool)) : bool :=
  match depth, parents with
  | S depth, (ino, usable) :: parents =>
      if usable then
        let '(ret, value) := getxattr ino in
        if (ret >=? 0) && (blen value >? 0) then parse_policy_threshold value else inherited depth parents
      else inherited depth parents
  | _, _ => false
  end.

Definition powerfs_write_predict_should_dedup (ino : Z) (parents : list (Z * bool)) (p : policy) (waited : option bool)
  : bool * policy :=
  if wp_cached p then (wp_enabled p, p) else
  match (if wp_querying p then waited else None) with
  | Some enabled => (enabled, mk_policy enabled true false)
  | None =>
      let '(ret, value) := getxattr ino in
      let enabled := if ret <? 0 then inherited 10 parents else parse_policy_threshold value in
      (enabled, mk_policy enabled true false)
  end.

End asking.

(** ** Runs *)

(** A write on its way: its chunk and address, the data, the hash and the
    generation to commit, and whether the server has stored it. *)
Record wp_req := mk_req {
  r_chunk : Z; r_vid : Z; r_nid : Z; r_data : buffer; r_xxh : Z; r_gen : Z; r_served : bool
}.

(** [wp_skips] are the writes that were skipped: the chunk, the data, and what
    the needle of the chunk held. *)
Record wp_state := mk_wp {
  wp_pol : policy; wp_tbl : list wp_entry; wp_needles : gmap (Z * Z) buffer;
  wp_flying : list wp_req; wp_late : list wp_req; wp_skips : list (Z * buffer * buffer)
}.

(** [WpWrite] submits a write of a chunk from its front; [WpAnswer] is the
    answer or the timeout; a request that times out may still be handled
    ([WpLate]); [WpOther] is any write that does not look at the table: a
    blob, a direct write behind the first chunk, another client. *)
Inductive wp_event :=
| WpWrite (chunk : Z) (data : buffer) (alloc : bool)
| WpServe (i : nat)
| WpAnswer (i : nat) (ok : bool)
| WpLate (i : nat)
| WpOther (chunk offset : Z) (data : buffer)
| WpPolicy (p : policy).

Section runs.
Context (xxh64 : buffer -> Z) (pi : layout_inode) (loc : Z -> Z * Z).

Definition needle_of (s : wp_state) (a : Z * Z) : buffer := default [] (wp_needles s !! a).

Definition store_at (m : gmap (Z * Z) buffer) (a : Z * Z) (off : Z) (data : buffer) : gmap (Z * Z) buffer :=
  <[a := patch (default [] (m !! a)) off data]> m.

(** The hook in [powerfs_wb_submit_write_direct] (a whole chunk) and in direct
    writes at position 0 (of any length); the lookup of the policy before it
    is a [WpPolicy] event. *)
Definition wp_submit (s : wp_state) (c : Z) (data : buffer) (alloc : bool) : option wp_state :=
  let '(r, tbl) := powerfs_write_predict_check_hit xxh64 (wp_pol s) pi (wp_tbl s) c data alloc in
  match r with
  | Hit => Some (mk_wp (wp_pol s) tbl (wp_needles s) (wp_flying s) (wp_late s) (wp_skips s ++ [(c, data, needle_of s (loc c))]))
  | Miss xxh gen =>
      Some (mk_wp (wp_pol s) tbl (wp_needles s)
              (wp_flying s ++ [mk_req c (fst (loc c)) (snd (loc c)) data xxh gen false]) (wp_late s) (wp_skips s))
  | HitFault => None
  end.

Definition served_req (r : wp_req) : wp_req := mk_req (r_chunk r) (r_vid r) (r_nid r) (r_data r) (r_xxh r) (r_gen r) true.

(** The hook in [powerfs_wb_write_cb], and after a direct write. *)
Definition wp_answer (s : wp_state) (i : nat) (r : wp_req) (ok : bool) : wp_state :=
  let tbl := if ok && powerfs_write_predict_is_enabled (wp_pol s) && negb (r_gen r =? 0)
             then powerfs_write_predict_commit (wp_tbl s) (r_chunk r) (r_nid r) (r_vid r) (r_xxh r) (r_gen r)
             else wp_tbl s in
  mk_wp (wp_pol s) tbl (wp_needles s) (delete i (wp_flying s))
    (if r_served r then wp_late s else wp_late s ++ [r]) (wp_skips s).

Definition wp_step (s : wp_state) (e : wp_event) : option wp_state :=
  match e with
  | WpWrite c data alloc => wp_submit s c data alloc
  | WpServe i =>
      match wp_flying s !! i with
      | Some r => Some (mk_wp (wp_pol s) (wp_tbl s) (store_at (wp_needles s) (r_vid r, r_nid r) 0 (r_data r))
                          (<[i := served_req r]> (wp_flying s)) (wp_late s) (wp_skips s))
      | None => None
      end
  | WpAnswer i ok =>
      match wp_flying s !! i with
      | Some r => if ok && negb (r_served r) then None else Some (wp_answer s i r ok)
      | None => None
      end
  | WpLate i =>
      match wp_late s !! i with
      | Some r => Some (mk_wp (wp_pol s) (wp_tbl s) (store_at (wp_needles s) (r_vid r, r_nid r) 0 (r_data r))
                          (wp_flying s) (delete i (wp_late s)) (wp_skips s))
      | None => None
      end
  | WpOther c off data =>
      Some (mk_wp (wp_pol s) (wp_tbl s) (store_at (wp_needles s) (loc c) off data) (wp_flying s) (wp_late s) (wp_skips s))
  | WpPolicy p => Some (mk_wp p (wp_tbl s) (wp_needles s) (wp_flying s) (wp_late s) (wp_skips s))
  end.

Fixpoint wp_exec (es : list wp_event) (s : wp_state) : option wp_state :=
  match es with
  | [] => Some s
  | e :: es => match wp_step s e with Some s => wp_exec es s | None => None end
  end.

(** Writes of a chunk follow each other, look at the table, and are the only
    ones. *)
Definition calm (s : wp_state) (e : wp_event) : bool :=
  match e with
  | WpWrite c data _ =>
      (0 <=? c) && (c <? 2 ^ 32 - 1) && negb (blen data =? 0) && powerfs_write_predict_is_enabled (wp_pol s) &&
      forallb (fun r => negb (r_chunk r =? c)) (wp_flying s)
  | WpServe _ | WpAnswer _ _ | WpPolicy _ => true
  | WpLate _ | WpOther _ _ _ => false
  end.

Fixpoint calm_run (es : list wp_event) (s : wp_state) : bool :=
  match es with
  | [] => true
  | e :: es => calm s e && match wp_step s e with Some s => calm_run es s | None => true end
  end.

Definition wp_start (m : gmap (Z * Z) buffer) : wp_state := mk_wp (mk_policy false false false) [] m [] [] [].

(** ** Skipping is sound *)

Definition holds (content data : buffer) : Prop := take (length data) content = data.

Lemma patch_front old data : patch old 0 data = data ++ drop (length data) old.
Proof.
  unfold patch. pose proof (blen_nonneg old). replace (Z.to_nat (0 - blen old)) with 0%nat by lia. cbn [Z.to_nat take replicate app].
  replace (Z.to_nat (0 + blen data)) with (length data) by (unfold blen; lia). done.
Qed.

Lemma holds_patch old data : holds (patch old 0 data) data.
Proof. unfold holds. rewrite patch_front. apply take_app_length. Qed.

(** What is known of an entry that is valid. *)
Definition trackable (c : Z) : Prop := own_nid pi c <> 0 /\ volume_id pi <> 0.

Definition entry_sound (s : wp_state) (c : Z) (e : wp_entry) : Prop :=
  trackable c -> fp_valid e = true ->
  (e_volume_id e, e_needle_id e) = loc c /\ Forall (fun r => r_chunk r <> c) (wp_flying s) /\
  exists d, xxh64 d = fp_xxh e /\ holds (needle_of s (loc c)) d.

Definition wp_inv (s : wp_state) : Prop :=
  NoDup (r_chunk <$> wp_flying s) /\
  Forall (fun r => (r_vid r, r_nid r) = loc (r_chunk r) /\ (r_gen r <> 0 -> r_xxh r = xxh64 (r_data r)) /\
    (r_served r = true -> holds (needle_of s (loc (r_chunk r))) (r_data r))) (wp_flying s) /\
  (forall c e, wp_entry_at (wp_tbl s) c = Some e -> entry_sound s c e) /\
  Forall (fun '(c, data, content) => exists d, xxh64 d = xxh64 data /\ holds content d) (wp_skips s).

Hypothesis Hloc : forall c c', loc c = loc c' -> c = c'.

Lemma entry_at_nonneg tbl c e : wp_entry_at tbl c = Some e -> 0 <= c.
Proof. unfold wp_entry_at. destruct (Z.ltb_spec c 0); [done|lia]. Qed.

Lemma entry_at_insert_eq tbl c e0 e : wp_entry_at tbl c = Some e0 -> wp_entry_at (<[Z.to_nat c := e]> tbl) c = Some e.
Proof. unfold wp_entry_at. case_if; [done|]. intros H. apply list_lookup_insert_eq. by eapply lookup_lt_Some. Qed.

Lemma entry_at_insert_ne tbl c c' e : 0 <= c -> 0 <= c' -> c <> c' -> wp_entry_at (<[Z.to_nat c := e]> tbl) c' = wp_entry_at tbl c'.
Proof. intros. unfold wp_entry_at. case_if; [done|]. by rewrite list_lookup_insert_ne by lia. Qed.

(** Growing the table adds entries that are not valid. *)
Lemma ensure_spec tbl c alloc tbl' :
  0 <= c -> wp_entry_ensure_locked tbl c alloc = EnsOk tbl' ->
  (exists e, wp_entry_at tbl' c = Some e) /\
  forall c' e, wp_entry_at tbl' c' = Some e -> wp_entry_at tbl c' = Some e \/ e = zero_entry.
Proof.
  intros Hc. unfold wp_entry_ensure_locked. destruct (Z.ltb_spec c (Z.of_nat (length tbl))).
  - intros [= <-]. split; [|by auto]. unfold wp_entry_at. ltb_false. destruct (lookup_lt_is_Some_2 tbl (Z.to_nat c)) as [e He]; [lia|by exists e].
  - set (n := u32 (c + 1)). case_if; [done|]. case_if; [done|]. destruct (Z.leb_spec n c); [done|]. intros [= <-].
    assert (Hlen : length (tbl ++ replicate (Z.to_nat n - length tbl) zero_entry) = Z.to_nat n) by (rewrite length_app, length_replicate; lia).
    split.
    + unfold wp_entry_at. ltb_false. destruct (lookup_lt_is_Some_2 (tbl ++ replicate (Z.to_nat n - length tbl) zero_entry) (Z.to_nat c)) as [e He];
        [lia|by exists e].
    + intros c' e. unfold wp_entry_at. case_if; [done|]. rewrite lookup_app. destruct (tbl !! Z.to_nat c') as [x|]; [by left|].
      intros He. right. apply lookup_replicate in He as [-> _]. done.
Qed.

Lemma hit_entry pol tbl c data alloc tbl' :
  powerfs_write_predict_check_hit xxh64 pol pi tbl c data alloc = (Hit, tbl') ->
  tbl' = tbl /\ trackable c /\ exists e, wp_entry_at tbl c = Some e /\ fp_valid e = true /\ fp_xxh e = xxh64 data.
Proof.
  unfold powerfs_write_predict_check_hit. case_if; [done|]. case_if; [done|].
  destruct (wp_entry_at tbl c) as [e|] eqn:He.
  - destruct (entry_hits pi c (xxh64 data) e) eqn:Hh; [|by repeat case_match].
    intros [= <-]. split; [done|]. split; [split; lia|]. exists e. split; [done|]. unfold entry_hits in Hh. bool_to_prop. split; [done|lia].
  - by repeat case_match.
Qed.

(** After a miss there is no valid entry for the chunk, and the other entries
    are the old ones. *)
Lemma miss_entries pol tbl c data alloc x g tbl' :
  0 <= c -> powerfs_write_predict_is_enabled pol = true -> blen data <> 0 ->
  powerfs_write_predict_check_hit xxh64 pol pi tbl c data alloc = (Miss x g, tbl') ->
  (g <> 0 -> x = xxh64 data) /\
  forall c' e, trackable c' -> wp_entry_at tbl' c' = Some e -> fp_valid e = true -> c' <> c /\ wp_entry_at tbl c' = Some e.
Proof.
  intros Hc Hen Hd. unfold powerfs_write_predict_check_hit. rewrite Hen, (proj2 (Z.eqb_neq _ _)) by done. cbn [negb orb].
  destruct ((own_nid pi c =? 0) || (volume_id pi =? 0)) eqn:Ht.
  { intros [= <- <- <-]. split; [done|]. intros c' e [H1 H2] He _. split; [|done]. intros ->.
    rewrite (proj2 (Z.eqb_neq _ _) H1), (proj2 (Z.eqb_neq _ _) H2) in Ht. done. }
  case_match; [done|]. destruct (wp_entry_ensure_locked tbl c alloc) as [t| |] eqn:Hen'; [|intros [= <- <- <-]|done].
  - destruct (ensure_spec _ _ _ _ Hc Hen') as [[e0 He0] Hold]. rewrite He0. intros [= <- <- <-]. split; [done|].
    intros c' e _ He Hv. destruct (decide (c' = c)) as [->|Hne].
    + exfalso. rewrite (entry_at_insert_eq t c e0) in He by done. by injection He as <-.
    + split; [done|]. pose proof (entry_at_nonneg _ _ _ He).
      rewrite entry_at_insert_ne in He by done. destruct (Hold c' e He) as [| ->]; done.
  - split; [done|]. intros c' e _ He Hv. split; [|done]. intros ->. unfold wp_entry_ensure_locked in Hen'.
    destruct (Z.ltb_spec c (Z.of_nat (length tbl))); [done|]. unfold wp_entry_at in He. case_if_in He; [done|].
    apply lookup_lt_Some in He. lia.
Qed.

Lemma commit_entries tbl c nid vid x g c' e :
  wp_entry_at (powerfs_write_predict_commit tbl c nid vid x g) c' = Some e -> fp_valid e = true ->
  wp_entry_at tbl c' = Some e \/ c' = c /\ e_needle_id e = nid /\ e_volume_id e = vid /\ fp_xxh e = x.
Proof.
  unfold powerfs_write_predict_commit. case_if; [by left|]. destruct (wp_entry_at tbl c) as [e0|] eqn:He0; [|by left].
  case_if; [|by left]. intros He Hv.
  pose proof (entry_at_nonneg _ _ _ He0). pose proof (entry_at_nonneg _ _ _ He).
  destruct (decide (c' = c)) as [->|Hne].
  - right. rewrite (entry_at_insert_eq tbl c e0) in He by done. injection He as <-.
    unfold commits in E0. bool_to_prop. cbn. split_and!; (done || lia).
  - left. by rewrite entry_at_insert_ne in He by done.
Qed.

Lemma needle_store_ne m a a' off d pol tbl f l k : a <> a' -> needle_of (mk_wp pol tbl (store_at m a off d) f l k) a' = default [] (m !! a').
Proof. intros. unfold needle_of, store_at. cbn. by rewrite lookup_insert_ne. Qed.

Lemma needle_store_eq m a off d pol tbl f l k : needle_of (mk_wp pol tbl (store_at m a off d) f l k) a = patch (default [] (m !! a)) off d.
Proof. unfold needle_of, store_at. cbn. by rewrite lookup_insert_eq. Qed.

Lemma wp_step_inv s e s' : wp_inv s -> calm s e = true -> wp_step s e = Some s' -> wp_inv s'.
Proof.
  intros (Hnd & Hfl & Htb & Hsk) Hcalm. destruct e as [c data alloc|i|i ok|i|c off data|p]; cbn [wp_step calm] in *; try done.
  - bool_to_prop. rename select (forallb _ _ = true) into Hfree. unfold wp_submit.
    assert (Hnew : Forall (fun r => r_chunk r <> c) (wp_flying s)).
    { apply Forall_forall. intros r Hr. apply forallb_forall with (x := r) in Hfree; [|by apply list_elem_of_In]. apply negb_true_iff in Hfree. lia. }
    destruct (powerfs_write_predict_check_hit _ _ _ _ _ _ _) as [r tbl] eqn:Hch. destruct r as [|x g|]; [| |done]; intros [= <-].
    + apply hit_entry in Hch as (-> & Ht & e & He & Hv & Hx). split_and!; try done. cbn [wp_skips]. apply Forall_app. split; [done|].
      constructor; [|constructor]. destruct (Htb c e He Ht Hv) as (_ & _ & d & Hd & Hh). exists d. by rewrite Hd.
    + apply miss_entries in Hch as [Hx Hold]; [|done|done|done]. split_and!; cbn [wp_flying wp_skips wp_tbl].
      * rewrite fmap_app. apply NoDup_app. split; [done|]. split; [|apply NoDup_singleton].
        intros c' Hc' Hin. apply list_elem_of_singleton in Hin. cbn in Hin. apply list_elem_of_fmap in Hc' as (r & Er & Hr).
        rewrite Forall_forall in Hnew. apply (Hnew r Hr). congruence.
      * apply Forall_app. split; [done|]. constructor; [|constructor]. cbn. split; [by destruct (loc c)|]. split; [done|done].
      * intros c' e He Ht Hv. destruct (Hold c' e Ht He Hv) as [Hne He']. destruct (Htb c' e He' Ht Hv) as (Hl & Hf & Hd).
        split; [done|]. split; [|done]. apply Forall_app. split; [done|]. constructor; [cbn; congruence|constructor].
      * done.
  - destruct (wp_flying s !! i) as [r|] eqn:Hi; [|done]. intros [= <-].
    destruct (Forall_lookup_1 _ _ _ _ Hfl Hi) as (Hl & Hx & _).
    assert (Hch : r_chunk <$> <[i := served_req r]> (wp_flying s) = r_chunk <$> wp_flying s).
    { rewrite list_fmap_insert. apply list_insert_id. rewrite list_lookup_fmap, Hi. done. }
    split_and!; cbn [wp_flying wp_tbl wp_skips].
    + by rewrite Hch.
    + apply Forall_lookup. intros j q Hj. destruct (decide (i = j)) as [<-|Hij].
      * rewrite list_lookup_insert_eq in Hj by (by eapply lookup_lt_Some). injection Hj as <-. cbn [r_chunk r_vid r_nid r_gen r_xxh r_data r_served served_req].
        split; [done|]. split; [done|]. intros _. rewrite <- Hl, needle_store_eq. apply holds_patch.
      * rewrite list_lookup_insert_ne in Hj by done. destruct (Forall_lookup_1 _ _ _ _ Hfl Hj) as (Hl' & Hx' & Hs').
        split; [done|]. split; [done|]. intros Hsv. rewrite needle_store_ne; [by apply Hs'|]. rewrite Hl. intros E. apply Hloc in E.
        apply Hij. eapply (NoDup_lookup _ i j (r_chunk r) Hnd); rewrite list_lookup_fmap; [by rewrite Hi|by rewrite Hj, E].
    + intros c e He Ht Hv. destruct (Htb c e He Ht Hv) as (Hl' & Hf & d & Hd & Hh). split; [done|].
      assert (Hne : r_chunk r <> c) by (by apply (Forall_lookup_1 _ _ _ _ Hf Hi)). split.
      * by apply Forall_insert.
      * exists d. split; [done|]. rewrite needle_store_ne; [done|]. rewrite Hl. intros E. by apply Hne, Hloc.
    + done.
  - destruct (wp_flying s !! i) as [r|] eqn:Hi; [|done]. case_if; [done|]. intros [= <-]. unfold wp_answer.
    destruct (Forall_lookup_1 _ _ _ _ Hfl Hi) as (Hl & Hx & Hsv).
    assert (Hsub : delete i (wp_flying s) ⊆+ wp_flying s) by (apply sublist_submseteq, sublist_delete).
    assert (Hdel : r_chunk <$> wp_flying s ≡ₚ r_chunk r :: (r_chunk <$> delete i (wp_flying s))).
    { by rewrite (delete_Permutation _ _ _ Hi) at 1. }
    split_and!; cbn [wp_flying wp_tbl wp_skips].
    + rewrite Hdel in Hnd. by apply NoDup_cons in Hnd as [_ ?].
    + by apply (Forall_delete _ _ i) in Hfl.
    + intros c e He Ht Hv.
      assert (Hcase : wp_entry_at (wp_tbl s) c = Some e \/
        (c = r_chunk r /\ e_needle_id e = r_nid r /\ e_volume_id e = r_vid r /\ fp_xxh e = r_xxh r /\ ok = true /\ r_gen r <> 0)).
      { case_if_in He; [|by left]. apply commit_entries in He as [|(? & ? & ? & ?)]; [by left| |done]. right. split_and!; (done || lia). }
      destruct Hcase as [He'|(-> & En & Ev & Ex & Eok & Eg)].
      * destruct (Htb c e He' Ht Hv) as (? & Hf & ?). split; [done|]. split; [by apply Forall_delete|done].
      * split; [by rewrite En, Ev|]. split.
        -- apply Forall_forall. intros q Hq Eq. rewrite Hdel in Hnd. apply NoDup_cons in Hnd as [Hnot _]. apply Hnot. rewrite <- Eq.
           by apply list_elem_of_fmap_2.
        -- exists (r_data r). split; [by rewrite Ex, Hx|]. apply Hsv. destruct (r_served r); [done|]. by rewrite Eok in E.
    + done.
  - intros [= <-]. by split_and!.
Qed.

Lemma wp_exec_inv es s s' : wp_inv s -> calm_run es s = true -> wp_exec es s = Some s' -> wp_inv s'.
Proof.
  revert s. induction es as [|e es IH]; intros s Hi; cbn; [by intros _ [= <-]|].
  destruct (wp_step s e) as [s1|] eqn:Hs; [|done]. intros Hc%andb_true_iff. destruct Hc as [Hc Hr]. apply IH; [|done]. by eapply wp_step_inv.
Qed.

Lemma wp_start_inv m : wp_inv (wp_start m).
Proof. split; [constructor|]. split; [constructor|]. split; [|constructor]. intros c e. unfold wp_entry_at. cbn. case_if; [done|]. by rewrite lookup_nil. Qed.

(** C33. A skipped write would not have changed the needle, as far as the hash
    can tell.  Let distinct chunks be stored in distinct needles.  In every
    run in which a chunk is not written again before the write before it was
    answered, every write of it looks at the table with the policy enabled,
    and nothing else writes its needle, whatever the order of the other
    events, the failures and the changes of the policy: whenever
    [powerfs_write_predict_check_hit] says that a write can be skipped, the
    needle that the write would have gone to starts with data of the same
    hash. *)
Theorem skip_sound m es s :
  calm_run es (wp_start m) = true -> wp_exec es (wp_start m) = Some s ->
  Forall (fun '(c, data, content) => exists d, xxh64 d = xxh64 data /\ holds content d) (wp_skips s).
Proof. intros Hc He. by destruct (wp_exec_inv es _ _ (wp_start_inv m) Hc He) as (_ & _ & _ & H). Qed.

End runs.

(** ** Reads look where writes went *)

Section reading.
Context (xxh64 : buffer -> Z) (pi : layout_inode) (loc : Z -> Z * Z).

(** An entry is empty or names the chunk's own needle. *)
Definition entry_own (c : Z) (e : wp_entry) : Prop :=
  e_needle_id e = 0 \/ e_needle_id e = own_nid pi c /\ e_volume_id e = volume_id pi.

Definition table_own (tbl : list wp_entry) : Prop := forall c e, wp_entry_at tbl c = Some e -> entry_own c e.

Lemma check_hit_own pol tbl c data alloc r tbl' :
  table_own tbl -> powerfs_write_predict_check_hit xxh64 pol pi tbl c data alloc = (r, tbl') -> table_own tbl'.
Proof.
  intros Ho. unfold powerfs_write_predict_check_hit. case_if; [by intros [= _ <-]|]. case_if; [by intros [= _ <-]|].
  destruct (match wp_entry_at tbl c with Some e => _ | None => _ end); [by intros [= _ <-]|].
  destruct (wp_entry_ensure_locked tbl c alloc) as [t| |] eqn:He; [|by intros [= _ <-]|by intros [= _ <-]].
  destruct (wp_entry_at t c) as [e0|] eqn:He0; [|intros [= _ <-]].
  - pose proof (entry_at_nonneg _ _ _ He0) as Hc. destruct (ensure_spec _ _ _ _ Hc He) as [_ Hold]. intros [= _ <-]. intros c' e Hce.
    destruct (decide (c' = c)) as [->|Hne].
    + rewrite (entry_at_insert_eq t c e0) in Hce by done. injection Hce as <-. by right.
    + rewrite entry_at_insert_ne in Hce by (done || by eapply entry_at_nonneg). destruct (Hold c' e Hce) as [H'| ->]; [by apply Ho|by left].
  - intros c' e Hce. unfold wp_entry_ensure_locked in He. case_if_in He; [injection He as <-; by apply Ho|].
    case_if_in He; [done|]. case_if_in He; [done|]. case_if_in He; [done|]. injection He as <-.
    unfold wp_entry_at in Hce. case_if_in Hce; [done|]. rewrite lookup_app in Hce. destruct (tbl !! Z.to_nat c') as [x|] eqn:Hx.
    + apply Ho. unfold wp_entry_at. case_if; [lia|]. congruence.
    + apply lookup_replicate in Hce as [-> _]. by left.
Qed.

Lemma commit_own tbl c nid vid x g : table_own tbl -> table_own (powerfs_write_predict_commit tbl c nid vid x g).
Proof.
  intros Ho c' e. unfold powerfs_write_predict_commit. case_if; [apply Ho|]. destruct (wp_entry_at tbl c) as [e0|] eqn:He0; [|apply Ho].
  case_if; [|apply Ho]. destruct (decide (c' = c)) as [->|Hne].
  - rewrite (entry_at_insert_eq tbl c e0) by done. intros [= <-]. exact (Ho c e0 He0).
  - intros H. pose proof (entry_at_nonneg _ _ _ H). pose proof (entry_at_nonneg _ _ _ He0). rewrite entry_at_insert_ne in H by done. by apply Ho.
Qed.

Lemma wp_step_own s e s' : table_own (wp_tbl s) -> wp_step xxh64 pi loc s e = Some s' -> table_own (wp_tbl s').
Proof.
  intros Ho. destruct e as [c data alloc|i|i ok|i|c off data|p]; cbn [wp_step].
  - unfold wp_submit. destruct (powerfs_write_predict_check_hit _ _ _ _ _ _ _) as [r tbl] eqn:Hch.
    apply check_hit_own in Hch; [|done]. destruct r; [| |done]; by intros [= <-].
  - destruct (wp_flying s !! i); [|done]. by intros [= <-].
  - destruct (wp_flying s !! i) as [r|]; [|done]. case_if; [done|]. intros [= <-]. unfold wp_answer. cbn [wp_tbl].
    case_if; [by apply commit_own|done].
  - destruct (wp_late s !! i); [|done]. by intros [= <-].
  - by intros [= <-].
  - by intros [= <-].
Qed.

Lemma wp_exec_own es s s' : table_own (wp_tbl s) -> wp_exec xxh64 pi loc es s = Some s' -> table_own (wp_tbl s').
Proof.
  revert s. induction es as [|e es IH]; intros s Ho; cbn; [by intros [= <-]|].
  destruct (wp_step xxh64 pi loc s e) as [s1|] eqn:Hs; [|done]. apply IH. by eapply wp_step_own.
Qed.

(** Prediction does not change where a Flat file is read: after any run,
    also with failed writes, late requests and other writers, the address
    that [powerfs_locate_chunk_for_read] finds for an offset is the one that
    [powerfs_locate_chunk] finds for writing it, whether the table has an
    entry for the chunk, valid or not, or none. *)
Theorem predicted_reads_agree m es s o :
  flat_file pi -> wp_exec xxh64 pi loc es (wp_start m) = Some s -> 0 <= o < 2 ^ 63 ->
  powerfs_locate_chunk_for_read pi (wp_tbl s) o = powerfs_locate_chunk pi o.
Proof.
  intros Hf He Ho. assert (Hown : table_own (wp_tbl s)).
  { eapply wp_exec_own; [|exact He]. intros c e. unfold wp_entry_at. cbn. case_if; [done|]. by rewrite lookup_nil. }
  unfold powerfs_locate_chunk_for_read. rewrite (locate_flat_file pi o Hf Ho). destruct Hf as (_ & Hp & _ & Hv & Hk & _). rewrite Hp.
  rewrite Z.quot_div_nonneg by (done || lia). assert (Hr : 0 <= o / POWERFS_CHUNK_SIZE < 2 ^ 64).
  { split; [apply Z.div_pos; [lia|done]|]. apply Z.div_lt_upper_bound; [done|]. unfold POWERFS_CHUNK_SIZE. lia. }
  rewrite u64_small by done. change (POWERFS_PLACEMENT_FLAT =? POWERFS_PLACEMENT_INLINE) with false.
  change (is_stripe POWERFS_PLACEMENT_FLAT) with false. cbn [negb andb].
  destruct (wp_entry_at (wp_tbl s) (o / POWERFS_CHUNK_SIZE)) as [e|] eqn:Hentry; [|done].
  rewrite (proj2 (Z.eqb_neq (volume_id pi) 0)), (proj2 (Z.eqb_neq (file_key pi) 0)) by done. cbn [negb andb].
  destruct (fp_valid e && negb (e_needle_id e =? 0)) eqn:Hval; [|done]. bool_to_prop.
  destruct (Hown _ _ Hentry) as [|[-> ->]]; [done|]. done.
Qed.

End reading.

(** ** The policy *)

Definition is_digit (c : Z) : Prop := 48 <= c <= 57.

Definition number (acc : Z) (ds : buffer) : Z := foldl (fun a c => a * 10 + (c - 48)) acc ds.

Lemma number_bounds acc ds : Forall is_digit ds -> 0 <= acc -> acc <= number acc ds /\ number acc ds < (acc + 1) * 10 ^ Z.of_nat (length ds).
Proof.
  revert acc. induction ds as [|c ds IH]; intros acc Hd Ha; [cbn; lia|]. apply Forall_cons in Hd as [Hc Hd]. unfold is_digit in Hc.
  cbn [number foldl length]. destruct (IH (acc * 10 + (c - 48)) Hd ltac:(lia)) as [H1 H2]. unfold number in *.
  rewrite Nat2Z.inj_succ, Z.pow_succ_r by lia. pose proof (Z.pow_pos_nonneg 10 (Z.of_nat (length ds)) ltac:(lia) ltac:(lia)). nia.
Qed.

(** A run of at most nine digits does not overflow. *)
Lemma digits_spec acc seen ds rest :
  Forall is_digit ds -> 0 <= acc -> (acc + 1) * 10 ^ Z.of_nat (length ds) <= 2 ^ 31 ->
  (forall c r, rest = c :: r -> ~ is_digit c) ->
  digits acc seen (ds ++ rest) = (number acc ds, seen || negb (bool_decide (ds = [])), rest).
Proof.
  revert acc seen. induction ds as [|c ds IH]; intros acc seen Hd Ha Hb Hr.
  - cbn [app number foldl]. rewrite bool_decide_eq_true_2 by done. cbn [negb]. rewrite orb_false_r. destruct rest as [|c r]; [done|].
    cbn [digits]. specialize (Hr c r eq_refl). unfold is_digit in Hr. destruct (Z.leb_spec 48 c), (Z.leb_spec c 57); try done. lia.
  - apply Forall_cons in Hd as [Hc Hd]. pose proof Hc as Hc'. unfold is_digit in Hc'. cbn [app digits].
    rewrite (proj2 (Z.leb_le 48 c)), (proj2 (Z.leb_le c 57)) by lia. cbn [andb].
    cbn [length] in Hb. rewrite Nat2Z.inj_succ, Z.pow_succ_r in Hb by lia.
    pose proof (Z.pow_pos_nonneg 10 (Z.of_nat (length ds)) ltac:(lia) ltac:(lia)).
    assert (Es : s32 (acc * 10 + (c - 48)) = acc * 10 + (c - 48)) by (unfold s32; rewrite Z.mod_small; nia).
    rewrite Es, IH; [|done|lia|nia|done]. cbn [number foldl]. by rewrite orb_true_r.
Qed.

Lemma number_positive ds : Forall is_digit ds -> (number 0 ds >? 0) = negb (forallb (Z.eqb 48) ds).
Proof.
  intros Hd. assert (H : forall acc, 0 <= acc -> (number acc ds >? 0) = (acc >? 0) || negb (forallb (Z.eqb 48) ds)).
  { induction Hd as [|c ds Hc Hd IH]; intros acc Ha; cbn [number foldl forallb]; [by rewrite orb_false_r|]. unfold is_digit in Hc.
    unfold number in IH. rewrite IH by lia. destruct (Z.gtb_spec (acc * 10 + (c - 48)) 0), (Z.gtb_spec acc 0), (Z.eqb_spec 48 c); cbn; lia || done. }
  by rewrite H.
Qed.

(** A threshold of digits, a dot and digits, at most nine each, after one of
    the prefixes, enables prediction exactly if a digit is not zero. *)
Theorem policy_threshold_spec prefix ds fs :
  prefix ∈ [[]; str_nn; str_rule] -> Forall is_digit ds -> Forall is_digit fs -> (0 < length ds <= 9)%nat -> (length fs <= 9)%nat ->
  parse_policy_threshold (prefix ++ ds ++ 46 :: fs) = negb (forallb (Z.eqb 48) (ds ++ fs)).
Proof.
  intros Hp Hd Hf Hld Hlf.
  assert (Hnum : parse_number (ds ++ 46 :: fs) = negb (forallb (Z.eqb 48) (ds ++ fs))).
  { unfold parse_number. destruct ds as [|c ds]; [cbn in Hld; lia|]. cbn [app]. pose proof Hd as Hd'. apply Forall_cons in Hd as [Hc Hd].
    unfold is_digit in Hc. rewrite (proj2 (Z.eqb_neq c 45)), (proj2 (Z.eqb_neq c 43)) by lia.
    change (c :: ds ++ 46 :: fs) with ((c :: ds) ++ 46 :: fs).
    assert (Hpow : forall n, (n <= 9)%nat -> (0 + 1) * 10 ^ Z.of_nat n <= 2 ^ 31).
    { intros n Hn. transitivity (10 ^ 9); [|done]. rewrite Z.mul_1_l. apply Z.pow_le_mono_r; lia. }
    rewrite (digits_spec 0 false (c :: ds) (46 :: fs)); [|done|done|apply Hpow; lia|intros ? ? [= <- _]; unfold is_digit; lia].
    cbn [orb]. rewrite (bool_decide_eq_false_2 (c :: ds = [])) by done. cbn [negb Z.eqb Pos.eqb].
    rewrite <- (app_nil_r fs) at 1. rewrite (digits_spec 0 true fs []); [|done|done|by apply Hpow|done]. cbn [orb negb].
    rewrite !number_positive by done. rewrite <- negb_andb. f_equal. symmetry. exact (forallb_app _ (c :: ds) fs). }
  rewrite <- Hnum. unfold parse_policy_threshold.
  assert (Hdig : forall l, Forall is_digit l -> forall r, cstring (l ++ r) = l ++ cstring r).
  { induction 1 as [|x l Hx _ IH]; intros r; [done|]. cbn [app cstring]. unfold is_digit in Hx. rewrite (proj2 (Z.eqb_neq x 0)) by lia. by rewrite IH. }
  assert (Hfs : cstring fs = fs) by (rewrite <- (app_nil_r fs) at 1; rewrite Hdig by done; apply app_nil_r).
  assert (Hlen : (length (prefix ++ ds ++ 46%Z :: fs) <= 64)%nat).
  { rewrite !length_app. cbn [length]. assert ((length prefix <= 5)%nat) by (repeat (apply elem_of_cons in Hp as [->|Hp]; [cbn; lia|]); by apply not_elem_of_nil in Hp). lia. }
  rewrite take_ge by (change (Z.to_nat POLICY_XATTR_MAX_LEN) with 64%nat; done).
  assert (Hb : (blen (prefix ++ ds ++ 46 :: fs) =? 0) = false) by (apply Z.eqb_neq; unfold blen; rewrite !length_app; cbn [length]; lia).
  rewrite Hb. destruct ds as [|c ds]; [cbn in Hld; lia|]. pose proof Hd as Hd'. apply Forall_cons in Hd as [Hc Hd]. unfold is_digit in Hc.
  assert (Hs : cstring ((c :: ds) ++ 46 :: fs) = (c :: ds) ++ 46 :: fs) by (rewrite Hdig by done; cbn [cstring Z.eqb]; by rewrite Hfs).
  assert (Hlow : forall x, 48 <= x <= 57 -> to_lower x = x) by (intros x Hx; unfold to_lower; destruct (Z.leb_spec 65 x); [lia|done]).
  repeat (apply elem_of_cons in Hp as [->|Hp]); [| | |by apply not_elem_of_nil in Hp].
  - cbn [app] in *. rewrite Hs. cbn [trim]. rewrite (proj2 (Z.eqb_neq c 32)), (proj2 (Z.eqb_neq c 9)) by lia. cbn [orb].
    unfold has_prefix. cbn [length take fmap list_fmap str_off str_nn str_rule]. rewrite Hlow by lia.
    rewrite !bool_decide_eq_false_2; [done|intros Eq; apply (f_equal head) in Eq; cbn in Eq; injection Eq as Eq; lia..].
  - cbn [app str_nn cstring Z.eqb] in *. rewrite Hs. done.
  - cbn [app str_rule cstring Z.eqb] in *. rewrite Hs. done.
Qed.

(** ** Runs outside the conditions *)

Module Sample.
Import Volume.Sample.

Definition hash (b : buffer) : Z := foldr (fun c a => c + 256 * a) 0 b.
Definition slot (c : Z) : Z * Z := (1, 100 + c).
Definition on : policy := mk_policy true true false.
Definition off : policy := mk_policy false true false.

Definition run (es : list wp_event) : option wp_state := wp_exec hash flat slot es (wp_start ∅).

(** A whole write and its answer. *)
Definition write (data : buffer) : list wp_event := [WpWrite 0 data true; WpServe 0; WpAnswer 0 true].

(** A part of the chunk is overwritten without a look at the table; when the
    old content is written again, the write is skipped and the file keeps the
    part. *)
Example partial_write_then_skip :
  wp_skips <$> run ([WpPolicy on] ++ write [1; 2; 3] ++ [WpOther 0 1 [9]] ++ [WpWrite 0 [1; 2; 3] true]) =
  Some [(0, [1; 2; 3], [1; 9; 3])].
Proof. vm_compute. reflexivity. Qed.

(** Likewise a write while the policy was off. *)
Example untracked_write_then_skip :
  wp_skips <$> run ([WpPolicy on] ++ write [1; 2; 3] ++ [WpPolicy off] ++ write [7; 7; 7] ++ [WpPolicy on; WpWrite 0 [1; 2; 3] true]) =
  Some [(0, [1; 2; 3], [7; 7; 7])].
Proof. vm_compute. reflexivity. Qed.

(** Likewise a request that timed out and is handled late. *)
Example late_write_then_skip :
  wp_skips <$> run ([WpPolicy on; WpWrite 0 [5; 5; 5] true; WpAnswer 0 false] ++ write [1; 2; 3] ++ [WpLate 0; WpWrite 0 [1; 2; 3] true]) =
  Some [(0, [1; 2; 3], [5; 5; 5])].
Proof. vm_compute. reflexivity. Qed.

(** A Flat file with a chunk list: the chunk is written to the needle of the
    list and read from the own needle as soon as the table has an entry. *)
Definition listed : layout_inode :=
  plain POWERFS_PLACEMENT_FLAT 100 no_stripe (mk_chunks (Some [mk_cm 0 500 1 0 0]) 1 None 0 None 0 0 0).

Example listed_chunk_read_elsewhere :
  match wp_exec hash listed (fun _ => (1, 500)) ([WpPolicy on] ++ write [1; 2; 3]) (wp_start ∅) with
  | Some s => powerfs_locate_chunk listed 0 = At 1 500 /\ powerfs_locate_chunk_for_read listed (wp_tbl s) 0 = At 1 100
  | None => False
  end.
Proof. vm_compute. split; reflexivity. Qed.

(** 4294967296 as a threshold. *)
Example threshold_overflow : parse_policy_threshold [52; 50; 57; 52; 57; 54; 55; 50; 57; 54] = false.
Proof. vm_compute. reflexivity. Qed.

Definition calm_events : list wp_event := [WpPolicy on] ++ write [1; 2; 3] ++ [WpWrite 0 [1; 2; 3] true].
Definition calm_end : wp_state :=
  mk_wp on [mk_entry 0 100 1 POWERFS_CHUNK_SIZE (hash [1; 2; 3]) true 1] {[(1, 100) := [1; 2; 3]]} [] [] [(0, [1; 2; 3], [1; 2; 3])].

Lemma calm_exec : wp_exec hash flat slot calm_events (wp_start ∅) = Some calm_end.
Proof. vm_compute. reflexivity. Qed.

Lemma skip_sound_witness :
  Forall (fun '(c, data, content) => exists d, hash d = hash data /\ holds content d) [(0, [1; 2; 3], [1; 2; 3])].
Proof.
  apply (skip_sound hash flat slot ltac:(intros c c' E; injection E as E; lia) ∅ calm_events calm_end); [vm_compute; reflexivity|exact calm_exec].
Defined.

Lemma predicted_reads_agree_witness : powerfs_locate_chunk_for_read flat (wp_tbl calm_end) 5 = powerfs_locate_chunk flat 5.
Proof. apply (predicted_reads_agree hash flat slot ∅ calm_events calm_end 5 flat_is_flat calm_exec). lia. Defined.

End Sample.
