(* ===== verification/PredictWork.v ===== *)
(** * PredictWork: the workers that report fingerprints

    Models the rest of [src/powerfs_mod/powerfs_write_predict.c]: the
    admission of a report by [powerfs_write_predict_lookup_record_async] (one
    of eight writes is reported, at most [WP_PER_INODE_MAX] reports of an
    inode and one of a chunk are under way) and the worker that sends it.
    Callers and workers interleave; the lock of an inode is [wp_lock], the
    counter of all inodes is atomic and is not covered by it.

    Shown: the counter of an inode is the number of its reports and never
    above the limit; the counter of all inodes is the number of workers, and
    is above its limit by at most the number of inodes less one. *)

From S2P Require Import Prelude Tlv Layout Volume Predict.

Definition WP_INFLIGHT_MAX : Z := 256.
Definition WP_PER_INODE_MAX : Z := 32.
Definition WP_RECORD_SAMPLE : Z := 8.
Definition POWERFS_FP_PREFIX_SIZE : Z := 64.

(** ** The report *)

(** The body of FINGERPRINT_RECORD: fingerprint, needle, volume, checksum,
    size and the first bytes of the data. *)
Definition record_prefix (data : buffer) : buffer :=
  blit (replicate (Z.to_nat POWERFS_FP_PREFIX_SIZE) 0) 0 (take (Z.to_nat POWERFS_FP_PREFIX_SIZE) data).

Definition record_body (fp : buffer) (needle_id volume_id crc32 : Z) (data : buffer) : buffer :=
  fp ++ le_split 8 needle_id ++ le_split 8 volume_id ++ le_split 4 crc32 ++ le_split 8 (blen data) ++ record_prefix data.

(** ** Admission and workers *)

(** A caller that was sampled and has its copy of the data, before and after
    it has inserted its report; a worker, before and after it has taken its
    report off the table. *)
Record fp_report := mk_report { w_ino : Z; w_chunk : Z; w_id : nat }.

Record wk_state := mk_wk {
  wp_record_seq : Z;
  wp_pending : gmap (Z * Z) nat;
  wp_pending_cnt : gmap Z Z;
  wp_inflight : Z;
  calls : list fp_report;
  inserted : list fp_report;
  workers : list fp_report;
  leaving : list fp_report
}.

Definition cnt (s : wk_state) (ino : Z) : Z := default 0 (wp_pending_cnt s !! ino).

(** [wp_lock] of an inode is held from the insertion to the increment. *)
Definition wp_locked (s : wk_state) (ino : Z) : bool := existsb (fun r => w_ino r =? ino) (inserted s).

Definition room (s : wk_state) (ino : Z) : bool := (cnt s ino <? WP_PER_INODE_MAX) && (wp_inflight s <? WP_INFLIGHT_MAX).

Inductive wk_event :=
| Call (r : fp_report) (mem_ok : bool)
| Insert (i : nat) (xa_ok : bool)
| Increment (i : nat)
| Erase (i : nat)
| Decrement (i : nat).

(** The counter is an [int]; its remainder has its sign. *)
Definition sampled (seq : Z) : bool := Z.rem seq WP_RECORD_SAMPLE =? 1.

(** Sampling, the first check and the copies. *)
Definition call_step (s : wk_state) (r : fp_report) (mem_ok : bool) : option wk_state :=
  let seq := s32 (wp_record_seq s + 1) in
  if wp_locked s (w_ino r) then None else
  let calls := if sampled seq && room s (w_ino r) && mem_ok then calls s ++ [r] else calls s in
  Some (mk_wk seq (wp_pending s) (wp_pending_cnt s) (wp_inflight s) calls (inserted s) (workers s) (leaving s)).

(** The second check and the insertion, under the lock; [xa_ok]: the
    allocation of [xa_insert]. *)
Definition insert_step (s : wk_state) (i : nat) (xa_ok : bool) : option wk_state :=
  match calls s !! i with
  | None => None
  | Some r =>
      if wp_locked s (w_ino r) then None else
      let key := (w_ino r, w_chunk r) in
      if room s (w_ino r) && xa_ok && bool_decide (wp_pending s !! key = None)
      then Some (mk_wk (wp_record_seq s) (<[key := w_id r]> (wp_pending s)) (<[w_ino r := cnt s (w_ino r) + 1]> (wp_pending_cnt s))
                   (wp_inflight s) (delete i (calls s)) (inserted s ++ [r]) (workers s) (leaving s))
      else Some (mk_wk (wp_record_seq s) (wp_pending s) (wp_pending_cnt s) (wp_inflight s) (delete i (calls s)) (inserted s) (workers s) (leaving s))
  end.

Definition increment_step (s : wk_state) (i : nat) : option wk_state :=
  match inserted s !! i with
  | None => None
  | Some r => Some (mk_wk (wp_record_seq s) (wp_pending s) (wp_pending_cnt s) (wp_inflight s + 1) (calls s)
                      (delete i (inserted s)) (workers s ++ [r]) (leaving s))
  end.

(** The end of [powerfs_wp_lookup_worker]: [xa_erase] under the lock. *)
Definition erase_step (s : wk_state) (i : nat) : option wk_state :=
  match workers s !! i with
  | None => None
  | Some r =>
      if wp_locked s (w_ino r) then None else
      let key := (w_ino r, w_chunk r) in
      let own := bool_decide (wp_pending s !! key = Some (w_id r)) in
      Some (mk_wk (wp_record_seq s) (delete key (wp_pending s))
              (if own then <[w_ino r := cnt s (w_ino r) - 1]> (wp_pending_cnt s) else wp_pending_cnt s)
              (wp_inflight s) (calls s) (inserted s) (delete i (workers s)) (leaving s ++ [r]))
  end.

Definition decrement_step (s : wk_state) (i : nat) : option wk_state :=
  match leaving s !! i with
  | None => None
  | Some r => Some (mk_wk (wp_record_seq s) (wp_pending s) (wp_pending_cnt s) (wp_inflight s - 1) (calls s) (inserted s) (workers s)
                      (delete i (leaving s)))
  end.

Definition wk_step (s : wk_state) (e : wk_event) : option wk_state :=
  match e with
  | Call r mem_ok => call_step s r mem_ok
  | Insert i xa_ok => insert_step s i xa_ok
  | Increment i => increment_step s i
  | Erase i => erase_step s i
  | Decrement i => decrement_step s i
  end.

Fixpoint wk_exec (es : list wk_event) (s : wk_state) : option wk_state :=
  match es with
  | [] => Some s
  | e :: es => match wk_step s e with Some s => wk_exec es s | None => None end
  end.

Definition wk_start : wk_state := mk_wk 0 ∅ ∅ 0 [] [] [] [].

(** ** The counters *)

Definition key_of (r : fp_report) : Z * Z := (w_ino r, w_chunk r).

(** The reports of an inode in the table. *)
Definition of_inode (ino : Z) (m : gmap (Z * Z) nat) : nat := size (filter (fun kv => kv.1.1 = ino) m).

Definition callers_in (inodes : gset Z) (s : wk_state) : Prop := forall r, r ∈ calls s -> w_ino r ∈ inodes.

Definition wk_inv (inodes : gset Z) (s : wk_state) : Prop :=
  (forall ino, cnt s ino = Z.of_nat (of_inode ino (wp_pending s)) /\ cnt s ino <= WP_PER_INODE_MAX) /\
  (forall r, r ∈ inserted s ++ workers s -> wp_pending s !! key_of r = Some (w_id r)) /\
  NoDup (key_of <$> inserted s ++ workers s) /\ NoDup (w_ino <$> inserted s) /\
  (forall r, r ∈ calls s ++ inserted s -> w_ino r ∈ inodes) /\
  wp_inflight s = Z.of_nat (length (workers s) + length (leaving s)) /\
  wp_inflight s + Z.of_nat (length (inserted s)) <= WP_INFLIGHT_MAX - 1 + Z.of_nat (size inodes).

Lemma of_inode_insert ino k v m :
  m !! k = None -> of_inode ino (<[k := v]> m) = (of_inode ino m + if decide (k.1 = ino) then 1 else 0)%nat.
Proof.
  intros Hk. unfold of_inode. case_decide.
  - rewrite map_filter_insert_True by done. rewrite map_size_insert_None; [lia|]. apply map_lookup_filter_None. by left.
  - rewrite map_filter_insert_False by done. rewrite delete_id by done. lia.
Qed.

Lemma of_inode_delete ino k v m :
  m !! k = Some v -> of_inode ino m = (of_inode ino (delete k m) + if decide (k.1 = ino) then 1 else 0)%nat.
Proof. intros Hk. rewrite <- (insert_delete_id m k v Hk) at 1. apply of_inode_insert. apply lookup_delete_eq. Qed.

Lemma wp_locked_false s ino : wp_locked s ino = false -> ino ∉ w_ino <$> inserted s.
Proof.
  unfold wp_locked. intros H Hin. apply list_elem_of_fmap in Hin as (r & -> & Hr).
  assert (E : existsb (fun q => w_ino q =? w_ino r) (inserted s) = true); [|congruence].
  apply existsb_exists. exists r. split; [by apply list_elem_of_In|lia].
Qed.

(** An inode that is not locked leaves room for one more insertion. *)
Lemma inserted_room (inodes : gset Z) s ino :
  NoDup (w_ino <$> inserted s) -> (forall r, r ∈ inserted s -> w_ino r ∈ inodes) -> ino ∈ inodes -> ino ∉ w_ino <$> inserted s ->
  (length (inserted s) + 1 <= size inodes)%nat.
Proof.
  intros Hnd Hin Hi Hno. assert (Hnd' : NoDup (ino :: (w_ino <$> inserted s))) by (by constructor).
  pose proof (size_list_to_set (C := gset Z) _ Hnd') as Hs. cbn [length] in Hs. rewrite length_fmap in Hs.
  assert (Hsub : list_to_set (ino :: (w_ino <$> inserted s)) ⊆ inodes).
  { intros x Hx. apply elem_of_list_to_set in Hx. apply elem_of_cons in Hx as [->|Hx]; [done|].
    apply list_elem_of_fmap in Hx as (r & -> & Hr). by apply Hin. }
  apply subseteq_size in Hsub. lia.
Qed.

Lemma elem_of_delete_list {A} (l : list A) i x : x ∈ delete i l -> x ∈ l.
Proof. intros H. eapply elem_of_submseteq; [exact H|]. apply sublist_submseteq, sublist_delete. Qed.

Lemma call_inv inodes s r m s' : wk_inv inodes s -> w_ino r ∈ inodes -> call_step s r m = Some s' -> wk_inv inodes s'.
Proof.
  intros (Hc & Hp & Hk & Hi & Hin & Hf & Hb) Hr. unfold call_step. destruct (wp_locked s (w_ino r)); [done|]. intros [= <-].
  split_and!; try done. cbn [calls inserted]. intros q Hq. apply elem_of_app in Hq as [Hq|Hq]; [|apply Hin, elem_of_app; by right].
  case_if_in Hq; [|apply Hin, elem_of_app; by left]. apply elem_of_app in Hq as [Hq|Hq]; [apply Hin, elem_of_app; by left|].
  by apply list_elem_of_singleton in Hq as ->.
Qed.

Lemma insert_inv inodes s i x s' : wk_inv inodes s -> insert_step s i x = Some s' -> wk_inv inodes s'.
Proof.
  intros (Hc & Hp & Hk & Hi & Hin & Hf & Hb). unfold insert_step. destruct (calls s !! i) as [r|] eqn:Hr; [|done].
  destruct (wp_locked s (w_ino r)) eqn:Hl; [done|]. apply wp_locked_false in Hl.
  assert (Hrc : r ∈ calls s) by (by eapply list_elem_of_lookup_2).
  destruct (room s (w_ino r) && x && bool_decide (wp_pending s !! (w_ino r, w_chunk r) = None)) eqn:Hroom; intros [= <-].
  - apply andb_true_iff in Hroom as [Hroom Hnone]. apply bool_decide_eq_true in Hnone. apply andb_true_iff in Hroom as [Hroom _].
    unfold room in Hroom. bool_to_prop. assert (Hfresh : key_of r ∉ key_of <$> inserted s ++ workers s).
    { intros Hin'. apply list_elem_of_fmap in Hin' as (q & Eq & Hq). specialize (Hp q Hq). rewrite <- Eq in Hp. unfold key_of in Hp. congruence. }
    split_and!; cbn [wp_pending wp_pending_cnt inserted workers calls leaving wp_inflight].
    + intros ino. rewrite of_inode_insert by done. cbn [fst]. destruct (Hc ino) as [E1 E2]. unfold cnt in *. cbn [wp_pending_cnt].
      destruct (decide (w_ino r = ino)) as [<-|Hne].
      * rewrite lookup_insert_eq. cbn [default from_option id]. lia.
      * rewrite lookup_insert_ne by done. lia.
    + intros q Hq. rewrite <- app_assoc in Hq. cbn [app] in Hq. rewrite <- Permutation_middle in Hq. apply elem_of_cons in Hq as [->|Hq].
      * apply lookup_insert_eq.
      * rewrite lookup_insert_ne; [by apply Hp|]. intros E. apply Hfresh. change (w_ino r, w_chunk r) with (key_of r) in E. rewrite E.
        by apply list_elem_of_fmap_2.
    + rewrite <- app_assoc. cbn [app]. rewrite <- Permutation_middle. cbn [fmap list_fmap]. by constructor.
    + rewrite fmap_app. cbn [fmap list_fmap]. rewrite <- Permutation_cons_append. by constructor.
    + intros q Hq. rewrite app_assoc in Hq. apply elem_of_app in Hq as [Hq|Hq].
      * apply Hin. apply elem_of_app in Hq as [Hq|Hq]; [|apply elem_of_app; by right]. apply elem_of_app. left. by eapply elem_of_delete_list.
      * apply list_elem_of_singleton in Hq as ->. apply Hin, elem_of_app. by left.
    + done.
    + rewrite length_app. cbn [length]. pose proof (inserted_room inodes s (w_ino r) Hi) as Hroom'.
      assert (length (inserted s) + 1 <= size inodes)%nat; [|lia]. apply Hroom'; [|apply Hin, elem_of_app; by left|done].
      intros q Hq. apply Hin, elem_of_app. by right.
  - split_and!; try done. cbn [calls inserted]. intros q Hq. apply Hin. apply elem_of_app in Hq as [Hq|Hq]; [|apply elem_of_app; by right].
    apply elem_of_app. left. by eapply elem_of_delete_list.
Qed.

Lemma increment_inv inodes s i s' : wk_inv inodes s -> increment_step s i = Some s' -> wk_inv inodes s'.
Proof.
  intros (Hc & Hp & Hk & Hi & Hin & Hf & Hb). unfold increment_step. destruct (inserted s !! i) as [r|] eqn:Hr; [|done]. intros [= <-].
  assert (Hmove : delete i (inserted s) ++ workers s ++ [r] ≡ₚ inserted s ++ workers s).
  { pose proof (delete_Permutation _ _ _ Hr) as Ed. revert Ed. generalize (delete i (inserted s)) as d. intros d ->. solve_Permutation. }
  pose proof (length_delete (inserted s) i ltac:(by eexists)) as Hlen. pose proof (lookup_lt_Some _ _ _ Hr).
  split_and!; cbn [wp_pending wp_pending_cnt inserted workers calls leaving wp_inflight]; try done.
  - intros q Hq. rewrite Hmove in Hq. by apply Hp.
  - by rewrite Hmove.
  - pose proof (delete_Permutation _ _ _ Hr) as Ed. revert Ed. generalize (delete i (inserted s)) as d. intros d Ed.
    rewrite Ed in Hi. by apply NoDup_cons in Hi as [_ ?].
  - intros q Hq. apply Hin. apply elem_of_app in Hq as [Hq|Hq]; apply elem_of_app; [by left|right]. by eapply elem_of_delete_list.
  - rewrite length_app. cbn [length]. lia.
  - lia.
Qed.

Lemma erase_inv inodes s i s' : wk_inv inodes s -> erase_step s i = Some s' -> wk_inv inodes s'.
Proof.
  intros (Hc & Hp & Hk & Hi & Hin & Hf & Hb). unfold erase_step. destruct (workers s !! i) as [r|] eqn:Hr; [|done].
  destruct (wp_locked s (w_ino r)); [done|]. intros [= <-].
  assert (Hrin : r ∈ inserted s ++ workers s) by (apply elem_of_app; right; by eapply list_elem_of_lookup_2).
  pose proof (Hp r Hrin) as Hpr. unfold key_of in Hpr. rewrite bool_decide_eq_true_2 by done.
  assert (Hsplit : inserted s ++ workers s ≡ₚ r :: inserted s ++ delete i (workers s)).
  { pose proof (delete_Permutation _ _ _ Hr) as Ed. revert Ed. generalize (delete i (workers s)) as d. intros d ->. by rewrite Permutation_middle. }
  rewrite Hsplit in Hk. cbn [fmap list_fmap] in Hk. apply NoDup_cons in Hk as [Hfresh Hk].
  pose proof (length_delete (workers s) i ltac:(by eexists)) as Hlen. pose proof (lookup_lt_Some _ _ _ Hr).
  split_and!; cbn [wp_pending wp_pending_cnt inserted workers calls leaving wp_inflight]; try done.
  - intros ino. destruct (Hc ino) as [E1 E2]. unfold cnt in *. cbn [wp_pending_cnt].
    pose proof (of_inode_delete ino _ _ _ Hpr) as Ed. cbn [fst] in Ed. destruct (decide (w_ino r = ino)) as [<-|Hne].
    + rewrite lookup_insert_eq. cbn [default from_option id]. lia.
    + rewrite lookup_insert_ne by done. lia.
  - intros q Hq. rewrite lookup_delete_ne; [apply Hp; rewrite Hsplit; by right|]. intros E. apply Hfresh.
    change (w_ino r, w_chunk r) with (key_of r) in E. rewrite E. by apply list_elem_of_fmap_2.
  - rewrite length_app. cbn [length]. lia.
Qed.

Lemma decrement_inv inodes s i s' : wk_inv inodes s -> decrement_step s i = Some s' -> wk_inv inodes s'.
Proof.
  intros (Hc & Hp & Hk & Hi & Hin & Hf & Hb). unfold decrement_step. destruct (leaving s !! i) as [r|] eqn:Hr; [|done]. intros [= <-].
  pose proof (length_delete (leaving s) i ltac:(by eexists)) as Hlen. pose proof (lookup_lt_Some _ _ _ Hr).
  split_and!; cbn [wp_pending wp_pending_cnt inserted workers calls leaving wp_inflight]; try done; lia.
Qed.

Definition event_in (inodes : gset Z) (e : wk_event) : Prop := match e with Call r _ => w_ino r ∈ inodes | _ => True end.

Lemma wk_exec_inv inodes es s s' :
  Forall (event_in inodes) es -> wk_inv inodes s -> wk_exec es s = Some s' -> wk_inv inodes s'.
Proof.
  intros He. revert s. induction He as [|e es H1 _ IH]; intros s Hi; cbn; [by intros [= <-]|].
  destruct (wk_step s e) as [s1|] eqn:Hs; [|done]. apply IH. destruct e; cbn in Hs;
    eauto using call_inv, insert_inv, increment_inv, erase_inv, decrement_inv.
Qed.

(** The reports under way are bounded.  In every interleaving of callers
    and workers over a set of inodes, the counter of an inode is the number
    of its reports in the table, and is at most [WP_PER_INODE_MAX]; the
    counter of all inodes is the number of workers that have not ended, and
    exceeds [WP_INFLIGHT_MAX] by less than the number of inodes; every
    worker finds its own report when it ends. *)
Theorem reports_bounded (inodes : gset Z) es s :
  Forall (event_in inodes) es -> wk_exec es wk_start = Some s ->
  (forall ino, cnt s ino = Z.of_nat (of_inode ino (wp_pending s)) /\ cnt s ino <= WP_PER_INODE_MAX) /\
  wp_inflight s = Z.of_nat (length (workers s) + length (leaving s)) /\
  wp_inflight s < WP_INFLIGHT_MAX + Z.of_nat (size inodes) /\
  (forall r, r ∈ workers s -> wp_pending s !! (w_ino r, w_chunk r) = Some (w_id r)).
Proof.
  intros He Hx. assert (Hi : wk_inv inodes s).
  { eapply wk_exec_inv; [exact He| |exact Hx]. split; [intros ino; unfold cnt, of_inode; cbn; by rewrite map_filter_empty|].
    split; [intros r Hr; by apply not_elem_of_nil in Hr|]. split; [constructor|]. split; [constructor|].
    split; [intros r Hr; by apply not_elem_of_nil in Hr|]. split; [done|]. cbn. unfold WP_INFLIGHT_MAX. lia. }
  destruct Hi as (Hc & Hp & _ & _ & _ & Hf & Hb). split; [done|]. split; [done|]. split; [lia|].
  intros r Hr. apply Hp, elem_of_app. by right.
Qed.

Module Sample.

Definition first_report : fp_report := mk_report 7 0 1.
Definition first_run : list wk_event := [Call first_report true; Insert 0 true; Increment 0].
Definition first_end : wk_state := mk_wk 1 {[(7, 0) := 1%nat]} {[7 := 1]} 1 [] [] [first_report] [].

Lemma first_exec : wk_exec first_run wk_start = Some first_end.
Proof. vm_compute. reflexivity. Qed.

Lemma reports_bounded_witness : cnt first_end 7 <= WP_PER_INODE_MAX /\ wp_inflight first_end < WP_INFLIGHT_MAX + Z.of_nat (size ({[7]} : gset Z)).
Proof.
  destruct (reports_bounded {[7]} first_run first_end) as (H1 & _ & H3 & _).
  - apply Forall_cons. split; [unfold event_in; apply elem_of_singleton; reflexivity|]. repeat constructor.
  - exact first_exec.
  - split; [apply (H1 7)|exact H3].
Defined.

(** Once the counter has overflowed, nothing is sampled until it is positive
    again. *)
Example not_sampled : forallb (fun k => negb (sampled (s32 (2 ^ 31 + k)))) [0; 1; 2; 3; 4; 5; 6; 7; 8] = true.
Proof. vm_compute. reflexivity. Qed.

(** The body has the size of [POWERFS_FP_RECORD_BODY_SIZE]. *)
Lemma record_body_size fp nid vid crc data : blen fp = 32 -> blen (record_body fp nid vid crc data) = 124.
Proof.
  intros Hf. unfold record_body, record_prefix. rewrite !blen_app, !blen_le_split, Hf, blit_length; [done|done|].
  pose proof (blen_take_max POWERFS_FP_PREFIX_SIZE data ltac:(done)). rewrite blen_replicate_z by done. lia.
Qed.

End Sample.
