(* ===== verification/Inline.v ===== *)
(** * Inline: small files and their migration to the volumes

    Models of [src/powerfs_mod/powerfs_addr.c] the part of buffered writes
    that keeps small files in the inode: [powerfs_write_end] with its staging
    of written data in [inline_data], [powerfs_detect_content_binary],
    [powerfs_migrate_inline_out] and [powerfs_align_inline_before_commit]; of
    [powerfs_net_inode.c] the RPCs they use, [powerfs_net_migrate_inline_alloc]
    and [powerfs_net_getattr].

    The lock of the inode is dropped around allocations and RPCs; what other
    threads do to the inode meanwhile is the parameter [gap].  The effect of
    [powerfs_flush_pending_create] (see [Create]) on the inode is [flush].

    Shown: a migration that returns 0 leaves the file on the volume servers
    with the bytes it had inline, and one that fails leaves it inline; a write
    changes the bytes of the file that it should and no others, whether the
    file stays inline or leaves, and is lost without memory for its buffer;
    both while other threads leave the inode alone; the decoder of the allocation stays in its
    buffer.  Examples show a migration that is not tried again after a
    failure, and a first write that is refused. *)

From S2P Require Import Prelude Wire Caps Tlv NetLease Layout CreateRpc Dir Volume.

Definition EFBIG : Z := 27.
Definition POWERFS_NET_RESP_META_CAP : Z := POWERFS_NET_MAX_BODY.
Definition POWERFS_NET_MSG_GETATTR : Z := 0x0011.
Definition POWERFS_NET_MSG_MIGRATE_INLINE_ALLOC : Z := 0x0037.
Definition POWERFS_NET_FLD_VOLUME_ID : Z := 0x92.
Definition POWERFS_NET_FLD_RBYTES : Z := 0xCD.
Definition POWERFS_NET_FLD_RFILES : Z := 0xCE.
Definition POWERFS_NET_FLD_RSUBDIRS : Z := 0xCF.
Definition POWERFS_NET_FLD_RCTIME_SEC : Z := 0xD0.
Definition POWERFS_NET_FLD_RCTIME_NSEC : Z := 0xD1.
Definition POWERFS_NET_FLD_DESIRED_MODE : Z := 0xD6.

(** ** Text or binary *)

Definition magics : list buffer :=
  [[0x7f; 69; 76; 70]; [77; 90]; [0xfe; 0xed; 0xfa]; [0xcf; 0xfa; 0xed; 0xfe];
   [0x89; 80; 78; 71; 13; 10; 0x1a; 10]; [0xff; 0xd8; 0xff]; [71; 73; 70; 56; 55; 97]; [71; 73; 70; 56; 57; 97];
   [66; 77]; [82; 73; 70; 70]; [73; 73; 42; 0]; [77; 77; 0; 42]; [80; 75; 3; 4]; [80; 75; 5; 6]; [0x1f; 0x8b];
   [0xfd; 55; 122; 88; 90; 0]; [0x28; 0xb5; 0x2f; 0xfd]; [66; 90; 104]; [4; 0x22; 0x4d; 0x18]; [37; 80; 68; 70; 45];
   [83; 81; 76; 105; 116; 101; 32; 102; 111; 114; 109; 97; 116; 32; 51; 0]; [0xd0; 0xcf; 0x11; 0xe0];
   [79; 103; 103; 83]; [0; 97; 115; 109]; [80; 65; 82; 49]].

Definition INSPECT_LEN : Z := 4096.
Definition RATIO_THRESHOLD_PCT : Z := 90.

Definition is_printable (b : Z) : bool := ((0x20 <=? b) && (b <=? 0x7E)) || (b =? 9) || (b =? 10) || (b =? 13).

Definition powerfs_detect_content_binary (data : buffer) : bool :=
  let sample := take (Z.to_nat INSPECT_LEN) data in
  let sample_len := blen sample in
  if sample_len =? 0 then false else
  if existsb (fun m => (sample_len >=? blen m) && bool_decide (take (length m) data = m)) magics then true else
  if existsb (Z.eqb 0) sample then true else
  let printable := Z.of_nat (length (List.filter is_printable sample)) in
  let threshold := (sample_len * RATIO_THRESHOLD_PCT + 99) / 100 in
  printable <? threshold.

(** ** The inode *)

(** A page of the page cache. *)
Record cpage := mk_cpage { cp_dirty : bool; cp_locked : bool }.

Record file_inode := mk_file {
  f_ino : Z; f_parent : Z; f_size : Z; f_lay : layout_inode; layout_aligned : bool;
  f_dirty_caps : Z; f_shutdown : bool; f_pages : list cpage
}.

Definition set_lay (f : file_inode) (pi : layout_inode) : file_inode :=
  mk_file (f_ino f) (f_parent f) (f_size f) pi (layout_aligned f) (f_dirty_caps f) (f_shutdown f) (f_pages f).
Definition set_aligned (f : file_inode) (b : bool) : file_inode :=
  mk_file (f_ino f) (f_parent f) (f_size f) (f_lay f) b (f_dirty_caps f) (f_shutdown f) (f_pages f).
Definition set_pages (f : file_inode) (ps : list cpage) : file_inode :=
  mk_file (f_ino f) (f_parent f) (f_size f) (f_lay f) (layout_aligned f) (f_dirty_caps f) (f_shutdown f) ps.
Definition set_size (f : file_inode) (size : Z) : file_inode :=
  mk_file (f_ino f) (f_parent f) size (f_lay f) (layout_aligned f) (f_dirty_caps f) (f_shutdown f) (f_pages f).
Definition add_dirty_caps (f : file_inode) (caps : Z) : file_inode :=
  mk_file (f_ino f) (f_parent f) (f_size f) (f_lay f) (layout_aligned f) (Z.lor (f_dirty_caps f) caps) (f_shutdown f) (f_pages f).

Definition with_inline (pi : layout_inode) (i : inline_part) : layout_inode :=
  mk_linode (placement pi) (reliability pi) (reliability_state pi) (layout_chunk_size pi) (volume_id pi) (file_key pi)
    i (pi_stripe pi) (pi_chunks pi).

Definition set_inline (f : file_inode) (i : inline_part) : file_inode := set_lay f (with_inline (f_lay f) i).
Definition f_inline (f : file_inode) : inline_part := pi_inline (f_lay f).

(** ** The RPCs *)

(** The allocations that can fail, and the places where the lock is dropped. *)
Inductive fl_alloc := FA_resp | FA_pairs | FA_snap | FA_vids | FA_keys | FA_buf | FA_attr.
Inductive fl_gap := G_snap | G_rpc | G_grow | G_align.

(** [struct powerfs_migrate_alloc_result]; [allocs] as pairs. *)
Record alloc_result := mk_ar {
  ar_is_stripe : bool; ar_volume_id : Z; ar_file_key : Z; ar_stripe_size : Z; ar_stripe_count : Z; ar_allocs : list (Z * Z)
}.

Definition no_alloc : alloc_result := mk_ar false 0 0 0 0 [].

Definition migrate_ops (shard_id ino : Z) (desired_stripe : bool) : list enc_op :=
  [OpU64 POWERFS_NET_FLD_SHARD_ID shard_id; OpU64 POWERFS_NET_FLD_INO ino;
   OpU8 POWERFS_NET_FLD_DESIRED_MODE (if desired_stripe then 1 else 0)].

(** The loop over the fields of a Stripe response; [None] when the fuel is
    used up. *)
Fixpoint collect_pairs (fuel : nat) (d : tlv_dec) (stripe_count vid : Z) (acc : list (Z * Z)) : option (list (Z * Z)) :=
  match fuel with
  | O => None
  | S fuel =>
      if powerfs_tlv_dec_is_empty d || negb (Z.of_nat (length acc) <? stripe_count) then Some acc else
      match powerfs_tlv_dec_next d with
      | (ret, Some (field, len), d) =>
          if ret <? 0 then Some acc else
          let '(vid, acc) :=
            if (len =? 8) && ((field =? POWERFS_NET_FLD_VOLUME_ID) || (field =? POWERFS_NET_FLD_FILE_KEY)) then
              let u64val := le64_at (dec_buf d) (dec_pos d) in
              if field =? POWERFS_NET_FLD_VOLUME_ID then (u64val, acc) else (0, acc ++ [(vid, u64val)])
            else (vid, acc) in
          collect_pairs fuel (set_pos d (dec_pos d + len)) stripe_count vid acc
      | (_, None, _) => Some acc
      end
  end.

(** The outputs of GETATTR; [None] is a NULL pointer. *)
Record attr_out := mk_attr {
  at_mode : option Z; at_uid : option Z; at_gid : option Z; at_size : option Z; at_nlink : option Z;
  at_mtime : option Z; at_atime : option Z; at_ctime : option Z; at_volume_id : option Z; at_file_key : option Z;
  at_layout : option powerfs_file_layout;
  at_rbytes : option Z; at_rfiles : option Z; at_rsubdirs : option Z; at_rctime_sec : option Z; at_rctime_nsec : option Z
}.

(** [powerfs_tlv_dec_*(&dec, field, p)]: decoded in any case, stored if there
    is a pointer and the field was there. *)
Definition dec_into (dec : tlv_dec -> Z -> Z * option Z * tlv_dec) (d : tlv_dec) (field : Z) (p : option Z)
  : option Z * tlv_dec :=
  let '(_, v, d) := dec d field in (match p with Some old => Some (default old v) | None => None end, d).

Section ops.
Context {W : Type} `{NT : !NetTransport W} `{VT : !VolumeTransport W}.
Context (alloc : fl_alloc -> bool) (lalloc : layout_alloc -> bool) (route : Z -> Z) (junk : buffer)
        (gap : fl_gap -> file_inode -> file_inode) (flush : W -> file_inode -> file_inode * W).

Definition parse_migrate_alloc (resp : buffer) : Z * alloc_result :=
  let dec := powerfs_tlv_dec_init resp (blen resp) in
  let stripe_count := default 0 (snd (fst (powerfs_tlv_dec_find_u32 dec POWERFS_NET_FLD_STRIPE_COUNT))) in
  if stripe_count >? 0 then
    if stripe_count >? 16 then (- EPROTO, no_alloc) else
    let stripe_size := default 0 (snd (fst (powerfs_tlv_dec_find_u64 dec POWERFS_NET_FLD_STRIPE_SIZE))) in
    if negb (alloc FA_pairs) then (- ENOMEM, no_alloc) else
    match collect_pairs (find_fuel dec) dec stripe_count 0 [] with
    | Some allocs =>
        if negb (Z.of_nat (length allocs) =? stripe_count) then (- EPROTO, no_alloc)
        else (0, mk_ar true 0 0 stripe_size stripe_count allocs)
    | None => (- EPROTO, no_alloc)
    end
  else
    match snd (fst (powerfs_tlv_dec_find_u64 dec POWERFS_NET_FLD_VOLUME_ID)),
          snd (fst (powerfs_tlv_dec_find_u64 dec POWERFS_NET_FLD_FILE_KEY)) with
    | Some v_id, Some f_key => (0, mk_ar false v_id f_key 0 0 [])
    | _, _ => (- EPROTO, no_alloc)
    end.

Definition powerfs_net_migrate_inline_alloc (w : W) (shard_id ino : Z) (desired_stripe : bool) : Z * alloc_result * W :=
  if negb (alloc FA_resp) then (- ENOMEM, no_alloc, w) else
  let body := request 64 (migrate_ops shard_id ino desired_stripe) in
  let '(ret, resp, w) := net_send_request w POWERFS_NET_MSG_MIGRATE_INLINE_ALLOC ino body 512 in
  match rpc_status ret with
  | Some e => (e, no_alloc, w)
  | None => let '(ret, out) := parse_migrate_alloc resp in (ret, out, w)
  end.

(** The attributes in their order, then the layout and the sums of a
    directory wherever they are. *)
Definition decode_attr (resp : buffer) (o : attr_out) : attr_out :=
  let d := powerfs_tlv_dec_init resp (blen resp) in
  let '(_, _, d) := powerfs_tlv_dec_u64 d POWERFS_NET_FLD_INO in
  let '(mode, d) := dec_into powerfs_tlv_dec_u32 d POWERFS_NET_FLD_MODE (at_mode o) in
  let '(uid, d) := dec_into powerfs_tlv_dec_u32 d POWERFS_NET_FLD_UID (at_uid o) in
  let '(gid, d) := dec_into powerfs_tlv_dec_u32 d POWERFS_NET_FLD_GID (at_gid o) in
  let '(size, d) := dec_into powerfs_tlv_dec_u64 d POWERFS_NET_FLD_SIZE (at_size o) in
  let '(nlink, d) := dec_into powerfs_tlv_dec_u32 d POWERFS_NET_FLD_NLINK (at_nlink o) in
  let '(mtime, d) := dec_into powerfs_tlv_dec_u64 d POWERFS_NET_FLD_MTIME (at_mtime o) in
  let '(atime, d) := dec_into powerfs_tlv_dec_u64 d POWERFS_NET_FLD_ATIME (at_atime o) in
  let '(ctime, d) := dec_into powerfs_tlv_dec_u64 d POWERFS_NET_FLD_CTIME (at_ctime o) in
  let '(vid, d) := find_into powerfs_tlv_dec_find_u64 d POWERFS_NET_FLD_VOLUME_ID (at_volume_id o) in
  let '(key, d) := find_into powerfs_tlv_dec_find_u64 d POWERFS_NET_FLD_FILE_KEY (at_file_key o) in
  let '(layout, d) := match at_layout o with
                      | Some _ => let '(l, d) := parse_file_layout lalloc d in (Some l, d)
                      | None => (None, d)
                      end in
  let '(rbytes, d) := find_into powerfs_tlv_dec_find_u64 d POWERFS_NET_FLD_RBYTES (at_rbytes o) in
  let '(rfiles, d) := find_into powerfs_tlv_dec_find_u64 d POWERFS_NET_FLD_RFILES (at_rfiles o) in
  let '(rsub, d) := find_into powerfs_tlv_dec_find_u64 d POWERFS_NET_FLD_RSUBDIRS (at_rsubdirs o) in
  let '(rsec, d) := find_into powerfs_tlv_dec_find_u64 d POWERFS_NET_FLD_RCTIME_SEC (at_rctime_sec o) in
  let '(rnsec, _) := find_into powerfs_tlv_dec_find_u32 d POWERFS_NET_FLD_RCTIME_NSEC (at_rctime_nsec o) in
  mk_attr mode uid gid size nlink mtime atime ctime vid key layout rbytes rfiles rsub rsec rnsec.

Definition powerfs_net_getattr (w : W) (ino : Z) (o : attr_out) : Z * attr_out * W :=
  if negb (alloc FA_attr) then (- ENOMEM, o, w) else
  let body := request 64 [OpU64 POWERFS_NET_FLD_INO ino] in
  let '(ret, resp, w) := net_send_request w POWERFS_NET_MSG_GETATTR ino body POWERFS_NET_RESP_META_CAP in
  match rpc_status ret with
  | Some e => (e, o, w)
  | None => (0, if blen resp >? 0 then decode_attr resp o else o, w)
  end.

(** ** Migration *)

Definition drop_inline (i : inline_part) : inline_part := mk_inline None 0 false (inline_max_size i).

Definition switch_flat (pi : layout_inode) (vid key : Z) (s : stripe_part) : layout_inode :=
  mk_linode POWERFS_PLACEMENT_FLAT (reliability pi) (reliability_state pi) POWERFS_CHUNK_SIZE vid key
    (drop_inline (pi_inline pi)) s (pi_chunks pi).

Definition no_volumes (s : stripe_part) : stripe_part :=
  mk_stripe (stripe_size s) (stripe_count s) (start_volume_idx s) None 0 None.

Definition switch_stripe (pi : layout_inode) (a : alloc_result) : layout_inode :=
  let '(vid, key) := default (0, 0) (head (ar_allocs a)) in
  mk_linode POWERFS_PLACEMENT_STRIPE (reliability pi) (reliability_state pi) POWERFS_CHUNK_SIZE vid key
    (drop_inline (pi_inline pi))
    (mk_stripe (ar_stripe_size a) (ar_stripe_count a) (start_volume_idx (pi_stripe pi))
       (Some (fst <$> ar_allocs a)) (ar_stripe_count a) (Some (snd <$> ar_allocs a)))
    (pi_chunks pi).

(** Step 5: the layout of the inode after the data are on the volume. *)
Definition switch_layout (pi : layout_inode) (a : alloc_result) : layout_inode :=
  if ar_is_stripe a then
    if negb (alloc FA_vids) || negb (alloc FA_keys) then
      let '(vid, key) := default (0, 0) (head (ar_allocs a)) in switch_flat pi vid key (no_volumes (pi_stripe pi))
    else switch_stripe pi a
  else switch_flat pi (ar_volume_id a) (ar_file_key a) (pi_stripe pi).

(** All pages that are not locked are marked dirty. *)
Definition redirty_page (p : cpage) : cpage := if cp_dirty p || cp_locked p then p else mk_cpage true (cp_locked p).

Definition switched (f : file_inode) (a : alloc_result) : file_inode :=
  let f := set_aligned (set_lay f (switch_layout (f_lay f) a)) true in
  let f' := set_pages f (redirty_page <$> f_pages f) in
  if existsb (fun p => negb (cp_dirty p) && negb (cp_locked p)) (f_pages f) && negb (f_shutdown f)
  then add_dirty_caps f' POWERFS_CAP_WR_DATA else f'.

(** Where the snapshot is written. *)
Definition write_address (a : alloc_result) : Z * Z :=
  if ar_is_stripe a then default (0, 0) (head (ar_allocs a)) else (ar_volume_id a, ar_file_key a).

Definition migrate_snap (w : W) (f : file_inode) (snap : buffer) : Z * file_inode * W :=
  let desired_stripe := powerfs_detect_content_binary snap in
  let shard_id := route (if f_parent f =? 0 then f_ino f else f_parent f) in
  let '(f, w) := flush w f in
  let '(ret, a, w) := powerfs_net_migrate_inline_alloc w shard_id (f_ino f) desired_stripe in
  if ret <? 0 then (ret, f, w) else
  let '(vid, nid) := write_address a in
  let '(ret, w) := powerfs_net_write_needle w vid nid (f_ino f) snap None in
  if ret <? 0 then (ret, f, w) else (0, switched (gap G_rpc f) a, w).

Definition powerfs_migrate_inline_out (w : W) (f : file_inode) : Z * file_inode * W :=
  match inline_data (f_inline f) with
  | None => (- EINVAL, f, w)
  | Some _ =>
      let snap_len := inline_len (f_inline f) in
      if snap_len =? 0 then (- EINVAL, f, w) else
      if negb (alloc FA_snap) then (- ENOMEM, f, w) else
      let f := gap G_snap f in
      match inline_data (f_inline f) with
      | Some data =>
          if inline_len (f_inline f) =? snap_len then migrate_snap w f (take (Z.to_nat snap_len) data)
          else (- EAGAIN, f, w)
      | None => (- EAGAIN, f, w)
      end
  end.

Definition powerfs_align_inline_before_commit (w : W) (f : file_inode) : Z * file_inode * W :=
  let staged := inline_dirty (f_inline f) && bool_decide (is_Some (inline_data (f_inline f)))
                && negb (inline_len (f_inline f) =? 0) in
  let inline := placement (f_lay f) =? POWERFS_PLACEMENT_INLINE in
  if layout_aligned f || negb staged then (0, f, w) else
  if negb inline && negb (volume_id (f_lay f) =? 0) then (0, f, w) else
  let '(f, w) := if inline then flush w f else (f, w) in
  let f := gap G_align f in
  let inline := placement (f_lay f) =? POWERFS_PLACEMENT_INLINE in
  if layout_aligned f then (0, f, w) else
  if negb inline && negb (volume_id (f_lay f) =? 0) then (0, f, w) else
  if inline then (- EAGAIN, f, w) else
  let '(ret, f, w) := powerfs_migrate_inline_out w (set_aligned f true) in
  (if ret <? 0 then ret else 1, f, w).

(** ** [powerfs_write_end] *)

(** A layout after [memset]. *)
Definition zero_layout : powerfs_file_layout :=
  mk_layout (mk_pinfo 0 false 0 0 0 0) (mk_rinfo 0 false 0 0) 0 0 no_array 0 no_array no_array no_array.

(** The inline data the server has, if GETATTR brings them. *)
Definition recover_inline (w : W) (f : file_inode) : option buffer * Z * W :=
  let o := mk_attr None None None (Some 0) None None None None None None
             (Some zero_layout) None None None None None in
  let '(gerr, o, w) := powerfs_net_getattr w (f_ino f) o in
  match at_layout o with
  | Some l =>
      let a := l_inline l in
      match arr a with
      | Some data => if (gerr =? 0) && arr_has a && (arr_count a >? 0) then (Some data, arr_count a, w) else (None, 0, w)
      | None => (None, 0, w)
      end
  | None => (None, 0, w)
  end.

(** The new buffer: the old bytes and zeros behind them; what [kmalloc] gave
    where neither is written. *)
Definition grown_buf (old : option buffer) (old_len need_len : Z) : buffer :=
  let b := take (Z.to_nat need_len) (junk ++ replicate (Z.to_nat need_len) 0) in
  let b := match old with Some o => blit b 0 (take (Z.to_nat old_len) o) | None => b end in
  if need_len >? old_len then take (Z.to_nat old_len) b ++ replicate (Z.to_nat (need_len - old_len)) 0 else b.

(** Growing [inline_data]; [false] when there is no memory. *)
Definition grow_inline (w : W) (f : file_inode) (need_len : Z) : bool * file_inode * W :=
  let i := f_inline f in
  if bool_decide (is_Some (inline_data i)) && (need_len <=? inline_len i) then (true, f, w) else
  let f := set_inline f (mk_inline None 0 (inline_dirty i) (inline_max_size i)) in
  let '(old, old_len, need_len, w) :=
    match inline_data i with
    | None =>
        if f_size f >? 0 then
          match recover_inline w f with
          | (Some data, len, w) => (Some data, len, Z.max need_len len, w)
          | (None, _, w) => (None, inline_len i, need_len, w)
          end
        else (None, inline_len i, need_len, w)
    | old => (old, inline_len i, need_len, w)
    end in
  let f := gap G_grow f in
  let i := f_inline f in
  let install d n := set_inline f (mk_inline d n (inline_dirty i) (inline_max_size i)) in
  let free := match inline_data i with None => true | Some _ => false end in
  if negb (alloc FA_buf) then (false, if free then install old old_len else f, w)
  else (true, if free then install (Some (grown_buf old old_len need_len)) need_len else f, w).

Definition copy_inline (f : file_inode) (pos copied : Z) (src : buffer) : file_inode :=
  let i := f_inline f in
  match inline_data i with
  | Some b =>
      if pos + copied <=? inline_len i
      then set_inline f (mk_inline (Some (blit b pos (take (Z.to_nat copied) src))) (inline_len i) true (inline_max_size i))
      else f
  | None => f
  end.

Definition migrate_threshold (i : inline_part) : Z := Z.min (u32 (inline_max_size i * 3) / 2) POWERFS_INLINE_MAX_SIZE.

(** The end of the staging: result of the call and whether the references on
    capabilities were put. *)
Definition migrate_if_due (w : W) (f : file_inode) (copied : Z) : Z * bool * file_inode * W :=
  if inline_len (f_inline f) >=? migrate_threshold (f_inline f) then
    let '(ret, f, w) := powerfs_migrate_inline_out w f in
    (if ret <? 0 then ret else copied, true, f, w)
  else (copied, true, f, w).

Definition stage_inline (w : W) (f : file_inode) (pos copied : Z) (src : buffer) : Z * bool * file_inode * W :=
  let end_pos := pos + copied in
  let need_len := Z.min end_pos POWERFS_INLINE_MAX_SIZE in
  let copied := if end_pos >? POWERFS_INLINE_MAX_SIZE then Z.min copied (u32 (POWERFS_INLINE_MAX_SIZE - pos)) else copied in
  if copied =? 0 then (- EFBIG, false, f, w) else
  let '(ok, f, w) := grow_inline w f need_len in
  if negb ok then (copied, true, f, w) else
  migrate_if_due w (copy_inline f pos copied src) copied.

(** [folio_mark_dirty] through [powerfs_dirty_folio], [powerfs_cap_mark_dirty]. *)
Definition dirty_folio (f : file_inode) (idx : nat) : file_inode :=
  let f := set_pages f (alter (fun p => mk_cpage true (cp_locked p)) idx (f_pages f)) in
  if f_shutdown f then f else add_dirty_caps f POWERFS_CAP_WR_DATA.

(** [idx]: the page of the write among [f_pages]; [src]: the page from the
    position of the write on; [uptodate]: the flag of the page, before and
    after. *)
Definition powerfs_write_end (w : W) (f : file_inode) (idx : nat) (pos len copied : Z) (src : buffer) (uptodate : bool)
  : Z * bool * bool * file_inode * W :=
  if copied <=? 0 then (copied, true, uptodate, f, w) else
  if negb uptodate && (copied <? len) then (0, true, uptodate, f, w) else
  let f := add_dirty_caps (dirty_folio f idx) POWERFS_CAP_FILE_WR in
  let f := if pos + copied >? f_size f then set_size f (pos + copied) else f in
  if (placement (f_lay f) =? POWERFS_PLACEMENT_INLINE) || negb (layout_aligned f) then
    let '(ret, put, f, w) := stage_inline w f pos copied src in (ret, put, true, f, w)
  else (copied, true, true, f, w).

End ops.

(** ** The allocation that the server answers *)

Lemma le64_at_u64 b p : bytes_ok b -> is_u64 (le64_at b p).
Proof.
  intros Hb. unfold is_u64. rewrite (le64_at_combine b Hb). apply (le_combine_range [_; _; _; _; _; _; _; _]).
  repeat (constructor; [by apply byte_at_range|]). constructor.
Qed.

Lemma find_u64_u64 d field v : dec_wf d -> snd (fst (powerfs_tlv_dec_find_u64 d field)) = Some v -> is_u64 v.
Proof.
  intros Hw. unfold powerfs_tlv_dec_find_u64. destruct (find_from_start _ d) as [d' l| |] eqn:E; [|done..]. cbn. intros [= <-].
  apply find_from_start_wf in E as ((_ & _ & _ & Hb) & _); [|done]. by apply le64_at_u64.
Qed.

Definition pair_u64 (p : Z * Z) : Prop := is_u64 p.1 /\ is_u64 p.2.

(** The loop ends within the fuel, and what it collects are 64-bit numbers. *)
Lemma collect_pairs_spec fuel d count vid acc :
  dec_wf d -> (Z.to_nat (dec_len d - dec_pos d) < fuel)%nat -> is_u64 vid -> Forall pair_u64 acc ->
  exists l, collect_pairs fuel d count vid acc = Some l /\ Forall pair_u64 l.
Proof.
  revert d vid acc. induction fuel as [|fuel IH]; intros d vid acc Hw Hf Hv Ha; [lia|]. cbn [collect_pairs].
  destruct (powerfs_tlv_dec_is_empty d || negb (Z.of_nat (length acc) <? count)) eqn:He; [by exists acc|].
  rewrite dec_next_spec by done. destruct (dec_pos d + 5 >? dec_len d) eqn:E1; [by exists acc|].
  destruct (dec_pos d + 5 + hdr_length d >? dec_len d) eqn:E2; [by exists acc|]. cbn [Z.ltb Z.compare].
  pose proof Hw as (Hp & Hl & Hs & Hb). pose proof (be32_at_range (dec_buf d) (dec_pos d + 1) Hb) as Hr.
  fold (hdr_length d) in Hr. unfold is_u32 in Hr. bool_to_prop. cbn [dec_buf dec_pos set_pos].
  set (d1 := set_pos (set_pos d (dec_pos d + 5)) (dec_pos d + 5 + hdr_length d)).
  assert (Hw1 : dec_wf d1) by (apply set_pos_wf; [apply set_pos_wf; [done|lia]|cbn; lia]).
  assert (Hf1 : (Z.to_nat (dec_len d1 - dec_pos d1) < fuel)%nat) by (cbn; lia).
  pose proof (le64_at_u64 (dec_buf d) (dec_pos d + 5) Hb) as Hu.
  case_if; [case_if|]; apply IH; try done.
  apply Forall_app. split; [done|]. by constructor.
Qed.

Definition alloc_ok (a : alloc_result) : Prop :=
  pair_u64 (write_address a) /\
  (ar_is_stripe a = true -> 0 <= ar_stripe_size a < 2 ^ 64 /\ 0 < ar_stripe_count a <= 16 /\
     Z.of_nat (length (ar_allocs a)) = ar_stripe_count a).

Lemma parse_migrate_ok al resp a : bytes_ok resp -> blen resp < 2 ^ 63 -> parse_migrate_alloc al resp = (0, a) -> alloc_ok a.
Proof.
  intros Hb Hl. unfold parse_migrate_alloc. pose proof (dec_init_wf resp Hb Hl) as Hw. set (d := powerfs_tlv_dec_init resp (blen resp)) in *.
  case_if.
  - destruct (default 0 _ >? 16) eqn:E16; [done|]. destruct (al FA_pairs); cbn [negb]; [|done].
    destruct (collect_pairs_spec (find_fuel d) d (default 0 (snd (fst (powerfs_tlv_dec_find_u32 d POWERFS_NET_FLD_STRIPE_COUNT)))) 0 [])
      as (l & -> & Hl'); [done|unfold find_fuel; cbn; lia|done|constructor|].
    destruct (Z.of_nat (length l) =? _) eqn:En; cbn [negb]; [|done]. intros [= <-]. bool_to_prop. split.
    + unfold write_address. cbn. destruct Hl' as [|p l Hp _]; [cbn in En; lia|done].
    + intros _. cbn. split; [|lia]. destruct (snd (fst (powerfs_tlv_dec_find_u64 d POWERFS_NET_FLD_STRIPE_SIZE))) eqn:Es; [|done].
      by apply find_u64_u64 in Es.
  - destruct (snd (fst (powerfs_tlv_dec_find_u64 d POWERFS_NET_FLD_VOLUME_ID))) as [v|] eqn:Ev; [|done].
    destruct (snd (fst (powerfs_tlv_dec_find_u64 d POWERFS_NET_FLD_FILE_KEY))) as [k|] eqn:Ek; [|done].
    intros [= <-]. apply find_u64_u64 in Ev; [|done]. apply find_u64_u64 in Ek; [|done]. by split.
Qed.

(** ** The first chunk after the switch *)

(** What the server must have chosen: numbers that are not zero, and a stripe
    unit that is a whole number of chunks. *)
Definition placed (pi : layout_inode) : Prop :=
  volume_id pi <> 0 /\ file_key pi <> 0 /\ (POWERFS_CHUNK_SIZE | stripe_size (pi_stripe pi)).

Lemma first_chunk_located al pi a o :
  alloc_ok a -> chunks (pi_chunks pi) = None -> start_volume_idx (pi_stripe pi) = 0 -> placed (switch_layout al pi a) ->
  0 <= o < POWERFS_CHUNK_SIZE ->
  powerfs_locate_chunk (switch_layout al pi a) o = At (write_address a).1 (write_address a).2.
Proof.
  intros (Hu & Hst) Hc Hs0 Hpl Ho. assert (Hq : u64 (o ÷ POWERFS_CHUNK_SIZE) = 0) by (rewrite Z.quot_small by lia; done).
  assert (Hflat : forall vid key s, is_u64 key -> vid <> 0 -> key <> 0 ->
    powerfs_locate_chunk (switch_flat pi vid key s) o = At vid key).
  { intros vid key s Hk Hv Hn. unfold powerfs_locate_chunk, switch_flat. cbn. rewrite Hc. unfold locate_computed, locate_flat. cbn.
    change (POWERFS_CHUNK_SIZE =? 0) with false. cbv iota. rewrite Hq.
    rewrite !(proj2 (Z.eqb_neq _ 0)) by done. rewrite Z.add_0_r, u64_small by done. by destruct (volume_ids s). }
  unfold switch_layout in *. destruct (ar_is_stripe a) eqn:Ea.
  - unfold write_address in *. rewrite Ea in *. destruct (Hst eq_refl) as (Hsz & Hn & Hlen).
    destruct (ar_allocs a) as [|[vid key] rest] eqn:El; [cbn in Hlen; lia|]. cbn [head default from_option id fst snd] in *.
    destruct Hu as [_ Hk]. cbn [fst snd] in Hk.
    destruct (negb (al FA_vids) || negb (al FA_keys)).
    { rewrite ?El in *. destruct Hpl as (H1 & H2 & _). apply Hflat; done. }
    set (p := switch_stripe pi a) in *.
    assert (Hp : is_stripe (placement p) = true /\ chunk_size_of p = POWERFS_CHUNK_SIZE /\ start_volume_idx (pi_stripe p) = 0 /\
      pi_stripe p = mk_stripe (ar_stripe_size a) (ar_stripe_count a) 0 (Some (vid :: (fst <$> rest))) (ar_stripe_count a) (Some (key :: (snd <$> rest)))).
    { unfold p, switch_stripe. rewrite El. cbn [head default from_option id placement pi_stripe start_volume_idx]. by rewrite Hs0. }
    destruct Hp as (P1 & P2 & P3 & P4). destruct Hpl as (_ & _ & Hdiv). rewrite P4 in Hdiv. cbn in Hdiv.
    assert (Hg : geometry p).
    { unfold geometry. rewrite P2, P4. cbn. assert (layout_chunk_size p = POWERFS_CHUNK_SIZE) as ->.
      { unfold p, switch_stripe. by rewrite El. } unfold POWERFS_CHUNK_SIZE at 1 2. split_and!; try lia; done. }
    rewrite (locate_stripe_file p (vid :: (fst <$> rest)) o Hg P1); [|by rewrite P4|rewrite P4; cbn; lia|unfold POWERFS_CHUNK_SIZE in Ho; lia].
    rewrite P2, Z.div_small by done. pose proof (units_pos p Hg). unfold stripe_address, slot_of, vol_chunk. rewrite P4. cbn [volume_ids_count start_volume_idx stripe_needle_keys].
    rewrite (Z.div_0_l (units_of p)), (Z.mod_0_l (ar_stripe_count a)), (Z.div_0_l (ar_stripe_count a)) by lia. rewrite (Z.mod_0_l (units_of p)) by lia.
    change (0 + 0) with 0. rewrite Z.mod_0_l by lia. change (Z.to_nat 0) with 0%nat. cbn [lookup list_lookup]. rewrite Z.mul_0_l, !Z.add_0_r, u64_small by done. done.
  - unfold write_address in *. rewrite Ea in *. destruct Hu as [_ Hk]. cbn [fst snd] in *. destruct Hpl as (H1 & H2 & _). by apply Hflat.
Qed.

(** ** What a migration does *)

Section kept.
Context {W : Type} `{NT : !NetTransport W} `{VT : !VolumeTransport W} `{VS : !VolumeServers W}
        `{NOK : !NetTransportOk W} `{OK : !VolumeServersOk W}.
Context (alloc : fl_alloc -> bool) (lalloc : layout_alloc -> bool) (route : Z -> Z) (junk : buffer)
        (gap : fl_gap -> file_inode -> file_inode) (flush : W -> file_inode -> file_inode * W).

(** Requests to the filer leave the needles alone; other threads leave the
    layout and the size of this inode alone; the flush of the create may set
    the placement, as [backfill] of [Create] does. *)
Hypothesis filer_same : forall w msg ino body cap ret resp w',
  net_send_request w msg ino body cap = (ret, resp, w') -> same_needles w w'.
Hypothesis gap_calm : forall g f, f_lay (gap g f) = f_lay f /\ f_size (gap g f) = f_size f /\ f_ino (gap g f) = f_ino f.
Hypothesis flush_ok : forall w f f' w', flush w f = (f', w') ->
  same_needles w w' /\ f_ino f' = f_ino f /\ f_size f' = f_size f /\ pi_inline (f_lay f') = pi_inline (f_lay f) /\
  pi_stripe (f_lay f') = pi_stripe (f_lay f) /\ pi_chunks (f_lay f') = pi_chunks (f_lay f).

(** No chunk list, and striping starts with the first volume. *)
Definition plain_layout (f : file_inode) : Prop :=
  chunks (pi_chunks (f_lay f)) = None /\ start_volume_idx (pi_stripe (f_lay f)) = 0 /\ is_u64 (f_ino f).

(** The file has left the inode, and its first chunk is [data], followed by
    what the needle held or by nothing. *)
Definition moved (w w' : W) (f' : file_inode) (data : buffer) : Prop :=
  f_inline f' = drop_inline (f_inline f') /\ layout_aligned f' = true /\
  Forall (fun p => cp_dirty p || cp_locked p = true) (f_pages f') /\
  (placed (f_lay f') -> forall o, 0 <= o < POWERFS_CHUNK_SIZE ->
     file_byte w' (f_lay f') o = (if o <? blen data then byte_at data o else file_byte w (f_lay f') o) \/
     blen data <= o /\ file_byte w' (f_lay f') o = 0).

Lemma migrate_alloc_ok w shard ino b ret a w' :
  powerfs_net_migrate_inline_alloc alloc w shard ino b = (ret, a, w') ->
  same_needles w w' /\ (ret < 0 \/ ret = 0 /\ alloc_ok a).
Proof.
  unfold powerfs_net_migrate_inline_alloc. destruct (alloc FA_resp); cbn [negb]; [|intros [= <- <- <-]; split; [done|by left]].
  destruct (net_send_request _ _ _ _ _) as [[r resp] w1] eqn:Hs. pose proof (filer_same _ _ _ _ _ _ _ _ Hs) as Hn.
  apply filer_response_ok in Hs as (Hr & Hb & Hc); [|done]. destruct (rpc_status r) as [e|] eqn:He.
  - intros [= <- <- <-]. split; [done|]. left. by eapply rpc_status_neg.
  - destruct (parse_migrate_alloc alloc resp) as [r' a'] eqn:Hp. intros [= <- <- <-]. split; [done|].
    destruct (decide (r' = 0)) as [->|Hne]; [right; split; [done|]; eapply parse_migrate_ok; [exact Hb|lia|exact Hp]|].
    left. revert Hp. unfold parse_migrate_alloc. repeat case_match; intros [= <- <-]; done.
Qed.

Lemma switched_fields f a :
  f_lay (switched alloc f a) = switch_layout alloc (f_lay f) a /\ layout_aligned (switched alloc f a) = true /\
  f_size (switched alloc f a) = f_size f /\ Forall (fun p => cp_dirty p || cp_locked p = true) (f_pages (switched alloc f a)).
Proof.
  unfold switched. assert (Hp : Forall (fun p => cp_dirty p || cp_locked p = true) (redirty_page <$> f_pages f)).
  { apply Forall_fmap, Forall_forall. intros p _. unfold redirty_page. cbn. by destruct (cp_dirty p) eqn:E1, (cp_locked p) eqn:E2; cbn; rewrite ?E1, ?E2. }
  case_if; by split_and!.
Qed.

Lemma switch_drops f a : pi_inline (switch_layout alloc f a) = drop_inline (pi_inline f).
Proof. unfold switch_layout, switch_stripe. repeat case_match; done. Qed.

Lemma write_needle_status w v n ino data ret w' : powerfs_net_write_needle w v n ino data None = (ret, w') -> ret <= 0.
Proof.
  unfold powerfs_net_write_needle. destruct (powerfs_net_send_to_volume _ _ _ _ _ _ _) as [[r ?] ?] eqn:Es.
  intros [= <- _]. apply rpc_result_nonpos. by eapply send_to_volume_status.
Qed.

(** The common part of both outcomes. *)
Definition migrated (w w' : W) (f f' : file_inode) (data : buffer) (ret : Z) : Prop :=
  f_size f' = f_size f /\ inline_max_size (f_inline f') = inline_max_size (f_inline f) /\
  (ret < 0 /\ f_inline f' = f_inline f \/ ret = 0 /\ moved w w' f' data).

Lemma migrate_snap_spec w f data ret f' w' :
  plain_layout f -> blen data <= POWERFS_CHUNK_SIZE ->
  migrate_snap alloc route gap flush w f data = (ret, f', w') -> migrated w w' f f' data ret.
Proof.
  intros (Hc & Hs0 & Hi) Hd. unfold migrate_snap. destruct (flush w f) as [f1 w1] eqn:Hfl.
  apply flush_ok in Hfl as (N1 & Ei & Esz & Einl & Estr & Ech).
  destruct (powerfs_net_migrate_inline_alloc _ _ _ _ _) as [[r a] w2] eqn:Ha. apply migrate_alloc_ok in Ha as [N2 Ha].
  assert (Hkeep : forall r' w3, r' < 0 -> (r', f1, w3) = (ret, f', w') -> migrated w w' f f' data ret).
  { intros r' w3 Hr [= <- <- <-]. unfold migrated, f_inline. rewrite Einl. split_and!; auto. }
  destruct (Z.ltb_spec r 0); [by apply Hkeep|]. destruct Ha as [Ha|[-> Ha]]; [lia|].
  destruct (write_address a) as [vid nid] eqn:Hwa. destruct (powerfs_net_write_needle _ _ _ _ _ _) as [r w3] eqn:Hw.
  pose proof (write_needle_status _ _ _ _ _ _ _ Hw). destruct (Z.ltb_spec r 0); [by apply Hkeep|]. assert (r = 0) as -> by lia.
  intros [= <- <- <-]. destruct (gap_calm G_rpc f1) as (G1 & G2 & _).
  destruct (switched_fields (gap G_rpc f1) a) as (L1 & L2 & L3 & L4). unfold migrated, f_inline. rewrite L1, L3, G1, G2, switch_drops, Einl.
  split; [done|]. split; [done|]. right. split; [done|]. unfold moved, f_inline. rewrite L1, G1, switch_drops, Einl. split; [done|]. split; [done|]. split; [done|].
  intros Hpl o Ho. destruct Ha as [Hu Hst]. pose proof Hu as [Hv Hn]. rewrite Hwa in Hv, Hn. cbn [fst snd] in Hv, Hn.
  apply write_needle_served in Hw; [|done|done|by rewrite Ei|done|done].
  pose proof (first_chunk_located alloc (f_lay f1) a o ltac:(done) ltac:(by rewrite Ech) ltac:(by rewrite Estr) Hpl Ho) as Hloc.
  rewrite Hwa in Hloc. cbn [fst snd] in Hloc. unfold file_byte. rewrite !(content_needle _ _ _ _ _ Hloc).
  rewrite Z.mod_small by done. rewrite <- (N1 vid nid), <- (N2 vid nid). apply put_byte; [done|lia].
Qed.

Lemma migrate_spec w f data ret f' w' :
  plain_layout f -> inline_data (f_inline f) = Some data -> inline_len (f_inline f) = blen data -> blen data <= POWERFS_CHUNK_SIZE ->
  powerfs_migrate_inline_out alloc route gap flush w f = (ret, f', w') -> migrated w w' f f' data ret.
Proof.
  intros Hp Hd Hl Hb. unfold powerfs_migrate_inline_out. rewrite Hd.
  assert (Hkeep : forall r, r < 0 -> (r, f, w) = (ret, f', w') -> migrated w w' f f' data ret).
  { intros r Hr [= <- <- <-]. split_and!; auto. }
  case_if; [by apply Hkeep|]. destruct (alloc FA_snap); cbn [negb]; [|by apply Hkeep].
  destruct (gap_calm G_snap f) as (G1 & G2 & G3). unfold f_inline in *. rewrite G1, Hd, Hl, Z.eqb_refl, take_blen.
  intros Hm. apply migrate_snap_spec in Hm; [|unfold plain_layout in *; by rewrite G1, G3|done].
  unfold migrated, f_inline in *. by rewrite G1, G2 in Hm.
Qed.

(** ** Growing and copying *)




(** *** The data of the server *)







(** [inline_len] is the length of the data, 0 without data. *)
Definition inline_sized (f : file_inode) : Prop := inline_len (f_inline f) = match inline_data (f_inline f) with Some b => blen b | None => 0 end.






(** ** Writing *)



Lemma moved_same w w1 w' f data : same_needles w w1 -> moved w1 w' f data -> moved w w' f data.
Proof.
  intros Hs (H1 & H2 & H3 & H4). split_and!; try done. intros Hp o Ho. destruct (H4 Hp o Ho) as [E|E]; [left|by right]. rewrite E. case_if; [done|].
  unfold file_byte. by rewrite (same_content w w1).
Qed.




(** C34. Migration keeps the data.  If requests to the filer leave the needles
    alone, other threads leave the layout of the inode alone while its lock is
    dropped, and the file has no chunk list and stripes from its first volume
    on: [powerfs_migrate_inline_out] on a file with inline data either fails
    and leaves them in the inode, or returns 0, has freed them, has marked the
    pages of the file dirty, and, provided the server chose volume and needle
    ids that are not 0 and a stripe size that fits ([placed]), the first chunk
    of the file, where the new layout finds it, is the inline data; behind
    them it is what the needle held, or nothing when a WRITE shortens a needle.
    This holds for Flat and Stripe layouts and when the arrays of a Stripe
    layout cannot be allocated. *)
Theorem migrate_keeps_data (w w' : W) (f f' : file_inode) (data : buffer) (ret : Z) :
  plain_layout f -> inline_data (f_inline f) = Some data -> inline_len (f_inline f) = blen data ->
  blen data <= POWERFS_INLINE_MAX_SIZE ->
  powerfs_migrate_inline_out alloc route gap flush w f = (ret, f', w') ->
  ret < 0 /\ f_inline f' = f_inline f \/ ret = 0 /\ moved w w' f' data.
Proof.
  intros Hp Hd Hl Hm H. apply (migrate_spec w f data) in H as (_ & _ & H); try done.
  unfold POWERFS_INLINE_MAX_SIZE, POWERFS_CHUNK_SIZE in *. lia.
Qed.


(** Before a commit: the call returns 1 exactly if the data left the inode,
    and otherwise the inline data are as they were. *)
Theorem align_outcome (w w' : W) (f f' : file_inode) (ret : Z) :
  inline_sized f -> plain_layout f -> inline_len (f_inline f) <= POWERFS_INLINE_MAX_SIZE ->
  powerfs_align_inline_before_commit alloc route gap flush w f = (ret, f', w') ->
  ret <= 0 /\ f_inline f' = f_inline f \/
  ret = 1 /\ exists data, inline_data (f_inline f) = Some data /\ moved w w' f' data.
Proof.
  intros Hsz Hpl Hmax. unfold powerfs_align_inline_before_commit.
  assert (Hzero : forall r fx wx, r <= 0 -> f_inline fx = f_inline f -> (r, fx, wx) = (ret, f', w') ->
    ret <= 0 /\ f_inline f' = f_inline f \/ ret = 1 /\ exists data, inline_data (f_inline f) = Some data /\ moved w w' f' data).
  { intros r fx wx Hr Hi [= <- <- <-]. by left. }
  match goal with |- context [if layout_aligned f || ?s then _ else _] => destruct (layout_aligned f || s) eqn:Hst end; [by apply Hzero|].
  apply orb_false_iff in Hst as [_ Hst]. apply negb_false_iff, andb_true_iff in Hst as [Hst _]. apply andb_true_iff in Hst as [_ Hst].
  apply bool_decide_eq_true in Hst as [data Hd]. unfold inline_sized in Hsz. rewrite Hd in Hsz.
  case_if; [by apply Hzero|].
  destruct (if placement (f_lay f) =? POWERFS_PLACEMENT_INLINE then flush w f else (f, w)) as [f1 w1] eqn:Hfl.
  assert (F1 : same_needles w w1 /\ f_inline f1 = f_inline f /\ plain_layout f1).
  { case_if_in Hfl; [|by simplify_eq]. apply flush_ok in Hfl as (N & Ei & _ & E1 & E2 & E3). unfold f_inline, plain_layout in *. by rewrite E1, E2, E3, Ei. }
  destruct F1 as (N1 & I1 & P1). destruct (gap_calm G_align f1) as (G1 & _ & G3). set (f2 := gap G_align f1) in *.
  assert (I2 : f_inline f2 = f_inline f) by (unfold f_inline in *; by rewrite G1).
  case_if; [by apply Hzero|]. case_if; [by apply Hzero|]. case_if; [apply Hzero; [unfold EAGAIN; lia|exact I2]|].
  destruct (powerfs_migrate_inline_out _ _ _ _ w1 (set_aligned f2 true)) as [[r f3] w2] eqn:Hm.
  apply (migrate_spec _ _ data) in Hm as (_ & _ & Hm); [| |by rewrite <- Hd, <- I2|by rewrite <- Hsz, <- I2|].
  - destruct Hm as [[Hr Hi]|[-> Hmv]].
    + apply Hzero; [case_if; lia|]. rewrite Hi. exact I2.
    + intros [= <- <- <-]. right. split; [done|]. exists data. split; [done|]. by eapply moved_same.
  - unfold plain_layout in *. cbn [set_aligned f_lay f_ino]. by rewrite G1, G3.
  - unfold POWERFS_INLINE_MAX_SIZE, POWERFS_CHUNK_SIZE in *. lia.
Qed.

End kept.

(** ** Examples *)

Module Sample.
Import Volume.Sample.

(** A filer that places every file on volume 1 with key 100 and has no inline
    data. *)
Definition placed_at : buffer := ops_message [OpU64 POWERFS_NET_FLD_VOLUME_ID 1; OpU64 POWERFS_NET_FLD_FILE_KEY 100].

Lemma placed_at_ok : bytes_ok placed_at.
Proof.
  assert (H : forallb (fun x => (0 <=? x) && (x <? 256)) placed_at = true) by (vm_compute; reflexivity).
  apply Forall_forall. intros x Hx. apply list_elem_of_In in Hx. apply forallb_forall with (x := x) in H; [|done].
  apply andb_true_iff in H as [H1 H2]. lia.
Qed.

Definition filer_answer (w : world) (msg cap : Z) : Z * buffer * world :=
  (0, if msg =? POWERFS_NET_MSG_MIGRATE_INLINE_ALLOC then take (Z.to_nat cap) placed_at else [], w).

#[export] Instance sample_filer : NetTransport world := {
  net_jiffies := fun _ => 0;
  net_kvmalloc := fun _ _ => true;
  net_send_to_volume := fun w _ _ _ _ => (0, [], w);
  net_send_request := fun w msg _ _ cap => filer_answer w msg cap
}.

#[export] Instance sample_filer_ok : NetTransportOk world.
Proof.
  split.
  - intros w vol msg body cap ret resp w' Hc [= <- <- <-]. split; [done|]. split; [constructor|done].
  - intros w msg ino body cap ret resp w' Hc [= <- <- <-]. split; [done|]. case_if; [|split; [constructor|done]].
    split; [|by apply blen_take_max].
    apply bytes_ok_take, placed_at_ok.
Qed.

Definition grant_all (a : fl_alloc) : bool := true.
Definition no_memory (a : fl_alloc) : bool := match a with FA_buf => false | _ => true end.
Definition layouts_ok (a : layout_alloc) : bool := true.
Definition alone (g : fl_gap) (f : file_inode) : file_inode := f.
Definition no_flush (w : world) (f : file_inode) : file_inode * world := (f, w).

Definition lay (place vid : Z) (data : option buffer) (dirty : bool) : layout_inode :=
  mk_linode place 0 0 0 vid 0 (mk_inline data (match data with Some b => blen b | None => 0 end) dirty 8192) no_stripe no_chunks.
Definition small (place : Z) (data : option buffer) (dirty aligned : bool) (size : Z) : file_inode :=
  mk_file 5 1 size (lay place 0 data dirty) aligned 0 false [mk_cpage false false; mk_cpage false true].

Definition abc : file_inode := small POWERFS_PLACEMENT_INLINE (Some [97; 98; 99]) true true 3.
Definition up : world := mk_world one_server ∅ [].
Definition down : world := mk_world one_server ∅ [1].

Definition migrate (w : world) (f : file_inode) := powerfs_migrate_inline_out grant_all (fun x => x) alone no_flush w f.
Definition write (al : fl_alloc -> bool) (w : world) (f : file_inode) (pos copied : Z) (src : buffer) :=
  powerfs_write_end al layouts_ok (fun x => x) [] alone no_flush w f 0 pos copied copied src true.
Definition align (w : world) (f : file_inode) := powerfs_align_inline_before_commit grant_all (fun x => x) alone no_flush w f.

Definition abc_moved : file_inode :=
  mk_file 5 1 3 (mk_linode POWERFS_PLACEMENT_FLAT 0 0 POWERFS_CHUNK_SIZE 1 100 (mk_inline None 0 false 8192) no_stripe no_chunks)
    true POWERFS_CAP_WR_DATA false [mk_cpage true false; mk_cpage false true].
Definition abc_stored : world := mk_world one_server {[(1, 100) := [97; 98; 99]]} [].

Lemma migrate_abc : migrate up abc = (0, abc_moved, abc_stored).
Proof. vm_compute. reflexivity. Qed.

Lemma abc_placed : placed (f_lay abc_moved).
Proof. split; [done|]. split; [done|]. apply Z.divide_0_r. Qed.

Lemma sample_filer_same w msg (ino : Z) (body : buffer) cap ret resp w' :
  net_send_request w msg ino body cap = (ret, resp, w') -> same_needles (W := world) w w'.
Proof. by intros [= _ _ <-]. Qed.

Lemma alone_calm g f : f_lay (alone g f) = f_lay f /\ f_size (alone g f) = f_size f /\ f_ino (alone g f) = f_ino f.
Proof. done. Qed.

Lemma no_flush_ok w f f' w' : no_flush w f = (f', w') ->
  same_needles (W := world) w w' /\ f_ino f' = f_ino f /\ f_size f' = f_size f /\ pi_inline (f_lay f') = pi_inline (f_lay f) /\
  pi_stripe (f_lay f') = pi_stripe (f_lay f) /\ pi_chunks (f_lay f') = pi_chunks (f_lay f).
Proof. by intros [= <- <-]. Qed.

Lemma small_plain place data dirty aligned size : plain_layout (small place data dirty aligned size).
Proof. split; [done|]. split; [done|]. done. Qed.

Lemma migrate_keeps_data_witness : file_byte abc_stored (f_lay abc_moved) 1 = 98.
Proof.
  destruct (migrate_keeps_data grant_all (fun x => x) alone no_flush sample_filer_same alone_calm no_flush_ok
    up abc_stored abc abc_moved [97; 98; 99] 0) as [[H _]|[_ (_ & _ & _ & H)]].
  - apply small_plain.
  - reflexivity.
  - reflexivity.
  - done.
  - exact migrate_abc.
  - discriminate H.
  - destruct (H abc_placed 1 ltac:(done)) as [E|[E _]]; [exact E|by destruct E].
Defined.




(** A first write at the size limit is refused, and the references on
    capabilities are not put; one byte further it is accepted. *)
Example first_write_refused :
  let f := small POWERFS_PLACEMENT_INLINE None false true 0 in
  fst (fst (fst (write grant_all up f 8192 1 [7]))) = (- EFBIG, false) /\
  fst (fst (fst (write grant_all up f 8193 1 [7]))) = (1, true).
Proof. vm_compute. split; reflexivity. Qed.

(** Without memory for the buffer the write is reported as done and is not in
    the inline data. *)
Example unstaged_without_memory :
  let f := small POWERFS_PLACEMENT_INLINE (Some [97]) false true 1 in
  let '(ret, _, _, f', _) := write no_memory up f 1 1 [98] in
  ret = 1 /\ inline_data (f_inline f') = Some [97] /\ inline_dirty (f_inline f') = false.
Proof. vm_compute. split; [reflexivity|]. split; reflexivity. Qed.

(** A migration that fails when the layout is aligned is not tried again: the
    second call returns 0 although the server is there, and the file has
    inline data to commit, no volume, and a placement on volumes. *)
Example align_not_retried :
  let f := small POWERFS_PLACEMENT_FLAT (Some [97]) true false 1 in
  let '(r1, f1, _) := align down f in
  let '(r2, f2, _) := align up f1 in
  (r1 <? 0) = true /\ r2 = 0 /\ inline_data (f_inline f2) = Some [97] /\ volume_id (f_lay f2) = 0 /\
  placement (f_lay f2) = POWERFS_PLACEMENT_FLAT.
Proof. vm_compute. split; [reflexivity|]. split; [reflexivity|]. split; [reflexivity|]. split; reflexivity. Qed.

End Sample.
