(* ===== verification/Dio.v ===== *)
(** * Dio: direct I/O

    Models [powerfs_direct_IO] of [src/powerfs_mod/powerfs_addr.c] with its
    two workers: synchronous reads and writes that bypass the page cache, and
    the asynchronous ones, which copy between the pages of the user and a
    buffer.  Files that have no volume yet get one first ([Inline]); the data
    go through the RPCs of [Volume].  The prediction of writes ([Predict]) is
    left out here.

    Shown: for a Flat file what a direct write has stored is what a direct
    read returns; the copy from the pages of the user is right exactly if the
    data start at the beginning of a page or reach its end, and overruns the
    buffer otherwise; the copy to them is always right.  An example shows a
    direct write to a Stripe file that a read does not see. *)

From S2P Require Import Prelude Wire Caps Tlv NetLease EcField Ec Layout CreateRpc Dir Volume Writeback Inline.

(** ** Between user pages and a buffer *)

(** A write of [src] at offset [dst] of a buffer; [None] if it leaves it. *)
Definition copy_to (buf : buffer) (dst : Z) (src : buffer) : option buffer :=
  if (dst <? 0) || (dst + blen src >? blen buf) then None else Some (blit buf dst src).

(** The loop of [powerfs_dio_write_worker]; [first] is [first_page_offset].
    The arithmetic is that of [size_t]. *)
Fixpoint gather (i : Z) (pages : list buffer) (first count : Z) (buf : buffer) : option buffer :=
  match pages with
  | [] => Some buf
  | page :: pages =>
      let off := if i =? 0 then first else 0 in
      let limit := u64 (count - u64 (i * PAGE_SIZE - first)) in
      let this := Z.min (PAGE_SIZE - off) limit in
      match copy_to buf (i * PAGE_SIZE - first + off) (slice page off this) with
      | Some buf => gather (i + 1) pages first count buf
      | None => None
      end
  end.

(** The loop of [powerfs_dio_read_worker]. *)
Fixpoint scatter (first : bool) (off : Z) (pages : list buffer) (data : buffer) : list buffer :=
  match pages with
  | [] => []
  | page :: pages =>
      if blen data =? 0 then page :: pages else
      let page_off := if first then off else 0 in
      let chunk := Z.min (blen data) (PAGE_SIZE - page_off) in
      blit page page_off (take (Z.to_nat chunk) data) :: scatter false off pages (drop (Z.to_nat chunk) data)
  end.

(** ** Writing *)

Definition powerfs_dio_write_can_skip_read (i_size pos count : Z) : bool :=
  if negb (pos mod POWERFS_CHUNK_SIZE =? 0) then false else
  if count >? POWERFS_CHUNK_SIZE then false else
  if count =? POWERFS_CHUNK_SIZE then true else
  u64 (pos + count) >=? i_size.

(** [!pi->volume_id && !pi->file_key && !pi->chunks && !pi->volume_ids] *)
Definition no_mapping (pi : layout_inode) : bool :=
  (volume_id pi =? 0) && (file_key pi =? 0) && bool_decide (chunks (pi_chunks pi) = None) &&
  bool_decide (volume_ids (pi_stripe pi) = None).

Section ops.
Context {W : Type} `{NT : !NetTransport W} `{VT : !VolumeTransport W}.
Context (alloc : fl_alloc -> bool) (route : Z -> Z) (junk : buffer) (crc32 : buffer -> Z) (ec_alloc : alloc_site -> bool)
        (gap : fl_gap -> file_inode -> file_inode) (flush : W -> file_inode -> file_inode * W).

(** A volume for a file that has none. *)
Definition dio_map (w : W) (f : file_inode) : Z * file_inode * W :=
  if no_mapping (f_lay f) then
    let i := f_inline f in
    if (placement (f_lay f) =? POWERFS_PLACEMENT_INLINE) && bool_decide (is_Some (inline_data i)) && (inline_len i >? 0)
    then powerfs_migrate_inline_out alloc route gap flush w f
    else
      let shard_id := route (if f_parent f =? 0 then f_ino f else f_parent f) in
      let '(f, w) := flush w f in
      let '(ret, a, w) := powerfs_net_migrate_inline_alloc alloc w shard_id (f_ino f) false in
      if ret <? 0 then (ret, f, w)
      else
        let pi := f_lay f in
        (0, set_lay f (mk_linode POWERFS_PLACEMENT_FLAT (reliability pi) (reliability_state pi) POWERFS_CHUNK_SIZE
               (ar_volume_id a) (ar_file_key a) (pi_inline pi) (pi_stripe pi) (pi_chunks pi)), w)
  else (0, f, w).

(** The data to the volume: result and bytes written. *)
Definition dio_store (w : W) (f : file_inode) (pos : Z) (data : buffer) : Z * Z * W :=
  let pi := f_lay f in
  if powerfs_dio_write_can_skip_read (f_size f) pos (blen data) then
    let needle_id := u64 (file_key pi + pos ÷ POWERFS_CHUNK_SIZE) in
    let '(ret, w) := powerfs_net_write_needle w (volume_id pi) needle_id (f_ino f) data None in
    (ret, if ret =? 0 then blen data else 0, w)
  else powerfs_net_write junk w (f_ino f) (volume_id pi) (file_key pi) pos data.

(** The part both kinds of write share: result or bytes written. *)
Definition dio_write (w : W) (f : file_inode) (pos : Z) (data : buffer) : Z * file_inode * W :=
  let '(ret, f, w) := dio_map w f in
  if ret <? 0 then (ret, f, w) else
  if no_mapping (f_lay f) then (- EINVAL, f, w) else
  let '(ret, written, w) := dio_store w f pos data in
  if ret <? 0 then (ret, f, w) else
  (written, if pos + written >? f_size f then set_size f (pos + written) else f, w).

(** [wb]: the result of [filemap_write_and_wait_range]; [data]: what
    [copy_from_iter] brings, of [count] bytes. *)
Definition direct_write (w : W) (f : file_inode) (pos count wb : Z) (buf_ok : bool) (data : buffer) : Z * file_inode * W :=
  if count =? 0 then (0, f, w) else
  if wb <? 0 then (wb, f, w) else
  if negb buf_ok then (- ENOMEM, f, w) else
  if negb (blen data =? count) then (- EFAULT, f, w) else dio_write w f pos data.

(** The worker: [None] if it leaves its buffer. *)
Definition powerfs_dio_write_worker (w : W) (f : file_inode) (pos first count : Z) (pages : list buffer) (buf_ok : bool)
  : option (Z * file_inode * W) :=
  if negb buf_ok then Some (- ENOMEM, f, w) else
  match gather 0 pages first count (replicate (Z.to_nat count) 0) with
  | Some data => Some (dio_write w f pos data)
  | None => None
  end.

(** ** Reading *)

(** The bytes read, or an error; [None] as in [powerfs_net_read]. *)
Definition dio_read (w : W) (pi : layout_inode) (pos count : Z) : option (Z * buffer * W) :=
  if placement pi =? POWERFS_PLACEMENT_INLINE then
    let i := pi_inline pi in
    match inline_data i with
    | Some data =>
        if (inline_len i >? 0) && (u64 pos <? inline_len i)
        then Some (0, slice data pos (Z.min (u32 count) (u32 (inline_len i - pos))), w) else Some (0, [], w)
    | None => Some (0, [], w)
    end
  else if no_mapping pi then Some (0, [], w)
  else powerfs_net_read crc32 junk ec_alloc w pi pos count count.

Definition direct_read (w : W) (f : file_inode) (pos count : Z) (buf_ok copy_ok : bool) : option (Z * buffer * W) :=
  if count =? 0 then Some (0, [], w) else
  if negb buf_ok then Some (- ENOMEM, [], w) else
  match dio_read w (f_lay f) pos count with
  | Some (ret, data, w) =>
      if ret <? 0 then Some (ret, [], w) else
      if (blen data >? 0) && negb copy_ok then Some (- EFAULT, [], w) else Some (blen data, data, w)
  | None => None
  end.

(** Result, and the pages of the user. *)
Definition powerfs_dio_read_worker (w : W) (f : file_inode) (pos first count : Z) (pages : list buffer) (buf_ok : bool)
  : option (Z * list buffer * W) :=
  if negb buf_ok then Some (- ENOMEM, pages, w) else
  match dio_read w (f_lay f) pos count with
  | Some (ret, data, w) =>
      if negb (ret =? 0) then Some (ret, pages, w) else Some (blen data, scatter true first pages data, w)
  | None => None
  end.

End ops.

(** ** The copies *)

Definition page_ok (p : buffer) : Prop := blen p = PAGE_SIZE.

(** The second page and the following ones. *)
Lemma gather_tail pages i first count buf :
  Forall page_ok pages -> 0 < i -> 0 <= first < PAGE_SIZE -> i * PAGE_SIZE - first <= count < 2 ^ 62 -> blen buf = count ->
  Z.of_nat (length pages) = (count - (i * PAGE_SIZE - first) + PAGE_SIZE - 1) / PAGE_SIZE ->
  gather i pages first count buf =
  Some (take (Z.to_nat (i * PAGE_SIZE - first)) buf ++ take (Z.to_nat (count - (i * PAGE_SIZE - first))) (mjoin pages)).
Proof.
  intros Hp. revert i buf. induction Hp as [|p pages Hp _ IH]; intros i buf Hi Hf Hc Hb Hn; set (r := count - (i * PAGE_SIZE - first)) in *; cbn [gather].
  - assert (r = 0).
    { cbn in Hn. pose proof (Z.div_mod (r + PAGE_SIZE - 1) PAGE_SIZE ltac:(done)). pose proof (Z.mod_pos_bound (r + PAGE_SIZE - 1) PAGE_SIZE eq_refl).
      unfold PAGE_SIZE in *. lia. }
    rewrite H. cbn [Z.to_nat take]. rewrite app_nil_r, take_blen_le by lia. done.
  - assert (Hr : 0 < r).
    { cbn [length] in Hn. pose proof (Z.div_mod (r + PAGE_SIZE - 1) PAGE_SIZE ltac:(done)). pose proof (Z.mod_pos_bound (r + PAGE_SIZE - 1) PAGE_SIZE eq_refl).
      unfold PAGE_SIZE in *. lia. }
    destruct (Z.eqb_spec i 0); [lia|]. unfold page_ok in Hp.
    rewrite (u64_small (i * PAGE_SIZE - first)) by (unfold PAGE_SIZE in *; lia). fold r. rewrite (u64_small r) by (unfold PAGE_SIZE in *; lia).
    rewrite Z.sub_0_r, Z.add_0_r. set (t := Z.min PAGE_SIZE r).
    assert (Hs : slice p 0 t = take (Z.to_nat t) p) by (unfold slice; done). rewrite Hs.
    assert (Ht : blen (take (Z.to_nat t) p) = t) by (apply blen_take_le; unfold PAGE_SIZE in *; lia).
    unfold copy_to. rewrite Ht. destruct (Z.ltb_spec (i * PAGE_SIZE - first) 0); [unfold PAGE_SIZE in *; lia|].
    cbn [orb]. destruct (Z.gtb_spec (i * PAGE_SIZE - first + t) (blen buf)); [lia|].
    set (b1 := blit buf (i * PAGE_SIZE - first) (take (Z.to_nat t) p)).
    assert (Hb1 : blen b1 = count) by (unfold b1; rewrite blit_length; lia).
    assert (Htk : take (Z.to_nat (i * PAGE_SIZE - first + t)) b1 = take (Z.to_nat (i * PAGE_SIZE - first)) buf ++ take (Z.to_nat t) p).
    { pose proof (blit_take buf (i * PAGE_SIZE - first) (take (Z.to_nat t) p) ltac:(lia) ltac:(lia)) as E. by rewrite Ht in E. }
    cbn [mjoin list_join]. destruct (Z.le_gt_cases r PAGE_SIZE).
    + assert (pages = []) as ->.
      { destruct pages; [done|]. exfalso. cbn [length] in Hn. pose proof (Z.div_mod (r + PAGE_SIZE - 1) PAGE_SIZE ltac:(done)).
        pose proof (Z.mod_pos_bound (r + PAGE_SIZE - 1) PAGE_SIZE eq_refl). unfold PAGE_SIZE in *. lia. }
      cbn [gather]. assert (Et : t = r) by lia. rewrite Et in Htk. cbn [mjoin list_join]. rewrite app_nil_r, <- Htk. f_equal.
      by rewrite take_blen_le by lia.
    + assert (Et : t = PAGE_SIZE) by lia. rewrite IH; [|lia|done|unfold PAGE_SIZE in *; lia|done|].
      2:{ cbn [length] in Hn. replace (count - ((i + 1) * PAGE_SIZE - first) + PAGE_SIZE - 1) with (r + PAGE_SIZE - 1 + (-1) * PAGE_SIZE) by lia.
          rewrite Z.div_add by done. lia. }
      replace ((i + 1) * PAGE_SIZE - first) with (i * PAGE_SIZE - first + t) by lia. rewrite Htk, <- app_assoc. do 2 f_equal.
      rewrite Et, take_blen_le by lia. rewrite take_app_ge by (unfold blen in Hp; lia). do 2 f_equal. unfold blen in Hp. lia.
Qed.

Lemma mjoin_blen (ps : list buffer) : Forall page_ok ps -> blen (mjoin ps) = Z.of_nat (length ps) * PAGE_SIZE.
Proof. induction 1 as [|p ps Hp _ IH]; [done|]. change (mjoin (p :: ps)) with (p ++ mjoin ps). cbn [length]. rewrite blen_app, Hp, IH. lia. Qed.

Lemma gather_outcome pages first count buf :
  Forall page_ok pages -> 0 <= first < PAGE_SIZE -> 0 < count < 2 ^ 62 -> blen buf = count ->
  Z.of_nat (length pages) = (count + first + PAGE_SIZE - 1) / PAGE_SIZE ->
  gather 0 pages first count buf =
  if (first =? 0) || (PAGE_SIZE - first <=? count) then Some (slice (mjoin pages) first count) else None.
Proof.
  intros Hp Hf Hc Hb Hn. destruct Hp as [|p pages Hp Hps].
  { exfalso. cbn in Hn. pose proof (Z.div_mod (count + first + PAGE_SIZE - 1) PAGE_SIZE ltac:(done)).
    pose proof (Z.mod_pos_bound (count + first + PAGE_SIZE - 1) PAGE_SIZE eq_refl). unfold PAGE_SIZE in *. lia. }
  unfold page_ok in Hp. cbn [gather]. rewrite Z.eqb_refl. rewrite Z.mul_0_l, Z.sub_0_l.
  assert (Hl : u64 (count - u64 (- first)) = count + first).
  { unfold u64. rewrite Zminus_mod_idemp_r, Z.sub_opp_r. apply Z.mod_small. unfold PAGE_SIZE in *. lia. }
  rewrite Hl. set (t := Z.min (PAGE_SIZE - first) (count + first)). replace (- first + first) with 0 by lia.
  assert (Ht : blen (slice p first t) = t) by (apply blen_slice; unfold PAGE_SIZE in *; lia).
  unfold copy_to. rewrite Ht, Z.add_0_l. change (0 <? 0) with false. cbn [orb]. rewrite Hb.
  assert (Hjoin : forall n, PAGE_SIZE - first <= n -> slice (p ++ mjoin pages) first n = drop (Z.to_nat first) p ++ take (Z.to_nat (n - (PAGE_SIZE - first))) (mjoin pages)).
  { intros n Hn'. unfold slice. rewrite drop_app_le by (unfold blen in Hp; lia). rewrite take_app_ge by (rewrite length_drop; unfold blen in Hp; lia).
    do 2 f_equal. rewrite length_drop. unfold blen in Hp. lia. }
  change (mjoin (p :: pages)) with (p ++ mjoin pages).
  destruct (Z.leb_spec (PAGE_SIZE - first) count).
  - rewrite orb_true_r. assert (Et : t = PAGE_SIZE - first) by lia. destruct (Z.gtb_spec t count); [lia|].
    assert (Hsl : slice p first t = drop (Z.to_nat first) p).
    { unfold slice. apply take_ge. rewrite length_drop. unfold blen in Hp. lia. }
    set (b1 := blit buf 0 (slice p first t)). assert (Hb1 : blen b1 = count) by (unfold b1; rewrite blit_length; lia).
    change (0 + 1) with 1. rewrite gather_tail; [|done|lia|done|unfold PAGE_SIZE in *; lia|done|].
    2:{ cbn [length] in Hn. replace (count - (1 * PAGE_SIZE - first) + PAGE_SIZE - 1) with (count + first + PAGE_SIZE - 1 + (-1) * PAGE_SIZE) by lia.
        rewrite Z.div_add by done. lia. }
    rewrite Z.mul_1_l, Hjoin by lia. do 2 f_equal. pose proof (blit_take buf 0 (slice p first t) ltac:(lia) ltac:(lia)) as E.
    rewrite Ht, Z.add_0_l, Et in E. unfold b1. rewrite Et, E. cbn [Z.to_nat take app]. by rewrite <- Et, Hsl.
  - destruct (Z.eqb_spec first 0) as [->|Hne]; cbn [orb].
    + assert (Et : t = count) by lia. destruct (Z.gtb_spec t count); [lia|].
      assert (pages = []) as ->.
      { destruct pages; [done|]. exfalso. cbn [length] in Hn. pose proof (Z.div_mod (count + 0 + PAGE_SIZE - 1) PAGE_SIZE ltac:(done)).
        pose proof (Z.mod_pos_bound (count + 0 + PAGE_SIZE - 1) PAGE_SIZE eq_refl). unfold PAGE_SIZE in *. lia. }
      cbn [gather]. cbn [mjoin list_join]. rewrite app_nil_r, Et. f_equal. pose proof (blit_take buf 0 (slice p 0 count) ltac:(lia)) as E.
      rewrite Et in Ht. rewrite Ht, Z.add_0_l in E. specialize (E ltac:(lia)). change (take (Z.to_nat 0) buf ++ slice p 0 count) with (slice p 0 count) in E. transitivity (take (Z.to_nat count) (blit buf 0 (slice p 0 count))); [|exact E].
      symmetry. apply take_blen_le. rewrite blit_length; lia.
    + destruct (Z.gtb_spec t count); [done|lia].
Qed.

Lemma scatter_tail pages off data :
  Forall page_ok pages -> blen data <= Z.of_nat (length pages) * PAGE_SIZE ->
  mjoin (scatter false off pages data) = data ++ drop (length data) (mjoin pages).
Proof.
  intros Hp. revert data. induction Hp as [|p pages Hp _ IH]; intros data Hd.
  - pose proof (blen_nonneg data). cbn in Hd. assert (data = []) as -> by (destruct data; [done|rewrite blen_cons in *; pose proof (blen_nonneg data); lia]). done.
  - unfold page_ok in Hp. cbn [scatter]. destruct (Z.eqb_spec (blen data) 0) as [E|E].
    { destruct data; [done|rewrite blen_cons in E; pose proof (blen_nonneg data); lia]. }
    rewrite Z.sub_0_r. set (t := Z.min (blen data) PAGE_SIZE). pose proof (blen_nonneg data).
    change (mjoin (blit p 0 (take (Z.to_nat t) data) :: scatter false off pages (drop (Z.to_nat t) data)))
      with (blit p 0 (take (Z.to_nat t) data) ++ mjoin (scatter false off pages (drop (Z.to_nat t) data))).
    change (mjoin (p :: pages)) with (p ++ mjoin pages). cbn [length] in Hd.
    assert (Hdl : blen (drop (Z.to_nat t) data) = blen data - t) by (unfold blen in *; rewrite length_drop; lia).
    rewrite IH by (rewrite Hdl; unfold PAGE_SIZE in *; lia).
    unfold blit. change (Z.to_nat 0) with 0%nat. cbn [take app Nat.add]. rewrite <- app_assoc. rewrite length_take.
    destruct (Z.le_gt_cases (blen data) PAGE_SIZE).
    + assert (Et : t = blen data) by lia. rewrite Et, take_blen. unfold blen in *. rewrite Nat2Z.id, drop_all. cbn [length app].
      rewrite drop_app_le by lia. rewrite Nat.min_id, take_0, drop_0. cbn [app]. by rewrite <- app_assoc.
    + assert (Et : t = PAGE_SIZE) by lia. rewrite Et in *. rewrite (drop_ge p) by (unfold blen in *; lia). rewrite take_0, app_nil_r. cbn [app].
      rewrite app_assoc, take_drop. f_equal. rewrite (drop_app_ge p) by (unfold blen in *; lia). f_equal. rewrite length_drop. unfold blen in *. lia.
Qed.

(** C37. The copies of direct I/O.  The loop of [powerfs_dio_write_worker] over
    the pages of the user copies exactly the data of the request if they start
    at the beginning of a page or reach the end of the first page, and leaves
    its buffer otherwise; the loop of [powerfs_dio_read_worker] stores what was
    read in its place in the pages and changes nothing else in them. *)
Theorem copies_exact (pages : list buffer) (first count : Z) (data : buffer) :
  Forall page_ok pages -> 0 <= first < PAGE_SIZE -> 0 < count < 2 ^ 62 ->
  Z.of_nat (length pages) = (count + first + PAGE_SIZE - 1) / PAGE_SIZE -> blen data <= count ->
  gather 0 pages first count (replicate (Z.to_nat count) 0) =
    (if (first =? 0) || (PAGE_SIZE - first <=? count) then Some (slice (mjoin pages) first count) else None) /\
  mjoin (scatter true first pages data) = blit (mjoin pages) first data.
Proof.
  intros Hp Hf Hc Hn Hd. split; [apply gather_outcome; try done; by apply blen_replicate_z; lia|].
  assert (Hroom : count + first <= Z.of_nat (length pages) * PAGE_SIZE).
  { rewrite Hn. pose proof (Z.div_mod (count + first + PAGE_SIZE - 1) PAGE_SIZE ltac:(done)).
    pose proof (Z.mod_pos_bound (count + first + PAGE_SIZE - 1) PAGE_SIZE eq_refl). unfold PAGE_SIZE in *. lia. }
  pose proof (blen_nonneg data). destruct Hp as [|p pages Hp Hps]; [cbn in Hroom; lia|]. unfold page_ok in Hp. cbn [scatter].
  change (mjoin (p :: pages)) with (p ++ mjoin pages). destruct (Z.eqb_spec (blen data) 0) as [E|E].
  { assert (data = []) as -> by (destruct data; [done|rewrite blen_cons in E; pose proof (blen_nonneg data); lia]).
    change (mjoin (p :: pages)) with (p ++ mjoin pages). unfold blit. cbn [app length]. rewrite Nat.add_0_r. by rewrite take_drop. }
  set (t := Z.min (blen data) (PAGE_SIZE - first)).
  change (mjoin (blit p first (take (Z.to_nat t) data) :: scatter false first pages (drop (Z.to_nat t) data)))
    with (blit p first (take (Z.to_nat t) data) ++ mjoin (scatter false first pages (drop (Z.to_nat t) data))).
  assert (Hdl : blen (drop (Z.to_nat t) data) = blen data - t) by (unfold blen in *; rewrite length_drop; lia).
  cbn [length] in Hroom. rewrite scatter_tail; [|done|rewrite Hdl; unfold PAGE_SIZE in *; lia].
  unfold blit. rewrite length_take. rewrite (take_app_le p) by (unfold blen in *; lia). rewrite <- !app_assoc. f_equal.
  destruct (Z.le_gt_cases (blen data) (PAGE_SIZE - first)).
  - assert (Et : t = blen data) by lia. rewrite Et, take_blen. unfold blen in *. rewrite Nat2Z.id, drop_all. cbn [length app].
    rewrite Nat.min_id. rewrite (drop_app_le p) by lia. by rewrite drop_0.
  - assert (Et : t = PAGE_SIZE - first) by lia. rewrite Et in *. rewrite (drop_ge p) by (unfold blen in *; lia). cbn [app].
    rewrite app_assoc, take_drop. f_equal. rewrite (drop_app_ge p) by (unfold blen in *; lia). f_equal. rewrite length_drop. unfold blen in *. lia.
Qed.

(** ** A direct write and a direct read *)

Section stored.
Context {W : Type} `{NT : !NetTransport W} `{VT : !VolumeTransport W} `{VS : !VolumeServers W} `{OK : !VolumeServersOk W}.
Context (alloc : fl_alloc -> bool) (route : Z -> Z) (junk : buffer) (crc32 : buffer -> Z) (ec_alloc : alloc_site -> bool)
        (gap : fl_gap -> file_inode -> file_inode) (flush : W -> file_inode -> file_inode * W).

(** The bytes of a file of [size] bytes after a write of [data] at [pos]: what
    the needle did not have in front of the data comes from the buffer; bytes
    of the chunk behind the data and behind the end of the file may be gone
    (a WRITE that replaces the needle). *)
Definition written_at (w w' : W) (pi : layout_inode) (size pos : Z) (data : buffer) : Prop :=
  forall o, 0 <= o < 2 ^ 63 ->
  file_byte w' pi o =
    (if (pos <=? o) && (o <? pos + blen data) then byte_at data (o - pos)
     else if (o / POWERFS_CHUNK_SIZE =? pos / POWERFS_CHUNK_SIZE)
          && (blen (content w pi pos) <=? o mod POWERFS_CHUNK_SIZE) && (o <? pos)
     then byte_at junk (o mod POWERFS_CHUNK_SIZE) else file_byte w pi o) \/
  (Z.max size (pos + blen data) <= o /\ o / POWERFS_CHUNK_SIZE = pos / POWERFS_CHUNK_SIZE /\ file_byte w' pi o = 0).

(** A chunk that is written from its front. *)
Lemma front_written w w' pi size pos data n :
  flat_file pi -> 0 <= pos < 2 ^ 63 -> pos mod POWERFS_CHUNK_SIZE = 0 -> blen data <= POWERFS_CHUNK_SIZE ->
  blen data = POWERFS_CHUNK_SIZE \/ size <= pos + blen data ->
  n = u64 (file_key pi + pos / POWERFS_CHUNK_SIZE) -> needle_put w w' (volume_id pi) n data ->
  blen data <= blen (content w' pi pos) /\ written_at w w' pi size pos data.
Proof.
  intros Hf Hp Ha Hd Hend -> Hput. pose proof (locate_flat_file pi pos Hf Hp) as Hloc. pose proof Hf as (Hch & _).
  set (n := u64 (file_key pi + pos / POWERFS_CHUNK_SIZE)) in *.
  split.
  { rewrite (content_needle _ _ _ _ _ Hloc). destruct Hput as [[-> | ->] _]; cbn [default from_option id]; [done|rewrite blen_patch; lia]. }
  intros o Ho.
  pose proof (Z.div_mod o POWERFS_CHUNK_SIZE ltac:(done)). pose proof (Z.div_mod pos POWERFS_CHUNK_SIZE ltac:(done)).
  pose proof (Z.mod_pos_bound o POWERFS_CHUNK_SIZE eq_refl) as Hmo. unfold file_byte.
  destruct (Z.eqb_spec (o / POWERFS_CHUNK_SIZE) (pos / POWERFS_CHUNK_SIZE)) as [Eq|Ne]; cbn [andb].
  - rewrite (content_same_chunk w pi o pos), (content_same_chunk w' pi o pos), !(content_needle _ _ _ _ _ Hloc) by done.
    destruct (put_byte _ _ _ _ _ (o mod POWERFS_CHUNK_SIZE) Hput ltac:(lia)) as [-> |[Hge ->]].
    + left. destruct (Z.ltb_spec o pos); [lia|]. rewrite andb_false_r. rewrite (proj2 (Z.leb_le pos o)) by lia. cbn [andb].
      destruct (Z.ltb_spec o (pos + blen data)), (Z.ltb_spec (o mod POWERFS_CHUNK_SIZE) (blen data)); try lia; f_equal; lia.
    + right. split; [|done]. destruct Hend; lia.
  - assert (Hout : (pos <=? o) && (o <? pos + blen data) = false).
    { destruct (Z.leb_spec pos o), (Z.ltb_spec o (pos + blen data)); try done. exfalso. nia. }
    left. rewrite Hout. f_equal. unfold content. rewrite (locate_flat_file pi o) by done. f_equal. apply Hput.
    intros [= En]. apply Ne. by eapply flat_needles_differ.
Qed.

Lemma dio_store_spec w f pos data ret n w' :
  flat_file (f_lay f) -> is_u64 (f_ino f) -> blen junk = POWERFS_CHUNK_SIZE -> 0 <= pos < 2 ^ 63 ->
  dio_store junk w f pos data = (ret, n, w') -> 0 <= ret ->
  n = blen data /\ pos mod POWERFS_CHUNK_SIZE + blen data <= POWERFS_CHUNK_SIZE /\
  pos mod POWERFS_CHUNK_SIZE + blen data <= blen (content w' (f_lay f) pos) /\ written_at w w' (f_lay f) (f_size f) pos data.
Proof.
  intros Hf Hi Hj Hp. unfold dio_store, powerfs_dio_write_can_skip_read. pose proof Hf as (_ & _ & _ & _ & _ & Hvu & Hku).
  assert (Hslow : powerfs_net_write junk w (f_ino f) (volume_id (f_lay f)) (file_key (f_lay f)) pos data = (ret, n, w') -> 0 <= ret ->
    n = blen data /\ pos mod POWERFS_CHUNK_SIZE + blen data <= POWERFS_CHUNK_SIZE /\
    pos mod POWERFS_CHUNK_SIZE + blen data <= blen (content w' (f_lay f) pos) /\ written_at w w' (f_lay f) (f_size f) pos data).
  { intros Hw Hr. assert (ret = 0) as ->.
    { revert Hw Hr. unfold powerfs_net_write. repeat (case_match; try (intros [= <- _ _]; bool_to_prop; (done || lia))). }
    apply (net_write_spec junk w w' (f_lay f)) in Hw as (-> & H1 & H2 & H3); [|done|done|done|done].
    split_and!; try done; [lia|]. intros o Ho. left. by apply H3. }
  destruct (Z.eqb_spec (pos mod POWERFS_CHUNK_SIZE) 0) as [Ha|]; cbn [negb]; [|done].
  destruct (Z.gtb_spec (blen data) POWERFS_CHUNK_SIZE); [done|].
  match goal with |- context [if (if blen data =? POWERFS_CHUNK_SIZE then true else ?c) then _ else _] =>
    assert (Hend : (if blen data =? POWERFS_CHUNK_SIZE then true else c) = true ->
      blen data = POWERFS_CHUNK_SIZE \/ f_size f <= pos + blen data);
    [|destruct (if blen data =? POWERFS_CHUNK_SIZE then true else c); [specialize (Hend eq_refl)|done]] end.
  { destruct (Z.eqb_spec (blen data) POWERFS_CHUNK_SIZE); [by left|]. intros Hc. right. pose proof (blen_nonneg data). unfold POWERFS_CHUNK_SIZE in *.
    rewrite u64_small in Hc by lia. apply Z.geb_le in Hc. exact Hc. }
  rewrite Z.quot_div_nonneg by (done || lia).
  destruct (powerfs_net_write_needle _ _ _ _ _ _) as [r w1] eqn:Hw. pose proof (write_needle_status _ _ _ _ _ _ _ Hw).
  intros [= <- <- <-] Hr. assert (r = 0) as -> by lia. apply write_needle_served in Hw; [|done|apply u64_range|done|done|done].
  eapply front_written in Hw as [H1 H2]; [|done|done|done|done|exact Hend|done]. rewrite Ha. split_and!; try done; lia.
Qed.

(** C36. Direct I/O round trip.  After a direct write to a Flat file without a
    chunk list, replicas or erasure coding has returned the number of its
    bytes, the file has the data in their place and its other bytes as before,
    except in a gap in front of the data that its needle did not have, and
    except that bytes of the written chunk behind the data and behind the old
    end of the file may be gone: the path that skips the read is only taken
    for a whole chunk or up to the end of the file, so this holds whether a
    WRITE replaces a needle or overwrites its front.  The size covers the data,
    and a direct read of the range returns the data or an error. *)
Theorem direct_roundtrip (w w' : W) (f f' : file_inode) (pos n : Z) (data : buffer) :
  flat_file (f_lay f) -> is_u64 (f_ino f) -> blen junk = POWERFS_CHUNK_SIZE -> reliability (f_lay f) <> POWERFS_RELIABILITY_EC ->
  replica_chunks (pi_chunks (f_lay f)) = None -> 0 <= pos -> pos + blen data < 2 ^ 63 ->
  direct_write alloc route junk gap flush w f pos (blen data) 0 true data = (n, f', w') -> 0 < n ->
  n = blen data /\ f_size f' = Z.max (f_size f) (pos + n) /\ written_at w w' (f_lay f) (f_size f) pos data /\
  exists r buf w2, direct_read junk crc32 ec_alloc w' f' pos n true true = Some (r, buf, w2) /\ same_needles w' w2 /\
    (r < 0 \/ r = n /\ buf = data).
Proof.
  intros Hf Hi Hj Hrel Hrep Hp Hb. unfold direct_write, dio_write, dio_map. pose proof (blen_nonneg data).
  destruct (Z.eqb_spec (blen data) 0); [intros [= <- _ _]; lia|]. cbn [negb Z.ltb Z.compare]. rewrite Z.eqb_refl. cbn [negb].
  assert (Hmap : no_mapping (f_lay f) = false).
  { unfold no_mapping. destruct Hf as (_ & _ & _ & Hv & _). by rewrite (proj2 (Z.eqb_neq _ _)). }
  rewrite Hmap. cbn [Z.ltb Z.compare]. rewrite Hmap. destruct (dio_store junk w f pos data) as [[ret m] w1] eqn:Hs.
  destruct (Z.ltb_spec ret 0); [intros [= <- _ _]; lia|]. intros [= <- <- <-] Hn.
  apply dio_store_spec in Hs as (-> & Hfit & Hcon & Hwr); [|done|done|done|lia|done].
  set (f' := if pos + blen data >? f_size f then set_size f (pos + blen data) else f).
  assert (Hlay : f_lay f' = f_lay f) by (unfold f'; case_if; done). split; [done|].
  split; [unfold f'; case_if; cbn [set_size f_size]; lia|]. split; [done|].
  unfold direct_read. destruct (Z.eqb_spec (blen data) 0); [lia|]. cbn [negb]. unfold dio_read. rewrite Hlay, Hmap.
  assert (Hpl : (placement (f_lay f) =? POWERFS_PLACEMENT_INLINE) = false) by (destruct Hf as (_ & -> & _); done). rewrite Hpl.
  destruct (net_read_spec crc32 junk ec_alloc w1 (f_lay f) pos (blen data) (blen data)) as (r & buf & w2 & -> & S2 & Hr & Hlen & Hby & Hsh);
    [by destruct Hf|intros o v k q _ Hq; unfold replica_of in Hq; rewrite Hrep in Hq; discriminate Hq|done|done|lia|done|].
  destruct (Z.ltb_spec r 0); [by eexists r, [], w2; auto|]. rewrite andb_false_r. exists (blen buf), buf, w2. split; [done|]. split; [done|]. right.
  assert (Hfull : blen buf = blen data).
  { destruct (Z.lt_ge_cases (blen buf) (blen data)) as [Hlt|]; [|lia]. exfalso. destruct Hsh as (Hpos & _ & Hend); [lia|done|].
    pose proof (Z.mod_pos_bound pos POWERFS_CHUNK_SIZE eq_refl). pose proof (proj1 Hf) as Hch.
    destruct (chunk_of_add pos (blen buf - 1)) as [E1 E2]; [lia..|].
    replace (pos + blen buf - 1) with (pos + (blen buf - 1)) in Hend by lia.
    rewrite E2, (content_same_chunk w1 (f_lay f) (pos + (blen buf - 1)) pos) in Hend by (done || lia). lia. }
  split; [done|]. apply bytes_ext; [done|]. intros i Hib. rewrite Hby by done.
  destruct (Hwr (pos + i) ltac:(lia)) as [-> |[? _]]; [|lia].
  destruct (Z.leb_spec pos (pos + i)); [|lia]. destruct (Z.ltb_spec (pos + i) (pos + blen data)); [|lia]. cbn [andb]. f_equal. lia.
Qed.

End stored.

(** ** Examples *)

Module Sample.
Import Volume.Sample Inline.Sample.

Definition zeros : buffer := replicate (Z.to_nat POWERFS_CHUNK_SIZE) 0.
#[global] Arguments zeros : simpl never.

Definition flat_inode (size : Z) : file_inode := mk_file 5 1 size flat true 0 false [].
Definition direct (w : world) (f : file_inode) (pos : Z) (data : buffer) :=
  direct_write grant_all (fun x => x) zeros alone no_flush w f pos (blen data) 0 true data.

Definition stored_123 : world := mk_world one_server {[(1, 100) := [1; 2; 3]]} [].

Lemma direct_123 : direct up (flat_inode 0) 0 [1; 2; 3] = (3, flat_inode 3, stored_123).
Proof. vm_compute. reflexivity. Qed.

Lemma direct_roundtrip_witness :
  f_size (flat_inode 3) = 3 /\
  exists r buf w2, direct_read zeros crc0 all_alloc stored_123 (flat_inode 3) 0 3 true true = Some (r, buf, w2) /\
    same_needles stored_123 w2 /\ (r < 0 \/ r = 3 /\ buf = [1; 2; 3]).
Proof.
  destruct (direct_roundtrip grant_all (fun x => x) zeros crc0 all_alloc alone no_flush up stored_123 (flat_inode 0) (flat_inode 3) 0 3 [1; 2; 3])
    as (_ & H1 & _ & H2).
  - exact flat_is_flat.
  - unfold is_u64. cbn. lia.
  - apply junk_length.
  - discriminate.
  - reflexivity.
  - lia.
  - done.
  - exact direct_123.
  - lia.
  - split; [exact H1|exact H2].
Defined.

Definition user_page : buffer := replicate (Z.to_nat PAGE_SIZE) 7.
#[global] Arguments user_page : simpl never.

Lemma copies_exact_witness :
  gather 0 [user_page] 96 4000 (replicate (Z.to_nat 4000) 0) = Some (slice (mjoin [user_page]) 96 4000) /\
  mjoin (scatter true 96 [user_page] [1; 2]) = blit (mjoin [user_page]) 96 [1; 2].
Proof.
  destruct (copies_exact [user_page] 96 4000 [1; 2]) as [H1 H2].
  - constructor; [|constructor]. unfold page_ok, user_page. by apply blen_replicate_z.
  - done.
  - done.
  - reflexivity.
  - done.
  - split; [exact H1|exact H2].
Defined.

(** A request of 10 bytes that starts in the middle of a page. *)
Example gather_overruns : gather 0 [user_page] 96 10 (replicate 10 0) = None.
Proof. vm_compute. reflexivity. Qed.

(** Two volumes, a stripe unit of one chunk: the second chunk is stored on the
    first volume, and is looked for on the second one. *)
Definition striped : layout_inode :=
  plain POWERFS_PLACEMENT_STRIPE 100 (mk_stripe POWERFS_CHUNK_SIZE 2 0 (Some [1; 2]) 2 (Some [100; 200])) no_chunks.

Example striped_write_misplaced :
  let f := mk_file 5 1 POWERFS_CHUNK_SIZE striped true 0 false [] in
  let '(n, _, w) := direct up f POWERFS_CHUNK_SIZE [1; 2; 3] in
  n = 3 /\ needle w 1 101 = Some [1; 2; 3] /\
  powerfs_locate_chunk striped POWERFS_CHUNK_SIZE = At 2 200 /\ needle w 2 200 = None.
Proof. vm_compute. split; [reflexivity|]. split; [reflexivity|]. split; reflexivity. Qed.

(** A direct write that crosses a chunk boundary is refused. *)
Example crossing_write_refused :
  fst (fst (direct up (flat_inode 0) (POWERFS_CHUNK_SIZE - 1) [1; 2])) = - EINVAL.
Proof. vm_compute. reflexivity. Qed.

End Sample.
