(* ===== verification/Commit.v ===== *)
(** * Commit: publishing a file at close and fsync

    Models of [src/powerfs_mod/powerfs_file.c] the operations that end a
    write: [powerfs_flush], [powerfs_fsync], [powerfs_file_release] and
    [powerfs_sync_inode_size_chunks], which they and a recall of capabilities
    share; of [powerfs_inode.c] the writeback of the size
    ([powerfs_write_inode] and its work item); of [powerfs_net_inode.c] their
    RPCs [powerfs_net_update_inode_size_chunks] and [powerfs_net_setattr].

    The data of a file are on the volume servers, in memory or on disk; its
    size and its chunk map are with the filer.  A commit first has the volume
    servers write every needle of the file to disk, then publishes the map.
    Capabilities, the creation that is still pending and the writeback of
    pages are the environment [fs_env]; what other threads do to the inode
    where its lock is not held is [gap].  The theorems are in [CommitProof]. *)

From S2P Require Import Prelude Wire Caps Tlv NetLease Layout CreateRpc Dir Volume Predict Inline.

Definition POWERFS_NET_MSG_SETATTR : Z := 0x0012.
Definition POWERFS_NET_MSG_UPDATE_INODE_SIZE_CHUNKS : Z := 0x0034.
Definition POWERFS_RSTATE_PENDING : Z := 0.
Definition POWERFS_ATTR_MODE : Z := 1.
Definition POWERFS_ATTR_UID : Z := 2.
Definition POWERFS_ATTR_GID : Z := 4.
Definition POWERFS_ATTR_SIZE : Z := 8.
Definition POWERFS_ATTR_ATIME : Z := 16.
Definition POWERFS_ATTR_MTIME : Z := 32.

(** The strings "kernel", "kernel-flush", "kernel-fsync", "kernel-release". *)
Definition str_kernel : buffer := [107; 101; 114; 110; 101; 108].
Definition str_kernel_flush : buffer := str_kernel ++ [45; 102; 108; 117; 115; 104].
Definition str_kernel_fsync : buffer := str_kernel ++ [45; 102; 115; 121; 110; 99].
Definition str_kernel_release : buffer := str_kernel ++ [45; 114; 101; 108; 101; 97; 115; 101].

(** ** The RPCs *)

(** The chunk references of the message: the position in the array times the
    constant chunk size, and no modification time. *)
Definition sent_ref (i : nat) (cm : powerfs_chunk_map) : chunk_ref :=
  mk_ref (u64 (Z.of_nat i * POWERFS_CHUNK_SIZE)) (cm_size cm) (cm_needle_id cm) (cm_volume_id cm) (cm_crc32 cm) 0.

Definition sent_refs (cs : list powerfs_chunk_map) : list chunk_ref := imap sent_ref cs.

(** [layout_buf]: tag, count, references. *)
Definition layout_bytes (refs : list chunk_ref) : buffer :=
  1 :: le_split 4 (Z.of_nat (length refs)) ++ mjoin (encode_ref <$> refs).

Definition head_ops (shard_id ino size : Z) (cid : buffer) : list enc_op :=
  [OpU64 POWERFS_NET_FLD_SHARD_ID shard_id; OpU64 POWERFS_NET_FLD_INO ino; OpU64 POWERFS_NET_FLD_SIZE size;
   OpString POWERFS_NET_FLD_CLIENT_ID cid].

Definition reliability_ops (placement : Z) : list enc_op :=
  [OpU8 POWERFS_NET_FLD_PLACEMENT placement; OpString POWERFS_NET_FLD_RELIABILITY [0];
   OpU8 POWERFS_NET_FLD_RELIABILITY_STATE POWERFS_RSTATE_PENDING].

Definition inline_ops (shard_id ino size : Z) (cid data : buffer) : list enc_op :=
  head_ops shard_id ino size cid ++ reliability_ops POWERFS_PLACEMENT_INLINE ++
  [OpString POWERFS_NET_FLD_INLINE_DATA data; OpU32 POWERFS_NET_FLD_INLINE_MAX_SIZE POWERFS_INLINE_MAX_SIZE].

Definition chunks_ops (shard_id ino size : Z) (cid : buffer) (refs : list chunk_ref) : list enc_op :=
  head_ops shard_id ino size cid ++ reliability_ops POWERFS_PLACEMENT_FLAT ++
  [OpString POWERFS_NET_FLD_CHUNK_LAYOUT (layout_bytes refs)].

Definition setattr_ops (ino valid mode uid gid size mtime atime : Z) : list enc_op :=
  let opt bit op := if Z.land valid bit =? 0 then [] else [op] in
  [OpU64 POWERFS_NET_FLD_INO ino] ++
  opt POWERFS_ATTR_MODE (OpU32 POWERFS_NET_FLD_MODE mode) ++ opt POWERFS_ATTR_UID (OpU32 POWERFS_NET_FLD_UID uid) ++
  opt POWERFS_ATTR_GID (OpU32 POWERFS_NET_FLD_GID gid) ++ opt POWERFS_ATTR_SIZE (OpU64 POWERFS_NET_FLD_SIZE size) ++
  opt POWERFS_ATTR_MTIME (OpU64 POWERFS_NET_FLD_MTIME mtime) ++ opt POWERFS_ATTR_ATIME (OpU64 POWERFS_NET_FLD_ATIME atime).

Definition str_client (client_id : option buffer) : buffer := default str_kernel client_id.

Definition update_cap (count inline_len : Z) : Z := 256 + count * 44 + 64 + inline_len.

Section rpcs.
Context {W : Type} `{NT : !NetTransport W}.

(** [chunks == NULL] is the empty list.  [net_kvmalloc]: the two
    allocations. *)
Definition powerfs_net_update_inode_size_chunks (w : W) (shard_id ino size : Z) (client_id : option buffer)
    (chunks : list powerfs_chunk_map) (inline_data : option buffer) : Z * W :=
  let inline_len := blen (default [] inline_data) in
  let count := Z.of_nat (length chunks) in
  let is_inline := bool_decide (is_Some inline_data) && (inline_len >? 0) in
  let body_cap := update_cap count inline_len in
  if negb (net_kvmalloc w body_cap) then (- ENOMEM, w) else
  if negb (net_kvmalloc w (1 + 4 + count * 44)) then (- ENOMEM, w) else
  let cid := str_client client_id in
  let body := request body_cap
    (if is_inline then inline_ops shard_id ino size cid (default [] inline_data)
     else chunks_ops shard_id ino size cid (sent_refs chunks)) in
  let '(ret, _, w) := net_send_request w POWERFS_NET_MSG_UPDATE_INODE_SIZE_CHUNKS ino body 128 in
  (rpc_result ret, w).

Definition powerfs_net_setattr (w : W) (ino valid mode uid gid size mtime atime : Z) : Z * W :=
  let body := request 128 (setattr_ops ino valid mode uid gid size mtime atime) in
  let '(ret, _, w) := net_send_request w POWERFS_NET_MSG_SETATTR ino body 64 in
  (rpc_result ret, w).

End rpcs.

(** ** The inode *)

(** The references of open files; [opened_files] is the counter of the client,
    if there is one. *)
Record open_refs := mk_refs { nr_rd : Z; nr_wr : Z; has_auth_cap : bool; opened_files : option Z }.

(** [c_tbl] is [dedup_chunks] (empty without [WRITE_PREDICT]), [c_dirty_pages]
    is [I_DIRTY_PAGES]. *)
Record commit_inode := mk_commit {
  c_file : file_inode; content_size : Z; setattr_pending : bool;
  c_tbl : list wp_entry; wp_map_dirty : bool; c_dirty_pages : bool; c_open : open_refs
}.

Definition c_lay (c : commit_inode) : layout_inode := f_lay (c_file c).
Definition c_size (c : commit_inode) : Z := f_size (c_file c).
Definition c_ino (c : commit_inode) : Z := f_ino (c_file c).

Definition set_file (c : commit_inode) (f : file_inode) : commit_inode :=
  mk_commit f (content_size c) (setattr_pending c) (c_tbl c) (wp_map_dirty c) (c_dirty_pages c) (c_open c).
Definition set_content (c : commit_inode) (size : Z) : commit_inode :=
  mk_commit (c_file c) size (setattr_pending c) (c_tbl c) (wp_map_dirty c) (c_dirty_pages c) (c_open c).
Definition set_pending (c : commit_inode) (b : bool) : commit_inode :=
  mk_commit (c_file c) (content_size c) b (c_tbl c) (wp_map_dirty c) (c_dirty_pages c) (c_open c).
Definition set_open (c : commit_inode) (o : open_refs) : commit_inode :=
  mk_commit (c_file c) (content_size c) (setattr_pending c) (c_tbl c) (wp_map_dirty c) (c_dirty_pages c) o.
Definition powerfs_write_predict_map_dirty_clear (c : commit_inode) : commit_inode :=
  mk_commit (c_file c) (content_size c) (setattr_pending c) (c_tbl c) false (c_dirty_pages c) (c_open c).

Definition clear_inline_dirty (c : commit_inode) : commit_inode :=
  let i := f_inline (c_file c) in
  set_file c (Inline.set_inline (c_file c) (mk_inline (inline_data i) (inline_len i) false (inline_max_size i))).

(** ** The chunk map *)

Definition on_volumes (placement : Z) : bool := (placement =? POWERFS_PLACEMENT_FLAT) || is_stripe placement.

Definition chunk_count_of (chunk_size i_size : Z) : Z :=
  let n := u32 (u64 (i_size + chunk_size - 1) / chunk_size) in if n >? 4096 then 4096 else n.

(** Entry [ci]; [None] when the address is read out of bounds.  A chunk that
    cannot be located gets zeros; an entry of the table that is valid takes
    precedence. *)
Definition sync_chunk (pi : layout_inode) (tbl : list wp_entry) (i_size chunk_size count : Z) (ci : nat)
  : option powerfs_chunk_map :=
  let chunk_off := u64 (Z.of_nat ci * chunk_size) in
  let size := if Z.of_nat ci =? count - 1 then u64 (i_size - chunk_off) else chunk_size in
  let loc := if is_stripe (placement pi) then powerfs_locate_chunk pi chunk_off
             else At (volume_id pi) (u64 (file_key pi + Z.of_nat ci)) in
  let hit := match wp_entry_at tbl (Z.of_nat ci) with
             | Some e => if fp_valid e && negb (e_needle_id e =? 0) then Some e else None
             | None => None
             end in
  match loc, hit with
  | OutOfBounds, _ => None
  | _, Some e => Some (mk_cm (Z.of_nat ci) (e_needle_id e) (e_volume_id e) 0 size)
  | At vid nid, None => Some (mk_cm (Z.of_nat ci) nid vid 0 size)
  | LocErr _, None => Some (mk_cm (Z.of_nat ci) 0 0 0 size)
  end.

Definition sync_chunks (pi : layout_inode) (tbl : list wp_entry) (i_size : Z) : option (list powerfs_chunk_map) :=
  let count := chunk_count_of (chunk_size_of pi) i_size in
  mapM (sync_chunk pi tbl i_size (chunk_size_of pi) count) (seq 0 (Z.to_nat count)).

(** The guards: nothing to commit for this layout. *)
Definition unplaced (pi : layout_inode) : bool :=
  if is_stripe (placement pi)
  then negb (bool_decide (is_Some (volume_ids (pi_stripe pi)))) || (volume_ids_count (pi_stripe pi) =? 0)
  else (volume_id pi =? 0) || (file_key pi =? 0).

(** [flush_keys]: the needles of a volume. *)
Definition needles_of (vid : Z) (cs : list powerfs_chunk_map) : list Z :=
  cm_needle_id <$> List.filter (fun c => (cm_volume_id c =? vid) && negb (cm_needle_id c =? 0)) cs.

(** The allocations, and the places where other threads act on the inode. *)
Inductive cm_alloc := CA_chunks | CA_keys | CA_snap.
Inductive cm_gap := CG_snap | CG_gate | CG_update | CG_after.

(** Results are an errno, and whether references were kept; the last two are
    [ensure_lease] and [powerfs_flush_pending_create]. *)
Record fs_env (W : Type) := mk_env {
  e_get_caps : W -> commit_inode -> Z -> Z * Z * commit_inode * W;
  e_cap_flush : W -> commit_inode -> commit_inode * W;
  e_put_refs : W -> commit_inode -> Z -> commit_inode * W;
  e_send_release : W -> commit_inode -> commit_inode * W;
  e_writeback : W -> commit_inode -> Z -> Z -> Z * commit_inode * W;
  e_ensure_lease : W -> commit_inode -> commit_inode * W;
  e_flush_create : W -> file_inode -> file_inode * W
}.
Arguments e_get_caps {W} _. Arguments e_cap_flush {W} _. Arguments e_put_refs {W} _. Arguments e_send_release {W} _.
Arguments e_writeback {W} _. Arguments e_ensure_lease {W} _. Arguments e_flush_create {W} _.

Definition LLONG_MAX : Z := 2 ^ 63 - 1.

Section ops.
Context {W : Type} `{NT : !NetTransport W} `{VT : !VolumeTransport W}.
Context (alloc : cm_alloc -> bool) (falloc : fl_alloc -> bool) (route : Z -> Z)
        (gap : cm_gap -> commit_inode -> commit_inode) (fgap : fl_gap -> file_inode -> file_inode) (env : fs_env W).

(** ** [powerfs_sync_inode_size_chunks] *)

(** Each volume once, with all its needles; [before]: the entries that were
    passed.  Stops at the first failure. *)
Fixpoint flush_volumes (w : W) (before rest : list powerfs_chunk_map) : Z * W :=
  match rest with
  | [] => (0, w)
  | c :: cs =>
      let vid := cm_volume_id c in
      if (vid =? 0) || (cm_needle_id c =? 0) then flush_volumes w (before ++ [c]) cs else
      if existsb (fun b => cm_volume_id b =? vid) before then flush_volumes w (before ++ [c]) cs else
      let '(ret, w) := powerfs_net_flush_needles w vid (needles_of vid rest) in
      if negb (ret =? 0) then (ret, w) else flush_volumes w (before ++ [c]) cs
  end.

Definition shard_of (c : commit_inode) : Z :=
  route (if f_parent (c_file c) =? 0 then c_ino c else f_parent (c_file c)).

Fixpoint update_attempts (n : nat) (w : W) (shard_id ino size : Z) (source : buffer) (cs : list powerfs_chunk_map)
    (data : option buffer) (ret : Z) : Z * W :=
  match n with
  | O => (ret, w)
  | S n =>
      let '(ret, w) := powerfs_net_update_inode_size_chunks w shard_id ino size (Some source) cs data in
      if ret =? 0 then (0, w) else update_attempts n w shard_id ino size source cs data ret
  end.

(** [None]: an access out of bounds. *)
Definition powerfs_sync_inode_size_chunks (w : W) (c : commit_inode) (source : buffer) (max_attempts : nat)
  : option (Z * commit_inode * W) :=
  let pi := c_lay c in
  let i_size := c_size c in
  if negb (on_volumes (placement pi)) || (i_size =? 0) || unplaced pi then Some (0, c, w) else
  if negb (alloc CA_chunks) then Some (- ENOMEM, c, w) else
  match sync_chunks pi (c_tbl c) i_size with
  | None => None
  | Some cs =>
      if negb (alloc CA_keys) then Some (- ENOMEM, c, w) else
      let '(flush_ret, w) := flush_volumes w [] cs in
      if negb (flush_ret =? 0) then Some (flush_ret, c, w) else
      let c := gap CG_gate c in
      if (i_size =? content_size c) && negb (wp_map_dirty c) then Some (0, c, w) else
      let '(ret, w) := update_attempts max_attempts w (shard_of c) (c_ino c) i_size source cs None (- EIO) in
      let c := gap CG_update c in
      Some (ret, if ret =? 0 then powerfs_write_predict_map_dirty_clear (set_content c i_size) else c, w)
  end.

(** ** Inline data *)

Inductive snap := NoData | NoMem | Changed | Snap (data : buffer).

(** The copy of [inline_data], made in two steps. *)
Definition snapshot (c : commit_inode) : snap * commit_inode :=
  let i := f_inline (c_file c) in
  match inline_data i with
  | None => (NoData, c)
  | Some _ =>
      if inline_len i =? 0 then (NoData, c) else
      if negb (alloc CA_snap) then (NoMem, c) else
      let c := gap CG_snap c in
      let j := f_inline (c_file c) in
      match inline_data j with
      | Some d => if inline_len j =? inline_len i then (Snap (take (Z.to_nat (inline_len i)) d), c) else (Changed, c)
      | None => (Changed, c)
      end
  end.

Definition inline_is_dirty (c : commit_inode) : bool :=
  (placement (c_lay c) =? POWERFS_PLACEMENT_INLINE) && inline_dirty (f_inline (c_file c)).

(** ** [powerfs_flush] *)

Definition flush_inline_data (w : W) (c : commit_inode) : Z * commit_inode * W :=
  match snapshot c with
  | (Snap data, c) =>
      let '(ret, w) := powerfs_net_update_inode_size_chunks w (shard_of c) (c_ino c) (blen data) (Some str_kernel_flush) [] (Some data) in
      (ret, c, w)
  | (NoMem, c) => (- ENOMEM, c, w)
  | (_, c) => (0, c, w)
  end.

(** The Flat and the Stripe branch. *)
Definition flush_chunks (w : W) (c : commit_inode) : option (Z * commit_inode * W) :=
  let i_size := c_size c in
  if (i_size =? content_size c) || (i_size <=? 0) then Some (0, c, w) else
  if negb (alloc CA_chunks) then Some (- ENOMEM, c, w) else
  match sync_chunks (c_lay c) [] i_size with
  | None => None
  | Some cs =>
      let '(ret, w) := powerfs_net_update_inode_size_chunks w (shard_of c) (c_ino c) i_size (Some str_kernel_flush) cs None in
      let c := gap CG_update c in
      Some (ret, if ret =? 0 then set_content c i_size else c, w)
  end.

Definition flush_metadata (w : W) (c : commit_inode) : option (Z * commit_inode * W) :=
  let pi := c_lay c in
  if inline_is_dirty c then Some (flush_inline_data w c) else
  if (placement pi =? POWERFS_PLACEMENT_FLAT) && negb (volume_id pi =? 0) && negb (file_key pi =? 0) then flush_chunks w c else
  if is_stripe (placement pi) then flush_chunks w c else Some (0, c, w).

Definition powerfs_flush (w : W) (c : commit_inode) : option (Z * commit_inode * W) :=
  let had_dirty := inline_is_dirty c || c_dirty_pages c in
  let '(flush_ret, c, w) := e_writeback env w c 0 LLONG_MAX in
  let result r := let '(sync_ret, c, w) := r in (if flush_ret <? 0 then flush_ret else sync_ret, c, w) in
  if had_dirty && negb (inline_is_dirty c || c_dirty_pages c)
  then match flush_metadata w c with Some r => Some (result r) | None => None end
  else Some (result (0, c, w)).

(** ** [powerfs_fsync] *)

(** [ret]: what the writeback returned. *)
Definition fsync_inline (w : W) (c : commit_inode) (ret : Z) : Z * commit_inode * W :=
  match snapshot c with
  | (NoData, c) => (ret, clear_inline_dirty c, w)
  | (NoMem, c) => (- ENOMEM, c, w)
  | (Changed, c) => (ret, c, w)
  | (Snap data, c) =>
      let '(ret, w) := powerfs_net_update_inode_size_chunks w (shard_of c) (c_ino c) (blen data) (Some str_kernel) [] (Some data) in
      if ret <? 0 then (ret, c, w) else (ret, clear_inline_dirty (gap CG_update c), w)
  end.

Definition fsync_chunks (w : W) (c : commit_inode) : option (Z * commit_inode * W) :=
  let i_size := c_size c in
  if (i_size >? 0) && on_volumes (placement (c_lay c)) then
    match powerfs_sync_inode_size_chunks w c str_kernel_fsync 1 with
    | None => None
    | Some (cerr, c, w) =>
        if cerr <? 0 then Some (cerr, c, w) else
        let c := gap CG_after c in
        if i_size =? content_size c then Some (0, c, w) else
        let '(sret, w) := powerfs_net_setattr w (c_ino c) POWERFS_ATTR_SIZE 0 0 0 i_size 0 0 in
        Some (if sret <? 0 then sret else 0, c, w)
    end
  else Some (0, c, w).

Definition align_file (w : W) (c : commit_inode) : Z * commit_inode * W :=
  let '(aret, f, w) := powerfs_align_inline_before_commit falloc route fgap (e_flush_create env) w (c_file c) in
  (aret, set_file c f, w).

Definition fsync_commit (w : W) (c : commit_inode) (ret : Z) : option (Z * commit_inode * W) :=
  let '(aret, c, w) := align_file w c in
  if aret <? 0 then Some (aret, c, w) else
  if inline_is_dirty c then Some (fsync_inline w c ret) else fsync_chunks w c.

Definition powerfs_fsync (w : W) (c : commit_inode) (start last : Z) : option (Z * commit_inode * W) :=
  let '(cap_err, got, c, w) := e_get_caps env w c last in
  let got := if cap_err <? 0 then 0 else got in
  let '(c, w) := if Z.land got POWERFS_CAP_WR_DATA =? 0 then (c, w) else e_cap_flush env w c in
  let '(f, w) := e_flush_create env w (c_file c) in
  let '(ret, c, w) := e_writeback env w (set_file c f) start last in
  match (if ret <? 0 then Some (ret, c, w) else fsync_commit w c ret) with
  | None => None
  | Some (ret, c, w) => let '(c, w) := if got =? 0 then (c, w) else e_put_refs env w c got in Some (ret, c, w)
  end.

(** ** [powerfs_file_release] *)

(** [FMODE_READ] and [FMODE_WRITE] of the file; the references to put. *)
Definition put_open (c : commit_inode) (rd wr : bool) : Z * commit_inode :=
  let o := c_open c in
  let down (b : bool) n := if b && (n >? 0) then n - 1 else n in
  let had := Z.lor POWERFS_CAP_PIN
    (Z.lor (if rd then Z.lor POWERFS_CAP_FILE_SHARED POWERFS_CAP_FILE_CACHE else 0) (if wr then POWERFS_CAP_FILE_WR else 0)) in
  (had, set_open c (mk_refs (down rd (nr_rd o)) (down wr (nr_wr o)) (has_auth_cap o) (opened_files o))).

Definition release_inline (w : W) (c : commit_inode) : commit_inode * W :=
  match snapshot c with
  | (NoData, c) => (clear_inline_dirty c, w)
  | (NoMem, c) | (Changed, c) => (c, w)
  | (Snap data, c) =>
      let '(ret, w) := update_attempts 5 w (shard_of c) (c_ino c) (blen data) str_kernel [] (Some data) 0 in
      let c := gap CG_update c in
      (if ret =? 0 then clear_inline_dirty c else c, w)
  end.

Definition release_chunks (w : W) (c : commit_inode) : option (commit_inode * W) :=
  if negb (on_volumes (placement (c_lay c))) || unplaced (c_lay c) || (c_size c =? 0) then Some (c, w) else
  let '(c, w) := e_ensure_lease env w c in
  let '(_, c, w) := e_writeback env w c 0 LLONG_MAX in
  match powerfs_sync_inode_size_chunks w c str_kernel_release 5 with
  | None => None
  | Some (_, c, w) => Some (c, w)
  end.

(** The result is always 0. *)
Definition powerfs_file_release (w : W) (c : commit_inode) (rd wr : bool) : option (commit_inode * W) :=
  let o := c_open c in
  let c := set_open c (mk_refs (nr_rd o) (nr_wr o) (has_auth_cap o) ((fun n => n - 1) <$> opened_files o)) in
  let '(had, c) := put_open c rd wr in
  let '(c, w) := e_put_refs env w c had in
  let '(c, w) :=
    if has_auth_cap (c_open c) && (nr_rd (c_open c) =? 0) && (nr_wr (c_open c) =? 0)
    then e_send_release env w c else (c, w) in
  let '(f, w) := e_flush_create env w (c_file c) in
  let '(aret, c, w) := align_file w (set_file c f) in
  if aret <? 0 then Some (c, w) else
  if inline_is_dirty c then Some (release_inline w c) else release_chunks w c.

(** ** Writeback of the size *)

(** [in_caller]: [WB_SYNC_ALL] and not on a worker of a work queue; the last
    component: the work item was queued. *)
Definition powerfs_write_inode (w : W) (c : commit_inode) (is_reg in_caller : bool) : Z * commit_inode * bool * W :=
  if negb is_reg || stopping (vol_pool_of w) || (c_size c =? 0) || (c_size c =? content_size c) then (0, c, false, w) else
  if in_caller then
    let i_size := c_size c in
    let '(ret, w) := powerfs_net_setattr w (c_ino c) POWERFS_ATTR_SIZE 0 0 0 i_size 0 0 in
    if ret <? 0 then (ret, c, false, w) else (0, set_content (gap CG_update c) i_size, false, w)
  else if setattr_pending c then (0, c, false, w) else (0, set_pending c true, true, w).

Definition powerfs_setattr_work_fn (w : W) (c : commit_inode) : commit_inode * W :=
  if stopping (vol_pool_of w) || (c_size c =? 0) then (set_pending c false, w) else
  let i_size := c_size c in
  let '(ret, w) := powerfs_net_setattr w (c_ino c) POWERFS_ATTR_SIZE 0 0 0 i_size 0 0 in
  let c := gap CG_update c in
  (set_pending (if ret <? 0 then c else set_content c i_size) false, w).

End ops.
