(* ===== verification/CommitProof.v ===== *)
(** * CommitProof: data before metadata

    Theorems about [Commit].  The class [DiskServers] adds to the needles of
    [Volume] what of them is on disk, the class [Filer] is what the filer
    keeps of every file; [CommitServersOk] says what the requests of a commit
    do to both.

    Shown for files of at most 1489 chunks with computed addresses and ids
    that are not 0 ([commit_ready]): a commit never makes the filer point to a needle that is not on
    disk, a commit that succeeds leaves every byte of the file on disk, and
    whoever reads the published map finds each byte where the writer put it;
    an [fsync] that returns 0 has committed, inline data only if no other
    thread changed their length during the copy.  The limits that the proofs need
    are real: with more chunks the map is left out of the message, and a size
    that was written back alone keeps the map from being published. *)

From S2P Require Import Prelude Wire Submit Caps Tlv NetLease Layout CreateRpc Dir Volume Predict Inline Commit.

(** ** What the servers do *)

Class DiskServers (W : Type) := { on_disk : W -> Z -> Z -> option buffer }.

Inductive filer_data := FNone | FInline (data : buffer) | FChunks (map : list powerfs_chunk_map).
Record filer_file := mk_ff { ff_size : Z; ff_data : filer_data }.
Class Filer (W : Type) := { filer : W -> Z -> filer_file }.

Section classes.
Context {W : Type} `{NT : !NetTransport W} `{VT : !VolumeTransport W} `{VS : !VolumeServers W} `{DS : !DiskServers W} `{FI : !Filer W}.

Definition same_disk (w w' : W) : Prop := forall v n, on_disk w' v n = on_disk w v n.
Definition same_filer (w w' : W) : Prop := forall i, filer w' i = filer w i.

(** What is in the needle is on disk. *)
Definition durable (w : W) (v n : Z) : Prop := on_disk w v n = needle w v n.

(** A request about the file [ino] that sets it to [new], or fails; a request
    that fails may have been carried out. *)
Definition filer_set (w w' : W) (ino ret : Z) (new : filer_file) : Prop :=
  same_needles w w' /\ same_disk w w' /\ (forall i, i <> ino -> filer w' i = filer w i) /\
  (filer w' ino = new \/ ret <> 0 /\ filer w' ino = filer w ino).

(** Needles and files stay, and so does what is on disk. *)
Definition flushing (w w' : W) : Prop :=
  same_needles w w' /\ same_filer w w' /\ (forall v n, durable w v n -> durable w' v n).

#[global] Instance flushing_preorder : PreOrder flushing.
Proof.
  split; [done|]. intros x y z (N1 & F1 & D1) (N2 & F2 & D2). split_and!.
  - intros v n. by rewrite N2.
  - intros i. by rewrite F2.
  - auto.
Qed.

End classes.

(** A FLUSH that is answered with success has written the needles it names; an
    UPDATE replaces size and data of the file (the chunk references are decoded
    as [parse_chunk_refs] of [Layout] does), a SETATTR the size alone.  Every
    message must be readable for that. *)
Class CommitServersOk (W : Type) `{!NetTransport W, !VolumeTransport W, !VolumeServers W, !DiskServers W, !Filer W} : Prop := {
  flush_served : forall w c v keys body ret st resp w',
    powerfs_net_find_volume_conn (vol_pool_of w) v false = Some c -> readable body (flush_ops v keys) ->
    conn_send w c POWERFS_NET_MSG_FLUSH_NEEDLES body [] 0 = (ret, st, resp, w') ->
    flushing w w' /\ (ret = 0 -> st = POWERFS_NET_STATUS_OK -> Forall (durable w' v) keys);
  start_flushing : forall w c len, flushing w (conn_record_start w c len);
  failed_flushing : forall w c, flushing w (conn_record_failed w c);
  update_chunks_served : forall w shard ino size cid refs body ret resp w',
    readable body (chunks_ops shard ino size cid refs) -> Forall ref_ok refs ->
    net_send_request w POWERFS_NET_MSG_UPDATE_INODE_SIZE_CHUNKS ino body 128 = (ret, resp, w') ->
    filer_set w w' ino ret (mk_ff size (FChunks (ref_map <$> refs)));
  update_inline_served : forall w shard ino size cid data body ret resp w',
    readable body (inline_ops shard ino size cid data) ->
    net_send_request w POWERFS_NET_MSG_UPDATE_INODE_SIZE_CHUNKS ino body 128 = (ret, resp, w') ->
    filer_set w w' ino ret (mk_ff size (FInline data));
  setattr_served : forall w ino size body ret resp w',
    readable body [OpU64 POWERFS_NET_FLD_INO ino; OpU64 POWERFS_NET_FLD_SIZE size] ->
    net_send_request w POWERFS_NET_MSG_SETATTR ino body 64 = (ret, resp, w') ->
    filer_set w w' ino ret (mk_ff size (ff_data (filer w ino)))
}.

(** ** The messages *)

Definition client_ok (cid : buffer) : Prop := bytes_ok cid /\ blen cid <= 64.

Lemma blen_refs refs : blen (mjoin (encode_ref <$> refs)) = 44 * Z.of_nat (length refs).
Proof.
  induction refs as [|r refs IH]; [done|]. rewrite fmap_cons. change (mjoin (?x :: ?l)) with (x ++ mjoin l).
  rewrite blen_app, IH. unfold blen. rewrite length_encode_ref. cbn [length]. lia.
Qed.

Lemma blen_layout_bytes refs : blen (layout_bytes refs) = 5 + 44 * Z.of_nat (length refs).
Proof.
  unfold layout_bytes. change (1 :: ?l) with ([1] ++ l). rewrite !blen_app, blen_refs. autorewrite with pfs. cbn. lia.
Qed.

Lemma layout_bytes_ok refs : bytes_ok (layout_bytes refs).
Proof.
  unfold layout_bytes, bytes_ok. constructor; [done|]. apply Forall_app. split; [apply le_split_ok|].
  induction refs as [|r refs IH]; [constructor|]. rewrite fmap_cons. cbn [mjoin list_join].
  apply Forall_app. split; [|exact IH]. unfold encode_ref. repeat (apply Forall_app; split); apply le_split_ok.
Qed.

Lemma head_ops_ok shard ino size cid :
  is_u64 shard -> is_u64 ino -> is_u64 size -> client_ok cid -> Forall op_ok (head_ops shard ino size cid).
Proof. intros H1 H2 H3 [H4 H5]. unfold head_ops. ops_ok. Qed.

Lemma blen_head_ops shard ino size cid : blen (ops_message (head_ops shard ino size cid)) = 44 + blen cid.
Proof. unfold head_ops. autorewrite with pfs. cbn [op_field snd]. autorewrite with pfs. cbn. lia. Qed.

Lemma reliability_ops_ok pl : is_u8 pl -> Forall op_ok (reliability_ops pl).
Proof. intros H. unfold reliability_ops. split_forall; cbn [op_ok]; [done| |done]. by repeat constructor. Qed.

Lemma blen_reliability_ops pl : blen (ops_message (reliability_ops pl)) = 18.
Proof. unfold reliability_ops. autorewrite with pfs. cbn [op_field snd]. autorewrite with pfs. done. Qed.

Lemma chunks_request_readable shard ino size cid refs :
  is_u64 shard -> is_u64 ino -> is_u64 size -> client_ok cid -> Z.of_nat (length refs) <= 1489 ->
  readable (request (update_cap (Z.of_nat (length refs)) 0) (chunks_ops shard ino size cid refs)) (chunks_ops shard ino size cid refs).
Proof.
  intros H1 H2 H3 H4 Hn. pose proof (blen_layout_bytes refs) as Hl. apply request_readable; unfold chunks_ops.
  - apply Forall_app. split; [by apply head_ops_ok|]. apply Forall_app. split; [by apply reliability_ops_ok|].
    constructor; [|constructor]. cbn [op_ok]. split; [done|]. split; [apply layout_bytes_ok|]. rewrite Hl. unfold POWERFS_NET_MAX_TLV. lia.
  - rewrite !ops_message_app, !blen_app, blen_head_ops, blen_reliability_ops. autorewrite with pfs. cbn [op_field snd].
    rewrite Hl. unfold update_cap. destruct H4. lia.
Qed.

Lemma inline_request_readable shard ino size cid data :
  is_u64 shard -> is_u64 ino -> is_u64 size -> client_ok cid -> bytes_ok data -> blen data <= POWERFS_INLINE_MAX_SIZE ->
  readable (request (update_cap 0 (blen data)) (inline_ops shard ino size cid data)) (inline_ops shard ino size cid data).
Proof.
  intros H1 H2 H3 H4 Hd Hn. unfold POWERFS_INLINE_MAX_SIZE in Hn. pose proof (blen_nonneg data). apply request_readable; unfold inline_ops.
  - apply Forall_app. split; [by apply head_ops_ok|]. apply Forall_app. split; [by apply reliability_ops_ok|].
    constructor; [|constructor; [by split|constructor]]. cbn [op_ok]. split; [done|]. split; [done|]. unfold POWERFS_NET_MAX_TLV. lia.
  - rewrite !ops_message_app, !blen_app, blen_head_ops, blen_reliability_ops. autorewrite with pfs. cbn [op_field snd].
    autorewrite with pfs. unfold update_cap. destruct H4. cbn [Z.of_nat Pos.of_succ_nat Pos.succ]. lia.
Qed.

Lemma setattr_request_readable ino size :
  is_u64 ino -> is_u64 size ->
  readable (request 128 (setattr_ops ino POWERFS_ATTR_SIZE 0 0 0 size 0 0)) [OpU64 POWERFS_NET_FLD_INO ino; OpU64 POWERFS_NET_FLD_SIZE size].
Proof.
  intros H1 H2. change (setattr_ops ino POWERFS_ATTR_SIZE 0 0 0 size 0 0) with [OpU64 POWERFS_NET_FLD_INO ino; OpU64 POWERFS_NET_FLD_SIZE size].
  apply request_readable; [ops_ok|]. autorewrite with pfs. cbn [op_field snd]. autorewrite with pfs. cbn. lia.
Qed.

(** A field that is too long is left out. *)
Lemma request_drops_last cap os f s :
  blen s > POWERFS_NET_MAX_TLV -> request cap (os ++ [OpString f s]) = request cap os.
Proof.
  intros H. unfold request, enc_seq. rewrite foldl_app. cbn [foldl run_op]. unfold powerfs_tlv_enc_string.
  by rewrite (proj2 (Z.gtb_lt _ _)) by lia.
Qed.

(** ** The requests of a commit *)

Section requests.
Context {W : Type} `{NT : !NetTransport W} `{VT : !VolumeTransport W} `{VS : !VolumeServers W} `{DS : !DiskServers W} `{FI : !Filer W}
        `{NOK : !NetTransportOk W} `{VOK : !VolumeServersOk W} `{COK : !CommitServersOk W}.

Lemma flush_needles_spec w v keys ret w' :
  is_u64 v -> Forall is_u64 keys -> Z.of_nat (length keys) < 2 ^ 32 ->
  powerfs_net_flush_needles w v keys = (ret, w') ->
  flushing w w' /\ ret <= 0 /\ (ret = 0 -> Forall (durable w' v) keys).
Proof.
  intros Hv Hk Hn. unfold powerfs_net_flush_needles. destruct keys as [|k0 ks]; [intros [= <- <-]; split_and!; [done|done|constructor]|].
  set (keys := k0 :: ks) in *.
  assert (Hz : forall r, r < 0 -> (r, w) = (ret, w') -> flushing w w' /\ ret <= 0 /\ (ret = 0 -> Forall (durable w' v) keys)).
  { intros r Hr [= <- <-]. split; [done|]. split; [lia|]. intros ->. lia. }
  destruct (vol_alloc w _); cbn [negb]; [|by apply Hz]. destruct (needle_requests_readable v 0 0 0 None keys) as (_ & _ & _ & Hrd); [done..|].
  unfold powerfs_net_send_to_volume. cbn [Z.geb Z.compare]. change (pfs_is_meta_msg POWERFS_NET_MSG_FLUSH_NEEDLES) with false.
  destruct (stopping (vol_pool_of w)); [by apply Hz|].
  destruct (powerfs_net_find_volume_conn (vol_pool_of w) v false) as [c|] eqn:Hc; [|by apply Hz].
  destruct (vol_alloc w 0); cbn [negb]; [|by apply Hz].
  set (body := request _ _) in *. set (w1 := conn_record_start w c _).
  destruct (start_same w c (blen body + blen [])) as [_ Hp1]. pose proof (start_flushing w c (blen body + blen [])) as H1. fold w1 in H1, Hp1.
  destruct (conn_send w1 c _ _ _ _) as [[[r st] resp] w2] eqn:Hs. pose proof (send_errno _ _ _ _ _ _ _ _ _ _ Hs) as (Hr & Hne & Hst).
  apply (flush_served w1 c v keys body r st resp w2) in Hs as [H2 Hd]; [|by rewrite Hp1|done].
  assert (H12 : flushing w w2) by (by transitivity w1). destruct (Z.eqb_spec r 0) as [->|Hr0]; cbn [negb].
  - intros [= <- <-]. split; [done|]. split; [apply rpc_result_nonpos; lia|]. intros E. apply rpc_result_zero in E; [|lia]. by apply Hd.
  - destruct (Z.ltb_spec r 0); [|lia]. intros [= <- <-]. assert (rpc_result r = r) as -> by (unfold rpc_result, rpc_status; by ltb_true).
    split; [transitivity w2; [done|apply failed_flushing]|]. split; [lia|]. intros ->. lia.
Qed.

(** The UPDATE: not sent, or as the server does it. *)
Lemma filer_set_result (w w1 : W) ino ret new :
  ret < 2 ^ 16 -> filer_set w w1 ino ret new -> filer_set w w1 ino (rpc_result ret) new /\ rpc_result ret <= 0.
Proof.
  intros Hr (H1 & H2 & H3 & H4). split; [|by apply rpc_result_nonpos]. split_and!; try done. destruct H4 as [H4|[Hne H4]]; [by left|].
  right. split; [|done]. intros E. by apply rpc_result_zero in E.
Qed.

Lemma filer_set_refused (w : W) ino r new : r < 0 -> filer_set w w ino r new /\ r <= 0.
Proof. intros H. split; [|lia]. split_and!; try done. right. split; [lia|done]. Qed.

Lemma update_chunks_spec w shard ino size cid cs ret w' :
  is_u64 shard -> is_u64 ino -> is_u64 size -> client_ok cid -> Z.of_nat (length cs) <= 1489 -> Forall ref_ok (sent_refs cs) ->
  powerfs_net_update_inode_size_chunks w shard ino size (Some cid) cs None = (ret, w') ->
  filer_set w w' ino ret (mk_ff size (FChunks (ref_map <$> sent_refs cs))) /\ ret <= 0.
Proof.
  intros H1 H2 H3 H4 Hn Hr. unfold powerfs_net_update_inode_size_chunks. cbn [default from_option id]. rewrite blen_nil, bool_decide_eq_false_2 by by intros [? ?].
  cbn [andb str_client default from_option id]. do 2 (destruct (net_kvmalloc w _); cbn [negb]; [|intros [= <- <-]; by apply filer_set_refused]).
  assert (Hl : length (sent_refs cs) = length cs) by apply length_imap.
  pose proof (chunks_request_readable shard ino size cid (sent_refs cs) H1 H2 H3 H4 ltac:(lia)) as Hb. rewrite Hl in Hb.
  destruct (net_send_request _ _ _ _ _) as [[r resp] w1] eqn:Hs. assert (Hr1 : r < 2 ^ 16) by (eapply filer_response_ok; [|exact Hs]; done).
  intros [= <- <-]. apply filer_set_result; [done|]. eapply update_chunks_served; [exact Hb|done|exact Hs].
Qed.

Lemma update_inline_spec w shard ino size cid data ret w' :
  is_u64 shard -> is_u64 ino -> is_u64 size -> client_ok cid -> bytes_ok data -> 0 < blen data <= POWERFS_INLINE_MAX_SIZE ->
  powerfs_net_update_inode_size_chunks w shard ino size (Some cid) [] (Some data) = (ret, w') ->
  filer_set w w' ino ret (mk_ff size (FInline data)) /\ ret <= 0.
Proof.
  intros H1 H2 H3 H4 Hd Hn. unfold powerfs_net_update_inode_size_chunks. cbn [default from_option id length Z.of_nat].
  rewrite bool_decide_eq_true_2 by by eexists. rewrite (proj2 (Z.gtb_lt (blen data) 0)) by lia. cbn [andb str_client default from_option id].
  do 2 (destruct (net_kvmalloc w _); cbn [negb]; [|intros [= <- <-]; by apply filer_set_refused]).
  pose proof (inline_request_readable shard ino size cid data H1 H2 H3 H4 Hd ltac:(lia)) as Hb.
  destruct (net_send_request _ _ _ _ _) as [[r resp] w1] eqn:Hs. assert (Hr1 : r < 2 ^ 16) by (eapply filer_response_ok; [|exact Hs]; done).
  intros [= <- <-]. apply filer_set_result; [done|]. eapply update_inline_served; [exact Hb|exact Hs].
Qed.

Lemma setattr_spec w ino size ret w' :
  is_u64 ino -> is_u64 size -> powerfs_net_setattr w ino POWERFS_ATTR_SIZE 0 0 0 size 0 0 = (ret, w') ->
  filer_set w w' ino ret (mk_ff size (ff_data (filer w ino))) /\ ret <= 0.
Proof.
  intros H1 H2. unfold powerfs_net_setattr. pose proof (setattr_request_readable ino size H1 H2) as Hb.
  destruct (net_send_request _ _ _ _ _) as [[r resp] w1] eqn:Hs. assert (Hr1 : r < 2 ^ 16) by (eapply filer_response_ok; [|exact Hs]; done).
  intros [= <- <-]. apply filer_set_result; [done|]. eapply setattr_served; [exact Hb|exact Hs].
Qed.

End requests.

(** ** The chunk map *)

(** A file on the volumes whose addresses are 64 bits wide and computed: no
    chunk list, and nothing in the table but the chunks' own needles. *)
Definition committable (pi : layout_inode) (tbl : list wp_entry) : Prop :=
  layout_inv pi /\ geometry pi /\ is_u64 (volume_id pi) /\
  (forall vids, volume_ids (pi_stripe pi) = Some vids -> Forall is_u64 vids) /\
  on_volumes (placement pi) = true /\ unplaced pi = false /\
  (if is_stripe (placement pi) then tbl = [] else chunks (pi_chunks pi) = None /\ table_own pi tbl).

(** Every needle of the file has ids that are not 0. *)
Definition named (pi : layout_inode) (size : Z) : Prop :=
  forall o v n, 0 <= o < size -> powerfs_locate_chunk pi o = At v n -> v <> 0 /\ n <> 0.

(** An inode that has got the published map. *)
Definition has_map (pi : layout_inode) (chunk_size : Z) (map : list powerfs_chunk_map) : Prop :=
  layout_inv pi /\ geometry pi /\ placement pi = POWERFS_PLACEMENT_FLAT /\ chunk_size_of pi = chunk_size /\
  chunks (pi_chunks pi) = Some map.

Lemma u64_is_u64 x : is_u64 (u64 x).
Proof. unfold is_u64, u64. apply Z.mod_pos_bound. lia. Qed.

(** The address of a chunk of a committable file. *)
Lemma committable_address pi tbl g :
  committable pi tbl -> 0 <= g -> g * chunk_size_of pi < 2 ^ 63 ->
  exists v n, powerfs_locate_chunk pi (g * chunk_size_of pi) = At v n /\ is_u64 v /\ is_u64 n /\
    (is_stripe (placement pi) = false -> v = volume_id pi /\ n = u64 (file_key pi + g)).
Proof.
  intros (Hi & Hg & Hv & Hvs & Hon & Hun & Hm) Hg0 Hlt. pose proof (chunk_size_pos pi Hg) as Hc.
  rewrite locate_by_chunk by (done || nia). rewrite Z.div_mul by lia.
  pose proof (locate_in_bounds pi (g * chunk_size_of pi) Hi) as Hb. rewrite locate_by_chunk, Z.div_mul in Hb by (done || nia).
  unfold chunk_address in *. rewrite (proj2 (Z.eqb_neq (placement pi) POWERFS_PLACEMENT_INLINE)) in * by (intros E; rewrite E in Hon; done).
  unfold explicit_entry, unplaced in *. destruct (is_stripe (placement pi)) eqn:Hs.
  - apply orb_false_iff in Hun as [Hu1 Hu2]. apply negb_false_iff, bool_decide_eq_true in Hu1 as [vids Hvid]. rewrite Hvid in *.
    destruct Hg as (_ & _ & _ & Hcnt & _). rewrite (proj2 (Z.gtb_lt (volume_ids_count _) 0)) in * by (bool_to_prop; lia). cbn [andb] in *.
    unfold stripe_address in *. case_match; [|done]. case_match; [|done]. eexists _, _. split; [done|]. split; [|split; [apply u64_is_u64|done]].
    eapply Forall_lookup_1; [by apply Hvs|done].
  - destruct Hm as [Hch _]. rewrite Hch in *. cbn [mbind option_bind] in *. destruct Hi as (_ & _ & Hns & _). destruct (Hns Hs) as (-> & _).
    apply orb_false_iff in Hun as [Hu1 Hu2]. unfold locate_flat. rewrite Hu1, Hu2. cbn [orb]. eexists _, _. split; [done|]. split; [done|]. split; [apply u64_is_u64|done].
Qed.

(** The entry that is made for it. *)
Lemma sync_chunk_spec pi tbl size count ci :
  committable pi tbl -> Z.of_nat ci * chunk_size_of pi < 2 ^ 63 ->
  exists v n, powerfs_locate_chunk pi (Z.of_nat ci * chunk_size_of pi) = At v n /\ is_u64 v /\ is_u64 n /\
    sync_chunk pi tbl size (chunk_size_of pi) count ci = Some (mk_cm (Z.of_nat ci) n v 0
      (if Z.of_nat ci =? count - 1 then u64 (size - Z.of_nat ci * chunk_size_of pi) else chunk_size_of pi)).
Proof.
  intros Hc Hlt. destruct (committable_address pi tbl (Z.of_nat ci) Hc ltac:(lia) Hlt) as (v & n & Hl & Hv & Hn & Hf).
  exists v, n. split; [done|]. split; [done|]. split; [done|]. destruct Hc as (Hi & Hg & _ & _ & _ & _ & Hm). pose proof (chunk_size_pos pi Hg).
  unfold sync_chunk. rewrite (u64_small (Z.of_nat ci * chunk_size_of pi)) by (unfold is_u64; nia).
  destruct (is_stripe (placement pi)).
  - rewrite Hl, Hm. unfold wp_entry_at. case_if; [done|]. rewrite lookup_nil. done.
  - destruct Hm as [_ Hown], (Hf eq_refl) as [-> ->]. destruct (wp_entry_at tbl (Z.of_nat ci)) as [e|] eqn:He; [|done].
    destruct (fp_valid e && negb (e_needle_id e =? 0)) eqn:E; [|done]. apply andb_true_iff in E as [_ E]. apply negb_true_iff, Z.eqb_neq in E.
    destruct (Hown _ _ He) as [E0|[-> ->]]; [done|]. done.
Qed.

Lemma chunk_count_spec C size :
  0 < C < 2 ^ 32 -> 0 < size < 2 ^ 63 -> size <= 4096 * C ->
  let n := chunk_count_of C size in 0 < n <= 4096 /\ (n - 1) * C < size <= n * C.
Proof.
  intros HC Hs Hm. unfold chunk_count_of. rewrite (u64_small (size + C - 1)) by (unfold is_u64; lia).
  pose proof (Z.div_mod (size + C - 1) C ltac:(lia)). pose proof (Z.mod_pos_bound (size + C - 1) C ltac:(lia)).
  set (q := (size + C - 1) / C) in *. assert (0 < q <= 4096) by nia. rewrite u32_small by (unfold is_u32; lia).
  destruct (Z.gtb_spec q 4096); [lia|]. nia.
Qed.

(** The array: one entry for every chunk of the file. *)
Lemma sync_chunks_spec pi tbl size :
  committable pi tbl -> 0 < size < 2 ^ 63 -> size <= 4096 * chunk_size_of pi ->
  let C := chunk_size_of pi in let count := chunk_count_of C size in
  exists cs, sync_chunks pi tbl size = Some cs /\ Z.of_nat (length cs) = count /\
    (forall g, 0 <= g < count -> exists v n sz, cs !! Z.to_nat g = Some (mk_cm g n v 0 sz) /\
       powerfs_locate_chunk pi (g * C) = At v n /\ is_u64 v /\ is_u64 n /\ is_u64 sz).
Proof.
  intros Hc Hs Hm C count. destruct Hc as (Hi & Hg & Hrest). pose proof (chunk_size_pos pi Hg) as HC. fold C in HC, Hm.
  assert (HC2 : C < 2 ^ 32) by (unfold C, chunk_size_of, POWERFS_CHUNK_SIZE; destruct Hg as (? & _); case_if; lia).
  destruct (chunk_count_spec C size ltac:(lia) Hs Hm) as [Hn1 Hn2]. fold count in Hn1, Hn2.
  assert (Hspec : forall ci, (ci < Z.to_nat count)%nat -> Z.of_nat ci * C < 2 ^ 63) by (intros; nia).
  assert (Hall : forall k, (k <= Z.to_nat count)%nat -> exists cs, mapM (sync_chunk pi tbl size C count) (seq 0 k) = Some cs).
  { intros k Hk. destruct (mapM (sync_chunk pi tbl size C count) (seq 0 k)) as [cs|] eqn:E; [by eexists|]. exfalso.
    apply mapM_None_1, Exists_exists in E as (ci & Hin & E). apply elem_of_seq in Hin.
    destruct (sync_chunk_spec pi tbl size count ci) as (? & ? & _ & _ & _ & E2); [exact (conj Hi (conj Hg Hrest))|apply Hspec; lia|]. fold C in E2. congruence. }
  destruct (Hall (Z.to_nat count) ltac:(lia)) as [cs Hcs]. exists cs. unfold sync_chunks. fold C count. split; [done|].
  apply mapM_Some_1 in Hcs. split; [rewrite <- (Forall2_length _ _ _ Hcs), length_seq; lia|]. intros g Hgr.
  destruct (sync_chunk_spec pi tbl size count (Z.to_nat g)) as (v & n & Hl & Hv & Hn & E); [exact (conj Hi (conj Hg Hrest))|apply Hspec; lia|]. fold C in Hl, E.
  rewrite Z2Nat.id in Hl, E by lia.
  destruct (Forall2_lookup_l _ _ _ (Z.to_nat g) (Z.to_nat g) Hcs) as (cm & Hcm & E2); [apply lookup_seq; lia|].
  rewrite E in E2. injection E2 as <-. eexists v, n, _. split; [done|]. split; [done|]. split; [done|]. split; [done|].
  case_if; [apply u64_is_u64|unfold is_u64; lia].
Qed.

(** The entry of the chunk of an offset. *)
Lemma map_entry pi tbl size cs o :
  committable pi tbl -> 0 < size < 2 ^ 63 -> size <= 4096 * chunk_size_of pi ->
  sync_chunks pi tbl size = Some cs -> 0 <= o < size ->
  exists v n sz, cs !! Z.to_nat (o / chunk_size_of pi) = Some (mk_cm (o / chunk_size_of pi) n v 0 sz) /\
    powerfs_locate_chunk pi o = At v n.
Proof.
  intros Hc Hs Hm Hcs Ho. destruct (sync_chunks_spec pi tbl size Hc Hs Hm) as (cs0 & E0 & Hlen & Hall).
  assert (cs0 = cs) as -> by congruence. clear E0 Hcs Hlen. destruct Hc as (Hi & Hg & _). pose proof (chunk_size_pos pi Hg) as HC.
  assert (HC2 : chunk_size_of pi < 2 ^ 32) by (unfold chunk_size_of, POWERFS_CHUNK_SIZE; destruct Hg as (? & _); case_if; lia).
  destruct (chunk_count_spec (chunk_size_of pi) size ltac:(lia) Hs Hm) as [Hn1 Hn2].
  rewrite (locate_by_chunk pi o) by (done || lia). set (C := chunk_size_of pi) in *. set (count := chunk_count_of C size) in *.
  pose proof (Z.div_mod o C ltac:(lia)) as Hdm. pose proof (Z.mod_pos_bound o C HC) as Hmb. set (g := o / C) in *.
  assert (Hgr : 0 <= g < count) by (clear Hall; nia). assert (Hgc : 0 <= g * C < 2 ^ 63) by (clear Hall; nia).
  destruct (Hall g Hgr) as (v & n & sz & Hcm & Hl & _). exists v, n, sz. split; [done|].
  rewrite locate_by_chunk in Hl by done. fold C in Hl. by rewrite Z.div_mul in Hl by lia.
Qed.

(** Who reads the map finds the needle that the writer uses. *)
Lemma map_located pi tbl size cs pi' o :
  committable pi tbl -> named pi size -> 0 < size < 2 ^ 63 -> size <= 4096 * chunk_size_of pi ->
  sync_chunks pi tbl size = Some cs -> has_map pi' (chunk_size_of pi) (ref_map <$> sent_refs cs) -> 0 <= o < size ->
  exists v n, powerfs_locate_chunk pi o = At v n /\ powerfs_locate_chunk pi' o = At v n /\
    exists c, c ∈ cs /\ cm_volume_id c = v /\ cm_needle_id c = n.
Proof.
  intros Hc Hnm Hs Hm Hcs (Hi' & Hg' & Hp' & Hcs' & Hch') Ho.
  destruct (map_entry pi tbl size cs o Hc Hs Hm Hcs Ho) as (v & n & sz & Hcm & Hlo). exists v, n.
  split; [done|]. destruct (Hnm o v n Ho Hlo) as [Hv0 Hn0]. split.
  - rewrite locate_by_chunk, Hcs' by (done || lia). unfold chunk_address, explicit_entry. rewrite Hp', Hch'.
    cbn [Z.eqb is_stripe orb POWERFS_PLACEMENT_FLAT mbind option_bind]. rewrite list_lookup_fmap. unfold sent_refs. rewrite list_lookup_imap, Hcm.
    cbn. rewrite !(proj2 (Z.eqb_neq _ 0)) by done. done.
  - eexists. split; [by eapply list_elem_of_lookup_2|]. done.
Qed.

(** The ids of the entries. *)
Lemma map_ids pi tbl size cs :
  committable pi tbl -> named pi size -> 0 < size < 2 ^ 63 -> size <= 4096 * chunk_size_of pi -> sync_chunks pi tbl size = Some cs ->
  Forall (fun c => is_u64 (cm_volume_id c) /\ is_u64 (cm_needle_id c) /\ cm_volume_id c <> 0 /\ cm_needle_id c <> 0) cs /\
  Forall ref_ok (sent_refs cs).
Proof.
  intros Hc Hnm Hs Hm Hcs. destruct (sync_chunks_spec pi tbl size Hc Hs Hm) as (cs0 & E0 & Hlen & Hall).
  assert (cs0 = cs) as -> by congruence. clear E0. destruct Hc as (Hi & Hg & _). pose proof (chunk_size_pos pi Hg) as HC. set (C := chunk_size_of pi) in *.
  assert (HC2 : C < 2 ^ 32) by (unfold C, chunk_size_of, POWERFS_CHUNK_SIZE; destruct Hg as (? & _); case_if; lia).
  destruct (chunk_count_spec C size ltac:(lia) Hs Hm) as [Hn1 Hn2]. set (count := chunk_count_of C size) in *.
  assert (Hat : forall i c, cs !! i = Some c -> exists v n sz, c = mk_cm (Z.of_nat i) n v 0 sz /\
    powerfs_locate_chunk pi (Z.of_nat i * C) = At v n /\ is_u64 v /\ is_u64 n /\ is_u64 sz /\ 0 <= Z.of_nat i < count).
  { intros i c E. pose proof (lookup_lt_Some _ _ _ E). destruct (Hall (Z.of_nat i)) as (v & n & sz & E' & ?); [lia|].
    rewrite Nat2Z.id in E'. assert (c = mk_cm (Z.of_nat i) n v 0 sz) as -> by congruence. exists v, n, sz. split; [done|]. destruct_and?. split_and!; try done; lia. }
  split; apply Forall_lookup_2.
  - intros i c E. destruct (Hat i c E) as (v & n & sz & -> & Hl & Hv & Hn & _ & Hir). cbn. split; [done|]. split; [done|].
    apply (Hnm (Z.of_nat i * C)); [nia|done].
  - intros i r. unfold sent_refs. rewrite list_lookup_imap. intros E. apply fmap_Some in E as (c & E & ->).
    destruct (Hat i c E) as (v & n & sz & -> & _ & Hv & Hn & Hsz & _). unfold ref_ok, sent_ref. cbn. split_and!; try done. apply u64_is_u64.
Qed.

(** ** Flushing the volumes *)

Section commit.
Context {W : Type} `{NT : !NetTransport W} `{VT : !VolumeTransport W} `{VS : !VolumeServers W} `{DS : !DiskServers W} `{FI : !Filer W}
        `{NOK : !NetTransportOk W} `{VOK : !VolumeServersOk W} `{COK : !CommitServersOk W}.

Definition ids_fine (c : powerfs_chunk_map) : Prop :=
  is_u64 (cm_volume_id c) /\ is_u64 (cm_needle_id c) /\ cm_volume_id c <> 0 /\ cm_needle_id c <> 0.

Definition cm_durable (w : W) (c : powerfs_chunk_map) : Prop := durable w (cm_volume_id c) (cm_needle_id c).

Lemma needles_of_elem c cs : c ∈ cs -> ids_fine c -> cm_needle_id c ∈ needles_of (cm_volume_id c) cs.
Proof.
  intros Hin (_ & _ & _ & Hn). apply list_elem_of_fmap. exists c. split; [done|]. apply list_elem_of_In, filter_In.
  split; [by apply list_elem_of_In|]. rewrite Z.eqb_refl. by rewrite (proj2 (Z.eqb_neq _ 0)).
Qed.

Lemma needles_of_fine v cs : Forall ids_fine cs -> Forall is_u64 (needles_of v cs) /\ (length (needles_of v cs) <= length cs)%nat.
Proof.
  unfold needles_of. induction 1 as [|c cs (_ & Hn & _) _ [IH1 IH2]]; [by split; [constructor|]|]. cbn [List.filter].
  case_if; cbn [fmap list_fmap length]; (split; [|lia]); [by constructor|done].
Qed.

(** A volume that was passed has been flushed, with all its needles. *)
Lemma flush_volumes_spec rest : forall w before ret w',
  Forall ids_fine rest -> Z.of_nat (length rest) < 2 ^ 32 ->
  (forall b c, b ∈ before -> c ∈ rest -> cm_volume_id c = cm_volume_id b -> cm_durable w c) ->
  flush_volumes w before rest = (ret, w') ->
  flushing w w' /\ ret <= 0 /\ (ret = 0 -> Forall (cm_durable w') rest).
Proof.
  induction rest as [|c cs IH]; intros w before ret w' Hf Hlen Hb; cbn [flush_volumes]; [intros [= <- <-]; by split_and!|].
  pose proof Hf as [(Hv & Hn & Hv0 & Hn0) Hf']%Forall_cons. rewrite !(proj2 (Z.eqb_neq _ 0)) by done. cbn [orb].
  assert (Hstep : forall w1, flushing w w1 -> cm_durable w1 c ->
     (forall d, d ∈ cs -> cm_volume_id d = cm_volume_id c -> cm_durable w1 d) ->
     flush_volumes w1 (before ++ [c]) cs = (ret, w') -> flushing w w' /\ ret <= 0 /\ (ret = 0 -> Forall (cm_durable w') (c :: cs))).
  { intros w1 H1 Hc Hd E. apply IH in E as (H2 & Hr & Hok); [|done|cbn in Hlen; lia|].
    - split; [by transitivity w1|]. split; [done|]. intros ->. constructor; [by apply H2|by apply Hok].
    - intros b d [Hin| ->%list_elem_of_singleton]%elem_of_app Hdin Ev; [|by apply Hd].
      apply H1. apply (Hb b d Hin); [by right|done]. }
  destruct (existsb _ before) eqn:Hex.
  - apply existsb_exists in Hex as (b & Hin & Eb%Z.eqb_eq). apply list_elem_of_In in Hin. apply Hstep; [done|apply (Hb b c); [done|by left|done]|].
    intros d Hd E. apply (Hb b d); [done|by right|congruence].
  - destruct (powerfs_net_flush_needles w _ _) as [r w1] eqn:Hfl. destruct (needles_of_fine (cm_volume_id c) (c :: cs) Hf) as [Hk1 Hk2].
    apply flush_needles_spec in Hfl as (H1 & Hr & Hok); [|done|done|lia].
    destruct (Z.eqb_spec r 0) as [->|Hne]; cbn [negb].
    + specialize (Hok eq_refl). rewrite Forall_forall in Hok.
      assert (Hall : forall d, d ∈ c :: cs -> cm_volume_id d = cm_volume_id c -> cm_durable w1 d).
      { intros d Hd E. unfold cm_durable. rewrite E. apply Hok. rewrite <- E. apply needles_of_elem; [done|]. rewrite Forall_forall in Hf. by apply Hf. }
      apply Hstep; [done|apply Hall; [by left|done]|]. intros d Hd. apply Hall. by right.
    + intros [= <- <-]. split; [done|]. split; [done|]. done.
Qed.

(** ** Publishing *)

Lemma filer_set_trans (w w1 w2 : W) ino r1 r2 new :
  r1 <> 0 -> filer_set w w1 ino r1 new -> filer_set w1 w2 ino r2 new -> filer_set w w2 ino r2 new.
Proof.
  intros Hr (A1 & A2 & A3 & A4) (B1 & B2 & B3 & B4). split; [intros v n; by rewrite B1|]. split; [intros v n; by rewrite B2|].
  split; [intros i Hi; by rewrite B3, A3|]. destruct B4 as [B4|[Hr2 B4]]; [by left|]. rewrite B4. destruct A4 as [A4|[_ A4]]; [by left|]. by right.
Qed.

Lemma update_attempts_spec k : forall (w : W) shard ino size cid cs data new r0 ret w',
  (forall w r w', powerfs_net_update_inode_size_chunks w shard ino size (Some cid) cs data = (r, w') -> filer_set w w' ino r new /\ r <= 0) ->
  (k = 0%nat -> r0 < 0) -> update_attempts k w shard ino size cid cs data r0 = (ret, w') -> filer_set w w' ino ret new /\ ret <= 0.
Proof.
  induction k as [|k IH]; intros w shard ino size cid cs data new r0 ret w' Hup Hr0; cbn [update_attempts]; [intros [= <- <-]; by apply filer_set_refused, Hr0|].
  destruct (powerfs_net_update_inode_size_chunks _ _ _ _ _ _ _) as [r w1] eqn:Hu. apply Hup in Hu as [Hu Hr].
  destruct (Z.eqb_spec r 0) as [->|Hne]; [by intros [= <- <-]|]. intros E. eapply IH in E as [E Hr2]; [|done|lia].
  split; [|done]. by eapply filer_set_trans.
Qed.

Context (alloc : cm_alloc -> bool) (falloc : fl_alloc -> bool) (route : Z -> Z)
        (gap : cm_gap -> commit_inode -> commit_inode) (fgap : fl_gap -> file_inode -> file_inode) (env : fs_env W).
Hypothesis (route_ok : forall i, is_u64 (route i)) (gap_ino : forall g c, c_ino (gap g c) = c_ino c).

(** A file that can be committed in one message. *)
Definition commit_ready (c : commit_inode) : Prop :=
  committable (c_lay c) (c_tbl c) /\ named (c_lay c) (c_size c) /\ 0 < c_size c < 2 ^ 63 /\
  c_size c <= 1489 * chunk_size_of (c_lay c) /\ is_u64 (c_ino c).

(** Every byte of the file is on disk, as it was in [w]. *)
Definition all_on_disk (w w' : W) (c : commit_inode) : Prop :=
  forall o v n, 0 <= o < c_size c -> powerfs_locate_chunk (c_lay c) o = At v n -> on_disk w' v n = needle w v n.

(** The filer has the size and a map of the file; a client with this map finds
    each byte where the writer has it, and it is on disk. *)
Definition published (w w' : W) (c : commit_inode) : Prop :=
  exists map, filer w' (c_ino c) = mk_ff (c_size c) (FChunks map) /\
  forall pi', has_map pi' (chunk_size_of (c_lay c)) map -> forall o, 0 <= o < c_size c ->
  exists v n, powerfs_locate_chunk (c_lay c) o = At v n /\ powerfs_locate_chunk pi' o = At v n /\ on_disk w' v n = needle w v n.

(** What a commit may do. *)
Definition commit_outcome (w w' : W) (c c' : commit_inode) (committed ret : Z) : Prop :=
  ret <= 0 /\ same_needles w w' /\ (forall i, i <> c_ino c -> filer w' i = filer w i) /\
  (filer w' (c_ino c) = filer w (c_ino c) \/ published w w' c) /\
  (ret = 0 -> all_on_disk w w' c /\ content_size c' = c_size c /\ (committed <> c_size c -> published w w' c)).

Lemma commit_published (w w1 w2 : W) c cs ret :
  commit_ready c -> sync_chunks (c_lay c) (c_tbl c) (c_size c) = Some cs -> flushing w w1 -> Forall (cm_durable w1) cs ->
  filer_set w1 w2 (c_ino c) ret (mk_ff (c_size c) (FChunks (ref_map <$> sent_refs cs))) ->
  all_on_disk w w2 c /\ (filer w2 (c_ino c) = mk_ff (c_size c) (FChunks (ref_map <$> sent_refs cs)) -> published w w2 c).
Proof.
  intros (Hc & Hnm & Hs & Hm & _) Hcs (N1 & _ & _) Hd (N2 & D2 & _ & _). pose proof Hc as (Hi & Hg & Hrest).
  pose proof (chunk_size_pos _ Hg) as HC.
  rewrite Forall_forall in Hd.
  assert (Hdisk : forall d, d ∈ cs -> on_disk w2 (cm_volume_id d) (cm_needle_id d) = needle w (cm_volume_id d) (cm_needle_id d)).
  { intros d Hin. rewrite D2, <- (N1 (cm_volume_id d) (cm_needle_id d)). by apply Hd. }
  split.
  - intros o v n Ho Hl. destruct (map_entry _ _ _ _ o Hc Hs ltac:(lia) Hcs Ho) as (v' & n' & sz & Hcm & Hl').
    assert (v' = v /\ n' = n) as [-> ->] by (split; congruence). apply list_elem_of_lookup_2 in Hcm. by apply Hdisk in Hcm.
  - intros Hfil. exists (ref_map <$> sent_refs cs). split; [done|]. intros pi' Hmap o Ho.
    destruct (map_located _ _ _ _ _ o Hc Hnm Hs ltac:(lia) Hcs Hmap Ho) as (v & n & H1 & H2 & d & Hin & <- & <-). exists (cm_volume_id d), (cm_needle_id d). auto.
Qed.

Lemma sync_outcome w c source k :
  commit_ready c -> client_ok source ->
  exists ret c' w', powerfs_sync_inode_size_chunks alloc route gap w c source k = Some (ret, c', w') /\
    c_ino c' = c_ino c /\ commit_outcome w w' c c' (content_size (gap CG_gate c)) ret.
Proof.
  intros Hr Hsrc. pose proof Hr as (Hc & Hnm & Hs & Hm & Hi). unfold powerfs_sync_inode_size_chunks.
  pose proof Hc as (_ & Hg & _ & _ & Hon & Hun & _). pose proof (chunk_size_pos _ Hg). rewrite Hon, Hun, (proj2 (Z.eqb_neq (c_size c) 0)) by lia. cbn [negb orb].
  assert (Hkeep : forall e w1, e < 0 -> flushing w w1 -> commit_outcome w w1 c c (content_size (gap CG_gate c)) e).
  { intros e w1 He (N & F & _). split; [lia|]. split; [done|]. split; [by intros|]. split; [by left|]. intros ->. lia. }
  destruct (alloc CA_chunks); cbn [negb]; [|eexists _, _, _; split; [done|]; split; [done|]; by apply Hkeep].
  destruct (sync_chunks_spec _ _ _ Hc Hs ltac:(lia)) as (cs & Hcs & Hlen & _). rewrite Hcs.
  destruct (alloc CA_keys); cbn [negb]; [|eexists _, _, _; split; [done|]; split; [done|]; by apply Hkeep].
  destruct (map_ids _ _ _ _ Hc Hnm Hs ltac:(lia) Hcs) as [Hids Href].
  assert (HC2 : chunk_size_of (c_lay c) < 2 ^ 32) by (unfold chunk_size_of, POWERFS_CHUNK_SIZE; destruct Hg as (? & _); case_if; lia).
  destruct (chunk_count_spec (chunk_size_of (c_lay c)) (c_size c) ltac:(lia) Hs ltac:(lia)) as [Hn1 Hn2].
  destruct (flush_volumes w [] cs) as [fr w1] eqn:Hfl. apply flush_volumes_spec in Hfl as (H1 & Hfr & Hdur); [|done|lia|by intros ? ? ?%elem_of_nil].
  destruct (Z.eqb_spec fr 0) as [->|Hne]; cbn [negb]; [|eexists _, _, _; split; [done|]; split; [done|]; apply Hkeep; [lia|done]].
  specialize (Hdur eq_refl). destruct ((c_size c =? content_size (gap CG_gate c)) && negb (wp_map_dirty (gap CG_gate c))) eqn:Hgate.
  - apply andb_true_iff in Hgate as [Hgate%Z.eqb_eq _]. eexists _, _, _. split; [done|]. split; [apply gap_ino|].
    pose proof (commit_published w w1 w1 c cs 1 Hr Hcs H1 Hdur) as [Hd _].
    { split; [done|]. split; [done|]. split; [done|]. by right. }
    destruct H1 as (N & F & _). split; [done|]. split; [done|]. split; [by intros|]. split; [by left|]. intros _. split; [done|]. split; [done|]. intros Hx. by rewrite Hgate in Hx.
  - destruct (update_attempts k w1 _ _ _ _ _ _ _) as [ret w2] eqn:Hup.
    apply (update_attempts_spec k _ _ _ _ _ _ _ (mk_ff (c_size c) (FChunks (ref_map <$> sent_refs cs)))) in Hup as [Hset Hret]; [|intros ? ? ? Hu; apply update_chunks_spec in Hu; [done|apply route_ok|by rewrite gap_ino|unfold is_u64; lia|done|nia|done]|done].
    rewrite gap_ino in Hset. pose proof (commit_published w w1 w2 c cs ret Hr Hcs H1 Hdur Hset) as [Hd Hpub].
    eexists _, _, _. split; [done|]. split; [case_if; apply (eq_trans (gap_ino _ _) (gap_ino _ _))|].
    destruct H1 as (N & F & _), Hset as (N2 & _ & O2 & S2). split; [done|]. split; [intros v n; by rewrite N2|].
    split; [intros i Hi'; by rewrite O2|]. split; [destruct S2 as [S2|[_ S2]]; [right; by apply Hpub|left; by rewrite S2, F]|].
    intros ->. split; [done|]. split; [done|]. intros _. apply Hpub. by destruct S2 as [S2|[? _]].
Qed.

(** C38. A commit of a file that is [commit_ready]: it lies on the volumes with
    computed addresses (no chunk list, nothing in the prediction table but the
    chunks' own needles), all its volume and needle ids are not 0, and it has
    between 1 and 1489 chunks.  Then [powerfs_sync_inode_size_chunks] always
    returns.  Whatever fails, and however often the request is repeated, the
    filer keeps what it had, or gets the size and the map of the whole file
    with every needle on disk before; a client that has the map then finds each
    byte at the address the writer uses.  With result 0 every byte is on disk,
    and the map is published unless the size was the committed one.  (Each
    condition is needed: [zero_needle_hides_volume], [list_not_published],
    [large_map_left_out].) *)
Theorem commit_data_first (w : W) (c : commit_inode) (source : buffer) (k : nat) :
  commit_ready c -> client_ok source ->
  exists ret c' w', powerfs_sync_inode_size_chunks alloc route gap w c source k = Some (ret, c', w') /\
    commit_outcome w w' c c' (content_size (gap CG_gate c)) ret.
Proof.
  intros Hr Hs. destruct (sync_outcome w c source k Hr Hs) as (ret & c' & w' & E & _ & H). by exists ret, c', w'.
Qed.

(** ** Inline data *)

(** The data of an inline file; no other thread changes the file during the
    copy. *)
Definition steady (c : commit_inode) (data : buffer) : Prop :=
  let i := f_inline (c_file c) in
  inline_data i = Some data /\ inline_len i = blen data /\ bytes_ok data /\ 0 < blen data <= POWERFS_INLINE_MAX_SIZE /\
  is_u64 (c_ino c) /\ c_file (gap CG_snap c) = c_file c.

Lemma snapshot_steady c data :
  steady c data -> snapshot alloc gap c = (if alloc CA_snap then (Snap data, gap CG_snap c) else (NoMem, c)).
Proof.
  intros (Hd & Hl & _ & Hb & _ & Hg). unfold snapshot. rewrite Hd, Hl, (proj2 (Z.eqb_neq (blen data) 0)) by lia.
  destruct (alloc CA_snap); cbn [negb]; [|done]. by rewrite Hg, Hd, Hl, Z.eqb_refl, take_blen.
Qed.

Lemma update_data_spec w c cid data ret w' :
  steady c data -> client_ok cid ->
  powerfs_net_update_inode_size_chunks w (shard_of route (gap CG_snap c)) (c_ino (gap CG_snap c)) (blen data) (Some cid) [] (Some data) = (ret, w') ->
  filer_set w w' (c_ino c) ret (mk_ff (blen data) (FInline data)) /\ ret <= 0.
Proof.
  intros (_ & _ & Hok & Hb & Hi & _) Hc Hu. rewrite gap_ino in Hu. unfold POWERFS_INLINE_MAX_SIZE in Hb.
  eapply update_inline_spec; [apply route_ok|done|unfold is_u64; lia|exact Hc|done|exact Hb|exact Hu].
Qed.

Lemma kernel_names_ok : client_ok str_kernel /\ client_ok str_kernel_fsync /\ client_ok str_kernel_release.
Proof. unfold client_ok, bytes_ok. split_and!; (done || by repeat constructor). Qed.

Lemma clear_is_clean c : inline_is_dirty (clear_inline_dirty c) = false.
Proof. unfold inline_is_dirty, clear_inline_dirty. cbn. by rewrite andb_false_r. Qed.

(** A close that commits inline data: either it is with the filer and the
    inode is clean, or the filer did not confirm it in five attempts and the
    inode is as it was left. *)
Lemma release_inline_outcome w c data c' w' :
  steady c data -> release_inline alloc route gap w c = (c', w') ->
  filer w' (c_ino c) = mk_ff (blen data) (FInline data) /\ inline_is_dirty c' = false \/
  c' = c \/ c' = gap CG_update (gap CG_snap c).
Proof.
  intros Hs. unfold release_inline. rewrite (snapshot_steady c data Hs). destruct (alloc CA_snap); [|intros [= <- <-]; by right; left].
  destruct (update_attempts 5 _ _ _ _ _ _ _ _) as [ret w1] eqn:Hu.
  apply (update_attempts_spec 5 _ _ _ _ _ _ _ (mk_ff (blen data) (FInline data))) in Hu as [Hset Hr];
    [|intros ? ? ? Hu'; rewrite gap_ino; eapply (update_data_spec _ _ str_kernel); [exact Hs|apply kernel_names_ok|exact Hu']|done].
  destruct (Z.eqb_spec ret 0) as [->|Hne]; intros [= <- <-]; [|by right; right]. left. split; [|apply clear_is_clean].
  rewrite gap_ino in Hset. destruct Hset as (_ & _ & _ & [Hf|[? _]]); done.
Qed.

(** ** fsync *)

(** The inode and the world when [powerfs_fsync] starts to commit. *)
Definition at_commit (w : W) (c : commit_inode) (start last : Z) : commit_inode * W :=
  let '(cap_err, got, c, w) := e_get_caps env w c last in
  let got := if cap_err <? 0 then 0 else got in
  let '(c, w) := if Z.land got POWERFS_CAP_WR_DATA =? 0 then (c, w) else e_cap_flush env w c in
  let '(f, w) := e_flush_create env w (c_file c) in
  let '(_, c, w) := e_writeback env w (set_file c f) start last in
  let '(_, c, w) := align_file falloc route fgap env w c in (c, w).

(** Putting references changes neither the file nor the servers. *)
Hypothesis put_quiet : forall w c r c' w', e_put_refs env w c r = (c', w') ->
  c_file c' = c_file c /\ same_needles w w' /\ same_disk w w' /\ same_filer w w'.

Definition fsynced (w w' : W) (c c' : commit_inode) : Prop :=
  (forall data, inline_is_dirty c = true -> steady c data ->
     filer w' (c_ino c) = mk_ff (blen data) (FInline data) /\ inline_is_dirty c' = false) /\
  (inline_is_dirty c = false -> commit_ready c ->
     all_on_disk w w' c /\ (content_size (gap CG_gate c) <> c_size c -> published w w' c)) /\
  (inline_is_dirty c = true -> fst (snapshot alloc gap c) = Changed -> same_filer w w').

Lemma published_later (w w1 w2 : W) c :
  same_disk w1 w2 -> filer w2 (c_ino c) = filer w1 (c_ino c) -> published w w1 c -> published w w2 c.
Proof.
  intros Hd Hf (refs & E & H). exists refs. split; [by rewrite Hf|]. intros pi' Hm o Ho. destruct (H pi' Hm o Ho) as (v & n & H1 & H2 & H3).
  exists v, n. split; [done|]. split; [done|]. by rewrite Hd.
Qed.

Lemma fsync_inline_spec w c ret c' w' data :
  steady c data -> fsync_inline alloc route gap w c ret = (0, c', w') ->
  filer w' (c_ino c) = mk_ff (blen data) (FInline data) /\ inline_is_dirty c' = false.
Proof.
  intros Hs. unfold fsync_inline. rewrite (snapshot_steady c data Hs). destruct (alloc CA_snap); [|done].
  destruct (powerfs_net_update_inode_size_chunks _ _ _ _ _ _ _) as [r w1] eqn:Hu.
  apply (update_data_spec _ _ str_kernel) in Hu as [(_ & _ & _ & Hset) Hr]; [|exact Hs|apply kernel_names_ok]. case_if; [intros [= -> <- <-]; lia|].
  intros [= -> <- <-]. split; [|apply clear_is_clean]. by destruct Hset as [?|[? _]].
Qed.

(** Data whose length changed during the copy are not committed. *)
Lemma fsync_inline_changed w c ret r c' w' :
  fst (snapshot alloc gap c) = Changed -> fsync_inline alloc route gap w c ret = (r, c', w') -> w' = w.
Proof. unfold fsync_inline. destruct (snapshot alloc gap c) as [[]]; try done. by intros _ [= _ _ <-]. Qed.

Lemma fsync_chunks_spec w c c' w' :
  commit_ready c -> fsync_chunks alloc route gap w c = Some (0, c', w') ->
  all_on_disk w w' c /\ (content_size (gap CG_gate c) <> c_size c -> published w w' c).
Proof.
  intros Hr. pose proof Hr as ((_ & _ & _ & _ & Hon & _) & _ & Hs & _ & Hi). unfold fsync_chunks.
  rewrite Hon, (proj2 (Z.gtb_lt (c_size c) 0)) by lia. cbn [andb].
  destruct (sync_outcome w c str_kernel_fsync 1 Hr ltac:(apply kernel_names_ok)) as (r & c1 & w1 & -> & Hino & Hr1 & _ & _ & _ & Hok).
  destruct (Z.ltb_spec r 0); [intros [= -> _ _]; lia|]. destruct (Hok ltac:(lia)) as (Hd & _ & Hpub).
  case_if; [by intros [= <- <-]|]. destruct (powerfs_net_setattr _ _ _ _ _ _ _ _ _) as [sret w2] eqn:Hset.
  apply setattr_spec in Hset as [(N & D & _ & F) Hsr]; [|by rewrite gap_ino, Hino|unfold is_u64; lia]. rewrite gap_ino, Hino in F.
  destruct (Z.ltb_spec sret 0); [intros [= -> _ _]; lia|]. intros [= <- <-]. destruct F as [F|[? _]]; [|lia]. split.
  - intros o v n Ho Hl. rewrite D. by apply (Hd o).
  - intros Hne. destruct (Hpub Hne) as (refs & Ef & Hm). apply (published_later w w1); [done|rewrite F, Ef; done|by exists refs].
Qed.

(** C39. [powerfs_fsync] that returns 0 has, for the file as it was when its
    pages had been written back: committed inline data that no other thread
    changed during the copy ([steady]): they are with the filer and the inode
    is clean; for a clean inode that is [commit_ready] (see the commit above)
    every byte is on disk and the filer has the map of the file, unless it had
    committed this size before.  When the length of the inline data changed
    during the copy, it has committed nothing. *)
Theorem fsync_commits (w : W) (c : commit_inode) (start last : Z) (c' : commit_inode) (w' : W) :
  powerfs_fsync alloc falloc route gap fgap env w c start last = Some (0, c', w') ->
  let '(c1, w1) := at_commit w c start last in fsynced w1 w' c1 c'.
Proof.
  unfold powerfs_fsync, at_commit. destruct (e_get_caps env w c last) as [[[cap_err got] c1] w1].
  destruct (if Z.land (if cap_err <? 0 then 0 else got) POWERFS_CAP_WR_DATA =? 0 then (c1, w1) else e_cap_flush env w1 c1) as [c2 w2].
  destruct (e_flush_create env w2 (c_file c2)) as [f w3]. destruct (e_writeback env w3 (set_file c2 f) start last) as [[ret c4] w4].
  unfold fsync_commit. destruct (align_file falloc route fgap env w4 c4) as [[aret c5] w5]. set (g := if cap_err <? 0 then 0 else got).
  assert (Hput : forall c w, exists c' w', (if g =? 0 then (c, w) else e_put_refs env w c g) = (c', w') /\
    c_file c' = c_file c /\ same_disk w w' /\ same_filer w w').
  { intros c0 w0. case_if; [by exists c0, w0|]. destruct (e_put_refs env w0 c0 g) as [c9 w9] eqn:Ep. apply put_quiet in Ep as (? & _ & ? & ?). by exists c9, w9. }
  destruct (Z.ltb_spec ret 0).
  { destruct (Hput c4 w4) as (? & ? & -> & _). intros [= -> _ _]. lia. }
  destruct (Z.ltb_spec aret 0).
  { destruct (Hput c5 w5) as (? & ? & -> & _). intros [= -> _ _]. lia. }
  destruct (inline_is_dirty c5) eqn:Hdirty.
  - destruct (fsync_inline alloc route gap w5 c5 ret) as [[r c6] w6] eqn:Hf. destruct (Hput c6 w6) as (c7 & w7 & -> & E1 & E2 & E3).
    intros [= -> <- <-]. split; [|split; [congruence|intros _ Hch; apply (fsync_inline_changed _ _ _ _ _ _ Hch) in Hf as ->; exact E3]].
    intros data _ Hs. eapply fsync_inline_spec in Hf as [Hf1 Hf2]; [|exact Hs].
    split; [by rewrite E3|]. unfold inline_is_dirty, c_lay in *. by rewrite E1.
  - destruct (fsync_chunks alloc route gap w5 c5) as [[[r c6] w6]|] eqn:Hf; [|done]. destruct (Hput c6 w6) as (c7 & w7 & -> & E1 & E2 & E3).
    intros [= -> <- <-]. split; [congruence|]. split; [|congruence]. intros _ Hr. apply fsync_chunks_spec in Hf as [Hd Hp]; [|done]. split.
    + intros o v n Ho Hl. rewrite E2. by apply (Hd o).
    + intros Hne. apply (published_later w5 w6); [done|apply E3|by apply Hp].
Qed.

(** ** Where commits end *)

(** C40. Defect: [powerfs_write_inode] writes back the size alone and marks it as
    committed; the commit that follows, at fsync or close, then finds nothing
    to publish.  It returns 0 and the filer still has the chunk map from
    before, however the file was written since. *)
Theorem size_writeback_hides_map (w w1 : W) (c c1 : commit_inode) (source : buffer) (k : nat) :
  (forall g c, gap g c = c) -> commit_ready c -> wp_map_dirty c = false -> alloc CA_chunks = true -> alloc CA_keys = true ->
  stopping (vol_pool_of w) = false -> content_size c <> c_size c ->
  powerfs_write_inode gap w c true true = (0, c1, false, w1) ->
  exists ret w2, powerfs_sync_inode_size_chunks alloc route gap w1 c1 source k = Some (ret, c1, w2) /\
    ff_data (filer w2 (c_ino c)) = ff_data (filer w (c_ino c)) /\ ff_size (filer w2 (c_ino c)) = c_size c.
Proof.
  intros Hgap Hr Hwp Ha1 Ha2 Hst Hne. pose proof Hr as (Hc & Hnm & Hs & Hm & Hi). unfold powerfs_write_inode.
  rewrite Hst, !(proj2 (Z.eqb_neq _ _)) by lia. cbn [negb orb]. destruct (powerfs_net_setattr _ _ _ _ _ _ _ _ _) as [r w1'] eqn:Hset.
  apply setattr_spec in Hset as [(N & D & _ & F) Hsr]; [|done|unfold is_u64; lia].
  destruct (Z.ltb_spec r 0); [intros [= -> _ _]; lia|]. intros [= <- <-]. destruct F as [F|[? _]]; [|lia]. rewrite Hgap.
  unfold powerfs_sync_inode_size_chunks. change (c_lay (set_content c (c_size c))) with (c_lay c). change (c_size (set_content c (c_size c))) with (c_size c).
  change (c_tbl (set_content c (c_size c))) with (c_tbl c). pose proof Hc as (_ & Hg & _ & _ & Hon & Hun & _). pose proof (chunk_size_pos _ Hg).
  rewrite Hon, Hun, (proj2 (Z.eqb_neq (c_size c) 0)), Ha1, Ha2 by lia. cbn [negb orb].
  destruct (sync_chunks_spec _ _ _ Hc Hs ltac:(lia)) as (cs & Hcs & Hlen & _). rewrite Hcs.
  destruct (map_ids _ _ _ _ Hc Hnm Hs ltac:(lia) Hcs) as [Hids _].
  assert (HC2 : chunk_size_of (c_lay c) < 2 ^ 32) by (unfold chunk_size_of, POWERFS_CHUNK_SIZE; destruct Hg as (? & _); case_if; lia).
  destruct (chunk_count_spec (chunk_size_of (c_lay c)) (c_size c) ltac:(lia) Hs ltac:(lia)) as [Hn1 _].
  destruct (flush_volumes w1' [] cs) as [fr w2] eqn:Hfl. apply flush_volumes_spec in Hfl as ((_ & Fs & _) & _ & _); [|done|lia|by intros ? ? ?%elem_of_nil].
  destruct (negb (fr =? 0)); [eexists _, _; split; [done|]; by rewrite (Fs (c_ino c)), F|].
  rewrite Hgap. cbn [content_size set_content wp_map_dirty]. rewrite Z.eqb_refl, Hwp. cbn [negb andb].
  eexists _, _. split; [done|]. by rewrite (Fs (c_ino c)), F.
Qed.

(** Defect: [powerfs_flush] looks for inline data to commit only after it has
    found that there are none; the file goes to the filer at the last close
    at the earliest. *)
Lemma flush_never_commits_inline (w : W) (c c1 c' : commit_inode) (fr ret : Z) (w1 w' : W) :
  e_writeback env w c 0 LLONG_MAX = (fr, c1, w1) -> placement (c_lay c1) = POWERFS_PLACEMENT_INLINE ->
  powerfs_flush alloc route gap env w c = Some (ret, c', w') -> c' = c1 /\ w' = w1.
Proof.
  intros Hwb Hp. unfold powerfs_flush. rewrite Hwb. destruct (inline_is_dirty c1) eqn:Hd; cbn [orb negb].
  - rewrite andb_false_r. by intros [= _ <- <-].
  - case_if; [|by intros [= _ <- <-]]. unfold flush_metadata. rewrite Hd, Hp. cbn. by intros [= _ <- <-].
Qed.

End commit.

(** Limit: with more than 1489 chunks (just under 1.5 GiB) the chunk map
    exceeds the longest field and is left out, the error of the encoder being
    ignored: the filer is told the new size without any map, in a message it
    can read. *)
Theorem large_map_left_out (shard ino size : Z) (cid : buffer) (cs : list powerfs_chunk_map) :
  is_u64 shard -> is_u64 ino -> is_u64 size -> client_ok cid -> 1489 < Z.of_nat (length cs) <= 4096 ->
  let os := head_ops shard ino size cid ++ reliability_ops POWERFS_PLACEMENT_FLAT in
  request (update_cap (Z.of_nat (length cs)) 0) (chunks_ops shard ino size cid (sent_refs cs)) = ops_message os /\
  readable (ops_message os) os.
Proof.
  intros H1 H2 H3 H4 Hn os. unfold chunks_ops. rewrite app_assoc. fold os.
  assert (Hos : Forall op_ok os) by (apply Forall_app; split; [by apply head_ops_ok|by apply reliability_ops_ok]).
  assert (Hl : blen (ops_message os) <= 200).
  { unfold os. rewrite ops_message_app, blen_app, blen_head_ops, blen_reliability_ops. destruct H4. lia. }
  rewrite request_drops_last.
  - split; [apply request_fit; [done|unfold update_cap; lia]|]. apply message_reads_back; [done|lia].
  - rewrite blen_layout_bytes. unfold sent_refs. rewrite length_imap. unfold POWERFS_NET_MAX_TLV. lia.
Qed.

(** ** A cluster *)

Module Sample.
Import Volume.Sample.

(** The volume servers of [Volume], their disks and the files of the filer. *)
Record cluster := mk_cluster { cl_vol : world; cl_disk : Z -> Z -> option buffer; cl_files : gmap Z filer_file }.

#[export] Instance cl_servers : VolumeServers cluster := { needle := fun w => stored (cl_vol w) }.
#[export] Instance cl_disks : DiskServers cluster := { on_disk := cl_disk }.
#[export] Instance cl_filer : Filer cluster := { filer := fun w i => default (mk_ff 0 FNone) (cl_files w !! i) }.

(** A flush writes all needles of its volume. *)
Definition cl_flush (w : cluster) (body : buffer) : Z * Z * buffer * cluster :=
  match powerfs_tlv_dec_u64 (powerfs_tlv_dec_init body (blen body)) POWERFS_NET_FLD_INO with
  | (_, Some v, _) =>
      if bool_decide (v ∈ w_down (cl_vol w)) then (- ETIMEDOUT, 0, [], w)
      else (0, 0, [], mk_cluster (cl_vol w) (fun v' n => if v' =? v then stored (cl_vol w) v' n else cl_disk w v' n) (cl_files w))
  | (_, None, _) => (0, 5, [], w)
  end.

Definition cl_send (w : cluster) (msg : Z) (body data : buffer) : Z * Z * buffer * cluster :=
  if msg =? POWERFS_NET_MSG_FLUSH_NEEDLES then cl_flush w body else
  let '(ret, st, resp, v) := answer (cl_vol w) msg body data in (ret, st, resp, mk_cluster v (cl_disk w) (cl_files w)).

#[export] Instance cl_transport : VolumeTransport cluster := {
  vol_pool_of := fun w => w_pool (cl_vol w);
  vol_alloc := fun _ _ => true;
  conn_send := fun w _ msg body data _ => cl_send w msg body data;
  conn_submit := fun w _ _ _ _ => (0, w);
  conn_wr_slot := fun w _ => (true, w);
  conn_record_start := fun w _ _ => w;
  conn_record_failed := fun w _ => w
}.

#[export] Instance cl_servers_ok : VolumeServersOk cluster.
Proof.
  split.
  - intros w v n b. exact (needle_fits (W := world) (cl_vol w) v n b).
  - intros w c msg body data cap ret st resp w'. unfold conn_send, cl_transport, cl_send, cl_flush. case_if.
    + repeat (case_match; simplify_eq); intros [= <- <- <- <-]; by split_and!.
    + destruct (answer _ _ _ _) as [[[r s] x] v] eqn:E'. intros [= <- <- <- <-].
      exact (send_errno (W := world) (cl_vol w) c msg body data cap _ _ _ _ E').
  - intros w c v n ret st resp w' Hv Hn Hc. unfold conn_send, cl_transport, cl_send. cbn [Z.eqb POWERFS_NET_MSG_READ_NEEDLE POWERFS_NET_MSG_FLUSH_NEEDLES Pos.eqb].
    destruct (answer _ _ _ _) as [[[r s] x] vw] eqn:E'. intros [= <- <- <- <-].
    exact (read_served (W := world) (cl_vol w) c v n _ _ _ _ Hv Hn Hc E').
  - intros w c v n ino tok data st resp w' Hv Hn Hi Ht Hc Hd. unfold conn_send, cl_transport, cl_send.
    cbn [Z.eqb POWERFS_NET_MSG_WRITE_NEEDLE POWERFS_NET_MSG_FLUSH_NEEDLES Pos.eqb].
    destruct (answer _ _ _ _) as [[[r s] x] vw] eqn:E'. intros [= -> <- <- <-] Hst.
    exact (write_served (W := world) (cl_vol w) c v n ino tok data _ _ _ Hv Hn Hi Ht Hc Hd E' Hst).
  - intros w c len. by split.
  - intros w c v n. done.
Qed.

(** What the filer decodes. *)
Definition read_update (body : buffer) : option filer_file :=
  let d := powerfs_tlv_dec_init body (blen body) in
  let '(_, _, d) := powerfs_tlv_dec_u64 d POWERFS_NET_FLD_SHARD_ID in
  let '(_, _, d) := powerfs_tlv_dec_u64 d POWERFS_NET_FLD_INO in
  let '(_, size, d) := powerfs_tlv_dec_u64 d POWERFS_NET_FLD_SIZE in
  let '(_, _, d) := powerfs_tlv_dec_string d POWERFS_NET_FLD_CLIENT_ID 65536 in
  let '(_, pl, d) := powerfs_tlv_dec_u8 d POWERFS_NET_FLD_PLACEMENT in
  let '(_, _, d) := powerfs_tlv_dec_string d POWERFS_NET_FLD_RELIABILITY 65536 in
  let '(_, _, d) := powerfs_tlv_dec_u8 d POWERFS_NET_FLD_RELIABILITY_STATE in
  size ← size; pl ← pl;
  if pl =? POWERFS_PLACEMENT_INLINE then
    s ← snd (fst (powerfs_tlv_dec_string d POWERFS_NET_FLD_INLINE_DATA 65536)); Some (mk_ff size (FInline s))
  else
    s ← snd (fst (powerfs_tlv_dec_string d POWERFS_NET_FLD_CHUNK_LAYOUT 65536));
    Some (mk_ff size (FChunks (parse_chunk_refs ((length s - 5) / 44) (drop 5 s)))).

Definition read_size (body : buffer) : option Z :=
  let '(_, _, d) := powerfs_tlv_dec_u64 (powerfs_tlv_dec_init body (blen body)) POWERFS_NET_FLD_INO in
  snd (fst (powerfs_tlv_dec_u64 d POWERFS_NET_FLD_SIZE)).

Definition put_file (w : cluster) (ino : Z) (new : option filer_file) : Z * buffer * cluster :=
  match new with
  | Some f => (0, [], mk_cluster (cl_vol w) (cl_disk w) (<[ino := f]> (cl_files w)))
  | None => (5, [], w)
  end.

Definition cl_request (w : cluster) (msg ino : Z) (body : buffer) : Z * buffer * cluster :=
  if msg =? POWERFS_NET_MSG_UPDATE_INODE_SIZE_CHUNKS then put_file w ino (read_update body) else
  if msg =? POWERFS_NET_MSG_SETATTR then put_file w ino ((fun size => mk_ff size (ff_data (filer w ino))) <$> read_size body) else
  (5, [], w).

#[export] Instance cl_net : NetTransport cluster := {
  net_jiffies := fun _ => 0;
  net_kvmalloc := fun _ _ => true;
  net_send_to_volume := fun w _ _ _ _ => (0, [], w);
  net_send_request := fun w msg ino body _ => cl_request w msg ino body
}.

#[export] Instance cl_net_ok : NetTransportOk cluster.
Proof.
  split.
  - intros w vol msg body cap ret resp w' Hc [= <- <- <-]. split; [done|]. split; [constructor|done].
  - intros w msg ino body cap ret resp w' Hc. cbn. unfold cl_request, put_file. intros H.
    repeat (case_match; simplify_eq); (split; [done|]; split; [constructor|done]).
Qed.

Lemma put_file_set w ino new ret resp w' : put_file w ino (Some new) = (ret, resp, w') -> filer_set w w' ino ret new.
Proof.
  intros [= <- <- <-]. split; [done|]. split; [done|]. cbn. split.
  - intros i Hi. by rewrite lookup_insert_ne.
  - left. by rewrite lookup_insert_eq.
Qed.

#[export] Instance cl_ok : CommitServersOk cluster.
Proof.
  split.
  - intros w c v keys body ret st resp w' Hc (d & Hd & _). unfold conn_send, cl_transport, cl_send. rewrite Z.eqb_refl. unfold cl_flush. rewrite Hd.
    case_bool_decide; intros [= <- <- <- <-]; [by split|]. split.
    + split; [done|]. split; [done|]. intros v' n. unfold durable. cbn. by case_if.
    + intros _ _. apply Forall_true. intros k. unfold durable. cbn. by rewrite Z.eqb_refl.
  - done.
  - done.
  - intros w shard ino size cid refs body ret resp w' (d1 & E1 & d2 & E2 & d3 & E3 & d4 & E4 & d5 & E5 & d6 & E6 & d7 & E7 & d8 & E8 & _) Hrefs.
    unfold net_send_request, cl_net, cl_request. rewrite Z.eqb_refl. unfold read_update. rewrite E1, E2, E3, E4, E5, E6, E7. cbn [mbind option_bind].
    change (POWERFS_PLACEMENT_FLAT =? POWERFS_PLACEMENT_INLINE) with false. cbv iota. rewrite E8. cbn [fst snd mbind option_bind]. intros H.
    assert (Hp : parse_chunk_refs ((length (layout_bytes refs) - 5) / 44) (drop 5 (layout_bytes refs)) = ref_map <$> refs).
    { pose proof (blen_layout_bytes refs) as Hl. unfold blen in Hl. replace (length (layout_bytes refs) - 5)%nat with (length refs * 44)%nat by lia.
      rewrite Nat.div_mul by done. unfold layout_bytes. rewrite skipn_cons. rewrite drop_app_length' by (by rewrite length_le_split).
      rewrite <- (app_nil_r (mjoin _)). by apply parse_encode_refs. }
    rewrite Hp in H. by eapply put_file_set.
  - intros w shard ino size cid data body ret resp w' (d1 & E1 & d2 & E2 & d3 & E3 & d4 & E4 & d5 & E5 & d6 & E6 & d7 & E7 & d8 & E8 & _).
    unfold net_send_request, cl_net, cl_request. rewrite Z.eqb_refl. unfold read_update. rewrite E1, E2, E3, E4, E5, E6, E7. cbn [mbind option_bind].
    rewrite Z.eqb_refl, E8. cbn [fst snd mbind option_bind]. intros H. by eapply put_file_set.
  - intros w ino size body ret resp w' (d1 & E1 & d2 & E2 & _). unfold net_send_request, cl_net, cl_request.
    change (POWERFS_NET_MSG_SETATTR =? POWERFS_NET_MSG_UPDATE_INODE_SIZE_CHUNKS) with false. rewrite Z.eqb_refl. cbv iota. unfold read_size. rewrite E1, E2.
    cbn [fst snd fmap option_fmap option_map]. intros H. by eapply put_file_set.
Qed.

Definition granted {A : Type} (a : A) : bool := true.
Definition alone {A B : Type} (a : A) (b : B) : B := b.
Definition route_one (i : Z) : Z := 1.

Definition clean_pages (c : commit_inode) : commit_inode :=
  mk_commit (c_file c) (content_size c) (setattr_pending c) (c_tbl c) (wp_map_dirty c) false (c_open c).

(** An environment in which capabilities are there and writeback works. *)
Definition calm : fs_env cluster :=
  mk_env cluster (fun w c _ => (0, POWERFS_CAP_WR_DATA, c, w)) (fun w c => (c, w)) (fun w c _ => (c, w)) (fun w c => (c, w))
    (fun w c _ _ => (0, clean_pages c, w)) (fun w c => (c, w)) (fun w f => (f, w)).

(** Two chunks of a Flat file that was written and not committed. *)
Definition doc : commit_inode :=
  mk_commit (mk_file 7 1 (POWERFS_CHUNK_SIZE + 5) flat true 0 false []) 0 false [] false true (mk_refs 0 1 true (Some 3)).
Definition written : cluster :=
  mk_cluster (mk_world one_server {[(1, 100) := [97]; (1, 101) := [98; 99]]} []) (fun _ _ => None) ∅.

Definition doc_map : list powerfs_chunk_map := [mk_cm 0 100 1 0 POWERFS_CHUNK_SIZE; mk_cm 1 101 1 0 5].

Definition sync (w : cluster) (c : commit_inode) (k : nat) :=
  powerfs_sync_inode_size_chunks granted route_one alone w c str_kernel_release k.
Definition fsync (w : cluster) (c : commit_inode) := powerfs_fsync granted granted route_one alone alone calm w c 0 LLONG_MAX.

(** Result, committed size, what the filer has of file 7, and the disk. *)
Definition view (r : option (Z * commit_inode * cluster)) : option (Z * Z * filer_file * option buffer * option buffer) :=
  (fun '(ret, c, w) => (ret, content_size c, filer w 7, on_disk w 1 100, on_disk w 1 101)) <$> r.

Example commit_runs : view (sync written doc 5) = Some (0, POWERFS_CHUNK_SIZE + 5, mk_ff (POWERFS_CHUNK_SIZE + 5) (FChunks doc_map), Some [97], Some [98; 99]).
Proof. vm_compute. reflexivity. Qed.

Lemma doc_committable : committable flat [].
Proof.
  destruct flat_is_flat as ((Hi & Hg & _) & _ & Hch & _ & _ & Hv & _). split; [done|]. split; [done|]. split; [done|]. split; [done|].
  split; [done|]. split; [done|]. split; [done|]. intros g e. unfold wp_entry_at. by case_if.
Qed.

Lemma doc_ready : commit_ready doc.
Proof.
  split; [exact doc_committable|]. split; [|by vm_compute]. intros o v n Ho Hl. change (c_lay doc) with flat in Hl. change (c_size doc) with 1048581 in Ho.
  rewrite (locate_flat_file flat o flat_is_flat) in Hl by lia. injection Hl as <- <-. split; [done|]. cbn [file_key flat plain].
  assert (0 <= o / POWERFS_CHUNK_SIZE < 2).
  { unfold POWERFS_CHUNK_SIZE. split; [apply Z.div_pos; lia|apply Z.div_lt_upper_bound; lia]. }
  rewrite u64_small by (unfold is_u64; lia). lia.
Qed.

Lemma commit_data_first_witness :
  exists ret c' w', sync written doc 5 = Some (ret, c', w') /\ commit_outcome written w' doc c' 0 ret.
Proof.
  apply (commit_data_first (W := cluster) granted route_one alone (fun _ => conj (Z.le_0_1) eq_refl) (fun _ _ => eq_refl) written doc str_kernel_release 5 doc_ready).
  apply kernel_names_ok.
Defined.

(** fsync of the file. *)
Example fsync_runs : view (fsync written doc) = Some (0, POWERFS_CHUNK_SIZE + 5, mk_ff (POWERFS_CHUNK_SIZE + 5) (FChunks doc_map), Some [97], Some [98; 99]).
Proof. vm_compute. reflexivity. Qed.

Definition after_fsync : cluster := match fsync written doc with Some (_, _, w) => w | None => written end.
Definition synced_doc : commit_inode := match fsync written doc with Some (_, c, _) => c | None => doc end.

Lemma fsync_commits_witness :
  fsync written doc = Some (0, synced_doc, after_fsync) /\
  fsynced granted alone written after_fsync (clean_pages doc) synced_doc.
Proof.
  assert (E : fsync written doc = Some (0, synced_doc, after_fsync)).
  { assert (Hr : (fun r => fst (fst r)) <$> fsync written doc = Some 0) by (vm_compute; reflexivity).
    unfold synced_doc, after_fsync. destruct (fsync written doc) as [[[r c] w]|]; [|done]. by injection Hr as ->. }
  split; [exact E|].
  exact (fsync_commits (W := cluster) granted granted route_one alone alone calm (fun _ => conj (Z.le_0_1) eq_refl) (fun _ _ => eq_refl)
    (fun w c r c' w' H => match H in _ = p return c_file p.1 = c_file c /\ same_needles w p.2 /\ same_disk w p.2 /\ same_filer w p.2 with
       eq_refl => conj eq_refl (conj (fun _ _ => eq_refl) (conj (fun _ _ => eq_refl) (fun _ => eq_refl))) end)
    written doc 0 LLONG_MAX synced_doc after_fsync E).
Defined.

(** The size is written back, then the file is committed. *)
Definition wrote_back := powerfs_write_inode alone written doc true true.

Lemma size_writeback_hides_map_witness :
  exists ret w2, sync (snd wrote_back) (snd (fst (fst wrote_back))) 5 = Some (ret, snd (fst (fst wrote_back)), w2) /\
    ff_data (filer w2 7) = ff_data (filer written 7) /\ ff_size (filer w2 7) = POWERFS_CHUNK_SIZE + 5.
Proof.
  apply (size_writeback_hides_map (W := cluster) granted route_one alone written (snd wrote_back) doc (snd (fst (fst wrote_back))) str_kernel_release 5
    (fun _ _ => eq_refl) doc_ready); try reflexivity. by vm_compute.
Defined.

Example map_lost_by_fsync : view (fsync (snd wrote_back) (snd (fst (fst wrote_back)))) =
  Some (0, POWERFS_CHUNK_SIZE + 5, mk_ff (POWERFS_CHUNK_SIZE + 5) FNone, Some [97], Some [98; 99]).
Proof. vm_compute. reflexivity. Qed.

(** Every close publishes the map before anything is on disk. *)
Example close_publishes_first : view (powerfs_flush granted route_one alone calm written doc) =
  Some (0, POWERFS_CHUNK_SIZE + 5, mk_ff (POWERFS_CHUNK_SIZE + 5) (FChunks doc_map), None, None).
Proof. vm_compute. reflexivity. Qed.

(** A server that does not answer: nothing is published. *)
Example flush_failed : view (sync (mk_cluster (mk_world one_server {[(1, 100) := [97]]} [1]) (fun _ _ => None) ∅) doc 5) =
  Some (- ETIMEDOUT, 0, mk_ff 0 FNone, None, None).
Proof. vm_compute. reflexivity. Qed.

(** A striped file over volumes 1 and 2 whose keys start at [k1] and 200:
    chunks 0 and 2 are on volume 1. *)
Definition striped (k1 : Z) : commit_inode :=
  mk_commit (mk_file 7 1 (2 * POWERFS_CHUNK_SIZE + 5)
    (plain POWERFS_PLACEMENT_STRIPE 0 (mk_stripe POWERFS_CHUNK_SIZE 2 0 (Some [1; 2]) 2 (Some [k1; 200])) no_chunks) true 0 false [])
    0 false [] false true (mk_refs 0 1 true (Some 3)).
Definition two_servers : vol_pool :=
  mk_pool false [mk_conn [49] 80 POWERFS_NET_SERVER_VOLUME true true; mk_conn [50] 80 POWERFS_NET_SERVER_VOLUME true true]
    [mk_route 1 0 (-1); mk_route 2 1 (-1)].
Definition striped_data (k1 : Z) : cluster :=
  mk_cluster (mk_world two_servers {[(1, k1) := [97]; (2, 200) := [98]; (1, k1 + 1) := [99]]} []) (fun _ _ => None) ∅.
Definition disk_of (k1 : Z) : option (Z * list (option buffer)) :=
  (fun '(ret, _, w) => (ret, [on_disk w 1 k1; on_disk w 2 200; on_disk w 1 (k1 + 1)])) <$> sync (striped_data k1) (striped k1) 1.

Example stripe_flushed : disk_of 100 = Some (0, [Some [97]; Some [98]; Some [99]]).
Proof. vm_compute. reflexivity. Qed.

(** Defect: a chunk with needle 0 hides the other chunks of its volume from
    the flush; the map is published all the same. *)
Example zero_needle_hides_volume : disk_of 0 = Some (0, [None; Some [98]; None]).
Proof. vm_compute. reflexivity. Qed.

(** Defect: a Flat file that has a chunk list is written where the list says
    and published where its key says. *)
Definition listed : layout_inode :=
  plain POWERFS_PLACEMENT_FLAT 100 no_stripe (mk_chunks (Some [mk_cm 0 555 2 0 5]) 1 None 0 None 0 0 0).

Example list_not_published : powerfs_locate_chunk listed 0 = At 2 555 /\ sync_chunks listed [] 5 = Some [mk_cm 0 100 1 0 5].
Proof. vm_compute. split; reflexivity. Qed.

(** Defect: a file of 5000 chunks gets a map of 4096, and the last one is said
    to hold the other 904 too. *)
Example map_cut : (fun cs => (length cs, cm_size <$> last cs)) <$> sync_chunks flat [] (5000 * POWERFS_CHUNK_SIZE) =
  Some (4096%nat, Some (905 * POWERFS_CHUNK_SIZE)).
Proof. vm_compute. reflexivity. Qed.

Definition large_map : list powerfs_chunk_map := replicate 1490 (mk_cm 0 100 1 0 POWERFS_CHUNK_SIZE).

Lemma large_map_left_out_witness :
  readable (ops_message (head_ops 1 7 (1490 * POWERFS_CHUNK_SIZE) str_kernel ++ reliability_ops POWERFS_PLACEMENT_FLAT))
    (head_ops 1 7 (1490 * POWERFS_CHUNK_SIZE) str_kernel ++ reliability_ops POWERFS_PLACEMENT_FLAT).
Proof.
  apply (large_map_left_out 1 7 (1490 * POWERFS_CHUNK_SIZE) str_kernel large_map (conj Z.le_0_1 eq_refl) ltac:(by vm_compute) ltac:(by vm_compute)).
  - apply kernel_names_ok.
  - unfold large_map. rewrite length_replicate. lia.
Defined.

End Sample.
